(* ===== verification/_CoqProject ===== *)
-Q . S2P
Prelude.v
Text.v
Effects.v
Arrow.v
Watermark.v
Dedup.v
Source.v
Kafka.v
Checkpoint.v
Sink.v
Delta.v
DeltaSpec.v
Scheduler.v
ExactlyOnce.v
Deploy.v
Aqe.v
Shuffle.v
Spill.v
SpillWorker.v
SpillRefine.v
SpillOwn.v
SpillRuns.v
StageDag.v
Cluster.v
TaskRetry.v
PipelineGraph.v
FlowSql.v
PipelinePass.v
Cron.v
PgOutput.v
PgCdc.v
PgStream.v
PgSnapshot.v
PgCdcRuns.v
HistoryRecord.v
Journal.v
JournalDisk.v
JournalSwap.v
JournalAck.v
JournalQueue.v
JournalCodecs.v
JournalRuns.v
StatementStore.v
StoreThreads.v
StoreWf.v
StoreRecords.v
StoreRuns.v
