(* ===== verification/Prelude.v ===== *)
(** * Oxidant: a verification library (root and prelude)

    Oxidant is a Spark-compatible engine in Rust: streaming queries that write
    Delta tables exactly once, declarative pipelines over such tables, and
    distributed execution of a query's stages.  This library models its own
    core logic, file by file, and proves what the code relies on.  All paths
    below are under [crates/].

    ** Streaming ([oxidant-streaming], [oxidant-datasource])

    - [Watermark], [Dedup], [Arrow]: [watermark.rs] and [state.rs], over what
      they read of Arrow batches (the class [Arrow]).  The tracker is the
      maximum, watermarks never go back, late rows are counted exactly; the
      deduplicated output is the first occurrence of every key.
    - [Source]: [source.rs].  The [Source] trait as a class, its documented
      contract as [SourceLaws], and the rate and file sources discharging it.
    - [Kafka]: [kafka.rs].  Options, assignment, the split of
      [maxOffsetsPerTrigger], planning, reading, checkpointed positions.  The
      client library is the record [Broker].
    - [Checkpoint], [Sink], [Delta], [DeltaSpec]: [checkpoint.rs], [sink.rs],
      [delta_write.rs] and the writing half of [lake_sink.rs], against an
      object store; [DeltaSpec] is the abstract table and the refinement.
    - [Scheduler]: [scheduler.rs].  One trigger, drains, recovery, start; every
      external call may fail before or after it takes effect or be where the
      process dies ([Effects]).
    - [ExactlyOnce], [Deploy]: the composition.  [exactly_once] says that
      whatever fails or crashes, the table holds the planned batches once each
      and in order, for any source meeting [SourceLaws] and any sink meeting
      [Sink]; [Deploy] instantiates it with the file source and the Delta sink.
      Its hypotheses exclude the faults that break the property, and
      [Deploy.Runs] has a concrete execution for each of those.
    - [PgOutput]: [pg_replication.rs].  The logical replication messages: round
      trips, truncation, termination of the decoder.
    - [PgCdc], [PgStream], [PgSnapshot], [PgCdcRuns]: [postgres_cdc.rs].  The
      change-data-capture source: options, slot, snapshot of the tables, reading
      the log in whole transactions, confirming positions.  [PgStream] has what
      one life of the source does (a replay reproduces the plan, confirmations
      carry the durable position, every call answers), [PgSnapshot] what holds
      across crashes (no stretch of the log before a complete snapshot),
      [PgCdcRuns] the witnesses and three runs that lose rows.  The server is
      the class [CdcWire], Arrow builders and hex the class [CdcLib].

    ** Pipelines ([oxidant-pipelines])

    - [PipelineGraph]: [graph.rs].  The order of the tables, cycles, selections.
    - [FlowSql]: [output_write.rs] and [expectations.rs].  The SQL a derived
      table runs; the query engine is the class [Engine], what SQL promises
      about the generated text the class [SqlSemantics].
    - [PipelinePass]: [runner.rs].  One pass over the tables: what is skipped,
      what is left alone, what a recompute commits.  [pass_leaves_fresh] is the
      correctness of a pass; [PassRuns] shows how a failed update goes stale.
    - [Cron]: [cron.rs].

    ** Distributed execution ([oxidant-execution])

    - [Aqe], [Shuffle]: [aqe.rs], [shuffle/partition.rs], [shuffle/protocol.rs],
      [shuffle/mod.rs].  Coalesced reads and hash partitioning; [exchange_correct]
      composes them: every row reaches exactly one reader, rows with equal keys
      the same one.
    - [StageDag]: [dag_dispatch.rs] and the dispatch loop of [driver.rs] as a
      step relation, with safety, completeness and termination.
    - [Cluster]: [membership.rs], [autoscale.rs], the cluster snapshot of
      [driver.rs].
    - [TaskRetry]: [scheduler.rs] and [lineage.rs].  Attempts, recomputation of
      shuffle inputs, alternate workers, with a log of what was run.
    - [Spill], [SpillWorker]: [shuffle/spill.rs] and the stage cache of
      [flight.rs].  The bucket cache with its spill files under their real names,
      the worker-wide budget, producer tasks as step machines whose steps
      interleave with pushes, reads and cleanups.  Arrow IPC is the class
      [ArrowIpc]; every write of a file may fail before or part-way.
    - [SpillRefine], [SpillRuns]: the worker refines a map from producer scopes
      to buckets that has no files, thresholds or budget ([spilling_invisible]);
      with [Shuffle] a read returns the rows of the stream that hash to the
      bucket; the budget holds between steps, row counts are exact and no file
      outlives its owner.  The hypotheses exclude a task run again over its own
      output, expired entries and failing writes, and [SpillRuns] has a run that
      serves wrong rows for each of those.

    ** Statement history ([oxidant-connect])

    - [HistoryRecord]: [history/record.rs].  Records and the fold that replays
      them; the fold of a coherent journal depends only on the set of records.
    - [Journal]: [history/journal.rs], [history/fs_util.rs].  The writer, the
      compaction swap, recovery, replay, quarantine, over a file system in
      which [cur] is what the process sees and [poss] what the disk may hold
      when the power fails; a script says what becomes of each operation.
      [serde_json] is the class [JournalCodec] with its laws.
    - [JournalDisk], [JournalSwap], [JournalAck], [JournalQueue]: names, lines
      and records of a directory; a compaction cut off anywhere loses nothing;
      the writer's invariant; producers, the bounded channel and the writer as
      an interleaved step relation, with [system_ack_survives]: an acknowledged
      statement survives a power failure at any point.
    - [JournalCodecs], [JournalRuns]: a codec with the laws, the witnesses, and
      three runs outside the hypotheses that lose acknowledged statements.
    - [StatementStore], [StoreThreads]: [rest.rs], [history/results.rs] and
      [history/mod.rs].  The two tiers of statements behind the store's mutex
      with their indexes, caps and retention; and the store's operations, the
      spill thread and boot as threads whose locked sections, sequence draws,
      appends and file operations interleave freely ([Step]).
    - [StoreWf], [StoreRecords], [StoreRuns]: the store is well formed in every
      interleaving, its caps hold and outcomes are final; the records it hands
      to the journal are coherent and replaying them rebuilds the store, which
      closes the loop with [HistoryRecord]; the witnesses, and runs in which an
      evicted statement comes back, a live result is deleted and a statement is
      called durable too early.

    ** Conventions

    Machine integers are [Z] in their range; the release profile leaves overflow
    checks off, so arithmetic wraps where it is written plain and saturates where
    the code says so.  Strings are lists of Unicode scalar values ([Text] has
    their operations, number formats and UTF-8).  Errors are values of [Error]
    in [result]; [let!] is the [?] operator.  Hash and tree maps are [gmap]s, or
    sorted lists where their order is observable.  Environment variables, clocks
    and answers of other processes are arguments.

    Recursion that is not structural carries fuel, and each such function has a
    theorem that the fuel given is enough: the depth-first sort of the graph
    (one unit per table), the section loop of the replication decoder (one per
    byte), the expansion of a cron field (one per value before the addition
    wraps), the recomputation of shuffle inputs (the depth of the stage graph),
    the reads of the replication source ([cdc_answers]), the cap loops of the
    statement store (one per statement, [hot_cap_enough], [cap_loop_spec]), the
    budget loop of the stage cache (one per entry, [enforce_loop_sim]).
    The loops the code bounds itself (drains, recoveries, retries, fetch rounds)
    carry the code's own bound.

    ** What is not modelled

    DataFusion, Arrow, object stores, brokers and gRPC are libraries and appear
    as classes or records.  The distributed planner matches on DataFusion plans;
    the Spark Connect server, the catalogs, the gateway and the user interface
    translate protocols.  Of the replication source, the introspection of the
    catalog, the byte rendering of values and the sockets are left out; of the
    journal, file modes and the data-directory lock; of the statement store,
    the log and dump pruning of the disk sweep, the status counters and the HTTP
    handlers; of the Flight worker, the execution of a stage, the pulls of its
    inputs and its task slots.  The disk budget over the log and dump files, the
    row-hash reconciliation of pipelines and the event replay of the
    observability store are the parts that could still be modelled. *)

From Stdlib Require Export ZArith Lia String Ascii.
From stdpp Require Export base tactics list gmap sorting fin_maps strings.

#[global] Open Scope Z_scope.
#[global] Open Scope list_scope.

(** ** Errors and results

    [Error] is [oxidant_common::Error]: four variants, each carrying its
    message.  [result] is [std::result::Result]. *)

Abbreviation str := (list Z) (only parsing).

Inductive Error :=
  | Plan (m : str)
  | Execution (m : str)
  | Unsupported (m : str)
  | Io (m : str).

Inductive result (E A : Type) :=
  | Ok (a : A)
  | Err (e : E).
Arguments Ok {E A} a.
Arguments Err {E A} e.

Definition is_ok {E A} (r : result E A) : bool :=
  match r with Ok _ => true | Err _ => false end.

Definition rbind {E A B} (r : result E A) (k : A -> result E B) : result E B :=
  match r with Ok a => k a | Err e => Err e end.

Definition rmap {E A B} (f : A -> B) (r : result E A) : result E B :=
  match r with Ok a => Ok (f a) | Err e => Err e end.

(** [ok_or] and [Option::ok_or_else]. *)
Definition ok_or {E A} (o : option A) (e : E) : result E A :=
  match o with Some a => Ok a | None => Err e end.

Declare Scope oxidant_scope.
Delimit Scope oxidant_scope with ox.
#[global] Open Scope oxidant_scope.

(** The [?] operator. *)
Notation "'let!' x ':=' r 'in' k" := (rbind r (fun x => k))
  (at level 10, x name, r at level 100, k at level 200) : oxidant_scope.
Notation "'let!' ' p ':=' r 'in' k" := (rbind r (fun x => match x with p => k end))
  (at level 10, p pattern, r at level 100, k at level 200) : oxidant_scope.

(** [collect::<Result<Vec<_>>>] over a mapped iterator: stop at the first error. *)
Fixpoint mapM_result {E A B} (f : A -> result E B) (l : list A) : result E (list B) :=
  match l with
  | [] => Ok []
  | x :: l => let! y := f x in let! ys := mapM_result f l in Ok (y :: ys)
  end.

Lemma mapM_result_ok {E A B} (f : A -> result E B) l k : mapM_result f l = Ok k -> Forall2 (fun x y => f x = Ok y) l k.
Proof.
  revert k. induction l as [|x l IH]; intros k Hk; simpl in Hk; [simplify_eq; constructor|].
  destruct (f x) as [y|] eqn:Hx; [|done]. simpl in Hk. destruct (mapM_result f l) as [ys|]; [|done].
  simplify_eq/=. constructor; [done|]. by apply IH.
Qed.

(** ** Machine integers

    A [w]-bit integer is a [Z] in its range; the release profile of the
    workspace leaves overflow checks off, so plain [+], [-], [*] wrap. *)

Definition wrapu (w z : Z) : Z := z mod 2 ^ w.
Definition wraps (w z : Z) : Z := (z + 2 ^ (w - 1)) mod 2 ^ w - 2 ^ (w - 1).
Definition u_max (w : Z) : Z := 2 ^ w - 1.
Definition i_max (w : Z) : Z := 2 ^ (w - 1) - 1.
Definition i_min (w : Z) : Z := - 2 ^ (w - 1).
Definition u_ok (w z : Z) : Prop := 0 <= z <= u_max w.
Definition i_ok (w z : Z) : Prop := i_min w <= z <= i_max w.
Definition clampi (lo hi z : Z) : Z := Z.max lo (Z.min hi z).
Definition sat_addu (w a b : Z) : Z := Z.min (u_max w) (a + b).
Definition sat_subu (a b : Z) : Z := Z.max 0 (a - b).
Definition sat_i (w z : Z) : Z := clampi (i_min w) (i_max w) z.

Lemma wrapu_small w z : u_ok w z -> 0 <= w -> wrapu w z = z.
Proof.
  unfold u_ok, u_max, wrapu. intros [??] ?. apply Z.mod_small. lia.
Qed.

Lemma wrapu_range w z : 0 <= w -> u_ok w (wrapu w z).
Proof.
  intros Hw. unfold u_ok, u_max, wrapu.
  pose proof (Z.mod_pos_bound z (2 ^ w) ltac:(apply Z.pow_pos_nonneg; lia)). lia.
Qed.

Lemma wraps_small w z : i_ok w z -> 0 < w -> wraps w z = z.
Proof.
  unfold i_ok, i_min, i_max, wraps. intros [??] ?.
  assert (2 ^ w = 2 * 2 ^ (w - 1)) by (rewrite <-Z.pow_succ_r by lia; f_equal; lia).
  rewrite Z.mod_small; lia.
Qed.

Lemma sat_i_range w z : 0 < w -> i_ok w (sat_i w z).
Proof.
  intros ?. unfold i_ok, sat_i, clampi, i_min, i_max.
  pose proof (Z.pow_pos_nonneg 2 (w - 1) ltac:(lia) ltac:(lia)). lia.
Qed.

Lemma sat_i_small w z : i_ok w z -> sat_i w z = z.
Proof. unfold i_ok, sat_i, clampi. lia. Qed.

Lemma sat_i_mono w a b : a <= b -> sat_i w a <= sat_i w b.
Proof. unfold sat_i, clampi. lia. Qed.

(** ** Tactics *)

(** Split every hypothesis of the form [_ /\ _] or [exists _, _]. *)
Ltac split_hyps :=
  repeat match goal with
  | H : _ /\ _ |- _ => destruct H
  | H : exists x, _ |- _ => let x' := fresh x in destruct H as [x' H]
  | H : _ * _ |- _ => destruct H
  end.

(** Case analysis on the scrutinee of a [match]/[if] of the goal or of a
    hypothesis, keeping the equation. *)
Ltac case_goal :=
  match goal with
  | |- context [match ?x with _ => _ end] => destruct x eqn:?
  end.
Ltac case_hyp H :=
  match type of H with
  | context [match ?x with _ => _ end] => destruct x eqn:?
  end.

(** Turn boolean comparisons into propositions. *)
Ltac bool_to_prop :=
  repeat match goal with
  | H : (_ <? _) = true |- _ => apply Z.ltb_lt in H
  | H : (_ <? _) = false |- _ => apply Z.ltb_ge in H
  | H : (_ <=? _) = true |- _ => apply Z.leb_le in H
  | H : (_ <=? _) = false |- _ => apply Z.leb_gt in H
  | H : (_ =? _) = true |- _ => apply Z.eqb_eq in H
  | H : (_ =? _) = false |- _ => apply Z.eqb_neq in H
  | H : (_ && _) = true |- _ => apply andb_true_iff in H; destruct H
  | H : (_ || _) = false |- _ => apply orb_false_iff in H; destruct H
  | H : negb _ = true |- _ => apply negb_true_iff in H
  | H : negb _ = false |- _ => apply negb_false_iff in H
  | H : bool_decide _ = true |- _ => apply bool_decide_eq_true_1 in H
  | H : bool_decide _ = false |- _ => apply bool_decide_eq_false_1 in H
  end.

(** Invert a successful result computation. *)
Ltac inv_result H :=
  repeat (unfold rbind, rmap, ok_or in H; simpl in H;
          first [ discriminate H | progress simplify_eq H
                | match type of H with
                  | match ?x with _ => _ end = _ => destruct x eqn:?; try discriminate H
                  end ]);
  simplify_eq.

(** The same one [rbind] at a time, without unfolding anything else. *)
Ltac step_ok H :=
  match type of H with
  | rbind ?r _ = Ok _ => destruct r eqn:?; [cbn [rbind] in H|discriminate H]
  | ok_or ?o _ = Ok _ => destruct o eqn:?; [cbn [ok_or] in H|discriminate H]
  | (if ?b then _ else _) = Ok _ => destruct b eqn:?; try discriminate H
  | (let ' (_, _) := ?p in _) = Ok _ => destruct p eqn:?
  | match ?o with Some _ => _ | None => _ end = Ok _ => destruct o eqn:?; try discriminate H
  | Ok _ = Ok _ => injection H; clear H; intros; subst
  end.

(** ** The hint database of the library

    [oxidant] holds the lemmas that settle the routine side conditions. *)
Create HintDb oxidant discriminated.
#[export] Hint Resolve wrapu_range sat_i_range : oxidant.

(** ** Lists *)

Definition sumZ (l : list Z) : Z := foldr Z.add 0 l.

Lemma sumZ_app l1 l2 : sumZ (l1 ++ l2) = sumZ l1 + sumZ l2.
Proof. unfold sumZ. induction l1; simpl; lia. Qed.

Lemma sumZ_perm l1 l2 : l1 ≡ₚ l2 -> sumZ l1 = sumZ l2.
Proof. unfold sumZ. induction 1; simpl; lia. Qed.

Lemma sumZ_nonneg l : Forall (fun x => 0 <= x) l -> 0 <= sumZ l.
Proof. unfold sumZ. induction 1; simpl; lia. Qed.

Lemma sumZ_elem_le l x : Forall (fun x => 0 <= x) l -> x ∈ l -> x <= sumZ l.
Proof.
  unfold sumZ. induction 1 as [|y l ?? IH]; [by inversion 1|].
  simpl. intros Hx. apply elem_of_cons in Hx as [->|Hx].
  - assert (0 <= sumZ l) by (by apply sumZ_nonneg). unfold sumZ in *. lia.
  - apply IH in Hx. lia.
Qed.

(** [Iterator::max] on a list of integers, [unwrap_or d]. *)
Definition maxZ (d : Z) (l : list Z) : Z :=
  match l with [] => d | x :: l => foldl Z.max x l end.

Lemma foldl_max_ge x l : x <= foldl Z.max x l.
Proof. revert x. induction l as [|y l IH]; simpl; intros x; [lia|]. specialize (IH (x `max` y)). lia. Qed.

Lemma foldl_max_elem x l y : y ∈ l -> y <= foldl Z.max x l.
Proof.
  revert x. induction l as [|z l IH]; simpl; intros x Hy; [by inversion Hy|].
  apply elem_of_cons in Hy as [->|Hy]; [|by apply IH].
  pose proof (foldl_max_ge (x `max` z) l). lia.
Qed.

Lemma foldl_max_in x l : foldl Z.max x l = x \/ foldl Z.max x l ∈ l.
Proof.
  revert x. induction l as [|y l IH]; simpl; intros x; [by left|].
  destruct (IH (x `max` y)) as [H|H].
  - rewrite H. destruct (Z.max_spec x y) as [[_ ->]|[_ ->]]; [right; left|by left].
  - right. by right.
Qed.

Lemma maxZ_elem d l x : x ∈ l -> x <= maxZ d l.
Proof.
  destruct l as [|y l]; [by inversion 1|]. simpl. intros Hx.
  apply elem_of_cons in Hx as [->|Hx]; [apply foldl_max_ge|by apply foldl_max_elem].
Qed.

Lemma maxZ_in d l : l <> [] -> maxZ d l ∈ l.
Proof.
  destruct l as [|y l]; [done|]. intros _. simpl.
  destruct (foldl_max_in y l) as [->|]; [left|by right].
Qed.

Lemma maxZ_le d l b : d <= b -> Forall (fun x => x <= b) l -> maxZ d l <= b.
Proof.
  intros Hd Hl. destruct l as [|y l]; [done|].
  rewrite Forall_forall in Hl. apply Hl. by apply maxZ_in.
Qed.

(** The half-open range [a..b] of integers. *)
Definition range (a b : Z) : list Z := (fun i => a + Z.of_nat i) <$> seq 0 (Z.to_nat (b - a)).

Lemma elem_of_range a b x : x ∈ range a b <-> a <= x < b.
Proof.
  unfold range. rewrite list_elem_of_fmap. split.
  - intros (i & -> & Hi). apply elem_of_seq in Hi. lia.
  - intros Hx. exists (Z.to_nat (x - a)). split; [lia|]. apply elem_of_seq. lia.
Qed.

Lemma range_NoDup a b : NoDup (range a b).
Proof. unfold range. apply NoDup_fmap_2; [intros ???; lia|]. apply NoDup_seq. Qed.

Lemma length_range a b : length (range a b) = Z.to_nat (b - a).
Proof. unfold range. by rewrite length_fmap, length_seq. Qed.

Lemma range_nil a b : b <= a -> range a b = [].
Proof. intros. unfold range. by replace (Z.to_nat (b - a)) with 0%nat by lia. Qed.

Lemma range_cons a b : a < b -> range a b = a :: range (a + 1) b.
Proof.
  intros. unfold range. replace (Z.to_nat (b - a)) with (S (Z.to_nat (b - (a + 1)))) by lia.
  rewrite <-cons_seq, fmap_cons, <-fmap_S_seq, <-list_fmap_compose. f_equal; [lia|].
  apply list_fmap_ext. intros i x Hx. simpl. lia.
Qed.

Lemma range_snoc a b : a <= b -> range a (b + 1) = range a b ++ [b].
Proof.
  intros. unfold range. replace (Z.to_nat (b + 1 - a)) with (Z.to_nat (b - a) + 1)%nat by lia.
  rewrite seq_app, fmap_app. f_equal. simpl. f_equal. lia.
Qed.

(** Two lists without duplicates and with the same members are permutations. *)
Lemma NoDup_same_perm {A} (l k : list A) :
  NoDup l -> NoDup k -> (forall x, x ∈ l <-> x ∈ k) -> l ≡ₚ k.
Proof. intros. by apply NoDup_Permutation. Qed.

(** The defining equation of [≫=] on a cons. *)
Lemma bind_cons_eq {A B} (f : A -> list B) x l : (x :: l) ≫= f = f x ++ (l ≫= f).
Proof. done. Qed.

Lemma bind_assoc {A B C} (f : A -> list B) (g : B -> list C) l :
  (l ≫= f) ≫= g = l ≫= (fun x => f x ≫= g).
Proof. induction l as [|x l IH]; [done|]. by rewrite !bind_cons_eq, bind_app, IH. Qed.

(** Predicates that agree on the members filter alike. *)
Lemma filter_ext_elem {A} (P Q : A -> Prop) `{!forall x, Decision (P x), !forall x, Decision (Q x)} (l : list A) :
  (forall x, x ∈ l -> P x <-> Q x) -> filter P l = filter Q l.
Proof.
  induction l as [|x l IH]; intros Hpq; [done|]. rewrite !filter_cons.
  rewrite IH by (intros; apply Hpq; by right). pose proof (Hpq x ltac:(left)).
  destruct (decide (P x)), (decide (Q x)); try done; exfalso; tauto.
Qed.

(** A predicate no member satisfies filters everything out. *)
Lemma filter_none {A} (P : A -> Prop) `{!forall x, Decision (P x)} (l : list A) :
  (forall x, P x -> x ∉ l) -> filter P l = [].
Proof.
  induction l as [|x l IH]; intros Hn; [done|]. rewrite filter_cons_False by (intros Hx; apply (Hn x Hx); left).
  apply IH. intros y Hy Hin. apply (Hn y Hy). by right.
Qed.

(** [Vec::dedup]: drop elements equal to their predecessor. *)
Fixpoint dedup_adj (l : list Z) : list Z :=
  match l with
  | x :: (y :: _) as t => if x =? y then dedup_adj t else x :: dedup_adj t
  | _ => l
  end.

Lemma elem_of_dedup_adj l x : x ∈ dedup_adj l <-> x ∈ l.
Proof.
  induction l as [|a l IH]; [done|]. destruct l as [|b l]; [done|].
  change (dedup_adj (a :: b :: l)) with
    (if a =? b then dedup_adj (b :: l) else a :: dedup_adj (b :: l)).
  destruct (Z.eqb_spec a b) as [->|].
  - rewrite IH. rewrite !elem_of_cons. tauto.
  - rewrite !elem_of_cons, IH, elem_of_cons. done.
Qed.

(** [sort_unstable] followed by [dedup]. *)
Definition sort_dedup (l : list Z) : list Z := dedup_adj (merge_sort Z.le l).

Lemma elem_of_sort_dedup l x : x ∈ sort_dedup l <-> x ∈ l.
Proof.
  unfold sort_dedup. rewrite elem_of_dedup_adj.
  by rewrite (merge_sort_Permutation Z.le l).
Qed.

#[global] Instance Zle_total : Total Z.le.
Proof. intros x y. lia. Qed.

Lemma dedup_adj_sorted l : StronglySorted Z.le l -> StronglySorted Z.lt (dedup_adj l).
Proof.
  induction 1 as [|a l Hl IH Ha]; [constructor|].
  destruct l as [|b l]; [repeat constructor|].
  change (dedup_adj (a :: b :: l)) with
    (if a =? b then dedup_adj (b :: l) else a :: dedup_adj (b :: l)).
  destruct (Z.eqb_spec a b); [done|]. constructor; [done|].
  apply Forall_forall. intros x Hx. apply (proj1 (elem_of_dedup_adj _ _)) in Hx.
  inversion Ha; subst. inversion Hl; subst.
  apply elem_of_cons in Hx as [->|Hx]; [lia|].
  match goal with H : Forall (Z.le b) l |- _ => rewrite Forall_forall in H; specialize (H _ Hx) end. lia.
Qed.

Lemma sort_dedup_sorted l : StronglySorted Z.lt (sort_dedup l).
Proof.
  apply dedup_adj_sorted. apply StronglySorted_merge_sort; apply _.
Qed.

Lemma StronglySorted_lt_NoDup l : StronglySorted Z.lt l -> NoDup l.
Proof.
  induction 1 as [|a l ? IH Ha]; constructor; [|done].
  intros Hin. rewrite Forall_forall in Ha. apply Ha in Hin. lia.
Qed.

(** A transitive fold: an invariant kept by each step is kept by [foldl]. *)
Lemma foldl_inv {A B} (P : A -> Prop) (f : A -> B -> A) (l : list B) a :
  P a -> (forall a b, b ∈ l -> P a -> P (f a b)) -> P (foldl f a l).
Proof.
  revert a. induction l as [|b l IH]; simpl; intros a Ha Hstep; [done|].
  apply IH; [apply Hstep; [left|done]|]. intros; apply Hstep; [by right|done].
Qed.

(** A commutative step makes [foldl] invariant under permutation, for a
    congruence [R] and inputs related pairwise by [C]. *)
Lemma foldl_comm_perm {A B} (f : A -> B -> A) (C : B -> B -> Prop) (l k : list B) :
  (forall a b c, b ∈ l -> c ∈ l -> C b c -> f (f a b) c = f (f a c) b) ->
  (forall b c, b ∈ l -> c ∈ l -> C b c) ->
  l ≡ₚ k -> forall a, foldl f a l = foldl f a k.
Proof.
  intros Hcomm HC Hp. revert Hcomm HC.
  induction Hp as [|x l k Hp IH|x y l|l k m Hp1 IH1 Hp2 IH2]; intros Hcomm HC a; simpl.
  - done.
  - apply IH; intros; [apply Hcomm|apply HC]; try (by right); done.
  - rewrite Hcomm; [done|by repeat constructor|by repeat constructor|].
    apply HC; by repeat constructor.
  - rewrite IH1 by done. apply IH2; intros; [apply Hcomm|apply HC]; try done; by rewrite Hp1.
Qed.
