(* ===== verification/Text.v ===== *)
(** * Text: the parts of Rust's [str], [char] and integer formatting the engine uses

    A Rust string is modelled as the list of its Unicode scalar values
    ([str], a [list Z]); [utf8_encode] and [from_utf8] relate it to its bytes.
    Everything here is the language's standard library; the lemmas are the
    ones the components share (splitting, decimal and hexadecimal round
    trips, the UTF-8 round trip, integers as little- and big-endian bytes). *)

From S2P Require Import Prelude.

(** ASCII literals. *)
Fixpoint lit (s : string) : str :=
  match s with
  | EmptyString => []
  | String a s => Z.of_N (N_of_ascii a) :: lit s
  end.

(** [format!]: the concatenation of its pieces. *)
Definition fmt (parts : list str) : str := concat parts.

(** [Display] of [Error]. *)
Definition error_to_string (e : Error) : str :=
  match e with
  | Plan m => fmt [lit "plan error: "; m]
  | Execution m => fmt [lit "execution error: "; m]
  | Unsupported m => fmt [lit "unsupported: "; m]
  | Io m => fmt [lit "io error: "; m]
  end.

(** ** Order *)

(** Lexicographic order on scalar values, which is the byte order of the
    UTF-8 encodings and so Rust's order on strings. *)
Fixpoint str_le (a b : str) : Prop :=
  match a, b with
  | [], _ => True
  | _ :: _, [] => False
  | x :: a, y :: b => x < y \/ (x = y /\ str_le a b)
  end.
#[export] Instance str_le_dec a b : Decision (str_le a b).
Proof.
  revert b. induction a as [|x a IH]; intros [|y b]; simpl; try apply _.
Defined.
#[export] Instance str_le_total : Total str_le.
Proof.
  intros a. induction a as [|x a IH]; intros [|y b]; simpl; auto.
  destruct (Z.lt_trichotomy x y) as [?|[->|?]]; auto.
  destruct (IH b); auto.
Qed.
#[export] Instance str_le_trans : Transitive str_le.
Proof.
  intros a. induction a as [|x a IH]; intros [|y b] [|z c]; simpl; try done.
  intros [?|[-> ?]] [?|[-> ?]]; [left; lia|by left|by left|right]. split; [done|]. by eapply IH.
Qed.

(** ** Characters *)

(** [char::is_whitespace]: the Unicode [White_Space] property. *)
Definition is_whitespace (c : Z) : bool :=
  ((9 <=? c) && (c <=? 13)) || (c =? 32) || (c =? 133) || (c =? 160) || (c =? 5760)
  || ((8192 <=? c) && (c <=? 8202)) || (c =? 8232) || (c =? 8233) || (c =? 8239)
  || (c =? 8287) || (c =? 12288).

(** [u8::is_ascii_whitespace]: space, tab, newline, form feed, carriage return. *)
Definition is_ascii_whitespace (c : Z) : bool :=
  (c =? 32) || (c =? 9) || (c =? 10) || (c =? 12) || (c =? 13).

Definition is_ascii_digit (c : Z) : bool := (48 <=? c) && (c <=? 57).
Definition is_ascii_upper (c : Z) : bool := (65 <=? c) && (c <=? 90).
Definition is_ascii_lower (c : Z) : bool := (97 <=? c) && (c <=? 122).
Definition is_ascii_alphabetic (c : Z) : bool := is_ascii_upper c || is_ascii_lower c.
Definition is_ascii_alphanumeric (c : Z) : bool := is_ascii_alphabetic c || is_ascii_digit c.
Definition to_ascii_lowercase_char (c : Z) : Z := if is_ascii_upper c then c + 32 else c.
Definition to_ascii_lowercase (s : str) : str := to_ascii_lowercase_char <$> s.
Definition eq_ignore_ascii_case (a b : str) : bool :=
  bool_decide (to_ascii_lowercase a = to_ascii_lowercase b).

(** ** Trimming and splitting *)

Fixpoint drop_while (p : Z -> bool) (s : str) : str :=
  match s with
  | [] => []
  | c :: t => if p c then drop_while p t else s
  end.

Fixpoint take_while (p : Z -> bool) (s : str) : str :=
  match s with
  | [] => []
  | c :: t => if p c then c :: take_while p t else []
  end.

Definition trim_start (s : str) : str := drop_while is_whitespace s.
Definition trim_end_matches (p : Z -> bool) (s : str) : str := reverse (drop_while p (reverse s)).
Definition trim_end (s : str) : str := trim_end_matches is_whitespace s.
Definition trim (s : str) : str := trim_end (trim_start s).

Fixpoint strip_prefix (p s : str) : option str :=
  match p, s with
  | [], _ => Some s
  | a :: p, b :: s => if a =? b then strip_prefix p s else None
  | _ :: _, [] => None
  end.
Definition starts_with (s p : str) : bool := bool_decide (is_Some (strip_prefix p s)).
Definition strip_suffix (p s : str) : option str :=
  reverse <$> strip_prefix (reverse p) (reverse s).
Definition ends_with (s p : str) : bool := bool_decide (is_Some (strip_suffix p s)).

(** [str::contains] of a substring. *)
Fixpoint contains (s p : str) : bool :=
  starts_with s p || match s with [] => false | _ :: t => contains t p end.

(** [str::split] on one character: always at least one piece. *)
Fixpoint split_char (c : Z) (s : str) : list str :=
  match s with
  | [] => [[]]
  | x :: t =>
      if x =? c then [] :: split_char c t
      else match split_char c t with
           | p :: ps => (x :: p) :: ps
           | [] => [[x]]
           end
  end.

(** [str::split_once] / [str::rsplit_once] on one character. *)
Fixpoint split_once (c : Z) (s : str) : option (str * str) :=
  match s with
  | [] => None
  | x :: t => if x =? c then Some ([], t)
              else match split_once c t with Some (a, b) => Some (x :: a, b) | None => None end
  end.
Definition rsplit_once (c : Z) (s : str) : option (str * str) :=
  match split_once c (reverse s) with
  | Some (a, b) => Some (reverse b, reverse a)
  | None => None
  end.

(** [str::split_whitespace]: the maximal runs of non-whitespace characters. *)
Fixpoint split_ws_aux (p : Z -> bool) (cur : str) (s : str) : list str :=
  match s with
  | [] => match cur with [] => [] | _ => [reverse cur] end
  | c :: t =>
      if p c then match cur with [] => split_ws_aux p [] t | _ => reverse cur :: split_ws_aux p [] t end
      else split_ws_aux p (c :: cur) t
  end.
Definition split_whitespace (s : str) : list str := split_ws_aux is_whitespace [] s.

(** [[&str]::join]. *)
Fixpoint join (sep : str) (l : list str) : str :=
  match l with
  | [] => []
  | [x] => x
  | x :: l => x ++ sep ++ join sep l
  end.

(** [str::lines]: split at ["\n"], drop one trailing empty piece, strip a trailing ["\r"]. *)
Definition strip_cr (s : str) : str :=
  match reverse s with 13 :: t => reverse t | _ => s end.
Definition drop_last_empty (l : list str) : list str :=
  match reverse l with [] :: t => reverse t | _ => l end.
Definition lines (s : str) : list str := strip_cr <$> drop_last_empty (split_char 10 s).

Lemma split_char_nonempty c s : split_char c s <> [].
Proof.
  destruct s as [|x t]; simpl; [done|]. destruct (x =? c); [done|].
  by destruct (split_char c t).
Qed.

Lemma split_char_join c s : join [c] (split_char c s) = s.
Proof.
  induction s as [|x t IH]; [done|]. simpl.
  destruct (Z.eqb_spec x c) as [->|].
  - pose proof (split_char_nonempty c t). destruct (split_char c t) eqn:E; [done|].
    simpl in *. by rewrite IH.
  - destruct (split_char c t) as [|p ps] eqn:E; [by destruct (split_char_nonempty c t)|].
    destruct ps; simpl in *; by rewrite IH.
Qed.

Lemma split_once_sound c s a b : split_once c s = Some (a, b) -> s = a ++ c :: b /\ c ∉ a.
Proof.
  revert a b. induction s as [|x t IH]; simpl; intros a b H; [done|].
  destruct (Z.eqb_spec x c) as [->|].
  - simplify_eq. split; [done|]. apply not_elem_of_nil.
  - destruct (split_once c t) as [[a' b']|] eqn:E; simplify_eq.
    destruct (IH _ _ eq_refl) as [-> ?]. split; [done|].
    by apply not_elem_of_cons.
Qed.

Lemma split_once_app c a b : c ∉ a -> split_once c (a ++ c :: b) = Some (a, b).
Proof.
  induction a as [|x a IH]; simpl; intros H.
  - by rewrite Z.eqb_refl.
  - apply not_elem_of_cons in H as [? H]. destruct (Z.eqb_spec x c); [done|].
    by rewrite IH.
Qed.

Lemma rsplit_once_app c a b : c ∉ b -> rsplit_once c (a ++ c :: b) = Some (a, b).
Proof.
  intros H. unfold rsplit_once. rewrite reverse_app, reverse_cons, <-app_assoc. simpl.
  rewrite split_once_app; [by rewrite !reverse_involutive|].
  by rewrite elem_of_reverse.
Qed.

Lemma drop_while_id p s : match s with c :: _ => p c = false | [] => True end -> drop_while p s = s.
Proof. destruct s; simpl; [done|]. by intros ->. Qed.

Lemma Forall_drop_while_id p s : Forall (fun c => p c = false) s -> drop_while p s = s.
Proof. inversion 1 as [|c t Hc]; simpl; [done|]. by rewrite Hc. Qed.

(** A text with no whitespace is its own trim. *)
Lemma trim_id s : Forall (fun c => is_whitespace c = false) s -> trim s = s.
Proof.
  intros H. unfold trim, trim_end, trim_end_matches, trim_start.
  rewrite (Forall_drop_while_id _ s) by done.
  rewrite Forall_drop_while_id by (by apply Forall_reverse). apply reverse_involutive.
Qed.

(** A text whose first and last characters are not whitespace is its own trim. *)
Lemma trim_ends_id a s b : is_whitespace a = false -> is_whitespace b = false -> trim ((a :: s) ++ [b]) = (a :: s) ++ [b].
Proof.
  intros Ha Hb. unfold trim, trim_end, trim_end_matches, trim_start.
  rewrite (drop_while_id _ ((a :: s) ++ [b])) by done. rewrite reverse_app, drop_while_id by done.
  by rewrite <-reverse_app, reverse_involutive.
Qed.

Lemma drop_while_suffix p s : exists t, s = t ++ drop_while p s.
Proof.
  induction s as [|c s [t IH]]; [by exists []|]. simpl. destruct (p c); [exists (c :: t); simpl; by f_equal|by exists []].
Qed.

Lemma drop_while_head p s : match drop_while p s with c :: _ => p c = false | [] => True end.
Proof. induction s as [|c s IH]; [done|]. simpl. destruct (p c) eqn:E; [done|by rewrite E]. Qed.

Lemma trim_idem s : trim (trim s) = trim s.
Proof.
  unfold trim, trim_end, trim_end_matches. set (x := trim_start s).
  destruct (drop_while_suffix is_whitespace (reverse x)) as [t Ht].
  pose proof (drop_while_head is_whitespace (reverse x)) as Hh.
  set (y := drop_while is_whitespace (reverse x)) in *.
  assert (trim_start (reverse y) = reverse y) as ->.
  { unfold trim_start. apply drop_while_id. pose proof (drop_while_head is_whitespace s) as Hx. fold (trim_start s) in Hx.
    fold x in Hx. rewrite <-(reverse_involutive x), Ht, reverse_app in Hx. destruct (reverse y); [done|exact Hx]. }
  rewrite reverse_involutive. by rewrite (drop_while_id _ y).
Qed.

Lemma strip_prefix_app p s : strip_prefix p (p ++ s) = Some s.
Proof. induction p; simpl; [done|]. by rewrite Z.eqb_refl. Qed.

Lemma strip_prefix_sound p s t : strip_prefix p s = Some t -> s = p ++ t.
Proof.
  revert s. induction p as [|a p IH]; intros [|b s] H; simplify_eq/=; [done|done|].
  destruct (Z.eqb_spec a b) as [->|]; [|done]. by rewrite (IH _ H).
Qed.

Lemma strip_suffix_app p s : strip_suffix p (s ++ p) = Some s.
Proof.
  unfold strip_suffix. rewrite reverse_app, strip_prefix_app. simpl.
  by rewrite reverse_involutive.
Qed.

Lemma strip_suffix_sound p s t : strip_suffix p s = Some t -> s = t ++ p.
Proof.
  unfold strip_suffix. intros H. apply fmap_Some in H as (u & H & ->).
  apply strip_prefix_sound in H. apply (f_equal reverse) in H.
  rewrite reverse_involutive, reverse_app, reverse_involutive in H. done.
Qed.

(** ** Integers as text *)

Definition digit_char (upper : bool) (d : Z) : Z :=
  if d <? 10 then 48 + d else (if upper then 55 else 87) + d.

(** [char::to_digit]. *)
Definition to_digit (radix c : Z) : option Z :=
  let d := if is_ascii_digit c then Some (c - 48)
           else if is_ascii_lower c then Some (c - 87)
           else if is_ascii_upper c then Some (c - 55) else None in
  match d with
  | Some d => if d <? radix then Some d else None
  | None => None
  end.

Fixpoint show_digits (fuel : nat) (radix n : Z) (acc : str) : str :=
  match fuel with
  | O => acc
  | S f => if n <? radix then digit_char true n :: acc
           else show_digits f radix (n / radix) (digit_char true (n mod radix) :: acc)
  end.

(** [Display]/[UpperHex] of a non-negative integer.  One digit is produced per
    unit of fuel and [n < 2 ^ (log2 n + 1)], so the fuel is enough for any
    radix of at least two. *)
Definition show_radix (radix n : Z) : str := show_digits (S (Z.to_nat (Z.log2 n))) radix n [].
Definition show_u (n : Z) : str := show_radix 10 n.
Definition show_hex (n : Z) : str := show_radix 16 n.
(** [Display] of a signed integer. *)
Definition show_i (n : Z) : str := if n <? 0 then 45 :: show_u (- n) else show_u n.

(** Digits accumulated from the left, failing on a bad digit or past [max]. *)
Fixpoint parse_digits (radix max acc : Z) (s : str) : option Z :=
  match s with
  | [] => Some acc
  | c :: t =>
      match to_digit radix c with
      | Some d => let acc' := acc * radix + d in
                  if acc' <=? max then parse_digits radix max acc' t else None
      | None => None
      end
  end.

(** [uN::from_str_radix]: an optional ["+"], then at least one digit. *)
Definition parse_u (radix max : Z) (s : str) : option Z :=
  match s with
  | [] => None
  | 43 :: [] => None
  | 43 :: t => parse_digits radix max 0 t
  | _ => parse_digits radix max 0 s
  end.

(** [iN::from_str]: as above with an optional ["-"]. *)
Definition parse_i (w : Z) (s : str) : option Z :=
  match s with
  | 45 :: [] => None
  | 45 :: t => Z.opp <$> parse_digits 10 (2 ^ (w - 1)) 0 t
  | _ => parse_u 10 (i_max w) s
  end.

Definition is_digit_of (radix c : Z) : Prop :=
  exists d, 0 <= d < radix /\ c = digit_char true d.

Lemma to_digit_char radix d : 0 <= d < radix -> radix <= 36 -> to_digit radix (digit_char true d) = Some d.
Proof.
  intros Hd Hr. unfold to_digit, digit_char, is_ascii_digit, is_ascii_lower, is_ascii_upper.
  destruct (Z.ltb_spec d 10).
  - replace ((48 <=? 48 + d) && (48 + d <=? 57)) with true by lia. cbv zeta beta iota.
    replace (48 + d - 48) with d by lia. by destruct (Z.ltb_spec d radix); [|lia].
  - replace ((48 <=? 55 + d) && (55 + d <=? 57)) with false by lia.
    replace ((97 <=? 55 + d) && (55 + d <=? 122)) with false by lia.
    replace ((65 <=? 55 + d) && (55 + d <=? 90)) with true by lia. cbv zeta beta iota.
    replace (55 + d - 55) with d by lia. by destruct (Z.ltb_spec d radix); [|lia].
Qed.

Lemma show_digits_acc fuel radix n acc : show_digits fuel radix n acc = show_digits fuel radix n [] ++ acc.
Proof.
  revert n acc. induction fuel as [|f IH]; intros n acc; simpl; [done|].
  destruct (n <? radix); [done|].
  rewrite (IH _ (_ :: acc)), (IH _ [_]), <-app_assoc. done.
Qed.

Lemma parse_digits_app radix max acc s t :
  parse_digits radix max acc (s ++ t) =
  match parse_digits radix max acc s with Some v => parse_digits radix max v t | None => None end.
Proof.
  revert acc. induction s as [|c s IH]; intros acc; simpl; [done|].
  destruct (to_digit radix c); [|done]. destruct (_ <=? _); [|done]. apply IH.
Qed.

Lemma parse_show_digits fuel radix max n :
  2 <= radix <= 36 -> 0 <= n <= max -> n < 2 ^ Z.of_nat fuel ->
  parse_digits radix max 0 (show_digits fuel radix n []) = Some n.
Proof.
  intros Hr. revert n. induction fuel as [|f IH]; intros n Hn Hf.
  { simpl in Hf. replace n with 0 by lia. done. }
  simpl. destruct (Z.ltb_spec n radix) as [Hlt|Hge].
  - simpl. rewrite to_digit_char by lia. simpl.
    replace (0 * radix + n) with n by lia. by destruct (Z.leb_spec n max); [|lia].
  - rewrite show_digits_acc, parse_digits_app.
    assert (0 <= n / radix) by (apply Z.div_pos; lia).
    assert (n / radix * radix + n mod radix = n) as Hdm
      by (pose proof (Z.div_mod n radix ltac:(lia)); lia).
    pose proof (Z.mod_pos_bound n radix ltac:(lia)).
    rewrite IH.
    + simpl. rewrite to_digit_char by lia. simpl. rewrite Hdm.
      by destruct (Z.leb_spec n max); [|lia].
    + nia.
    + rewrite Nat2Z.inj_succ, Z.pow_succ_r in Hf by lia. nia.
Qed.

Lemma show_digits_digit_chars fuel radix n acc :
  2 <= radix -> 0 <= n -> Forall (is_digit_of radix) acc ->
  Forall (is_digit_of radix) (show_digits fuel radix n acc).
Proof.
  intros Hr. revert n acc. induction fuel as [|f IH]; intros n acc Hn Hacc; simpl; [done|].
  destruct (Z.ltb_spec n radix).
  - constructor; [|done]. exists n. split; [lia|done].
  - apply IH; [apply Z.div_pos; lia|]. constructor; [|done].
    pose proof (Z.mod_pos_bound n radix ltac:(lia)). by exists (n mod radix).
Qed.

Lemma show_radix_digits radix n : 2 <= radix -> 0 <= n -> Forall (is_digit_of radix) (show_radix radix n).
Proof. intros. apply show_digits_digit_chars; [done|done|constructor]. Qed.

Lemma show_digits_nonempty fuel radix n : show_digits (S fuel) radix n [] <> [].
Proof.
  simpl. destruct (n <? radix); [done|]. rewrite show_digits_acc. intros H.
  apply app_eq_nil in H as [_ H]. done.
Qed.

Lemma is_digit_of_ne radix c k :
  is_digit_of radix c -> radix <= 36 ->
  (k < 48 \/ 57 < k < 65 \/ 90 < k) -> c <> k.
Proof.
  intros (d & Hd & ->) ? ?. unfold digit_char. destruct (Z.ltb_spec d 10); lia.
Qed.

(** Formatting then parsing is the identity, for every radix in use. *)
Lemma parse_u_show_radix radix max n :
  2 <= radix <= 36 -> 0 <= n <= max -> parse_u radix max (show_radix radix n) = Some n.
Proof.
  intros Hr Hn. assert (n < 2 ^ Z.of_nat (S (Z.to_nat (Z.log2 n)))) as Hlog.
  { pose proof (Z.log2_nonneg n). rewrite Nat2Z.inj_succ, Z2Nat.id by done.
    destruct (Z.eq_dec n 0) as [->|]; [done|].
    apply Z.log2_spec. lia. }
  pose proof (parse_show_digits _ radix max n Hr Hn Hlog) as Hp.
  pose proof (show_radix_digits radix n ltac:(lia) ltac:(lia)) as Hd.
  pose proof (show_digits_nonempty (Z.to_nat (Z.log2 n)) radix n) as Hne.
  fold (show_radix radix n) in *. unfold parse_u.
  destruct (show_radix radix n) as [|c t] eqn:E; [done|].
  inversion Hd as [|?? Hc _]; subst.
  pose proof (is_digit_of_ne _ _ 43 Hc ltac:(lia) ltac:(lia)).
  destruct (Z.eq_dec c 43); [done|].
  destruct c as [|p|p]; try exact Hp. do 6 (destruct p; try exact Hp); done.
Qed.

Lemma parse_u_show n max : 0 <= n <= max -> parse_u 10 max (show_u n) = Some n.
Proof. apply parse_u_show_radix. lia. Qed.

Lemma show_u_inj a b : 0 <= a -> 0 <= b -> show_u a = show_u b -> a = b.
Proof.
  intros Ha Hb H.
  pose proof (parse_u_show a (Z.max a b) ltac:(lia)) as H1.
  pose proof (parse_u_show b (Z.max a b) ltac:(lia)) as H2.
  rewrite H in H1. congruence.
Qed.

Lemma show_u_no_char n k : 0 <= n -> (k < 48 \/ 57 < k) -> k ∉ show_u n.
Proof.
  intros Hn Hk Hin. pose proof (show_radix_digits 10 n ltac:(lia) Hn) as Hd.
  rewrite Forall_forall in Hd. destruct (Hd _ Hin) as (d & Hd' & ->).
  unfold digit_char in Hk. destruct (Z.ltb_spec d 10); lia.
Qed.

Lemma show_u_nonempty n : show_u n <> [].
Proof. apply show_digits_nonempty. Qed.

(** [{:0w}] formatting of an unsigned integer. *)
Definition show_pad (w : nat) (n : Z) : str :=
  let s := show_u n in replicate (w - length s) 48 ++ s.

Lemma show_pad_digits w n : 0 <= n -> Forall (is_digit_of 10) (show_pad w n).
Proof.
  intros Hn. unfold show_pad. apply Forall_app. split; [|apply show_radix_digits; lia].
  apply Forall_replicate. by exists 0.
Qed.

Lemma parse_digits_zeros radix max k s : 1 <= radix -> 0 <= max ->
  parse_digits radix max 0 (replicate k 48 ++ s) = parse_digits radix max 0 s.
Proof.
  intros Hr Hm. assert (H0 : to_digit radix 48 = Some 0) 
    by (change (to_digit radix 48) with (if 0 <? radix then Some 0 else None); destruct (Z.ltb_spec 0 radix); [done|lia]).
  induction k as [|k IH]; [done|]. simpl. rewrite H0. replace (0 * radix + 0) with 0 by lia.
  destruct (Z.leb_spec 0 max); [done|lia].
Qed.

Lemma parse_u_digits max s : Forall (is_digit_of 10) s -> s <> [] -> parse_u 10 max s = parse_digits 10 max 0 s.
Proof.
  intros Hd Hne. unfold parse_u. destruct s as [|c t]; [done|]. inversion Hd as [|?? Hc _]; subst.
  pose proof (is_digit_of_ne _ _ 43 Hc ltac:(lia) ltac:(lia)).
  destruct c as [|p|p]; try done. do 6 (destruct p; try done).
Qed.

Lemma parse_u_show_pad w n max : 0 <= n <= max -> parse_u 10 max (show_pad w n) = Some n.
Proof.
  intros Hn. pose proof (show_pad_digits w n ltac:(lia)) as Hd.
  assert (Hne : show_pad w n <> []) by (unfold show_pad; intros [_ E]%app_eq_nil; by apply show_u_nonempty in E).
  rewrite parse_u_digits by done. unfold show_pad. rewrite parse_digits_zeros by lia.
  rewrite <-parse_u_digits; [by apply parse_u_show|apply show_radix_digits; lia|apply show_u_nonempty].
Qed.

Lemma show_pad_inj w a b : 0 <= a -> 0 <= b -> show_pad w a = show_pad w b -> a = b.
Proof.
  intros Ha Hb H.
  pose proof (parse_u_show_pad w a (Z.max a b) ltac:(lia)) as H1.
  pose proof (parse_u_show_pad w b (Z.max a b) ltac:(lia)) as H2.
  rewrite H in H1. congruence.
Qed.

(** ** UTF-8

    [str::as_bytes] and [String::from_utf8], the latter with the position and
    length its error reports. *)

Definition utf8_char (c : Z) : list Z :=
  if c <? 128 then [c]
  else if c <? 2048 then [192 + c / 64; 128 + c mod 64]
  else if c <? 65536 then [224 + c / 4096; 128 + c / 64 mod 64; 128 + c mod 64]
  else [240 + c / 262144; 128 + c / 4096 mod 64; 128 + c / 64 mod 64; 128 + c mod 64].
Definition utf8_encode (s : str) : list Z := s ≫= utf8_char.

(** ** Pieces and prefixes *)

Lemma split_char_no_sep c s : c ∉ s -> split_char c s = [s].
Proof.
  induction s as [|x t IH]; intros H; [done|]. apply not_elem_of_cons in H as [Hx H]. simpl.
  destruct (Z.eqb_spec x c); [done|]. by rewrite IH.
Qed.

Lemma split_char_app c a b : split_char c (a ++ c :: b) = split_char c a ++ split_char c b.
Proof.
  induction a as [|x a IH]; simpl; [by rewrite Z.eqb_refl|]. destruct (x =? c); [by rewrite IH|].
  rewrite IH. pose proof (split_char_nonempty c a). by destruct (split_char c a).
Qed.

Lemma split_char_names c l : l <> [] -> Forall (fun s => c ∉ s) l -> split_char c (join [c] l) = l.
Proof.
  induction l as [|s l IH]; [done|]. intros _ [Hs Hl]%Forall_cons. destruct l as [|s' l].
  - by apply split_char_no_sep.
  - change (join [c] (s :: s' :: l)) with (s ++ c :: join [c] (s' :: l)).
    rewrite split_char_app, IH by done. by rewrite split_char_no_sep.
Qed.

(** Cutting a text short keeps some pieces and cuts one of them. *)
Lemma split_char_take c k s : exists ps p q qs,
  split_char c s = ps ++ q :: qs /\ split_char c (take k s) = ps ++ [p] /\ p `prefix_of` q.
Proof.
  revert k. induction s as [|x t IH]; intros k.
  - rewrite take_nil. by exists [], [], [], [].
  - destruct k as [|k].
    { pose proof (split_char_nonempty c (x :: t)). destruct (split_char c (x :: t)) as [|q qs] eqn:E; [done|].
      exists [], [], q, qs. split_and!; [done|done|apply prefix_nil]. }
    destruct (IH k) as (ps & p & q & qs & E1 & E2 & Hp). simpl. destruct (x =? c).
    + exists ([] :: ps), p, q, qs. by rewrite E1, E2.
    + rewrite E1, E2. destruct ps as [|p0 ps].
      * exists [], (x :: p), (x :: q), qs. split_and!; [done|done|by apply prefix_cons].
      * by exists ((x :: p0) :: ps), p, q, qs.
Qed.

Lemma utf8_encode_ascii s : Forall (fun c => c < 128) s -> utf8_encode s = s.
Proof.
  induction 1 as [|c s Hc _ IH]; [done|]. change (utf8_encode (c :: s)) with (utf8_char c ++ utf8_encode s).
  rewrite IH. unfold utf8_char. by destruct (Z.ltb_spec c 128); [|lia].
Qed.

Lemma parse_digits_chars max acc s n : parse_digits 10 max acc s = Some n -> Forall (fun c => 48 <= c <= 57) s.
Proof.
  revert acc. induction s as [|c s IH]; intros acc; simpl; [constructor|].
  unfold to_digit. destruct (is_ascii_digit c) eqn:E.
  - intros Hp. constructor; [unfold is_ascii_digit in E; bool_to_prop; lia|].
    repeat case_match; try done. by eapply IH.
  - assert (Hno : forall d, (if d <? 10 then Some d else None) = None \/ d < 10) by (intros d; destruct (Z.ltb_spec d 10); auto).
    destruct (is_ascii_lower c) eqn:E1; [|destruct (is_ascii_upper c) eqn:E2; [|done]];
      unfold is_ascii_lower, is_ascii_upper in *; bool_to_prop;
      [destruct (Z.ltb_spec (c - 87) 10)|destruct (Z.ltb_spec (c - 55) 10)]; try done; lia.
Qed.

Lemma parse_u_chars max s n : parse_u 10 max s = Some n -> Forall (fun c => c = 43 \/ 48 <= c <= 57) s.
Proof.
  intros H. assert (Hd : forall t, parse_digits 10 max 0 t = Some n -> Forall (fun c => c = 43 \/ 48 <= c <= 57) t).
  { intros t Ht%parse_digits_chars. eapply Forall_impl; [exact Ht|]. simpl. auto. }
  unfold parse_u in H. destruct s as [|c t]; [done|].
  destruct (decide (c = 43)) as [->|Hc]; [destruct t; [done|]; constructor; auto|].
  apply Hd. destruct c as [|p|p]; try exact H. do 6 (destruct p; try exact H). done.
Qed.

Record Utf8Error := { valid_up_to : Z; error_len : option Z }.

(** [Display for Utf8Error]. *)
Definition show_utf8_error (e : Utf8Error) : str :=
  match error_len e with
  | Some n => fmt [lit "invalid utf-8 sequence of "; show_u n; lit " bytes from index "; show_u (valid_up_to e)]
  | None => fmt [lit "incomplete utf-8 byte sequence from index "; show_u (valid_up_to e)]
  end.

Definition is_cont (b : Z) : bool := (128 <=? b) && (b <=? 191).

(** The second byte a three- or four-byte sequence may have after its first. *)
Definition second_ok (b0 b1 : Z) : bool :=
  if b0 =? 224 then (160 <=? b1) && (b1 <=? 191)
  else if b0 =? 237 then (128 <=? b1) && (b1 <=? 159)
  else if b0 =? 240 then (144 <=? b1) && (b1 <=? 191)
  else if b0 =? 244 then (128 <=? b1) && (b1 <=? 143)
  else is_cont b1.

Fixpoint utf8_decode_from (pos : Z) (bs : list Z) : result Utf8Error str :=
  let bad n := Err {| valid_up_to := pos; error_len := n |} in
  match bs with
  | [] => Ok []
  | b0 :: t =>
      if b0 <? 128 then let! s := utf8_decode_from (pos + 1) t in Ok (b0 :: s)
      else if (194 <=? b0) && (b0 <=? 223) then
        match t with
        | [] => bad None
        | b1 :: t =>
            if negb (is_cont b1) then bad (Some 1)
            else let! s := utf8_decode_from (pos + 2) t in Ok ((b0 - 192) * 64 + (b1 - 128) :: s)
        end
      else if (224 <=? b0) && (b0 <=? 239) then
        match t with
        | [] => bad None
        | b1 :: t =>
            if negb (second_ok b0 b1) then bad (Some 1) else
            match t with
            | [] => bad None
            | b2 :: t =>
                if negb (is_cont b2) then bad (Some 2)
                else let! s := utf8_decode_from (pos + 3) t in
                     Ok ((b0 - 224) * 4096 + (b1 - 128) * 64 + (b2 - 128) :: s)
            end
        end
      else if (240 <=? b0) && (b0 <=? 244) then
        match t with
        | [] => bad None
        | b1 :: t =>
            if negb (second_ok b0 b1) then bad (Some 1) else
            match t with
            | [] => bad None
            | b2 :: t =>
                if negb (is_cont b2) then bad (Some 2) else
                match t with
                | [] => bad None
                | b3 :: t =>
                    if negb (is_cont b3) then bad (Some 3)
                    else let! s := utf8_decode_from (pos + 4) t in
                         Ok ((b0 - 240) * 262144 + (b1 - 128) * 4096 + (b2 - 128) * 64 + (b3 - 128) :: s)
                end
            end
        end
      else bad (Some 1)
  end.
Definition from_utf8 (bs : list Z) : result Utf8Error str := utf8_decode_from 0 bs.

(** A [char]: a Unicode scalar value. *)
Definition is_scalar (c : Z) : Prop := 0 <= c < 55296 \/ 57344 <= c < 1114112.
Definition is_byte (b : Z) : Prop := 0 <= b < 256.

Ltac settle_test := match goal with
  | |- context [if ?b then _ else _] =>
      first [ replace b with true by (unfold second_ok, is_cont; repeat case_match; lia)
            | replace b with false by (unfold second_ok, is_cont; repeat case_match; lia) ]
  end.

Lemma utf8_decode_char c pos t :
  is_scalar c ->
  exists p, utf8_decode_from pos (utf8_char c ++ t) = (let! s := utf8_decode_from p t in Ok (c :: s)).
Proof.
  intros Hc. unfold utf8_char.
  assert (0 <= c < 1114112) as Hr by (unfold is_scalar in Hc; lia).
  replace (c / 262144) with (c / 64 / 64 / 64) by (rewrite !Z.div_div by lia; done).
  replace (c / 4096) with (c / 64 / 64) by (rewrite !Z.div_div by lia; done).
  pose proof (Z.div_mod c 64 ltac:(lia)) as H1. pose proof (Z.mod_pos_bound c 64 ltac:(lia)).
  set (m0 := c mod 64) in *. set (q1 := c / 64) in *. clearbody m0 q1.
  pose proof (Z.div_mod q1 64 ltac:(lia)) as H2. pose proof (Z.mod_pos_bound q1 64 ltac:(lia)).
  set (m1 := q1 mod 64) in *. set (q2 := q1 / 64) in *. clearbody m1 q2.
  pose proof (Z.div_mod q2 64 ltac:(lia)) as H3. pose proof (Z.mod_pos_bound q2 64 ltac:(lia)).
  set (m2 := q2 mod 64) in *. set (q3 := q2 / 64) in *. clearbody m2 q3.
  destruct (Z.ltb_spec c 128); [|destruct (Z.ltb_spec c 2048); [|destruct (Z.ltb_spec c 65536)]];
    eexists; simpl app; simpl utf8_decode_from; unfold is_scalar in Hc; repeat settle_test; simpl negb;
    cbv iota; match goal with |- rbind ?r _ = rbind ?r2 _ => unify r r2; destruct r; simpl; [|reflexivity] end;
    do 2 f_equal; lia.
Qed.

Lemma utf8_roundtrip_from s pos : Forall is_scalar s -> utf8_decode_from pos (utf8_encode s) = Ok s.
Proof.
  intros Hs. revert pos. induction Hs as [|c s Hc Hs IH]; intros pos; [done|].
  unfold utf8_encode. rewrite bind_cons_eq.
  destruct (utf8_decode_char c pos (utf8_encode s) Hc) as [p E]. unfold utf8_encode in *.
  rewrite E, IH. done.
Qed.

(** [String::from_utf8] inverts [as_bytes]. *)
Lemma from_utf8_encode s : Forall is_scalar s -> from_utf8 (utf8_encode s) = Ok s.
Proof. apply utf8_roundtrip_from. Qed.

(** Only a NUL character has a NUL byte. *)
Lemma utf8_char_no_nul c : is_scalar c -> c <> 0 -> 0 ∉ utf8_char c.
Proof.
  intros Hc Hn. unfold utf8_char, is_scalar in *.
  assert (0 <= c) by lia.
  pose proof (Z.div_pos c 64 ltac:(lia) ltac:(lia)). pose proof (Z.div_pos c 4096 ltac:(lia) ltac:(lia)).
  pose proof (Z.div_pos c 262144 ltac:(lia) ltac:(lia)).
  pose proof (Z.mod_pos_bound c 64 ltac:(lia)).
  pose proof (Z.mod_pos_bound (c / 64) 64 ltac:(lia)).
  pose proof (Z.mod_pos_bound (c / 4096) 64 ltac:(lia)).
  repeat case_match; rewrite !elem_of_cons, elem_of_nil; lia.
Qed.

Lemma utf8_encode_no_nul s : Forall is_scalar s -> 0 ∉ s -> 0 ∉ utf8_encode s.
Proof.
  intros Hs Hn. induction Hs as [|c s Hc Hs IH]; [done|].
  unfold utf8_encode in *. rewrite bind_cons_eq, elem_of_app. apply not_elem_of_cons in Hn as [??].
  intros [Hi|Hi]; [by eapply utf8_char_no_nul|]. by apply IH.
Qed.

(** ** Integers as bytes *)

(** [uN::to_le_bytes] on [k] bytes, and its inverse. *)
Fixpoint to_le_bytes (k : nat) (n : Z) : list Z :=
  match k with O => [] | S k => n mod 256 :: to_le_bytes k (n / 256) end.
Fixpoint from_le_bytes (bs : list Z) : Z :=
  match bs with [] => 0 | b :: bs => b + 256 * from_le_bytes bs end.

Lemma length_to_le_bytes k n : length (to_le_bytes k n) = k.
Proof. revert n. induction k; intros n; simpl; [done|]. by f_equal. Qed.

Lemma from_to_le_bytes k n : 0 <= n < 256 ^ Z.of_nat k -> from_le_bytes (to_le_bytes k n) = n.
Proof.
  revert n. induction k as [|k IH]; intros n Hn; [simpl in *; lia|].
  rewrite Nat2Z.inj_succ, Z.pow_succ_r in Hn by lia. cbn [to_le_bytes from_le_bytes].
  rewrite IH by (split; [apply Z.div_pos; lia|apply Z.div_lt_upper_bound; lia]).
  pose proof (Z.div_mod n 256 ltac:(lia)). lia.
Qed.

Lemma to_from_le_bytes bs : Forall (u_ok 8) bs -> to_le_bytes (length bs) (from_le_bytes bs) = bs.
Proof.
  induction 1 as [|b bs Hb _ IH]; [done|]. simpl. unfold u_ok, u_max in Hb.
  assert ((b + 256 * from_le_bytes bs) mod 256 = b) as ->.
  { rewrite Z.add_comm, Z.mul_comm, Z.add_comm, Z.mod_add, Z.mod_small by lia. done. }
  assert ((b + 256 * from_le_bytes bs) / 256 = from_le_bytes bs) as ->.
  { rewrite Z.mul_comm, Z.div_add, Z.div_small by lia. lia. }
  by rewrite IH.
Qed.

(** [uN::to_be_bytes]/[from_be_bytes], and the signed readings. *)
Definition to_be_bytes (k : nat) (n : Z) : list Z := reverse (to_le_bytes k (n mod 256 ^ Z.of_nat k)).
Definition from_be_bytes (bs : list Z) : Z := from_le_bytes (reverse bs).
Definition from_be_bytes_signed (bs : list Z) : Z := wraps (8 * Z.of_nat (length bs)) (from_be_bytes bs).

Lemma length_to_be_bytes k n : length (to_be_bytes k n) = k.
Proof. unfold to_be_bytes. by rewrite length_reverse, length_to_le_bytes. Qed.

Lemma pow256 k : 256 ^ Z.of_nat k = 2 ^ (8 * Z.of_nat k).
Proof. change 256 with (2 ^ 8). rewrite <-Z.pow_mul_r by lia. done. Qed.

Lemma from_to_be_bytes k n : 0 <= n < 256 ^ Z.of_nat k -> from_be_bytes (to_be_bytes k n) = n.
Proof.
  intros Hn. unfold from_be_bytes, to_be_bytes. rewrite reverse_involutive, Z.mod_small by done.
  by apply from_to_le_bytes.
Qed.

Lemma from_to_be_bytes_signed k n :
  (0 < k)%nat -> i_ok (8 * Z.of_nat k) n -> from_be_bytes_signed (to_be_bytes k n) = n.
Proof.
  intros Hk Hn. unfold from_be_bytes_signed, from_be_bytes, to_be_bytes.
  rewrite reverse_involutive, length_reverse, length_to_le_bytes.
  pose proof (pow256 k) as Hp. assert (0 < 256 ^ Z.of_nat k) by lia.
  rewrite from_to_le_bytes by (apply Z.mod_pos_bound; lia).
  rewrite Hp in *. unfold wraps. rewrite Zplus_mod_idemp_l.
  by apply wraps_small; [|lia].
Qed.
