(* ===== verification/Effects.v ===== *)
(** * Effects: stateful code that fails, retries and crashes

    The streaming scheduler talks to an object store, a source and a sink.
    Each such call can succeed, report an error before or after it took
    effect (a lost acknowledgement), or be the point at which the process
    dies.  [M S A] is a state monad with these three outcomes; the sequence
    of [fault]s an execution meets is part of its state, so that a theorem
    about all executions quantifies over all fault scripts.  [triple] is the
    program logic the scheduler's proofs use. *)

From S2P Require Import Prelude.

Inductive outcome (A : Type) :=
  | Done (a : A)
  | Failed (e : Error)
  | Crashed.
Arguments Done {A} a.
Arguments Failed {A} e.
Arguments Crashed {A}.

(** What happens to one external call.  [FailAfter] and [CrashAfter] happen
    once the call has taken effect. *)
Inductive fault :=
  | Proceed
  | FailBefore (e : Error)
  | FailAfter (e : Error)
  | CrashBefore
  | CrashAfter.

Definition M (S A : Type) : Type := S -> outcome A * S.

Section Monad.
Context {S : Type}.

Definition ret {A} (a : A) : M S A := fun s => (Done a, s).
Definition throw {A} (e : Error) : M S A := fun s => (Failed e, s).
Definition mbind {A B} (m : M S A) (k : A -> M S B) : M S B := fun s =>
  match m s with
  | (Done a, s') => k a s'
  | (Failed e, s') => (Failed e, s')
  | (Crashed, s') => (Crashed, s')
  end.
Definition get : M S S := fun s => (Done s, s).
Definition modify (f : S -> S) : M S unit := fun s => (Done tt, f s).
(** Observe an error as a value; a crash is never caught. *)
Definition try_ {A} (m : M S A) : M S (result Error A) := fun s =>
  match m s with
  | (Done a, s') => (Done (Ok a), s')
  | (Failed e, s') => (Done (Err e), s')
  | (Crashed, s') => (Crashed, s')
  end.
(** [Result::unwrap_or]. *)
Definition unwrap_or {A} (m : M S A) (d : A) : M S A :=
  mbind (try_ m) (fun r => ret (match r with Ok a => a | Err _ => d end)).
(** [Result::map_err]. *)
Definition map_err {A} (f : Error -> Error) (m : M S A) : M S A := fun s =>
  match m s with
  | (Failed e, s') => (Failed (f e), s')
  | r => r
  end.
Definition lift_result {A} (r : result Error A) : M S A :=
  match r with Ok a => ret a | Err e => throw e end.

(** ** Program logic *)

Definition triple {A} (P : S -> Prop) (m : M S A)
    (Q : A -> S -> Prop) (F : Error -> S -> Prop) (C : S -> Prop) : Prop :=
  forall s, P s ->
    match m s with
    | (Done a, s') => Q a s'
    | (Failed e, s') => F e s'
    | (Crashed, s') => C s'
    end.

Lemma triple_ret {A} (a : A) P (Q : A -> S -> Prop) F C :
  (forall s, P s -> Q a s) -> triple P (ret a) Q F C.
Proof. intros H s Hs. by apply H. Qed.

Lemma triple_throw {A} e P (Q : A -> S -> Prop) (F : Error -> S -> Prop) C :
  (forall s, P s -> F e s) -> triple P (throw e) Q F C.
Proof. intros H s Hs. by apply H. Qed.

Lemma triple_bind {A B} (m : M S A) (k : A -> M S B) P R Q F C :
  triple P m R F C -> (forall a, triple (R a) (k a) Q F C) -> triple P (mbind m k) Q F C.
Proof.
  intros Hm Hk s Hs. unfold mbind. specialize (Hm s Hs).
  destruct (m s) as [[a|e|] s']; [by apply Hk|done|done].
Qed.

Lemma triple_get P (Q : S -> S -> Prop) F C :
  (forall s, P s -> Q s s) -> triple P get Q F C.
Proof. intros H s Hs. by apply H. Qed.

Lemma triple_modify f P (Q : unit -> S -> Prop) F C :
  (forall s, P s -> Q tt (f s)) -> triple P (modify f) Q F C.
Proof. intros H s Hs. by apply H. Qed.

Lemma triple_conseq {A} (m : M S A) (P P' : S -> Prop) (Q Q' : A -> S -> Prop)
    (F F' : Error -> S -> Prop) (C C' : S -> Prop) :
  triple P' m Q' F' C' ->
  (forall s, P s -> P' s) -> (forall a s, Q' a s -> Q a s) ->
  (forall e s, F' e s -> F e s) -> (forall s, C' s -> C s) ->
  triple P m Q F C.
Proof.
  intros Hm HP HQ HF HC s Hs. specialize (Hm s (HP s Hs)).
  destruct (m s) as [[a|e|] s']; auto.
Qed.

Lemma triple_try {A} (m : M S A) P (Q : result Error A -> S -> Prop) F C :
  triple P m (fun a => Q (Ok a)) (fun e => Q (Err e)) C ->
  triple P (try_ m) Q F C.
Proof.
  intros Hm s Hs. unfold try_. specialize (Hm s Hs). by destruct (m s) as [[a|e|] s'].
Qed.

Lemma triple_map_err {A} f (m : M S A) P (Q : A -> S -> Prop) (F : Error -> S -> Prop) C :
  triple P m Q (fun e => F (f e)) C -> triple P (map_err f m) Q F C.
Proof.
  intros Hm s Hs. unfold map_err. specialize (Hm s Hs). by destruct (m s) as [[a|e|] s'].
Qed.

Lemma triple_lift {A} (r : result Error A) P (Q : A -> S -> Prop) (F : Error -> S -> Prop) C :
  (forall s a, r = Ok a -> P s -> Q a s) -> (forall s e, r = Err e -> P s -> F e s) ->
  triple P (lift_result r) Q F C.
Proof. intros HQ HF s Hs. destruct r; simpl; [by eapply HQ|by eapply HF]. Qed.

Lemma triple_pre {A} (m : M S A) (P : S -> Prop) (Q : A -> S -> Prop) F C :
  (forall s, P s -> triple (fun s' => s' = s) m Q F C) -> triple P m Q F C.
Proof. intros H s Hs. by apply (H s Hs). Qed.

(** A fact that does not mention the state can be taken out of the precondition. *)
Lemma triple_pure {A} (phi : Prop) (m : M S A) (P : S -> Prop) (Q : A -> S -> Prop) F C :
  (phi -> triple P m Q F C) -> triple (fun s => P s /\ phi) m Q F C.
Proof. intros H s [Hs Hphi]. by apply H. Qed.

Lemma triple_if {A} (b : bool) (m1 m2 : M S A) P (Q : A -> S -> Prop) F C :
  (b = true -> triple P m1 Q F C) -> (b = false -> triple P m2 Q F C) ->
  triple P (if b then m1 else m2) Q F C.
Proof. destruct b; auto. Qed.

End Monad.

Notation "'do!' x '<-' m ';' k" := (mbind m (fun x => k))
  (at level 10, x name, m at level 100, k at level 200) : oxidant_scope.
Notation "'run!' m ';' k" := (mbind m (fun _ => k))
  (at level 10, m at level 100, k at level 200) : oxidant_scope.

(** ** Retrying

    [with_retry!] of scheduler.rs: run [op] up to [RETRY_ATTEMPTS] times,
    repeating only while the error is retryable.  [n] is the number of
    attempts left. *)
Section Retry.
Context {S A : Type}.
Variable retryable : Error -> bool.
Variable op : M S A.

Fixpoint retry_loop (n : nat) : M S A :=
  match n with
  | O => op
  | Datatypes.S n' => fun s =>
      match op s with
      | (Failed e, s') => if retryable e then retry_loop n' s' else (Failed e, s')
      | r => r
      end
  end.

(** A specification [op] meets from any state of [P] it re-establishes on
    failure is met by the whole loop. *)
Lemma triple_retry n (P : S -> Prop) (Q : A -> S -> Prop) (C : S -> Prop) :
  triple P op Q (fun _ => P) C -> triple P (retry_loop n) Q (fun _ => P) C.
Proof.
  intros Hop. induction n as [|n IH]; [done|]. intros s Hs. simpl.
  specialize (Hop s Hs). destruct (op s) as [[a|e|] s']; [done| |done].
  destruct (retryable e); [by apply IH|done].
Qed.

End Retry.

(** ** External calls

    Every call that leaves the process.  An [event] is what the world does
    to the next such call: the fault it meets, which may depend on which
    call it is, and the environment the call finds. *)
Inductive call :=
  | Probe | LoadState | SaveState | LoadPlanned | SavePlanned | LoadCommit | SaveCommit
  | SourcePlan | SourcePoll | MarkDurable | PruneLog | ExecutePlan | CountViolations | OpenCatalog
  | PutData | PutCommit | GetHint | GetCheckpoint | ReadLog | PutCheckpoint | PutHint | PublishIceberg.
#[export] Instance call_eq_dec : EqDecision call.
Proof. solve_decision. Defined.

Record event (E : Type) := { ev_fault : call -> fault; ev_env : E }.
Arguments ev_fault {E} _ _.
Arguments ev_env {E} _.

Class Scripted (E S : Type) := {
  script : S -> list (event E);
  advance : event E -> list (event E) -> S -> S;
}.

Section External.
Context {E S : Type} `{!Scripted E S}.

(** Perform [op] under the next event of the script; an exhausted script
    means that nothing more goes wrong. *)
Definition external {A} (c : call) (op : M S A) : M S A := fun s =>
  match script s with
  | [] => op s
  | ev :: rest =>
      let s1 := advance ev rest s in
      match ev_fault ev c with
      | Proceed => op s1
      | FailBefore e => (Failed e, s1)
      | FailAfter e => match op s1 with (Done _, s2) => (Failed e, s2) | r => r end
      | CrashBefore => (Crashed, s1)
      | CrashAfter => let '(_, s2) := op s1 in (Crashed, s2)
      end
  end.

Lemma triple_external {A} (ok : call -> fault -> Prop) c (op : M S A)
    (P : S -> Prop) (Q : A -> S -> Prop) (F : Error -> S -> Prop) (C : S -> Prop) :
  (forall s ev, P s -> ev ∈ script s -> ok c (ev_fault ev c)) ->
  (forall s ev rest, P s -> script s = ev :: rest -> P (advance ev rest s)) ->
  triple P op Q F C ->
  (forall e s, ok c (FailBefore e) -> P s -> F e s) ->
  (forall e a s, ok c (FailAfter e) -> Q a s -> F e s) ->
  (forall s, P s -> C s) -> (forall a s, Q a s -> C s) -> (forall e s, F e s -> C s) ->
  triple P (external c op) Q F C.
Proof.
  intros Hok Hadv Hop HFb HFa HC HQC HFC s Hs. unfold external.
  destruct (script s) as [|ev rest] eqn:E1; [by apply Hop|].
  pose proof (Hadv _ _ _ Hs E1) as Hs1.
  assert (ok c (ev_fault ev c)) as Hc by (apply (Hok s); [done|rewrite E1; left]).
  pose proof (Hop _ Hs1) as Hop1.
  destruct (ev_fault ev c) eqn:Ef; [done|by apply HFb| |by apply HC|];
    destruct (op (advance ev rest s)) as [[a|e'|] s2]; eauto.
Qed.

(** A call whose own failures are ignored by the caller; the process can
    still die around it. *)
Definition best_effort {A} (c : call) (op : M S A) : M S A := fun s =>
  match script s with
  | [] => op s
  | ev :: rest =>
      let s1 := advance ev rest s in
      match ev_fault ev c with
      | CrashBefore => (Crashed, s1)
      | CrashAfter => let '(_, s2) := op s1 in (Crashed, s2)
      | _ => op s1
      end
  end.

Lemma triple_best_effort {A} c (op : M S A) P Q (F : Error -> S -> Prop) (C : S -> Prop) :
  (forall s ev rest, P s -> script s = ev :: rest -> P (advance ev rest s)) ->
  triple P op Q F C ->
  (forall s, P s -> C s) -> (forall a s, Q a s -> C s) -> (forall e s, F e s -> C s) ->
  triple P (best_effort c op) Q F C.
Proof.
  intros Hadv Hop HC HQC HFC s Hs. unfold best_effort.
  destruct (script s) as [|ev rest] eqn:E1; [by apply Hop|].
  pose proof (Hadv _ _ _ Hs E1) as Hs1. pose proof (Hop _ Hs1) as Hop1.
  destruct (ev_fault ev c); [done|done|done|by apply HC|].
  destruct (op (advance ev rest s)) as [[a|e'|] s2]; eauto.
Qed.
End External.

(** Run an operation on a part of the state. *)
Definition zoom {S S' A} (look : S -> S') (put : S' -> S -> S) (m : M S' A) : M S A := fun s =>
  let '(o, s') := m (look s) in (o, put s' s).

Lemma triple_zoom {S S' A} (look : S -> S') (put : S' -> S -> S) (m : M S' A)
    (P : S -> Prop) (Q : A -> S -> Prop) (F : Error -> S -> Prop) (C : S -> Prop) :
  (forall s, P s -> triple (fun s' => s' = look s) m
     (fun a s' => Q a (put s' s)) (fun e s' => F e (put s' s)) (fun s' => C (put s' s))) ->
  triple P (zoom look put m) Q F C.
Proof.
  intros Hm s Hs. unfold zoom. specialize (Hm s Hs (look s) eq_refl).
  by destruct (m (look s)) as [[a|e|] s'].
Qed.
