(* ===== verification/Arrow.v ===== *)
(** * Arrow: the record-batch interface the engine is written against

    [RecordBatch] and the kernels on it belong to the Arrow library, which is
    not part of the repository: they are the operations of the class [Arrow]
    and the facts the engine relies on are the class [ArrowLaws].
    [RowBatch] is a row-oriented implementation that satisfies the laws; the
    witnesses are evaluated on it. *)

From S2P Require Import Prelude Text.

Inductive TimeUnit := Second | Millisecond | Microsecond | Nanosecond.
Inductive DataType := Timestamp (u : TimeUnit) | Date32 | OtherType.

Class Arrow := {
  RecordBatch : Type;
  (** [RecordBatch::num_rows]. *)
  num_rows : RecordBatch -> nat;
  (** [batch.schema().fields()]: the column names in order. *)
  column_names : RecordBatch -> list str;
  (** [batch.column(i).data_type()]. *)
  column_type : RecordBatch -> nat -> DataType;
  (** The primitive value of column [i], row [r]; [None] when it is null. *)
  column_value : RecordBatch -> nat -> nat -> option Z;
  (** Whether [ArrayFormatter::try_new] accepts column [i]. *)
  can_format : RecordBatch -> nat -> bool;
  (** [ArrayFormatter::value]: the rendering of column [i], row [r]. *)
  column_display : RecordBatch -> nat -> nat -> str;
  (** [filter_record_batch]. *)
  filter_record_batch : RecordBatch -> list bool -> RecordBatch;
}.

(** The indices of the [true] entries of a mask. *)
Fixpoint kept_from (i : nat) (keep : list bool) : list nat :=
  match keep with
  | [] => []
  | b :: keep => if b then i :: kept_from (S i) keep else kept_from (S i) keep
  end.
Definition kept (keep : list bool) : list nat := kept_from 0 keep.

Class ArrowLaws `{Arrow} : Prop := {
  num_rows_filter b keep :
    length keep = num_rows b -> num_rows (filter_record_batch b keep) = length (kept keep);
  column_names_filter b keep : column_names (filter_record_batch b keep) = column_names b;
  column_type_filter b keep i : column_type (filter_record_batch b keep) i = column_type b i;
  column_display_filter b keep i j r :
    length keep = num_rows b -> kept keep !! j = Some r ->
    column_display (filter_record_batch b keep) i j = column_display b i r;
  column_value_filter b keep i j r :
    length keep = num_rows b -> kept keep !! j = Some r ->
    column_value (filter_record_batch b keep) i j = column_value b i r;
}.

Section Arrow.
Context `{Arrow}.

(** [Schema::index_of]: the position of the first field of that name. *)
Definition index_of (b : RecordBatch) (name : str) : option nat :=
  fst <$> list_find (fun n => n = name) (column_names b).

(** [batches.iter().map(|b| b.num_rows()).sum()]. *)
Definition total_rows (batches : list RecordBatch) : nat := sum_list (num_rows <$> batches).
End Arrow.

Lemma length_kept_from i keep : (length (kept_from i keep) <= length keep)%nat.
Proof. revert i. induction keep as [|b keep IH]; intros i; simpl; [lia|]. specialize (IH (S i)). destruct b; simpl; lia. Qed.

Lemma kept_from_fmap i keep : kept_from (S i) keep = S <$> kept_from i keep.
Proof.
  revert i. induction keep as [|b keep IH]; intros i; simpl; [done|].
  rewrite (IH (S i)). by destruct b.
Qed.

Lemma elem_of_kept_from i keep r : r ∈ kept_from i keep <-> (i <= r)%nat /\ keep !! (r - i)%nat = Some true.
Proof.
  revert i. induction keep as [|b keep IH]; intros i; simpl.
  { split; [by intros ?%elem_of_nil|]. intros [_ ?]. by rewrite lookup_nil in *. }
  assert (r ∈ kept_from (S i) keep <-> (i < r)%nat /\ (b :: keep) !! (r - i)%nat = Some true) as Hrec.
  { rewrite IH. split; intros [Hr Hk]; (split; [lia|]).
    - by replace (r - i)%nat with (S (r - S i)) by lia.
    - by replace (r - i)%nat with (S (r - S i)) in Hk by lia. }
  destruct b.
  - rewrite elem_of_cons, Hrec. split.
    + intros [->|[??]]; split; [lia| |lia|done]. by rewrite Nat.sub_diag.
    + intros [??]. destruct (decide (r = i)); [by left|right]. split; [lia|done].
  - rewrite Hrec. split; intros [? Hk]; (split; [|done]); [lia|].
    destruct (decide (r = i)) as [->|]; [|lia]. by rewrite Nat.sub_diag in Hk.
Qed.

Lemma elem_of_kept keep r : r ∈ kept keep <-> keep !! r = Some true.
Proof. unfold kept. rewrite elem_of_kept_from, Nat.sub_0_r. split; [by intros []|]. split; [lia|done]. Qed.

Lemma kept_sorted_NoDup i keep : NoDup (kept_from i keep).
Proof.
  revert i. induction keep as [|b keep IH]; intros i; simpl; [constructor|].
  destruct b; [|apply IH]. constructor; [|apply IH].
  intros [? _]%elem_of_kept_from. lia.
Qed.

(** ** A row-oriented implementation *)
Module RowBatch.

Record row_cell := { value : option Z; display : str }.
Record batch := { fields : list (str * DataType); rows : list (list row_cell) }.

Definition filter_rows (b : batch) (keep : list bool) : batch :=
  {| fields := fields b; rows := omap (fun i => rows b !! i) (kept keep) |}.

Definition cell (b : batch) (i r : nat) : option row_cell := rows b !! r ≫= (fun l => l !! i).

#[export] Instance row_arrow : Arrow := {|
  RecordBatch := batch;
  num_rows b := length (rows b);
  column_names b := fst <$> fields b;
  column_type b i := default OtherType (snd <$> fields b !! i);
  column_value b i r := cell b i r ≫= value;
  can_format b i := bool_decide (i < length (fields b))%nat;
  column_display b i r := default [] (display <$> cell b i r);
  filter_record_batch := filter_rows |}.

Lemma lookup_rows_filter (l : list (list row_cell)) idx j :
  Forall (fun i => (i < length l)%nat) idx ->
  omap (fun i => l !! i) idx !! j = idx !! j ≫= (fun i => l !! i).
Proof.
  revert j. induction idx as [|i idx IH]; intros j Hidx; simpl; [done|].
  inversion Hidx as [|?? Hi Hidx']; subst.
  destruct (lookup_lt_is_Some_2 l i Hi) as [x Hx]. rewrite Hx.
  destruct j; simpl; [done|]. by apply IH.
Qed.

Lemma kept_in_range b keep :
  length keep = num_rows b -> Forall (fun i => (i < length (rows b))%nat) (kept keep).
Proof.
  simpl. intros Hlen. apply Forall_forall. intros i Hi%elem_of_kept.
  apply lookup_lt_Some in Hi. lia.
Qed.

#[export] Instance row_arrow_laws : ArrowLaws.
Proof.
  constructor; try done.
  - intros b keep Hlen. simpl. pose proof (kept_in_range b keep Hlen) as Hr.
    induction (kept keep) as [|i k IH]; simpl; [done|].
    inversion Hr as [|?? Hi Hk]; subst. destruct (lookup_lt_is_Some_2 _ _ Hi) as [x ->].
    simpl. f_equal. by apply IH.
  - intros b keep i j r Hlen Hj. simpl. unfold cell. simpl.
    rewrite lookup_rows_filter by (by apply kept_in_range). by rewrite Hj.
  - intros b keep i j r Hlen Hj. simpl. unfold cell. simpl.
    rewrite lookup_rows_filter by (by apply kept_in_range). by rewrite Hj.
Qed.
End RowBatch.
