(* ===== verification/Watermark.v ===== *)
(** * Watermark: event-time watermarks (oxidant-streaming/src/watermark.rs)

    The watermark configuration, the monotone tracker and the late-record
    count.  Event times are [i64] microseconds; all conversions saturate the
    way the source's do. *)

From S2P Require Import Prelude Text Arrow.

Section Watermark.
Context `{Arrow}.

Record WatermarkConfig := {
  event_time_column : str;
  (** [Duration::from_millis(delay_ms)], kept in milliseconds. *)
  delay_ms : Z;
}.

(** [WatermarkConfig::from_options]. *)
Definition from_options (options : gmap (list Z) (list Z)) : option WatermarkConfig :=
  match (match options !! lit "eventTimeColumn" with
         | Some c => Some c
         | None => options !! lit "watermarkColumn"
         end) with
  | None => None
  | Some col =>
      let delay := match (match options !! lit "delayMs" with
                          | Some d => Some d
                          | None => options !! lit "watermarkDelayMs"
                          end) with
                   | Some s => default 0 (parse_u 10 (u_max 64) s)
                   | None => 0
                   end in
      Some {| event_time_column := col; delay_ms := delay |}
  end.

(** [self.delay.as_micros() as i64]: a [u128] cast to [i64]. *)
Definition delay_micros (c : WatermarkConfig) : Z := wraps 64 (delay_ms c * 1000).

(** [WatermarkConfig::watermark_for]. *)
Definition watermark_for (c : WatermarkConfig) (max_event_time_micros : Z) : Z :=
  sat_i 64 (max_event_time_micros - delay_micros c).

(** [event_time_micros]: the row's event time, by Arrow unit. *)
Definition event_time_micros (b : RecordBatch) (col row : nat) : option Z :=
  match column_value b col row with
  | None => None
  | Some v =>
      match column_type b col with
      | Timestamp Second => Some (sat_i 64 (v * 1000000))
      | Timestamp Millisecond => Some (sat_i 64 (v * 1000))
      | Timestamp Microsecond => Some v
      | Timestamp Nanosecond => Some (Z.quot v 1000)
      | Date32 => Some (sat_i 64 (v * 86400000000))
      | OtherType => None
      end
  end.

Definition event_times (b : RecordBatch) (col : nat) : list Z :=
  omap (event_time_micros b col) (seq 0 (num_rows b)).

(** [max_event_time_micros]: the greatest event time in one column. *)
Definition max_event_time_micros (b : RecordBatch) (col : nat) : option Z :=
  match event_times b col with
  | [] => None
  | t :: ts => Some (foldl Z.max t ts)
  end.

(** [WatermarkTracker]: its one field. *)
Definition WatermarkTracker : Type := option Z.

(** One iteration of the loop of [WatermarkTracker::observe]. *)
Definition observe_batch (c : WatermarkConfig) (t : WatermarkTracker) (b : RecordBatch) : WatermarkTracker :=
  match index_of b (event_time_column c) with
  | None => t
  | Some col =>
      match max_event_time_micros b col with
      | None => t
      | Some m => Some (match t with Some seen => Z.max seen m | None => m end)
      end
  end.

(** [WatermarkTracker::observe]: the new tracker and the watermark that
    preceded the batch. *)
Definition observe (c : WatermarkConfig) (t : WatermarkTracker) (batches : list RecordBatch)
  : option Z * WatermarkTracker :=
  (watermark_for c <$> t, foldl (observe_batch c) t batches).

(** The loop body of [WatermarkTracker::count_late]. *)
Definition count_late_batch (c : WatermarkConfig) (watermark : Z) (b : RecordBatch) : nat :=
  match index_of b (event_time_column c) with
  | None => 0
  | Some col => length (filter (fun t => t < watermark) (event_times b col))
  end.

(** [WatermarkTracker::count_late]. *)
Definition count_late (c : WatermarkConfig) (batches : list RecordBatch) (watermark : Z) : nat :=
  sum_list (count_late_batch c watermark <$> batches).

(** ** Specification: every event time the tracker has been shown *)

Definition batch_times (c : WatermarkConfig) (b : RecordBatch) : list Z :=
  match index_of b (event_time_column c) with
  | None => []
  | Some col => event_times b col
  end.
Definition all_times (c : WatermarkConfig) (batches : list RecordBatch) : list Z :=
  batches ≫= batch_times c.

Definition tracker_max (ts : list Z) : WatermarkTracker :=
  match ts with [] => None | t :: ts => Some (foldl Z.max t ts) end.

Lemma tracker_max_app ts us :
  tracker_max (ts ++ us) =
  match tracker_max ts, tracker_max us with
  | Some a, Some b => Some (Z.max a b)
  | Some a, None => Some a
  | None, o => o
  end.
Proof.
  destruct ts as [|t ts]; simpl; [done|]. rewrite foldl_app.
  destruct us as [|u us]; simpl; [done|]. f_equal.
  generalize (foldl Z.max t ts). clear. intros a. revert a u.
  induction us as [|v us IH]; intros a u; simpl; [done|].
  rewrite <-Z.max_assoc. apply IH.
Qed.

Lemma observe_batch_spec c t b :
  observe_batch c t b =
  match t, tracker_max (batch_times c b) with
  | Some a, Some m => Some (Z.max a m)
  | Some a, None => Some a
  | None, o => o
  end.
Proof.
  unfold observe_batch, batch_times, max_event_time_micros.
  destruct (index_of b _) as [col|]; [|by destruct t].
  destruct (event_times b col); by destruct t.
Qed.

Lemma foldl_observe_spec c ts batches :
  foldl (observe_batch c) (tracker_max ts) batches = tracker_max (ts ++ all_times c batches).
Proof.
  revert ts. induction batches as [|b batches IH]; intros ts; simpl.
  { by rewrite app_nil_r. }
  rewrite observe_batch_spec, <-tracker_max_app, IH. by rewrite <-app_assoc.
Qed.

Lemma watermark_for_mono c a b : a <= b -> watermark_for c a <= watermark_for c b.
Proof. intros. apply sat_i_mono. lia. Qed.

Lemma foldl_observe_ge c t batches a :
  t = Some a -> exists a', foldl (observe_batch c) t batches = Some a' /\ a <= a'.
Proof.
  intros ->. change (Some a) with (tracker_max [a]). rewrite foldl_observe_spec. simpl.
  eexists. split; [done|]. apply foldl_max_ge.
Qed.

(** Feeding a run of micro-batches one after another. *)
Fixpoint observe_all (c : WatermarkConfig) (t : WatermarkTracker) (runs : list (list RecordBatch)) : list (option Z) :=
  match runs with
  | [] => []
  | bs :: runs => let '(before, t') := observe c t bs in before :: observe_all c t' runs
  end.

Definition opt_le (a b : option Z) : Prop :=
  match a, b with
  | None, _ => True
  | Some x, Some y => x <= y
  | Some _, None => False
  end.

Lemma opt_le_refl a : opt_le a a.
Proof. destruct a; simpl; [lia|done]. Qed.

Lemma opt_le_trans a b c : opt_le a b -> opt_le b c -> opt_le a c.
Proof. destruct a, b, c; simpl; try done. lia. Qed.

Lemma observe_all_lower c t runs w :
  w ∈ observe_all c t runs -> opt_le (watermark_for c <$> t) w.
Proof.
  revert t w. induction runs as [|bs runs IH]; intros t w Hw; simpl in Hw; [by apply elem_of_nil in Hw|].
  apply elem_of_cons in Hw as [->|Hw]; [apply opt_le_refl|].
  eapply opt_le_trans; [|by apply IH]. destruct t as [a|]; simpl; [|done].
  destruct (foldl_observe_ge c _ bs a eq_refl) as (a' & -> & Ha). simpl.
  by apply watermark_for_mono.
Qed.

Lemma count_late_batch_spec c w b :
  count_late_batch c w b = length (filter (fun t => t < w) (batch_times c b)).
Proof. unfold count_late_batch, batch_times. by destruct (index_of b _). Qed.

(** The tracker is the greatest event time ever shown to it, whatever the
    split of the stream into micro-batches and record batches; so feeding the
    same records in different batches leaves the same watermark. *)
Theorem tracker_is_max c ts batches :
  snd (observe c (tracker_max ts) batches) = tracker_max (ts ++ all_times c batches) /\
  (forall m t, snd (observe c (tracker_max ts) batches) = Some m -> t ∈ ts ++ all_times c batches -> t <= m).
Proof.
  simpl. rewrite foldl_observe_spec. split; [done|]. intros m t Hm Ht.
  destruct (ts ++ all_times c batches) as [|u us]; [by apply elem_of_nil in Ht|]. simpl in Hm.
  injection Hm as <-. by apply (maxZ_elem 0 (u :: us)).
Qed.

(** The watermark a micro-batch is judged against never moves backwards
    over a run of micro-batches, whatever times they carry, saturation at the
    ends of [i64] included. *)
Theorem watermarks_monotone c t runs : StronglySorted opt_le (observe_all c t runs).
Proof.
  revert t. induction runs as [|bs runs IH]; intros t; simpl; [constructor|].
  constructor; [apply IH|]. apply Forall_forall. intros w Hw. apply observe_all_lower in Hw.
  eapply opt_le_trans; [|done]. destruct t as [a|]; simpl; [|done].
  destruct (foldl_observe_ge c _ bs a eq_refl) as (a' & -> & Ha). simpl. by apply watermark_for_mono.
Qed.

(** The late count of a batch is the number of its records with an event
    time strictly before the watermark. *)
Theorem count_late_exact c batches w :
  count_late c batches w = length (filter (fun t => t < w) (all_times c batches)).
Proof.
  unfold count_late, all_times. induction batches as [|b bs IH]; [done|].
  rewrite fmap_cons. simpl. rewrite count_late_batch_spec, filter_app, length_app. f_equal. exact IH.
Qed.

End Watermark.
