(* ===== verification/Dedup.v ===== *)
(** * Dedup: cross-batch deduplication state (oxidant-streaming/src/state.rs)

    [dropDuplicates] within a watermark bound: the composite row key, the
    first-occurrence filter and watermark-driven forgetting. *)

From S2P Require Import Prelude Text Arrow Watermark.

(** [DedupState]: key to the event time of the record that claimed it. *)
Record DedupState := { seen : gmap (list Z) Z }.
#[export] Instance DedupState_empty : Empty DedupState := {| seen := ∅ |}.

(** The unit separator between two fields of a key. *)
Definition unit_separator : Z := 31.

(** One iteration of [row_key]: separate, then append the rendered value. *)
Definition push_field (key : str) (shown : str) : str :=
  (match key with [] => [] | _ => key ++ [unit_separator] end) ++ shown.

Definition key_of_fields (fields : list str) : str := foldl push_field [] fields.

Section Dedup.
Context `{Arrow}.

(** [row_key]: the composite key of one row. *)
Definition row_key (b : RecordBatch) (key_cols : list nat) (row : nat) : str :=
  key_of_fields ((fun c => column_display b c row) <$> key_cols).

(** [key_formatters]: one formatter per key column, or the first failure. *)
Definition key_formatters (b : RecordBatch) (key_cols : list nat) : result Error unit :=
  match filter (fun c => can_format b c = false) key_cols with
  | [] => Ok tt
  | c :: _ => Err (Execution (fmt [lit "dropDuplicates cannot key on column "; show_u (Z.of_nat c)]))
  end.

(** The event time recorded for a row, [i64::MAX] when there is none. *)
Definition claim_time (b : RecordBatch) (event_time_col : option nat) (row : nat) : Z :=
  default (i_max 64) (event_time_col ≫= (fun c => event_time_micros b c row)).

(** The loop body of [dedup_batches] over one row. *)
Definition dedup_row (b : RecordBatch) (key_cols : list nat) (event_time_col : option nat)
    (st : gmap (list Z) Z * list bool) (row : nat) : gmap (list Z) Z * list bool :=
  let '(m, keep) := st in
  let key := row_key b key_cols row in
  match m !! key with
  | Some _ => (m, keep ++ [false])
  | None => (<[key := claim_time b event_time_col row]> m, keep ++ [true])
  end.

Definition dedup_mask (b : RecordBatch) (key_cols : list nat) (event_time_col : option nat)
    (m : gmap (list Z) Z) : gmap (list Z) Z * list bool :=
  foldl (dedup_row b key_cols event_time_col) (m, []) (seq 0 (num_rows b)).

(** The outer loop of [DedupState::dedup_batches]. *)
Fixpoint dedup_loop (key_cols : list nat) (event_time_col : option nat)
    (m : gmap (list Z) Z) (batches : list RecordBatch)
  : result Error (list RecordBatch) * gmap (list Z) Z :=
  match batches with
  | [] => (Ok [], m)
  | b :: bs =>
      match key_formatters b key_cols with
      | Err e => (Err e, m)
      | Ok _ =>
          let '(m', keep) := dedup_mask b key_cols event_time_col m in
          let filtered := filter_record_batch b keep in
          let '(r, m'') := dedup_loop key_cols event_time_col m' bs in
          (rmap (fun out => if (0 <? num_rows filtered)%nat then filtered :: out else out) r, m'')
      end
  end.

(** [DedupState::dedup_batches]. *)
Definition dedup_batches (st : DedupState) (batches : list RecordBatch) (key_cols : list nat)
    (event_time_col : option nat) : result Error (list RecordBatch) * DedupState :=
  match key_cols with
  | [] => (Ok batches, st)
  | _ => let '(r, m) := dedup_loop key_cols event_time_col (seen st) batches in (r, {| seen := m |})
  end.

(** [DedupState::expire]. *)
Definition expire (st : DedupState) (watermark_micros : Z) : DedupState :=
  {| seen := filter (fun kv => watermark_micros <= snd kv) (seen st) |}.

(** [resolve_key_columns]. *)
Definition resolve_key_columns (b : RecordBatch) (names : list str) : result Error (list nat) :=
  mapM_result (fun name =>
    ok_or (index_of b name)
      (Plan (fmt [lit "`dedup_columns` names `"; name;
                  lit "`, which the stream does not produce; available: ";
                  join (lit ", ") (column_names b)]))) names.

(** ** Reference: the first occurrence of every key not yet seen *)

Fixpoint fresh (known : gset (list Z)) (keys : list (list Z)) : list (list Z) :=
  match keys with
  | [] => []
  | k :: keys => if decide (k ∈ known) then fresh known keys else k :: fresh ({[k]} ∪ known) keys
  end.

Definition batch_keys (key_cols : list nat) (b : RecordBatch) : list (list Z) :=
  row_key b key_cols <$> seq 0 (num_rows b).
Definition keys_of (key_cols : list nat) (bs : list RecordBatch) : list (list Z) :=
  bs ≫= batch_keys key_cols.

Lemma fresh_app known ks ks' :
  fresh known (ks ++ ks') = fresh known ks ++ fresh (known ∪ list_to_set ks) ks'.
Proof.
  revert known. induction ks as [|k ks IH]; intros known; simpl.
  { f_equal. set_solver. }
  case_decide as Hk.
  - rewrite IH. f_equal. f_equal. set_solver.
  - simpl. rewrite IH. do 2 f_equal. f_equal. set_solver.
Qed.

Lemma elem_of_fresh known ks k : k ∈ fresh known ks <-> k ∈ ks /\ k ∉ known.
Proof.
  revert known. induction ks as [|k' ks IH]; intros known; simpl; [set_solver|].
  case_decide as Hk; rewrite ?elem_of_cons, IH; [set_solver|].
  destruct (decide (k = k')); set_solver.
Qed.

Lemma fresh_NoDup known ks : NoDup (fresh known ks).
Proof.
  revert known. induction ks as [|k ks IH]; intros known; simpl; [constructor|].
  case_decide; [done|]. constructor; [|done]. rewrite elem_of_fresh. set_solver.
Qed.

(** The mask keeps exactly the rows whose key is fresh. *)
Definition mask_keys (b : RecordBatch) (key_cols : list nat) (keep : list bool) : list (list Z) :=
  row_key b key_cols <$> kept keep.

Lemma kept_snoc keep x :
  kept (keep ++ [x]) = kept keep ++ (if x : bool then [length keep] else []).
Proof.
  unfold kept. assert (forall i, kept_from i (keep ++ [x]) =
    kept_from i keep ++ (if x then [(i + length keep)%nat] else [])) as ->; [|done].
  induction keep as [|b keep IH]; intros i; simpl; [by rewrite Nat.add_0_r; destruct x|].
  rewrite IH. replace (S i + length keep)%nat with (i + S (length keep))%nat by lia. by destruct b.
Qed.

Lemma dedup_mask_spec b key_cols etc m n :
  let '(m', keep) := foldl (dedup_row b key_cols etc) (m, []) (seq 0 n) in
  length keep = n /\
  dom m' = dom m ∪ list_to_set (row_key b key_cols <$> seq 0 n) /\
  mask_keys b key_cols keep = fresh (dom m) (row_key b key_cols <$> seq 0 n).
Proof.
  induction n as [|n IH].
  { simpl. split; [done|]. split; [set_solver|done]. }
  rewrite seq_S, foldl_app, fmap_app, fresh_app. simpl.
  destruct (foldl _ _ _) as [m' keep]. destruct IH as (Hlen & Hdom & Hkeys).
  unfold dedup_row. rewrite <-Hdom.
  destruct (m' !! row_key b key_cols n) as [at'|] eqn:E.
  - rewrite length_app. simpl. split; [lia|]. split.
    + rewrite Hdom, list_to_set_app_L. simpl.
      assert (row_key b key_cols n ∈ dom m') by (apply elem_of_dom; eauto). set_solver.
    + unfold mask_keys in *. rewrite kept_snoc, app_nil_r, Hkeys.
      rewrite decide_True by (apply elem_of_dom; eauto). by rewrite app_nil_r.
  - rewrite length_app. simpl. split; [lia|]. split.
    + rewrite dom_insert_L, Hdom, list_to_set_app_L. set_solver.
    + unfold mask_keys in *. rewrite kept_snoc, fmap_app, Hkeys. simpl.
      rewrite decide_False by (by apply not_elem_of_dom). by rewrite Hlen.
Qed.

End Dedup.

Section DedupLaws.
Context `{ArrowLaws}.

(** The keys of a filtered batch are the keys the mask kept. *)
Lemma batch_keys_filter key_cols b keep :
  length keep = num_rows b ->
  batch_keys key_cols (filter_record_batch b keep) = mask_keys b key_cols keep.
Proof.
  intros Hlen. unfold batch_keys, mask_keys. rewrite num_rows_filter by done.
  apply list_eq. intros j. rewrite !list_lookup_fmap.
  destruct (decide (j < length (kept keep))%nat) as [Hj|Hj].
  - destruct (lookup_lt_is_Some_2 _ _ Hj) as [r Hr].
    rewrite lookup_seq_lt by done. rewrite Hr. simpl. f_equal. unfold row_key. f_equal.
    apply list_fmap_ext. intros i c _. by apply column_display_filter.
  - rewrite lookup_seq_ge by lia. rewrite lookup_ge_None_2 by lia. done.
Qed.

Lemma dedup_loop_keys key_cols etc m batches out m' :
  dedup_loop key_cols etc m batches = (Ok out, m') ->
  keys_of key_cols out = fresh (dom m) (keys_of key_cols batches) /\
  dom m' = dom m ∪ list_to_set (keys_of key_cols batches).
Proof.
  revert m out m'. induction batches as [|b bs IH]; intros m out m' Hrun; simpl in Hrun.
  { simplify_eq. simpl. split; [done|set_solver]. }
  destruct (key_formatters b key_cols); [|done].
  pose proof (dedup_mask_spec b key_cols etc m (num_rows b)) as Hmask.
  unfold dedup_mask in Hrun.
  destruct (foldl (dedup_row b key_cols etc) (m, []) (seq 0 (num_rows b))) as [m1 keep].
  destruct Hmask as (Hlen & Hdom & Hkeys).
  destruct (dedup_loop key_cols etc m1 bs) as [[out'|] m2] eqn:Eloop; [|done].
  simplify_eq/=. destruct (IH _ _ _ Eloop) as [Hout Hdom'].
  change (row_key b key_cols <$> seq 0 (num_rows b)) with (batch_keys key_cols b) in *.
  assert (keys_of key_cols (if (0 <? num_rows (filter_record_batch b keep))%nat
          then filter_record_batch b keep :: out' else out')
        = batch_keys key_cols (filter_record_batch b keep) ++ keys_of key_cols out') as ->.
  { destruct (Nat.ltb_spec 0 (num_rows (filter_record_batch b keep))); [done|].
    unfold batch_keys. by replace (num_rows (filter_record_batch b keep)) with 0%nat by lia. }
  rewrite batch_keys_filter, Hkeys, Hout, Hdom by done. unfold keys_of. simpl.
  rewrite fresh_app. split; [done|]. rewrite Hdom', Hdom, list_to_set_app_L. set_solver.
Qed.
End DedupLaws.

(** ** Keys *)

Lemma push_field_nonempty key shown :
  key <> [] -> push_field key shown = key ++ unit_separator :: shown.
Proof. destruct key; [done|]. intros _. unfold push_field. by rewrite <-app_assoc. Qed.

(** Fields pushed onto a non-empty key: separator-joined. *)
Lemma foldl_push_nonempty key fs :
  key <> [] -> foldl push_field key fs = key ++ concat ((fun f => unit_separator :: f) <$> fs).
Proof.
  revert key. induction fs as [|f fs IH]; intros key Hk; simpl; [by rewrite app_nil_r|].
  rewrite IH, push_field_nonempty by (rewrite ?push_field_nonempty by done; by destruct key).
  by rewrite <-app_assoc.
Qed.

Definition separator_free (f : str) : Prop := unit_separator ∉ f.

Lemma concat_sep_inj fs gs :
  Forall separator_free fs -> Forall separator_free gs ->
  concat ((fun f => unit_separator :: f) <$> fs) = concat ((fun f => unit_separator :: f) <$> gs) ->
  fs = gs.
Proof.
  revert gs. induction fs as [|f fs IH]; intros [|g gs] Hf Hg Heq; simpl in *; try done.
  inversion Hf as [|?? Hf1 Hf2]; inversion Hg as [|?? Hg1 Hg2]; subst.
  injection Heq as Heq.
  assert (f = g /\ concat ((λ f, unit_separator :: f) <$> fs) = concat ((λ f, unit_separator :: f) <$> gs)) as [-> Htl].
  { clear IH Hf Hg Hf2 Hg2. revert g Hf1 Hg1 Heq.
    induction f as [|x f IHf]; intros [|y g] Hf1 Hg1 Heq; simpl in *.
    - done.
    - destruct fs as [|f' fs]; simpl in Heq; [done|]. injection Heq as Hy _.
      exfalso. apply Hg1. rewrite Hy. left.
    - destruct gs as [|g' gs]; simpl in Heq; [done|]. injection Heq as Hx _.
      exfalso. apply Hf1. rewrite Hx. left.
    - injection Heq as -> Heq.
      destruct (IHf g) as [-> ?]; [by intros ?; apply Hf1; right|by intros ?; apply Hg1; right|done|done]. }
  f_equal. by apply IH.
Qed.

Lemma key_of_fields_cons f fs :
  key_of_fields (f :: fs) =
  match f with [] => key_of_fields fs | _ => f ++ concat ((fun f => unit_separator :: f) <$> fs) end.
Proof. unfold key_of_fields. destruct f; simpl; [done|]. by apply foldl_push_nonempty. Qed.

Definition count_sep (s : str) : nat := length (filter (fun c => c = unit_separator) s).

#[local] Arguments count_sep : simpl never.

Lemma count_sep_app a b : count_sep (a ++ b) = (count_sep a + count_sep b)%nat.
Proof. unfold count_sep. by rewrite filter_app, length_app. Qed.

Lemma count_sep_cons_sep s : count_sep (unit_separator :: s) = S (count_sep s).
Proof. unfold count_sep. by rewrite filter_cons_True. Qed.

Lemma count_sep_free f : separator_free f -> count_sep f = 0%nat.
Proof.
  induction f as [|x f IH]; intros Hf; [done|].
  apply not_elem_of_cons in Hf as [Hx Hf]. unfold count_sep in *.
  rewrite filter_cons_False by congruence. by apply IH.
Qed.

Lemma count_sep_concat fs :
  Forall separator_free fs -> count_sep (concat ((fun f => unit_separator :: f) <$> fs)) = length fs.
Proof.
  induction 1 as [|f fs Hf Hfs IH]; [done|].
  rewrite fmap_cons. simpl.
  by rewrite count_sep_cons_sep, count_sep_app, (count_sep_free f), IH.
Qed.

Lemma count_sep_key_le fs : Forall separator_free fs -> (count_sep (key_of_fields fs) <= length fs - 1)%nat.
Proof.
  induction 1 as [|f fs Hf Hfs IH]; [exact (Nat.le_refl 0)|]. rewrite key_of_fields_cons. cbn [length].
  destruct f as [|x f]; [lia|].
  rewrite count_sep_app, (count_sep_free (x :: f)), count_sep_concat by done.
  lia.
Qed.

Lemma key_head_nonempty x h hs ks :
  length ks = length hs -> separator_free (x :: h) -> Forall separator_free hs ->
  Forall separator_free ks ->
  (x :: h) ++ concat ((fun f => unit_separator :: f) <$> hs) <> key_of_fields ks.
Proof.
  intros Hl Hx Hhs Hks Hk. pose proof (count_sep_key_le ks Hks) as Hle.
  destruct ks as [|k ks]; [done|]. apply (f_equal count_sep) in Hk.
  rewrite count_sep_app, (count_sep_free (x :: h)), count_sep_concat in Hk by done.
  simpl in *. lia.
Qed.

(** Two keys of the same arity that agree come from the same fields, as long
    as no rendered value contains the unit separator. *)
Lemma key_of_fields_inj fs gs :
  length fs = length gs -> Forall separator_free fs -> Forall separator_free gs ->
  key_of_fields fs = key_of_fields gs -> fs = gs.
Proof.
  revert gs. induction fs as [|f fs IH]; intros [|g gs] Hlen Hf Hg Heq; try done.
  injection Hlen as Hlen. inversion Hf as [|?? Hf1 Hf2]; inversion Hg as [|?? Hg1 Hg2]; subst.
  rewrite !key_of_fields_cons in Heq.
  destruct f as [|x f], g as [|y g].
  - f_equal. by apply IH.
  - by destruct (key_head_nonempty y g gs fs).
  - by destruct (key_head_nonempty x f fs gs).
  - assert (concat ((fun f => unit_separator :: f) <$> (x :: f) :: fs)
            = concat ((fun f => unit_separator :: f) <$> (y :: g) :: gs)) as Hc.
    { simpl. f_equal. exact Heq. }
    by apply concat_sep_inj in Hc.
Qed.

(** ** Forgetting *)

Lemma lookup_expire st w k :
  seen (expire st w) !! k =
  match seen st !! k with Some at' => if decide (w <= at') then Some at' else None | None => None end.
Proof.
  simpl. destruct (seen st !! k) as [a|] eqn:E.
  - case_decide.
    + by apply map_lookup_filter_Some_2.
    + apply map_lookup_filter_None. right. intros a' Ha'. simplify_eq. done.
  - apply map_lookup_filter_None. by left.
Qed.

(** ** Correctness *)
Section Correct.
Context `{ArrowLaws}.

(** C30. Deduplication keeps exactly the first occurrence of every key not
    seen before, in input order: the keys it emits are distinct, none was in
    the state, every input key is in the state afterwards, and an input key
    that was new is emitted. *)
Theorem dedup_first_occurrence st batches key_cols etc out st' :
  key_cols <> [] -> dedup_batches st batches key_cols etc = (Ok out, st') ->
  keys_of key_cols out = fresh (dom (seen st)) (keys_of key_cols batches) /\
  NoDup (keys_of key_cols out) /\
  (forall k, k ∈ keys_of key_cols out <-> k ∈ keys_of key_cols batches /\ k ∉ dom (seen st)) /\
  dom (seen st') = dom (seen st) ∪ list_to_set (keys_of key_cols batches).
Proof.
  intros Hne Hrun. unfold dedup_batches in Hrun. destruct key_cols as [|c cs]; [done|].
  destruct (dedup_loop _ _ _ _) as [r m] eqn:El. injection Hrun as -> <-.
  apply dedup_loop_keys in El as [Hk Hd]. rewrite Hk. split_and!; [done|apply fresh_NoDup|apply elem_of_fresh|done].
Qed.

(** Running a batch again against the state it left emits nothing: the
    state alone decides what a duplicate is. *)
Theorem dedup_replay_empty st batches key_cols etc out st' etc' out2 st2 :
  key_cols <> [] -> dedup_batches st batches key_cols etc = (Ok out, st') ->
  dedup_batches st' batches key_cols etc' = (Ok out2, st2) ->
  keys_of key_cols out2 = [] /\ dom (seen st2) = dom (seen st').
Proof.
  intros Hne H1 H2. unfold dedup_batches in *. destruct key_cols as [|c cs]; [done|].
  destruct (dedup_loop _ etc _ _) as [r1 m1] eqn:E1. injection H1 as -> <-.
  destruct (dedup_loop _ etc' _ _) as [r2 m2] eqn:E2. injection H2 as -> <-.
  apply dedup_loop_keys in E1 as [_ Hd1]. apply dedup_loop_keys in E2 as [Hk2 Hd2]. simpl in *.
  split.
  - rewrite Hk2, Hd1. apply elem_of_nil_inv. intros k. rewrite elem_of_fresh, elem_of_union, elem_of_list_to_set. tauto.
  - rewrite Hd2, Hd1. apply set_eq. intros k. rewrite !elem_of_union. tauto.
Qed.
End Correct.

(** Two rows of the same key columns get the same key only if every
    column renders the same, as long as no rendering contains the unit
    separator. *)
Theorem row_key_injective `{Arrow} b b' key_cols row row' :
  Forall (fun c => separator_free (column_display b c row) /\ separator_free (column_display b' c row')) key_cols ->
  row_key b key_cols row = row_key b' key_cols row' ->
  Forall (fun c => column_display b c row = column_display b' c row') key_cols.
Proof.
  intros Hfree Heq. apply key_of_fields_inj in Heq.
  - clear Hfree. induction key_cols as [|c cs IH]; [constructor|]. simpl in Heq. injection Heq as Hc Hcs.
    constructor; [done|by apply IH].
  - by rewrite !length_fmap.
  - apply Forall_fmap. eapply Forall_impl; [exact Hfree|]. by intros c [? _].
  - apply Forall_fmap. eapply Forall_impl; [exact Hfree|]. by intros c [_ ?].
Qed.

(** Forgetting is exact: after [expire w] a key is remembered if and only
    if it was and the record that claimed it is not behind [w]; a key claimed
    without an event time is never forgotten. *)
Theorem expire_exact st w k :
  (forall t, seen (expire st w) !! k = Some t <-> seen st !! k = Some t /\ w <= t) /\
  (i_ok 64 w -> seen st !! k = Some (i_max 64) -> seen (expire st w) !! k = Some (i_max 64)).
Proof.
  split.
  - intros t. rewrite lookup_expire. destruct (seen st !! k) as [a|]; [|naive_solver].
    case_decide; naive_solver lia.
  - intros [_ Hw] Hk. rewrite lookup_expire, Hk. by rewrite decide_True.
Qed.

(** *** Witnesses, on row batches *)
Module DedupRuns.
Import RowBatch.
Definition one (s : str) : RecordBatch := {| fields := [(lit "k", OtherType)]; rows := [[{| value := None; display := s |}]] |}.
Definition input : list RecordBatch := [one (lit "a"); one (lit "b"); one (lit "a")].

Definition final : DedupState := Eval vm_compute in snd (dedup_batches ∅ input [0%nat] None).

Lemma dedup_first_occurrence_witness :
  NoDup (keys_of [0%nat] [one (lit "a"); one (lit "b")]) /\
  dedup_batches ∅ input [0%nat] None = (Ok [one (lit "a"); one (lit "b")], final).
Proof.
  assert (dedup_batches ∅ input [0%nat] None = (Ok [one (lit "a"); one (lit "b")], final)) as Hrun by (vm_compute; reflexivity).
  split; [|exact Hrun].
  exact (proj1 (proj2 (dedup_first_occurrence ∅ input [0%nat] None _ final ltac:(discriminate) Hrun))).
Defined.

Lemma dedup_replay_empty_witness : keys_of [0%nat] ([] : list RecordBatch) = [] /\ dom (seen final) = dom (seen final).
Proof.
  exact (dedup_replay_empty ∅ input [0%nat] None [one (lit "a"); one (lit "b")] final None [] final
           ltac:(discriminate) ltac:(vm_compute; reflexivity) ltac:(vm_compute; reflexivity)).
Defined.

Lemma row_key_injective_witness :
  Forall (fun c => column_display (one (lit "a")) c 0 = column_display (one (lit "a")) c 0) [0%nat].
Proof.
  apply (row_key_injective (one (lit "a")) (one (lit "a")) [0%nat] 0 0); [|reflexivity].
  constructor; [|constructor]. split; apply (bool_decide_unpack _); vm_compute; exact I.
Defined.

Lemma expire_exact_witness : seen (expire final (i_max 64)) !! lit "a" = Some (i_max 64).
Proof.
  apply (proj2 (expire_exact final (i_max 64) (lit "a"))); [split; vm_compute; discriminate|vm_compute; reflexivity].
Defined.

(** The separator is not safe for text columns: two different rows whose
    values contain it share a key, so the second is dropped as a duplicate. *)
Theorem separator_collision :
  let row x y := {| fields := [(lit "x", OtherType); (lit "y", OtherType)];
                    rows := [[{| value := None; display := x |}; {| value := None; display := y |}]] |} in
  let r1 := row (lit "a" ++ [unit_separator] ++ lit "b") (lit "c") in
  let r2 := row (lit "a") (lit "b" ++ [unit_separator] ++ lit "c") in
  r1 <> r2 /\ fst (dedup_batches ∅ [r1; r2] [0%nat; 1%nat] None) = Ok [r1].
Proof. split; [discriminate|vm_compute; reflexivity]. Qed.
End DedupRuns.
