(* ===== verification/Source.v ===== *)
(** * Source: positions, batch ranges and the source contract (oxidant-streaming/src/source.rs)

    [BatchRange] and [SourceOffsets]; the [Source] trait as a class together
    with the contract its documentation states ([SourceLaws]); the file and
    the rate source with proofs that they meet it. *)

From S2P Require Import Prelude Text Arrow.

Record SourceOffsets := { so_source : str; so_entries : gmap (list Z) Z }.

Record BatchRange := {
  br_source : str;
  br_start : gmap (list Z) Z;
  br_end : gmap (list Z) Z;
  br_items : list (list Z);
}.

#[export] Instance SourceOffsets_eq_dec : EqDecision SourceOffsets.
Proof. solve_decision. Defined.
#[export] Instance BatchRange_eq_dec : EqDecision BatchRange.
Proof. solve_decision. Defined.

(** [BatchRange::default()]. *)
Definition default_range : BatchRange :=
  {| br_source := []; br_start := ∅; br_end := ∅; br_items := [] |}.

(** [BatchRange::is_empty]. *)
Definition range_is_empty (r : BatchRange) : bool :=
  match br_items r with
  | [] => forallb (fun kv => snd kv <=? default 0 (br_start r !! fst kv)) (map_to_list (br_end r))
  | _ => false
  end.

Lemma range_is_empty_spec r :
  range_is_empty r = true <->
  br_items r = [] /\ forall k e, br_end r !! k = Some e -> e <= default 0 (br_start r !! k).
Proof.
  unfold range_is_empty. destruct (br_items r); [|by split; [|intros []]].
  rewrite forallb_forall. split.
  - intros Hall. split; [done|]. intros k e Hk.
    specialize (Hall (k, e) (proj1 (list_elem_of_In _ _) (proj2 (elem_of_map_to_list _ _ _) Hk))).
    simpl in Hall. lia.
  - intros [_ Hall] [k e] Hke%list_elem_of_In%elem_of_map_to_list. simpl.
    specialize (Hall _ _ Hke). lia.
Qed.

Lemma default_range_empty : range_is_empty default_range = true.
Proof. by vm_compute. Qed.

(** ** The trait *)

Class Source `{Arrow} (Env St : Type) := {
  plan_batch : Env -> St -> result Error BatchRange * St;
  poll_range : Env -> St -> BatchRange -> result Error (list RecordBatch) * St;
  committed_offsets : St -> option SourceOffsets;
  restore_offsets : St -> SourceOffsets -> St;
  available_end : Env -> St -> result Error (option (gmap (list Z) Z));
}.

(** The contract of [plan_batch], [poll_range], [committed_offsets] and
    [restore_offsets], as their documentation states it, in terms of an
    abstract position [P]: planning consumes nothing; reading a range planned
    at [p] yields the same records whoever reads it and leaves the position
    [src_adv p r]; a failed read leaves one of the two; restoring a persisted
    position restores it.  [src_inv] is the source's own invariant. *)
Class SourceLaws `{Arrow} {Env St : Type} `{!Source Env St} (P : Type) := {
  src_env_ok : Env -> Prop;
  src_init : St -> Prop;
  src_inv : St -> Prop;
  src_pos : St -> P;
  src_start : P;
  src_pos_ok : P -> Prop;
  src_adv : P -> BatchRange -> P;
  src_from : P -> BatchRange -> Prop;
  src_records : BatchRange -> list RecordBatch;
  src_enc : P -> SourceOffsets;
  src_init_pos s : src_init s -> src_inv s /\ src_pos s = src_start;
  src_start_ok : src_pos_ok src_start;
  src_adv_ok p r : src_pos_ok p -> src_from p r -> src_pos_ok (src_adv p r);
  src_plan e s r s' :
    src_env_ok e -> src_inv s -> plan_batch e s = (r, s') ->
    src_inv s' /\ src_pos s' = src_pos s /\
    match r with Ok r => range_is_empty r = false -> src_from (src_pos s) r | Err _ => True end;
  src_poll e s p r res s' :
    src_env_ok e -> src_inv s -> src_from p r -> src_pos s = p \/ src_pos s = src_adv p r ->
    poll_range e s r = (res, s') ->
    src_inv s' /\
    match res with
    | Ok bs => bs = src_records r /\ src_pos s' = src_adv p r
    | Err _ => src_pos s' = p \/ src_pos s' = src_adv p r
    end;
  src_committed s : src_inv s -> committed_offsets s = Some (src_enc (src_pos s));
  src_restore s p :
    src_init s -> src_pos_ok p ->
    src_inv (restore_offsets s (src_enc p)) /\ src_pos (restore_offsets s (src_enc p)) = p;
}.

(** ** The rate source *)
Section RateSource.
Context `{Arrow}.

Record MemoryRateSource := { rows_per_batch : Z; batch_count : Z; max_batches : Z }.

(** [engine.sql("SELECT id FROM range(0, n, 1) AS t(id)")]. *)
Definition RateEnv : Type := Z -> result Error (list RecordBatch).

Definition batch_key : str := lit "batch".

(** [MemoryRateSource::plan_batch]. *)
Definition rate_plan_batch (_ : RateEnv) (s : MemoryRateSource) : result Error BatchRange * MemoryRateSource :=
  if max_batches s <=? batch_count s then (Ok default_range, s)
  else (Ok {| br_source := lit "rate";
              br_start := {[batch_key := wraps 64 (batch_count s)]};
              br_end := {[batch_key := wraps 64 (wraps 64 (batch_count s) + 1)]};
              br_items := [] |}, s).

(** [MemoryRateSource::poll_range]: the counter moves before the query runs. *)
Definition rate_poll_range (e : RateEnv) (s : MemoryRateSource) (r : BatchRange)
  : result Error (list RecordBatch) * MemoryRateSource :=
  if negb (bool_decide (br_source r = lit "rate")) || range_is_empty r then (Ok [], s)
  else (e (rows_per_batch s),
        {| rows_per_batch := rows_per_batch s;
           batch_count := wrapu 64 (default 0 (br_end r !! batch_key));
           max_batches := max_batches s |}).

(** [MemoryRateSource::committed_offsets]. *)
Definition rate_committed_offsets (s : MemoryRateSource) : option SourceOffsets :=
  Some {| so_source := lit "rate"; so_entries := {[batch_key := wraps 64 (batch_count s)]} |}.

(** [MemoryRateSource::restore_offsets]. *)
Definition rate_restore_offsets (s : MemoryRateSource) (o : SourceOffsets) : MemoryRateSource :=
  if bool_decide (so_source o = lit "rate")
  then {| rows_per_batch := rows_per_batch s;
          batch_count := wrapu 64 (default 0 (so_entries o !! batch_key));
          max_batches := max_batches s |}
  else s.

(** [MemoryRateSource::available_end]. *)
Definition rate_available_end (_ : RateEnv) (s : MemoryRateSource) : result Error (option (gmap (list Z) Z)) :=
  Ok (Some {[batch_key := Z.min (max_batches s) (i_max 64)]}).

#[export] Instance rate_source : Source RateEnv MemoryRateSource := {|
  plan_batch := rate_plan_batch;
  poll_range := rate_poll_range;
  committed_offsets := rate_committed_offsets;
  restore_offsets := rate_restore_offsets;
  available_end := rate_available_end |}.

Definition rate_range (p : Z) : BatchRange :=
  {| br_source := lit "rate"; br_start := {[batch_key := p]};
     br_end := {[batch_key := p + 1]}; br_items := [] |}.

Lemma rate_range_nonempty p : range_is_empty (rate_range p) = false.
Proof.
  apply not_true_is_false. intros [_ Hall]%range_is_empty_spec.
  specialize (Hall batch_key (p + 1)). unfold rate_range in Hall. cbn [br_start br_end] in Hall.
  rewrite !lookup_singleton_eq in Hall. specialize (Hall eq_refl). simpl in Hall. lia.
Qed.

Lemma rate_range_end p : br_end (rate_range p) !! batch_key = Some (p + 1).
Proof. apply lookup_singleton_eq. Qed.

Lemma i64_id mx p : 0 <= p <= mx -> mx <= i_max 64 -> wraps 64 p = p /\ wrapu 64 p = p.
Proof.
  intros. split; [apply wraps_small|apply wrapu_small];
    unfold i_ok, i_min, i_max, u_ok, u_max in *; lia.
Qed.

(** The rate source meets the contract as long as its batch limit is a
    non-negative [i64] and the generated rows depend only on their number. *)
Definition rate_laws (rows mx : Z) (content : list RecordBatch) (Hmx : 0 <= mx <= i_max 64) :
  SourceLaws (Env := RateEnv) (St := MemoryRateSource) Z.
Proof.
  refine {|
    src_env_ok e := forall bs, e rows = Ok bs -> bs = content;
    src_init s := s = {| rows_per_batch := rows; batch_count := 0; max_batches := mx |};
    src_inv s := rows_per_batch s = rows /\ max_batches s = mx /\ 0 <= batch_count s <= mx;
    src_pos := batch_count;
    src_start := 0;
    src_pos_ok p := 0 <= p <= mx;
    src_adv p r := wrapu 64 (default 0 (br_end r !! batch_key));
    src_from p r := 0 <= p < mx /\ r = rate_range p;
    src_records r := content;
    src_enc p := {| so_source := lit "rate"; so_entries := {[batch_key := wraps 64 p]} |} |}.
  - intros s ->. simpl. lia.
  - lia.
  - intros p r ? [? ->]. rewrite rate_range_end. simpl.
    rewrite (proj2 (i64_id mx (p + 1) ltac:(lia) ltac:(lia))). lia.
  - intros e s r s' _ (Hr & Hm & Hb) Hp. simpl in Hp. unfold rate_plan_batch in Hp.
    destruct (Z.leb_spec (max_batches s) (batch_count s)); injection Hp as <- <-.
    + split_and!; [done..|lia|lia|done|]. intros Hne. by rewrite default_range_empty in Hne.
    + split_and!; [done..|lia|lia|done|]. intros _. split; [lia|].
      rewrite (proj1 (i64_id (max_batches s) (batch_count s) ltac:(lia) ltac:(lia))).
      by rewrite (proj1 (i64_id (max_batches s) (batch_count s + 1) ltac:(lia) ltac:(lia))).
  - intros e s p r res s' He (Hr & Hm & Hb) [Hp ->] _ Hpoll. simpl in Hpoll. unfold rate_poll_range in Hpoll.
    rewrite bool_decide_true, rate_range_nonempty in Hpoll by done. cbn [negb orb] in Hpoll.
    rewrite rate_range_end in *. injection Hpoll as <- <-. cbn [batch_count rows_per_batch max_batches].
    change (default 0 (Some (p + 1))) with (p + 1).
    rewrite !(proj2 (i64_id mx (p + 1) ltac:(lia) ltac:(lia))).
    split; [split_and!; [done..|lia|lia]|].
    rewrite Hr. destruct (e rows) eqn:E; [by split; [apply He|]|by right].
  - done.
  - intros s p -> Hp. simpl. unfold rate_restore_offsets. simpl. rewrite lookup_singleton_eq. simpl.
    rewrite (proj1 (i64_id mx p ltac:(lia) ltac:(lia))), (proj2 (i64_id mx p ltac:(lia) ltac:(lia))).
    split_and!; [done..|lia|lia|done].
Defined.
End RateSource.

(** ** The file source *)

Section FileSource.
Context `{Arrow}.

(** What the process sees of the directory: its entries (path and whether it
    is a regular file), or [None] when it cannot be listed, and the readers. *)
Record FileEnv := {
  dir_entries : option (list (list Z * bool));
  read_file : str -> str -> result Error (list RecordBatch);
}.

Record FileSource := { fs_format : str; fs_seen : gset (list Z) }.

(** [Path::file_name]. *)
Definition file_name (path : str) : str :=
  match rsplit_once 47 path with Some (_, n) => n | None => path end.

(** [is_stream_data_file]. *)
Definition is_stream_data_file (path format : str) : bool :=
  let name := file_name path in
  if starts_with name (lit ".") || starts_with name (lit "_") || ends_with name (lit ".crc") then false
  else
    let lower := to_ascii_lowercase name in
    if bool_decide (format = lit "json") then ends_with lower (lit ".json") || ends_with lower (lit ".jsonl")
    else if bool_decide (format = lit "csv") then ends_with lower (lit ".csv") || ends_with lower (lit ".txt")
    else if bool_decide (format = lit "parquet") then ends_with lower (lit ".parquet")
    else true.

(** [FileSource::new_files]. *)
Definition new_files (e : FileEnv) (s : FileSource) : list (list Z) :=
  match dir_entries e with
  | None => []
  | Some es =>
      merge_sort str_le
        (fst <$> filter (fun en => snd en = true /\ fst en ∉ fs_seen s
                                   /\ is_stream_data_file (fst en) (fs_format s) = true) es)
  end.

(** [FileSource::plan_batch]. *)
Definition file_plan_batch (e : FileEnv) (s : FileSource) : result Error BatchRange * FileSource :=
  (Ok {| br_source := lit "file"; br_start := ∅; br_end := ∅; br_items := new_files e s |}, s).

(** The read loop of [FileSource::poll_range]. *)
Fixpoint read_items (e : FileEnv) (format : str) (items : list (list Z)) : result Error (list RecordBatch) :=
  match items with
  | [] => Ok []
  | path :: items =>
      if bool_decide (format = lit "parquet" \/ format = lit "json" \/ format = lit "csv") then
        let! bs := read_file e format path in
        let! rest := read_items e format items in
        Ok (bs ++ rest)
      else Err (Unsupported (fmt [lit "readStream.format(`"; format; lit "`) is not a file source"]))
  end.

(** [FileSource::poll_range]: files are marked consumed only once all are read. *)
Definition file_poll_range (e : FileEnv) (s : FileSource) (r : BatchRange)
  : result Error (list RecordBatch) * FileSource :=
  if negb (bool_decide (br_source r = lit "file")) || bool_decide (br_items r = []) then (Ok [], s)
  else match read_items e (fs_format s) (br_items r) with
       | Ok all => (Ok all, {| fs_format := fs_format s; fs_seen := fs_seen s ∪ list_to_set (br_items r) |})
       | Err err => (Err err, s)
       end.

(** [FileSource::committed_offsets]: the consumed paths; the value is unused. *)
Definition file_offsets (seen : gset (list Z)) : SourceOffsets :=
  {| so_source := lit "file"; so_entries := gset_to_gmap 1 seen |}.
Definition file_committed_offsets (s : FileSource) : option SourceOffsets := Some (file_offsets (fs_seen s)).

(** [FileSource::restore_offsets]. *)
Definition file_restore_offsets (s : FileSource) (o : SourceOffsets) : FileSource :=
  if bool_decide (so_source o = lit "file")
  then {| fs_format := fs_format s; fs_seen := fs_seen s ∪ dom (so_entries o) |}
  else s.

#[export] Instance file_source : Source FileEnv FileSource := {|
  plan_batch := file_plan_batch;
  poll_range := file_poll_range;
  committed_offsets := file_committed_offsets;
  restore_offsets := file_restore_offsets;
  available_end := fun _ _ => Ok None |}.

(** Files are immutable once written, so what a path reads as never changes;
    and a listing names each entry once. *)
Definition stable_files (content : str -> list RecordBatch) (e : FileEnv) : Prop :=
  (forall format path bs, read_file e format path = Ok bs -> bs = content path) /\
  (forall es, dir_entries e = Some es -> NoDup es.*1).

Lemma read_items_content content e format items bs :
  stable_files content e -> read_items e format items = Ok bs -> bs = items ≫= content.
Proof.
  intros [Hst _]. revert bs. induction items as [|p items IH]; intros bs Hr; simpl in *; [by simplify_eq|].
  case_bool_decide; [|done]. destruct (read_file e format p) as [b|] eqn:E; [|done].
  simpl in Hr. destruct (read_items e format items) as [rest|]; [|done]. simplify_eq/=.
  by rewrite (Hst _ _ _ E), (IH rest).
Qed.

Lemma elem_of_new_files e s p :
  p ∈ new_files e s <->
  exists es, dir_entries e = Some es /\ (p, true) ∈ es /\ p ∉ fs_seen s
             /\ is_stream_data_file p (fs_format s) = true.
Proof.
  unfold new_files. destruct (dir_entries e) as [es|].
  - rewrite merge_sort_Permutation, list_elem_of_fmap. split.
    + intros ([q b] & -> & Hq). apply list_elem_of_filter in Hq as ((Hb & ? & ?) & ?).
      simpl in *. subst b. eauto 10.
    + intros (es' & [= <-] & Hin & Hs & Hd). exists (p, true). split; [done|].
      by apply list_elem_of_filter.
  - split; [by intros ?%elem_of_nil|]. by intros (? & ? & _).
Qed.

Lemma new_files_NoDup content e s : stable_files content e -> NoDup (new_files e s).
Proof.
  intros [_ Hnd]. unfold new_files. destruct (dir_entries e) as [es|] eqn:E; [|constructor].
  rewrite merge_sort_Permutation. specialize (Hnd es eq_refl). clear E.
  induction es as [|en es IH]; [constructor|]. rewrite filter_cons. inversion Hnd as [|?? Hn1 Hn2]; subst.
  case_decide; [|by apply IH]. simpl. constructor; [|by apply IH].
  intros Hin. apply Hn1. apply list_elem_of_fmap in Hin as (x & Hx & Hin).
  apply list_elem_of_filter in Hin as [_ Hin]. rewrite Hx. by apply list_elem_of_fmap_2.
Qed.

(** The file source meets the contract, with the consumed set as position:
    [listed] are the directories the run may see, and a range planned at [p]
    is what one of them holds besides [p]. *)
Definition file_laws (content : str -> list RecordBatch) (format : str) (listed : FileEnv -> Prop) :
  SourceLaws (Env := FileEnv) (St := FileSource) (gset (list Z)).
Proof.
  refine {|
    src_env_ok := fun e => stable_files content e /\ listed e;
    src_init := fun s => fs_format s = format /\ fs_seen s = ∅;
    src_inv := fun s => fs_format s = format;
    src_pos := fs_seen;
    src_start := ∅;
    src_pos_ok := fun _ => True;
    src_adv p r := p ∪ list_to_set (br_items r);
    src_from p r := br_source r = lit "file" /\ br_items r <> [] /\
      exists e, stable_files content e /\ listed e /\ br_items r = new_files e {| fs_format := format; fs_seen := p |};
    src_records r := br_items r ≫= content;
    src_enc := file_offsets |}.
  - by intros s [-> ->].
  - done.
  - done.
  - intros e s r s' [Henv Hl] Hinv [= <- <-]. split; [done|]. split; [done|]. intros Hne. split; [done|].
    simpl in *. split.
    + intros Hnil. unfold range_is_empty in Hne. simpl in Hne. by rewrite Hnil in Hne.
    + exists e. split; [done|]. split; [done|]. destruct s as [f seen]. simpl in *. by subst f.
  - intros e s p r res s' [Hst _] Hinv (Hsrc & Hne & _) Hpos Hp. simpl in Hp. unfold file_poll_range in Hp.
    rewrite Hsrc, bool_decide_true, bool_decide_false in Hp by done. simpl in Hp.
    destruct (read_items e (fs_format s) (br_items r)) as [all|] eqn:E; simplify_eq/=.
    + split; [done|]. split; [by eapply read_items_content|].
      destruct Hpos as [-> | ->]; [done|]. apply set_eq. intros x. rewrite !elem_of_union. tauto.
    + split; [done|]. done.
  - done.
  - intros s p [Hf Hs] _. simpl. unfold file_restore_offsets. simpl. split; [done|].
    rewrite Hs, dom_gset_to_gmap. apply set_eq. intros x. set_solver.
Defined.
End FileSource.
