(* ===== verification/Kafka.v ===== *)
(** * Kafka: the Kafka source (oxidant-streaming/src/kafka.rs)

    Options, assignment of partitions and their starting offsets, the split of
    [maxOffsetsPerTrigger], planning a batch and reading it, the offline spool.

    The broker is the record [Broker]: what it answers during one call.  A
    [BTreeMap] keyed by topic-partitions whose order matters (the assigned
    partitions) is a sorted list; the others are [gmap]s.  Records stay
    [KafkaRecord]s: turning them into an Arrow batch is column by column. *)

From S2P Require Import Prelude Text Source.

(** ** Topic-partitions *)

Record TopicPartition := { topic : str; partition : Z }.
#[export] Instance TopicPartition_eq_dec : EqDecision TopicPartition.
Proof. solve_decision. Defined.
#[export] Instance TopicPartition_countable : Countable TopicPartition.
Proof.
  refine (inj_countable' (fun tp => (topic tp, partition tp)) (fun p => {| topic := fst p; partition := snd p |}) _).
  by intros [].
Defined.

(** [Display]. *)
Definition tp_show (tp : TopicPartition) : str := fmt [topic tp; lit "-"; show_i (partition tp)].

(** [parse_topic_partition]: split at the last dash. *)
Definition parse_topic_partition (key : str) : option TopicPartition :=
  '(t, p) ← rsplit_once 45 key; n ← parse_i 32 p; Some {| topic := t; partition := n |}.

(** The derived [Ord]: by topic, then by partition. *)
Fixpoint str_ltb (a b : str) : bool :=
  match a, b with
  | _, [] => false
  | [], _ :: _ => true
  | x :: a, y :: b => (x <? y) || ((x =? y) && str_ltb a b)
  end.
Definition tp_ltb (a b : TopicPartition) : bool :=
  str_ltb (topic a) (topic b) || (bool_decide (topic a = topic b) && (partition a <? partition b)).

(** The entries of a [BTreeMap<String, _>], in key order. *)
Definition key_le (a b : str * Z) : Prop := str_ltb (fst b) (fst a) = false.
#[export] Instance key_le_dec : RelDecision key_le.
Proof. unfold RelDecision, key_le. solve_decision. Defined.
Definition entries (m : gmap (list Z) Z) : list (str * Z) := merge_sort key_le (map_to_list m).

(** Insertion into the keys of a [BTreeMap]. *)
Fixpoint insert_key (tp : TopicPartition) (l : list TopicPartition) : list TopicPartition :=
  match l with
  | [] => [tp]
  | x :: l => if bool_decide (tp = x) then x :: l else if tp_ltb tp x then tp :: x :: l else x :: insert_key tp l
  end.

(** ** Options *)

Inductive StartingOffsets := Earliest | Latest | Assigned (map : gmap TopicPartition Z).

Record KafkaOptions := {
  brokers : list str;
  topics : list str;
  starting_offsets : StartingOffsets;
  max_offsets_per_trigger : option Z;
  fetch_max_wait_ms : Z;
  max_partition_fetch_bytes : Z;
  metadata_max_age : Z;
  spool_dir : option str;
}.

Definition DEFAULT_MAX_PARTITION_FETCH_BYTES : Z := 1024 * 1024.
Definition DEFAULT_FETCH_MAX_WAIT_MS : Z := 500.
Definition DEFAULT_METADATA_MAX_AGE_MS : Z := 30000.

(** [s.split(',').map(trim).filter(not empty)]. *)
Definition comma_list (s : option str) : list str :=
  match s with
  | Some s => List.filter (fun t => negb (bool_decide (t = []))) (trim <$> split_char 44 s)
  | None => []
  end.

(** The loops of [parse_offset_json] over the parsed object. *)
Fixpoint offset_entries (t : str) (ps : list (str * Z)) (out : gmap TopicPartition Z) : result Error (gmap TopicPartition Z) :=
  match ps with
  | [] => Ok out
  | (p, offset) :: ps =>
      match parse_i 32 p with
      | Some n => offset_entries t ps (<[{| topic := t; partition := n |} := offset]> out)
      | None => Err (Plan (fmt [lit "kafka `startingOffsets`: `"; p; lit "` is not a partition number"]))
      end
  end.
Fixpoint offset_topics (ts : list (str * list (str * Z))) (out : gmap TopicPartition Z) : result Error (gmap TopicPartition Z) :=
  match ts with
  | [] => Ok out
  | (t, ps) :: ts => let! out := offset_entries t ps out in offset_topics ts out
  end.

Section Options.
(** [serde_json::from_str] for a map of maps of integers, in key order. *)
Context (json_offsets : str -> result str (list (str * list (str * Z)))).

Definition parse_offset_json (json : str) : result Error (gmap TopicPartition Z) :=
  match json_offsets json with
  | Err e => Err (Plan (fmt [lit "kafka `startingOffsets` is not valid JSON: "; e]))
  | Ok parsed => offset_topics parsed ∅
  end.

(** [KafkaOptions::from_spark]; [spool_var] is [OXIDANT_KAFKA_SPOOL]. *)
Definition from_spark (options : gmap (list Z) (list Z)) (spool_var : option str) : result Error KafkaOptions :=
  let get k := trim <$> options !! lit k in
  let first k1 k2 := match get k1 with Some s => Some s | None => get k2 end in
  if bool_decide (is_Some (options !! lit "subscribePattern")) then
    Err (Unsupported (fmt [lit "kafka `subscribePattern` is not supported "; [8212]; lit " list topics with `subscribe`"]))
  else if bool_decide (is_Some (options !! lit "assign")) then
    Err (Unsupported (fmt [lit "kafka `assign` is not supported "; [8212];
      lit " use `subscribe` (Oxidant assigns every partition of each topic) and `startingOffsets` for per-partition positions"]))
  else
    let topics := comma_list (first "subscribe" "topic")%string in
    let brokers := comma_list (first "kafka.bootstrap.servers" "bootstrap.servers")%string in
    let spool := match get "oxidant.spool.dir"%string with Some s => Some s | None => spool_var end in
    let spool := s ← spool; if bool_decide (s = []) then None else Some s in
    if bool_decide (topics = []) then Err (Plan (lit "kafka source: `subscribe` must name at least one topic"))
    else if bool_decide (brokers = []) && negb (bool_decide (is_Some spool)) then
      Err (Plan (lit "kafka source: `kafka.bootstrap.servers` is required (or set OXIDANT_KAFKA_SPOOL for the offline spool-directory mode)"))
    else
      let! start :=
        match get "startingOffsets"%string with
        | None => Ok Latest
        | Some s => if bool_decide (s = lit "latest") then Ok Latest
                    else if bool_decide (s = lit "earliest") then Ok Earliest
                    else let! m := parse_offset_json s in Ok (Assigned m)
        end in
      Ok {| brokers := brokers; topics := topics; starting_offsets := start;
            max_offsets_per_trigger := get "maxOffsetsPerTrigger"%string ≫= parse_u 10 (u_max 64);
            fetch_max_wait_ms := default DEFAULT_FETCH_MAX_WAIT_MS (get "kafka.fetch.max.wait.ms"%string ≫= parse_i 32);
            max_partition_fetch_bytes :=
              default DEFAULT_MAX_PARTITION_FETCH_BYTES (get "kafka.max.partition.fetch.bytes"%string ≫= parse_i 32);
            metadata_max_age := default DEFAULT_METADATA_MAX_AGE_MS (get "kafka.metadata.max.age.ms"%string ≫= parse_u 10 (u_max 64));
            spool_dir := spool |}.
End Options.

(** ** The source *)

Record KafkaRecord := {
  kr_key : option (list Z);
  kr_value : option (list Z);
  kr_topic : str;
  kr_partition : Z;
  kr_offset : Z;
  kr_timestamp_ms : Z;
}.

(** A record as the broker returns it. *)
Record Fetched := { f_offset : Z; f_key : option (list Z); f_value : option (list Z); f_timestamp : Z }.

(** What the broker (and the spool directory) answer during a call: errors are
    their texts.  [fetch] may answer differently from round to round. *)
Record Broker := {
  now : Z;
  connect : result str unit;
  list_topics : result str (list (str * list Z));
  partition_client : TopicPartition -> result str unit;
  earliest : TopicPartition -> result str Z;
  latest : TopicPartition -> result str Z;
  fetch : nat -> TopicPartition -> Z -> result str (list Fetched);
  spool_file : Z -> option (result str str);
  spool_mkdir : result str unit;
}.

Record KafkaSource := {
  options : KafkaOptions;
  offsets : gmap TopicPartition Z;
  assigned : bool;
  connected : bool;
  partition_clients : list TopicPartition;
  high_watermarks : gmap TopicPartition Z;
  assigned_at : option Z;
  round_robin : Z;
  spool_cursor : Z;
}.

Definition kafka_new (o : KafkaOptions) : KafkaSource := {|
  options := o; offsets := ∅; assigned := false; connected := false; partition_clients := []; high_watermarks := ∅;
  assigned_at := None; round_robin := 0; spool_cursor := 0 |}.

Definition with_offsets (s : KafkaSource) (o : gmap TopicPartition Z) : KafkaSource := {|
  options := options s; offsets := o; assigned := assigned s; connected := connected s;
  partition_clients := partition_clients s; high_watermarks := high_watermarks s; assigned_at := assigned_at s;
  round_robin := round_robin s; spool_cursor := spool_cursor s |}.

Definition spool_mode (s : KafkaSource) : bool :=
  bool_decide (is_Some (spool_dir (options s))) && bool_decide (brokers (options s) = []).

(** ** Assignment *)

Definition resolve_start_offset (b : Broker) (o : KafkaOptions) (tp : TopicPartition) (first_assignment : bool) : result Error Z :=
  let io (r : result str Z) (what : str) : result Error Z :=
    match r with Ok n => Ok n | Err e => Err (Io (fmt [lit "kafka: offset for "; what; lit "`"; tp_show tp; lit "`: "; e])) end in
  if negb first_assignment then io (earliest b tp) (lit "new partition ")
  else match starting_offsets o with
       | Earliest => io (earliest b tp) []
       | Latest => io (latest b tp) []
       | Assigned m =>
           match m !! tp with
           | None => io (latest b tp) []
           | Some n => if n =? -2 then io (earliest b tp) [] else if n =? -1 then io (latest b tp) [] else Ok n
           end
       end.

(** The body of the loops of [assign]; the state so far is kept on an error. *)
Definition assign_partition (b : Broker) (first : bool) (s : KafkaSource) (tp : TopicPartition) : result Error unit * KafkaSource :=
  if bool_decide (tp ∈ partition_clients s) then (Ok tt, s)
  else match partition_client b tp with
       | Err e => (Err (Io (fmt [lit "kafka: client for `"; tp_show tp; lit "`: "; e])), s)
       | Ok _ =>
           let add (o : gmap TopicPartition Z) : KafkaSource := {|
             options := options s; offsets := o; assigned := assigned s; connected := connected s;
             partition_clients := insert_key tp (partition_clients s); high_watermarks := high_watermarks s;
             assigned_at := assigned_at s; round_robin := round_robin s; spool_cursor := spool_cursor s |} in
           match offsets s !! tp with
           | Some _ => (Ok tt, add (offsets s))
           | None =>
               match resolve_start_offset b (options s) tp first with
               | Err e => (Err e, s)
               | Ok start => (Ok tt, add (<[tp := start]> (offsets s)))
               end
           end
       end.

Fixpoint assign_partitions (b : Broker) (first : bool) (s : KafkaSource) (tps : list TopicPartition) : result Error unit * KafkaSource :=
  match tps with
  | [] => (Ok tt, s)
  | tp :: tps =>
      match assign_partition b first s tp with
      | (Ok _, s) => assign_partitions b first s tps
      | r => r
      end
  end.

Fixpoint assign_topics (b : Broker) (first : bool) (s : KafkaSource) (found : list (str * list Z)) (want : list str)
    : result Error unit * KafkaSource :=
  match want with
  | [] => (Ok tt, s)
  | w :: want =>
      match List.find (fun t => bool_decide (fst t = w)) found with
      | None => (Err (Plan (fmt [lit "kafka topic `"; w; lit "` does not exist on ["; join (lit ",") (brokers (options s)); lit "]"])), s)
      | Some (_, ps) =>
          match assign_partitions b first s ((fun p => {| topic := w; partition := p |}) <$> ps) with
          | (Ok _, s) => assign_topics b first s found want
          | r => r
          end
      end
  end.

Definition with_connected (s : KafkaSource) : KafkaSource := {|
  options := options s; offsets := offsets s; assigned := assigned s; connected := true;
  partition_clients := partition_clients s; high_watermarks := high_watermarks s; assigned_at := assigned_at s;
  round_robin := round_robin s; spool_cursor := spool_cursor s |}.

Definition with_assigned (s : KafkaSource) (at_ : Z) : KafkaSource := {|
  options := options s; offsets := offsets s; assigned := true; connected := connected s;
  partition_clients := partition_clients s; high_watermarks := high_watermarks s; assigned_at := Some at_;
  round_robin := round_robin s; spool_cursor := spool_cursor s |}.

(** [client]: connect once. *)
Definition client (b : Broker) (s : KafkaSource) : result Error unit * KafkaSource :=
  if connected s then (Ok tt, s)
  else match connect b with
       | Ok _ => (Ok tt, with_connected s)
       | Err e => (Err (Io (fmt [lit "kafka: connect to ["; join (lit ",") (brokers (options s)); lit "]: "; e])), s)
       end.

Definition assign (b : Broker) (s : KafkaSource) : result Error unit * KafkaSource :=
  let fresh := match assigned_at s with Some at_ => now b - at_ <? metadata_max_age (options s) | None => false end in
  if assigned s && fresh then (Ok tt, s)
  else
    let first_assignment := negb (assigned s) in
    match client b s with
    | (Err e, s) => (Err e, s)
    | (Ok _, s) =>
        match list_topics b with
        | Err e => (Err (Io (fmt [lit "kafka: list topics: "; e])), s)
        | Ok found =>
            match assign_topics b first_assignment s found (topics (options s)) with
            | (Ok _, s) => (Ok tt, with_assigned s (now b))
            | r => r
            end
        end
    end.

(** ** The split of [maxOffsetsPerTrigger] *)

(** [(i + n - start) % n]. *)
Definition rotated (n : nat) (start : Z) (i : nat) : Z := (Z.of_nat i + Z.of_nat n - start) mod Z.of_nat n.

Definition partition_budgets (limit : option Z) (rr : Z) (partitions : list TopicPartition) (lag : gmap TopicPartition Z)
    : list (TopicPartition * Z) :=
  match limit with
  | None => (fun tp => (tp, u_max 64)) <$> partitions
  | Some budget =>
      let n := length partitions in
      let start := rr mod Z.of_nat n in
      if (n =? 0)%nat then []
      else if budget <? Z.of_nat n then
        imap (fun i tp => (tp, if rotated n start i <? budget then 1 else 0)) partitions
      else
        let lag_of tp := default 1 (lag !! tp) in
        let total_lag := sumZ (lag_of <$> partitions) in
        let remaining := budget - Z.of_nat n in
        let shares := (fun tp => 1 + (if 0 <? total_lag then remaining * lag_of tp / total_lag else 0)) <$> partitions in
        let remaining := if 0 <? total_lag then sat_subu budget (sumZ shares) else remaining in
        let each := remaining / Z.of_nat n in
        let extra := remaining mod Z.of_nat n in
        imap (fun i '(tp, share) => (tp, share + (each + if rotated n start i <? extra then 1 else 0))) (zip partitions shares)
  end.

Definition budget_of (budgets : list (TopicPartition * Z)) (tp : TopicPartition) : Z :=
  match List.find (fun p => bool_decide (fst p = tp)) budgets with Some (_, n) => n | None => 0 end.

(** ** Planning *)

Fixpoint latest_offsets (b : Broker) (tps : list TopicPartition) : result Error (gmap TopicPartition Z) :=
  match tps with
  | [] => Ok ∅
  | tp :: tps =>
      match latest b tp with
      | Err e => Err (Io (fmt [lit "kafka: latest offset for `"; tp_show tp; lit "`: "; e]))
      | Ok e => let! ends := latest_offsets b tps in Ok (<[tp := e]> ends)
      end
  end.

Definition position (s : KafkaSource) (tp : TopicPartition) : Z := default 0 (offsets s !! tp).

Definition lag_of (s : KafkaSource) (ends : gmap TopicPartition Z) (tp : TopicPartition) : Z :=
  Z.max (wraps 64 (default (position s tp) (ends !! tp) - position s tp)) 0.

(** Where the batch stops on one partition. *)
Definition batch_end (s : KafkaSource) (ends : gmap TopicPartition Z) (budgets : list (TopicPartition * Z)) (tp : TopicPartition) : Z :=
  let from := position s tp in
  let available := default from (ends !! tp) in
  let capped := sat_i 64 (from + Z.min (budget_of budgets tp) (i_max 64)) in
  Z.min available capped.

Definition add_to_range (s : KafkaSource) (ends : gmap TopicPartition Z) (budgets : list (TopicPartition * Z))
    (r : BatchRange) (tp : TopicPartition) : BatchRange :=
  let from := position s tp in
  let e := batch_end s ends budgets tp in
  if e <=? from then r
  else {| br_source := br_source r; br_start := <[tp_show tp := from]> (br_start r);
          br_end := <[tp_show tp := e]> (br_end r); br_items := br_items r |}.

Definition kafka_range : BatchRange := {| br_source := lit "kafka"; br_start := ∅; br_end := ∅; br_items := [] |}.

Definition lags (s : KafkaSource) (ends : gmap TopicPartition Z) (partitions : list TopicPartition) : gmap TopicPartition Z :=
  list_to_map ((fun tp => (tp, lag_of s ends tp)) <$> partitions).

Definition with_planned (s : KafkaSource) (hw : gmap TopicPartition Z) (rr : Z) : KafkaSource := {|
  options := options s; offsets := offsets s; assigned := assigned s; connected := connected s;
  partition_clients := partition_clients s; high_watermarks := hw; assigned_at := assigned_at s;
  round_robin := rr; spool_cursor := spool_cursor s |}.

(** *** The spool *)

Definition SPOOL_SOURCE : str := lit "kafka-spool".
Definition SPOOL_FILE_KEY : str := lit "file".
Definition SPOOL_OFFSET_KEY : str := lit "offset".

Definition spool_tp (s : KafkaSource) : TopicPartition := {| topic := default [] (head (topics (options s))); partition := 0 |}.
Definition spool_record_offset (s : KafkaSource) : Z := default 0 (offsets s !! spool_tp s).
Definition spool_lines (body : str) : list str := List.filter (fun l => negb (bool_decide (trim l = []))) (lines body).
Definition spool_read_error (dir : str) (i : Z) (e : str) : Error :=
  Io (fmt [lit "kafka spool: read "; dir; lit "/batch-"; show_i i; lit ".json: "; e]).

Definition plan_spool (b : Broker) (s : KafkaSource) : result Error BatchRange :=
  match spool_dir (options s) with
  | None => Ok default_range
  | Some dir =>
      match spool_file b (spool_cursor s) with
      | None => Ok default_range
      | Some (Err e) => Err (spool_read_error dir (spool_cursor s) e)
      | Some (Ok body) =>
          let records := Z.of_nat (length (spool_lines body)) in
          let offset := spool_record_offset s in
          let cur := wraps 64 (spool_cursor s) in
          Ok {| br_source := SPOOL_SOURCE;
                br_start := {[SPOOL_FILE_KEY := cur; SPOOL_OFFSET_KEY := offset]};
                br_end := {[SPOOL_FILE_KEY := wraps 64 (cur + 1); SPOOL_OFFSET_KEY := wraps 64 (offset + records)]};
                br_items := [] |}
      end
  end.

Definition plan_batch (b : Broker) (s : KafkaSource) : result Error BatchRange * KafkaSource :=
  if spool_mode s then (plan_spool b s, s)
  else
    match assign b s with
    | (Err e, s) => (Err e, s)
    | (Ok _, s) =>
        let partitions := partition_clients s in
        if bool_decide (partitions = []) then (Ok default_range, s)
        else match latest_offsets b partitions with
             | Err e => (Err e, s)
             | Ok ends =>
                 let budgets := partition_budgets (max_offsets_per_trigger (options s)) (round_robin s) partitions (lags s ends partitions) in
                 let range := foldl (add_to_range s ends budgets) kafka_range partitions in
                 let rr := if range_is_empty range then round_robin s else wrapu 64 (round_robin s + 1) in
                 (Ok range, with_planned s ends rr)
             end
    end.

(** ** Reading *)

Definition MAX_FETCH_ROUNDS : nat := 512.

(** The [for r in fetched] loop: the records before [e], and the offset after
    the last of them. *)
Fixpoint take_fetched (tp : TopicPartition) (e : Z) (fetched : list Fetched) (next : Z) : list KafkaRecord * Z :=
  match fetched with
  | [] => ([], next)
  | r :: fetched =>
      if e <=? f_offset r then ([], next)
      else
        let '(rs, next) := take_fetched tp e fetched (wraps 64 (f_offset r + 1)) in
        ({| kr_key := f_key r; kr_value := f_value r; kr_topic := topic tp; kr_partition := partition tp;
            kr_offset := f_offset r; kr_timestamp_ms := f_timestamp r |} :: rs, next)
  end.

(** The [while] loop of one partition; [rounds] are left. *)
Fixpoint fetch_loop (b : Broker) (tp : TopicPartition) (e : Z) (rounds : nat) (next : Z) : result Error (list KafkaRecord) :=
  match rounds with
  | O => Ok []
  | S rounds =>
      if negb (next <? e) then Ok []
      else match fetch b (MAX_FETCH_ROUNDS - S rounds) tp next with
           | Err err => Err (Io (fmt [lit "kafka: fetch `"; tp_show tp; lit "` from offset "; show_i next; lit ": "; err]))
           | Ok [] => Ok []
           | Ok fetched =>
               let '(rs, next) := take_fetched tp e fetched next in
               let! more := fetch_loop b tp e rounds next in
               Ok (rs ++ more)
           end
  end.

(** The slices a range names: a key that is not a topic-partition and an empty
    slice are passed over, an unassigned partition is an error. *)
Fixpoint fetch_plans (clients : list TopicPartition) (start : gmap (list Z) Z) (ends : list (str * Z))
    : result Error (list (TopicPartition * Z * Z)) :=
  match ends with
  | [] => Ok []
  | (key, e) :: ends =>
      match parse_topic_partition key with
      | None => fetch_plans clients start ends
      | Some tp =>
          let from := default 0 (start !! key) in
          if e <=? from then fetch_plans clients start ends
          else if bool_decide (tp ∈ clients) then
            let! ps := fetch_plans clients start ends in Ok ((tp, from, e) :: ps)
          else Err (Io (fmt [lit "kafka: partition `"; tp_show tp; lit "` is in batch range but not assigned"]))
      end
  end.

Fixpoint fetch_all (b : Broker) (plans : list (TopicPartition * Z * Z)) : result Error (list KafkaRecord) :=
  match plans with
  | [] => Ok []
  | (tp, from, e) :: plans =>
      let! rs := fetch_loop b tp e MAX_FETCH_ROUNDS from in
      let! more := fetch_all b plans in
      Ok (rs ++ more)
  end.

(** [sort_by_key(|r| (r.partition, r.offset))]: a stable sort. *)
Definition record_le (a b : KafkaRecord) : Prop :=
  kr_partition a < kr_partition b \/ kr_partition a = kr_partition b /\ kr_offset a <= kr_offset b.
#[export] Instance record_le_dec : RelDecision record_le.
Proof. unfold RelDecision, record_le. solve_decision. Defined.

Definition fetch_range (b : Broker) (s : KafkaSource) (r : BatchRange) : result Error (list KafkaRecord) * KafkaSource :=
  match assign b s with
  | (Err e, s) => (Err e, s)
  | (Ok _, s) =>
      (let! plans := fetch_plans (partition_clients s) (br_start r) (entries (br_end r)) in
       let! out := fetch_all b plans in
       Ok (merge_sort record_le out), s)
  end.

(** [read_spool]. *)
Fixpoint spool_records (t : str) (ls : list str) (offset now_ms : Z) : list KafkaRecord :=
  match ls with
  | [] => []
  | l :: ls =>
      {| kr_key := None; kr_value := Some (utf8_encode l); kr_topic := t; kr_partition := 0; kr_offset := offset;
         kr_timestamp_ms := now_ms |} :: spool_records t ls (wraps 64 (offset + 1)) now_ms
  end.

Definition read_spool (b : Broker) (s : KafkaSource) (r : BatchRange) : result Error (list KafkaRecord) * KafkaSource :=
  match spool_dir (options s) with
  | None => (Err (Plan (fmt [lit "this batch was recorded against the offline spool, but no spool directory is configured now ";
      [8212]; lit " set `oxidant.spool.dir` (or OXIDANT_KAFKA_SPOOL) to finish it, or start the query from a fresh checkpoint"])), s)
  | Some dir =>
      match spool_mkdir b with
      | Err e => (Err (Io (fmt [lit "kafka spool: mkdir "; dir; lit ": "; e])), s)
      | Ok _ =>
          let index := default 0 (br_start r !! SPOOL_FILE_KEY) in
          match spool_file b index with
          | None => (Ok [], s)
          | Some (Err e) => (Err (spool_read_error dir index e), s)
          | Some (Ok body) =>
              let offset := default 0 (br_start r !! SPOOL_OFFSET_KEY) in
              let ls := spool_lines body in
              (Ok (spool_records (topic (spool_tp s)) ls offset (now b)),
               {| options := options s;
                  offsets := <[spool_tp s := wraps 64 (offset + Z.of_nat (length ls))]> (offsets s);
                  assigned := assigned s; connected := connected s; partition_clients := partition_clients s;
                  high_watermarks := high_watermarks s; assigned_at := assigned_at s; round_robin := round_robin s;
                  spool_cursor := Z.max (default (wraps 64 (index + 1)) (br_end r !! SPOOL_FILE_KEY)) 0 |})
          end
      end
  end.

(** The position moves to the ends the range fixed. *)
Definition move_to_ends (o : gmap TopicPartition Z) (ends : list (str * Z)) : gmap TopicPartition Z :=
  foldl (fun o kv => match parse_topic_partition (fst kv) with Some tp => <[tp := snd kv]> o | None => o end) o ends.

Definition poll_range (b : Broker) (s : KafkaSource) (r : BatchRange) : result Error (list KafkaRecord) * KafkaSource :=
  if range_is_empty r then (Ok [], s)
  else if bool_decide (br_source r = SPOOL_SOURCE) then read_spool b s r
  else if bool_decide (br_source r = lit "kafka") then
    match fetch_range b s r with
    | (Err e, s) => (Err e, s)
    | (Ok records, s) => (Ok records, with_offsets s (move_to_ends (offsets s) (entries (br_end r))))
    end
  else (Err (Plan (fmt [lit "batch range was planned by `"; br_source r; lit "`, not by the kafka source"])), s).

(** ** Positions *)

Definition committed_offsets (s : KafkaSource) : option SourceOffsets :=
  if spool_mode s then
    Some {| so_source := SPOOL_SOURCE;
            so_entries := {[SPOOL_FILE_KEY := wraps 64 (spool_cursor s); SPOOL_OFFSET_KEY := spool_record_offset s]} |}
  else Some {| so_source := lit "kafka"; so_entries := kmap tp_show (offsets s) |}.

Definition restore_offsets (s : KafkaSource) (o : SourceOffsets) : KafkaSource :=
  if bool_decide (so_source o = SPOOL_SOURCE) then
    let s := with_offsets s (<[spool_tp s := default 0 (so_entries o !! SPOOL_OFFSET_KEY)]> (offsets s)) in
    {| options := options s; offsets := offsets s; assigned := assigned s; connected := connected s;
       partition_clients := partition_clients s; high_watermarks := high_watermarks s; assigned_at := assigned_at s;
       round_robin := round_robin s; spool_cursor := Z.max (default 0 (so_entries o !! SPOOL_FILE_KEY)) 0 |}
  else if negb (bool_decide (so_source o = lit "kafka")) then s
  else with_offsets s (move_to_ends (offsets s) (entries (so_entries o))).

(** ** Theorems *)

(** *** Names *)

Definition tp_ok (tp : TopicPartition) : Prop := 0 <= partition tp <= i_max 32.

Lemma parse_i_show n : 0 <= n <= i_max 32 -> parse_i 32 (show_u n) = Some n.
Proof.
  intros Hn. unfold parse_i. pose proof (show_u_no_char n 45 ltac:(lia) ltac:(lia)) as Hc.
  pose proof (parse_u_show n (i_max 32) ltac:(lia)) as Hp. destruct (show_u n) as [|c s]; [done|].
  destruct (decide (c = 45)) as [->|Hne]; [exfalso; apply Hc; left|].
  destruct c as [|c|c]; [done| |done]. do 6 (destruct c as [c|c|]; try done).
Qed.

Lemma parse_tp_show tp : tp_ok tp -> parse_topic_partition (tp_show tp) = Some tp.
Proof.
  intros Hp. unfold tp_ok in Hp. unfold parse_topic_partition, tp_show, show_i. destruct (Z.ltb_spec (partition tp) 0); [lia|].
  assert (fmt [topic tp; lit "-"; show_u (partition tp)] = topic tp ++ 45 :: show_u (partition tp)) as ->.
  { unfold fmt. cbn [concat]. by rewrite app_nil_r. }
  rewrite rsplit_once_app by (apply show_u_no_char; lia). cbn -[parse_i show_u].
  rewrite parse_i_show by done. by destruct tp.
Qed.

Lemma tp_show_inj a b : tp_ok a -> tp_ok b -> tp_show a = tp_show b -> a = b.
Proof. intros Ha%parse_tp_show Hb%parse_tp_show E. congruence. Qed.

(** *** The split of the budget *)

Lemma sumZ_imap_add {A} (f : A -> Z) (g : nat -> Z) (l : list A) :
  sumZ (imap (fun i x => f x + g i) l) = sumZ (f <$> l) + sumZ (g <$> seq 0 (length l)).
Proof.
  revert g. induction l as [|x l IH]; intros g; [done|]. rewrite imap_cons. cbn [length seq].
  rewrite !fmap_cons. cbn [sumZ foldr]. fold sumZ. rewrite <-fmap_S_seq, <-list_fmap_compose.
  change (imap ((fun i y => f y + g i) ∘ S) l) with (imap (fun i y => f y + (g ∘ S) i) l).
  pose proof (IH (g ∘ S)) as E. unfold sumZ in *. rewrite E. lia.
Qed.

Lemma rotated_perm n start : 0 <= start -> (0 < n)%nat -> rotated n start <$> seq 0 n ≡ₚ Z.of_nat <$> seq 0 n.
Proof.
  intros Hs Hn. apply submseteq_length_Permutation; [|by rewrite !length_fmap].
  apply NoDup_submseteq.
  - apply NoDup_fmap_2_strong; [|apply NoDup_seq]. intros i j Hi Hj E. apply elem_of_seq in Hi, Hj.
    unfold rotated in E.
    pose proof (Z.div_mod (Z.of_nat i + Z.of_nat n - start) (Z.of_nat n) ltac:(lia)).
    pose proof (Z.div_mod (Z.of_nat j + Z.of_nat n - start) (Z.of_nat n) ltac:(lia)).
    set (qi := (Z.of_nat i + Z.of_nat n - start) / Z.of_nat n) in *. set (qj := (Z.of_nat j + Z.of_nat n - start) / Z.of_nat n) in *.
    assert (Z.of_nat i - Z.of_nat j = Z.of_nat n * (qi - qj)) by lia. assert (qi - qj = 0) by nia. nia.
  - intros x (i & -> & Hi)%list_elem_of_fmap. apply elem_of_seq in Hi.
    pose proof (Z.mod_pos_bound (Z.of_nat i + Z.of_nat n - start) (Z.of_nat n) ltac:(lia)) as Hb.
    apply list_elem_of_fmap. exists (Z.to_nat (rotated n start i)). unfold rotated in *. split; [lia|]. apply elem_of_seq. lia.
Qed.

Lemma count_below n e : 0 <= e -> sumZ ((fun x => if x <? e then 1 else 0) <$> (Z.of_nat <$> seq 0 n)) = Z.min e (Z.of_nat n).
Proof.
  intros He. induction n as [|n IH]; [cbn; lia|]. rewrite seq_S, !fmap_app, sumZ_app, IH. cbn -[Z.of_nat].
  destruct (Z.ltb_spec (Z.of_nat n) e); lia.
Qed.

Lemma rotated_count n start e : 0 <= start -> (0 < n)%nat -> 0 <= e ->
  sumZ ((fun i => if rotated n start i <? e then 1 else 0) <$> seq 0 n) = Z.min e (Z.of_nat n).
Proof.
  intros Hs Hn He. rewrite <-(count_below n e He).
  rewrite (list_fmap_compose (rotated n start) (fun x => if x <? e then 1 else 0)).
  apply sumZ_perm. by rewrite (rotated_perm n start Hs Hn).
Qed.

Lemma sum_div_le T l : 0 < T -> sumZ ((fun x => x / T) <$> l) <= sumZ l / T.
Proof.
  intros HT. induction l as [|x l IH]; [done|]. rewrite fmap_cons. change (sumZ (?a :: ?k)) with (a + sumZ k).
  apply Z.div_le_lower_bound; [done|]. pose proof (Z.mul_div_le x T HT). pose proof (Z.mul_div_le (sumZ l) T HT). nia.
Qed.

Lemma sumZ_scale R l : sumZ ((fun x => R * x) <$> l) = R * sumZ l.
Proof. induction l as [|x l IH]; [cbn; lia|]. rewrite fmap_cons. change (sumZ (?a :: ?k)) with (a + sumZ k). rewrite IH. lia. Qed.

Lemma sumZ_add_fmap {A} (f g : A -> Z) l : sumZ ((fun x => f x + g x) <$> l) = sumZ (f <$> l) + sumZ (g <$> l).
Proof. induction l as [|x l IH]; [done|]. rewrite !fmap_cons. change (sumZ (?a :: ?k)) with (a + sumZ k). lia. Qed.

Lemma sumZ_const {A} (c : Z) (l : list A) : sumZ ((fun _ => c) <$> l) = Z.of_nat (length l) * c.
Proof. induction l as [|x l IH]; [done|]. rewrite fmap_cons. change (sumZ (?a :: ?k)) with (a + sumZ k). cbn [length]. lia. Qed.

Lemma Forall_imap {A B} (P : B -> Prop) (f : nat -> A -> B) l : (forall i x, x ∈ l -> P (f i x)) -> Forall P (imap f l).
Proof. intros Hf. apply Forall_forall. intros y (i & x & -> & Hx)%elem_of_lookup_imap. apply Hf. by apply list_elem_of_lookup_2 in Hx. Qed.

Lemma fst_imap_keep {A B} (g : nat -> A -> B) (l : list A) : fst <$> imap (fun i x => (x, g i x)) l = l.
Proof. revert g. induction l as [|x l IH]; intros g; [done|]. rewrite imap_cons, fmap_cons. cbn. f_equal. apply (IH (fun i => g (S i))). Qed.

Lemma fst_imap_zip {A} (g : nat -> Z -> Z) (l : list A) (k : list Z) :
  length k = length l -> fst <$> imap (fun i '(x, n) => (x, g i n)) (zip l k) = l.
Proof.
  revert g k. induction l as [|x l IH]; intros g [|y k] Hl; try done. cbn [zip zip_with]. rewrite imap_cons, fmap_cons. cbn.
  f_equal. apply (IH (fun i => g (S i))). by injection Hl.
Qed.

(** The shares before the last spread add up to at most the budget. *)
Lemma shares_bound ps (lag : TopicPartition -> Z) budget :
  Forall (fun tp => 0 <= lag tp) ps -> Z.of_nat (length ps) <= budget -> 0 < sumZ (lag <$> ps) ->
  let R := budget - Z.of_nat (length ps) in let T := sumZ (lag <$> ps) in
  sumZ ((fun tp => 1 + R * lag tp / T) <$> ps) <= budget.
Proof.
  intros Hl Hn HT R T. rewrite (sumZ_add_fmap (fun _ => 1) (fun tp => R * lag tp / T)), sumZ_const.
  assert (sumZ ((fun tp => R * lag tp / T) <$> ps) <= R); [|lia].
  pose proof (sum_div_le T ((fun x => R * x) <$> (lag <$> ps)) HT) as Hd. rewrite sumZ_scale in Hd. fold T in Hd.
  rewrite Z.div_mul in Hd by lia. by rewrite <-!list_fmap_compose in Hd.
Qed.

Lemma budgets_spec budget rr ps lag :
  ps <> [] -> 0 <= budget -> 0 <= rr -> (forall tp n, lag !! tp = Some n -> 0 <= n) ->
  let bs := partition_budgets (Some budget) rr ps lag in
  fst <$> bs = ps /\ sumZ (snd <$> bs) = budget /\
  (Z.of_nat (length ps) <= budget -> Forall (fun p => 1 <= snd p) bs) /\
  (budget < Z.of_nat (length ps) -> Forall (fun p => snd p = 0 \/ snd p = 1) bs).
Proof.
  intros Hps Hb Hrr Hlag. unfold partition_budgets. set (n := length ps).
  assert (0 < n)%nat as Hn by (destruct ps; [done|unfold n; cbn; lia]).
  pose proof (Z.mod_pos_bound rr (Z.of_nat n) ltac:(lia)) as Hst. set (start := rr mod Z.of_nat n) in *.
  destruct (Nat.eqb_spec n 0); [lia|]. destruct (Z.ltb_spec budget (Z.of_nat n)) as [Hlt|Hge]; cbv zeta.
  - split_and!; [apply fst_imap_keep| |lia|].
    + rewrite fmap_imap. transitivity (Z.min budget (Z.of_nat n)); [|lia]. rewrite <-(rotated_count n start budget) by lia.
      transitivity (sumZ ((fun _ => 0) <$> ps) + sumZ ((fun i => if rotated n start i <? budget then 1 else 0) <$> seq 0 n));
        [exact (sumZ_imap_add (fun _ => 0) _ ps)|rewrite sumZ_const; lia].
    + intros _. apply Forall_imap. intros i x _. cbn. destruct (_ <? _); auto.
  - set (lag_of tp := default 1 (lag !! tp)). set (T := sumZ (lag_of <$> ps)). set (R := budget - Z.of_nat n).
    set (shares := (fun tp => 1 + (if 0 <? T then R * lag_of tp / T else 0)) <$> ps).
    set (rem := if 0 <? T then sat_subu budget (sumZ shares) else R).
    assert (Forall (fun tp => 0 <= lag_of tp) ps) as Hl.
    { apply Forall_forall. intros tp _. unfold lag_of. destruct (lag !! tp) eqn:E; cbn; [by eapply Hlag|lia]. }
    assert (sumZ shares + rem = budget /\ 0 <= rem) as [Hsum Hrem].
    { unfold rem, shares. destruct (Z.ltb_spec 0 T) as [HT|HT].
      - pose proof (shares_bound ps lag_of budget Hl Hge HT) as Hs. cbv zeta in Hs. fold T in Hs. unfold sat_subu, R, n in *. lia.
      - rewrite (sumZ_const (1 + 0) ps). unfold R, n in *. lia. }
    assert (Forall (fun s => 1 <= s) shares) as Hsh.
    { unfold shares. apply Forall_fmap, Forall_forall. intros tp Htp. cbn. destruct (Z.ltb_spec 0 T); [|lia].
      rewrite Forall_forall in Hl. pose proof (Z.div_pos (R * lag_of tp) T ltac:(specialize (Hl tp Htp); unfold R; nia) ltac:(lia)). lia. }
    assert (length shares = length ps) as Hlen by apply length_fmap.
    pose proof (Z.mod_pos_bound rem (Z.of_nat n) ltac:(lia)) as Hex. pose proof (Z.div_mod rem (Z.of_nat n) ltac:(lia)) as Hdm.
    pose proof (Z.div_pos rem (Z.of_nat n) Hrem ltac:(lia)) as Heach.
    split_and!; [by apply (fst_imap_zip (fun i s => s + (rem / Z.of_nat n + if rotated n start i <? rem mod Z.of_nat n then 1 else 0)))| | |lia].
    + rewrite fmap_imap.
      transitivity (sumZ (imap (fun i p => snd p + (rem / Z.of_nat n + if rotated n start i <? rem mod Z.of_nat n then 1 else 0)) (zip ps shares))).
      { f_equal. apply imap_ext. by intros i [tp s] _. }
      rewrite (sumZ_imap_add snd (fun i => rem / Z.of_nat n + if rotated n start i <? rem mod Z.of_nat n then 1 else 0)).
      rewrite snd_zip by lia. rewrite length_zip, Hlen, Nat.min_id. fold n.
      rewrite (sumZ_add_fmap (fun _ => rem / Z.of_nat n)), sumZ_const, length_seq, rotated_count by lia. lia.
    + intros _. apply Forall_imap. intros i [tp s] Hin.
      change (1 <= s + (rem / Z.of_nat n + if rotated n start i <? rem mod Z.of_nat n then 1 else 0)).
      apply elem_of_zip_r in Hin. rewrite Forall_forall in Hsh. specialize (Hsh s Hin). cbn beta in Hsh.
      clearbody rem. destruct (rotated n start i <? rem mod Z.of_nat n); lia.
Qed.

(** C29. [maxOffsetsPerTrigger] is spent exactly: the partitions' slices add up to
    it, every partition gets at least one record when there are enough, and
    otherwise none gets more than one. *)
Theorem budgets_exact budget rr ps lag :
  ps <> [] -> 0 <= budget -> 0 <= rr -> (forall tp n, lag !! tp = Some n -> 0 <= n) ->
  let bs := partition_budgets (Some budget) rr ps lag in
  fst <$> bs = ps /\ sumZ (snd <$> bs) = budget /\
  (Z.of_nat (length ps) <= budget -> Forall (fun p => 1 <= snd p) bs) /\
  (budget < Z.of_nat (length ps) -> Forall (fun p => snd p = 0 \/ snd p = 1) bs).
Proof. exact (budgets_spec budget rr ps lag). Qed.

(** No partition starves: even when the budget covers fewer records than
    there are partitions, every partition is served within as many consecutive
    batches as there are partitions. *)
Theorem budgets_rotate budget rr ps lag i :
  1 <= budget -> 0 <= rr -> (i < length ps)%nat -> (forall tp n, lag !! tp = Some n -> 0 <= n) ->
  exists k, (k < length ps)%nat /\
    match partition_budgets (Some budget) (rr + Z.of_nat k) ps lag !! i with Some p => 1 <= snd p | None => False end.
Proof.
  intros Hb Hrr Hi Hlag. set (n := length ps).
  set (k := (Z.of_nat i - rr) mod Z.of_nat n).
  pose proof (Z.mod_pos_bound (Z.of_nat i - rr) (Z.of_nat n) ltac:(lia)) as Hk. fold k in Hk.
  exists (Z.to_nat k). split; [lia|]. rewrite Z2Nat.id by lia.
  assert (ps <> []) as Hps by (intros ->; cbn in Hi; lia).
  destruct (budgets_spec budget (rr + k) ps lag Hps ltac:(lia) ltac:(lia) Hlag) as (Hfst & _ & Hge & _).
  destruct (Z.le_gt_cases (Z.of_nat n) budget) as [Hle|Hgt].
  - specialize (Hge Hle). destruct (partition_budgets (Some budget) (rr + k) ps lag !! i) as [p|] eqn:E.
    + rewrite Forall_forall in Hge. apply Hge. by apply list_elem_of_lookup_2 in E.
    + apply lookup_ge_None in E. rewrite <-(length_fmap fst), Hfst in E. lia.
  - unfold partition_budgets. fold n. destruct (Nat.eqb_spec n 0); [lia|]. destruct (Z.ltb_spec budget (Z.of_nat n)); [|lia].
    rewrite list_lookup_imap. destruct (lookup_lt_is_Some_2 ps i Hi) as [tp ->]. cbn.
    assert ((rr + k) mod Z.of_nat n = Z.of_nat i) as ->.
    { unfold k. rewrite Zplus_mod_idemp_r. replace (rr + (Z.of_nat i - rr)) with (Z.of_nat i) by lia. apply Z.mod_small. lia. }
    unfold rotated. replace (Z.of_nat i + Z.of_nat n - Z.of_nat i) with (1 * Z.of_nat n) by lia. rewrite Z.mod_mul by lia.
    destruct (Z.ltb_spec 0 budget); lia.
Qed.

(** *** Reading a slice *)

Section Fetch.
Context (b : Broker) (tp : TopicPartition) (log : list Fetched).

(** The log of a partition has strictly increasing offsets. *)
Definition log_ok : Prop := StronglySorted (fun a c => f_offset a < f_offset c) log.

(** A fetch at [next] answers with the first records from [next] on, with at
    least one if there is any: what the fetch request asks for (a minimum of
    one byte) when the offset is in range. *)
Definition fetch_ok : Prop := forall i next, exists l, fetch b i tp next = Ok l /\
  l `prefix_of` filter (fun r => next <= f_offset r) log /\ (l = [] -> filter (fun r => next <= f_offset r) log = []).

Definition slice (from e : Z) : list Fetched := filter (fun r => from <= f_offset r < e) log.

Definition to_record (r : Fetched) : KafkaRecord :=
  {| kr_key := f_key r; kr_value := f_value r; kr_topic := topic tp; kr_partition := partition tp;
     kr_offset := f_offset r; kr_timestamp_ms := f_timestamp r |}.

Definition next_after (next : Z) (l : list Fetched) : Z :=
  match last l with Some r => wraps 64 (f_offset r + 1) | None => next end.

Fixpoint before (e : Z) (l : list Fetched) : list Fetched :=
  match l with
  | [] => []
  | r :: l => if e <=? f_offset r then [] else r :: before e l
  end.

Lemma take_fetched_eq e l next : take_fetched tp e l next = (to_record <$> before e l, next_after next (before e l)).
Proof.
  revert next. induction l as [|r l IH]; intros next; [done|]. cbn [take_fetched before].
  destruct (e <=? f_offset r); [done|]. rewrite IH. f_equal. unfold next_after. rewrite last_cons.
  by destruct (last (before e l)).
Qed.

Lemma before_sorted e l : StronglySorted (fun a c => f_offset a < f_offset c) l -> before e l = filter (fun r => f_offset r < e) l.
Proof.
  induction 1 as [|r l Hs IH Hr]; [done|]. cbn [before]. rewrite filter_cons. destruct (Z.leb_spec e (f_offset r)).
  - rewrite decide_False by lia. symmetry. clear IH. induction Hr as [|x l Hx Hl IHl]; [done|]. apply StronglySorted_inv in Hs as [Hs _].
    rewrite filter_cons_False by lia. by apply IHl.
  - rewrite decide_True by lia. by rewrite IH.
Qed.

Lemma slice_filter from e : slice from e = filter (fun r => f_offset r < e) (filter (fun r => from <= f_offset r) log).
Proof. unfold slice. rewrite list_filter_filter. apply filter_ext_elem. intros r _. lia. Qed.

Lemma sorted_filter (P : Fetched -> Prop) `{!forall x, Decision (P x)} l :
  StronglySorted (fun a c => f_offset a < f_offset c) l -> StronglySorted (fun a c => f_offset a < f_offset c) (filter P l).
Proof.
  induction 1 as [|r l Hs IH Hr]; [constructor|]. rewrite filter_cons. destruct (decide (P r)); [|done]. constructor; [done|].
  apply Forall_forall. intros x [_ Hx]%list_elem_of_filter. rewrite Forall_forall in Hr. by apply Hr.
Qed.

(** What one round takes is the beginning of the slice, the next offset is where
    the rest of it begins, and the round takes something if there is something. *)
Lemma round_splits from e l :
  log_ok -> from < e -> e <= i_max 64 -> i_min 64 <= from ->
  l `prefix_of` filter (fun r => from <= f_offset r) log -> (l = [] -> filter (fun r => from <= f_offset r) log = []) ->
  slice from e = before e l ++ slice (next_after from (before e l)) e /\
  (slice from e <> [] -> before e l <> []) /\ from <= next_after from (before e l) <= e.
Proof.
  intros Hlog Hlt He Hmin [rest Hl] Hne. pose proof (sorted_filter (fun r => from <= f_offset r) log Hlog) as HS.
  rewrite Hl in HS. apply StronglySorted_app in HS as (Hcross & HSl & HSr).
  assert (slice from e = before e l ++ filter (fun r => f_offset r < e) rest) as Hsl.
  { rewrite slice_filter, Hl, filter_app. by rewrite before_sorted. }
  assert (Forall (fun r => from <= f_offset r < e) (before e l)) as Hb.
  { rewrite before_sorted by done. apply Forall_forall. intros r [Hr Hin]%list_elem_of_filter. split; [|done].
    assert (r ∈ filter (fun r => from <= f_offset r) log) as Hin' by (rewrite Hl; apply elem_of_app; by left).
    by apply list_elem_of_filter in Hin' as [? _]. }
  assert (slice from e <> [] -> before e l <> []) as Hprog.
  { intros Hs Hbe. destruct l as [|r l].
    - apply Hs. rewrite slice_filter, Hne by done. done.
    - cbn in Hbe. destruct (Z.leb_spec e (f_offset r)); [|done]. apply Hs. rewrite Hsl. cbn.
      destruct (Z.leb_spec e (f_offset r)); [|lia]. cbn. apply filter_none. intros x Hx Hin.
      specialize (Hcross r x ltac:(left) Hin). lia. }
  unfold next_after. destruct (last (before e l)) as [r|] eqn:Er.
  - assert (r ∈ before e l) as Hr by (by apply last_Some_elem_of).
    assert (from <= f_offset r < e) as Hrb by (rewrite Forall_forall in Hb; by apply Hb).
    rewrite wraps_small by (unfold i_ok, i_min, i_max in *; lia). split_and!; [|done|lia|lia].
    rewrite Hsl at 1. f_equal. apply last_Some in Er as [pre Epre].
    assert (slice (f_offset r + 1) e = filter (fun x => f_offset r + 1 <= f_offset x) (slice from e)) as ->.
    { unfold slice. rewrite list_filter_filter. apply filter_ext_elem. intros x _. lia. }
    rewrite Hsl, filter_app.
    assert (StronglySorted (fun a c => f_offset a < f_offset c) (before e l)) as HSb by (rewrite before_sorted by done; by apply sorted_filter).
    rewrite (filter_none _ (before e l)), app_nil_l.
    + rewrite list_filter_filter. apply filter_ext_elem. intros x Hx. split; [|tauto]. intros Hxe.
      assert (r ∈ l) as Hrl.
      { rewrite before_sorted in Hr by done. by apply list_elem_of_filter in Hr as [_ ?]. }
      specialize (Hcross r x Hrl Hx). lia.
    + intros x Hx Hin. rewrite Epre in Hin, HSb. apply StronglySorted_app in HSb as (Hc & _ & _).
      apply elem_of_app in Hin as [Hin|Hin]; [specialize (Hc x r Hin ltac:(left)); lia|apply list_elem_of_singleton in Hin as ->; lia].
  - apply last_None in Er. rewrite Er in *. split_and!; [done|done|lia|lia].
Qed.

Lemma fetch_loop_spec e n from :
  log_ok -> fetch_ok -> e <= i_max 64 -> i_min 64 <= from ->
  exists k, (Nat.min n (length (slice from e)) <= k)%nat /\
    fetch_loop b tp e n from = Ok (to_record <$> take k (slice from e)).
Proof.
  intros Hlog Hfetch He. revert from. induction n as [|n IH]; intros from Hmin; [exists 0%nat; split; [lia|done]|].
  cbn [fetch_loop]. destruct (Z.ltb_spec from e) as [Hlt|Hge]; cbn [negb].
  - destruct (Hfetch (MAX_FETCH_ROUNDS - S n)%nat from) as (l & -> & Hp & Hne).
    destruct (round_splits from e l Hlog Hlt He Hmin Hp Hne) as (Hsl & Hprog & Hnx).
    destruct l as [|r l]; [exists 0%nat; rewrite slice_filter, (Hne eq_refl); split; [cbn; lia|done]|].
    rewrite take_fetched_eq. set (bs := before e (r :: l)) in *.
    destruct (IH (next_after from bs) ltac:(lia)) as (k & Hk & ->). exists (length bs + k)%nat. cbn [rbind]. split.
    + rewrite Hsl, length_app. destruct bs as [|x bs]; [|cbn [length]; lia].
      destruct (slice (next_after from []) e) eqn:E; [cbn; lia|]. exfalso. apply Hprog; [|done]. by rewrite Hsl.
    + rewrite Hsl. rewrite take_app_add. by rewrite fmap_app.
  - exists 0%nat. assert (slice from e = []) as ->; [|split; [cbn; lia|done]].
    apply filter_none. intros r Hr _. lia.
Qed.

(** A partition's slice of a batch is read exactly, in offset order, as long
    as it holds at most as many records as there are fetch rounds; of a longer
    slice a beginning of at least that many records is read. *)
Theorem fetch_reads_slice from e :
  log_ok -> fetch_ok -> e <= i_max 64 -> i_min 64 <= from ->
  exists k, (Nat.min MAX_FETCH_ROUNDS (length (slice from e)) <= k)%nat /\
    fetch_loop b tp e MAX_FETCH_ROUNDS from = Ok (to_record <$> take k (slice from e)).
Proof. apply fetch_loop_spec. Qed.

End Fetch.

(** *** Planning a batch *)

Section Plan.
Context (s : KafkaSource) (ends : gmap TopicPartition Z) (budgets : list (TopicPartition * Z)).

(** The records a range asks of a partition. *)
Definition planned (r : BatchRange) (tp : TopicPartition) : Z :=
  default 0 (br_end r !! tp_show tp) - default 0 (br_start r !! tp_show tp).

Lemma plan_fold ps r0 tp :
  Forall tp_ok ps -> tp_ok tp -> NoDup ps ->
  let r := foldl (add_to_range s ends budgets) r0 ps in
  let e := batch_end s ends budgets tp in
  (br_start r !! tp_show tp, br_end r !! tp_show tp) =
    if bool_decide (tp ∈ ps) && (position s tp <? e) then (Some (position s tp), Some e)
    else (br_start r0 !! tp_show tp, br_end r0 !! tp_show tp).
Proof.
  intros Hps Htp. revert r0. induction ps as [|x ps IH]; intros r0 Hnd; [done|]. apply Forall_cons in Hps as [Hx Hps].
  apply NoDup_cons in Hnd as [Hnew Hnd]. cbn [foldl]. cbv zeta. rewrite (IH Hps (add_to_range s ends budgets r0 x) Hnd).
  destruct (decide (tp = x)) as [->|Hne].
  - rewrite (bool_decide_false (x ∈ ps)) by done. rewrite (bool_decide_true (x ∈ x :: ps)) by left. cbn [andb].
    unfold add_to_range. destruct (Z.leb_spec (batch_end s ends budgets x) (position s x)), (Z.ltb_spec (position s x) (batch_end s ends budgets x));
      try lia; [done|]. cbn. by rewrite !lookup_insert_eq.
  - assert (bool_decide (tp ∈ x :: ps) = bool_decide (tp ∈ ps)) as ->.
    { apply bool_decide_ext. rewrite elem_of_cons. naive_solver. }
    assert (tp_show x <> tp_show tp) by (intros E; apply tp_show_inj in E; [congruence|done|done]).
    unfold add_to_range. destruct (_ <=? _); [done|]. cbn. by rewrite !lookup_insert_ne.
Qed.

Lemma budget_of_nth i tp n :
  NoDup (fst <$> budgets) -> budgets !! i = Some (tp, n) -> budget_of budgets tp = n.
Proof.
  unfold budget_of. revert i. induction budgets as [|[t m] l IH]; intros i Hnd Hi; [done|]. apply NoDup_cons in Hnd as [Hnew Hnd].
  cbn [List.find fst]. destruct (bool_decide_reflect (t = tp)) as [->|Hne].
  - destruct i as [|i]; cbn in Hi; [by simplify_eq|]. exfalso. apply Hnew. apply list_elem_of_fmap. exists (tp, n). split; [done|].
    by apply list_elem_of_lookup_2 in Hi.
  - destruct i as [|i]; cbn in Hi; [by simplify_eq|]. by apply (IH i).
Qed.

Lemma budget_of_fmap : NoDup (fst <$> budgets) -> budget_of budgets <$> (fst <$> budgets) = snd <$> budgets.
Proof.
  intros Hnd. rewrite <-list_fmap_compose. apply list_fmap_ext. intros i [tp n] Hi. by eapply budget_of_nth.
Qed.

End Plan.

Lemma sumZ_fmap_le {A} (f g : A -> Z) l : (forall x, x ∈ l -> f x <= g x) -> sumZ (f <$> l) <= sumZ (g <$> l).
Proof.
  induction l as [|x l IH]; intros Hle; [done|]. rewrite !fmap_cons. change (sumZ (?a :: ?k)) with (a + sumZ k).
  pose proof (Hle x ltac:(left)). pose proof (IH (fun y Hy => Hle y ltac:(by right))). lia.
Qed.

(** A planned batch asks for at most [maxOffsetsPerTrigger] records in all;
    on each partition it begins at the source's position and ends no later than
    the partition's log did when it was planned. *)
Theorem plan_within_limits s ends budget :
  let ps := partition_clients s in
  Forall tp_ok ps -> NoDup ps -> ps <> [] -> 0 <= budget -> 0 <= round_robin s ->
  (forall tp, i_ok 64 (position s tp)) ->
  let r := foldl (add_to_range s ends (partition_budgets (Some budget) (round_robin s) ps (lags s ends ps))) kafka_range ps in
  sumZ (planned r <$> ps) <= budget /\
  forall tp e, tp ∈ ps -> br_end r !! tp_show tp = Some e ->
    br_start r !! tp_show tp = Some (position s tp) /\ position s tp < e /\ e <= default (position s tp) (ends !! tp).
Proof.
  intros ps Hok Hnd Hne Hb Hrr Hpos. set (bs := partition_budgets _ _ _ _). intros r.
  assert (forall tp n, lags s ends ps !! tp = Some n -> 0 <= n) as Hlag.
  { intros tp n Hn. unfold lags in Hn. apply elem_of_list_to_map_2 in Hn. apply list_elem_of_fmap in Hn as (x & [= -> ->] & _).
    unfold lag_of. lia. }
  destruct (budgets_spec budget (round_robin s) ps (lags s ends ps) Hne Hb Hrr Hlag) as (Hfst & Hsum & Hge & Hlt). fold bs in Hfst, Hsum, Hge, Hlt.
  assert (forall tp, tp ∈ ps -> 0 <= budget_of bs tp) as Hnn.
  { intros tp Htp. rewrite <-Hfst in Htp. apply list_elem_of_fmap in Htp as ([t n] & -> & Hin).
    cbn [fst]. pose proof Hin as Hin'. apply list_elem_of_lookup in Hin as [i Hi]. rewrite (budget_of_nth bs i t n) by (try done; by rewrite Hfst).
    destruct (Z.le_gt_cases (Z.of_nat (length ps)) budget) as [Hc|Hc].
    - specialize (Hge Hc). rewrite Forall_forall in Hge. specialize (Hge _ Hin'). cbn in Hge. lia.
    - specialize (Hlt ltac:(lia)). rewrite Forall_forall in Hlt. specialize (Hlt _ Hin'). cbn in Hlt. lia. }
  assert (forall tp, tp ∈ ps -> (br_start r !! tp_show tp, br_end r !! tp_show tp) =
    if position s tp <? batch_end s ends bs tp then (Some (position s tp), Some (batch_end s ends bs tp)) else (None, None)) as Hr.
  { intros tp Htp. unfold r. rewrite plan_fold; [|done|by rewrite Forall_forall in Hok; apply Hok|done].
    rewrite bool_decide_true by done. cbn [andb]. by destruct (_ <? _). }
  split.
  - rewrite <-Hsum, <-(budget_of_fmap bs) by (by rewrite Hfst). rewrite Hfst. apply sumZ_fmap_le. intros tp Htp.
    specialize (Hr tp Htp). specialize (Hnn tp Htp). unfold planned.
    destruct (Z.ltb_spec (position s tp) (batch_end s ends bs tp)) as [Hlt'|]; injection Hr as -> ->;
      [change (batch_end s ends bs tp - position s tp <= budget_of bs tp)|change (0 - 0 <= budget_of bs tp); lia].
    unfold batch_end in *. specialize (Hpos tp). unfold sat_i, clampi, i_ok in *.
    assert (i_min 64 <= i_max 64) by (by vm_compute). lia.
  - intros tp e Htp He. specialize (Hr tp Htp).
    destruct (Z.ltb_spec (position s tp) (batch_end s ends bs tp)) as [Hlt'|]; injection Hr as E1 E2; rewrite E2 in He; [|done].
    injection He as <-. split_and!; [done|done|]. unfold batch_end. lia.
Qed.

(** *** Assignment *)

(** The assigned partitions are distinct and each has a position. *)
Definition assignment_ok (s : KafkaSource) : Prop :=
  NoDup (partition_clients s) /\ forall tp, tp ∈ partition_clients s -> is_Some (offsets s !! tp).

(** What an assignment may change: it adds partitions and positions. *)
Definition grows (s s' : KafkaSource) : Prop :=
  (forall tp n, offsets s !! tp = Some n -> offsets s' !! tp = Some n) /\
  (forall tp, tp ∈ partition_clients s -> tp ∈ partition_clients s') /\ options s' = options s.

Lemma grows_trans s1 s2 s3 : grows s1 s2 -> grows s2 s3 -> grows s1 s3.
Proof. intros (A1 & B1 & C1) (A2 & B2 & C2). split_and!; [by eauto|by eauto|by rewrite C2]. Qed.
Lemma grows_refl s : grows s s.
Proof. done. Qed.

Lemma elem_of_insert_key tp l x : x ∈ insert_key tp l <-> x = tp \/ x ∈ l.
Proof.
  induction l as [|y l IH]; cbn; [set_solver|]. destruct (bool_decide_reflect (tp = y)) as [->|]; [set_solver|].
  destruct (tp_ltb tp y); rewrite ?elem_of_cons, ?IH; set_solver.
Qed.

Lemma NoDup_insert_key tp l : tp ∉ l -> NoDup l -> NoDup (insert_key tp l).
Proof.
  induction l as [|y l IH]; intros Hn Hnd; cbn; [apply NoDup_singleton|].
  apply not_elem_of_cons in Hn as [Hne Hn]. pose proof Hnd as Hnd'. apply NoDup_cons in Hnd as [Hy Hnd].
  rewrite bool_decide_false by done. destruct (tp_ltb tp y); constructor; [|done| |by apply IH].
  - rewrite not_elem_of_cons. done.
  - rewrite elem_of_insert_key. intros [->|?]; done.
Qed.

Lemma assign_partition_ok b first s tp r s' :
  assign_partition b first s tp = (r, s') -> assignment_ok s -> assignment_ok s' /\ grows s s' /\
  (is_ok r = true -> tp ∈ partition_clients s').
Proof.
  unfold assign_partition. intros E I. destruct (bool_decide_reflect (tp ∈ partition_clients s)) as [Hin|Hnew].
  { injection E as <- <-. done. }
  destruct (partition_client b tp) as [u|e]; [|injection E as <- <-; done].
  destruct I as [Hnd Hsome]. destruct (offsets s !! tp) as [n|] eqn:Eo.
  - injection E as <- <-. split; [split; cbn|split; [split_and!; cbn; try done|]].
    + by apply NoDup_insert_key.
    + intros x [->|Hx]%elem_of_insert_key; [by rewrite Eo|by apply Hsome].
    + intros x Hx. apply elem_of_insert_key. by right.
    + intros _. cbn. apply elem_of_insert_key. by left.
  - destruct (resolve_start_offset b (options s) tp first) as [start|e]; injection E as <- <-; [|done].
    split; [split; cbn|split; [split_and!; cbn; try done|]].
    + by apply NoDup_insert_key.
    + intros x [->|Hx]%elem_of_insert_key; [by rewrite lookup_insert_eq|].
      rewrite lookup_insert_ne by (intros ->; done). by apply Hsome.
    + intros x n Hx. rewrite lookup_insert_ne by congruence. done.
    + intros x Hx. apply elem_of_insert_key. by right.
    + intros _. cbn. apply elem_of_insert_key. by left.
Qed.

Lemma assign_partitions_ok b first tps s r s' :
  assign_partitions b first s tps = (r, s') -> assignment_ok s -> assignment_ok s' /\ grows s s' /\
  (is_ok r = true -> forall tp, tp ∈ tps -> tp ∈ partition_clients s').
Proof.
  revert s. induction tps as [|tp tps IH]; intros s; cbn [assign_partitions].
  { intros [= <- <-] I. split; [done|]. split; [done|]. by intros _ tp ?%elem_of_nil. }
  destruct (assign_partition b first s tp) as [[u|e] s1] eqn:E1; intros E I;
    destruct (assign_partition_ok _ _ _ _ _ _ E1 I) as (I1 & G1 & H1).
  - destruct (IH s1 E I1) as (I2 & G2 & H2). split; [done|]. split; [by eapply grows_trans|].
    intros Hr x [->|Hx]%elem_of_cons; [|by apply H2]. destruct G2 as (_ & G2 & _). apply G2. by apply H1.
  - injection E as <- <-. done.
Qed.

Lemma assign_topics_ok b first want s found r s' :
  assign_topics b first s found want = (r, s') -> assignment_ok s -> assignment_ok s' /\ grows s s' /\
  (is_ok r = true -> forall w t ps p, w ∈ want -> List.find (fun x => bool_decide (fst x = w)) found = Some (t, ps) -> p ∈ ps ->
     {| topic := w; partition := p |} ∈ partition_clients s').
Proof.
  revert s. induction want as [|w want IH]; intros s; cbn [assign_topics].
  { intros [= <- <-] I. split; [done|]. split; [done|]. by intros _ w t ps p ?%elem_of_nil. }
  destruct (List.find (fun t => bool_decide (fst t = w)) found) as [[t ps]|] eqn:Ef; [|by intros [= <- <-] I].
  destruct (assign_partitions b first s _) as [[u|e] s1] eqn:E1; intros E I;
    destruct (assign_partitions_ok _ _ _ _ _ _ E1 I) as (I1 & G1 & H1).
  - destruct (IH s1 E I1) as (I2 & G2 & H2). split; [done|]. split; [by eapply grows_trans|].
    intros Hr w' t' ps' p [->|Hw]%elem_of_cons Hf Hp; [|by eapply H2].
    destruct G2 as (_ & G2 & _). apply G2, H1; [done|]. assert (ps' = ps) as -> by congruence.
    apply list_elem_of_fmap. by exists p.
  - injection E as <- <-. done.
Qed.


(** *** Checkpoints *)

Definition shown (k : list (TopicPartition * Z)) : list (str * Z) := (fun p => (tp_show (fst p), snd p)) <$> k.

Lemma move_to_ends_lookup k o tp : Forall tp_ok (fst <$> k) -> NoDup (fst <$> k) ->
  move_to_ends o (shown k) !! tp = match (list_to_map k : gmap TopicPartition Z) !! tp with Some n => Some n | None => o !! tp end.
Proof.
  revert o. induction k as [|[x n] k IH]; intros o Hok Hnd; [done|]. apply Forall_cons in Hok as [Hx Hok].
  apply NoDup_cons in Hnd as [Hnew Hnd]. unfold move_to_ends, shown. rewrite fmap_cons. cbn [foldl fst snd].
  rewrite parse_tp_show by done. change (foldl _ (<[x := n]> o) _) with (move_to_ends (<[x := n]> o) (shown k)).
  rewrite IH by done. cbn [list_to_map foldr]. destruct (decide (tp = x)) as [->|Hne].
  - rewrite !lookup_insert_eq. by rewrite not_elem_of_list_to_map_1.
  - by rewrite !lookup_insert_ne.
Qed.

Lemma shown_perm l k : l ≡ₚ shown k -> exists k', l = shown k' /\ k' ≡ₚ k.
Proof. intros Hp. apply Permutation_map_inv in Hp as (k' & -> & Hk). by exists k'. Qed.

(** A restart resumes where the checkpoint says: a fresh source that restores
    the offsets a source committed has exactly its positions. *)
Theorem checkpoint_roundtrip s o :
  spool_mode s = false -> (forall tp n, offsets s !! tp = Some n -> tp_ok tp) -> committed_offsets s = Some o ->
  offsets (restore_offsets (kafka_new (options s)) o) = offsets s.
Proof.
  unfold committed_offsets. intros -> Hok [= <-]. unfold restore_offsets. cbn [so_source].
  rewrite bool_decide_false by (vm_compute; discriminate). rewrite bool_decide_true by done. cbn [negb with_offsets offsets so_entries kafka_new].
  set (k := map_to_list (offsets s)).
  assert (NoDup (fst <$> k)) as Hnd by apply NoDup_fst_map_to_list.
  assert (Forall tp_ok (fst <$> k)) as Hk.
  { apply Forall_fmap, Forall_forall. intros [tp n] Hin%elem_of_map_to_list. by eapply Hok. }
  assert (entries (kmap tp_show (offsets s)) ≡ₚ shown k) as Hp.
  { unfold entries, kmap. rewrite merge_sort_Permutation, map_to_list_to_map; [done|].
    fold k. assert (fst <$> (prod_map tp_show id <$> k) = tp_show <$> (fst <$> k)) as -> by (rewrite <-!list_fmap_compose; done).
    apply NoDup_fmap_2_strong; [|done]. rewrite Forall_forall in Hk. intros x y Hx Hy. apply tp_show_inj; by apply Hk. }
  apply shown_perm in Hp as (k' & -> & Hk'). apply map_eq. intros tp.
  rewrite move_to_ends_lookup; [|by rewrite Hk'|by rewrite Hk'].
  rewrite (list_to_map_proper k' k); [|by rewrite Hk'|done]. unfold k. rewrite list_to_map_to_list, lookup_empty.
  by destruct (offsets s !! tp).
Qed.

(** A topic-partition survives its name in a range or a checkpoint, whatever
    dashes the topic's own name has. *)
Theorem topic_partition_roundtrip tp : tp_ok tp -> parse_topic_partition (tp_show tp) = Some tp.
Proof. exact (parse_tp_show tp). Qed.

(** ** Concrete runs *)
Module KafkaRuns.

Definition opts (limit : option Z) (start : StartingOffsets) : KafkaOptions := {|
  brokers := [lit "b:9092"]; topics := [lit "t"]; starting_offsets := start; max_offsets_per_trigger := limit;
  fetch_max_wait_ms := 500; max_partition_fetch_bytes := 1048576; metadata_max_age := 30000; spool_dir := None |}.

Definition t0 : TopicPartition := {| topic := lit "t"; partition := 0 |}.
Definition t1 : TopicPartition := {| topic := lit "t"; partition := 1 |}.

Definition rec (i : Z) : Fetched := {| f_offset := i; f_key := None; f_value := Some [i]; f_timestamp := 0 |}.

(** A broker whose partitions hold the records [0 .. size), of which one fits
    into a fetch. *)
Definition broker (parts : list Z) (size : Z) : Broker := {|
  now := 0; connect := Ok tt; list_topics := Ok [(lit "t", parts)]; partition_client := fun _ => Ok tt;
  earliest := fun _ => Ok 0; latest := fun _ => Ok size;
  fetch := fun _ _ next => Ok (if next <? size then [rec next] else []);
  spool_file := fun _ => None; spool_mkdir := Ok tt |}.

(** The first batch of a stream that starts at the beginning of a partition of
    513 records. *)
Definition first_batch : option (BatchRange * (result Error (list KafkaRecord) * KafkaSource)) :=
  match plan_batch (broker [0] 513) (kafka_new (opts None Earliest)) with
  | (Ok r, s) => Some (r, poll_range (broker [0] 513) s r)
  | _ => None
  end.

(** A slice that takes more fetch rounds than the limit is cut short without
    an error, and the position still moves to its end: the batch here covers
    the offsets 0 to 512, reads 512 records and goes on behind the last one,
    which no batch will read. *)
Theorem fetch_rounds_lose_records :
  match first_batch with
  | Some (r, (Ok records, s)) =>
      br_end r !! tp_show t0 = Some 513 /\ map kr_offset records = range 0 512 /\ position s t0 = 513
  | _ => False
  end.
Proof. vm_compute. repeat split. Qed.

(** A query restarted from a checkpoint that knows partition 0 only, after
    partition 1 was added while it was down. *)
Definition restarted : KafkaSource :=
  restore_offsets (kafka_new (opts None Latest)) {| so_source := lit "kafka"; so_entries := {[ tp_show t0 := 5 ]} |}.

(** A partition that appears while the query runs is read from its beginning;
    one that appeared while the query was down is started by
    [startingOffsets], so with [latest] the records it already holds are
    skipped. *)
Theorem restart_skips_new_partition :
  position (assign (broker [0; 1] 7) restarted).2 t0 = 5 /\
  position (assign (broker [0; 1] 7) restarted).2 t1 = 7 /\
  let running := with_assigned (assign (broker [0] 7) restarted).2 (-30000) in
  position (assign (broker [0; 1] 7) running).2 t1 = 0.
Proof. vm_compute. repeat split. Qed.

Lemma budgets_exact_witness :
  let bs := partition_budgets (Some 10) 1 [t0; t1] {[ t0 := 100; t1 := 1 ]} in
  fst <$> bs = [t0; t1] /\ sumZ (snd <$> bs) = 10 /\
  (2 <= 10 -> Forall (fun p => 1 <= snd p) bs) /\ (10 < 2 -> Forall (fun p => snd p = 0 \/ snd p = 1) bs).
Proof.
  refine (budgets_exact 10 1 [t0; t1] {[ t0 := 100; t1 := 1 ]} _ _ _ _); [discriminate|lia|lia|].
  intros tp n Hn. apply lookup_insert_Some in Hn as [[_ <-]|[_ Hn]]; [lia|]. apply lookup_singleton_Some in Hn as [_ <-]. lia.
Defined.

Lemma budgets_rotate_witness :
  exists k, (k < 2)%nat /\
    match partition_budgets (Some 1) (4 + Z.of_nat k) [t0; t1] ∅ !! 1%nat with Some p => 1 <= snd p | None => False end.
Proof.
  refine (budgets_rotate 1 4 [t0; t1] ∅ 1 _ _ _ _); [lia|lia|cbn; lia|]. intros tp n Hn. by rewrite lookup_empty in Hn.
Defined.

(** A broker that answers each fetch with the next two records of a log. *)
Definition log3 : list Fetched := [rec 0; rec 1; rec 2].
Definition honest : Broker := {|
  now := 0; connect := Ok tt; list_topics := Ok [(lit "t", [0])]; partition_client := fun _ => Ok tt;
  earliest := fun _ => Ok 0; latest := fun _ => Ok 3;
  fetch := fun _ _ next => Ok (take 2 (filter (fun r => next <= f_offset r) log3));
  spool_file := fun _ => None; spool_mkdir := Ok tt |}.

Lemma fetch_reads_slice_witness :
  exists k, (Nat.min MAX_FETCH_ROUNDS (length (slice log3 1 3)) <= k)%nat /\
    fetch_loop honest t0 3 MAX_FETCH_ROUNDS 1 = Ok (to_record t0 <$> take k (slice log3 1 3)).
Proof.
  refine (fetch_reads_slice honest t0 log3 1 3 _ _ _ _).
  - unfold log_ok. repeat (constructor; [|repeat constructor; cbn; lia]). constructor.
  - intros i next. eexists. split; [reflexivity|]. split; [apply prefix_take|].
    by destruct (filter (fun r => next <= f_offset r) log3).
  - vm_compute. discriminate.
  - vm_compute. discriminate.
Defined.

Definition two_parts : KafkaSource := (assign (broker [0; 1] 7) (kafka_new (opts (Some 5) Earliest))).2.

Lemma two_parts_positions tp : i_ok 64 (position two_parts tp).
Proof.
  unfold position. assert (offsets two_parts = <[t0 := 0]> {[ t1 := 0 ]}) as -> by (vm_compute; reflexivity).
  assert (i_ok 64 0) by (split; vm_compute; congruence).
  destruct (decide (tp = t0)) as [->|]; [by rewrite lookup_insert_eq|]. rewrite lookup_insert_ne by done.
  destruct (decide (tp = t1)) as [->|]; [by rewrite lookup_singleton_eq|by rewrite lookup_singleton_ne].
Qed.

Definition ends7 : gmap TopicPartition Z := {[ t0 := 7; t1 := 7 ]}.

Lemma plan_within_limits_witness :
  let ps := partition_clients two_parts in
  let r := foldl (add_to_range two_parts ends7 (partition_budgets (Some 5) (round_robin two_parts) ps (lags two_parts ends7 ps)))
    kafka_range ps in
  sumZ (planned r <$> ps) <= 5 /\
  forall tp e, tp ∈ ps -> br_end r !! tp_show tp = Some e ->
    br_start r !! tp_show tp = Some (position two_parts tp) /\ position two_parts tp < e /\
    e <= default (position two_parts tp) (ends7 !! tp).
Proof.
  refine (plan_within_limits two_parts ends7 5 _ _ _ _ _ _).
  - repeat constructor; vm_compute; congruence.
  - apply (bool_decide_unpack _). vm_compute. exact I.
  - vm_compute. discriminate.
  - lia.
  - vm_compute. discriminate.
  - exact two_parts_positions.
Defined.


Lemma checkpoint_roundtrip_witness :
  offsets (restore_offsets (kafka_new (options restarted)) {| so_source := lit "kafka"; so_entries := kmap tp_show (offsets restarted) |})
  = offsets restarted.
Proof.
  refine (checkpoint_roundtrip restarted _ _ _ _); [vm_compute; reflexivity| |reflexivity].
  intros tp n. assert (offsets restarted = {[ t0 := 5 ]}) as -> by (vm_compute; reflexivity).
  intros [<- _]%lookup_singleton_Some. split; vm_compute; congruence.
Defined.

Lemma topic_partition_roundtrip_witness :
  parse_topic_partition (lit "a-b-12") = Some {| topic := lit "a-b"; partition := 12 |}.
Proof. refine (topic_partition_roundtrip {| topic := lit "a-b"; partition := 12 |} _). vm_compute. split; congruence. Defined.

End KafkaRuns.
