(* ===== verification/Checkpoint.v ===== *)
(** * Checkpoint: offsets, the offset log and the commit log (oxidant-streaming/src/checkpoint.rs)

    The objects under a checkpoint root, typed by what is serialized into
    them: [offsets.json], [offsets/<batch>] and [commits/<batch>].  An object
    store makes each [PUT] atomic, so a read sees a whole object or none. *)

From S2P Require Import Prelude Text Arrow Source Dedup.

(** [CheckpointState]. *)
Record CheckpointState := {
  cs_query_id : str;
  cs_run_id : str;
  cs_batch_id : Z;
  cs_source_offsets : option SourceOffsets;
  cs_committed_batch_id : Z;
  cs_watermark_micros : Z;
  cs_max_event_time_micros : option Z;
  cs_dedup_state : option DedupState;
  cs_pruned_through : Z;
}.

Definition default_state : CheckpointState := {|
  cs_query_id := []; cs_run_id := []; cs_batch_id := 0; cs_source_offsets := None;
  cs_committed_batch_id := 0; cs_watermark_micros := 0; cs_max_event_time_micros := None;
  cs_dedup_state := None; cs_pruned_through := 0 |}.

(** [BatchCommit]. *)
Record BatchCommit := {
  bc_batch_id : Z;
  bc_num_output_rows : Z;
  bc_resume_position : option SourceOffsets;
}.

(** [CheckpointStore]: what the store holds under the root. *)
Record CheckpointStore := {
  offsets_obj : option CheckpointState;
  planned_log : gmap Z BatchRange;
  commit_log : gmap Z BatchCommit;
}.

Definition empty_store : CheckpointStore :=
  {| offsets_obj := None; planned_log := ∅; commit_log := ∅ |}.

(** [StreamingQueryId]. *)
Record StreamingQueryId := { qid_id : str; qid_run_id : str }.

(** [CheckpointStore::load]: a missing object is a fresh query. *)
Definition load (st : CheckpointStore) : CheckpointState := default default_state (offsets_obj st).

(** [CheckpointStore::save]. *)
Definition save (s : CheckpointState) (st : CheckpointStore) : CheckpointStore :=
  {| offsets_obj := Some s; planned_log := planned_log st; commit_log := commit_log st |}.

(** The state [init_for_query] writes back: a new run over the same progress. *)
Definition stamp_run (id : StreamingQueryId) (s : CheckpointState) : CheckpointState := {|
  cs_query_id := match cs_query_id s with [] => qid_id id | q => q end;
  cs_run_id := qid_run_id id;
  cs_batch_id := cs_batch_id s;
  cs_source_offsets := cs_source_offsets s;
  cs_committed_batch_id := cs_committed_batch_id s;
  cs_watermark_micros := cs_watermark_micros s;
  cs_max_event_time_micros := cs_max_event_time_micros s;
  cs_dedup_state := cs_dedup_state s;
  cs_pruned_through := cs_pruned_through s |}.

(** [CheckpointStore::save_planned] / [load_planned]. *)
Definition save_planned (batch_id : Z) (r : BatchRange) (st : CheckpointStore) : CheckpointStore :=
  {| offsets_obj := offsets_obj st; planned_log := <[batch_id := r]> (planned_log st); commit_log := commit_log st |}.
Definition load_planned (batch_id : Z) (st : CheckpointStore) : option BatchRange := planned_log st !! batch_id.

(** [CheckpointStore::save_commit] / [load_commit] / [is_committed]. *)
Definition save_commit (c : BatchCommit) (st : CheckpointStore) : CheckpointStore :=
  {| offsets_obj := offsets_obj st; planned_log := planned_log st; commit_log := <[bc_batch_id c := c]> (commit_log st) |}.
Definition load_commit (batch_id : Z) (st : CheckpointStore) : option BatchCommit := commit_log st !! batch_id.
Definition is_committed (batch_id : Z) (st : CheckpointStore) : bool := bool_decide (is_Some (load_commit batch_id st)).

(** [PRUNE_BATCH]. *)
Definition PRUNE_BATCH : Z := 8.

(** The two deletes of one pruning step.  Their results are ignored, so
    either may have had no effect: [del_ok] says which did. *)
Definition delete_entries (del_ok : bool -> Z -> bool) (n : Z) (st : CheckpointStore) : CheckpointStore := {|
  offsets_obj := offsets_obj st;
  planned_log := if del_ok true n then delete n (planned_log st) else planned_log st;
  commit_log := if del_ok false n then delete n (commit_log st) else commit_log st |}.

(** The [while] loop of [CheckpointStore::prune_log].  Its guard bounds the
    number of iterations by [PRUNE_BATCH], which is the fuel it is run with. *)
Fixpoint prune_loop (fuel : nat) (del_ok : bool -> Z -> bool) (pruned_through committed_batch_id pruned : Z)
    (st : CheckpointStore) : Z * CheckpointStore :=
  match fuel with
  | O => (pruned, st)
  | S fuel =>
      if (pruned + 1 <? committed_batch_id) && (pruned <? pruned_through + PRUNE_BATCH)
      then prune_loop fuel del_ok pruned_through committed_batch_id (pruned + 1)
             (delete_entries del_ok (pruned + 1) st)
      else (pruned, st)
  end.

(** [CheckpointStore::prune_log]. *)
Definition prune_log (del_ok : bool -> Z -> bool) (pruned_through committed_batch_id : Z)
    (st : CheckpointStore) : Z * CheckpointStore :=
  prune_loop (Z.to_nat PRUNE_BATCH) del_ok pruned_through committed_batch_id pruned_through st.

(** ** Lemmas *)

Lemma prune_loop_spec fuel del_ok pt c p st p' st' :
  prune_loop fuel del_ok pt c p st = (p', st') ->
  p <= p' <= p + Z.of_nat fuel /\ (p < p' -> p' < c) /\
  offsets_obj st' = offsets_obj st /\
  (forall n, ~ (p < n <= p') -> planned_log st' !! n = planned_log st !! n /\ commit_log st' !! n = commit_log st !! n) /\
  (forall n, planned_log st' !! n = None \/ planned_log st' !! n = planned_log st !! n) /\
  (forall n, commit_log st' !! n = None \/ commit_log st' !! n = commit_log st !! n).
Proof.
  revert p st. induction fuel as [|fuel IH]; intros p st Hrun; simpl in Hrun.
  { simplify_eq. split_and!; auto; lia. }
  destruct (_ && _) eqn:Eg; [|simplify_eq; split_and!; auto; lia].
  bool_to_prop. destruct (IH _ _ Hrun) as (Hp & Hc & Ho & Hkeep & Hpl & Hcl).
  assert (forall n, planned_log (delete_entries del_ok (p + 1) st) !! n = None
                    \/ planned_log (delete_entries del_ok (p + 1) st) !! n = planned_log st !! n) as Hd1.
  { intros n. simpl. destruct (del_ok true (p + 1)); [|auto]. rewrite lookup_delete. case_decide; auto. }
  assert (forall n, commit_log (delete_entries del_ok (p + 1) st) !! n = None
                    \/ commit_log (delete_entries del_ok (p + 1) st) !! n = commit_log st !! n) as Hd2.
  { intros n. simpl. destruct (del_ok false (p + 1)); [|auto]. rewrite lookup_delete. case_decide; auto. }
  split_and!.
  - lia.
  - lia.
  - intros. destruct (decide (p + 1 < p')); [auto|lia].
  - done.
  - intros n Hn. destruct (Hkeep n ltac:(lia)) as [-> ->]. simpl.
    destruct (del_ok true _), (del_ok false _); rewrite ?lookup_delete_ne by lia; done.
  - intros n. destruct (Hpl n) as [->| ->]; auto.
  - intros n. destruct (Hcl n) as [->| ->]; auto.
Qed.

Lemma prune_log_spec del_ok pt c st p' st' :
  prune_log del_ok pt c st = (p', st') ->
  pt <= p' <= pt + PRUNE_BATCH /\ (pt < p' -> p' < c) /\
  offsets_obj st' = offsets_obj st /\
  (forall n, ~ (pt < n <= p') -> planned_log st' !! n = planned_log st !! n /\ commit_log st' !! n = commit_log st !! n) /\
  (forall n, planned_log st' !! n = None \/ planned_log st' !! n = planned_log st !! n) /\
  (forall n, commit_log st' !! n = None \/ commit_log st' !! n = commit_log st !! n).
Proof. intros Hp. apply prune_loop_spec in Hp. by rewrite Z2Nat.id in Hp. Qed.

(** The loop stops because its guard is false, not because the fuel ran out. *)
Lemma prune_loop_guard fuel del_ok pt c p st p' st' :
  pt <= p -> p + Z.of_nat fuel = pt + PRUNE_BATCH ->
  prune_loop fuel del_ok pt c p st = (p', st') ->
  ~ (p' + 1 < c /\ p' < pt + PRUNE_BATCH).
Proof.
  revert p st. induction fuel as [|fuel IH]; intros p st Hp Hf Hrun; simpl in Hrun.
  { simplify_eq. lia. }
  destruct (_ && _) eqn:Eg.
  - eapply IH in Hrun; [done|lia|lia].
  - simplify_eq. apply andb_false_iff in Eg. destruct Eg; bool_to_prop; lia.
Qed.

(** A pruning pass advances its mark by at most [PRUNE_BATCH], touches
    only entries strictly before the committed batch, never the resume record,
    and stops only when it has caught up or done its share. *)
Theorem prune_log_safe del_ok pt c st :
  let '(p', st') := prune_log del_ok pt c st in
  pt <= p' <= pt + PRUNE_BATCH /\ load st' = load st /\
  (forall n, c <= n -> load_planned n st' = load_planned n st /\ load_commit n st' = load_commit n st) /\
  (c <= p' + 1 \/ p' = pt + PRUNE_BATCH).
Proof.
  destruct (prune_log del_ok pt c st) as [p' st'] eqn:E. pose proof E as E'. unfold prune_log in E'.
  apply prune_loop_guard in E'; [|lia|by rewrite Z2Nat.id].
  apply prune_log_spec in E as (Hr & Hlt & Ho & Hk & _).
  split; [done|]. split; [unfold load; by rewrite Ho|]. split; [|lia].
  intros n Hn. apply Hk. lia.
Qed.
