(* ===== verification/Sink.v ===== *)
(** * Sink: what the scheduler relies on a sink for (oxidant-streaming/src/sink.rs)

    The [Sink] trait's [write_batch], with opening the sink, as a class over
    the durable state [D] it writes to and the in-memory handle [H]; and the
    promise the scheduler's documentation makes on its behalf: a batch id that
    is already in the sink is recognized and not written again. *)

From S2P Require Import Prelude Arrow Effects.

(** What the rest of the world does to the durable state between two calls. *)
Class SinkEnv (E D : Type) := env_step : E -> D -> D.

Section Sink.
Context `{Arrow} {E D H' : Type} `{!SinkEnv E D}.

Record StoreWorld := { st_script : list (event E); st_durable : D }.
Record SinkWorld := { sw_store : StoreWorld; sw_handle : H' }.

Definition advance_store (ev : event E) (rest : list (event E)) (w : StoreWorld) : StoreWorld :=
  {| st_script := rest; st_durable := env_step (ev_env ev) (st_durable w) |}.

#[export] Instance store_scripted : Scripted E StoreWorld :=
  {| script := st_script; advance := advance_store |}.
#[export] Instance sink_scripted : Scripted E SinkWorld := {|
  script w := st_script (sw_store w);
  advance ev rest w := {| sw_store := advance_store ev rest (sw_store w); sw_handle := sw_handle w |} |}.

Definition durable (w : SinkWorld) : D := st_durable (sw_store w).
Definition set_durable (d : D) (w : SinkWorld) : SinkWorld :=
  {| sw_store := {| st_script := st_script (sw_store w); st_durable := d |}; sw_handle := sw_handle w |}.
Definition set_handle (h : H') (w : SinkWorld) : SinkWorld :=
  {| sw_store := sw_store w; sw_handle := h |}.
(** Run an operation that does not need the handle. *)
Definition in_store {A} (m : M StoreWorld A) : M SinkWorld A :=
  zoom sw_store (fun st w => {| sw_store := st; sw_handle := sw_handle w |}) m.

Class Sink := {
  (** Open the sink under an application id. *)
  sink_open : str -> M StoreWorld H';
  (** [Sink::write_batch]; the result is the number of rows written. *)
  sink_write : list RecordBatch -> Z -> M SinkWorld nat;
}.

(** The effect a write of batch [id] is allowed to have on what the
    application has in the sink. *)
Definition record_batch (L : list (Z * list RecordBatch)) (id : Z) (bs : list RecordBatch)
  : list (Z * list RecordBatch) :=
  if decide (total_rows bs = 0%nat \/ id ∈ L.*1) then L else L ++ [(id, bs)].

(** The interface: [snk_log app d] is what application [app] has in the sink,
    in commit order.  A write adds exactly its batch, once; a failed write
    adds nothing; a crash leaves one or the other.  [snk_event_ok] says which
    events the promise holds under; any stronger condition [ok] on the script
    is kept. *)
Class IdempotentSink `{!Sink} := {
  snk_event_ok : str -> event E -> Prop;
  snk_ok : str -> D -> Prop;
  snk_log : str -> D -> list (Z * list RecordBatch);
  snk_sync : str -> D -> H' -> Prop;
  snk_open_spec app ok :
    (forall ev, ok ev -> snk_event_ok app ev) -> forall L,
    triple (fun w => Forall ok (st_script w) /\ snk_ok app (st_durable w) /\ snk_log app (st_durable w) = L)
      (sink_open app)
      (fun h w => Forall ok (st_script w) /\ snk_ok app (st_durable w)
                  /\ snk_log app (st_durable w) = L /\ snk_sync app (st_durable w) h)
      (fun _ w => Forall ok (st_script w) /\ snk_ok app (st_durable w) /\ snk_log app (st_durable w) = L)
      (fun w => Forall ok (st_script w) /\ snk_ok app (st_durable w) /\ snk_log app (st_durable w) = L);
  snk_write_spec app ok :
    (forall ev, ok ev -> snk_event_ok app ev) -> forall L bs id,
    0 <= id <= i_max 64 -> Forall (fun e => fst e <= id) L ->
    triple (fun w => Forall ok (st_script (sw_store w)) /\ snk_ok app (durable w)
                     /\ snk_log app (durable w) = L /\ snk_sync app (durable w) (sw_handle w))
      (sink_write bs id)
      (fun _ w => Forall ok (st_script (sw_store w)) /\ snk_ok app (durable w)
                  /\ snk_log app (durable w) = record_batch L id bs /\ snk_sync app (durable w) (sw_handle w))
      (fun _ w => Forall ok (st_script (sw_store w)) /\ snk_ok app (durable w)
                  /\ snk_log app (durable w) = L /\ snk_sync app (durable w) (sw_handle w))
      (fun w => Forall ok (st_script (sw_store w)) /\ snk_ok app (durable w)
                /\ (snk_log app (durable w) = L \/ snk_log app (durable w) = record_batch L id bs));
}.
End Sink.
Arguments StoreWorld : clear implicits.
Arguments SinkWorld : clear implicits.
Arguments Sink {_} E D H'.
