(* ===== verification/Delta.v ===== *)
(** * Delta: the transactional table writer and the lake sink
    (oxidant-datasource/src/delta_write.rs, oxidant-streaming/src/lake_sink.rs)

    The transaction log is a list of commits, its position the version; the
    object store's conditional [PUT] decides who gets a version.  A commit is
    its list of actions.  [DeltaTableWriter] caches the version to try next,
    the live files and the highest [txn] of its application.  Tables are
    unpartitioned; the Parquet object a data file names is carried by the
    file itself ([af_content]), since its path is unique and it is never
    rewritten. *)

From S2P Require Import Prelude Text Arrow Effects Sink.

(** The text of an error an external call reports. *)
Definition error_message (e : Error) : str :=
  match e with Plan m | Execution m | Unsupported m | Io m => m end.

(** [Display] of [oxidant_common::Error]. *)
Definition display_error (e : Error) : str :=
  match e with
  | Plan m => lit "plan error: " ++ m
  | Execution m => lit "execution error: " ++ m
  | Unsupported m => lit "unsupported: " ++ m
  | Io m => lit "io error: " ++ m
  end.

Section Delta.
Context `{Arrow}.

(** [DeltaAddFile]. *)
Record DeltaAddFile := {
  af_path : str;
  af_size : Z;
  af_num_records : nat;
  af_content : list RecordBatch;
}.

(** [DeltaTxn]. *)
Record DeltaTxn := { txn_app_id : str; txn_version : Z }.

(** One line of a commit, as [LogState::read] distinguishes them: an [add]
    or a [remove] whose path may be missing, a [txn], and the rest. *)
Inductive Action :=
  | AddAction (f : option DeltaAddFile)
  | RemoveAction (path : option str)
  | TxnAction (t : DeltaTxn)
  | OtherAction.

Definition Commit : Type := list Action.

(** A checkpoint file: the live files and the one [txn] row. *)
Record DeltaCheckpoint := { ck_files : list DeltaAddFile; ck_txn : option DeltaTxn }.

(** What the object store holds under [_delta_log]. *)
Record DeltaTable := {
  dt_log : list Commit;
  dt_checkpoints : gmap nat DeltaCheckpoint;
  dt_last_checkpoint : option nat;
}.

(** [LogState]. *)
Record LogState := {
  ls_next_version : nat;
  ls_live_files : option (list DeltaAddFile);
  ls_committed_txn : option Z;
}.

(** [DeltaTableWriter], for an unpartitioned table. *)
Record DeltaTableWriter := {
  dw_app_id : option str;
  dw_checkpoint_interval : nat;
  dw_next_version : nat;
  dw_live_files : option (list DeltaAddFile);
  dw_committed_txn : option Z;
  dw_file_counter : nat;
  dw_checkpoint_failures : nat;
}.

(** [DeltaCommit]. *)
Record DeltaCommit := { dc_version : nat; dc_rows : nat; dc_deduplicated : bool }.

Definition CHECKPOINT_FAILURE_LIMIT : nat := 3.
Definition COMMIT_ATTEMPTS : nat := 8.

(** ** Replaying the log *)

(** The accumulator of the read loop: live files, trustworthy, our txn. *)
Definition Replay : Type := list DeltaAddFile * bool * option Z.

(** [committed_txn.map_or(v, |c| c.max(v))]. *)
Definition raise_txn (c : option Z) (v : Z) : option Z :=
  Some (match c with Some c => Z.max c v | None => v end).

(** One action of [LogState::read]. *)
Definition replay_action (app_id : option str) (st : Replay) (a : Action) : Replay :=
  let '(live, trustworthy, committed) := st in
  match a with
  | AddAction (Some f) => (live ++ [f], trustworthy, committed)
  | AddAction None => (live, false, committed)
  | RemoveAction (Some path) =>
      if decide (Exists (fun f => af_path f = path) live)
      then (filter (fun f => af_path f <> path) live, trustworthy, committed)
      else (live, false, committed)
  | RemoveAction None => (live, false, committed)
  | TxnAction t =>
      if bool_decide (app_id = Some (txn_app_id t))
      then (live, trustworthy, raise_txn committed (txn_version t))
      else st
  | OtherAction => st
  end.

Definition replay (app_id : option str) (st : Replay) (commits : list Commit) : Replay :=
  foldl (foldl (replay_action app_id)) st commits.

Definition empty_replay : Replay := ([], true, None).

(** The state a checkpoint gives a reader of [app_id] ([read_checkpoint]). *)
Definition checkpoint_replay (app_id : option str) (ck : DeltaCheckpoint) : Replay :=
  (ck_files ck, true,
   match ck_txn ck with
   | Some t => if bool_decide (app_id = Some (txn_app_id t)) then Some (txn_version t) else None
   | None => None
   end).

(** ** The world of a writer *)

(** What happens outside the process: commits of other writers that land
    before the next call. *)
Class TableEnv (E : Type) := foreign_commits : E -> list Commit.

Context {E : Type} `{!TableEnv E}.

(** The object store under the table root, and how many UUIDs have been drawn. *)
Record DeltaStore := { ds_table : DeltaTable; ds_drawn : nat }.

Definition add_commits (cs : list Commit) (t : DeltaTable) : DeltaTable :=
  {| dt_log := dt_log t ++ cs; dt_checkpoints := dt_checkpoints t; dt_last_checkpoint := dt_last_checkpoint t |}.

#[export] Instance delta_env : SinkEnv E DeltaStore := fun e d =>
  {| ds_table := add_commits (foreign_commits e) (ds_table d); ds_drawn := ds_drawn d |}.

Abbreviation World := (StoreWorld E DeltaStore) (only parsing).
Abbreviation WriterWorld := (SinkWorld E DeltaStore DeltaTableWriter) (only parsing).

Definition table_in (w : World) : DeltaTable := ds_table (st_durable w).
Definition table_of (w : WriterWorld) : DeltaTable := ds_table (durable w).
Definition set_table (t : DeltaTable) (w : WriterWorld) : WriterWorld :=
  set_durable {| ds_table := t; ds_drawn := ds_drawn (durable w) |} w.

(** UUIDs are drawn from a supply. *)
Variable uuid : nat -> str.

(** [new_file_prefix]. *)
Definition new_file_prefix : M WriterWorld str := fun w =>
  (Done (uuid (ds_drawn (durable w))),
   set_durable {| ds_table := table_of w; ds_drawn := S (ds_drawn (durable w)) |} w).

(** ** Reading the log *)

(** [last_checkpoint_version]: any failure is "no checkpoint". *)
Definition last_checkpoint_version : M World (option nat) :=
  unwrap_or (external GetHint (do! w <- get; ret (dt_last_checkpoint (table_in w)))) None.

(** [read_checkpoint], up to the decoding of the Parquet file. *)
Definition read_checkpoint (version : nat) : M World DeltaCheckpoint :=
  external GetCheckpoint
    (do! w <- get;
     match dt_checkpoints (table_in w) !! version with
     | Some ck => ret ck
     | None => throw (Io (lit "read checkpoint: not found"))
     end).

(** [LogState::read].  The commit reads are one call: the log only grows, so
    a scan that ends at the first missing version saw one prefix of it. *)
Definition log_state_read (app_id : option str) : M World LogState :=
  do! checkpoint <- last_checkpoint_version;
  do! base <- match checkpoint with
              | None => ret empty_replay
              | Some v =>
                  do! r <- try_ (read_checkpoint v);
                  ret (match r with
                       | Ok ck => checkpoint_replay app_id ck
                       | Err _ => ([], false, None)
                       end)
              end;
  let start := match checkpoint with None => 0%nat | Some v => S v end in
  external ReadLog
    (do! w <- get;
     let commits := drop start (dt_log (table_in w)) in
     let '(live, trustworthy, committed) := replay app_id base commits in
     ret {| ls_next_version := (start + length commits)%nat;
            ls_live_files := if trustworthy : bool then Some live else None;
            ls_committed_txn := committed |}).

(** [DeltaTableWriter::open]. *)
Definition open_writer (app_id : option str) (interval : nat) : M World DeltaTableWriter :=
  do! st <- log_state_read app_id;
  ret {| dw_app_id := app_id; dw_checkpoint_interval := interval;
         dw_next_version := ls_next_version st; dw_live_files := ls_live_files st;
         dw_committed_txn := ls_committed_txn st; dw_file_counter := 0; dw_checkpoint_failures := 0 |}.

(** ** Writing *)

Definition with_view (n : nat) (live : option (list DeltaAddFile)) (txn : option Z) (wr : DeltaTableWriter)
  : DeltaTableWriter :=
  {| dw_app_id := dw_app_id wr; dw_checkpoint_interval := dw_checkpoint_interval wr;
     dw_next_version := n; dw_live_files := live; dw_committed_txn := txn;
     dw_file_counter := dw_file_counter wr; dw_checkpoint_failures := dw_checkpoint_failures wr |}.
Definition with_counter (n : nat) (wr : DeltaTableWriter) : DeltaTableWriter :=
  {| dw_app_id := dw_app_id wr; dw_checkpoint_interval := dw_checkpoint_interval wr;
     dw_next_version := dw_next_version wr; dw_live_files := dw_live_files wr;
     dw_committed_txn := dw_committed_txn wr; dw_file_counter := n;
     dw_checkpoint_failures := dw_checkpoint_failures wr |}.
Definition with_failures (interval failures : nat) (wr : DeltaTableWriter) : DeltaTableWriter :=
  {| dw_app_id := dw_app_id wr; dw_checkpoint_interval := interval;
     dw_next_version := dw_next_version wr; dw_live_files := dw_live_files wr;
     dw_committed_txn := dw_committed_txn wr; dw_file_counter := dw_file_counter wr;
     dw_checkpoint_failures := failures |}.

Definition get_writer : M WriterWorld DeltaTableWriter := do! w <- get; ret (sw_handle w).
Definition update_writer (f : DeltaTableWriter -> DeltaTableWriter) : M WriterWorld unit :=
  modify (fun w => set_handle (f (sw_handle w)) w).

(** The Parquet encoding's size. *)
Variable encoded_size : list RecordBatch -> Z.

(** [write_data_files] on an unpartitioned table: one group holding all the
    batches, skipped when it has no rows. *)
Definition write_data_files (batches : list RecordBatch) (prefix : str) : M WriterWorld (list DeltaAddFile) :=
  do! wr <- get_writer;
  do! files <-
    (if (total_rows batches =? 0)%nat then ret []
     else
       let path := fmt [lit "part-"; show_pad 5 (Z.of_nat (dw_file_counter wr)); lit "-"; prefix;
                        lit "-0-c000.snappy.parquet"] in
       run! map_err (fun e => Io (fmt [lit "write `"; path; lit "`: "; error_message e]))
              (external PutData (ret tt));
       ret [{| af_path := path; af_size := encoded_size batches;
               af_num_records := total_rows batches; af_content := batches |}]);
  run! update_writer (fun wr => with_counter (S (dw_file_counter wr)) wr);
  ret files.

(** [render_commit_with_removes]: the actions of one commit. *)
Definition render_commit_with_removes (version : nat) (files removes : list DeltaAddFile)
    (txn : option DeltaTxn) : Commit :=
  (match version with O => [OtherAction; OtherAction] | _ => [] end)
  ++ (match txn with Some t => [TxnAction t] | None => [] end)
  ++ ((fun f => RemoveAction (Some (af_path f))) <$> removes)
  ++ ((fun f => AddAction (Some f)) <$> files).

(** The conditional [PUT]: [false] is [AlreadyExists]. *)
Definition put_commit (version : nat) (body : Commit) : M WriterWorld bool :=
  external PutCommit
    (do! w <- get;
     if decide (version < length (dt_log (table_of w)))%nat then ret false
     else run! modify (fun w => set_table (add_commits [body] (table_of w)) w); ret true).

Definition commit_path (version : nat) : str :=
  fmt [lit "_delta_log/"; show_pad 20 (Z.of_nat version); lit ".json"].

(** [commit_inner]: [attempts] is the number of iterations left. *)
Fixpoint commit_inner (attempts : nat) (files : list DeltaAddFile) (txn : option DeltaTxn) (retire_live : bool)
  : M WriterWorld nat :=
  match attempts with
  | O => throw (Io (lit "Delta commit lost 8 version races"))
  | S attempts' =>
      do! wr <- get_writer;
      let version := dw_next_version wr in
      do! removes <- (if retire_live
                      then match dw_live_files wr with
                           | Some live => ret live
                           | None => throw (Execution (lit "cannot overwrite: the live set is not authoritative"))
                           end
                      else ret []);
      do! created <- map_err (fun e => Io (fmt [lit "commit `"; commit_path version; lit "`: "; error_message e]))
                       (put_commit version (render_commit_with_removes version files removes txn));
      if created then ret version
      else if (1 <? attempts)%nat then
        do! st <- in_store (log_state_read (dw_app_id wr));
        run! update_writer (with_view (ls_next_version st) (ls_live_files st) (ls_committed_txn st));
        commit_inner attempts' files txn retire_live
      else throw (Io (fmt [lit "commit `"; commit_path version; lit "`: already exists"]))
  end.

(** [write_checkpoint]. *)
Definition write_checkpoint (version : nat) : M WriterWorld unit :=
  do! wr <- get_writer;
  match dw_live_files wr with
  | None => ret tt
  | Some live =>
      let txn := match dw_app_id wr, dw_committed_txn wr with
                 | Some a, Some v => Some {| txn_app_id := a; txn_version := v |}
                 | _, _ => None
                 end in
      run! map_err (fun e => Io (fmt [lit "write checkpoint: "; error_message e]))
        (external PutCheckpoint
          (modify (fun w => set_table
             {| dt_log := dt_log (table_of w);
                dt_checkpoints := <[version := {| ck_files := live; ck_txn := txn |}]> (dt_checkpoints (table_of w));
                dt_last_checkpoint := dt_last_checkpoint (table_of w) |} w)));
      map_err (fun e => Io (fmt [lit "write _last_checkpoint: "; error_message e]))
        (external PutHint
          (modify (fun w => set_table
             {| dt_log := dt_log (table_of w); dt_checkpoints := dt_checkpoints (table_of w);
                dt_last_checkpoint := Some version |} w)))
  end.

(** [maybe_checkpoint]. *)
Definition maybe_checkpoint (version : nat) : M WriterWorld unit :=
  do! wr <- get_writer;
  if (dw_checkpoint_interval wr =? 0)%nat
     || negb (S version mod dw_checkpoint_interval wr =? 0)%nat
     || bool_decide (dw_live_files wr = None)
  then ret tt
  else
    do! r <- try_ (write_checkpoint version);
    match r with
    | Ok _ => update_writer (fun wr => with_failures (dw_checkpoint_interval wr) 0 wr)
    | Err _ => update_writer (fun wr =>
        let failures := S (dw_checkpoint_failures wr) in
        with_failures (if (CHECKPOINT_FAILURE_LIMIT <=? failures)%nat then 0 else dw_checkpoint_interval wr)
          failures wr)
    end.

(** Whether the [txn] cached by the writer makes [txn_version] a replay. *)
Definition is_replay (txn_version committed : option Z) : bool :=
  match txn_version, committed with Some v, Some c => v <=? c | _, _ => false end.

Definition txn_of (wr : DeltaTableWriter) (txn_version : option Z) : option DeltaTxn :=
  match txn_version, dw_app_id wr with
  | Some v, Some a => Some {| txn_app_id := a; txn_version := v |}
  | _, _ => None
  end.

(** The bookkeeping after a commit. *)
Definition after_commit (version : nat) (txn : option DeltaTxn) (live : option (list DeltaAddFile))
    (wr : DeltaTableWriter) : DeltaTableWriter :=
  with_view (S version) live
    (match txn with Some t => Some (txn_version t) | None => dw_committed_txn wr end) wr.

(** [DeltaTableWriter::append]. *)
Definition append (batches : list RecordBatch) (prefix : str) (txn_version : option Z) : M WriterWorld DeltaCommit :=
  do! wr <- get_writer;
  let rows := total_rows batches in
  if (rows =? 0)%nat
  then ret {| dc_version := dw_next_version wr; dc_rows := 0; dc_deduplicated := false |}
  else if is_replay txn_version (dw_committed_txn wr)
  then ret {| dc_version := dw_next_version wr; dc_rows := 0; dc_deduplicated := true |}
  else
    do! files <- write_data_files batches prefix;
    let txn := txn_of wr txn_version in
    do! version <- commit_inner COMMIT_ATTEMPTS files txn false;
    run! update_writer (fun wr =>
      after_commit version txn ((fun live => live ++ files) <$> dw_live_files wr) wr);
    run! maybe_checkpoint version;
    ret {| dc_version := version; dc_rows := rows; dc_deduplicated := false |}.

(** [DeltaTableWriter::replace]. *)
Definition replace (batches : list RecordBatch) (prefix : str) (txn_version : option Z) : M WriterWorld DeltaCommit :=
  do! wr <- get_writer;
  if is_replay txn_version (dw_committed_txn wr)
  then ret {| dc_version := dw_next_version wr; dc_rows := 0; dc_deduplicated := true |}
  else
    match dw_live_files wr with
    | None => throw (Execution (lit "cannot overwrite: the live set is not authoritative"))
    | Some _ =>
        do! files <- write_data_files batches prefix;
        let txn := txn_of wr txn_version in
        do! version <- commit_inner COMMIT_ATTEMPTS files txn true;
        run! update_writer (after_commit version txn (Some files));
        run! maybe_checkpoint version;
        ret {| dc_version := version; dc_rows := total_rows batches; dc_deduplicated := false |}
    end.

(** ** The lake sink over a Delta table *)

(** [b.schema() == self.schema]. *)
Variable schema_matches : RecordBatch -> bool.

(** [LakeSink::write_batch], Delta branch.  Publishing the Iceberg view and
    invalidating readers swallow their failures; only dying there matters. *)
Definition write_batch (batches : list RecordBatch) (batch_id : Z) : M WriterWorld nat :=
  let rows := total_rows batches in
  if (rows =? 0)%nat then ret 0%nat
  else if negb (forallb schema_matches batches)
  then throw (Execution (lit "streaming sink: batch schema does not match the table schema"))
  else
    do! prefix <- new_file_prefix;
    do! commit <- append batches prefix (Some (wraps 64 batch_id));
    if dc_deduplicated commit then ret 0%nat
    else run! try_ (external PublishIceberg (ret tt)); ret rows.

(** ** Abstraction: the batches an application has committed *)

Definition txns_of (app : str) (c : Commit) : list Z :=
  omap (fun a => match a with
                 | TxnAction t => if bool_decide (txn_app_id t = app) then Some (txn_version t) else None
                 | _ => None
                 end) c.
Definition commit_content (c : Commit) : list RecordBatch :=
  c ≫= (fun a => match a with AddAction (Some f) => af_content f | _ => [] end).
Definition commit_entries (app : str) (c : Commit) : list (Z * list RecordBatch) :=
  (fun v => (v, commit_content c)) <$> txns_of app c.
Definition app_log (app : str) (log : list Commit) : list (Z * list RecordBatch) :=
  log ≫= commit_entries app.
Definition max_txn (vs : list Z) : option Z := foldl raise_txn None vs.

Lemma app_log_app app l k : app_log app (l ++ k) = app_log app l ++ app_log app k.
Proof. apply bind_app. Qed.

Lemma app_log_foreign app l : Forall (fun c => txns_of app c = []) l -> app_log app l = [].
Proof.
  induction 1 as [|c l Hc _ IH]; [done|]. simpl. unfold commit_entries at 1. by rewrite Hc, IH.
Qed.

Lemma app_log_nil_inv app l : app_log app l = [] -> Forall (fun c => txns_of app c = []) l.
Proof.
  induction l as [|c l IH]; [constructor|]. simpl. intros [Hc Hl]%app_eq_nil.
  constructor; [by apply fmap_nil_inv in Hc|auto].
Qed.

(** The transaction number replaying leaves behind. *)
Lemma replay_action_txn app st a :
  snd (replay_action (Some app) st a) =
  foldl raise_txn (snd st) (match a with
    | TxnAction t => if bool_decide (txn_app_id t = app) then [txn_version t] else []
    | _ => [] end).
Proof.
  destruct st as [[live t] c], a as [[f|]|[p|]|t'|]; simpl; try done.
  - by case_decide.
  - repeat case_bool_decide; simplify_eq; try done; congruence.
Qed.

Lemma replay_commit_txn app st c :
  snd (foldl (replay_action (Some app)) st c) = foldl raise_txn (snd st) (txns_of app c).
Proof.
  revert st. induction c as [|a c IH]; intros st; simpl; [done|].
  rewrite IH, replay_action_txn. destruct a as [| |t|]; simpl; try done.
  by case_bool_decide.
Qed.

Lemma replay_txn app st l :
  snd (replay (Some app) st l) = foldl raise_txn (snd st) (app_log app l).*1.
Proof.
  revert st. induction l as [|c l IH]; intros st; simpl; [done|].
  unfold replay in *. rewrite IH, replay_commit_txn, fmap_app, foldl_app.
  unfold commit_entries. rewrite <-list_fmap_compose. simpl.
  by rewrite list_fmap_id.
Qed.

Lemma foldl_raise_max c vs v :
  is_replay (Some v) (foldl raise_txn c vs) = true <->
  is_replay (Some v) c = true \/ exists u, u ∈ vs /\ v <= u.
Proof.
  revert c. induction vs as [|u vs IH]; intros c; cbn [foldl].
  { split; [auto|]. intros [|(u & Hu & _)]; [done|by apply elem_of_nil in Hu]. }
  rewrite IH. setoid_rewrite elem_of_cons.
  assert (is_replay (Some v) (raise_txn c u) = true <-> is_replay (Some v) c = true \/ v <= u) as ->.
  { destruct c as [c|]; simpl; rewrite ?Z.leb_le; [lia|]. split; [auto|]. by intros []. }
  naive_solver.
Qed.

Lemma foldl_raise_lt v vs : Forall (fun u => u < v) vs -> raise_txn (max_txn vs) v = Some v.
Proof.
  intros Hvs. destruct (is_replay (Some v) (max_txn vs)) eqn:Er.
  - apply foldl_raise_max in Er as [Er|(u & Hu & ?)]; [done|].
    rewrite Forall_forall in Hvs. specialize (Hvs _ Hu). lia.
  - unfold raise_txn. destruct (max_txn vs) as [c|]; simpl in *; [|done].
    bool_to_prop. f_equal. lia.
Qed.

End Delta.
