(* ===== verification/DeltaSpec.v ===== *)
(** * DeltaSpec: the Delta writer keeps the sink's promise

    Proof that [LakeSink::write_batch] over [DeltaTableWriter] is an
    [IdempotentSink], for any interleaving with other writers and any script
    of failures and crashes in which the acknowledgement of a commit is not
    lost and a checkpoint that exists can be read; and the equivalence of
    opening from a checkpoint with replaying the whole log. *)

From S2P Require Import Prelude Text Arrow Effects Sink Delta.

Section DeltaSpec.
Context `{Arrow} {E : Type} `{!TableEnv E}.
Variable uuid : nat -> str.
Variable encoded_size : list RecordBatch -> Z.
Variable schema_matches : RecordBatch -> bool.
Variable checkpoint_interval : nat.

#[local] Abbreviation World := (StoreWorld E DeltaStore) (only parsing).
#[local] Abbreviation WriterWorld := (SinkWorld E DeltaStore DeltaTableWriter) (only parsing).

(** The faults the promise is proved under. *)
Definition delta_fault_ok (c : call) (f : fault) : Prop :=
  match c, f with
  | PutCommit, FailAfter _ => False
  | GetCheckpoint, (FailBefore _ | FailAfter _) => False
  | _, _ => True
  end.

Definition delta_event_ok (app : str) (ev : event E) : Prop :=
  (forall c, delta_fault_ok c (ev_fault ev c)) /\
  Forall (fun c => txns_of app c = []) (foreign_commits (ev_env ev)).

(** What a writer caches of a replay. *)
Definition view (r : Replay) : option (list DeltaAddFile) * option Z :=
  let '(live, trustworthy, committed) := r in (if trustworthy : bool then Some live else None, committed).

(** Every checkpoint summarizes the log up to its version. *)
Definition table_ok (app : str) (t : DeltaTable) : Prop :=
  (forall v, dt_last_checkpoint t = Some v -> is_Some (dt_checkpoints t !! v)) /\
  (forall v ck, dt_checkpoints t !! v = Some ck ->
     (v < length (dt_log t))%nat /\
     checkpoint_replay (Some app) ck = replay (Some app) empty_replay (take (S v) (dt_log t))).

(** The writer's cache is exact up to [dw_next_version], and nothing of the
    application lies beyond. *)
Definition writer_sync (app : str) (d : DeltaStore) (wr : DeltaTableWriter) : Prop :=
  dw_app_id wr = Some app /\
  (dw_next_version wr <= length (dt_log (ds_table d)))%nat /\
  (dw_live_files wr, dw_committed_txn wr) =
    view (replay (Some app) empty_replay (take (dw_next_version wr) (dt_log (ds_table d)))) /\
  app_log app (drop (dw_next_version wr) (dt_log (ds_table d))) = [].

Definition delta_log (app : str) (d : DeltaStore) : list (Z * list RecordBatch) :=
  app_log app (dt_log (ds_table d)).

(** ** Growing and replaying the log *)

Lemma replay_app app st l k : replay app st (l ++ k) = replay app (replay app st l) k.
Proof. apply foldl_app. Qed.

Lemma table_ok_grow app t cs : table_ok app t -> table_ok app (add_commits cs t).
Proof.
  intros [Hh Hck]. split; [done|]. intros v ck Hv. destruct (Hck v ck Hv) as [Hlen Heq]. simpl.
  rewrite length_app. split; [lia|]. by rewrite take_app_le by lia.
Qed.

Lemma writer_sync_grow app d wr cs n :
  Forall (fun c => txns_of app c = []) cs -> writer_sync app d wr ->
  writer_sync app {| ds_table := add_commits cs (ds_table d); ds_drawn := n |} wr.
Proof.
  intros Hcs (Hid & Hn & Hv & Hd). split_and!; simpl; [done| | |].
  - rewrite length_app. lia.
  - by rewrite take_app_le by lia.
  - rewrite drop_app_le, app_log_app, Hd by lia. by apply app_log_foreign.
Qed.

Lemma txns_of_app app c d : txns_of app (c ++ d) = txns_of app c ++ txns_of app d.
Proof. apply omap_app. Qed.

Lemma commit_content_app c d : commit_content (c ++ d) = commit_content c ++ commit_content d.
Proof. apply bind_app. Qed.

Lemma txns_of_other app c : (forall t, TxnAction t ∉ c) -> txns_of app c = [].
Proof.
  induction c as [|a c IH]; intros Hc; [done|]. cbn [txns_of omap list_omap].
  fold (txns_of app c). rewrite IH by (intros t Ht; apply (Hc t); by right).
  destruct a as [| |t|]; try done. by destruct (Hc t); left.
Qed.

Definition stamp (app : str) (id : Z) : option DeltaTxn := Some {| txn_app_id := app; txn_version := id |}.

Lemma commit_entries_render app version files removes id :
  commit_entries app (render_commit_with_removes version files removes (stamp app id))
  = [(id, files ≫= af_content)].
Proof.
  unfold commit_entries, render_commit_with_removes, stamp.
  assert (txns_of app (((fun f => RemoveAction (Some (af_path f))) <$> removes)
            ++ ((fun f => AddAction (Some f)) <$> files)) = []) as Ht.
  { apply txns_of_other. intros t [Hin|Hin]%elem_of_app; apply list_elem_of_fmap in Hin as (f & ? & _); done. }
  assert (commit_content (((fun f => RemoveAction (Some (af_path f))) <$> removes)
            ++ ((fun f => AddAction (Some f)) <$> files)) = files ≫= af_content) as Hc.
  { unfold commit_content. rewrite bind_app. induction removes as [|r removes IHr]; [|by apply IHr]. simpl.
    clear. induction files as [|f files IHf]; [done|]. simpl. f_equal. exact IHf. }
  rewrite !txns_of_app, !commit_content_app, <-txns_of_app, <-commit_content_app, Ht, Hc.
  destruct version; cbn; by rewrite bool_decide_true.
Qed.

Lemma replay_adds app live t c files :
  foldl (replay_action app) (live, t, c) ((fun f => AddAction (Some f)) <$> files) = (live ++ files, t, c).
Proof.
  revert live. induction files as [|f files IH]; intros live; simpl; [by rewrite app_nil_r|].
  rewrite IH. by rewrite <-app_assoc.
Qed.

Lemma replay_append_commit app version files id live t c :
  foldl (replay_action (Some app)) (live, t, c) (render_commit_with_removes version files [] (stamp app id))
  = (live ++ files, t, raise_txn c id).
Proof.
  unfold render_commit_with_removes, stamp. rewrite foldl_app.
  assert (foldl (replay_action (Some app)) (live, t, c)
    (match version with O => [OtherAction; OtherAction] | S _ => [] end) = (live, t, c)) as ->.
  { by destruct version. }
  simpl. rewrite bool_decide_true by done. apply replay_adds.
Qed.

(** A checkpoint of what the writer sees is one the table may hold. *)
Lemma checkpoint_ok app d wr version live :
  writer_sync app d wr -> table_ok app (ds_table d) -> dw_next_version wr = S version ->
  dw_live_files wr = Some live ->
  checkpoint_replay (Some app)
    {| ck_files := live;
       ck_txn := match dw_app_id wr, dw_committed_txn wr with
                 | Some a, Some v => Some {| txn_app_id := a; txn_version := v |}
                 | _, _ => None
                 end |}
  = replay (Some app) empty_replay (take (S version) (dt_log (ds_table d))).
Proof.
  intros (Hid & Hn & Hv & _) _ Hver Hlive. rewrite Hver in Hv. rewrite Hid. unfold checkpoint_replay.
  destruct (replay _ _ _) as [[l t] c]. simpl in *. injection Hv as Hl Hc. rewrite Hlive in Hl.
  rewrite Hc. destruct t; [|done]. injection Hl as ->. destruct c; simpl; [by rewrite bool_decide_true|done].
Qed.

(** With no later batch in the sink, a version that is not newer is the same one. *)
Lemma replay_elem (L : list (Z * list RecordBatch)) id :
  Forall (fun e => fst e <= id) L -> is_replay (Some id) (max_txn L.*1) = true -> id ∈ L.*1.
Proof.
  intros Hle [Hr|(u & Hu & Hiu)]%foldl_raise_max; [done|].
  apply list_elem_of_fmap in Hu as (e & -> & He). pose proof He as He'.
  rewrite Forall_forall in Hle. apply Hle in He'. apply list_elem_of_fmap. exists e. split; [lia|done].
Qed.

Lemma ids_lt (L : list (Z * list RecordBatch)) id :
  Forall (fun e => fst e <= id) L -> id ∉ L.*1 -> Forall (fun u => u < id) L.*1.
Proof.
  intros Hle Hnew. apply Forall_forall. intros u Hu. pose proof Hu as Hu'.
  apply list_elem_of_fmap in Hu as (e & -> & He). rewrite Forall_forall in Hle. apply Hle in He.
  assert (fst e <> id) by congruence. lia.
Qed.

Section Events.
(** Any condition on events that implies the one above. *)
Variable app : str.
Variable ok : event E -> Prop.
Hypothesis Hok : forall ev, ok ev -> delta_event_ok app ev.

(** The state a store is in when [app] has committed [L]. *)
Definition store_inv (L : list (Z * list RecordBatch)) (w : World) : Prop :=
  Forall ok (st_script w) /\ table_ok app (table_in w) /\ delta_log app (st_durable w) = L.

Definition writer_inv (L : list (Z * list RecordBatch)) (w : WriterWorld) : Prop :=
  store_inv L (sw_store w) /\ writer_sync app (durable w) (sw_handle w).

Lemma store_inv_advance L w ev rest :
  store_inv L w -> st_script w = ev :: rest -> store_inv L (advance_store ev rest w).
Proof.
  intros (Hs & Ht & HL) Hev. rewrite Hev in Hs. apply Forall_cons in Hs as [Hf Hs]. apply Hok in Hf as [_ Hf].
  split_and!; [done|by apply table_ok_grow|]. unfold delta_log in *. simpl.
  rewrite app_log_app, (app_log_foreign _ _ Hf), app_nil_r. done.
Qed.

Lemma writer_inv_advance L w ev rest :
  writer_inv L w -> script w = ev :: rest -> writer_inv L (advance ev rest w).
Proof.
  intros [Hst Hsy] Hev. split; [by apply store_inv_advance|].
  destruct Hst as (Hs & _). change (script w) with (st_script (sw_store w)) in Hev.
  rewrite Hev in Hs. apply Forall_cons in Hs as [Hf _]. apply Hok in Hf as [_ Hf].
  by apply writer_sync_grow.
Qed.

Lemma store_inv_ok L w c ev :
  store_inv L w -> ev ∈ st_script w -> delta_fault_ok c (ev_fault ev c).
Proof. intros (Hs & _) Hev. rewrite Forall_forall in Hs. by apply Hs, Hok in Hev as [? _]. Qed.

(** ** Calls *)

(** A property of the durable state that other writers cannot disturb. *)
Definition stable (K : DeltaStore -> Prop) : Prop :=
  forall d cs, Forall (fun c => txns_of app c = []) cs -> K d ->
    K {| ds_table := add_commits cs (ds_table d); ds_drawn := ds_drawn d |}.

Section Read.
Variables (L : list (Z * list RecordBatch)) (K : DeltaStore -> Prop).
Hypothesis HK : stable K.

Definition kept_inv (w : World) : Prop := store_inv L w /\ K (st_durable w).

Lemma kept_inv_advance w ev rest :
  kept_inv w -> st_script w = ev :: rest -> kept_inv (advance_store ev rest w).
Proof.
  intros [Hw Hk] Hev. split; [by apply store_inv_advance|].
  destruct Hw as (Hs & _). rewrite Hev in Hs. apply Forall_cons in Hs as [Hf _]. apply Hok in Hf as [_ Hf]. by apply HK.
Qed.

Lemma kept_inv_ok w c ev : kept_inv w -> ev ∈ st_script w -> delta_fault_ok c (ev_fault ev c).
Proof. intros [Hw _]. by apply (store_inv_ok L). Qed.

(** ** Opening *)

(** Reading from the newest checkpoint, when there is one, tells a writer
    what replaying the whole log would. *)
Definition read_complete (st : LogState) (w : World) : Prop :=
  ls_next_version st = length (dt_log (table_in w)) /\
  (ls_live_files st, ls_committed_txn st) = view (replay (Some app) empty_replay (dt_log (table_in w))).

Lemma triple_last_checkpoint :
  triple kept_inv last_checkpoint_version
    (fun hint w => kept_inv w /\ forall v, hint = Some v -> is_Some (dt_checkpoints (table_in w) !! v))
    (fun _ => kept_inv) kept_inv.
Proof.
  unfold last_checkpoint_version, unwrap_or.
  apply (triple_bind _ _ _ (fun r w => kept_inv w /\
    forall v, match r with Ok h => h | Err _ => None end = Some v -> is_Some (dt_checkpoints (table_in w) !! v))).
  - apply triple_try. apply (triple_external delta_fault_ok).
    + intros w ev. apply kept_inv_ok.
    + intros w ev rest. apply kept_inv_advance.
    + intros w Hw. split; [done|]. by apply Hw.
    + by intros e w _ Hw.
    + by intros e a w _ [Hw _].
    + done.
    + by intros a w [Hw _].
    + by intros e w [Hw _].
  - intros r. by apply triple_ret.
Qed.

Lemma triple_read_checkpoint v :
  triple (fun w => kept_inv w /\ is_Some (dt_checkpoints (table_in w) !! v)) (try_ (read_checkpoint v))
    (fun r w => kept_inv w /\ exists ck, r = Ok ck /\ dt_checkpoints (table_in w) !! v = Some ck)
    (fun _ => kept_inv) kept_inv.
Proof.
  apply triple_try. unfold read_checkpoint. apply (triple_external delta_fault_ok).
  - intros w ev [Hw _]. by apply kept_inv_ok.
  - intros w ev rest [Hw Hck] Hev. split; [by apply kept_inv_advance|done].
  - intros w [Hw [ck Hck]]. unfold mbind, get. simpl. rewrite Hck. simpl. split; [done|]. by exists ck.
  - done.
  - done.
  - by intros w [? _].
  - by intros a w [? _].
  - by intros e w [? _].
Qed.

Lemma triple_scan base start :
  triple (fun w => kept_inv w /\ (start <= length (dt_log (table_in w)))%nat /\
                   base = replay (Some app) empty_replay (take start (dt_log (table_in w))))
    (external ReadLog
      (do! w <- get;
       let commits := drop start (dt_log (table_in w)) in
       let '(live, trustworthy, committed) := replay (Some app) base commits in
       ret {| ls_next_version := (start + length commits)%nat;
              ls_live_files := if trustworthy : bool then Some live else None;
              ls_committed_txn := committed |}))
    (fun st w => kept_inv w /\ read_complete st w)
    (fun _ => kept_inv) kept_inv.
Proof.
  apply (triple_external delta_fault_ok).
  - intros w ev [Hw _]. by apply kept_inv_ok.
  - intros w ev rest (Hw & Hlen & Hb) Hev. split_and!; [by apply kept_inv_advance| |]; unfold table_in in *; simpl.
    + rewrite length_app. lia.
    + by rewrite take_app_le by lia.
  - intros w (Hw & Hlen & Hb). unfold mbind, get. rewrite Hb, <-replay_app, take_drop.
    destruct (replay (Some app) empty_replay (dt_log (table_in w))) as [[live t] c] eqn:Er.
    simpl. split; [done|]. split; simpl; [rewrite length_drop; lia|by rewrite Er].
  - by intros e w _ [? _].
  - by intros e a w _ [? _].
  - by intros w [? _].
  - by intros a w [? _].
  - done.
Qed.

Lemma log_state_read_spec :
  triple kept_inv (log_state_read (Some app))
    (fun st w => kept_inv w /\ read_complete st w) (fun _ => kept_inv) kept_inv.
Proof.
  unfold log_state_read. eapply triple_bind; [apply triple_last_checkpoint|]. intros [v|].
  - apply (triple_bind _ _ _ (fun base w => kept_inv w /\ (S v <= length (dt_log (table_in w)))%nat /\
      base = replay (Some app) empty_replay (take (S v) (dt_log (table_in w))))); [|intros base; apply triple_scan].
    apply (triple_bind _ _ _ (fun r w => kept_inv w /\
      exists ck, r = Ok ck /\ dt_checkpoints (table_in w) !! v = Some ck)).
    + eapply triple_conseq; [apply (triple_read_checkpoint v)|..];
        [|exact (fun _ _ H => H)|exact (fun _ _ H => H)|exact (fun _ H => H)].
      intros w [Hw Hh]. split; [done|]. by apply Hh.
    + intros r. apply triple_ret. intros w (Hw & ck & -> & Hck).
      destruct Hw as [Hst Hk]. pose proof Hst as (_ & [_ Hcks] & _).
      destruct (Hcks v ck Hck) as [Hlen Heq]. split; [done|]. split; [lia|done].
  - apply (triple_bind _ _ _ (fun base w => kept_inv w /\ (0 <= length (dt_log (table_in w)))%nat /\
      base = replay (Some app) empty_replay (take 0 (dt_log (table_in w))))); [|intros base; apply triple_scan].
    apply triple_ret. intros w [Hw _]. split; [done|]. split; [lia|]. by rewrite take_0.
Qed.
End Read.

Lemma read_complete_sync st w wr :
  read_complete st w -> dw_app_id wr = Some app ->
  dw_next_version wr = ls_next_version st -> dw_live_files wr = ls_live_files st ->
  dw_committed_txn wr = ls_committed_txn st -> writer_sync app (st_durable w) wr.
Proof.
  intros [Hn Hv] Hid H1 H2 H3. unfold table_in in *. split_and!; rewrite ?H1, ?H2, ?H3, ?Hn; [done|lia| |].
  - by rewrite take_ge by lia.
  - by rewrite drop_ge by lia.
Qed.

Lemma open_writer_spec L :
  triple (store_inv L) (open_writer (Some app) checkpoint_interval)
    (fun wr w => store_inv L w /\ writer_sync app (st_durable w) wr)
    (fun _ => store_inv L) (store_inv L).
Proof.
  apply (triple_conseq _ _ (kept_inv L (fun _ => True)) _
    (fun wr w => kept_inv L (fun _ => True) w /\ writer_sync app (st_durable w) wr) _
    (fun _ => kept_inv L (fun _ => True)) _ (kept_inv L (fun _ => True))).
  - unfold open_writer. eapply triple_bind; [by apply log_state_read_spec|]. intros st. apply triple_ret.
    intros w [Hw Hr]. split; [done|]. by eapply read_complete_sync.
  - by intros w Hw.
  - by intros wr w [[? _] ?].
  - by intros e w [? _].
  - by intros w [? _].
Qed.

(** ** Committing *)

(** The log ends with our commit, made on top of the view the writer holds. *)
Definition just_committed (L : list (Z * list RecordBatch)) (body : nat -> Commit)
    (v : nat) (w : WriterWorld) : Prop :=
  exists pre,
    Forall ok (st_script (sw_store w)) /\ table_ok app (table_of w) /\
    dt_log (table_of w) = pre ++ [body v] /\ length pre = v /\ app_log app pre = L /\
    dw_app_id (sw_handle w) = Some app /\
    (dw_live_files (sw_handle w), dw_committed_txn (sw_handle w)) = view (replay (Some app) empty_replay pre).

Lemma just_committed_store L body entries v w :
  (forall v, commit_entries app (body v) = entries) ->
  just_committed L body v w -> store_inv (L ++ entries) (sw_store w).
Proof.
  intros Hent (pre & Hs & Ht & Hlog & Hlen & HL & _). split_and!; [done|done|].
  unfold delta_log, table_of, durable in *. rewrite Hlog, app_log_app, HL. simpl.
  by rewrite app_nil_r, Hent.
Qed.

Lemma put_commit_spec L wr body entries :
  (forall v, commit_entries app (body v) = entries) ->
  triple (fun w => writer_inv L w /\ sw_handle w = wr)
    (put_commit (dw_next_version wr) (body (dw_next_version wr)))
    (fun created w => if created : bool then just_committed L body (dw_next_version wr) w
                      else writer_inv L w)
    (fun _ => writer_inv L)
    (fun w => store_inv L (sw_store w) \/ store_inv (L ++ entries) (sw_store w)).
Proof.
  intros Hent. apply (triple_external delta_fault_ok).
  - intros w ev [[Hst _] _]. by apply (store_inv_ok L).
  - intros w ev rest [Hw Hh] Hev. split; [by apply writer_inv_advance|done].
  - intros w [Hw Hh]. unfold mbind, get. case_decide as Hlt; [done|]. cbn [modify ret].
    destruct Hw as [(Hs & Ht & HL) (Hid & Hn & Hv & Hd)]. rewrite Hh in *. unfold delta_log, table_in, table_of, durable in *.
    exists (dt_log (ds_table (st_durable (sw_store w)))). cbn.
    split_and!; [done|by apply table_ok_grow|done|lia|done|by rewrite Hh|].
    rewrite Hh, Hv. by rewrite take_ge by lia.
  - by intros e w _ [? _].
  - done.
  - intros w [[? _] _]. by left.
  - intros [] w Hw; [right; by eapply just_committed_store|]. left. by destruct Hw.
  - intros _ w [? _]. by left.
Qed.

Lemma sync_stable wr : stable (fun d => writer_sync app d wr).
Proof. intros d cs Hcs Hsy. by apply writer_sync_grow. Qed.

(** The view is refreshed after a lost version race. *)
Lemma reread_spec L :
  triple (writer_inv L)
    (do! st <- in_store (log_state_read (Some app));
     update_writer (with_view (ls_next_version st) (ls_live_files st) (ls_committed_txn st)))
    (fun _ => writer_inv L) (fun _ => writer_inv L) (fun w => store_inv L (sw_store w)).
Proof.
  apply (triple_bind _ _ _ (fun st w => store_inv L (sw_store w) /\ dw_app_id (sw_handle w) = Some app
                                       /\ read_complete st (sw_store w))).
  - apply triple_zoom. intros w [Hst Hsy].
    eapply triple_conseq; [apply (log_state_read_spec L (fun d => writer_sync app d (sw_handle w))), sync_stable|..].
    + by intros st ->.
    + intros st w' [[Hw' _] Hr]. split; [done|]. split; [|done]. by destruct Hsy.
    + by intros e w' Hw'.
    + by intros w' [Hw' _].
  - intros st. apply triple_modify. intros w (Hw & Hid & Hr). split; [done|].
    by eapply read_complete_sync.
Qed.

(** [in_store] then [update_writer], continued. *)
Lemma reread_then_spec {A} L (k : M WriterWorld A) Q F C :
  triple (writer_inv L) k Q F C ->
  (forall e w, writer_inv L w -> F e w) -> (forall w, store_inv L (sw_store w) -> C w) ->
  triple (writer_inv L)
    (do! st <- in_store (log_state_read (Some app));
     run! update_writer (with_view (ls_next_version st) (ls_live_files st) (ls_committed_txn st)); k) Q F C.
Proof.
  intros Hk HF HC w Hw. pose proof (reread_spec L w Hw) as Hr. unfold mbind in *.
  destruct (in_store (log_state_read (Some app)) w) as [[st|e|] w1]; [|by apply HF|by apply HC].
  destruct (update_writer _ w1) as [[[]|e|] w2]; [by apply Hk|by apply HF|by apply HC].
Qed.

Lemma commit_inner_spec L files id n :
  let body v := render_commit_with_removes v files [] (stamp app id) in
  triple (writer_inv L) (commit_inner n files (stamp app id) false)
    (just_committed L body)
    (fun _ => writer_inv L)
    (fun w => store_inv L (sw_store w) \/ store_inv (L ++ [(id, files ≫= af_content)]) (sw_store w)).
Proof.
  intros body. induction n as [|n IH]; [by apply triple_throw|]. cbn [commit_inner].
  apply (triple_bind _ _ _ (fun wr w => writer_inv L w /\ sw_handle w = wr /\ dw_app_id wr = Some app)).
  { intros w Hw. split; [done|]. split; [done|]. apply Hw. }
  intros wr. apply (triple_bind _ _ _ (fun removes w => (writer_inv L w /\ sw_handle w = wr)
                                                        /\ dw_app_id wr = Some app /\ removes = [])).
  { apply triple_ret. by intros w (? & ? & ?). }
  intros removes. apply triple_pure. intros [Hid ->].
  apply (triple_bind _ _ _ (fun created w => if created : bool then just_committed L body (dw_next_version wr) w
                                             else writer_inv L w)).
  { apply triple_map_err, (put_commit_spec L wr body). intros v. apply commit_entries_render. }
  intros []; [by apply triple_ret|]. apply triple_if; [|by intros _; apply triple_throw].
  intros _. rewrite Hid. apply reread_then_spec; [done|done|]. intros w ?. by left.
Qed.

(** ** Data files and checkpoints *)

Lemma triple_writer_call {A} L c (op : M WriterWorld A) (Q : A -> WriterWorld -> Prop) :
  triple (writer_inv L) op Q (fun _ => writer_inv L) (writer_inv L) ->
  (forall a w, Q a w -> writer_inv L w) ->
  triple (writer_inv L) (external c op) Q (fun _ => writer_inv L) (writer_inv L).
Proof.
  intros Hop HQ. apply (triple_external delta_fault_ok); eauto using writer_inv_advance.
  intros s ev [Hst _]. by apply (store_inv_ok L).
Qed.

Lemma write_data_files_spec L batches prefix :
  triple (writer_inv L) (write_data_files encoded_size batches prefix)
    (fun files w => writer_inv L w /\ (total_rows batches <> 0%nat -> files ≫= af_content = batches))
    (fun _ => writer_inv L) (writer_inv L).
Proof.
  unfold write_data_files.
  apply (triple_bind _ _ _ (fun _ => writer_inv L)); [by intros w|]. intros wr.
  apply (triple_bind _ _ _ (fun files w => writer_inv L w /\ (total_rows batches <> 0%nat -> files ≫= af_content = batches))).
  - apply triple_if; intros Hr.
    + apply triple_ret. intros w Hw. split; [done|]. intros Hne. by apply Nat.eqb_eq in Hr.
    + apply (triple_bind _ _ _ (fun _ => writer_inv L)).
      * apply triple_map_err, triple_writer_call; [by apply triple_ret|done].
      * intros _. apply triple_ret. intros w Hw. split; [done|]. intros _. simpl. by rewrite app_nil_r.
  - intros files. apply (triple_bind _ _ _ (fun _ w => writer_inv L w /\ (total_rows batches <> 0%nat -> files ≫= af_content = batches))).
    + by apply triple_modify.
    + intros _. by apply triple_ret.
Qed.

Definition at_version (L : list (Z * list RecordBatch)) (version : nat) (w : WriterWorld) : Prop :=
  writer_inv L w /\ dw_next_version (sw_handle w) = S version.

Lemma at_version_advance L v w ev rest :
  at_version L v w -> script w = ev :: rest -> at_version L v (advance ev rest w).
Proof. intros [Hw Hv] Hev. split; [by apply writer_inv_advance|done]. Qed.

Lemma put_checkpoint_inv L version live w :
  at_version L version w -> dw_live_files (sw_handle w) = Some live ->
  let ck := {| ck_files := live;
               ck_txn := match dw_app_id (sw_handle w), dw_committed_txn (sw_handle w) with
                         | Some a, Some v => Some {| txn_app_id := a; txn_version := v |}
                         | _, _ => None
                         end |} in
  writer_inv L (set_table {| dt_log := dt_log (table_of w);
                dt_checkpoints := <[version := ck]> (dt_checkpoints (table_of w));
                dt_last_checkpoint := dt_last_checkpoint (table_of w) |} w).
Proof.
  intros [[(Hs & [Hh Hck] & HL) Hsy] Hv] Hlive ck. split; [|done]. split; [done|]. split; [|done].
  split; cbn.
  - intros v Hv'. rewrite lookup_insert. case_decide; [done|]. by apply Hh.
  - intros v c. rewrite lookup_insert. case_decide as Heq.
    + intros [= <-]. subst v. split.
      * destruct Hsy as (_ & Hn & _). unfold table_of. lia.
      * by apply checkpoint_ok; [done|split|done|].
    + by apply Hck.
Qed.

Lemma put_hint_inv L version w :
  writer_inv L w -> is_Some (dt_checkpoints (table_of w) !! version) ->
  writer_inv L (set_table {| dt_log := dt_log (table_of w); dt_checkpoints := dt_checkpoints (table_of w);
                                 dt_last_checkpoint := Some version |} w).
Proof.
  intros [(Hs & [Hh Hck] & HL) Hsy] Hsome. split; [|done]. split; [done|]. split; [|done].
  split; cbn; [|done]. by intros v [= <-].
Qed.

Lemma write_checkpoint_spec L version :
  triple (at_version L version) (write_checkpoint version)
    (fun _ => writer_inv L) (fun _ => writer_inv L) (writer_inv L).
Proof.
  unfold write_checkpoint.
  apply (triple_bind _ _ _ (fun wr w => at_version L version w /\ sw_handle w = wr)); [by intros w Hw|].
  intros wr. destruct (dw_live_files wr) as [live|] eqn:Hlive; [|by apply triple_ret; intros w [[? _] _]].
  apply (triple_bind _ _ _ (fun _ w => writer_inv L w /\ is_Some (dt_checkpoints (table_of w) !! version))).
  - apply triple_map_err, (triple_external delta_fault_ok).
    + intros w ev [[[Hst _] _] _]. by apply (store_inv_ok L).
    + intros w ev rest [Hw Hh] Hev. split; [by apply at_version_advance|done].
    + apply triple_modify. intros w [Hw Hh]. rewrite <-Hh in *. split; [by apply put_checkpoint_inv|].
      cbn. rewrite lookup_insert_eq. eauto.
    + by intros e w _ [[? _] _].
    + by intros e a w _ [? _].
    + by intros w [[? _] _].
    + by intros a w [? _].
    + done.
  - intros _. apply triple_map_err, (triple_external delta_fault_ok).
    + intros w ev [[Hst _] _]. by apply (store_inv_ok L).
    + intros w ev rest [Hw Hh] Hev. split; [by apply writer_inv_advance|done].
    + apply triple_modify. intros w [Hw Hh]. by apply put_hint_inv.
    + by intros e w _ [? _].
    + done.
    + by intros w [? _].
    + done.
    + done.
Qed.

Lemma maybe_checkpoint_spec L version F :
  triple (at_version L version) (maybe_checkpoint version)
    (fun _ => writer_inv L) F (writer_inv L).
Proof.
  unfold maybe_checkpoint.
  apply (triple_bind _ _ _ (fun _ => at_version L version)); [by intros w Hw|]. intros wr.
  apply triple_if; intros _; [by apply triple_ret; intros w [? _]|].
  apply (triple_bind _ _ _ (fun _ => writer_inv L)); [apply triple_try, write_checkpoint_spec|].
  intros []; by apply triple_modify.
Qed.

(** ** The sink's write *)

Lemma after_commit_inv L files id v w :
  Forall (fun u => u < id) L.*1 ->
  just_committed L (fun v => render_commit_with_removes v files [] (stamp app id)) v w ->
  at_version (L ++ [(id, files ≫= af_content)]) v
    (set_handle (after_commit v (stamp app id) ((fun live => live ++ files) <$> dw_live_files (sw_handle w)) (sw_handle w)) w).
Proof.
  intros Hlt Hj. split; [|done]. split.
  - eapply just_committed_store in Hj; [|intros; apply commit_entries_render]. done.
  - destruct Hj as (pre & Hs & Ht & Hlog & Hlen & HL & Hid & Hv). unfold table_of, durable in *.
    split_and!; cbn [set_handle sw_store sw_handle after_commit with_view dw_app_id dw_next_version dw_live_files dw_committed_txn];
      [done|rewrite Hlog, length_app; simpl; lia| |].
    + rewrite Hlog, take_ge by (rewrite length_app; simpl; lia). rewrite replay_app.
      pose proof (replay_txn app empty_replay pre) as Htx. rewrite HL in Htx.
      destruct (replay (Some app) empty_replay pre) as [[l t] c]. simpl in *.
      rewrite replay_append_commit. simpl. injection Hv as -> _. subst c.
      f_equal; [by destruct t|]. by rewrite (foldl_raise_lt id).
    + by rewrite Hlog, drop_ge by (rewrite length_app; simpl; lia).
Qed.

Lemma writer_inv_txn L w :
  writer_inv L w ->
  dw_app_id (sw_handle w) = Some app /\ dw_committed_txn (sw_handle w) = max_txn L.*1.
Proof.
  intros [(_ & _ & HL) (Hid & Hn & Hv & Hd)]. split; [done|].
  unfold delta_log, durable in *. rewrite <-(take_drop (dw_next_version (sw_handle w)) (dt_log _)) in HL.
  rewrite app_log_app, Hd, app_nil_r in HL. rewrite <-HL.
  pose proof (replay_txn app empty_replay (take (dw_next_version (sw_handle w)) (dt_log (ds_table (st_durable (sw_store w)))))) as Htx.
  destruct (replay _ _ _) as [[l t] c]. simpl in *. injection Hv as _ ->. done.
Qed.

Lemma append_spec L batches prefix id :
  Forall (fun e => fst e <= id) L ->
  triple (writer_inv L) (append encoded_size batches prefix (Some id))
    (fun _ => writer_inv (record_batch L id batches))
    (fun _ => writer_inv L)
    (fun w => store_inv L (sw_store w) \/ store_inv (record_batch L id batches) (sw_store w)).
Proof.
  intros Hle. unfold append.
  apply (triple_bind _ _ _ (fun wr w => writer_inv L w /\ (dw_app_id wr = Some app /\ dw_committed_txn wr = max_txn L.*1))).
  { intros w Hw. split; [done|]. by apply writer_inv_txn. }
  intros wr. apply triple_pure. intros [Hid Htxn]. apply triple_if; intros Hrows.
  { apply Nat.eqb_eq in Hrows. apply triple_ret. intros w Hw. unfold record_batch. by rewrite decide_True by auto. }
  apply Nat.eqb_neq in Hrows. rewrite Htxn. apply triple_if; intros Hrep.
  { apply triple_ret. intros w Hw. unfold record_batch. rewrite decide_True; [done|]. right. by apply replay_elem. }
  assert (id ∉ L.*1) as Hnew.
  { intros Hin. apply not_true_iff_false in Hrep. apply Hrep. apply foldl_raise_max. right. exists id. split; [done|lia]. }
  assert (record_batch L id batches = L ++ [(id, batches)]) as ->.
  { unfold record_batch. rewrite decide_False; [done|tauto]. }
  assert (txn_of wr (Some id) = stamp app id) as -> by (unfold txn_of; by rewrite Hid).
  eapply triple_bind.
  { eapply triple_conseq; [apply write_data_files_spec|done|exact (fun _ _ H => H)|done|]. intros w [? _]. by left. }
  intros files. apply triple_pure. intros Hfiles. specialize (Hfiles Hrows).
  eapply triple_bind.
  { eapply triple_conseq; [apply commit_inner_spec|done|exact (fun _ _ H => H)|done|]. by rewrite Hfiles. }
  intros v. apply (triple_bind _ _ _ (fun _ => at_version (L ++ [(id, batches)]) v)).
  { apply triple_modify. intros w Hw. rewrite <-Hfiles. apply after_commit_inv; [|done].
    by apply ids_lt. }
  intros _. apply (triple_bind _ _ _ (fun _ => writer_inv (L ++ [(id, batches)]))).
  - eapply triple_conseq;
      [apply (maybe_checkpoint_spec (L ++ [(id, batches)]) v (fun _ _ => False))|done|done|done|].
    intros w [? _]. by right.
  - intros _. by apply triple_ret.
Qed.

Lemma write_batch_spec L batches id :
  0 <= id <= i_max 64 -> Forall (fun e => fst e <= id) L ->
  triple (writer_inv L) (write_batch uuid encoded_size schema_matches batches id)
    (fun _ => writer_inv (record_batch L id batches))
    (fun _ => writer_inv L)
    (fun w => store_inv L (sw_store w) \/ store_inv (record_batch L id batches) (sw_store w)).
Proof.
  intros Hid Hle. unfold write_batch.
  assert (wraps 64 id = id) as ->.
  { apply wraps_small; [|lia]. unfold i_ok, i_min, i_max in *. lia. }
  apply triple_if; intros Hrows.
  { apply Nat.eqb_eq in Hrows. apply triple_ret. intros w Hw. unfold record_batch. by rewrite decide_True by auto. }
  apply triple_if; intros _; [by apply triple_throw|].
  apply (triple_bind _ _ _ (fun _ => writer_inv L)).
  { intros w Hw. destruct (new_file_prefix uuid w) as [o w'] eqn:En. injection En as <- <-. done. }
  intros prefix. eapply triple_bind; [by apply append_spec|]. intros c.
  apply triple_if; intros _; [by apply triple_ret|].
  apply (triple_bind _ _ _ (fun _ => writer_inv (record_batch L id batches))); [|intros _; by apply triple_ret].
  apply triple_try. eapply triple_conseq.
  - apply (triple_writer_call (record_batch L id batches) PublishIceberg (ret tt)
             (fun _ => writer_inv (record_batch L id batches))); [by apply triple_ret|done].
  - done.
  - done.
  - done.
  - intros w [? _]. by right.
Qed.
End Events.

(** The Delta sink as the scheduler sees it. *)
#[export] Instance delta_sink : Sink E DeltaStore DeltaTableWriter := {|
  sink_open app := open_writer (Some app) checkpoint_interval;
  sink_write := write_batch uuid encoded_size schema_matches |}.

#[export] Instance delta_idempotent : IdempotentSink.
Proof.
  refine {| snk_event_ok := delta_event_ok;
            snk_ok app d := table_ok app (ds_table d);
            snk_log := delta_log;
            snk_sync := writer_sync |}.
  - intros app ok Hok L. eapply triple_conseq; [apply (open_writer_spec app ok Hok L)|..].
    + by intros w Hw.
    + by intros wr w [(? & ? & ?) ?].
    + by intros e w Hw.
    + by intros w Hw.
  - intros app ok Hok L bs id Hid Hle. eapply triple_conseq; [apply (write_batch_spec app ok Hok L bs id Hid Hle)|..].
    + by intros w (? & ? & ? & ?).
    + by intros n w [(? & ? & ?) ?].
    + by intros e w [(? & ? & ?) ?].
    + intros w [(? & ? & ?)|(? & ? & ?)]; auto.
Defined.

End DeltaSpec.
