(* ===== verification/Scheduler.v ===== *)
(** * Scheduler: micro-batches, recovery and restart
    (oxidant-streaming/src/scheduler.rs, oxidant-connect/src/streaming.rs)

    [run_batch] is one trigger of a query: plan, record the plan, read,
    transform, write to the sink, record the commit, checkpoint.  [start]
    brings a query up over an existing checkpoint.  [step] is what happens to
    a deployment: a trigger fires, the query is started (again), or the world
    changes.  Every durable write and every external read can fail or be the
    last thing the process does. *)

From S2P Require Import Prelude Text Arrow Watermark Dedup Source Checkpoint Effects Sink Delta.

(** [RETRY_ATTEMPTS] and [is_retryable]. *)
Definition RETRY_ATTEMPTS : nat := 4.
Definition is_retryable (e : Error) : bool := match e with Io _ => true | _ => false end.

(** [with_retry!]: the first attempt and [RETRY_ATTEMPTS - 1] more. *)
Definition with_retry {S A} (op : M S A) : M S A := retry_loop is_retryable op (RETRY_ATTEMPTS - 1).

(** [retry_backoff], in milliseconds. *)
Definition retry_backoff (attempt : Z) : Z := Z.shiftl 200 (Z.min attempt 5).

Inductive ExpectationAction := Warn | Fail.
Record StreamExpectation := { ex_label : str; ex_check : str; ex_action : ExpectationAction }.

Section Scheduler.
Context `{Arrow} {SEnv St : Type} `{!Source SEnv St} {E D H' : Type} `{!SinkEnv E D} `{!Sink E D H'}.

(** How the world at an external call looks to the source, and which of the
    deletes of a pruning pass take effect. *)
Variable src_env : E -> SEnv.
Variable del_ok : E -> bool -> Z -> bool.

(** The counting query of an expectation. *)
Variable sql_violations : str -> list RecordBatch -> result Error Z.

(** The parts of [StreamQueryConfig] and [StartOptions] a batch depends on;
    the pipeline is the plan and the conformance to its output schema. *)
Record QueryConfig := {
  qc_pipeline : option (list RecordBatch -> result Error (list RecordBatch));
  qc_watermark : option WatermarkConfig;
  qc_dedup_columns : list str;
  qc_expectations : list StreamExpectation;
  qc_source : St;
}.
Variable cfg : QueryConfig.

(** [QueryProgress], the counted part. *)
Record QueryProgress := { qp_batch_id : Z; qp_num_input_rows : nat; qp_num_output_rows : nat }.

(** [ManagedQuery]: the observable [StreamingQuery] and the [QueryRuntime]. *)
Record Query := {
  q_id : StreamingQueryId;
  q_batch_id : Z;
  q_is_active : bool;
  q_is_data_available : bool;
  q_message : str;
  q_last_progress : option QueryProgress;
  rt_source : St;
  rt_sink : H';
  rt_tracker : WatermarkTracker;
  rt_dedup : option DedupState;
  rt_dedup_key_cols : list nat;
}.

(** What outlives the process, and the script of what is to come. *)
Record Base := {
  b_script : list (event E);
  b_env : E;
  b_store : CheckpointStore;
  b_durable : D;
}.
Record Sys := { sy_base : Base; sy_query : Query }.

Definition advance_base (ev : event E) (rest : list (event E)) (b : Base) : Base :=
  {| b_script := rest; b_env := ev_env ev; b_store := b_store b; b_durable := b_durable b |}.
#[export] Instance base_scripted : Scripted E Base := {| script := b_script; advance := advance_base |}.
#[export] Instance sys_scripted : Scripted E Sys := {|
  script s := b_script (sy_base s);
  advance ev rest s := {| sy_base := advance_base ev rest (sy_base s); sy_query := sy_query s |} |}.

Definition set_store (f : CheckpointStore -> CheckpointStore) (b : Base) : Base :=
  {| b_script := b_script b; b_env := b_env b; b_store := f (b_store b); b_durable := b_durable b |}.
Definition on_base (f : Base -> Base) (s : Sys) : Sys := {| sy_base := f (sy_base s); sy_query := sy_query s |}.
Definition on_query (f : Query -> Query) (s : Sys) : Sys := {| sy_base := sy_base s; sy_query := f (sy_query s) |}.
Definition in_base {A} (m : M Base A) : M Sys A :=
  zoom sy_base (fun b s => {| sy_base := b; sy_query := sy_query s |}) m.

(** *** Field updates *)

Definition with_status (active data : bool) (msg : str) (q : Query) : Query := {|
  q_id := q_id q; q_batch_id := q_batch_id q; q_is_active := active; q_is_data_available := data;
  q_message := msg; q_last_progress := q_last_progress q; rt_source := rt_source q; rt_sink := rt_sink q;
  rt_tracker := rt_tracker q; rt_dedup := rt_dedup q; rt_dedup_key_cols := rt_dedup_key_cols q |}.
Definition with_source (s : St) (q : Query) : Query := {|
  q_id := q_id q; q_batch_id := q_batch_id q; q_is_active := q_is_active q; q_is_data_available := q_is_data_available q;
  q_message := q_message q; q_last_progress := q_last_progress q; rt_source := s; rt_sink := rt_sink q;
  rt_tracker := rt_tracker q; rt_dedup := rt_dedup q; rt_dedup_key_cols := rt_dedup_key_cols q |}.
Definition with_sink (h : H') (q : Query) : Query := {|
  q_id := q_id q; q_batch_id := q_batch_id q; q_is_active := q_is_active q; q_is_data_available := q_is_data_available q;
  q_message := q_message q; q_last_progress := q_last_progress q; rt_source := rt_source q; rt_sink := h;
  rt_tracker := rt_tracker q; rt_dedup := rt_dedup q; rt_dedup_key_cols := rt_dedup_key_cols q |}.
Definition with_operators (t : WatermarkTracker) (d : option DedupState) (keys : list nat) (q : Query) : Query := {|
  q_id := q_id q; q_batch_id := q_batch_id q; q_is_active := q_is_active q; q_is_data_available := q_is_data_available q;
  q_message := q_message q; q_last_progress := q_last_progress q; rt_source := rt_source q; rt_sink := rt_sink q;
  rt_tracker := t; rt_dedup := d; rt_dedup_key_cols := keys |}.
Definition with_progress (p : QueryProgress) (q : Query) : Query := {|
  q_id := q_id q; q_batch_id := qp_batch_id p; q_is_active := q_is_active q; q_is_data_available := true;
  q_message := q_message q; q_last_progress := Some p; rt_source := rt_source q; rt_sink := rt_sink q;
  rt_tracker := rt_tracker q; rt_dedup := rt_dedup q; rt_dedup_key_cols := rt_dedup_key_cols q |}.

(** *** Calls on the source and the sink *)

Definition plan_op : M Sys BatchRange := fun s =>
  let '(r, st) := plan_batch (src_env (b_env (sy_base s))) (rt_source (sy_query s)) in
  lift_result r (on_query (with_source st) s).
Definition poll_op (range : BatchRange) : M Sys (list RecordBatch) := fun s =>
  let '(r, st) := poll_range (src_env (b_env (sy_base s))) (rt_source (sy_query s)) range in
  lift_result r (on_query (with_source st) s).

Definition look_sink (s : Sys) : SinkWorld E D H' :=
  {| sw_store := {| st_script := b_script (sy_base s); st_durable := b_durable (sy_base s) |};
     sw_handle := rt_sink (sy_query s) |}.
Definition put_sink (w : SinkWorld E D H') (s : Sys) : Sys :=
  {| sy_base := {| b_script := st_script (sw_store w); b_env := b_env (sy_base s);
                   b_store := b_store (sy_base s); b_durable := st_durable (sw_store w) |};
     sy_query := with_sink (sw_handle w) (sy_query s) |}.
Definition sink_op (batches : list RecordBatch) (batch_id : Z) : M Sys nat :=
  zoom look_sink put_sink (sink_write batches batch_id).

(** ** The operators between source and sink *)

(** The pipeline: [execute_logical_plan] and the cast to the output schema. *)
Definition run_pipeline (batches : list RecordBatch) : M Sys (list RecordBatch) :=
  match qc_pipeline cfg with
  | Some f => external ExecutePlan (lift_result (f batches))
  | None => ret batches
  end.

(** The watermark moves with the data of this batch; records behind the one
    before it are counted for the log and kept. *)
Definition run_watermark (batches : list RecordBatch) (q : Query) : Query :=
  match qc_watermark cfg with
  | Some wm => with_operators (snd (observe wm (rt_tracker q) batches)) (rt_dedup q) (rt_dedup_key_cols q) q
  | None => q
  end.

(** The [if rt.dedup.is_some()] block: filter against the keys seen, then
    forget what the watermark has passed. *)
Definition run_dedup (batches : list RecordBatch) (q : Query) : result Error (list RecordBatch) * Query :=
  match rt_dedup q with
  | None => (Ok batches, q)
  | Some dedup =>
      let keys :=
        match rt_dedup_key_cols q, batches with
        | [], b :: _ => resolve_key_columns b (qc_dedup_columns cfg)
        | ks, _ => Ok ks
        end in
      match keys with
      | Err e => (Err e, q)
      | Ok keys =>
          let event_time_col :=
            qc_watermark cfg ≫= (fun wm => head batches ≫= (fun b => index_of b (event_time_column wm))) in
          match dedup_batches dedup batches keys event_time_col with
          | (Err e, d) => (Err e, with_operators (rt_tracker q) (Some d) keys q)
          | (Ok out, d) =>
              let d := match qc_watermark cfg, rt_tracker q with
                       | Some wm, Some m => expire d (watermark_for wm m)
                       | _, _ => d
                       end in
              (Ok out, with_operators (rt_tracker q) (Some d) keys q)
          end
      end
  end.

Definition operators_op (batches : list RecordBatch) : M Sys (list RecordBatch) := fun s =>
  let '(r, q) := run_dedup batches (run_watermark batches (sy_query s)) in
  lift_result r {| sy_base := sy_base s; sy_query := q |}.

(** [count_violations]. *)
Definition count_violations (batches : list RecordBatch) (check : str) : M Sys Z :=
  match batches with
  | [] => ret 0
  | _ => external CountViolations (lift_result (rmap (Z.max 0) (sql_violations check batches)))
  end.

(** The expectation loop: a failed [Fail] check stops the batch before the
    sink is written. *)
Fixpoint run_expectations (es : list StreamExpectation) (batches : list RecordBatch) (batch_id : Z) : M Sys unit :=
  match es with
  | [] => ret tt
  | e :: es =>
      do! violations <- count_violations batches (ex_check e);
      if violations =? 0 then run_expectations es batches batch_id
      else match ex_action e with
           | Warn => run_expectations es batches batch_id
           | Fail =>
               throw (Execution (fmt [lit "expectation `"; ex_label e; lit "` failed on batch "; show_u batch_id;
                 lit ": "; show_u violations; lit " record(s) do not satisfy `"; ex_check e;
                 lit "`; the table is unchanged"]))
           end
  end.

(** What happens to the records of a batch that has some. *)
Definition process_records (batches : list RecordBatch) (batch_id : Z) : M Sys nat :=
  do! out <- run_pipeline batches;
  do! out <- operators_op out;
  run! run_expectations (qc_expectations cfg) out batch_id;
  with_retry (sink_op out batch_id).

(** ** One micro-batch *)

(** An [std::io::Error] of the checkpoint store, put in context. *)
Definition io_context (what : str) (e : Error) : Error := Io (what ++ error_message e).

(** The recorded range of this batch id, or a new one, recorded before
    anything is read.  [None]: nothing to do. *)
Definition planned_range (batch_id : Z) : M Sys (option BatchRange) :=
  do! planned <- map_err (io_context (lit "streaming checkpoint: reading the planned range: "))
    (external LoadPlanned (do! s <- get; ret (load_planned batch_id (b_store (sy_base s)))));
  match planned with
  | Some range => ret (Some range)
  | None =>
      do! range <- with_retry (external SourcePlan plan_op);
      if range_is_empty range then
        run! modify (on_query (fun q => with_status (q_is_active q) false (q_message q) q));
        ret None
      else
        run! map_err (io_context (lit "streaming checkpoint: recording batch: "))
          (external SavePlanned (modify (on_base (set_store (save_planned batch_id range)))));
        ret (Some range)
  end.

(** The checkpoint the batch leaves behind, before pruning. *)
Definition next_state (q : Query) (batch_id : Z) (offsets : option SourceOffsets) (ck : CheckpointState) : CheckpointState := {|
  cs_query_id := cs_query_id ck;
  cs_run_id := cs_run_id ck;
  cs_batch_id := batch_id;
  cs_source_offsets := offsets;
  cs_committed_batch_id := batch_id;
  cs_watermark_micros :=
    match qc_watermark cfg, rt_tracker q with
    | Some wm, Some m => watermark_for wm m
    | _, _ => cs_watermark_micros ck
    end;
  cs_max_event_time_micros := rt_tracker q;
  cs_dedup_state := rt_dedup q;
  cs_pruned_through := cs_pruned_through ck |}.

Definition with_pruned (n : Z) (ck : CheckpointState) : CheckpointState := {|
  cs_query_id := cs_query_id ck; cs_run_id := cs_run_id ck; cs_batch_id := cs_batch_id ck;
  cs_source_offsets := cs_source_offsets ck; cs_committed_batch_id := cs_committed_batch_id ck;
  cs_watermark_micros := cs_watermark_micros ck; cs_max_event_time_micros := cs_max_event_time_micros ck;
  cs_dedup_state := cs_dedup_state ck; cs_pruned_through := n |}.

Definition prune_op (pruned_through batch_id : Z) : M Sys Z := fun s =>
  let '(n, st) := prune_log (del_ok (b_env (sy_base s))) pruned_through batch_id (b_store (sy_base s)) in
  (Done n, on_base (set_store (fun _ => st)) s).

(** The end of a batch whose rows are durable: commit log, progress, resume
    record. *)
Definition finish_batch (batch_id : Z) (input_rows rows : nat) : M Sys nat :=
  do! s <- get;
  let offsets := committed_offsets (rt_source (sy_query s)) in
  run! map_err (io_context (lit "streaming checkpoint: committing batch: "))
    (external SaveCommit (modify (on_base (set_store (save_commit
       {| bc_batch_id := batch_id; bc_num_output_rows := Z.of_nat rows; bc_resume_position := offsets |})))));
  run! modify (on_query (with_progress
         {| qp_batch_id := batch_id; qp_num_input_rows := input_rows; qp_num_output_rows := rows |}));
  do! ck <- unwrap_or (external LoadState (do! s <- get; ret (load (b_store (sy_base s))))) default_state;
  do! s <- get;
  let ck := next_state (sy_query s) batch_id offsets ck in
  do! pruned <- best_effort PruneLog (prune_op (cs_pruned_through ck) batch_id);
  run! map_err (io_context (lit "streaming checkpoint: "))
    (external SaveState (modify (on_base (set_store (save (with_pruned pruned ck))))));
  run! external MarkDurable (ret tt);
  ret input_rows.

(** [run_batch_inner]. *)
Definition run_batch_inner : M Sys nat :=
  do! s <- get;
  let batch_id := wrapu 64 (q_batch_id (sy_query s) + 1) in
  do! range <- planned_range batch_id;
  match range with
  | None => ret 0%nat
  | Some range =>
      do! batches <- with_retry (external SourcePoll (poll_op range));
      let input_rows := total_rows batches in
      do! rows <- (if (input_rows =? 0)%nat then ret 0%nat else process_records batches batch_id);
      finish_batch batch_id input_rows rows
  end.

(** [run_batch]: an inactive query does nothing. *)
Definition run_batch : M Sys nat :=
  do! s <- get;
  if q_is_active (sy_query s) then run_batch_inner else ret 0%nat.

(** ** Draining: [process_all_available] *)

Definition MAX_DRAIN_BATCHES : nat := Z.to_nat 100000.

(** [reached_boundary]. *)
Definition reached_boundary (boundary : option (gmap (list Z) Z)) (q : Query) : bool :=
  match boundary with
  | None => false
  | Some b =>
      match committed_offsets (rt_source q) with
      | None => false
      | Some position =>
          forallb (fun kv => match so_entries position !! fst kv with
                             | Some current => snd kv <=? current
                             | None => false
                             end) (map_to_list b)
      end
  end.

(** [available_now_boundary]. *)
Definition available_now_boundary : M Sys (option (gmap (list Z) Z)) :=
  external SourcePlan (fun s =>
    lift_result (available_end (src_env (b_env (sy_base s))) (rt_source (sy_query s))) s).

(** The drain loop: [fuel] iterations left. *)
Fixpoint drain (fuel : nat) (boundary : option (gmap (list Z) Z)) (total : nat) : M Sys nat :=
  match fuel with
  | O => ret total
  | S fuel =>
      do! boundary <- match boundary with Some b => ret (Some b) | None => available_now_boundary end;
      do! rows <- run_batch;
      if (rows =? 0)%nat then ret total
      else
        do! s <- get;
        if reached_boundary boundary (sy_query s) then ret (total + rows)%nat
        else drain fuel boundary (total + rows)
  end.

Definition process_all_available : M Sys nat := drain MAX_DRAIN_BATCHES None 0.

(** ** Starting a query *)

Definition MAX_RECOVERED : nat := 64.

Definition recovered (next : Z) (resumed : SourceOffsets) (ck : CheckpointState) : CheckpointState := {|
  cs_query_id := cs_query_id ck; cs_run_id := cs_run_id ck; cs_batch_id := next;
  cs_source_offsets := Some resumed; cs_committed_batch_id := next;
  cs_watermark_micros := cs_watermark_micros ck; cs_max_event_time_micros := cs_max_event_time_micros ck;
  cs_dedup_state := cs_dedup_state ck; cs_pruned_through := cs_pruned_through ck |}.

(** The loop of [recover_from_log]. *)
Fixpoint recover_loop (fuel : nat) (ck : CheckpointState) : M Base CheckpointState :=
  match fuel with
  | O => ret ck
  | S fuel =>
      let next := wrapu 64 (cs_committed_batch_id ck + 1) in
      do! commit <- map_err (io_context (lit "streaming checkpoint: reading the commit log: "))
        (external LoadCommit (do! b <- get; ret (load_commit next (b_store b))));
      match commit ≫= bc_resume_position with
      | None => ret ck
      | Some resumed =>
          let ck := recovered next resumed ck in
          run! map_err (io_context (lit "streaming checkpoint: "))
            (external SaveState (modify (set_store (save ck))));
          recover_loop fuel ck
      end
  end.

(** [recover_from_log]. *)
Definition recover_from_log : M Base CheckpointState :=
  do! ck <- unwrap_or (external LoadState (do! b <- get; ret (load (b_store b)))) default_state;
  recover_loop MAX_RECOVERED ck.

(** [CheckpointStore::init_for_query]. *)
Definition init_for_query (id : StreamingQueryId) : M Base unit :=
  do! ck <- unwrap_or (external LoadState (do! b <- get; ret (load (b_store b)))) default_state;
  external SaveState (modify (set_store (save (stamp_run id ck)))).

Definition look_store (b : Base) : StoreWorld E D :=
  {| st_script := b_script b; st_durable := b_durable b |}.
Definition put_store (w : StoreWorld E D) (b : Base) : Base :=
  {| b_script := st_script w; b_env := b_env b; b_store := b_store b; b_durable := st_durable w |}.

(** [start_with_config], for a query whose fresh identity is [id]. *)
Definition start (id : StreamingQueryId) : M Base Query :=
  run! external Probe (ret tt);
  do! restored <- recover_from_log;
  let source := match cs_source_offsets restored with
                | Some o => restore_offsets (qc_source cfg) o
                | None => qc_source cfg
                end in
  let app_id := match cs_query_id restored with [] => qid_id id | q => q end in
  run! external OpenCatalog (ret tt);
  do! sink <- zoom look_store put_store (sink_open app_id);
  run! map_err (io_context (lit "streaming checkpoint is not writable: ")) (init_for_query id);
  ret {| q_id := id;
         q_batch_id := cs_committed_batch_id restored;
         q_is_active := true;
         q_is_data_available := false;
         q_message := lit "initialized";
         q_last_progress := None;
         rt_source := source;
         rt_sink := sink;
         rt_tracker := cs_max_event_time_micros restored;
         rt_dedup := match qc_dedup_columns cfg with [] => None | _ => Some (default ∅ (cs_dedup_state restored)) end;
         rt_dedup_key_cols := [] |}.

(** [fail] and [stop]. *)
Definition fail_query (message : str) (q : Query) : Query :=
  with_status false false (lit "terminated with error: " ++ message) q.
Definition stop_query (q : Query) : Query := with_status false (q_is_data_available q) (lit "stopped") q.

End Scheduler.
