(* ===== verification/ExactlyOnce.v ===== *)
(** * ExactlyOnce: what a deployment leaves in the sink

    A [Machine] is a streaming query under its driver: the durable state and,
    while a process is up, the query in memory.  [exec] runs a command on it:
    a trigger, a drain, a stop, a (re)start, a change of the world.  The
    invariant relates the durable state to the list of ranges ever planned,
    and gives exactly-once delivery for every sequence of commands and every
    script of failures and crashes. *)

From S2P Require Import Prelude Text Arrow Watermark Dedup Source Checkpoint Effects Sink Delta Scheduler.

Section Deployment.
Context `{Arrow} {SEnv St : Type} `{!Source SEnv St} {E D H' : Type} `{!SinkEnv E D} `{!Sink E D H'}.
Variable src_env : E -> SEnv.
Variable del_ok : E -> bool -> Z -> bool.
Variable sql_violations : str -> list RecordBatch -> result Error Z.
Variable cfg : QueryConfig (St := St).

Record Machine := {
  m_env : E;
  m_store : CheckpointStore;
  m_durable : D;
  m_query : option (Query (St := St) (H' := H'));
}.

Inductive command :=
  | CTrigger (sc : list (event E))
  | CDrain (sc : list (event E))
  | CStart (id : StreamingQueryId) (sc : list (event E))
  | CStop
  | CKill
  | CWorld (e : E).

Definition base_of (m : Machine) (sc : list (event E)) : Base (E := E) (D := D) :=
  {| b_script := sc; b_env := m_env m; b_store := m_store m; b_durable := m_durable m |}.
Definition machine_of (b : Base (E := E) (D := D)) (q : option Query) : Machine :=
  {| m_env := b_env b; m_store := b_store b; m_durable := b_durable b; m_query := q |}.

(** The driver of connect/src/streaming.rs: an error marks the query failed,
    and a failed query runs no more batches. *)
Definition after_batch {A} (on_done : Query -> Query) (r : outcome A * Sys (E := E) (D := D)) : Machine :=
  match r with
  | (Done _, s) => machine_of (sy_base s) (Some (on_done (sy_query s)))
  | (Failed e, s) => machine_of (sy_base s) (Some (fail_query (display_error e) (sy_query s)))
  | (Crashed, s) => machine_of (sy_base s) None
  end.

Definition exec (c : command) (m : Machine) : Machine :=
  match c with
  | CTrigger sc =>
      match m_query m with
      | Some q => after_batch id (run_batch src_env del_ok sql_violations cfg {| sy_base := base_of m sc; sy_query := q |})
      | None => m
      end
  | CDrain sc =>
      match m_query m with
      | Some q => after_batch stop_query
                    (process_all_available src_env del_ok sql_violations cfg {| sy_base := base_of m sc; sy_query := q |})
      | None => m
      end
  | CStart id sc =>
      match start cfg id (base_of m sc) with
      | (Done q, b) => machine_of b (Some q)
      | (Failed _, b) | (Crashed, b) => machine_of b None
      end
  | CStop => {| m_env := m_env m; m_store := m_store m; m_durable := m_durable m; m_query := stop_query <$> m_query m |}
  | CKill => {| m_env := m_env m; m_store := m_store m; m_durable := m_durable m; m_query := None |}
  | CWorld e => {| m_env := e; m_store := m_store m; m_durable := m_durable m; m_query := m_query m |}
  end.

Definition exec_all (cs : list command) (m : Machine) : Machine := foldl (fun m c => exec c m) m cs.

End Deployment.
Arguments command E : clear implicits.

Section Invariant.
Context `{Arrow} {SEnv St : Type} `{!Source SEnv St} {P : Type} `{!SourceLaws (Env := SEnv) (St := St) P}.
Context {E D H' : Type} `{!SinkEnv E D} `{!Sink E D H'} `{!IdempotentSink (E := E) (D := D) (H' := H')}.
Variable src_env : E -> SEnv.
Variable del_ok : E -> bool -> Z -> bool.
Variable sql_violations : str -> list RecordBatch -> result Error Z.
Variable cfg : QueryConfig (St := St).

#[local] Abbreviation Sys := (Sys (St := St) (E := E) (D := D) (H' := H')) (only parsing).
#[local] Abbreviation Base := (Base (E := E) (D := D)) (only parsing).

(** ** Specification: the ranges planned and what they put in the sink *)

(** Consecutive ranges: each starts where the one before it ended. *)
Fixpoint chain (p : P) (h : list BatchRange) : Prop :=
  match h with
  | [] => True
  | r :: h => src_from p r /\ chain (src_adv p r) h
  end.
Definition position (h : list BatchRange) : P := foldl src_adv src_start h.

(** What the records of a range become. *)
Definition batch_output (r : BatchRange) : list RecordBatch :=
  match qc_pipeline cfg with
  | None => src_records r
  | Some f => match f (src_records r) with Ok out => out | Err _ => [] end
  end.
Definition sink_entry (n : Z) (r : BatchRange) : list (Z * list RecordBatch) :=
  if decide (total_rows (src_records r) = 0%nat \/ total_rows (batch_output r) = 0%nat) then []
  else [(n, batch_output r)].
(** Each range's output under its batch number, in order. *)
Fixpoint sunk (n : Z) (h : list BatchRange) : list (Z * list RecordBatch) :=
  match h with
  | [] => []
  | r :: h => sink_entry n r ++ sunk (n + 1) h
  end.

Lemma chain_app p h k : chain p (h ++ k) <-> chain p h /\ chain (foldl src_adv p h) k.
Proof. revert p. induction h as [|r h IH]; intros p; simpl; [tauto|]. rewrite IH. tauto. Qed.

Lemma position_ok h : chain src_start h -> src_pos_ok (position h).
Proof.
  unfold position. generalize src_start_ok. generalize src_start.
  induction h as [|r h IH]; intros p Hp Hc; simpl in *; [done|].
  destruct Hc as [Hr Hc]. apply IH; [|done]. by apply src_adv_ok.
Qed.

Lemma position_snoc h r : position (h ++ [r]) = src_adv (position h) r.
Proof. unfold position. by rewrite foldl_app. Qed.

Lemma sunk_app n h k : sunk n (h ++ k) = sunk n h ++ sunk (n + Z.of_nat (length h)) k.
Proof.
  revert n. induction h as [|r h IH]; intros n; simpl; [f_equal; lia|].
  rewrite IH, <-app_assoc. do 3 f_equal. lia.
Qed.

Lemma sunk_ids n h e : e ∈ sunk n h -> n <= fst e < n + Z.of_nat (length h).
Proof.
  revert n. induction h as [|r h IH]; intros n; simpl; [by intros ?%elem_of_nil|].
  rewrite elem_of_app. intros [He|He].
  - unfold sink_entry in He. case_decide; [by apply elem_of_nil in He|].
    apply list_elem_of_singleton in He as ->. simpl. lia.
  - apply IH in He. lia.
Qed.

Lemma sunk_snoc h r n :
  n = Z.of_nat (length h) + 1 -> sunk 1 (h ++ [r]) = sunk 1 h ++ sink_entry n r.
Proof. intros ->. rewrite sunk_app. simpl. rewrite app_nil_r. do 2 f_equal. lia. Qed.

(** Writing the batch of the last range, for the first time or again. *)
Lemma record_sunk h r n :
  n = Z.of_nat (length h) + 1 -> total_rows (src_records r) <> 0%nat ->
  record_batch (sunk 1 h) n (batch_output r) = sunk 1 (h ++ [r]) /\
  record_batch (sunk 1 (h ++ [r])) n (batch_output r) = sunk 1 (h ++ [r]).
Proof.
  intros Hn Hr. rewrite (sunk_snoc h r n Hn). unfold sink_entry, record_batch.
  destruct (decide (total_rows (batch_output r) = 0%nat)) as [Ho|Ho].
  - rewrite !decide_True by auto. by rewrite app_nil_r.
  - rewrite (decide_False (P := total_rows (src_records r) = 0%nat \/ _)) by tauto. split.
    + rewrite decide_False; [done|]. intros [?|Hin]; [done|].
      apply list_elem_of_fmap in Hin as (e & -> & He). apply sunk_ids in He. lia.
    + rewrite decide_True; [done|]. right. rewrite fmap_app. apply elem_of_app. right. left.
Qed.

Lemma sunk_snoc_empty h r :
  total_rows (src_records r) = 0%nat -> sunk 1 (h ++ [r]) = sunk 1 h.
Proof.
  intros Hr. rewrite (sunk_snoc h r _ eq_refl). unfold sink_entry.
  rewrite decide_True by auto. by rewrite app_nil_r.
Qed.

Lemma sunk_le h n : Z.of_nat (length h) <= n -> Forall (fun e => fst e <= n) (sunk 1 h).
Proof. intros Hn. apply Forall_forall. intros e He%sunk_ids. lia. Qed.

(** ** The invariant *)

(** The log entries past the last recorded batch: at most the one in flight. *)
Record log_ok (c : Z) (app : str) (h : list BatchRange) (st : CheckpointStore) (d : D) : Prop := {
  lo_planned n r : planned_log st !! n = Some r -> c < n -> n = c + 1 /\ last h = Some r /\ Z.of_nat (length h) = c + 1;
  lo_pending : Z.of_nat (length h) = c + 1 -> planned_log st !! (c + 1) = last h;
  lo_commit n cm : commit_log st !! n = Some cm -> c < n ->
    n = c + 1 /\ Z.of_nat (length h) = c + 1 /\ bc_resume_position cm = Some (src_enc (position h))
    /\ snk_log app d = sunk 1 h;
}.

(** The durable state after batches [h] were planned and [c] of them
    recorded as committed, under application id [app]. *)
Record durable_ok (c : Z) (app : str) (h : list BatchRange) (st : CheckpointStore) (d : D) : Prop := {
  du_chain : chain src_start h;
  du_count : 0 <= c <= Z.of_nat (length h) /\ Z.of_nat (length h) <= c + 1;
  du_committed : cs_committed_batch_id (load st) = c;
  du_app : cs_query_id (load st) = app;
  du_offsets : cs_source_offsets (load st) = if decide (c = 0) then None else Some (src_enc (position (take (Z.to_nat c) h)));
  du_log : log_ok c app h st d;
  du_sink : app <> [] -> snk_ok app d /\ (snk_log app d = sunk 1 (take (Z.to_nat c) h) \/ snk_log app d = sunk 1 h);
  du_fresh : app = [] -> h = [];
}.

(** The scripts the theorem is about: what the sink tolerates, a readable
    resume record, and an environment the source can rely on. *)
Definition base_fault_ok (c : call) (f : fault) : Prop :=
  match c, f with
  | LoadState, (FailBefore _ | FailAfter _) => False
  | _, _ => True
  end.
Definition event_ok (app : str) (ev : event E) : Prop :=
  snk_event_ok app ev /\ (forall c, base_fault_ok c (ev_fault ev c)) /\ src_env_ok (src_env (ev_env ev)).
Definition script_ok (app : str) (b : Base) : Prop :=
  Forall (event_ok app) (b_script b) /\ src_env_ok (src_env (b_env b)).

(** What every outcome of a command leaves behind; at most [B] batches. *)
Definition recoverable (app : str) (B : Z) (b : Base) : Prop :=
  exists c h, durable_ok c app h (b_store b) (b_durable b) /\ script_ok app b /\ Z.of_nat (length h) <= B.

(** A query between two batches. *)
Definition query_ok (app : str) (n : Z) (p : P) (d : D) (q : Query (St := St) (H' := H')) : Prop :=
  src_inv (rt_source q) /\ src_pos (rt_source q) = p /\ snk_sync app d (rt_sink q) /\ rt_dedup q = None
  /\ q_batch_id q = n.

(** The durable state, and [K] of the query in memory. *)
Definition stage (app : str) (B c : Z) (h : list BatchRange) (K : D -> Query -> Prop) (s : Sys) : Prop :=
  durable_ok c app h (b_store (sy_base s)) (b_durable (sy_base s)) /\ script_ok app (sy_base s) /\
  Z.of_nat (length h) <= B /\ app <> [] /\ K (b_durable (sy_base s)) (sy_query s).

Definition ready (app : str) (B c : Z) (h : list BatchRange) : Sys -> Prop :=
  stage app B c h (query_ok app c (position (take (Z.to_nat c) h))).

Definition stopped (app : str) (B : Z) (s : Sys) : Prop := recoverable app B (sy_base s).

Lemma stage_stopped app B c h K s : stage app B c h K s -> stopped app B s.
Proof. intros (? & ? & ? & _). exists c, h. done. Qed.

Lemma stopped_mono app B B' s : B <= B' -> stopped app B s -> stopped app B' s.
Proof. intros ? (c & h & ? & ? & ?). exists c, h. split_and!; [done..|lia]. Qed.

Lemma script_ok_advance app b ev rest :
  script_ok app b -> b_script b = ev :: rest -> script_ok app (advance_base ev rest b).
Proof.
  intros [Hs He] Hev. rewrite Hev in Hs. apply Forall_cons in Hs as [(? & ? & ?) Hs]. by split.
Qed.

Lemma stage_advance app B c h K s ev rest :
  stage app B c h K s -> script s = ev :: rest -> stage app B c h K (advance ev rest s).
Proof.
  intros (Hd & Hs & Hb & Ha & HK) Hev. split; [done|]. split; [by apply script_ok_advance|done].
Qed.

Lemma stage_fault app B c h K s call ev :
  stage app B c h K s -> ev ∈ script s -> base_fault_ok call (ev_fault ev call).
Proof.
  intros (_ & [Hs _] & _) Hev. rewrite Forall_forall in Hs. apply Hs in Hev as (_ & Hf & _). apply Hf.
Qed.

(** An external call after whose failure the query stops. *)
Lemma triple_call {A} app B B' c h K cl (op : M Sys A) (Q : A -> Sys -> Prop) :
  B <= B' ->
  triple (stage app B c h K) op Q (fun _ => stopped app B') (stopped app B') ->
  (forall a s, Q a s -> stopped app B' s) ->
  triple (stage app B c h K) (external cl op) Q (fun _ => stopped app B') (stopped app B').
Proof.
  intros HB Hop HQ. apply (triple_external base_fault_ok);
    eauto using stage_advance, stage_stopped, stopped_mono.
  intros s ev. apply stage_fault.
Qed.

(** An external call that is retried. *)
Lemma triple_retried {A} app B B' c h K cl (op : M Sys A) (Q : A -> Sys -> Prop) :
  B <= B' ->
  triple (stage app B c h K) op Q (fun _ => stage app B c h K) (stopped app B) ->
  (forall a s, Q a s -> stage app B c h K s) ->
  triple (stage app B c h K) (with_retry (external cl op)) Q (fun _ => stopped app B') (stopped app B').
Proof.
  intros HB Hop HQ.
  apply (triple_conseq _ (stage app B c h K) (stage app B c h K) Q Q _ (fun _ => stopped app B) _ (stopped app B));
    [|done|done|intros e s; by apply stopped_mono|intros s; by apply stopped_mono]. eapply triple_conseq; [apply triple_retry|done|done| |done].
  - apply (triple_external base_fault_ok); [intros s ev; apply stage_fault|intros s ev rest; apply stage_advance|done| | | | |].
    + done.
    + intros e a s _. apply HQ.
    + intros s. apply stage_stopped.
    + intros a s Ha. by eapply stage_stopped, HQ.
    + intros e s. apply stage_stopped.
  - intros e s. apply stage_stopped.
Qed.

(** ** The durable writes keep the invariant *)

Lemma take_count (c : Z) (h : list BatchRange) : Z.of_nat (length h) = c -> take (Z.to_nat c) h = h.
Proof. intros. apply take_ge. lia. Qed.

Lemma take_snoc_count (c : Z) (h : list BatchRange) r : Z.of_nat (length h) = c -> take (Z.to_nat c) (h ++ [r]) = h.
Proof. intros. rewrite take_app_le by lia. by apply take_count. Qed.

(** (1) The offset log: the plan of the next batch. *)
Lemma durable_save_planned c app h st d r :
  durable_ok c app h st d -> Z.of_nat (length h) = c -> app <> [] -> src_from (position h) r ->
  durable_ok c app (h ++ [r]) (save_planned (c + 1) r st) d.
Proof.
  intros [Hch Hct Hcm Hap Hof Hlog Hsk Hfr] Hlen Happ Hfrom. destruct Hlog as [Hlp Hpe Hlc].
  rewrite (take_count c h Hlen) in *.
  split; [..|done]; rewrite ?(take_snoc_count c h r Hlen).
  - apply chain_app. by split; [|split].
  - rewrite length_app. simpl. lia.
  - done.
  - done.
  - done.
  - split; rewrite ?length_app, ?last_snoc; simpl.
    + intros n r'. rewrite lookup_insert. destruct (decide (c + 1 = n)) as [Hn|Hn].
      * intros [= <-] _. split_and!; [lia|done|lia].
      * intros Hp Hcn. apply Hlp in Hp as (? & ? & ?); [lia|done].
    + intros _. apply lookup_insert_eq.
    + intros n cm Hcmt Hcn. apply Hlc in Hcmt as (? & ? & ?); [lia|done].
  - intros Ha. destruct (Hsk Ha) as [Hok Hor]. split; [done|]. left. by destruct Hor.
Qed.

(** (2) The sink. *)
Lemma durable_sink c app h st d d' :
  durable_ok c app h st d -> snk_ok app d' ->
  snk_log app d' = snk_log app d \/ snk_log app d' = sunk 1 h ->
  durable_ok c app h st d'.
Proof.
  intros [Hch Hct Hcm Hap Hof [Hlp Hpe Hlc] Hsk Hfr] Hok Hlog.
  split; [done..| | |done].
  - split; [done|done|]. intros n cm Hn Hcn. destruct (Hlc n cm Hn Hcn) as (? & ? & ? & Hl).
    split_and!; [done..|]. destruct Hlog as [-> | ->]; done.
  - intros Ha. split; [done|]. destruct (Hsk Ha) as [_ Hor]. destruct Hlog as [-> | ->]; auto.
Qed.

(** (3) The commit log. *)
Lemma durable_save_commit c app h st d cm :
  durable_ok c app h st d -> Z.of_nat (length h) = c + 1 -> bc_batch_id cm = c + 1 ->
  bc_resume_position cm = Some (src_enc (position h)) -> snk_log app d = sunk 1 h ->
  durable_ok c app h (save_commit cm st) d.
Proof.
  intros [Hch Hct Hcm Hap Hof [Hlp Hpe Hlc] Hsk Hfr] Hlen Hid Hres Hlog.
  split; [done..| |done|done]. split; [done|done|]. simpl. rewrite Hid.
  intros n cm'. rewrite lookup_insert. destruct (decide (c + 1 = n)) as [Hn|Hn].
  - intros [= <-] _. split_and!; [lia|done..].
  - apply Hlc.
Qed.

(** Pruning removes only entries of batches before the one just committed. *)
Lemma durable_prune c app h st d ok pt n st' :
  durable_ok c app h st d -> prune_log ok pt (c + 1) st = (n, st') -> durable_ok c app h st' d.
Proof.
  intros [Hch Hct Hcm Hap Hof [Hlp Hpe Hlc] Hsk Hfr] Hp.
  apply prune_log_spec in Hp as (Hr & Hlt & Ho & Hkeep & _).
  assert (forall m, c < m -> planned_log st' !! m = planned_log st !! m /\ commit_log st' !! m = commit_log st !! m) as Hk.
  { intros m Hm. apply Hkeep. lia. }
  split; unfold load in *; rewrite ?Ho; [done..| |done|done].
  split.
  - intros m r Hm Hcm'. rewrite (proj1 (Hk m Hcm')) in Hm. by apply Hlp.
  - intros Hl. rewrite (proj1 (Hk (c + 1) ltac:(lia))). by apply Hpe.
  - intros m cm Hm Hcm'. rewrite (proj2 (Hk m Hcm')) in Hm. by apply Hlc.
Qed.

(** (4) The resume record moves to the batch in flight. *)
Lemma durable_save c app h st d ck :
  durable_ok c app h st d -> Z.of_nat (length h) = c + 1 -> snk_log app d = sunk 1 h ->
  cs_committed_batch_id ck = c + 1 -> cs_query_id ck = app ->
  cs_source_offsets ck = Some (src_enc (position h)) ->
  durable_ok (c + 1) app h (save ck st) d.
Proof.
  intros [Hch Hct Hcm Hap Hof [Hlp Hpe Hlc] Hsk Hfr] Hlen Hlog H1 H2 H3.
  split; [done|lia|done|done| | | |done].
  - rewrite decide_False by lia. by rewrite take_count.
  - split; simpl.
    + intros n r Hn Hcn. destruct (Hlp n r Hn ltac:(lia)) as (? & _). lia.
    + lia.
    + intros n cm Hn Hcn. destruct (Hlc n cm Hn ltac:(lia)) as (? & _). lia.
  - intros Ha. split; [by apply Hsk|]. by right.
Qed.

(** ** One micro-batch *)

Section Batch.
Variables (app : str) (B c : Z).
Hypothesis Hc : 0 <= c < i_max 64.
Hypothesis Hdedup : qc_dedup_columns cfg = [].

(** Batch [c + 1] reads [r] on top of [h]; [K] of the query in memory. *)
Definition in_flight (h : list BatchRange) (r : BatchRange) (K : D -> Query -> Prop) (s : Sys) : Prop :=
  stage app (B + 1) c (h ++ [r]) K s /\ Z.of_nat (length h) = c.

Lemma batch_number : wrapu 64 (c + 1) = c + 1.
Proof. apply wrapu_small; [|lia]. unfold u_ok, u_max, i_max in *. lia. Qed.

Lemma stage_widen h K s : stage app B c h K s -> stage app (B + 1) c h K s.
Proof. intros (? & ? & ? & ?). split; [done|]. split; [done|]. split; [lia|done]. Qed.

Lemma plan_op_spec h p :
  triple (stage app B c h (query_ok app c p)) (plan_op src_env)
    (fun r s => stage app B c h (query_ok app c p) s /\ (range_is_empty r = false -> src_from p r))
    (fun _ => stage app B c h (query_ok app c p)) (stopped app B).
Proof.
  intros s (Hd & Hs & Hb & Ha & Hinv & Hpos & Hsy & Hdd & Hid). unfold plan_op.
  destruct (plan_batch _ _) as [res st] eqn:Ep.
  destruct (src_plan _ _ _ _ (proj2 Hs) Hinv Ep) as (Hinv' & Hpos' & Hres).
  assert (stage app B c h (query_ok app c p) (on_query (with_source st) s)) as Hst.
  { split; [done|]. split; [done|]. split; [done|]. split; [done|]. split; [done|]. split; [by simpl; rewrite Hpos'|done]. }
  destruct res as [r|e]; simpl; [|done]. split; [done|]. by rewrite <-Hpos.
Qed.

(** Without a recorded range, every planned batch is committed. *)
Lemma no_pending h s :
  ready app B c h s -> planned_log (b_store (sy_base s)) !! (c + 1) = None -> Z.of_nat (length h) = c.
Proof.
  intros (Hd & _) Hp. destruct (du_count _ _ _ _ _ Hd) as [? ?].
  destruct (decide (Z.of_nat (length h) = c + 1)) as [Hl|]; [|lia].
  pose proof (lo_pending _ _ _ _ _ (du_log _ _ _ _ _ Hd) Hl) as Hlast. rewrite Hp in Hlast.
  symmetry in Hlast. apply last_None in Hlast. subst h. simpl in Hl. lia.
Qed.

Lemma record_plan_spec h r :
  Z.of_nat (length h) = c -> src_from (position h) r ->
  triple (stage app B c h (query_ok app c (position h)))
    (external SavePlanned (modify (on_base (set_store (save_planned (c + 1) r)))))
    (fun _ => in_flight h r (query_ok app c (position h)))
    (fun _ => stopped app (B + 1)) (stopped app (B + 1)).
Proof.
  intros Hlen Hfrom. apply triple_call; [lia| |].
  - apply triple_modify. intros s (Hd & Hs & Hb & Ha & HK). split; [|done]. split.
    { by apply durable_save_planned. }
    split; [done|]. split; [|done]. rewrite length_app. simpl. lia.
  - intros _ s [Hs _]. by eapply stage_stopped.
Qed.

(** The range the batch will read: the recorded one, or a new one that is
    now recorded. *)
Lemma planned_range_spec h :
  triple (ready app B c h) (planned_range src_env (c + 1))
    (fun o s => match o with
                | None => ready app B c h s
                | Some r => let h0 := take (Z.to_nat c) h in in_flight h0 r (query_ok app c (position h0)) s
                end)
    (fun _ => stopped app (B + 1)) (stopped app (B + 1)).
Proof.
  unfold planned_range.
  apply (triple_bind _ _ _ (fun o s => ready app B c h s /\ o = planned_log (b_store (sy_base s)) !! (c + 1))).
  { apply triple_map_err, triple_call; [lia|by intros s Hs|].
    intros a s [Hs _]. by eapply stage_stopped, stage_widen. }
  intros [r|].
  - apply triple_ret. intros s [Hr Hp]. symmetry in Hp. destruct Hr as (Hd & Hr).
    destruct (du_log _ _ _ _ _ Hd) as [Hlp _ _].
    destruct (Hlp _ _ Hp ltac:(lia)) as (_ & Hlast & Hlen).
    apply last_Some in Hlast as [h0 Hh]. subst h. rewrite length_app in Hlen. simpl in Hlen.
    cbn [in_flight]. rewrite take_snoc_count in * by lia.
    split; [|lia]. apply stage_widen. by split.
  - apply (triple_conseq _ _ (fun s => ready app B c h s /\ Z.of_nat (length h) = c) _ (fun o s => match o with
                | None => ready app B c h s
                | Some r => in_flight (take (Z.to_nat c) h) r (query_ok app c (position (take (Z.to_nat c) h))) s
                end) _ (fun _ => stopped app (B + 1)) _ (stopped app (B + 1))); [|
      intros s [Hs Hp]; split; [done|by eapply no_pending]|done|done|done].
    apply triple_pure. intros Hlen. unfold ready. rewrite take_count by done.
    apply (triple_bind _ _ _ (fun r s => stage app B c h (query_ok app c (position h)) s /\
             (range_is_empty r = false -> src_from (position h) r))).
    { apply triple_retried; [lia|apply plan_op_spec|]. by intros a s [? _]. }
    intros r. apply triple_if; intros Hemp.
    + apply (triple_bind _ _ _ (fun _ => stage app B c h (query_ok app c (position h)))); [|intros _; by apply triple_ret].
      apply triple_modify. by intros s [Hs _].
    + apply triple_pure. intros Hfrom.
      eapply triple_bind; [apply triple_map_err, record_plan_spec; auto|]. intros u. by apply triple_ret.
Qed.

(** While the range is being read the source may be on either side of it. *)
Definition reading (p : P) (r : BatchRange) (d : D) (q : Query (St := St) (H' := H')) : Prop :=
  src_inv (rt_source q) /\ (src_pos (rt_source q) = p \/ src_pos (rt_source q) = src_adv p r) /\
  snk_sync app d (rt_sink q) /\ rt_dedup q = None /\ q_batch_id q = c.

Lemma in_flight_from h r K s : in_flight h r K s -> src_from (position h) r.
Proof. intros [(Hd & _) _]. pose proof (du_chain _ _ _ _ _ Hd) as [_ [? _]]%chain_app. done. Qed.

Lemma poll_op_spec h r :
  triple (in_flight h r (reading (position h) r)) (poll_op src_env r)
    (fun bs s => in_flight h r (query_ok app c (position (h ++ [r]))) s /\ bs = src_records r)
    (fun _ => in_flight h r (reading (position h) r)) (stopped app (B + 1)).
Proof.
  intros s Hs. pose proof (in_flight_from _ _ _ _ Hs) as Hfrom.
  destruct Hs as [(Hd & Hsc & Hb & Ha & Hinv & Hpos & Hsy & Hdd & Hid) Hlen]. unfold poll_op.
  destruct (poll_range _ _ _) as [res st] eqn:Ep.
  destruct (src_poll _ _ (position h) r _ _ (proj2 Hsc) Hinv Hfrom Hpos Ep) as (Hinv' & Hres).
  rewrite position_snoc. destruct res as [bs|e]; simpl.
  - destruct Hres as [-> Hpos']. split; [|done]. split; [|done].
    split; [done|]. split; [done|]. split; [done|]. split; [done|]. split; [done|]. by split.
  - split; [|done]. split; [done|]. split; [done|]. split; [done|]. split; [done|]. split; [done|]. by split.
Qed.

Lemma poll_spec h r :
  triple (in_flight h r (query_ok app c (position h))) (with_retry (external SourcePoll (poll_op src_env r)))
    (fun bs s => in_flight h r (query_ok app c (position (h ++ [r]))) s /\ bs = src_records r)
    (fun _ => stopped app (B + 1)) (stopped app (B + 1)).
Proof.
  apply (triple_conseq _ _ (fun s => stage app (B + 1) c (h ++ [r]) (reading (position h) r) s /\ Z.of_nat (length h) = c) _
    (fun bs s => in_flight h r (query_ok app c (position (h ++ [r]))) s /\ bs = src_records r) _
    (fun _ => stopped app (B + 1)) _ (stopped app (B + 1))); [| |done|done|done].
  - apply triple_pure. intros Hlen. apply triple_retried; [lia| |].
    + eapply triple_conseq; [apply (poll_op_spec h r)|by intros s Hs|done|by intros e s [? _]|done].
    + intros a s [[(Hd & Hsc & Hb & Ha & Hinv & Hpos & Hrest) _] _].
      split; [done|]. split; [done|]. split; [done|]. split; [done|]. split; [done|].
      split; [|done]. right. by rewrite Hpos, position_snoc.
  - intros s [(Hd & Hsc & Hb & Ha & Hinv & Hpos & Hrest) Hlen]. split; [|done].
    split; [done|]. split; [done|]. split; [done|]. split; [done|]. split; [done|]. split; [by left|done].
Qed.

(** ** The records on their way to the sink *)

Lemma in_flight_stopped h r K s : in_flight h r K s -> stopped app (B + 1) s.
Proof. intros [Hs _]. by eapply stage_stopped. Qed.

Lemma triple_flight_call {A} h r K cl (op : M Sys A) (Q : A -> Sys -> Prop) :
  triple (in_flight h r K) op Q (fun _ => stopped app (B + 1)) (stopped app (B + 1)) ->
  (forall a s, Q a s -> stopped app (B + 1) s) ->
  triple (in_flight h r K) (external cl op) Q (fun _ => stopped app (B + 1)) (stopped app (B + 1)).
Proof.
  intros Hop HQ. apply (triple_external base_fault_ok); eauto using in_flight_stopped.
  - intros s ev [Hs _]. by eapply stage_fault.
  - intros s ev rest [Hs Hl] Hev. split; [by apply stage_advance|done].
Qed.

Lemma run_pipeline_spec h r K :
  triple (in_flight h r K) (run_pipeline cfg (src_records r))
    (fun out s => in_flight h r K s /\ out = batch_output r)
    (fun _ => stopped app (B + 1)) (stopped app (B + 1)).
Proof.
  unfold run_pipeline, batch_output. destruct (qc_pipeline cfg) as [f|]; [|by apply triple_ret].
  apply triple_flight_call; [|by intros a s [? _]; eapply in_flight_stopped].
  apply triple_lift; [|intros s e _; apply in_flight_stopped]. intros s a Ha Hs. by rewrite Ha.
Qed.

Lemma operators_spec h r p out :
  triple (in_flight h r (query_ok app c p)) (operators_op cfg out)
    (fun out' s => in_flight h r (query_ok app c p) s /\ out' = out)
    (fun _ => stopped app (B + 1)) (stopped app (B + 1)).
Proof.
  intros s [(Hd & Hsc & Hb & Ha & Hinv & Hpos & Hsy & Hdd & Hid) Hlen]. unfold operators_op, run_dedup.
  assert (rt_dedup (run_watermark cfg out (sy_query s)) = None) as ->.
  { unfold run_watermark. by destruct (qc_watermark cfg). }
  simpl. split; [|done]. split; [|done]. split; [done|]. split; [done|]. split; [done|]. split; [done|].
  unfold run_watermark. by destruct (qc_watermark cfg).
Qed.

Lemma expectations_spec h r K es out :
  triple (in_flight h r K) (run_expectations sql_violations es out (c + 1))
    (fun _ => in_flight h r K) (fun _ => stopped app (B + 1)) (stopped app (B + 1)).
Proof.
  induction es as [|e es IH]; [by apply triple_ret|]. cbn [run_expectations].
  apply (triple_bind _ _ _ (fun _ => in_flight h r K)).
  - unfold count_violations. destruct out as [|b out]; [by apply triple_ret|].
    apply triple_flight_call; [|intros a s; apply in_flight_stopped].
    apply triple_lift; [done|intros s e' _; apply in_flight_stopped].
  - intros v. apply triple_if; intros _; [done|]. destruct (ex_action e); [done|].
    apply triple_throw. intros s. apply in_flight_stopped.
Qed.

(** The batch is in the sink. *)
Definition written (h : list BatchRange) (r : BatchRange) (d : D) (q : Query) : Prop :=
  query_ok app c (position (h ++ [r])) d q /\ snk_log app d = sunk 1 (h ++ [r]).

(** What the write finds is the output without this batch or with it; what it
    leaves is the output with it. *)
Lemma flight_log h r K s :
  in_flight h r K s -> snk_ok app (b_durable (sy_base s)) /\
  (snk_log app (b_durable (sy_base s)) = sunk 1 h \/ snk_log app (b_durable (sy_base s)) = sunk 1 (h ++ [r])).
Proof.
  intros [(Hd & _ & _ & Ha & _) Hlen]. pose proof (du_sink _ _ _ _ _ Hd Ha) as Hsk.
  by rewrite take_snoc_count in Hsk by done.
Qed.

Lemma sink_op_spec h r :
  total_rows (src_records r) <> 0%nat ->
  triple (in_flight h r (query_ok app c (position (h ++ [r])))) (sink_op (batch_output r) (c + 1))
    (fun _ => in_flight h r (written h r))
    (fun _ => in_flight h r (query_ok app c (position (h ++ [r])))) (stopped app (B + 1)).
Proof.
  intros Hrows. apply triple_zoom. intros s Hs. destruct (flight_log _ _ _ _ Hs) as [Hok Hlog].
  destruct Hs as [(Hd & [Hsc He] & Hb & Ha & Hinv & Hpos & Hsy & Hdd & Hid) Hlen].
  destruct (record_sunk h r (c + 1) ltac:(lia) Hrows) as [Hr1 Hr2].
  assert (record_batch (snk_log app (b_durable (sy_base s))) (c + 1) (batch_output r) = sunk 1 (h ++ [r])) as Hrec.
  { by destruct Hlog as [-> | ->]. }
  assert (Forall (fun e => fst e <= c + 1) (snk_log app (b_durable (sy_base s)))) as Hle.
  { destruct Hlog as [-> | ->]; apply sunk_le; rewrite ?length_app; simpl; lia. }
  pose proof (snk_write_spec app (event_ok app) (fun ev H => proj1 H) _ (batch_output r) (c + 1) ltac:(lia) Hle) as Hw.
  eapply triple_conseq; [exact Hw|..].
  - by intros w ->.
  - intros n w (Hs' & Hok' & Hl' & Hsy'). rewrite Hrec in Hl'. split; [|done].
    split; [eapply durable_sink; eauto|]. split; [by split|]. split; [done|]. split; [done|].
    split; [|done]. by split_and!.
  - intros e w (Hs' & Hok' & Hl' & Hsy'). split; [|done].
    split; [eapply durable_sink; eauto|]. split; [by split|]. split; [done|]. split; [done|]. by split_and!.
  - intros w (Hs' & Hok' & Hl'). rewrite Hrec in Hl'. exists c, (h ++ [r]). split; [|done].
    eapply durable_sink; [done|done|]. by destruct Hl'; auto.
Qed.

Lemma process_spec h r :
  total_rows (src_records r) <> 0%nat ->
  triple (in_flight h r (query_ok app c (position (h ++ [r]))))
    (process_records sql_violations cfg (src_records r) (c + 1))
    (fun _ => in_flight h r (written h r))
    (fun _ => stopped app (B + 1)) (stopped app (B + 1)).
Proof.
  intros Hrows. unfold process_records.
  eapply triple_bind; [apply run_pipeline_spec|]. intros out. apply triple_pure. intros ->.
  eapply triple_bind; [apply operators_spec|]. intros out. apply triple_pure. intros ->.
  eapply triple_bind; [apply expectations_spec|]. intros u.
  eapply triple_conseq; [apply triple_retry, (sink_op_spec h r Hrows)|done|done| |done].
  intros e s. apply in_flight_stopped.
Qed.

Lemma rows_spec h r :
  triple (in_flight h r (query_ok app c (position (h ++ [r]))))
    (if (total_rows (src_records r) =? 0)%nat then ret 0%nat
     else process_records sql_violations cfg (src_records r) (c + 1))
    (fun _ => in_flight h r (written h r))
    (fun _ => stopped app (B + 1)) (stopped app (B + 1)).
Proof.
  apply triple_if; intros Hrows; [|apply process_spec; by apply Nat.eqb_neq].
  apply Nat.eqb_eq in Hrows. apply triple_ret. intros s Hs.
  destruct (flight_log _ _ _ _ Hs) as [_ Hlog]. rewrite (sunk_snoc_empty _ _ Hrows) in Hlog.
  destruct Hs as [(Hd & Hsc & Hb & Ha & HK) Hlen]. split; [|done]. split; [done|]. split; [done|].
  split; [done|]. split; [done|]. split; [done|]. rewrite (sunk_snoc_empty _ _ Hrows). by destruct Hlog.
Qed.

(** ** Bookkeeping *)

(** The batch is committed, in memory too; only the resume record is behind. *)
Definition committed (h : list BatchRange) (r : BatchRange) (d : D) (q : Query) : Prop :=
  query_ok app (c + 1) (position (h ++ [r])) d q /\ snk_log app d = sunk 1 (h ++ [r]).

Lemma save_commit_spec h r rows :
  triple (in_flight h r (written h r))
    (external SaveCommit (modify (on_base (set_store (save_commit
       {| bc_batch_id := c + 1; bc_num_output_rows := rows;
          bc_resume_position := Some (src_enc (position (h ++ [r]))) |})))))
    (fun _ => in_flight h r (written h r)) (fun _ => stopped app (B + 1)) (stopped app (B + 1)).
Proof.
  apply triple_flight_call; [|intros a s; apply in_flight_stopped].
  apply triple_modify. intros s [(Hd & Hsc & Hb & Ha & HK & Hlog) Hlen]. split; [|done].
  split; [|done]. apply durable_save_commit; [done| |done|done|done]. rewrite length_app. simpl. lia.
Qed.

Lemma load_state_spec h r K :
  triple (in_flight h r K)
    (unwrap_or (external LoadState (do! s <- get; ret (load (b_store (sy_base s))))) default_state)
    (fun ck s => in_flight h r K s /\ cs_query_id ck = app)
    (fun _ => stopped app (B + 1)) (stopped app (B + 1)).
Proof.
  unfold unwrap_or.
  apply (triple_bind _ _ _ (fun res s => in_flight h r K s /\ exists ck, res = Ok ck /\ cs_query_id ck = app)).
  - apply triple_try, (triple_external base_fault_ok).
    + intros s ev [Hs _]. by eapply stage_fault.
    + intros s ev rest [Hs Hl] Hev. split; [by apply stage_advance|done].
    + intros s Hs. split; [done|]. eexists. split; [done|]. destruct Hs as [(Hd & _) _]. by apply (du_app _ _ _ _ _ Hd).
    + done.
    + done.
    + apply in_flight_stopped.
    + intros a s [Hs _]. by eapply in_flight_stopped.
    + intros a s [Hs _]. by eapply in_flight_stopped.
  - intros res. apply triple_ret. by intros s (Hs & ck & -> & Hck).
Qed.

Lemma prune_spec h r K pt :
  triple (in_flight h r K) (best_effort PruneLog (prune_op del_ok pt (c + 1)))
    (fun _ => in_flight h r K) (fun _ => stopped app (B + 1)) (stopped app (B + 1)).
Proof.
  apply triple_best_effort.
  - intros s ev rest [Hs Hl] Hev. split; [by apply stage_advance|done].
  - intros s [(Hd & Hsc & Hb & Ha & HK) Hlen]. unfold prune_op.
    destruct (prune_log _ _ _ _) as [n st] eqn:Ep. split; [|done]. split; [|done]. by eapply durable_prune.
  - intros s. apply in_flight_stopped.
  - intros _ s. apply in_flight_stopped.
  - done.
Qed.

Lemma save_state_spec h r ck :
  cs_committed_batch_id ck = c + 1 -> cs_query_id ck = app ->
  cs_source_offsets ck = Some (src_enc (position (h ++ [r]))) ->
  triple (in_flight h r (committed h r)) (external SaveState (modify (on_base (set_store (save ck)))))
    (fun _ => ready app (B + 1) (c + 1) (h ++ [r])) (fun _ => stopped app (B + 1)) (stopped app (B + 1)).
Proof.
  intros H1 H2 H3. apply triple_flight_call; [|intros a s; apply stage_stopped].
  apply triple_modify. intros s [(Hd & Hsc & Hb & Ha & HK & Hlog) Hlen].
  assert (Z.of_nat (length (h ++ [r])) = c + 1) as Hl by (rewrite length_app; simpl; lia).
  split; [by apply durable_save|]. split; [done|]. split; [done|]. split; [done|].
  by rewrite take_count.
Qed.

Lemma finish_spec h r input_rows rows :
  triple (in_flight h r (written h r)) (finish_batch del_ok cfg (c + 1) input_rows rows)
    (fun _ => ready app (B + 1) (c + 1) (h ++ [r])) (fun _ => stopped app (B + 1)) (stopped app (B + 1)).
Proof.
  unfold finish_batch.
  apply (triple_bind _ _ _ (fun s0 s => in_flight h r (written h r) s /\
     committed_offsets (rt_source (sy_query s0)) = Some (src_enc (position (h ++ [r]))))).
  { apply triple_get. intros s Hs. split; [done|]. destruct Hs as [(_ & _ & _ & _ & (Hinv & Hpos & _) & _) _].
    by rewrite (src_committed _ Hinv), Hpos. }
  intros s0. apply triple_pure. intros Hoff. rewrite Hoff.
  eapply triple_bind; [apply triple_map_err, save_commit_spec|]. intros u.
  apply (triple_bind _ _ _ (fun _ => in_flight h r (committed h r))).
  { apply triple_modify. intros s [(Hd & Hsc & Hb & Ha & (Hinv & Hpos & Hsy & Hdd & _) & Hlog) Hlen].
    split; [|done]. split; [done|]. split; [done|]. split; [done|]. split; [done|]. split; [|done]. by split_and!. }
  intros u'. eapply triple_bind; [apply load_state_spec|]. intros ck. apply triple_pure. intros Hck.
  apply (triple_bind _ _ _ (fun _ => in_flight h r (committed h r))); [by apply triple_get|]. intros s1.
  eapply triple_bind; [apply prune_spec|]. intros pruned.
  eapply triple_bind; [by apply triple_map_err, save_state_spec|]. intros u''.
  apply (triple_bind _ _ _ (fun _ => ready app (B + 1) (c + 1) (h ++ [r]))).
  - apply triple_call; [lia|by apply triple_ret|]. intros a s. apply stage_stopped.
  - intros _. by apply triple_ret.
Qed.

(** A trigger takes a ready query to a ready query, one batch further if
    there was anything to read; if it fails or dies, the durable state is one
    a restart recovers from. *)
Lemma run_batch_spec h :
  triple (ready app B c h) (run_batch src_env del_ok sql_violations cfg)
    (fun _ s => exists c' h', c' <= c + 1 /\ ready app (B + 1) c' h' s)
    (fun _ => stopped app (B + 1)) (stopped app (B + 1)).
Proof.
  unfold run_batch. apply (triple_bind _ _ _ (fun _ => ready app B c h)); [by apply triple_get|].
  intros s0. apply triple_if; intros _.
  2:{ apply triple_ret. intros s Hs. exists c, h. split; [lia|]. by apply stage_widen. }
  unfold run_batch_inner.
  apply (triple_bind _ _ _ (fun s1 s => ready app B c h s /\ q_batch_id (sy_query s1) = c)).
  { apply triple_get. intros s Hs. split; [done|]. by destruct Hs as (_ & _ & _ & _ & _ & _ & _ & _ & ?). }
  intros s1. apply triple_pure. intros ->. rewrite batch_number.
  eapply triple_bind; [apply planned_range_spec|]. intros [r|].
  - eapply triple_bind; [apply poll_spec|]. intros bs. apply triple_pure. intros ->.
    eapply triple_bind; [apply rows_spec|]. intros rows.
    eapply triple_conseq; [apply finish_spec|done| |done|done].
    intros a s Hs. exists (c + 1), (take (Z.to_nat c) h ++ [r]). split; [lia|exact Hs].
  - apply triple_ret. intros s Hs. exists c, h. split; [lia|]. by apply stage_widen.
Qed.

End Batch.

(** ** Draining *)

Definition any_ready (app : str) (B : Z) (s : Sys) : Prop := exists c h, ready app B c h s.

Lemma ready_count app B c h s : ready app B c h s -> 0 <= c <= B.
Proof. intros (Hd & _ & Hb & _). destruct (du_count _ _ _ _ _ Hd). lia. Qed.

Lemma any_ready_mono app B B' s : B <= B' -> any_ready app B s -> any_ready app B' s.
Proof.
  intros ? (c & h & Hd & Hs & Hb & Hr). exists c, h. split; [done|]. split; [done|]. split; [lia|done].
Qed.

Lemma run_batch_any app B :
  B < i_max 64 -> qc_dedup_columns cfg = [] ->
  triple (any_ready app B) (run_batch src_env del_ok sql_violations cfg)
    (fun _ => any_ready app (B + 1)) (fun _ => stopped app (B + 1)) (stopped app (B + 1)).
Proof.
  intros HB Hdd s (c & h & Hs). pose proof (ready_count _ _ _ _ _ Hs) as Hc.
  pose proof (run_batch_spec app B c ltac:(lia) h s Hs) as Hr.
  destruct (run_batch _ _ _ _ s) as [[n|e|] s']; [|done|done].
  destruct Hr as (c' & h' & _ & Hr). by exists c', h'.
Qed.

Lemma triple_widen {A} app B B' (m : M Sys A) (I : Sys -> Prop) Q :
  B <= B' -> triple I m Q (fun _ => stopped app B) (stopped app B) ->
  triple I m Q (fun _ => stopped app B') (stopped app B').
Proof.
  intros HB Hm. eapply triple_conseq; [exact Hm|done|done| |].
  - intros e s. by apply stopped_mono.
  - intros s. by apply stopped_mono.
Qed.

Lemma boundary_spec app B :
  triple (any_ready app B) (available_now_boundary src_env)
    (fun _ => any_ready app B) (fun _ => stopped app B) (stopped app B).
Proof.
  intros s (c & h & Hs). revert s Hs.
  change (triple (ready app B c h) (available_now_boundary src_env)
    (fun _ => any_ready app B) (fun _ => stopped app B) (stopped app B)).
  apply triple_call; [lia| |].
  - intros s Hs. destruct (available_end _ _); simpl; [by exists c, h|by eapply stage_stopped].
  - intros _ s (c' & h' & Hs). by eapply stage_stopped.
Qed.

Lemma drain_spec app fuel : forall B boundary total,
  B + Z.of_nat fuel < i_max 64 -> qc_dedup_columns cfg = [] ->
  triple (any_ready app B) (drain src_env del_ok sql_violations cfg fuel boundary total)
    (fun _ => any_ready app (B + Z.of_nat fuel)) (fun _ => stopped app (B + Z.of_nat fuel))
    (stopped app (B + Z.of_nat fuel)).
Proof.
  induction fuel as [|fuel IH]; intros B boundary total HB Hdd; cbn [drain].
  { apply triple_ret. intros s. apply any_ready_mono. lia. }
  apply (triple_bind _ _ _ (fun _ => any_ready app B)).
  { destruct boundary as [b|]; [by apply triple_ret|].
    apply (triple_widen app B); [lia|]. apply boundary_spec. }
  intros bd. apply (triple_bind _ _ _ (fun _ => any_ready app (B + 1))).
  { apply (triple_widen app (B + 1)); [lia|]. apply run_batch_any; [lia|done]. }
  intros rows. apply triple_if; intros _.
  { apply triple_ret. intros s. apply any_ready_mono. lia. }
  apply (triple_bind _ _ _ (fun _ => any_ready app (B + 1))); [by apply triple_get|]. intros s0.
  apply triple_if; intros _.
  { apply triple_ret. intros s. apply any_ready_mono. lia. }
  replace (B + Z.of_nat (S fuel)) with (B + 1 + Z.of_nat fuel) by lia. apply IH; [lia|done].
Qed.

(** A query that is not active does nothing. *)
Definition idle (app : str) (B : Z) (s : Sys) : Prop :=
  stopped app B s /\ q_is_active (sy_query s) = false.

Lemma idle_advance app B s ev rest :
  idle app B s -> script s = ev :: rest -> idle app B (advance ev rest s).
Proof.
  intros [(c & h & Hd & Hs & Hb) Ha] Hev. split; [|done]. exists c, h. split; [done|].
  split; [by apply script_ok_advance|done].
Qed.

Lemma idle_batch_spec app B :
  triple (idle app B) (run_batch src_env del_ok sql_violations cfg)
    (fun rows s => idle app B s /\ rows = 0%nat) (fun _ => stopped app B) (stopped app B).
Proof. intros s Hs. unfold run_batch, mbind, get. destruct Hs as [? Ha]. by rewrite Ha. Qed.

Lemma idle_drain_spec app B :
  triple (idle app B) (process_all_available src_env del_ok sql_violations cfg)
    (fun _ => idle app B) (fun _ => stopped app B) (stopped app B).
Proof.
  unfold process_all_available. generalize MAX_DRAIN_BATCHES. intros [|fuel]; [by apply triple_ret|]. cbn [drain].
  apply (triple_bind _ _ _ (fun _ => idle app B)).
  - apply (triple_external (fun _ _ => True)); eauto using idle_advance.
    + intros s Hs. destruct (available_end _ _); simpl; [done|by destruct Hs].
    + by intros e s _ [? _].
    + by intros e a s _ [? _].
    + by intros s [? _].
    + by intros a s [? _].
  - intros bd. eapply triple_bind; [apply idle_batch_spec|]. intros rows. apply triple_pure. intros ->.
    by apply triple_ret.
Qed.

(** ** Starting *)

(** The application id a start uses: the persisted one, or the fresh one. *)
Definition start_app (id : str) (st : CheckpointStore) : str :=
  match cs_query_id (load st) with [] => id | q => q end.

Section Start.
Variables (id : StreamingQueryId) (app : str) (B : Z).
Hypothesis HB : B < i_max 64.
Hypothesis Happ : app <> [].
Hypothesis Hdedup : qc_dedup_columns cfg = [].
Hypothesis Hinit : src_init (qc_source cfg).

(** The durable state a start finds: [stored] is the persisted id, and
    nothing of a fresh id is in the sink. *)
Definition startable (c : Z) (h : list BatchRange) (b : Base) : Prop :=
  exists stored, durable_ok c stored h (b_store b) (b_durable b) /\ script_ok app b /\ Z.of_nat (length h) <= B /\
    (stored = app \/ (stored = [] /\ qid_id id = app /\ snk_ok app (b_durable b) /\ snk_log app (b_durable b) = [])).
Definition any_startable (b : Base) : Prop := exists c h, startable c h b.

Lemma startable_advance c h b ev rest :
  startable c h b -> b_script b = ev :: rest -> startable c h (advance_base ev rest b).
Proof.
  intros (st & Hd & Hs & Hb & Ho) Hev. exists st. split; [done|]. split; [by apply script_ok_advance|done].
Qed.

Lemma startable_fault c h b call ev :
  startable c h b -> ev ∈ b_script b -> base_fault_ok call (ev_fault ev call).
Proof.
  intros (_ & _ & [Hs _] & _) Hev. rewrite Forall_forall in Hs. apply Hs in Hev as (_ & Hf & _). apply Hf.
Qed.

Lemma triple_start_call {A} c h I cl (op : M Base A) (Q : A -> Base -> Prop) :
  (forall b, I b -> startable c h b) ->
  (forall b ev rest, I b -> b_script b = ev :: rest -> I (advance_base ev rest b)) ->
  triple I op Q (fun _ => any_startable) any_startable ->
  (forall a b, Q a b -> any_startable b) ->
  triple I (external cl op) Q (fun _ => any_startable) any_startable.
Proof.
  intros HI Hadv Hop HQ. assert (forall b, I b -> any_startable b) as Hany by (intros b Hb; by exists c, h; apply HI).
  apply (triple_external base_fault_ok); eauto.
  intros b ev Hb. by apply (startable_fault c h), HI.
Qed.

Definition recovering (ck : CheckpointState) (c : Z) (h : list BatchRange) (b : Base) : Prop :=
  startable c h b /\ ck = load (b_store b).

Lemma recovering_advance ck c h b ev rest :
  recovering ck c h b -> b_script b = ev :: rest -> recovering ck c h (advance_base ev rest b).
Proof. intros [Hs Hck] Hev. split; [by apply startable_advance|done]. Qed.

Lemma load_start_spec c h :
  triple (startable c h)
    (unwrap_or (external LoadState (do! b <- get; ret (load (b_store b)))) default_state)
    (fun ck => recovering ck c h) (fun _ => any_startable) any_startable.
Proof.
  unfold unwrap_or.
  apply (triple_bind _ _ _ (fun res b => exists ck, res = Ok ck /\ recovering ck c h b)).
  - apply triple_try, (triple_external base_fault_ok).
    + intros b ev. apply startable_fault.
    + intros b ev rest. apply startable_advance.
    + intros b Hb. by eexists.
    + done.
    + done.
    + intros b Hb. by exists c, h.
    + intros a b (ck & _ & Hb & _). by exists c, h.
    + intros a b (ck & _ & Hb & _). by exists c, h.
  - intros res. apply triple_ret. by intros b (ck & -> & Hb).
Qed.

(** A commit that is ahead of the resume record is the one in flight. *)
Lemma recover_step c h (b : Base) cm resumed stored :
  durable_ok c stored h (b_store b) (b_durable b) ->
  commit_log (b_store b) !! (c + 1) = Some cm -> bc_resume_position cm = Some resumed ->
  durable_ok (c + 1) stored h (save (recovered (c + 1) resumed (load (b_store b))) (b_store b)) (b_durable b).
Proof.
  intros Hd Hcm Hres. destruct (lo_commit _ _ _ _ _ (du_log _ _ _ _ _ Hd) _ _ Hcm ltac:(lia)) as (_ & Hl & Hr & Hlog).
  rewrite Hres in Hr. injection Hr as ->. apply (durable_save c); [done|done|done|done| |done].
  apply (du_app _ _ _ _ _ Hd).
Qed.

Lemma recover_loop_spec fuel : forall ck c h,
  triple (recovering ck c h) (recover_loop fuel ck)
    (fun ck' b => exists c' , recovering ck' c' h b) (fun _ => any_startable) any_startable.
Proof.
  induction fuel as [|fuel IH]; intros ck c h; cbn [recover_loop].
  { apply triple_ret. intros b Hb. by exists c. }
  apply triple_pre. intros b0 Hb0.
  assert (wrapu 64 (cs_committed_batch_id ck + 1) = c + 1) as ->.
  { destruct Hb0 as [(st & Hd & _ & Hb & _) ->]. rewrite (du_committed _ _ _ _ _ Hd).
    destruct (du_count _ _ _ _ _ Hd). apply wrapu_small; [|lia]. unfold u_ok, u_max, i_max in *. lia. }
  apply (triple_conseq _ _ (recovering ck c h) _ (fun ck' b => exists c', recovering ck' c' h b) _
           (fun _ => any_startable) _ any_startable); [|by intros b ->|done|done|done].
  apply (triple_bind _ _ _ (fun cm b => recovering ck c h b /\ load_commit (c + 1) (b_store b) = cm)).
  { apply triple_map_err, (triple_start_call c h (recovering ck c h)).
    - by intros b [? _].
    - intros b ev rest. apply recovering_advance.
    - by intros b Hb.
    - intros a b [[Hb _] _]. by exists c, h. }
  intros commit. destruct (commit ≫= bc_resume_position) as [resumed|] eqn:Ec.
  2:{ apply triple_ret. intros b [Hb _]. by exists c. }
  destruct commit as [cm|]; [|done]. simpl in Ec.
  apply (triple_bind _ _ _ (fun _ => recovering (recovered (c + 1) resumed ck) (c + 1) h)); [|intros _; apply IH].
  apply triple_map_err, (triple_start_call c h (fun b => recovering ck c h b /\ load_commit (c + 1) (b_store b) = Some cm)).
  - by intros b [[? _] _].
  - intros b ev rest [Hb Hcm] Hev. split; [by apply recovering_advance|done].
  - apply triple_modify. intros b [[(st & Hd & Hs & Hb & Ho) Hck] Hcm]. split; [|done].
    exists st. split; [|done]. rewrite Hck. exact (recover_step c h b cm resumed st Hd Hcm Ec).
  - intros a b [Hb _]. by exists (c + 1), h.
Qed.

(** Rewriting the resume record with the same progress. *)
Lemma durable_resave c stored h st d ck :
  durable_ok c stored h st d -> cs_committed_batch_id ck = cs_committed_batch_id (load st) ->
  cs_source_offsets ck = cs_source_offsets (load st) -> cs_query_id ck = app ->
  stored = app \/ (stored = [] /\ qid_id id = app /\ snk_ok app d /\ snk_log app d = []) ->
  durable_ok c app h (save ck st) d.
Proof.
  intros Hd H1 H2 H3 Ho. pose proof Hd as [Hch Hct Hcm Hap Hof [Hlp Hpe Hlc] Hsk Hfr].
  destruct Ho as [->|(-> & _ & Hok & Hlog)].
  - split; [done|done|exact (eq_trans H1 Hcm)|done|exact (eq_trans H2 Hof)|by split|done|done].
  - rewrite (Hfr eq_refl) in *. simpl in *. split; [done|done|exact (eq_trans H1 Hcm)|done|exact (eq_trans H2 Hof)| | |done].
    + split; [done|done|]. intros n cm Hn Hcn. destruct (Hlc n cm Hn Hcn) as (? & ? & _). simpl in *. lia.
    + intros _. split; [done|]. left. by rewrite take_nil.
Qed.

(** A query that has planned nothing does not depend on the sink. *)
Lemma durable_fresh c h st d d' : durable_ok c [] h st d -> durable_ok c [] h st d'.
Proof.
  intros [Hch Hct Hcm Hap Hof [Hlp Hpe Hlc] Hsk Hfr]. rewrite (Hfr eq_refl) in *. simpl in *.
  split; [done..| |done|done]. split; [done|done|]. intros n cm Hn Hcn.
  destruct (Hlc n cm Hn Hcn) as (? & ? & _). simpl in *. lia.
Qed.

(** The sink is open and in sync. *)
Definition opened (sink : H') (c : Z) (h : list BatchRange) (b : Base) : Prop :=
  startable c h b /\ snk_sync app (b_durable b) sink.

Lemma opened_advance sink c h b ev rest :
  opened sink c h b -> b_script b = ev :: rest -> opened sink c h (advance_base ev rest b).
Proof. intros [Hs Hsy] Hev. split; [by apply startable_advance|done]. Qed.

Lemma startable_sink c h b : startable c h b -> snk_ok app (b_durable b).
Proof.
  intros (st & Hd & _ & _ & [->|(_ & _ & Hok & _)]); [|done]. by apply (du_sink _ _ _ _ _ Hd).
Qed.

Lemma open_spec c h :
  triple (startable c h) (zoom look_store put_store (sink_open app))
    (fun sink => opened sink c h) (fun _ => any_startable) any_startable.
Proof.
  apply triple_zoom. intros b Hb. pose proof (startable_sink c h b Hb) as Hok.
  destruct Hb as (st & Hd & [Hs He] & Hb & Ho).
  assert (forall w, Forall (event_ok app) (st_script w) -> snk_ok app (st_durable w) ->
            snk_log app (st_durable w) = snk_log app (b_durable b) -> startable c h (put_store w b)) as Hput.
  { intros w Hs' Hok' Hl'. exists st. split.
    - destruct Ho as [->|(-> & _)]; [by eapply durable_sink; eauto|by eapply durable_fresh].
    - split; [by split|]. split; [done|]. destruct Ho as [->|(-> & ? & ? & ?)]; [by left|right].
      split_and!; [done..|]. simpl. by rewrite Hl'. }
  eapply triple_conseq; [apply (snk_open_spec app (event_ok app) (fun ev H => proj1 H) (snk_log app (b_durable b)))|..].
  - by intros w ->.
  - intros sink w (? & ? & ? & ?). split; [by apply Hput|done].
  - intros e w (? & ? & ?). exists c, h. by apply Hput.
  - intros w (? & ? & ?). exists c, h. by apply Hput.
Qed.

(** The start is recorded: the application id is durable from here on. *)
Lemma init_spec sink c h :
  triple (opened sink c h) (init_for_query id)
    (fun _ b => durable_ok c app h (b_store b) (b_durable b) /\ script_ok app b /\ Z.of_nat (length h) <= B
                /\ snk_sync app (b_durable b) sink)
    (fun _ => any_startable) any_startable.
Proof.
  unfold init_for_query.
  apply (triple_bind _ _ _ (fun ck b => opened sink c h b /\ ck = load (b_store b))).
  - unfold unwrap_or. apply (triple_bind _ _ _ (fun res b => opened sink c h b /\ res = Ok (load (b_store b)))).
    + apply triple_try, (triple_external base_fault_ok).
      * intros b ev [Hb _]. by eapply startable_fault.
      * intros b ev rest. apply opened_advance.
      * by intros b Hb.
      * done.
      * done.
      * intros b [Hb _]. by exists c, h.
      * intros a b [[Hb _] _]. by exists c, h.
      * intros a b [[Hb _] _]. by exists c, h.
    + intros res. apply triple_ret. by intros b [Hb ->].
  - intros ck. apply (triple_start_call c h (fun b => opened sink c h b /\ ck = load (b_store b))).
    + by intros b [[? _] _].
    + intros b ev rest [Hb Hck] Hev. split; [by apply opened_advance|done].
    + apply triple_modify. intros b [[(st & Hd & Hs & Hb & Ho) Hsy] ->]. split; [|done].
      apply (durable_resave c st); [done|done|done| |done]. pose proof (du_app _ _ _ _ _ Hd) as Hst. simpl.
      rewrite Hst. destruct Ho as [->|(-> & ? & _)]; [by destruct app|done].
    + intros a b (Hd & Hs & Hb & Hsy). exists c, h, app. split_and!; [done..|by left].
Qed.

Lemma restored_position c h b ck :
  recovering ck c h b ->
  let source := match cs_source_offsets ck with
                | Some o => restore_offsets (qc_source cfg) o
                | None => qc_source cfg
                end in
  src_inv source /\ src_pos source = position (take (Z.to_nat c) h).
Proof.
  intros [(st & Hd & _) ->]. rewrite (du_offsets _ _ _ _ _ Hd). pose proof (du_count _ _ _ _ _ Hd) as Hct.
  case_decide as Hc0.
  - rewrite Hc0. by apply src_init_pos.
  - apply src_restore; [done|]. apply position_ok.
    pose proof (du_chain _ _ _ _ _ Hd) as Hch. rewrite <-(take_drop (Z.to_nat c) h) in Hch.
    by apply chain_app in Hch as [? _].
Qed.

(** A start resumes exactly after the last batch that is in the commit log. *)
Lemma start_spec :
  triple any_startable (start cfg id)
    (fun q b => any_ready app B {| sy_base := b; sy_query := q |})
    (fun _ => any_startable) any_startable.
Proof.
  intros b0 (c0 & h & Hb0). revert b0 Hb0.
  change (triple (startable c0 h) (start cfg id)
    (fun q b => any_ready app B {| sy_base := b; sy_query := q |}) (fun _ => any_startable) any_startable).
  unfold start. apply (triple_bind _ _ _ (fun _ => startable c0 h)).
  { apply (triple_start_call c0 h (startable c0 h)); [done|intros b ev rest; apply startable_advance|by apply triple_ret|].
    intros a b Hb. by exists c0, h. }
  intros u. unfold recover_from_log.
  apply (triple_bind _ _ _ (fun ck b => exists c, recovering ck c h b)).
  { eapply triple_bind; [apply load_start_spec|]. intros ck. apply recover_loop_spec. }
  intros ck. intros b0 [c Hb0]. pose proof (restored_position c h b0 ck Hb0) as Hpos.
  assert (cs_committed_batch_id ck = c /\ match cs_query_id ck with [] => qid_id id | q => q end = app) as [Hcm Hid].
  { destruct Hb0 as [(st & Hd & _ & _ & Ho) ->]. split; [apply (du_committed _ _ _ _ _ Hd)|].
    rewrite (du_app _ _ _ _ _ Hd). destruct Ho as [->|(-> & ? & _)]; [by destruct app|done]. }
  rewrite Hid, Hcm. cbv zeta in Hpos. destruct Hpos as [Hinv Hp].
  assert (startable c h b0) as Hb0' by apply Hb0. clear Hb0. revert b0 Hb0'.
  match goal with |- forall b0, startable c h b0 -> match ?m b0 with _ => _ end =>
    change (triple (startable c h) m (fun q b => any_ready app B {| sy_base := b; sy_query := q |})
              (fun _ => any_startable) any_startable) end.
  apply (triple_bind _ _ _ (fun _ => startable c h)).
  { apply (triple_start_call c h (startable c h)); [done|intros b ev rest; apply startable_advance|by apply triple_ret|].
    intros a b Hb. by exists c, h. }
  intros u'. eapply triple_bind; [apply open_spec|]. intros sink.
  eapply triple_bind; [apply triple_map_err, init_spec|]. intros u''. apply triple_ret.
  intros b (Hd & Hs & Hb & Hsy). exists c, h. split; [done|]. split; [done|]. split; [done|]. split; [done|].
  rewrite Hdedup. by split_and!.
Qed.

End Start.

(** ** The machine *)

#[local] Abbreviation Machine := (Machine (St := St) (E := E) (D := D) (H' := H')) (only parsing).

Definition app_of (m : Machine) : str := cs_query_id (load (m_store m)).

Definition machine_ok (B : Z) (m : Machine) : Prop :=
  exists c h, durable_ok c (app_of m) h (m_store m) (m_durable m) /\ src_env_ok (src_env (m_env m)) /\
    Z.of_nat (length h) <= B /\
    match m_query m with
    | Some q => q_is_active q = true ->
                app_of m <> [] /\ query_ok (app_of m) c (position (take (Z.to_nat c) h)) (m_durable m) q
    | None => True
    end.

(** What a command may do: the script's events are tolerable for the
    application, a start brings a fresh identity, and the source's view of
    the world stays legal. *)
Definition admissible (cmd : command E) (m : Machine) : Prop :=
  match cmd with
  | CTrigger sc | CDrain sc => Forall (event_ok (app_of m)) sc
  | CStart id sc =>
      qid_id id <> [] /\ Forall (event_ok (start_app (qid_id id) (m_store m))) sc /\
      (app_of m = [] -> snk_ok (qid_id id) (m_durable m) /\ snk_log (qid_id id) (m_durable m) = [])
  | CStop | CKill => True
  | CWorld e => src_env_ok (src_env e)
  end.

#[local] Abbreviation exec := (exec src_env del_ok sql_violations cfg) (only parsing).
#[local] Abbreviation exec_all := (exec_all src_env del_ok sql_violations cfg) (only parsing).

Fixpoint admissible_all (cs : list (command E)) (m : Machine) : Prop :=
  match cs with
  | [] => True
  | cmd :: cs => admissible cmd m /\ admissible_all cs (exec cmd m)
  end.

Lemma app_stored app c h st d : durable_ok c app h st d -> cs_query_id (load st) = app.
Proof. apply du_app. Qed.

Lemma machine_stopped app B b q :
  recoverable app B b -> (match q with Some q => q_is_active q = false | None => True end) ->
  machine_ok B (machine_of b q).
Proof.
  intros (c & h & Hd & [_ He] & Hb) Hq. exists c, h. unfold app_of. simpl.
  rewrite (app_stored _ _ _ _ _ Hd). split_and!; [done..|]. destruct q as [q|]; [|done]. by rewrite Hq.
Qed.

Lemma machine_ready app B (s : Sys) f :
  any_ready app B s -> (forall q, with_status (q_is_active (f q)) (q_is_data_available (f q)) (q_message (f q)) q = f q) ->
  machine_ok B (machine_of (sy_base s) (Some (f (sy_query s)))).
Proof.
  intros (c & h & Hd & [_ He] & Hb & Ha & HK) Hf. exists c, h. unfold app_of. simpl.
  rewrite (app_stored _ _ _ _ _ Hd). split_and!; [done..|]. intros _. split; [done|].
  rewrite <-Hf. by destruct HK as (? & ? & ? & ? & ?).
Qed.

(** A machine with a query, as the state its next command runs in. *)
Lemma machine_sys B m q sc :
  machine_ok B m -> m_query m = Some q -> Forall (event_ok (app_of m)) sc ->
  let s := {| sy_base := base_of m sc; sy_query := q |} in
  if q_is_active q then any_ready (app_of m) B s else idle (app_of m) B s.
Proof.
  intros (c & h & Hd & He & Hb & Hq) Hm Hsc s. rewrite Hm in Hq. destruct (q_is_active q) eqn:Ea.
  - destruct (Hq eq_refl) as [Ha HK]. exists c, h. split; [done|]. split; [by split|]. done.
  - split; [|done]. exists c, h. split; [done|]. split; [by split|done].
Qed.

Lemma machine_widen B B' m : B <= B' -> machine_ok B m -> machine_ok B' m.
Proof. intros ? (c & h & ? & ? & ? & ?). exists c, h. split_and!; [done..|lia|done]. Qed.

Lemma idle_widen app B B' s : B <= B' -> idle app B s -> idle app B' s.
Proof. intros ? [? ?]. split; [by eapply stopped_mono|done]. Qed.

(** An outcome of a batch or a drain, turned into a machine. *)
Lemma after_batch_ok {A} app B f (r : outcome A * Sys) :
  (forall q, with_status (q_is_active (f q)) (q_is_data_available (f q)) (q_message (f q)) q = f q) ->
  (forall q, q_is_active q = false -> q_is_active (f q) = false) ->
  match r with
  | (Done _, s) => any_ready app B s \/ idle app B s
  | (Failed _, s) | (Crashed, s) => stopped app B s
  end -> machine_ok B (after_batch f r).
Proof.
  intros Hf Hi. destruct r as [[a|e|] s]; simpl.
  - intros [Hr|[Hs Ha]]; [by eapply machine_ready|]. eapply machine_stopped; [done|]. by apply Hi.
  - intros Hs. by eapply machine_stopped.
  - intros Hs. by eapply machine_stopped.
Qed.

Definition MAX_STEP : Z := 100000.

Section Exec.
Hypothesis Hdedup : qc_dedup_columns cfg = [].
Hypothesis Hinit : src_init (qc_source cfg).

Lemma trigger_ok B m sc :
  machine_ok B m -> admissible (CTrigger sc) m -> B < i_max 64 -> machine_ok (B + 1) (exec (CTrigger sc) m).
Proof.
  intros Hm Had HB. simpl. destruct (m_query m) as [q|] eqn:Eq; [|by eapply machine_widen; [|done]; lia].
  pose proof (machine_sys _ _ _ _ Hm Eq Had) as Hs. cbv zeta in Hs.
  eapply after_batch_ok; [by intros []|done|]. destruct (q_is_active q).
  - pose proof (run_batch_any (app_of m) B HB Hdedup _ Hs) as Hr.
    destruct (run_batch _ _ _ _ _) as [[n|e|] s]; [by left|done|done].
  - pose proof (idle_batch_spec (app_of m) B _ Hs) as Hr.
    destruct (run_batch _ _ _ _ _) as [[n|e|] s]; [|by eapply stopped_mono; [|done]; lia..].
    right. by eapply idle_widen; [|apply Hr]; lia.
Qed.

Lemma drain_ok B m sc :
  machine_ok B m -> admissible (CDrain sc) m -> B + MAX_STEP < i_max 64 ->
  machine_ok (B + MAX_STEP) (exec (CDrain sc) m).
Proof.
  intros Hm Had HB. simpl. unfold MAX_STEP in *.
  destruct (m_query m) as [q|] eqn:Eq; [|by eapply machine_widen; [|done]; lia].
  pose proof (machine_sys _ _ _ _ Hm Eq Had) as Hs. cbv zeta in Hs.
  eapply after_batch_ok; [by intros []|done|]. destruct (q_is_active q).
  - assert (Z.of_nat MAX_DRAIN_BATCHES = 100000) as Hmd by (unfold MAX_DRAIN_BATCHES; lia).
    pose proof (drain_spec (app_of m) MAX_DRAIN_BATCHES B None 0 ltac:(lia) Hdedup _ Hs) as Hr.
    fold process_all_available in Hr. rewrite Hmd in Hr. unfold process_all_available.
    destruct (drain _ _ _ _ _ _ _ _) as [[n|e|] s]; [by left|done|done].
  - pose proof (idle_drain_spec (app_of m) B _ Hs) as Hr.
    destruct (process_all_available _ _ _ _ _) as [[n|e|] s]; [|by eapply stopped_mono; [|done]; lia..].
    right. by eapply idle_widen; [|done]; lia.
Qed.

Lemma start_app_nonempty id st : id <> [] -> start_app id st <> [].
Proof. unfold start_app. by destruct (cs_query_id (load st)). Qed.

Lemma start_ok B m id sc :
  machine_ok B m -> admissible (CStart id sc) m -> B < i_max 64 -> machine_ok B (exec (CStart id sc) m).
Proof.
  intros (c & h & Hd & He & Hb & _) (Hid & Hsc & Hfr) HB. simpl.
  set (app := start_app (qid_id id) (m_store m)) in *.
  assert (app <> []) as Happ by by apply start_app_nonempty.
  assert (any_startable id app B (base_of m sc)) as Hst.
  { exists c, h, (app_of m). split; [done|]. split; [by split|]. split; [done|].
    unfold app, start_app, app_of in *. destruct (cs_query_id (load (m_store m))) eqn:Eq; [right|by left].
    destruct (Hfr eq_refl). by split_and!. }
  pose proof (start_spec id app B HB Happ Hdedup Hinit _ Hst) as Hr.
  assert (forall b, any_startable id app B b -> machine_ok B (machine_of b None)) as Hstop.
  { intros b (c' & h' & st & Hd' & [_ He'] & Hb' & _). exists c', h'. unfold app_of. simpl.
    by rewrite (app_stored _ _ _ _ _ Hd'). }
  destruct (start cfg id (base_of m sc)) as [[q|e|] b]; [|by apply Hstop..].
  by apply (machine_ready app B {| sy_base := b; sy_query := q |} (fun q => q)); [|intros []].
Qed.

Lemma exec_ok B m cmd :
  machine_ok B m -> admissible cmd m -> B + MAX_STEP < i_max 64 -> machine_ok (B + MAX_STEP) (exec cmd m).
Proof.
  intros Hm Had HB. assert (0 < MAX_STEP) by done. destruct cmd as [sc|sc|id sc| | |e].
  - apply (machine_widen (B + 1)); [unfold MAX_STEP; lia|]. apply trigger_ok; [done|done|lia].
  - by apply drain_ok.
  - apply (machine_widen B); [lia|]. apply start_ok; [done|done|lia].
  - apply (machine_widen B); [lia|]. destruct Hm as (c & h & Hd & He & Hb & Hq). exists c, h.
    split_and!; [done..|]. simpl. by destruct (m_query m).
  - apply (machine_widen B); [lia|]. destruct Hm as (c & h & Hd & He & Hb & Hq). by exists c, h.
  - apply (machine_widen B); [lia|]. destruct Hm as (c & h & Hd & He & Hb & Hq). by exists c, h.
Qed.

Lemma exec_all_ok cs : forall B m,
  machine_ok B m -> admissible_all cs m -> B + MAX_STEP * Z.of_nat (length cs) < i_max 64 ->
  machine_ok (B + MAX_STEP * Z.of_nat (length cs)) (exec_all cs m).
Proof.
  induction cs as [|cmd cs IH]; intros B m Hm Had HB; simpl in *.
  { by eapply machine_widen; [|done]; lia. }
  destruct Had as [Had Hads]. replace (B + MAX_STEP * Z.of_nat (S (length cs)))
    with (B + MAX_STEP + MAX_STEP * Z.of_nat (length cs)) in * by lia.
  apply IH; [|done|done]. apply exec_ok; [done|done|unfold MAX_STEP in *; lia].
Qed.

(** A query that has never run. *)
Definition fresh_machine (m : Machine) : Prop :=
  m_store m = empty_store /\ m_query m = None /\ src_env_ok (src_env (m_env m)).

Lemma fresh_machine_ok m : fresh_machine m -> machine_ok 0 m.
Proof.
  intros (Hs & Hq & He). exists 0, []. unfold app_of. rewrite Hs, Hq. split_and!; [|done|simpl; lia|done].
  split; simpl; [done|lia|done|done|done| |done|done].
  split; [|simpl; lia|]; intros n x Hx; simpl in Hx; by apply lookup_empty_Some in Hx.
Qed.

Lemma sunk_NoDup n h : NoDup (sunk n h).*1.
Proof.
  revert n. induction h as [|r h IH]; intros n; simpl; [constructor|]. unfold sink_entry.
  case_decide; [apply IH|]. simpl. constructor; [|apply IH].
  intros Hin. apply list_elem_of_fmap in Hin as (e & -> & He). apply sunk_ids in He. lia.
Qed.


(** Position.  An active query, started any number of times under any
    faults, numbers its next batch right after the last recorded one and its
    source stands exactly where that batch ended. *)
Theorem active_query_position cs m q :
  fresh_machine m -> admissible_all cs m -> MAX_STEP * Z.of_nat (length cs) < i_max 64 ->
  m_query (exec_all cs m) = Some q -> q_is_active q = true ->
  exists h, chain src_start h /\
    q_batch_id q = cs_committed_batch_id (load (m_store (exec_all cs m))) /\
    src_pos (rt_source q) = position (take (Z.to_nat (q_batch_id q)) h) /\
    snk_sync (app_of (exec_all cs m)) (m_durable (exec_all cs m)) (rt_sink q).
Proof.
  intros Hm Had Hlen Hq Hact. apply fresh_machine_ok in Hm.
  destruct (exec_all_ok cs 0 m Hm Had ltac:(lia)) as (c & h & Hd & _ & _ & HK). rewrite Hq in HK.
  destruct (HK Hact) as (_ & _ & Hpos & Hsy & _ & Hid). exists h. rewrite Hid.
  split; [by eapply du_chain|]. split; [|done]. symmetry. apply (du_committed _ _ _ _ _ Hd).
Qed.
End Exec.

End Invariant.
