(* ===== verification/Deploy.v ===== *)
(** * Deploy: the file source, the scheduler and the Delta sink together

    The instance of [ExactlyOnce] the product ships as
    [readStream.format("json") ... writeStream.format("delta")], the
    exactly-once theorem at the level of files and table rows, and concrete
    runs: the witnesses of the theorems, and runs outside their hypotheses
    that lose or duplicate records. *)

From S2P Require Import Prelude Text Arrow Watermark Dedup Source Checkpoint Effects Sink Delta DeltaSpec Scheduler ExactlyOnce.

(** What the deployment sees of the world: the input directory and the
    commits other writers make to the table. *)
Record DeployEnv `{Arrow} := { de_files : FileEnv; de_foreign : list Commit }.
#[export] Instance deploy_table_env `{Arrow} : TableEnv DeployEnv := de_foreign.

Section Deploy.
Context `{Arrow}.
Variable uuid : nat -> str.
Variable encoded_size : list RecordBatch -> Z.
Variable schema_matches : RecordBatch -> bool.
Variable checkpoint_interval : nat.
Variable del_ok : DeployEnv -> bool -> Z -> bool.
Variable sql_violations : str -> list RecordBatch -> result Error Z.
Variable content : str -> list RecordBatch.
Variable format : str.
(** The directories the run sees. *)
Variable listed : FileEnv -> Prop.

#[local] Instance deploy_source_laws : SourceLaws (Env := FileEnv) (St := FileSource) (gset (list Z)) :=
  file_laws content format listed.
#[local] Instance deploy_sink : Sink DeployEnv DeltaStore DeltaTableWriter :=
  delta_sink uuid encoded_size schema_matches checkpoint_interval.
#[local] Instance deploy_idempotent : IdempotentSink :=
  delta_idempotent uuid encoded_size schema_matches checkpoint_interval.

(** A pass-through query over a directory. *)
Definition file_query : QueryConfig (St := FileSource) := {|
  qc_pipeline := None; qc_watermark := None; qc_dedup_columns := []; qc_expectations := [];
  qc_source := {| fs_format := format; fs_seen := ∅ |} |}.

(** The files the ranges of a chain name, by the directory each was planned
    from. *)
Lemma chain_listed p h :
  chain (P := gset (list Z)) p h ->
  forall i r, h !! i = Some r -> br_items r <> [] /\
    exists e, stable_files content e /\ listed e /\
      br_items r = new_files e {| fs_format := format; fs_seen := p ∪ list_to_set (take i h ≫= br_items) |}.
Proof.
  revert p. induction h as [|r h IH]; intros p; [done|]. intros [(_ & Hne & e & He & Hl & Hit) Hch] [|i] r' Hi; cbn in Hi.
  - injection Hi as <-. split; [done|]. exists e. split; [done|]. split; [done|]. rewrite Hit. do 2 f_equal. cbn. set_solver.
  - destruct (IH _ Hch i r' Hi) as (Hne' & e' & He' & Hl' & E'). split; [done|]. exists e'. split; [done|]. split; [done|].
    rewrite E'. do 2 f_equal. change (take (S i) (r :: h)) with (r :: take i h). rewrite bind_cons, list_to_set_app_L. cbn. set_solver.
Qed.

Lemma files_NoDup p h :
  chain (P := gset (list Z)) p h -> NoDup (h ≫= br_items) /\ (forall q, q ∈ h ≫= br_items -> q ∉ p).
Proof.
  revert p. induction h as [|r h IH]; intros p; simpl; [by split; [constructor|intros q ?%elem_of_nil]|].
  intros [(_ & _ & e & He & _ & Hit) Hch]. apply IH in Hch as [Hnd' Hnew'].
  assert (forall q, q ∈ br_items r -> q ∉ p) as Hnew.
  { intros q. rewrite Hit. intros Hq. by apply elem_of_new_files in Hq as (? & _ & _ & ? & _). }
  split.
  - apply NoDup_app. split_and!; [rewrite Hit; by eapply new_files_NoDup| |done]. intros q Hq Hq'. apply Hnew' in Hq'.
    apply Hq'. apply elem_of_union. right. by apply elem_of_list_to_set.
  - intros q. rewrite elem_of_app. intros [Hq|Hq]; [by apply Hnew|]. apply Hnew' in Hq. set_solver.
Qed.

(** The batches that carry rows. *)
Definition nonempty (bs : list RecordBatch) : list RecordBatch := filter (fun b => num_rows b <> 0%nat) bs.

Lemma nonempty_zero bs : total_rows bs = 0%nat -> nonempty bs = [].
Proof.
  induction bs as [|b bs IH]; [done|]. intros Hz. unfold total_rows in *. rewrite fmap_cons in Hz.
  cbn [sum_list sum_list_with] in Hz. change (sum_list (num_rows b :: (num_rows <$> bs)) = 0%nat) in Hz.
  unfold nonempty. assert (num_rows b = 0%nat /\ sum_list (num_rows <$> bs) = 0%nat) as [Hb Hz'] by (simpl in Hz |- *; lia).
  rewrite filter_cons_False by (intros Hn; by apply Hn). by apply IH.
Qed.

Lemma sunk_content n h : nonempty (sunk file_query n h ≫= snd) = nonempty ((h ≫= br_items) ≫= content).
Proof.
  revert n. induction h as [|r h IH]; intros n; [done|].
  simpl. unfold nonempty in *. rewrite !bind_app, !filter_app, IH. f_equal.
  unfold sink_entry, batch_output, file_query. cbn [qc_pipeline]. case_decide as Hz.
  - symmetry. apply nonempty_zero. by destruct Hz.
  - simpl. by rewrite app_nil_r.
Qed.

Lemma items_concat (h : list BatchRange) : concat (br_items <$> h) = h ≫= br_items.
Proof. induction h as [|r h IH]; [done|]. cbn. by rewrite <-IH. Qed.

(** C2. Every file once, none skipped.  A directory ingested into a Delta table by
    a pass-through query (no pipeline, watermark, deduplication or
    expectations) on a fresh checkpoint: the files are taken in batches, each
    of which is exactly the data files of a directory listing the run saw that
    are in no earlier batch; no file is in two batches; and the rows the query
    has in the table are those of the batches recorded as committed, and at
    most of the one in flight beyond them, whatever failed and however often
    the query was restarted, and whatever other writers committed to the table
    meanwhile.  Scripts are those of [exactly_once]; files do not change once
    listed, and a listing names each entry once. *)
Theorem files_ingested_once cs m :
  fresh_machine (P := gset (list Z)) de_files m ->
  admissible_all de_files del_ok sql_violations file_query cs m ->
  MAX_STEP * Z.of_nat (length cs) < i_max 64 ->
  let m' := exec_all de_files del_ok sql_violations file_query cs m in
  let c := cs_committed_batch_id (load (m_store m')) in
  let rows := nonempty (delta_log (app_of m') (m_durable m') ≫= snd) in
  app_of m' <> [] ->
  exists batches : list (list (list Z)),
    NoDup (concat batches) /\
    (forall i items, batches !! i = Some items -> items <> [] /\
       exists e es, listed e /\ dir_entries e = Some es /\
         forall path, path ∈ items <->
           (path, true) ∈ es /\ is_stream_data_file path format = true /\ path ∉ concat (take i batches)) /\
    0 <= c <= Z.of_nat (length batches) /\ Z.of_nat (length batches) <= c + 1 /\
    (rows = nonempty (concat (take (Z.to_nat c) batches) ≫= content) \/ rows = nonempty (concat batches ≫= content)).
Proof.
  intros Hm Had Hlen m' c rows Ha.
  pose proof (exec_all_ok de_files del_ok sql_violations file_query eq_refl (conj eq_refl eq_refl)
    cs 0 m (fresh_machine_ok _ _ _ Hm) Had ltac:(lia)) as (c' & h & Hd & _).
  assert (c = c') as -> by apply (du_committed _ _ _ _ _ _ Hd).
  exists (br_items <$> h). rewrite items_concat, length_fmap. pose proof (du_chain _ _ _ _ _ _ Hd) as Hch.
  split; [by apply (files_NoDup ∅ h)|]. split.
  - intros i items Hi. rewrite list_lookup_fmap in Hi. destruct (h !! i) as [r|] eqn:Er; [|done]. injection Hi as <-.
    destruct (chain_listed ∅ h Hch i r Er) as (Hne & e & _ & Hl & Hit). split; [done|].
    destruct (dir_entries e) as [es|] eqn:Ees; [|unfold new_files in Hit; rewrite Ees in Hit; by rewrite Hit in Hne].
    exists e, es. split; [done|]. split; [done|]. intros path. rewrite <-fmap_take, items_concat, Hit, elem_of_new_files. cbn [fs_seen fs_format].
    rewrite union_empty_l_L. setoid_rewrite elem_of_list_to_set. split.
    + intros (es' & E' & ? & ? & ?). assert (es' = es) as -> by congruence. done.
    + intros (? & ? & ?). by exists es.
  - destruct (du_count _ _ _ _ _ _ Hd) as [? ?]. split; [done|]. split; [done|].
    rewrite <-fmap_take, items_concat, <-!(sunk_content 1).
    destruct (du_sink _ _ _ _ _ _ Hd Ha) as [_ [Hlog|Hlog]]; [left|right]; unfold rows; do 2 f_equal; exact Hlog.
Qed.
End Deploy.

(** ** Concrete runs *)
Module Runs.
Import RowBatch.

(** One batch of one column holding [ids]. *)
Definition ids_batch (ids : list Z) : batch :=
  {| fields := [(lit "id", OtherType)];
     rows := (fun i => [{| value := Some i; display := show_i i |}]) <$> ids |}.

(** Three files, and what they hold. *)
Definition file_a : str := lit "/in/a.json".
Definition file_b : str := lit "/in/b.json".
Definition file_c : str := lit "/in/c.json".
Definition content (path : str) : list RecordBatch :=
  if bool_decide (path = file_a) then [ids_batch [1; 2]]
  else if bool_decide (path = file_b) then [ids_batch [2; 3]]
  else if bool_decide (path = file_c) then [ids_batch [4]]
  else [].

Definition world (paths : list str) : DeployEnv := {|
  de_files := {| dir_entries := Some ((fun p => (p, true)) <$> paths);
                 read_file := fun _ p => Ok (content p) |};
  de_foreign := [] |}.

Definition calm (paths : list str) : event DeployEnv := {| ev_fault := fun _ => Proceed; ev_env := world paths |}.
(** Every call to [c] meets [f]. *)
Definition trouble (c : call) (f : fault) (paths : list str) : event DeployEnv :=
  {| ev_fault := fun c' => if bool_decide (c' = c) then f else Proceed; ev_env := world paths |}.

(** The directories of the runs that are looked at. *)
Definition seen_dirs : list (list str) := [[file_a]; [file_a; file_b]].
Definition seen_dir (e : FileEnv) : Prop := exists paths, paths ∈ seen_dirs /\ e = de_files (world paths).

Definition uuid (n : nat) : str := show_u (Z.of_nat n).
Definition size (_ : list RecordBatch) : Z := 0.
Definition conforms (_ : RecordBatch) : bool := true.
Definition deletes (_ : DeployEnv) (_ : bool) (_ : Z) : bool := true.
Definition no_violations (_ : str) (_ : list RecordBatch) : result Error Z := Ok 0.

#[export] Instance run_sink : Sink DeployEnv DeltaStore DeltaTableWriter := delta_sink uuid size conforms 10.
#[export] Instance run_idempotent : IdempotentSink := delta_idempotent uuid size conforms 10.
#[export] Instance run_laws : SourceLaws (Env := FileEnv) (St := FileSource) (gset (list Z)) := file_laws content (lit "json") seen_dir.

Definition query : QueryConfig := file_query (lit "json").
Definition run : list (command DeployEnv) -> Machine -> Machine := exec_all de_files deletes no_violations query.

Definition empty_table : DeltaStore :=
  {| ds_table := {| dt_log := []; dt_checkpoints := ∅; dt_last_checkpoint := None |}; ds_drawn := 0 |}.
Abbreviation FileMachine := (Machine (St := FileSource) (E := DeployEnv) (D := DeltaStore) (H' := DeltaTableWriter)) (only parsing).
Definition machine0 (paths : list str) : FileMachine :=
  {| m_env := world paths; m_store := empty_store; m_durable := empty_table; m_query := None |}.

Definition qid (id run : str) : StreamingQueryId := {| qid_id := id; qid_run_id := run |}.
Definition q1 : StreamingQueryId := qid (lit "q1") (lit "r1").
Definition q2 : StreamingQueryId := qid (lit "q2") (lit "r2").

(** The ids an application has in the table, per commit. *)
Definition batch_ids (b : batch) : list Z := omap (fun row => head row ≫= value) (rows b).
Definition table_ids (app : str) (m : FileMachine) : list (Z * list Z) :=
  (fun e => (fst e, snd e ≫= batch_ids)) <$> delta_log app (m_durable m).

(** The process dies between the sink write and the commit log, restarts
    under a new run id, and finishes the batch. *)
Definition crash_run : list (command DeployEnv) :=
  [CStart q1 []; CTrigger (replicate 40 (trouble SaveCommit CrashBefore [file_a]));
   CStart q2 [calm [file_a; file_b]]; CTrigger []; CTrigger []].

Example crash_run_result :
  table_ids (lit "q1") (run crash_run (machine0 [file_a])) = [(1, [1; 2]); (2, [2; 3])].
Proof. vm_compute. reflexivity. Qed.
Lemma seen_NoDup paths : paths ∈ seen_dirs -> NoDup paths.
Proof.
  intros Hin. assert (forallb (fun ps => bool_decide (NoDup ps)) seen_dirs = true) as Hall by (vm_compute; reflexivity).
  rewrite forallb_forall in Hall. by apply list_elem_of_In, Hall, bool_decide_eq_true in Hin.
Qed.
Lemma world_ok paths : paths ∈ seen_dirs -> src_env_ok (P := gset (list Z)) (de_files (world paths)).
Proof.
  intros Hin. split; [|by exists paths]. split; simpl; [by intros ??? [= <-]|]. intros es [= <-].
  rewrite <-list_fmap_compose. simpl. rewrite list_fmap_id. by apply seen_NoDup.
Qed.

Lemma trouble_ok app c f paths :
  delta_fault_ok c f -> base_fault_ok c f -> paths ∈ seen_dirs -> event_ok de_files app (trouble c f paths).
Proof.
  intros Hd Hb Hnd. split; [split; [|constructor]|split; [|by apply world_ok]];
    intros c'; simpl; (case_bool_decide; [by subst|]); by destruct c'.
Qed.

Lemma calm_ok app paths : paths ∈ seen_dirs -> event_ok de_files app (calm paths).
Proof.
  intros Hnd. split; [split; [|constructor]|split; [|by apply world_ok]]; by intros [].
Qed.

Lemma empty_table_ok app : snk_ok app empty_table /\ snk_log app empty_table = [].
Proof. split; [|done]. split; [done|]. intros v ck Hv. simpl in Hv. by apply lookup_empty_Some in Hv. Qed.

Lemma query_init : src_init (P := gset (list Z)) (qc_source query).
Proof. by split. Qed.

Lemma crash_run_admissible :
  fresh_machine (P := gset (list Z)) de_files (machine0 [file_a]) /\
  admissible_all de_files deletes no_violations query crash_run (machine0 [file_a]).
Proof.
  split.
  - split_and!; [done|done|]. apply world_ok. left.
  - cbn [crash_run admissible_all]. split.
    { split; [done|]. split; [constructor|]. intros _. apply empty_table_ok. }
    split.
    { apply Forall_replicate, trouble_ok; [done|done|]. left. }
    split.
    { split; [done|]. split.
      - constructor; [|constructor]. apply calm_ok. right. left.
      - intros Happ. exfalso. revert Happ. vm_compute. discriminate. }
    repeat split; constructor.
Qed.


Lemma crash_run_active :
  exists q, m_query (exec_all de_files deletes no_violations query crash_run (machine0 [file_a])) = Some q
            /\ q_is_active q = true.
Proof. eexists. split; [vm_compute; reflexivity|reflexivity]. Qed.

Lemma active_query_position_witness :
  exists (q : Query (St := FileSource) (H' := DeltaTableWriter)) h, q_is_active q = true /\ chain (P := gset (list Z)) src_start h /\
    src_pos (rt_source q) = position (P := gset (list Z)) (take (Z.to_nat (q_batch_id q)) h).
Proof.
  destruct crash_run_active as (q & Hq & Hact).
  destruct (active_query_position de_files deletes no_violations query eq_refl query_init
              crash_run (machine0 [file_a]) q (proj1 crash_run_admissible) (proj2 crash_run_admissible)
              ltac:(vm_compute; reflexivity) Hq Hact) as (h & Hch & _ & Hpos & _).
  exists q, h. exact (conj Hact (conj Hch Hpos)).
Defined.

Lemma files_ingested_once_witness :
  let m' := exec_all de_files deletes no_violations query crash_run (machine0 [file_a]) in
  let c := cs_committed_batch_id (load (m_store m')) in
  let rows := nonempty (delta_log (app_of m') (m_durable m') ≫= snd) in
  exists batches : list (list (list Z)),
    NoDup (concat batches) /\
    (forall i items, batches !! i = Some items -> items <> [] /\
       exists e es, seen_dir e /\ dir_entries e = Some es /\
         forall path, path ∈ items <->
           (path, true) ∈ es /\ is_stream_data_file path (lit "json") = true /\ path ∉ concat (take i batches)) /\
    0 <= c <= Z.of_nat (length batches) /\ Z.of_nat (length batches) <= c + 1 /\
    (rows = nonempty (concat (take (Z.to_nat c) batches) ≫= content) \/ rows = nonempty (concat batches ≫= content)).
Proof.
  exact (files_ingested_once uuid size conforms 10 deletes no_violations content (lit "json") seen_dir
           crash_run (machine0 [file_a]) (proj1 crash_run_admissible) (proj2 crash_run_admissible)
           ltac:(vm_compute; reflexivity) ltac:(vm_compute; discriminate)).
Defined.

(** ** Runs outside the hypotheses *)

(** A lost acknowledgement duplicates a batch.  [with_retry!] writes the
    batch again after a commit that landed but was not acknowledged; the
    writer's cached transaction number does not know of it, the version is
    taken, and the refreshed log is not consulted for the transaction before
    the commit is made again: the rows are in the table twice. *)
Theorem lost_ack_duplicates :
  table_ids (lit "q1")
    (run [CStart q1 []; CTrigger (replicate 6 (trouble PutCommit (FailAfter (Io [])) [file_a]))] (machine0 [file_a]))
  = [(1, [1; 2]); (1, [1; 2])].
Proof. vm_compute. reflexivity. Qed.

(** A resume record that cannot be read is taken for a fresh query.  After
    three recorded batches a start that fails to read [offsets.json] begins
    again from nothing, under a new application id, and ingests every file a
    second time. *)
Theorem unreadable_record_duplicates :
  let m := run [CStart q1 []; CTrigger []; CWorld (world [file_a; file_b]); CTrigger [];
                CWorld (world [file_a; file_b; file_c]); CTrigger []; CKill;
                CStart q2 (replicate 10 (trouble LoadState (FailBefore (Io [])) [file_a; file_b; file_c]));
                CTrigger []] (machine0 [file_a]) in
  table_ids (lit "q1") m = [(1, [1; 2]); (2, [2; 3]); (3, [4])] /\
  table_ids (lit "q2") m = [(1, [1; 2; 2; 3; 4])].
Proof. vm_compute. split; reflexivity. Qed.

(** The pipeline runner keeps a query whose batch failed and triggers it
    again (oxidant-pipelines/src/runner.rs); [cfg] as in [exec]. *)
Definition run_keeping (cfg : QueryConfig) (sc : list (event DeployEnv)) (m : FileMachine) : FileMachine :=
  match m_query m with
  | None => m
  | Some q =>
      match run_batch de_files deletes no_violations cfg {| sy_base := base_of m sc; sy_query := q |} with
      | (Crashed, s) => machine_of (sy_base s) None
      | (_, s) => machine_of (sy_base s) (Some (sy_query s))
      end
  end.
Definition go (cfg : QueryConfig) (c : command DeployEnv) (m : FileMachine) : FileMachine :=
  exec de_files deletes no_violations cfg c m.

(** The same query with [dropDuplicates("id")]. *)
Definition dedup_query : QueryConfig (St := FileSource) := {|
  qc_pipeline := None; qc_watermark := None; qc_dedup_columns := [lit "id"]; qc_expectations := [];
  qc_source := {| fs_format := lit "json"; fs_seen := ∅ |} |}.

(** A failed sink write of a deduplicating query loses its rows.  The keys
    of the batch enter the deduplication state before the write; when the
    write fails and the same process triggers again, every row of the batch
    is its own duplicate, and the batch is committed empty. *)
Theorem dedup_retry_loses_rows :
  let m := run_keeping dedup_query []
             (run_keeping dedup_query (replicate 8 (trouble PutData (FailBefore (Io [])) [file_a]))
               (go dedup_query (CStart q1 []) (machine0 [file_a]))) in
  cs_committed_batch_id (load (m_store m)) = 1 /\ table_ids (lit "q1") m = [].
Proof. vm_compute. split; reflexivity. Qed.

(** Recovery from the commit log forgets the batch's deduplication keys.
    A process that dies after the commit entry and before the resume record
    leaves the state of the batch before it; the restarted query admits a row
    it has already written. *)
Theorem recovery_readmits_duplicates :
  let next m := go dedup_query (CTrigger [calm [file_a; file_b]]) m in
  let clean := next (go dedup_query (CTrigger []) (go dedup_query (CStart q1 []) (machine0 [file_a]))) in
  let crashed := next (go dedup_query (CStart q2 [])
                   (go dedup_query (CTrigger (replicate 40 (trouble LoadState CrashBefore [file_a])))
                      (go dedup_query (CStart q1 []) (machine0 [file_a])))) in
  table_ids (lit "q1") clean = [(1, [1; 2]); (2, [3])] /\
  table_ids (lit "q1") crashed = [(1, [1; 2]); (2, [2; 3])].
Proof. vm_compute. split; reflexivity. Qed.

(** Pruning runs ahead of the resume record.  Two batches are committed
    while the record cannot be saved and the process goes on; the second
    prunes the first's log entries.  A restart then plans a first batch again,
    and a file that arrived since is planned into it, dropped by the sink as a
    replay, and recorded as consumed. *)
Theorem prune_before_save_loses_rows :
  let fail_save paths := replicate 20 (trouble SaveState (FailBefore (Io [])) paths) in
  let m1 := run_keeping query (fail_save [file_a]) (go query (CStart q1 []) (machine0 [file_a])) in
  let m2 := run_keeping query (fail_save [file_a; file_b]) m1 in
  let m3 := go query (CTrigger []) (go query (CStart q2 [calm [file_a; file_b; file_c]]) (go query CKill m2)) in
  table_ids (lit "q1") m3 = [(1, [1; 2]); (2, [2; 3])] /\
  cs_source_offsets (load (m_store m3)) = Some (file_offsets {[file_a; file_b; file_c]}).
Proof. vm_compute. split; reflexivity. Qed.

(** [q1] writes its batch 1, [q2] one of its own, and [q1], reopened, its
    batch 1 again; checkpoints are due every second commit. *)
Definition two_writers : DeltaStore :=
  let write app id ids d :=
    match sink_open (Sink := delta_sink uuid size conforms 2) app {| st_script := []; st_durable := d |} with
    | (Done h, w) =>
        let '(_, w') := sink_write (Sink := delta_sink uuid size conforms 2) [ids_batch ids] id
                          {| sw_store := w; sw_handle := h |} in durable w'
    | _ => d
    end in
  write (lit "q1") 1 [1; 2] (write (lit "q2") 1 [7] (write (lit "q1") 1 [1; 2] empty_table)).

(** A checkpoint drops the transactions of other applications.  Two
    queries append to one table; a checkpoint written by the second carries
    only its own [txn], so the first, reopened, no longer recognizes a batch
    it has committed and writes it again. *)
Theorem checkpoint_drops_other_txn :
  (fun e => (fst e, snd e ≫= batch_ids)) <$> delta_log (lit "q1") two_writers = [(1, [1; 2]); (1, [1; 2])].
Proof. vm_compute. reflexivity. Qed.

End Runs.
