(* ===== verification/Aqe.v ===== *)
(** * Aqe: adaptive partition coalescing (oxidant-execution/src/aqe.rs)

    How many reader partitions a shuffle is consumed with, and which
    producer buckets each of them pulls. *)

From S2P Require Import Prelude Text.

(** The environment, one optional value per variable. *)
Record AqeEnv := {
  env_aqe : option str;
  env_concentrated : option str;
  env_coalesce_max_rows : option str;
  env_advisory_bytes : option str;
}.

(** The switch shared by [aqe_enabled] and [concentrated_coalesce_enabled]:
    on unless set to one of four spellings of "off". *)
Definition switch_on (v : option str) : bool :=
  match v with
  | None => true
  | Some v => negb (bool_decide (v = lit "0") || eq_ignore_ascii_case v (lit "false")
                    || eq_ignore_ascii_case v (lit "off") || eq_ignore_ascii_case v (lit "no"))
  end.
Definition aqe_enabled (e : AqeEnv) : bool := switch_on (env_aqe e).
Definition concentrated_coalesce_enabled (e : AqeEnv) : bool := switch_on (env_concentrated e).

Definition parse_usize (s : str) : option Z := parse_u 10 (u_max 64) s.

Definition aqe_coalesce_max_rows (e : AqeEnv) : Z :=
  default 4096 (env_coalesce_max_rows e ≫= parse_usize).

Definition DEFAULT_AQE_ADVISORY_PARTITION_BYTES : Z := 64 * 1024 * 1024.
Definition AQE_ADVISORY_ROW_WIDTH_BYTES : Z := 64.

Definition aqe_advisory_partition_bytes (e : AqeEnv) : Z :=
  match env_advisory_bytes e ≫= parse_usize with
  | Some n => if 0 <? n then n else DEFAULT_AQE_ADVISORY_PARTITION_BYTES
  | None => DEFAULT_AQE_ADVISORY_PARTITION_BYTES
  end.
Definition aqe_advisory_partition_rows (e : AqeEnv) : Z :=
  aqe_advisory_partition_bytes e / AQE_ADVISORY_ROW_WIDTH_BYTES.

(** [(a..b).step_by(m)], for [0 < m]. *)
Definition step_range (a b m : Z) : list Z :=
  (fun i => a + i * m) <$> range 0 ((b - a + m - 1) / m).

(** [coalesced_read_buckets]: the buckets reader [partition] of [m] pulls. *)
Definition coalesced_read_buckets (np m partition : Z) : list Z :=
  let m := Z.max m 1 in
  if m <=? partition then [] else step_range partition np m.

(** [bucket_row_counts.iter().skip(p).step_by(m).sum()]. *)
Definition bucket_at (counts : list Z) (b : Z) : Z := default 0 (counts !! Z.to_nat b).
Definition class_load (counts : list Z) (m p : Z) : Z :=
  sumZ (bucket_at counts <$> step_range p (Z.of_nat (length counts)) m).

(** [worst_coalesced_load]. *)
Definition worst_coalesced_load (counts : list Z) (m : Z) : Z :=
  let m := Z.max m 1 in maxZ 0 (class_load counts m <$> range 0 m).

(** [u32::clamp], which panics when its bounds cross. *)
Definition clamp (lo hi z : Z) : option Z := if hi <? lo then None else Some (clampi lo hi z).

(** [coalesced_partitions]; [None] is a panic. *)
Definition coalesced_partitions (e : AqeEnv) (num_workers current_partitions : Z) (counts : list Z) : option Z :=
  if negb (aqe_enabled e) then Some current_partitions
  else
    let max_rows := aqe_coalesce_max_rows e in
    match counts with
    | [] => Some current_partitions
    | _ =>
        let total := wrapu 64 (sumZ counts) in
        if total =? 0 then Some 1
        else
          let max_bucket := maxZ 0 counts in
          let floor := wrapu 32 (Z.max num_workers 1) in
          let declined :=
            ((total <? wrapu 64 (max_bucket * 3)) && (2 <? Z.of_nat (length counts)))
            || (max_rows <? max_bucket)
            || (Z.of_nat (length counts) <=? floor) in
          if negb declined then
            let rows_per_part := Z.max (aqe_advisory_partition_rows e) 1 in
            let target := wrapu 32 (wrapu 64 (wrapu 64 (total + rows_per_part) - 1) / rows_per_part) in
            clamp floor current_partitions target
          else if negb (concentrated_coalesce_enabled e) then Some current_partitions
          else match filter (fun m => worst_coalesced_load counts m <= max_bucket) (range floor current_partitions) with
               | m :: _ => Some m
               | [] => Some current_partitions
               end
    end.

(** ** Reading every bucket once *)

Lemma elem_of_step_range a b m x :
  0 < m -> x ∈ step_range a b m <-> a <= x < b /\ (x - a) mod m = 0.
Proof.
  intros Hm. unfold step_range. rewrite list_elem_of_fmap. split.
  - intros (i & -> & Hi%elem_of_range). replace (a + i * m - a) with (i * m) by lia.
    rewrite Z.mod_mul by lia. split; [|done].
    assert (i + 1 <= (b - a + m - 1) / m) as Hi1 by lia.
    pose proof (Z.mul_div_le (b - a + m - 1) m Hm). nia.
  - intros [Hx Hmod]. exists ((x - a) / m). pose proof (Z.div_mod (x - a) m ltac:(lia)) as Hd.
    split; [lia|]. apply elem_of_range. split; [apply Z.div_pos; lia|].
    assert ((x - a) / m + 1 <= (b - a + m - 1) / m); [|lia].
    apply Z.div_le_lower_bound; [lia|]. nia.
Qed.

Lemma step_range_NoDup a b m : 0 < m -> NoDup (step_range a b m).
Proof. intros Hm. apply NoDup_fmap_2; [|apply range_NoDup]. intros x y Hxy. nia. Qed.

Lemma elem_of_read_buckets np m p b :
  0 < m -> 0 <= p < m -> b ∈ coalesced_read_buckets np m p <-> p <= b < np /\ b mod m = p.
Proof.
  intros Hm Hp. unfold coalesced_read_buckets. rewrite Z.max_l by lia.
  destruct (Z.leb_spec m p); [lia|]. rewrite elem_of_step_range by lia. split.
  - intros [Hb Hmod]. split; [done|]. apply Z.mod_divide in Hmod as [k Hk]; [|lia].
    replace b with (p + k * m) by lia. rewrite Z.mod_add by lia. by apply Z.mod_small.
  - intros [Hb Hmod]. split; [done|]. pose proof (Z.div_mod b m ltac:(lia)) as Hd.
    replace (b - p) with (b / m * m) by lia. apply Z.mod_mul. lia.
Qed.

(** [foldr] of disjoint duplicate-free lists. *)
Lemma NoDup_bind {A B} (f : A -> list B) (l : list A) :
  NoDup l -> (forall x, x ∈ l -> NoDup (f x)) ->
  (forall x y b, x ∈ l -> y ∈ l -> b ∈ f x -> b ∈ f y -> x = y) -> NoDup (l ≫= f).
Proof.
  induction 1 as [|x l Hx Hl IH]; intros Hf Hd; simpl; [constructor|]. apply NoDup_app. split_and!.
  - apply Hf. left.
  - intros b Hb Hb'. apply list_elem_of_bind in Hb' as (y & Hby & Hy).
    apply Hx. rewrite (Hd x y b) by (done || by left || by right). done.
  - apply IH; [|]; intros; [apply Hf|eapply Hd]; try (by right); done.
Qed.

(** The [m] readers together pull each of the [np] buckets the producers
    wrote once, and nothing else. *)
Lemma coalesced_buckets_perm np m :
  0 <= np -> 0 <= m -> range 0 (Z.max m 1) ≫= coalesced_read_buckets np m ≡ₚ range 0 np.
Proof.
  intros Hnp Hm. replace (coalesced_read_buckets np m) with (coalesced_read_buckets np (Z.max m 1)).
  2:{ unfold coalesced_read_buckets. by replace (Z.max (Z.max m 1) 1) with (Z.max m 1) by lia. }
  set (k := Z.max m 1). assert (0 < k) as Hk by lia. apply NoDup_same_perm.
  - apply NoDup_bind; [apply range_NoDup| |].
    + intros p Hp%elem_of_range. unfold coalesced_read_buckets. case_goal; [constructor|]. apply step_range_NoDup. lia.
    + intros p q b Hp%elem_of_range Hq%elem_of_range Hbp Hbq.
      apply elem_of_read_buckets in Hbp as [_ <-]; [|lia..]. by apply elem_of_read_buckets in Hbq as [_ ?]; [|lia..].
  - apply range_NoDup.
  - intros b. rewrite list_elem_of_bind, elem_of_range. split.
    + intros (p & Hb & Hp%elem_of_range). apply elem_of_read_buckets in Hb as [? _]; lia.
    + intros Hb. exists (b mod k). pose proof (Z.mod_pos_bound b k Hk).
      pose proof (Z.mod_le b k ltac:(lia) ltac:(lia)). split; [|apply elem_of_range; lia].
      apply elem_of_read_buckets; [lia|lia|]. split; [lia|done].
Qed.

(** The load a modulus is judged by is what the readers will pull. *)
Lemma class_load_read counts m p :
  0 <= p < Z.max m 1 ->
  class_load counts (Z.max m 1) p = sumZ (bucket_at counts <$> coalesced_read_buckets (Z.of_nat (length counts)) m p).
Proof.
  intros Hp. unfold class_load, coalesced_read_buckets. by destruct (Z.leb_spec (Z.max m 1) p); [lia|].
Qed.

Lemma worst_load_bound counts m p :
  0 <= p < Z.max m 1 -> class_load counts (Z.max m 1) p <= worst_coalesced_load counts m.
Proof. intros Hp. apply maxZ_elem. apply list_elem_of_fmap_2. by apply elem_of_range. Qed.

Lemma filter_cons_elem {A} (Q : A -> Prop) `{!forall x, Decision (Q x)} l x k :
  filter Q l = x :: k -> x ∈ l /\ Q x.
Proof.
  intros Hf. assert (x ∈ filter Q l) as Hx by (rewrite Hf; left). by apply list_elem_of_filter in Hx as [? ?].
Qed.

(** The decision is safe: for as many buckets as partitions, with counts
    and workers in range, no [clamp] panics, the result is a partition count
    between one and the current one, and it either sizes the stage by the
    advisory bound, which only happens when every bucket is small and no
    bucket dominates, or leaves every reader with at most the rows of the
    largest bucket. *)
Theorem coalesced_partitions_safe e num_workers current counts :
  0 <= num_workers <= u_max 32 -> 1 <= current <= u_max 32 -> Z.of_nat (length counts) = current ->
  Forall (fun c => 0 <= c) counts -> sumZ counts * 3 <= u_max 64 ->
  exists m, coalesced_partitions e num_workers current counts = Some m /\ 1 <= m <= current /\
    (m = current \/ sumZ counts = 0 \/
     (Forall (fun c => c <= aqe_coalesce_max_rows e) counts /\ Z.max num_workers 1 <= m) \/
     (forall p, 0 <= p < m ->
        sumZ (bucket_at counts <$> coalesced_read_buckets current m p) <= maxZ 0 counts)).
Proof.
  intros Hw Hcur Hlen Hnn Hsum. unfold coalesced_partitions.
  assert (0 <= sumZ counts) as Hs0 by (by apply sumZ_nonneg).
  assert (wrapu 32 (Z.max num_workers 1) = Z.max num_workers 1) as Hfl.
  { apply wrapu_small; [|lia]. unfold u_ok, u_max in *. lia. }
  assert (wrapu 64 (sumZ counts) = sumZ counts) as Htot.
  { apply wrapu_small; [|lia]. unfold u_ok. lia. }
  destruct (aqe_enabled e); simpl; [|exists current; auto with lia].
  destruct counts as [|c0 cs] eqn:Ec; [exists current; simpl in Hlen; lia|]. rewrite <-Ec in *. clear Ec c0 cs.
  rewrite Htot, Hfl. destruct (Z.eqb_spec (sumZ counts) 0) as [Hz|Hz]; [exists 1; split; [done|]; split; [lia|auto]|].
  destruct (negb _) eqn:Ed.
  - bool_to_prop. unfold clamp. destruct (Z.ltb_spec current (Z.max num_workers 1)); [lia|].
    eexists. split; [done|]. unfold clampi. split; [lia|]. right. right. left. split; [|lia].
    apply Forall_forall. intros c Hc. apply (maxZ_elem 0) in Hc. lia.
  - destruct (concentrated_coalesce_enabled e); simpl; [|exists current; split; [done|]; split; [lia|auto]].
    destruct (filter _ _) as [|m ms] eqn:Ef; [exists current; split; [done|]; split; [lia|auto]|].
    apply filter_cons_elem in Ef as [Hm%elem_of_range Hworst]. exists m. split; [done|]. split; [lia|].
    right. right. right. intros p Hp. etrans; [|exact Hworst]. rewrite <-Hlen, <-class_load_read by lia.
    apply worst_load_bound. lia.
Qed.

Definition default_env : AqeEnv :=
  {| env_aqe := None; env_concentrated := None; env_coalesce_max_rows := None; env_advisory_bytes := None |}.

Lemma coalesced_partitions_safe_witness :
  coalesced_partitions default_env 2 4 [10; 10; 10; 9000] = Some 4 /\
  exists m, coalesced_partitions default_env 2 4 [10; 10; 10; 9000] = Some m /\ 1 <= m <= 4.
Proof.
  split; [vm_compute; reflexivity|].
  destruct (coalesced_partitions_safe default_env 2 4 [10; 10; 10; 9000]) as (m & Hm & Hr & _);
    [vm_compute; split; discriminate|vm_compute; split; discriminate|reflexivity|repeat constructor; lia|vm_compute; discriminate|].
  exists m. split; [exact Hm|exact Hr].
Defined.
