(* ===== verification/Shuffle.v ===== *)
(** * Shuffle: hash partitioning, headers and task-local table names
    (oxidant-execution/src/shuffle/partition.rs, protocol.rs, mod.rs)

    The producer side of an exchange, its wire header, and the rewriting of a
    stage's SQL to the names under which one task registers its inputs. *)

From S2P Require Import Prelude Text Arrow Aqe.

(** ** FNV-1a *)

Definition FNV_OFFSET : Z := 0xcbf29ce484222325.
Definition FNV_PRIME : Z := 0x100000001b3.

Definition fnv1a_step (h b : Z) : Z := wrapu 64 (Z.lxor h b * FNV_PRIME).
Definition fnv1a (bytes : list Z) : Z := foldl fnv1a_step FNV_OFFSET bytes.

Lemma fnv1a_range bytes : u_ok 64 (fnv1a bytes).
Proof.
  unfold fnv1a. apply foldl_inv; [by vm_compute|]. intros h b _ _. by apply wrapu_range.
Qed.

(** ** Hash partitioning *)

(** The Arrow kernels used: the rows and the columns of a batch, [take] and
    [StringViewArray::gc] on a column, a batch of another batch's schema, and
    the row format of the key columns. *)
Class RowKernels `{Arrow} := {
  Row : Type;
  rows_of : RecordBatch -> list Row;
  Column : Type;
  columns : RecordBatch -> list Column;
  (** Some field of the batch's schema is [Utf8View]. *)
  has_view_field : RecordBatch -> bool;
  is_view : Column -> bool;
  (** [downcast_ref::<StringViewArray>()] and [gc]. *)
  gc_view : Column -> option Column;
  take_col : Column -> list nat -> result str Column;
  (** [RecordBatch::try_new(batch.schema(), cols)]. *)
  try_new : RecordBatch -> list Column -> result str RecordBatch;
  Converter : Type;
  (** [RowConverter::new] for these columns of the batch's schema. *)
  row_converter : RecordBatch -> list nat -> result str Converter;
  convert_columns : Converter -> RecordBatch -> list nat -> result str (list (list Z));
}.

(** What Arrow documents: [take] selects the rows of every column, [gc] copies
    a column, and the row format gives one encoding per row, a function of the
    row's key columns. *)
Class RowKernelsLaws `{RowKernels} := {
  encode_row : list nat -> Row -> list Z;
  take_rows b idx cols b' : mapM_result (fun c => take_col c idx) (columns b) = Ok cols -> try_new b cols = Ok b' ->
    rows_of b' = omap (fun i => rows_of b !! i) idx;
  gc_rows b cols b' : Forall2 (fun c c' => c' = c \/ gc_view c = Some c') (columns b) cols -> try_new b cols = Ok b' ->
    rows_of b' = rows_of b;
  convert_rows b0 b ks conv enc : row_converter b0 ks = Ok conv -> convert_columns conv b ks = Ok enc ->
    enc = encode_row ks <$> rows_of b;
}.

Section Partition.
Context `{RowKernels}.

(** An error of Arrow, under the prefix of the call that reports it. *)
Definition arrow_err {A} (prefix : str) (r : result str A) : result Error A :=
  match r with Ok x => Ok x | Err m => Err (Execution (fmt [prefix; m])) end.

Definition compact_col (c : Column) : result Error Column :=
  if is_view c then match gc_view c with Some c' => Ok c' | None => Err (Execution (lit "Utf8View downcast")) end
  else Ok c.

Definition compact_views (b : RecordBatch) : result Error RecordBatch :=
  if negb (has_view_field b) then Ok b
  else let! cols := mapM_result compact_col (columns b) in
       arrow_err (lit "compact partition batch: ") (try_new b cols).

(** The batch of the rows at [idx]. *)
Definition take_batch (b : RecordBatch) (idx : list nat) : result Error RecordBatch :=
  let! cols := arrow_err (lit "take: ") (mapM_result (fun c => take_col c idx) (columns b)) in
  arrow_err (lit "build partition batch: ") (try_new b cols).

(** The bucket of an encoded key. *)
Definition bucket_of (n : nat) (key : list Z) : nat := Z.to_nat (fnv1a key mod Z.of_nat n).

(** [idx[bucket]]: the rows of the batch that land in [bucket], in order. *)
Definition bucket_indices (n : nat) (encoded : list (list Z)) (bucket : nat) : list nat :=
  filter (fun i => bucket_of n <$> encoded !! i = Some bucket) (seq 0 (length encoded)).

(** The part of a batch that goes to one bucket, if any. *)
Definition bucket_part (n : nat) (b : RecordBatch) (encoded : list (list Z)) (bucket : nat) (bs : list RecordBatch)
  : result Error (list RecordBatch) :=
  match bucket_indices n encoded bucket with
  | [] => Ok bs
  | idx => let! part := take_batch b idx in let! part := compact_views part in Ok (bs ++ [part])
  end.

(** One iteration of the batch loop of [hash_partition]: each bucket that got
    rows gets one more batch. *)
Definition partition_batch (n : nat) (b : RecordBatch) (encoded : list (list Z)) (out : list (list RecordBatch))
  : result Error (list (list RecordBatch)) :=
  mapM_result (fun x : nat * list RecordBatch => bucket_part n b encoded x.1 x.2) (imap pair out).

Fixpoint partition_loop (n : nat) (conv : Converter) (key_cols : list nat) (batches : list RecordBatch)
    (out : list (list RecordBatch)) : result Error (list (list RecordBatch)) :=
  match batches with
  | [] => Ok out
  | b :: bs =>
      let! encoded := arrow_err (lit "convert columns: ") (convert_columns conv b key_cols) in
      let! out := partition_batch n b encoded out in
      partition_loop n conv key_cols bs out
  end.

(** [hash_partition], for [0 < n] (the code asserts it). *)
Definition hash_partition (batches : list RecordBatch) (key_cols : list nat) (n : nat)
  : result Error (list (list RecordBatch)) :=
  let out := replicate n [] in
  match batches, key_cols with
  | [], _ => Ok out
  | _, [] => let! first := mapM_result compact_views batches in Ok (first :: replicate (n - 1) [])
  | b0 :: _, _ =>
      let! conv := arrow_err (lit "row converter: ") (row_converter b0 key_cols) in
      partition_loop n conv key_cols batches out
  end.

Definition all_rows (bs : list RecordBatch) : list Row := bs ≫= rows_of.

(** *** The shape of the result *)

Lemma arrow_err_ok {A} prefix (r : result str A) x : arrow_err prefix r = Ok x -> r = Ok x.
Proof. destruct r; simpl; intros Hr; by simplify_eq. Qed.

Lemma compact_views_ok b b' : compact_views b = Ok b' ->
  b' = b \/ exists cols, Forall2 (fun c c' => c' = c \/ gc_view c = Some c') (columns b) cols /\ try_new b cols = Ok b'.
Proof.
  unfold compact_views. destruct (has_view_field b); simpl; [|intros Hb; simplify_eq; by left].
  destruct (mapM_result compact_col (columns b)) as [cols|] eqn:Hm; [|done]. simpl. intros Hnew%arrow_err_ok.
  right. exists cols. split; [|done]. apply mapM_result_ok in Hm. eapply Forall2_impl; [exact Hm|].
  intros c c' Hc. unfold compact_col in Hc. destruct (is_view c); [|by left; simplify_eq].
  right. destruct (gc_view c); by simplify_eq.
Qed.

Lemma take_batch_ok b idx b' : take_batch b idx = Ok b' ->
  exists cols, mapM_result (fun c => take_col c idx) (columns b) = Ok cols /\ try_new b cols = Ok b'.
Proof.
  unfold take_batch. destruct (arrow_err _ _) as [cols|] eqn:Hm; [|done]. simpl.
  intros Hnew%arrow_err_ok. apply arrow_err_ok in Hm. by exists cols.
Qed.

Lemma lookup_partition_batch n b enc out res : partition_batch n b enc out = Ok res ->
  length res = length out /\
  forall i bs', res !! i = Some bs' -> exists bs, out !! i = Some bs /\ bucket_part n b enc i bs = Ok bs'.
Proof.
  intros Hm%mapM_result_ok. split; [apply Forall2_length in Hm; by rewrite length_imap in Hm|].
  intros i bs' Hi. destruct (Forall2_lookup_r _ _ _ _ _ Hm Hi) as ([j bs] & Hj & Hf).
  rewrite list_lookup_imap in Hj. destruct (out !! i) as [x|]; simplify_eq/=. by exists bs.
Qed.
End Partition.

Section PartitionLaws.
Context `{RowKernelsLaws}.

(** The rows of [l] that go to [bucket]. *)
Definition rows_in (n : nat) (ks : list nat) (bucket : nat) (l : list Row) : list Row :=
  filter (fun r => bucket_of n (encode_row ks r) = bucket) l.

Lemma bucket_of_lt n key : (0 < n)%nat -> (bucket_of n key < n)%nat.
Proof.
  intros Hn. unfold bucket_of. pose proof (Z.mod_pos_bound (fnv1a key) (Z.of_nat n) ltac:(lia)). lia.
Qed.

Lemma take_filter_seq {A} (Q : A -> Prop) `{!forall x, Decision (Q x)} (R : nat -> Prop) `{!forall i, Decision (R i)}
    (l : list A) k :
  (forall i x, l !! i = Some x -> R (k + i)%nat <-> Q x) ->
  omap (fun i => l !! (i - k)%nat) (filter R (seq k (length l))) = filter Q l.
Proof.
  revert k. induction l as [|x l IH]; intros k HR; [done|]. cbn [length seq].
  assert (omap (fun i => (x :: l) !! (i - k)%nat) (filter R (seq (S k) (length l))) = filter Q l) as Hrest.
  { rewrite <-(IH (S k)).
    - apply list_omap_ext, Forall_Forall2_diag, Forall_forall. intros i [_ Hi]%list_elem_of_filter.
      apply elem_of_seq in Hi. by replace (i - k)%nat with (S (i - S k)) by lia.
    - intros i y Hi. rewrite <-(HR (S i) y Hi). by replace (k + S i)%nat with (S k + i)%nat by lia. }
  pose proof (HR 0%nat x eq_refl) as Hzero. rewrite Nat.add_0_r in Hzero.
  rewrite !filter_cons. destruct (decide (R k)) as [Hk|Hk], (decide (Q x)) as [Hx|Hx]; try tauto.
  simpl. rewrite Nat.sub_diag. simpl. f_equal. exact Hrest.
Qed.

Lemma compact_views_rows b b' : compact_views b = Ok b' -> rows_of b' = rows_of b.
Proof. intros [->|(cols & Hc & Hnew)]%compact_views_ok; [done|]. by eapply gc_rows. Qed.

Lemma indices_rows n ks b enc bucket : enc = encode_row ks <$> rows_of b ->
  omap (fun i => rows_of b !! i) (bucket_indices n enc bucket) = rows_in n ks bucket (rows_of b).
Proof.
  intros ->. unfold bucket_indices, rows_in. rewrite length_fmap.
  rewrite <-(take_filter_seq (fun r => bucket_of n (encode_row ks r) = bucket)
    (fun i => bucket_of n <$> (encode_row ks <$> rows_of b) !! i = Some bucket) (rows_of b) 0).
  - apply list_omap_ext. apply Forall_Forall2_diag, Forall_forall. intros i _. by rewrite Nat.sub_0_r.
  - intros i r Hr. simpl. rewrite list_lookup_fmap, Hr. simpl. naive_solver.
Qed.

Lemma bucket_part_rows n ks b enc i bs bs' : enc = encode_row ks <$> rows_of b ->
  bucket_part n b enc i bs = Ok bs' -> all_rows bs' = all_rows bs ++ rows_in n ks i (rows_of b).
Proof.
  intros Henc Hpart. pose proof (indices_rows n ks b enc i Henc) as Hidx. unfold bucket_part in Hpart.
  destruct (bucket_indices n enc i) as [|j js]; [simplify_eq; rewrite <-Hidx; simpl; by rewrite app_nil_r|].
  destruct (take_batch b (j :: js)) as [part|] eqn:Ht; [|done]. simpl in Hpart.
  destruct (compact_views part) as [part'|] eqn:Hc; [|done]. simplify_eq/=.
  apply take_batch_ok in Ht as (cols & Hcols & Hnew).
  unfold all_rows. rewrite bind_app. f_equal. simpl. rewrite app_nil_r, (compact_views_rows _ _ Hc).
  rewrite <-Hidx. exact (take_rows b (j :: js) cols part Hcols Hnew).
Qed.

Lemma partition_loop_rows n conv ks b0 batches : row_converter b0 ks = Ok conv -> forall out res,
  partition_loop n conv ks batches out = Ok res ->
  length res = length out /\
  forall i bs', res !! i = Some bs' -> exists bs, out !! i = Some bs /\ all_rows bs' = all_rows bs ++ rows_in n ks i (all_rows batches).
Proof.
  intros Hconv. induction batches as [|b bs IH]; intros out res Hrun; simpl in Hrun.
  { simplify_eq. split; [done|]. intros i bs' Hi. exists bs'. split; [done|].
    unfold rows_in, all_rows. simpl. by rewrite app_nil_r. }
  destruct (arrow_err _ _) as [enc|] eqn:Henc; [|done]. simpl in Hrun. apply arrow_err_ok in Henc.
  apply (convert_rows b0) in Henc; [|done].
  destruct (partition_batch n b enc out) as [out'|] eqn:Hpb; [|done]. simpl in Hrun.
  apply lookup_partition_batch in Hpb as [Hlen' Hpb]. destruct (IH _ _ Hrun) as [Hlen Hi]. split; [lia|].
  intros i bs' Hbs'. destruct (Hi i bs' Hbs') as (mid & Hmid & Hrows). destruct (Hpb i mid Hmid) as (obs & Hobs & Hpart).
  exists obs. split; [done|]. rewrite Hrows, (bucket_part_rows n ks b enc i obs mid Henc Hpart), <-app_assoc.
  f_equal. unfold rows_in, all_rows. simpl. by rewrite filter_app.
Qed.

(** The rows split over the buckets are the rows. *)
Lemma rows_in_partition n ks l :
  (0 < n)%nat -> seq 0 n ≫= (fun i => rows_in n ks i l) ≡ₚ l.
Proof.
  intros Hn. induction l as [|r l IH].
  { assert (forall k, k ≫= (fun i => rows_in n ks i []) = []) as ->; [|done]. by intros k; induction k. }
  set (j := bucket_of n (encode_row ks r)). pose proof (bucket_of_lt n (encode_row ks r) Hn) as Hj. fold j in Hj.
  assert (j ∈ seq 0 n) as Hin by (apply elem_of_seq; lia).
  assert (NoDup (seq 0 n)) as Hnd by apply NoDup_seq.
  transitivity (r :: (seq 0 n ≫= (fun i => rows_in n ks i l))); [|by constructor]. clear IH. revert Hin Hnd. generalize (seq 0 n). intros k Hin Hnd.
  assert (forall k', j ∉ k' -> k' ≫= (fun i => rows_in n ks i (r :: l)) = k' ≫= (fun i => rows_in n ks i l)) as Hout.
  { induction k' as [|i k' IHk]; intros Hni; [done|]. apply not_elem_of_cons in Hni as [Hne Hni]. rewrite !bind_cons_eq.
    rewrite IHk by done. f_equal. unfold rows_in. by rewrite filter_cons_False. }
  induction k as [|i k IHk]; [by apply elem_of_nil in Hin|]. inversion Hnd as [|?? Hni Hnd']; subst. rewrite !bind_cons_eq.
  destruct (decide (j = i)) as [<-|Hne].
  - rewrite Hout by done. unfold rows_in at 1. rewrite filter_cons_True by done. done.
  - apply elem_of_cons in Hin as [?|Hin]; [done|]. rewrite (IHk Hin Hnd').
    unfold rows_in at 1. rewrite filter_cons_False by done. fold (rows_in n ks i l).
    by rewrite <-Permutation_middle.
Qed.

Lemma bind_lookup_fmap (n : nat) (out : list (list RecordBatch)) (f : nat -> list Row) :
  length out = n -> (forall i bs, out !! i = Some bs -> all_rows bs = f i) ->
  out ≫= all_rows = seq 0 n ≫= f.
Proof.
  intros <- Hf. assert (forall k, (forall i bs, out !! i = Some bs -> all_rows bs = f (k + i)%nat) ->
    out ≫= all_rows = seq k (length out) ≫= f) as Hgen; [|by apply Hgen].
  clear Hf. induction out as [|bs out IH]; intros k Hk; [done|]. simpl. f_equal.
  - rewrite (Hk 0%nat bs eq_refl). by rewrite Nat.add_0_r.
  - apply IH. intros i bs' Hi. rewrite (Hk (S i) bs' Hi). by rewrite Nat.add_succ_r.
Qed.

Lemma hash_partition_rows batches ks n out :
  (0 < n)%nat -> ks <> [] -> hash_partition batches ks n = Ok out ->
  length out = n /\ forall i bs, out !! i = Some bs -> all_rows bs = rows_in n ks i (all_rows batches).
Proof.
  intros Hn Hks Hrun. unfold hash_partition in Hrun.
  destruct batches as [|b bs]; [|destruct ks as [|k ks]; [done|]].
  - simplify_eq. rewrite length_replicate. split; [done|]. intros i bs Hi.
    apply lookup_replicate in Hi as [-> _]. done.
  - destruct (arrow_err _ _) as [conv|] eqn:Hconv; [|done]. apply arrow_err_ok in Hconv. cbn [rbind] in Hrun.
    apply (partition_loop_rows _ _ _ b) in Hrun as [Hlen Hi]; [|done]. rewrite length_replicate in Hlen. split; [done|].
    intros i obs Hobs. destruct (Hi i obs Hobs) as (r & Er & ->). apply lookup_replicate in Er as [-> _]. done.
Qed.

(** Hash partitioning neither loses, duplicates nor misplaces a row: the
    buckets together hold a permutation of the input rows, and a row is in
    the bucket its key hashes to, so rows with equal keys meet in one bucket. *)
Theorem hash_partition_correct batches ks n out :
  (0 < n)%nat -> ks <> [] -> hash_partition batches ks n = Ok out ->
  length out = n /\ out ≫= all_rows ≡ₚ all_rows batches /\
  (forall i bs r, out !! i = Some bs -> r ∈ all_rows bs -> i = bucket_of n (encode_row ks r)).
Proof.
  intros Hn Hks Hrun. destruct (hash_partition_rows _ _ _ _ Hn Hks Hrun) as [Hlen Hi].
  split; [done|]. split.
  - rewrite (bind_lookup_fmap n out _ Hlen Hi). by apply rows_in_partition.
  - intros i bs r Hbs Hr. rewrite (Hi i bs Hbs) in Hr. by apply list_elem_of_filter in Hr as [<- _].
Qed.

(** Bucket [b] of a produced stage, as a consumer pulls it. *)
Definition pull (out : list (list RecordBatch)) (b : Z) : list RecordBatch := default [] (out !! Z.to_nat b).
(** What consumer [p] of [m] reads. *)
Definition consumer_rows (out : list (list RecordBatch)) (np m p : Z) : list Row :=
  coalesced_read_buckets np m p ≫= (fun b => all_rows (pull out b)).

Lemma bind_perm {A B} (f : A -> list B) l k : l ≡ₚ k -> l ≫= f ≡ₚ k ≫= f.
Proof. intros Hp. by apply bind_Permutation. Qed.

Lemma pull_range out : range 0 (Z.of_nat (length out)) ≫= (fun b => all_rows (pull out b)) = out ≫= all_rows.
Proof.
  rewrite (bind_lookup_fmap (length out) out (fun i => all_rows (pull out (Z.of_nat i)))); [|done|].
  - unfold range. rewrite Z.sub_0_r, Nat2Z.id. generalize (seq 0 (length out)). intros k.
    induction k as [|i k IH]; [done|]. simpl. f_equal. exact IH.
  - intros i bs Hi. unfold pull. by rewrite Nat2Z.id, Hi.
Qed.

(** C23. An exchange under AQE: whatever number [m] of readers the stage is
    coalesced to, the readers together get exactly the producer's rows, and
    two rows with equal keys go to the same reader. *)
Theorem exchange_correct batches ks np out m :
  0 < np -> 0 < m -> ks <> [] -> hash_partition batches ks (Z.to_nat np) = Ok out ->
  range 0 m ≫= consumer_rows out np m ≡ₚ all_rows batches /\
  (forall p q r r', 0 <= p < m -> 0 <= q < m -> r ∈ consumer_rows out np m p -> r' ∈ consumer_rows out np m q ->
     encode_row ks r = encode_row ks r' -> p = q).
Proof.
  intros Hnp Hm Hks Hrun. assert (0 < Z.to_nat np)%nat as Hn by lia.
  destruct (hash_partition_rows _ _ _ _ Hn Hks Hrun) as [Hlen Hi]. split.
  - unfold consumer_rows. rewrite <-(bind_assoc (coalesced_read_buckets np m)).
    assert (range 0 m ≫= coalesced_read_buckets np m ≡ₚ range 0 np) as Hperm.
    { pose proof (coalesced_buckets_perm np m ltac:(lia) ltac:(lia)) as Hp. by rewrite Z.max_l in Hp by lia. }
    rewrite (bind_perm _ _ _ Hperm). assert (range 0 np = range 0 (Z.of_nat (length out))) as -> by (f_equal; lia).
    rewrite pull_range, (bind_lookup_fmap _ out _ Hlen Hi). apply rows_in_partition. lia.
  - assert (forall p r, 0 <= p < m -> r ∈ consumer_rows out np m p ->
      Z.of_nat (bucket_of (Z.to_nat np) (encode_row ks r)) mod m = p) as Hbucket.
    { intros p r Hp Hr. apply list_elem_of_bind in Hr as (b & Hr & Hb).
      apply elem_of_read_buckets in Hb as [Hb Hmod]; [|lia..].
      destruct (out !! Z.to_nat b) as [bs|] eqn:Eb; unfold pull in Hr; rewrite Eb in Hr; [|by apply elem_of_nil in Hr].
      simpl in Hr. rewrite (Hi _ _ Eb) in Hr. apply list_elem_of_filter in Hr as [-> _]. by rewrite Z2Nat.id by lia. }
    intros p q r r' Hp Hq Hr Hr' Heq. rewrite <-(Hbucket p r Hp Hr), <-(Hbucket q r' Hq Hr'). by rewrite Heq.
Qed.
End PartitionLaws.

(** ** The exchange header *)

(** [ShuffleExchangeHeader]. *)
Record ShuffleExchangeHeader := { sh_stage_id : Z; sh_partition_id : Z }.

Definition header_encode (h : ShuffleExchangeHeader) : list Z :=
  to_le_bytes 4 (sh_stage_id h) ++ to_le_bytes 4 (sh_partition_id h).
Definition header_decode (bytes : list Z) : result str ShuffleExchangeHeader :=
  if negb (length bytes =? 8)%nat then Err (lit "bad shuffle exchange header length")
  else Ok {| sh_stage_id := from_le_bytes (take 4 bytes); sh_partition_id := from_le_bytes (drop 4 bytes) |}.

(** The exchange header is a bijection between headers and 8-byte
    strings: decoding an encoded header gives it back, re-encoding what was
    decoded gives the bytes back, and any other length is refused. *)
Theorem header_roundtrip :
  (forall h, u_ok 32 (sh_stage_id h) -> u_ok 32 (sh_partition_id h) -> header_decode (header_encode h) = Ok h) /\
  (forall bytes h, Forall (u_ok 8) bytes -> header_decode bytes = Ok h -> header_encode h = bytes) /\
  (forall bytes, is_ok (header_decode bytes) = true <-> length bytes = 8%nat).
Proof.
  split_and!.
  - intros [s p] Hs Hp. unfold header_decode, header_encode, u_ok, u_max in *. simpl sh_stage_id in *. simpl sh_partition_id in *.
    rewrite length_app, !length_to_le_bytes. cbn [Nat.add Nat.eqb negb].
    rewrite take_app_length', drop_app_length' by (symmetry; apply length_to_le_bytes).
    by rewrite !from_to_le_bytes by lia.
  - intros bytes h Hb Hd. unfold header_decode in Hd. destruct (Nat.eqb_spec (length bytes) 8); [|done]. simpl in Hd.
    injection Hd as <-. unfold header_encode. simpl sh_stage_id. simpl sh_partition_id.
    rewrite <-(take_drop 4 bytes) in Hb. apply Forall_app in Hb as [H1 H2].
    pose proof (to_from_le_bytes _ H1) as E1. pose proof (to_from_le_bytes _ H2) as E2.
    rewrite length_take in E1. rewrite length_drop in E2.
    replace (4 `min` length bytes)%nat with 4%nat in E1 by lia. replace (length bytes - 4)%nat with 4%nat in E2 by lia.
    by rewrite E1, E2, take_drop.
  - intros bytes. unfold header_decode. destruct (Nat.eqb_spec (length bytes) 8); simpl; naive_solver.
Qed.

(** ** Task-local input names *)

Definition SHUFFLE_INPUT_TABLE : str := lit "shuffle_input".

(** [localized_shuffle_input_name]. *)
Definition localized_shuffle_input_name (stage_id partition_id : Z) (upstream_idx : option Z) : str :=
  match upstream_idx with
  | None => fmt [SHUFFLE_INPUT_TABLE; lit "__s"; show_u stage_id; lit "_p"; show_u partition_id]
  | Some i => fmt [SHUFFLE_INPUT_TABLE; lit "__s"; show_u stage_id; lit "_p"; show_u partition_id; lit "_"; show_u i]
  end.

(** [shuffle_input_token_index]. *)
Definition shuffle_input_token_index (ident : str) : option Z :=
  match strip_prefix (lit "shuffle_input_") ident with
  | None => None
  | Some suffix =>
      match suffix with
      | [] => None
      | _ => if forallb is_ascii_digit suffix then parse_u 10 (u_max 64) suffix else None
      end
  end.

(** The body of a quoted span after its opening quote: the text copied and
    what is left.  A doubled quote continues the span. *)
Fixpoint scan_quoted (quote : Z) (s : str) : str * str :=
  match s with
  | [] => ([], [])
  | x :: t =>
      if x =? quote then
        match t with
        | y :: t' => if y =? quote then let '(a, r) := scan_quoted quote t' in (x :: y :: a, r) else ([x], t)
        | [] => ([x], [])
        end
      else let '(a, r) := scan_quoted quote t in (x :: a, r)
  end.

(** A line comment runs to the newline, which it does not include. *)
Fixpoint scan_line (s : str) : str * str :=
  match s with
  | [] => ([], [])
  | x :: t => if x =? 10 then ([], s) else let '(a, r) := scan_line t in (x :: a, r)
  end.

(** The body of a block comment after its opening marker. *)
Fixpoint scan_block (s : str) : str * str :=
  match s with
  | [] => ([], [])
  | x :: t =>
      match t with
      | y :: t' => if (x =? 42) && (y =? 47) then ([x; y], t') else let '(a, r) := scan_block t in (x :: a, r)
      | [] => ([x], [])
      end
  end.

Definition is_ident_start (c : Z) : bool := (c =? 95) || is_ascii_alphabetic c.
Definition is_ident_char (c : Z) : bool := (c =? 95) || is_ascii_alphanumeric c.

Fixpoint scan_ident (s : str) : str * str :=
  match s with
  | [] => ([], [])
  | x :: t => if is_ident_char x then let '(a, r) := scan_ident t in (x :: a, r) else ([], s)
  end.

Definition rename_ident (stage_id partition_id upstreams : Z) (ident : str) : str :=
  if bool_decide (ident = SHUFFLE_INPUT_TABLE) then localized_shuffle_input_name stage_id partition_id None
  else match shuffle_input_token_index ident with
       | Some idx => if idx <? upstreams then localized_shuffle_input_name stage_id partition_id (Some idx) else ident
       | None => ident
       end.

(** The scanning loop of [localize_shuffle_input_sql]; every step consumes at
    least one character, so the length of the text is enough fuel. *)
Fixpoint localize_loop (fuel : nat) (stage_id partition_id upstreams : Z) (s : str) : str :=
  match fuel with
  | O => []
  | S fuel =>
      let go := localize_loop fuel stage_id partition_id upstreams in
      match s with
      | [] => []
      | c :: t =>
          if (c =? 39) || (c =? 34) || (c =? 96) then
            let '(a, r) := scan_quoted c t in c :: a ++ go r
          else if (c =? 45) && match t with y :: _ => y =? 45 | [] => false end then
            let '(a, r) := scan_line s in a ++ go r
          else if (c =? 47) && match t with y :: _ => y =? 42 | [] => false end then
            let '(a, r) := scan_block (tail t) in 47 :: 42 :: a ++ go r
          else if is_ident_start c then
            let '(a, r) := scan_ident s in rename_ident stage_id partition_id upstreams a ++ go r
          else c :: go t
      end
  end.

(** [localize_shuffle_input_sql]. *)
Definition localize_shuffle_input_sql (sql : str) (stage_id partition_id upstreams : Z) : str :=
  if (upstreams =? 0) || negb (contains sql SHUFFLE_INPUT_TABLE) then sql
  else localize_loop (length sql) stage_id partition_id upstreams sql.

(** *** Specification: SQL as a sequence of tokens *)

Inductive token :=
  | TQuoted (s : str)
  | TComment (s : str)
  | TIdent (s : str)
  | TChar (c : Z).
Definition token_text (t : token) : str :=
  match t with TQuoted s | TComment s | TIdent s => s | TChar c => [c] end.

Fixpoint tokens (fuel : nat) (s : str) : list token :=
  match fuel with
  | O => []
  | S fuel =>
      match s with
      | [] => []
      | c :: t =>
          if (c =? 39) || (c =? 34) || (c =? 96) then
            let '(a, r) := scan_quoted c t in TQuoted (c :: a) :: tokens fuel r
          else if (c =? 45) && match t with y :: _ => y =? 45 | [] => false end then
            let '(a, r) := scan_line s in TComment a :: tokens fuel r
          else if (c =? 47) && match t with y :: _ => y =? 42 | [] => false end then
            let '(a, r) := scan_block (tail t) in TComment (47 :: 42 :: a) :: tokens fuel r
          else if is_ident_start c then
            let '(a, r) := scan_ident s in TIdent a :: tokens fuel r
          else TChar c :: tokens fuel t
      end
  end.
Definition tokenize (s : str) : list token := tokens (length s) s.

Lemma scan_quoted_app q s : fst (scan_quoted q s) ++ snd (scan_quoted q s) = s.
Proof.
  assert (forall n s, (length s <= n)%nat -> fst (scan_quoted q s) ++ snd (scan_quoted q s) = s) as Hgen;
    [|by apply (Hgen (length s))].
  clear s. induction n as [|n IH]; intros [|x t] Hl; simpl in *; [done|lia|done|].
  destruct (x =? q).
  - destruct t as [|y t]; [done|]. destruct (y =? q); [|done]. specialize (IH t ltac:(simpl in *; lia)).
    destruct (scan_quoted q t) as [a r]. simpl in *. by rewrite IH.
  - specialize (IH t ltac:(lia)). destruct (scan_quoted q t) as [a r]. simpl in *. by rewrite IH.
Qed.

Lemma scan_line_app s : fst (scan_line s) ++ snd (scan_line s) = s.
Proof.
  induction s as [|x t IH]; simpl; [done|]. destruct (x =? 10); [done|].
  destruct (scan_line t) as [a r]. simpl in *. by rewrite IH.
Qed.

Lemma scan_block_app s : fst (scan_block s) ++ snd (scan_block s) = s.
Proof.
  induction s as [|x t IH]; [done|]. cbn [scan_block]. destruct t as [|y t']; [done|].
  destruct (_ && _); [done|]. destruct (scan_block (y :: t')) as [a r]. simpl in *. by rewrite IH.
Qed.

Lemma scan_ident_app s : fst (scan_ident s) ++ snd (scan_ident s) = s.
Proof.
  induction s as [|x t IH]; simpl; [done|]. destruct (is_ident_char x); [|done].
  destruct (scan_ident t) as [a r]. simpl in *. by rewrite IH.
Qed.

Lemma ident_start_char c : is_ident_start c = true -> is_ident_char c = true.
Proof.
  unfold is_ident_start, is_ident_char, is_ascii_alphanumeric. destruct (c =? 95); [done|]. simpl.
  by intros ->.
Qed.

(** One token off the front: the rest is shorter and the text adds up. *)
Lemma tokens_text fuel s : (length s <= fuel)%nat -> tokens fuel s ≫= token_text = s.
Proof.
  revert s. induction fuel as [|fuel IH]; intros s Hl; [by destruct s; simpl in *; [|lia]|].
  destruct s as [|c t]; [done|]. cbn [tokens].
  destruct (_ || _).
  { pose proof (scan_quoted_app c t) as Ha. destruct (scan_quoted c t) as [a r]. simpl in Ha.
    rewrite bind_cons_eq, IH by (rewrite <-Ha in Hl; simpl in Hl; rewrite length_app in Hl; lia). simpl. by rewrite Ha. }
  destruct ((c =? 45) && _) eqn:Eline.
  { pose proof (scan_line_app (c :: t)) as Ha. bool_to_prop.
    assert (scan_line (c :: t) = (c :: fst (scan_line t), snd (scan_line t))) as Hs.
    { simpl. subst c. destruct (scan_line t). done. }
    rewrite Hs in *. simpl in Ha. injection Ha as Ha. rewrite bind_cons_eq, IH.
    - simpl. by rewrite Ha.
    - rewrite <-Ha in Hl. simpl in Hl. rewrite length_app in Hl. lia. }
  destruct ((c =? 47) && _) eqn:Eblock.
  { bool_to_prop. destruct t as [|y t]; [done|]. bool_to_prop. subst. cbn [tail].
    pose proof (scan_block_app t) as Ha. destruct (scan_block t) as [a r]. simpl in Ha.
    rewrite bind_cons_eq, IH by (rewrite <-Ha in Hl; simpl in Hl; rewrite length_app in Hl; lia). simpl. by rewrite Ha. }
  destruct (is_ident_start c) eqn:Eid.
  { pose proof (scan_ident_app (c :: t)) as Ha. apply ident_start_char in Eid.
    assert (scan_ident (c :: t) = (c :: fst (scan_ident t), snd (scan_ident t))) as Hs.
    { simpl. rewrite Eid. by destruct (scan_ident t). }
    rewrite Hs in *. simpl in Ha. injection Ha as Ha. rewrite bind_cons_eq, IH.
    - simpl. by rewrite Ha.
    - rewrite <-Ha in Hl. simpl in Hl. rewrite length_app in Hl. lia. }
  rewrite bind_cons_eq, IH by (simpl in Hl; lia). done.
Qed.

Definition localize_token (stage_id partition_id upstreams : Z) (t : token) : str :=
  match t with TIdent s => rename_ident stage_id partition_id upstreams s | _ => token_text t end.

Lemma localize_loop_tokens fuel si pi up s :
  localize_loop fuel si pi up s = tokens fuel s ≫= localize_token si pi up.
Proof.
  revert s. induction fuel as [|fuel IH]; intros s; [done|]. destruct s as [|c t]; [done|]. cbn [localize_loop tokens].
  destruct (_ || _); [destruct (scan_quoted c t); by rewrite bind_cons_eq, <-IH|].
  destruct ((c =? 45) && _); [destruct (scan_line (c :: t)); by rewrite bind_cons_eq, <-IH|].
  destruct ((c =? 47) && _); [destruct (scan_block (tail t)); by rewrite bind_cons_eq, <-IH|].
  destruct (is_ident_start c); [destruct (scan_ident (c :: t)); by rewrite bind_cons_eq, <-IH|].
  by rewrite bind_cons_eq, <-IH.
Qed.

(** Localizing a stage's SQL renames whole identifiers and nothing else:
    the text is a sequence of tokens, and the result is the same sequence
    with the identifiers [shuffle_input] and [shuffle_input_i], [i] an
    upstream of the stage, renamed; string literals, quoted identifiers,
    comments and every other character are copied. *)
Theorem localize_is_token_map sql si pi up :
  up <> 0 -> contains sql SHUFFLE_INPUT_TABLE = true ->
  tokenize sql ≫= token_text = sql /\
  localize_shuffle_input_sql sql si pi up = tokenize sql ≫= localize_token si pi up.
Proof.
  intros Hup Hc. split; [by apply tokens_text|]. unfold localize_shuffle_input_sql, tokenize. rewrite Hc.
  destruct (Z.eqb_spec up 0); [done|]. apply localize_loop_tokens.
Qed.

Lemma localize_is_token_map_witness :
  tokenize (lit "SELECT 'shuffle_input' FROM shuffle_input_0") ≫= localize_token 7 3 2
  = lit "SELECT 'shuffle_input' FROM shuffle_input__s7_p3_0" /\
  localize_shuffle_input_sql (lit "SELECT 'shuffle_input' FROM shuffle_input_0") 7 3 2
  = tokenize (lit "SELECT 'shuffle_input' FROM shuffle_input_0") ≫= localize_token 7 3 2.
Proof.
  split; [vm_compute; reflexivity|].
  exact (proj2 (localize_is_token_map (lit "SELECT 'shuffle_input' FROM shuffle_input_0") 7 3 2
    ltac:(discriminate) ltac:(vm_compute; reflexivity))).
Defined.

Lemma split_digits a b s t :
  0 <= a -> 0 <= b -> show_u a ++ 95 :: s = show_u b ++ 95 :: t -> a = b /\ s = t.
Proof.
  intros Ha Hb Heq. apply (f_equal (split_once 95)) in Heq.
  rewrite !split_once_app in Heq by (apply show_u_no_char; lia).
  injection Heq as Hab ->. split; [by apply show_u_inj|done].
Qed.

(** Two tasks never share an input table: the localized names of
    different (stage, partition, upstream) triples differ. *)
Theorem localized_names_distinct s p i s' p' i' :
  0 <= s -> 0 <= p -> 0 <= s' -> 0 <= p' -> (forall k, i = Some k \/ i' = Some k -> 0 <= k) ->
  localized_shuffle_input_name s p i = localized_shuffle_input_name s' p' i' -> s = s' /\ p = p' /\ i = i'.
Proof.
  intros Hs Hp Hs' Hp' Hi Heq.
  assert (forall a b o, localized_shuffle_input_name a b o =
    (SHUFFLE_INPUT_TABLE ++ lit "__s") ++ show_u a ++ 95 :: 112 :: show_u b ++
      match o with Some k => 95 :: show_u k | None => [] end) as Hform.
  { intros a b o. unfold localized_shuffle_input_name, fmt.
    destruct o; simpl concat; rewrite ?app_nil_r, <-!app_assoc; reflexivity. }
  rewrite !Hform in Heq. apply app_inv_head in Heq. apply split_digits in Heq as [-> Heq]; [|done|done].
  injection Heq as Heq. destruct i as [k|], i' as [k'|].
  - apply split_digits in Heq as [-> Heq]; [|done|done]. apply show_u_inj in Heq; [by subst|apply Hi; auto..].
  - exfalso. rewrite app_nil_r in Heq. apply (show_u_no_char p' 95 Hp' ltac:(lia)). rewrite <-Heq.
    apply elem_of_app. right. left.
  - exfalso. rewrite app_nil_r in Heq. apply (show_u_no_char p 95 Hp ltac:(lia)). rewrite Heq.
    apply elem_of_app. right. left.
  - rewrite !app_nil_r in Heq. apply show_u_inj in Heq; [by subst|done|done].
Qed.

Lemma localized_names_distinct_witness : (7 = 7 /\ 3 = 3 /\ Some 0 = Some 0).
Proof.
  apply (localized_names_distinct 7 3 (Some 0) 7 3 (Some 0)); try lia; [|reflexivity].
  intros k [[= <-]|[= <-]]; lia.
Defined.

(** ** Witnesses on row batches *)
Module ShuffleRuns.
Import RowBatch.

(** The columns of a batch of rows; a missing cell is null. *)
Definition null_cell : row_cell := {| value := None; display := [] |}.
Definition col_at (b : batch) (j : nat) : list row_cell := (fun r => default null_cell (r !! j)) <$> rows b.
Definition cols_of (b : batch) : list (list row_cell) := col_at b <$> seq 0 (length (fields b)).
Definition row_at (cols : list (list row_cell)) (i : nat) : list row_cell :=
  (fun c : list row_cell => default null_cell (c !! i)) <$> cols.
(** Columns of one length make a batch, one per field and at least one. *)
Definition rows_new (b : batch) (cols : list (list row_cell)) : result str batch :=
  match cols with
  | [] => Err (lit "must either specify a row count or at least one column")
  | c :: _ => if bool_decide (length cols = length (fields b) /\ Forall (fun x => length x = length c) cols)
              then Ok {| fields := fields b; rows := row_at cols <$> seq 0 (length c) |}
              else Err (lit "number of columns or rows differs")
  end.
Definition row_encoding (ks : list nat) (r : list row_cell) : list Z :=
  ks ≫= (fun k => default [] (display <$> r !! k)).

#[export] Instance row_kernels : RowKernels := {|
  Row := list row_cell;
  rows_of b := row_at (cols_of b) <$> seq 0 (length (rows b));
  Column := list row_cell;
  columns := cols_of;
  has_view_field b := existsb (fun f : str * DataType => match f.2 with OtherType => true | _ => false end) (fields b);
  is_view _ := true;
  gc_view c := Some c;
  take_col c idx := match mapM (fun i => c !! i) idx with Some c' => Ok c' | None => Err (lit "out of bounds") end;
  try_new := rows_new;
  Converter := unit;
  row_converter _ _ := Ok tt;
  convert_columns _ b ks := Ok (row_encoding ks <$> (row_at (cols_of b) <$> seq 0 (length (rows b)))) |}.

Lemma lookup_cols (b : batch) j c : cols_of b !! j = Some c -> c = col_at b j /\ (j < length (fields b))%nat.
Proof. unfold cols_of. rewrite list_lookup_fmap_Some. intros (k & -> & [-> ?]%lookup_seq). done. Qed.

Lemma length_cols (b : batch) c : c ∈ cols_of b -> length c = length (rows b).
Proof. intros (j & [-> _]%lookup_cols)%list_elem_of_lookup. apply length_fmap. Qed.

Lemma rows_new_ok b cols b' : rows_new b cols = Ok b' ->
  cols_of b' = cols /\ exists c, head cols = Some c /\ length (rows b') = length c /\ Forall (fun x => length x = length c) cols.
Proof.
  unfold rows_new. destruct cols as [|c cs]; [done|]. set (cols := c :: cs). case_bool_decide as Hok; [|done]. intros [= <-].
  destruct Hok as [Hlen Hall]. split; [|exists c; cbn [rows]; by rewrite length_fmap, length_seq].
  apply list_eq_same_length with (length (fields b)).
  - done.
  - unfold cols_of. by rewrite length_fmap, length_seq.
  - intros j x y Hj Hx Hy. apply lookup_cols in Hx as [-> _]. pose proof (Forall_lookup_1 _ _ _ _ Hall Hy) as Hl.
    unfold col_at. cbn [rows]. apply list_eq_same_length with (length c); [done|by rewrite !length_fmap, length_seq|].
    intros i u v Hi Hu Hv. rewrite !list_lookup_fmap, lookup_seq_lt in Hu by done. cbn [fmap option_fmap option_map] in Hu.
    unfold row_at in Hu. rewrite list_lookup_fmap, Hy in Hu. cbn [fmap option_fmap option_map default from_option id] in Hu.
    rewrite Nat.add_0_l, Hv in Hu. by simplify_eq/=.
Qed.

Lemma row_ext cols cols' i i' : Forall2 (fun c c' : list row_cell => c !! i = c' !! i') cols cols' -> row_at cols i = row_at cols' i'.
Proof. unfold row_at. induction 1 as [|c c' cols cols' Hc _ IH]; [done|]. rewrite !fmap_cons, IH. by rewrite Hc. Qed.

Lemma take_rows_plain (b : batch) idx cols b' :
  mapM_result (fun c => take_col c idx) (columns b) = Ok cols -> try_new b cols = Ok b' ->
  rows_of b' = omap (fun i => rows_of b !! i) idx.
Proof.
  intros Hm%mapM_result_ok Hnew. cbn [columns take_col rows_of try_new row_kernels] in *.
  apply rows_new_ok in Hnew as (Hcols & c & Hc & Hlen & Hall). rewrite Hcols, Hlen.
  assert (Forall2 (fun x y : list row_cell => mapM (fun i => x !! i) idx = Some y) (cols_of b) cols) as Hcs.
  { eapply Forall2_impl; [exact Hm|]. intros x y. simpl. destruct (mapM _ idx); [|done]. by intros [= ->]. }
  assert (forall x y : list row_cell, mapM (fun i => x !! i) idx = Some y -> Forall2 (fun i v => x !! i = Some v) idx y) as Hsel.
  { intros x y Hy. by apply mapM_Some. }
  destruct cols as [|c0 cs]; [done|]. simplify_eq/=. destruct (Forall2_cons_inv_r _ _ _ _ Hcs) as (x & xs & Hx & _ & Hxs').
  pose proof (Hsel _ _ Hx) as Hsel0. rewrite <-(Forall2_length _ _ _ Hsel0).
  assert (length x = length (rows b)) as Hxl by (apply length_cols; rewrite Hxs'; left).
  assert (Forall (fun i => (i < length (rows b))%nat) idx) as Hin.
  { eapply Forall2_Forall_l; [exact Hsel0|]. apply Forall_forall. intros v _ i Hi. apply lookup_lt_Some in Hi. lia. }
  transitivity (row_at (cols_of b) <$> idx).
  - apply list_eq_same_length with (length idx); [by rewrite length_fmap|by rewrite length_fmap, length_seq|].
    intros i u v Hi Hu Hv. rewrite list_lookup_fmap, lookup_seq_lt in Hu by done. simplify_eq/=.
    rewrite list_lookup_fmap in Hv. destruct (idx !! i) as [q|] eqn:Hq; simplify_eq/=.
    change (row_at (c :: cs) i = row_at (cols_of b) q). apply row_ext. apply Forall2_flip. eapply Forall2_impl; [exact Hcs|]. intros y z Hyz. simpl.
    apply Hsel in Hyz. destruct (Forall2_lookup_l _ _ _ _ _ Hyz Hq) as (w & -> & ->). done.
  - clear -Hin. induction Hin as [|i idx Hi Hin IH]; [done|]. cbn [fmap list_fmap omap list_omap].
    rewrite list_lookup_fmap, lookup_seq_lt by done. simpl. by rewrite IH.
Qed.

Lemma gc_rows_plain (b : batch) cols b' :
  Forall2 (fun c c' => c' = c \/ gc_view c = Some c') (columns b) cols -> try_new b cols = Ok b' -> rows_of b' = rows_of b.
Proof.
  intros Hgc Hnew. cbn [columns gc_view rows_of try_new row_kernels] in *. assert (cols = cols_of b) as ->.
  { symmetry. apply list_eq_Forall2. eapply Forall2_impl; [exact Hgc|]. intros c c' [->|[= ->]]; done. }
  apply rows_new_ok in Hnew as (Hcols & c & Hc & Hlen & _). rewrite Hcols, Hlen.
  rewrite (length_cols b c); [done|]. destruct (cols_of b); simplify_eq/=. left.
Qed.

#[export] Instance row_kernels_laws : @RowKernelsLaws row_arrow row_kernels.
Proof.
  refine (@Build_RowKernelsLaws row_arrow row_kernels row_encoding take_rows_plain gc_rows_plain _).
  by intros b0 b ks conv enc _ [= <-].
Defined.

Definition numbers (l : list Z) : RecordBatch :=
  {| fields := [(lit "k", OtherType)]; rows := (fun i => [{| value := Some i; display := show_i i |}]) <$> l |}.
Definition input : list RecordBatch := [numbers [1; 2; 3; 1]; numbers [2; 5]].

Definition parts : list (list RecordBatch) :=
  Eval vm_compute in match hash_partition input [0%nat] 4 with Ok out => out | Err _ => [] end.

Lemma hash_partition_correct_witness : parts ≫= all_rows ≡ₚ all_rows input.
Proof.
  exact (proj1 (proj2 (hash_partition_correct input [0%nat] 4 parts ltac:(lia) ltac:(discriminate)
    ltac:(vm_compute; reflexivity)))).
Defined.

Lemma exchange_correct_witness : range 0 3 ≫= consumer_rows parts 4 3 ≡ₚ all_rows input.
Proof.
  exact (proj1 (exchange_correct input [0%nat] 4 parts 3 ltac:(lia) ltac:(lia) ltac:(discriminate)
    ltac:(vm_compute; reflexivity))).
Defined.
End ShuffleRuns.

Lemma header_roundtrip_witness :
  header_decode (header_encode {| sh_stage_id := 42; sh_partition_id := 7 |}) = Ok {| sh_stage_id := 42; sh_partition_id := 7 |}.
Proof.
  apply (proj1 header_roundtrip); split; vm_compute; discriminate.
Defined.
