(* ===== verification/Spill.v ===== *)
(** * Spill: the bucket cache of a producer task and its spill files
    (oxidant-execution/src/shuffle/spill.rs)

    A producer task caches its hash buckets in memory and moves them to Arrow
    IPC files when a threshold is reached; later appends to a spilled bucket
    become numbered segment files beside the base file.  [Disk] is the spill
    directory with real file names, a script of write faults and what the file
    system lets the process list, open and remove.  [Rep] says
    which buckets a cache stands for, in memory or on disk; the operations
    refine appending to those buckets.  Byte estimates and row counts are sums
    over batches that exist in the process and are not wrapped. *)

From S2P Require Import Prelude Text Arrow Shuffle.

(** ** The Arrow interface the cache uses *)

(** The call of the IPC writer that failed. *)
Inductive WriteStage := InWriter | InWrite | InFinish.
(** The call of the IPC reader that failed. *)
Inductive ReadStage := InOpen | InBatch.

(** Schemas, the IPC stream format and the memory estimate belong to Arrow.
    A writer that fails leaves the bytes it had written; a reader yields the
    batches of the file or the error of one of its calls. *)
Class ArrowIpc `{Arrow} := {
  Schema : Type;
  #[global] schema_eq_dec :: EqDecision Schema;
  schema_of : RecordBatch -> Schema;
  schema_empty : Schema;
  new_empty : Schema -> RecordBatch;
  get_array_memory_size : RecordBatch -> Z;
  ipc_encode : Schema -> list RecordBatch -> result (WriteStage * list Z * str) (list Z);
  ipc_decode : list Z -> result (ReadStage * str) (list RecordBatch);
  (** [RecordBatch::try_new(schema, batch.columns().to_vec()).ok()]. *)
  try_new_batch : Schema -> RecordBatch -> option RecordBatch;
}.

(** What Arrow documents: batches of the stream's schema survive the stream
    format; an empty batch has its schema and no rows; sizes are not
    negative. *)
Class ArrowIpcLaws `{ArrowIpc} : Prop := {
  ipc_roundtrip s bs : Forall (fun b => schema_of b = s) bs ->
    exists bytes, ipc_encode s bs = Ok bytes /\ ipc_decode bytes = Ok bs;
  num_rows_new_empty s : num_rows (new_empty s) = 0%nat;
  memory_size_nonneg b : 0 <= get_array_memory_size b;
}.

(** ** The spill directory *)

(** What happens to one write of a file. *)
Inductive WriteFault :=
  | Fine
  | NoCreate (m : str)
  | Cut (st : WriteStage) (written : list Z) (m : str).

(** What the file system lets the process do with an entry of the directory:
    read its metadata, see it in a listing (no entry when [read_dir] fails),
    open it (or the error) and remove it. *)
Record Access := {
  stats : list Z -> bool;
  lists : list Z -> bool;
  open_error : list Z -> option str;
  removes : list Z -> bool;
}.
Definition healthy : Access :=
  {| stats _ := true; lists _ := true; open_error _ := None; removes _ := true |}.

(** The directory of one store; each write consumes one entry of the script,
    and an exhausted script means the disk accepts every write. *)
Record Disk := { files : gmap (list Z) (list Z); script : list WriteFault; access : Access }.

Section Spill.
Context `{HA : Arrow} `{!ArrowIpc}.

(** [SpillStore] without its root: the directory is the [Disk]. *)
Record SpillStore := {
  force_spill : bool;
  memory_limit_bytes : option Z;
  total_limit_bytes : option Z;
}.

Inductive BucketCache :=
  | Memory (buckets : list (list RecordBatch))
  | Spilled (schema : Schema) (spill : SpillStore) (stage_id src : Z) (row_counts : list nat).

(** *** Opening a store *)

(** The process environment: the variables, the outcome of
    [resolve_memory_pool_bytes] and whether the directory can be created. *)
Record SpillEnv := {
  env_spill_dir : option str;
  env_spill_bytes : option str;
  env_memory_limit : option str;
  env_total : option str;
  env_pool : option Z;
  env_mkdir : bool;
}.

Definition non_empty_env (v : option str) : option str := v ≫= (fun s => if bool_decide (s = []) then None else Some s).

Definition positive_usize (v : option str) : option Z :=
  (non_empty_env v ≫= parse_u 10 (u_max 64)) ≫= (fun n => if 0 <? n then Some n else None).

Definition auto_size_shuffle_spill_bytes (e : SpillEnv) : option Z :=
  (fun n => Z.max (n / 4) (64 * 1024 * 1024)) <$> env_pool e.

Definition resolve_shuffle_spill_bytes (e : SpillEnv) : option Z :=
  match env_memory_limit e with
  | None => auto_size_shuffle_spill_bytes e
  | Some s =>
      let s := trim s in
      if bool_decide (s = []) then auto_size_shuffle_spill_bytes e
      else match parse_u 10 (u_max 64) s with
           | Some n => if n =? 0 then None else Some n
           | None => auto_size_shuffle_spill_bytes e
           end
  end.

Definition from_env (e : SpillEnv) : option SpillStore :=
  let configured_root := non_empty_env (env_spill_dir e) in
  let memory_limit := match positive_usize (env_spill_bytes e) with
                      | Some n => Some n
                      | None => resolve_shuffle_spill_bytes e
                      end in
  let total_limit := match positive_usize (env_total e) with Some n => Some n | None => memory_limit end in
  if bool_decide (configured_root = None) && bool_decide (memory_limit = None) then None
  else if env_mkdir e then
    Some {| force_spill := bool_decide (is_Some configured_root);
            memory_limit_bytes := memory_limit; total_limit_bytes := total_limit |}
  else None.

(** [with_memory_limit] and [with_total_limit]. *)
Definition with_memory_limit (n : Z) : SpillStore :=
  {| force_spill := false; memory_limit_bytes := Some (Z.max n 1); total_limit_bytes := None |}.
Definition with_total_limit (st : SpillStore) (n : Z) : SpillStore :=
  {| force_spill := force_spill st; memory_limit_bytes := memory_limit_bytes st;
     total_limit_bytes := Some (Z.max n 1) |}.

(** *** File names *)

Definition stem (stage_id src partition : Z) : str :=
  fmt [lit "stage_"; show_u stage_id; lit "_src"; show_u src; lit "_part_"; show_u partition].
Definition path (stage_id src partition : Z) : str := stem stage_id src partition ++ lit ".arrow".
Definition segment_path (stage_id src partition seq : Z) : str :=
  stem stage_id src partition ++ fmt [lit ".seg"; show_u seq; lit ".arrow"].

(** The sequence number of a directory entry that is a segment of the bucket. *)
Definition segment_seq (stage_id src partition : Z) (name : str) : option Z :=
  (strip_prefix (stem stage_id src partition ++ lit ".seg") name ≫= strip_suffix (lit ".arrow"))
    ≫= parse_u 10 (u_max 64).

Definition seq_le (a b : Z * list Z) : Prop := a.1 <= b.1.
#[global] Instance seq_le_dec a b : Decision (seq_le a b) := decide (a.1 <= b.1).
#[global] Instance seq_le_total : Total seq_le.
Proof. intros a b. unfold seq_le. lia. Qed.
#[global] Instance seq_le_trans : Transitive seq_le.
Proof. intros a b c. unfold seq_le. lia. Qed.

Definition segment_entries (d : Disk) (stage_id src partition : Z) : list (Z * list Z) :=
  omap (fun name => (fun q => (q, name)) <$> segment_seq stage_id src partition name)
    (filter (fun name => lists (access d) name = true) (map_to_list (files d)).*1).
Definition segment_paths (d : Disk) (stage_id src partition : Z) : list (list Z) :=
  (merge_sort seq_le (segment_entries d stage_id src partition)).*2.

(** *** Reading and writing files *)

Definition write_error (st : WriteStage) (m : str) : Error :=
  Io (fmt [match st with
           | InWriter => lit "spill writer: "
           | InWrite => lit "spill write: "
           | InFinish => lit "spill finish: "
           end; m]).
Definition read_error (st : ReadStage) (m : str) : Error :=
  Io (fmt [match st with InOpen => lit "spill read: " | InBatch => lit "spill batch: " end; m]).

Definition put_file (name bytes : list Z) (d : Disk) : Disk :=
  {| files := <[name := bytes]> (files d); script := tail (script d); access := access d |}.

(** [write_ipc_file]: the file is created first, so a failing writer leaves a
    partial file. *)
Definition write_ipc_file (name : list Z) (schema : Schema) (batches : list RecordBatch) (d : Disk)
  : result Error unit * Disk :=
  match default Fine (head (script d)) with
  | NoCreate m => (Err (Io (fmt [lit "spill create "; name; lit ": "; m])),
                   {| files := files d; script := tail (script d); access := access d |})
  | Cut st written m => (Err (write_error st m), put_file name written d)
  | Fine => match ipc_encode schema batches with
            | Ok bytes => (Ok tt, put_file name bytes d)
            | Err (st, written, m) => (Err (write_error st m), put_file name written d)
            end
  end.

Definition open_failed (name : list Z) (m : str) : Error := Io (fmt [lit "spill open "; name; lit ": "; m]).

Definition read_ipc_file (d : Disk) (name : list Z) : result Error (list RecordBatch) :=
  match open_error (access d) name, files d !! name with
  | Some m, _ => Err (open_failed name m)
  | None, None => Err (open_failed name (lit "No such file or directory (os error 2)"))
  | None, Some bytes => match ipc_decode bytes with Ok bs => Ok bs | Err (st, m) => Err (read_error st m) end
  end.

(** [Path::exists]: false as well when the metadata cannot be read. *)
Definition file_exists (d : Disk) (name : list Z) : bool :=
  stats (access d) name && bool_decide (is_Some (files d !! name)).

Definition write_bucket (stage_id src partition : Z) := write_ipc_file (path stage_id src partition).

Definition append_batches_to_bucket (stage_id src partition : Z) (schema : Schema) (batches : list RecordBatch)
    (d : Disk) : result Error unit * Disk :=
  if bool_decide (batches = []) then (Ok tt, d)
  else if negb (file_exists d (path stage_id src partition)) then
    write_bucket stage_id src partition schema batches d
  else
    let seq := Z.of_nat (length (segment_paths d stage_id src partition)) in
    write_ipc_file (segment_path stage_id src partition seq) schema batches d.

Definition append_batch_to_bucket (stage_id src partition : Z) (schema : Schema) (batch : RecordBatch) :=
  append_batches_to_bucket stage_id src partition schema [batch].

(** The contents of the files named, in order. *)
Definition read_segments (d : Disk) (names : list (list Z)) : result Error (list (list RecordBatch)) :=
  mapM_result (read_ipc_file d) names.

Definition read_bucket (d : Disk) (stage_id src partition : Z) : result Error (list RecordBatch) :=
  if negb (file_exists d (path stage_id src partition)) then Ok []
  else
    let! first := read_ipc_file d (path stage_id src partition) in
    let! rest := read_segments d (segment_paths d stage_id src partition) in
    Ok (first ++ concat rest).

Definition file_len (d : Disk) (name : list Z) : Z :=
  if stats (access d) name then default 0 ((fun b => Z.of_nat (length b)) <$> files d !! name) else 0.
Definition bucket_disk_bytes (d : Disk) (stage_id src partition : Z) : Z :=
  file_len d (path stage_id src partition) + sumZ (file_len d <$> segment_paths d stage_id src partition).

(** Every listed entry with the prefix that can be removed goes. *)
Definition clear_by_prefix (prefix : list Z) (d : Disk) : Disk :=
  {| files := filter (fun kv => starts_with kv.1 prefix && lists (access d) kv.1 && removes (access d) kv.1 = false) (files d);
     script := script d; access := access d |}.
Definition clear_stage (stage_id : Z) : Disk -> Disk :=
  clear_by_prefix (fmt [lit "stage_"; show_u stage_id; lit "_"]).
Definition clear_scoped_stage (stage_id src : Z) : Disk -> Disk :=
  clear_by_prefix (fmt [lit "stage_"; show_u stage_id; lit "_src"; show_u src; lit "_"]).

(** *** The cache *)

(** [estimated_batch_bytes] and [estimated_bucket_bytes]. *)
Definition estimated_batch_bytes (batches : list RecordBatch) : Z := sumZ (get_array_memory_size <$> batches).
Definition estimated_bucket_bytes (buckets : list (list RecordBatch)) : Z :=
  estimated_batch_bytes (concat buckets).

Definition should_spill_bytes (st : SpillStore) (bytes : Z) : bool :=
  force_spill st || match memory_limit_bytes st with Some limit => limit <=? bytes | None => false end.
Definition should_spill (st : SpillStore) (buckets : list (list RecordBatch)) : bool :=
  force_spill st || should_spill_bytes st (estimated_bucket_bytes buckets).

(** The write loop of [spill_buckets], from bucket [i] on. *)
Fixpoint write_buckets (schema : Schema) (stage_id src : Z) (i : nat) (buckets : list (list RecordBatch)) (d : Disk)
  : result Error unit * Disk :=
  match buckets with
  | [] => (Ok tt, d)
  | b :: bs =>
      match write_bucket stage_id src (wrapu 32 (Z.of_nat i)) schema b d with
      | (Ok _, d') => write_buckets schema stage_id src (S i) bs d'
      | (Err e, d') => (Err e, d')
      end
  end.

Definition spill_buckets (schema : Schema) (buckets : list (list RecordBatch)) (stage_id src : Z) (st : SpillStore)
    (d : Disk) : result Error BucketCache * Disk :=
  match write_buckets schema stage_id src 0 buckets d with
  | (Ok _, d') => (Ok (Spilled schema st stage_id src (total_rows <$> buckets)), d')
  | (Err e, d') => (Err e, d')
  end.

Definition maybe_spill (schema : Schema) (buckets : list (list RecordBatch)) (stage_id src : Z)
    (spill : option SpillStore) (d : Disk) : result Error BucketCache * Disk :=
  match spill with
  | Some st => if should_spill st buckets then spill_buckets schema buckets stage_id src st d
               else (Ok (Memory buckets), d)
  | None => (Ok (Memory buckets), d)
  end.

(** [Vec::resize_with] to at least [n] elements. *)
Definition grow {A} (n : nat) (x : A) (l : list A) : list A := l ++ replicate (n - length l) x.

(** [buckets[idx].extend(batches)] after the resize. *)
Definition extend_bucket (p : Z) (batches : list RecordBatch) (buckets : list (list RecordBatch))
  : list (list RecordBatch) :=
  alter (fun b => b ++ batches) (Z.to_nat p) (grow (S (Z.to_nat p)) [] buckets).

Definition bump_row_count (row_counts : list nat) (p : Z) (rows : nat) : list nat :=
  alter (fun n => n + rows)%nat (Z.to_nat p) (grow (S (Z.to_nat p)) 0%nat row_counts).

Definition from_partition (schema : Schema) (stage_id src p : Z) (batches : list RecordBatch)
    (spill : option SpillStore) (d : Disk) : result Error BucketCache * Disk :=
  maybe_spill schema (<[Z.to_nat p := batches]> (replicate (S (Z.to_nat p)) [])) stage_id src spill d.

(** The in-memory branch of both appends: the buckets are taken out before
    the spill, so a failed spill leaves an empty cache. *)
Definition spill_if_due (schema : Schema) (buckets : list (list RecordBatch)) (stage_id src : Z)
    (spill : option SpillStore) (d : Disk) : result Error unit * BucketCache * Disk :=
  match spill with
  | Some st =>
      if should_spill st buckets then
        match spill_buckets schema buckets stage_id src st d with
        | (Ok c, d') => (Ok tt, c, d')
        | (Err e, d') => (Err e, Memory [], d')
        end
      else (Ok tt, Memory buckets, d)
  | None => (Ok tt, Memory buckets, d)
  end.

Definition append_partition (c : BucketCache) (schema : Schema) (stage_id src p : Z) (batches : list RecordBatch)
    (spill : option SpillStore) (d : Disk) : result Error unit * BucketCache * Disk :=
  match c with
  | Memory buckets => spill_if_due schema (extend_bucket p batches buckets) stage_id src spill d
  | Spilled spilled_schema st stage_id src row_counts =>
      match append_batches_to_bucket stage_id src p spilled_schema batches d with
      | (Ok _, d') =>
          (Ok tt, Spilled spilled_schema st stage_id src (bump_row_count row_counts p (total_rows batches)), d')
      | (Err e, d') => (Err e, c, d')
      end
  end.

Definition append_batch (c : BucketCache) (schema : Schema) (stage_id src p : Z) (batch : RecordBatch)
    (spill : option SpillStore) (d : Disk) : result Error unit * BucketCache * Disk :=
  match c with
  | Memory buckets => spill_if_due schema (extend_bucket p [batch] buckets) stage_id src spill d
  | Spilled spilled_schema st stage_id src row_counts =>
      match append_batch_to_bucket stage_id src p spilled_schema batch d with
      | (Ok _, d') =>
          (Ok tt, Spilled spilled_schema st stage_id src (bump_row_count row_counts p (num_rows batch)), d')
      | (Err e, d') => (Err e, c, d')
      end
  end.

Definition memory_bytes (c : BucketCache) : Z :=
  match c with Memory buckets => estimated_bucket_bytes buckets | Spilled _ _ _ _ _ => 0 end.

Definition partition_row_counts (c : BucketCache) : list nat :=
  match c with Memory buckets => total_rows <$> buckets | Spilled _ _ _ _ rc => rc end.

Definition partition_byte_counts (d : Disk) (c : BucketCache) : list Z :=
  match c with
  | Memory buckets => estimated_batch_bytes <$> buckets
  | Spilled _ _ s r rc => (fun p => bucket_disk_bytes d s r (wrapu 32 (Z.of_nat p))) <$> seq 0 (length rc)
  end.

Definition spill_now (c : BucketCache) (schema : Schema) (stage_id src : Z) (st : SpillStore) (d : Disk)
  : result Error unit * BucketCache * Disk :=
  match c with
  | Memory buckets =>
      match spill_buckets schema buckets stage_id src st d with
      | (Ok c', d') => (Ok tt, c', d')
      | (Err e, d') => (Err e, Memory [], d')
      end
  | Spilled _ _ _ _ _ => (Ok tt, c, d)
  end.

(** [.filter(|b| b.num_rows() > 0)]. *)
Definition with_rows (bs : list RecordBatch) : list RecordBatch := filter (fun b => (0 < num_rows b)%nat) bs.

Definition read_partition (d : Disk) (c : BucketCache) (p : Z) : result Error (list RecordBatch) :=
  match c with
  | Memory buckets => Ok (default [] (buckets !! Z.to_nat p))
  | Spilled schema _ s r _ =>
      let! bs := read_bucket d s r (wrapu 32 p) in
      let data := with_rows bs in
      Ok (if bool_decide (data = []) then [new_empty schema] else data)
  end.

(** [BucketCache::schema]: the schema of the first batch cached. *)
Definition cache_schema (c : BucketCache) : Schema :=
  match c with
  | Memory buckets => from_option schema_of schema_empty (head (concat buckets))
  | Spilled schema _ _ _ _ => schema
  end.
End Spill.

(** ** File names identify buckets *)

Section Names.

Definition digits (s : str) : Prop := Forall (fun c => 48 <= c <= 57) s.

Lemma show_u_digits n : 0 <= n -> digits (show_u n).
Proof.
  intros Hn. apply Forall_forall. intros c Hc. destruct (decide (48 <= c <= 57)) as [|Hno]; [done|].
  exfalso. apply (show_u_no_char n c Hn); [lia|done].
Qed.

Lemma digits_split a b c c' s t :
  digits a -> digits b -> (c < 48 \/ 57 < c) -> (c' < 48 \/ 57 < c') ->
  a ++ c :: s = b ++ c' :: t -> a = b /\ c = c' /\ s = t.
Proof.
  intros Ha. revert b. induction Ha as [|x a Hx Ha IH]; intros [|y b] Hb Hc Hc' Heq; simplify_eq/=.
  - done.
  - inversion Hb; subst. lia.
  - lia.
  - inversion Hb; subst. by destruct (IH b) as (-> & -> & ->).
Qed.

Lemma show_u_split a b c c' s t :
  0 <= a -> 0 <= b -> (c < 48 \/ 57 < c) -> (c' < 48 \/ 57 < c') ->
  show_u a ++ c :: s = show_u b ++ c' :: t -> a = b /\ c = c' /\ s = t.
Proof.
  intros Ha Hb Hc Hc' Heq.
  destruct (digits_split _ _ _ _ _ _ (show_u_digits a Ha) (show_u_digits b Hb) Hc Hc' Heq) as (Hab & ? & ?).
  split; [by apply show_u_inj|done].
Qed.

Lemma stem_eq s r p x : stem s r p ++ x = lit "stage_" ++ show_u s ++ lit "_src" ++ show_u r ++ lit "_part_" ++ show_u p ++ x.
Proof. unfold stem, fmt. cbn [concat]. by rewrite app_nil_r, <-!app_assoc. Qed.

(** A name determines the bucket it belongs to: nothing printed after the
    numbers can extend one of them. *)
Lemma stem_split s r p s' r' p' c c' x y :
  0 <= s -> 0 <= r -> 0 <= p -> 0 <= s' -> 0 <= r' -> 0 <= p' -> (c < 48 \/ 57 < c) -> (c' < 48 \/ 57 < c') ->
  stem s r p ++ c :: x = stem s' r' p' ++ c' :: y -> s = s' /\ r = r' /\ p = p' /\ c = c' /\ x = y.
Proof.
  intros ?????? Hc Hc' Heq. rewrite !stem_eq in Heq. apply app_inv_head in Heq. simpl in Heq.
  apply show_u_split in Heq as (-> & _ & Heq); [|lia..]. apply (app_inv_head (lit "src")) in Heq.
  apply show_u_split in Heq as (-> & _ & Heq); [|lia..]. apply (app_inv_head (lit "part_")) in Heq.
  by apply show_u_split in Heq as (-> & -> & ->).
Qed.

Lemma segment_path_eq s r p q : segment_path s r p q = stem s r p ++ lit ".seg" ++ show_u q ++ lit ".arrow".
Proof. unfold segment_path, fmt. cbn [concat]. by rewrite app_nil_r. Qed.

Lemma segment_seq_own s r p q : u_ok 64 q -> segment_seq s r p (segment_path s r p q) = Some q.
Proof.
  intros Hq. unfold segment_seq. rewrite segment_path_eq, (app_assoc (stem s r p)), strip_prefix_app. simpl.
  rewrite strip_suffix_app. simpl. by apply parse_u_show.
Qed.

Lemma segment_seq_prefix s r p name q :
  segment_seq s r p name = Some q -> exists x, name = stem s r p ++ 46 :: lit "seg" ++ x.
Proof.
  unfold segment_seq. intros Hq. destruct (strip_prefix _ name) as [x|] eqn:Hx; [|done].
  apply strip_prefix_sound in Hx as ->. exists x. by rewrite <-app_assoc.
Qed.

Context {s r p s' r' p' : Z}.
Hypotheses (Hs : 0 <= s) (Hr : 0 <= r) (Hp : 0 <= p) (Hs' : 0 <= s') (Hr' : 0 <= r') (Hp' : 0 <= p').

Lemma segment_seq_path q : segment_seq s r p (path s' r' p') <> Some q.
Proof using Type*.
  intros [x Hx]%segment_seq_prefix. unfold path in Hx. simpl in Hx.
  apply stem_split in Hx as (_ & _ & _ & _ & Hx); [|lia..]. done.
Qed.

Lemma segment_seq_other q q' : segment_seq s r p (segment_path s' r' p' q') = Some q -> s = s' /\ r = r' /\ p = p'.
Proof using Type*.
  intros [x Hx]%segment_seq_prefix. rewrite segment_path_eq in Hx. simpl in Hx.
  apply stem_split in Hx as (-> & -> & -> & _); [done|lia..].
Qed.

Lemma path_inj : path s r p = path s' r' p' -> s = s' /\ r = r' /\ p = p'.
Proof using Type*.
  unfold path. simpl. intros Hx. apply stem_split in Hx as (-> & -> & -> & _); [done|lia..].
Qed.

Lemma path_segment q : path s r p <> segment_path s' r' p' q.
Proof using Type*.
  rewrite segment_path_eq. unfold path. simpl. intros Hx.
  apply stem_split in Hx as (_ & _ & _ & _ & Hx); [done|lia..].
Qed.

Lemma segment_path_inj q q' : 0 <= q -> 0 <= q' ->
  segment_path s r p q = segment_path s' r' p' q' -> s = s' /\ r = r' /\ p = p' /\ q = q'.
Proof using Type*.
  rewrite !segment_path_eq. simpl. intros Hq Hq' Hx.
  apply stem_split in Hx as (-> & -> & -> & _ & Hx); [|lia..]. injection Hx as Hx.
  apply show_u_split in Hx as (-> & _); [done|lia..].
Qed.

(** [clear_stage] and [clear_scoped_stage] select by prefix; the delimiters
    make the prefix exact. *)
Lemma stage_prefix x : starts_with (stem s' r' p' ++ x) (fmt [lit "stage_"; show_u s; lit "_"]) = bool_decide (s = s').
Proof using Hs Hs'.
  unfold starts_with. apply bool_decide_ext. rewrite stem_eq. unfold fmt. cbn [concat]. split.
  - intros [y Hy%strip_prefix_sound]. rewrite <-!app_assoc in Hy. apply app_inv_head in Hy. simpl in Hy.
    by apply show_u_split in Hy as (-> & _); [|lia..].
  - intros ->. exists (lit "src" ++ show_u r' ++ lit "_part_" ++ show_u p' ++ x).
    rewrite <-(strip_prefix_app (lit "stage_" ++ show_u s' ++ lit "_" ++ [])). f_equal. by rewrite <-!app_assoc.
Qed.

Lemma scope_prefix x : starts_with (stem s' r' p' ++ x) (fmt [lit "stage_"; show_u s; lit "_src"; show_u r; lit "_"]) =
  bool_decide (s = s' /\ r = r').
Proof using Hs Hs' Hr Hr'.
  unfold starts_with. apply bool_decide_ext. rewrite stem_eq. unfold fmt. cbn [concat]. split.
  - intros [y Hy%strip_prefix_sound]. rewrite <-!app_assoc in Hy. apply app_inv_head in Hy. simpl in Hy.
    apply show_u_split in Hy as (-> & _ & Hy); [|lia..]. apply (app_inv_head (lit "src")) in Hy.
    by apply show_u_split in Hy as (-> & _); [|lia..].
  - intros [-> ->]. exists (lit "part_" ++ show_u p' ++ x).
    rewrite <-(strip_prefix_app (lit "stage_" ++ show_u s' ++ lit "_src" ++ show_u r' ++ lit "_" ++ [])).
    f_equal. by rewrite <-!app_assoc.
Qed.
End Names.

(** ** What a bucket holds on disk *)

Section Chunks.
Context `{HA : Arrow} `{!ArrowIpc}.

(** A file that decodes to these batches. *)
Definition Holds (d : Disk) (name : list Z) (bs : list RecordBatch) : Prop :=
  exists bytes, files d !! name = Some bytes /\ ipc_decode bytes = Ok bs.

(** The bucket was written in these chunks: the base file and its segments,
    numbered from 0, and no other segment of the bucket exists. *)
Definition Chunks (d : Disk) (s r p : Z) (ch : list (list RecordBatch)) : Prop :=
  match ch with [] => files d !! path s r p = None | first :: _ => Holds d (path s r p) first end /\
  (forall i b, tail ch !! i = Some b -> Holds d (segment_path s r p (Z.of_nat i)) b) /\
  (forall name q, is_Some (files d !! name) -> segment_seq s r p name = Some q ->
     exists i, name = segment_path s r p (Z.of_nat i) /\ (i < length (tail ch))%nat) /\
  Z.of_nat (length ch) <= u_max 64.

(** The directory can be listed, its files opened and removed. *)
Definition Healthy (d : Disk) : Prop := access d = healthy.
(** Writes are accepted as well. *)
Definition Good (d : Disk) : Prop := script d = [] /\ Healthy d.

Context (s r p : Z) (Hs : 0 <= s) (Hr : 0 <= r) (Hp : 0 <= p).

Definition numbered (n : nat) : list (Z * list Z) :=
  (fun i => (Z.of_nat i, segment_path s r p (Z.of_nat i))) <$> seq 0 n.

Lemma numbered_sorted n k : StronglySorted seq_le ((fun i => (Z.of_nat i, segment_path s r p (Z.of_nat i))) <$> seq k n).
Proof.
  revert k. induction n as [|n IH]; intros k; simpl; [constructor|]. constructor; [apply IH|].
  apply Forall_fmap, Forall_forall. intros i Hi%elem_of_seq. unfold seq_le. simpl. lia.
Qed.

Lemma healthy_listing d (l : list (list Z)) : Healthy d -> filter (fun name => lists (access d) name = true) l = l.
Proof. intros Hh. rewrite Hh. induction l as [|x l IH]; [done|]. by rewrite filter_cons_True, IH. Qed.

Lemma healthy_exists d name : Healthy d -> file_exists d name = bool_decide (is_Some (files d !! name)).
Proof. intros Hh. unfold file_exists. by rewrite Hh. Qed.

Lemma segment_entries_chunks d ch : Healthy d -> Chunks d s r p ch -> segment_entries d s r p ≡ₚ numbered (length (tail ch)).
Proof using Hs Hr Hp.
  intros Hh (_ & Hseg & Honly & Hlen). pose proof (length_tl ch) as Ht. change (tl ch) with (tail ch) in Ht.
  assert (forall i, (i < length (tail ch))%nat -> segment_seq s r p (segment_path s r p (Z.of_nat i)) = Some (Z.of_nat i)) as Hown.
  { intros i Hi. apply segment_seq_own. split; lia. }
  unfold segment_entries. rewrite (healthy_listing d _ Hh). apply NoDup_Permutation.
  - apply (NoDup_fmap_1 snd).
    assert (forall l : list (list Z), snd <$> omap (fun name => (fun q => (q, name)) <$> segment_seq s r p name) l =
      filter (fun name => is_Some (segment_seq s r p name)) l) as ->.
    { induction l as [|name l IH]; [done|]. rewrite filter_cons. cbn [omap list_omap].
      destruct (segment_seq s r p name) as [q|]; cbn [fmap option_fmap option_map].
      - rewrite decide_True by eauto. rewrite fmap_cons. by f_equal.
      - rewrite decide_False by (by intros [? ?]). done. }
    apply NoDup_filter, NoDup_fst_map_to_list.
  - unfold numbered. apply (NoDup_fmap_1 fst). rewrite <-list_fmap_compose. apply NoDup_fmap_2; [|apply NoDup_seq].
    intros i j Hij. simpl in Hij. lia.
  - intros [q name]. unfold numbered. rewrite list_elem_of_omap, list_elem_of_fmap. split.
    + intros (name' & Hin & Hq). destruct (segment_seq s r p name') as [q'|] eqn:Hseq; simplify_eq/=.
      apply list_elem_of_fmap in Hin as ([name0 bytes] & ? & Hin%elem_of_map_to_list). simplify_eq/=.
      destruct (Honly name0 q) as (i & -> & Hi); [by eexists|done|].
      rewrite Hown in Hseq by done. simplify_eq. exists i. split; [done|]. apply elem_of_seq. lia.
    + intros (i & Hq & Hi%elem_of_seq). simplify_eq. exists (segment_path s r p (Z.of_nat i)).
      rewrite Hown by lia. split; [|done].
      destruct (lookup_lt_is_Some_2 (tail ch) i ltac:(lia)) as [b Hb]. destruct (Hseg i b Hb) as (bytes & Hbytes & _).
      apply list_elem_of_fmap. exists (segment_path s r p (Z.of_nat i), bytes). split; [done|]. by apply elem_of_map_to_list.
Qed.

(** The listing gives the segments in append order, whatever the order of the
    directory. *)
Lemma segment_paths_chunks d ch : Healthy d -> Chunks d s r p ch ->
  segment_paths d s r p = (fun i => segment_path s r p (Z.of_nat i)) <$> seq 0 (length (tail ch)).
Proof using Hs Hr Hp.
  intros Hh Hch. unfold segment_paths.
  assert (merge_sort seq_le (segment_entries d s r p) = numbered (length (tail ch))) as ->.
  { apply (StronglySorted_unique_strong seq_le).
    - intros x y Hx Hy Hxy Hyx. rewrite merge_sort_Permutation, segment_entries_chunks in Hx by done.
      unfold numbered in *. apply list_elem_of_fmap in Hx as (i & -> & _), Hy as (j & -> & _).
      unfold seq_le in *. simpl in *. by replace j with i by lia.
    - apply StronglySorted_merge_sort; apply _.
    - apply numbered_sorted.
    - rewrite merge_sort_Permutation. by apply segment_entries_chunks. }
  unfold numbered. rewrite <-list_fmap_compose. done.
Qed.

Lemma read_holds d name bs : Healthy d -> Holds d name bs -> read_ipc_file d name = Ok bs.
Proof. intros Hh (bytes & Hb & Hdec). unfold read_ipc_file. rewrite Hh, Hb. simpl. by rewrite Hdec. Qed.

Lemma read_segments_holds d names bss : Healthy d -> Forall2 (Holds d) names bss -> read_segments d names = Ok bss.
Proof.
  intros Hd. induction 1 as [|name bs names bss Hh Hrest IH]; [done|]. unfold read_segments in *. simpl.
  rewrite (read_holds _ _ _ Hd Hh). simpl. by rewrite IH.
Qed.

Lemma read_bucket_chunks d ch : Healthy d -> Chunks d s r p ch -> read_bucket d s r p = Ok (concat ch).
Proof using Hs Hr Hp.
  intros Hh Hch. unfold read_bucket. rewrite healthy_exists by done. rewrite (segment_paths_chunks d ch Hh Hch).
  destruct Hch as (Hbase & Hseg & _ & _).
  destruct ch as [|first rest]; [rewrite bool_decide_false by (rewrite Hbase; by intros [? ?]); done|]. simpl in Hbase, Hseg.
  rewrite bool_decide_true by (destruct Hbase as (bytes & -> & _); by eexists). cbn [negb].
  rewrite (read_holds d _ first Hh Hbase). simpl. rewrite (read_segments_holds d _ rest Hh); [done|].
  apply Forall2_fmap_l, Forall2_same_length_lookup. split; [by rewrite length_seq|].
  intros i k b Hk Hb. apply lookup_seq in Hk as [-> _]. by apply Hseg.
Qed.

(** Two directories that agree on the files of a bucket. *)
Lemma Chunks_frame d d' ch :
  files d' !! path s r p = files d !! path s r p ->
  (forall name q, segment_seq s r p name = Some q -> files d' !! name = files d !! name) ->
  Chunks d s r p ch -> Chunks d' s r p ch.
Proof.
  intros Hbase Hsame (Hb & Hseg & Honly & Hlen). pose proof (length_tl ch) as Ht. change (tl ch) with (tail ch) in Ht.
  split; [|split; [|split; [|done]]].
  - destruct ch; [by rewrite Hbase|]. unfold Holds. by rewrite Hbase.
  - intros i b Hi. pose proof (lookup_lt_Some _ _ _ Hi). unfold Holds.
    rewrite (Hsame _ (Z.of_nat i)); [by apply Hseg|]. apply segment_seq_own. split; lia.
  - intros name q Hname Hq. rewrite (Hsame _ _ Hq) in Hname. by eapply Honly.
Qed.
End Chunks.

(** ** Writes, and what they leave alone *)

Section Writes.
Context `{HA : Arrow} `{HI : !ArrowIpc} `{HL : !ArrowIpcLaws}.

(** The names of the files of a bucket, of a producer scope, and of a stage. *)
Definition of_bucket (s r p : Z) (name : list Z) : Prop := exists x, name = stem s r p ++ 46 :: x.
Definition of_scope (s r : Z) (name : list Z) : Prop := exists p, 0 <= p /\ of_bucket s r p name.
Definition of_stage (s : Z) (name : list Z) : Prop := exists r, 0 <= r /\ of_scope s r name.

(** The directories differ at most in files whose name satisfies [P]. *)
Definition Same (P : list Z -> Prop) (d d' : Disk) : Prop :=
  access d' = access d /\ forall name, P name \/ files d' !! name = files d !! name.

Lemma Same_files P d d' : Same P d d' -> forall name, ~ P name -> files d' !! name = files d !! name.
Proof. intros [_ Hsame] name Hn. by destruct (Hsame name). Qed.

Lemma Same_refl P d : Same P d d.
Proof. split; [done|]. intros name. by right. Qed.

Lemma Same_trans P d d' d'' : Same P d d' -> Same P d' d'' -> Same P d d''.
Proof. intros [A1 H1] [A2 H2]. split; [congruence|]. intros name.
  destruct (H1 name) as [|E1], (H2 name) as [|E2]; auto. right. congruence. Qed.

Lemma Same_weaken (P Q : list Z -> Prop) d d' : (forall name, P name -> Q name) -> Same P d d' -> Same Q d d'.
Proof. intros HPQ [Ha Hsame]. split; [done|]. intros name. destruct (Hsame name); auto. Qed.

Lemma Same_healthy P d d' : Same P d d' -> Healthy d -> Healthy d'.
Proof. intros [Ha _] Hh. unfold Healthy. by rewrite Ha. Qed.

Lemma of_bucket_path s r p : of_bucket s r p (path s r p).
Proof. by exists (lit "arrow"). Qed.

Lemma of_bucket_segment s r p q : of_bucket s r p (segment_path s r p q).
Proof. exists (lit "seg" ++ show_u q ++ lit ".arrow"). by rewrite segment_path_eq. Qed.

Lemma of_bucket_seq s r p name q : segment_seq s r p name = Some q -> of_bucket s r p name.
Proof. intros [x ->]%segment_seq_prefix. by eexists. Qed.

Lemma of_bucket_inj s r p s' r' p' name :
  0 <= s -> 0 <= r -> 0 <= p -> 0 <= s' -> 0 <= r' -> 0 <= p' ->
  of_bucket s r p name -> of_bucket s' r' p' name -> s = s' /\ r = r' /\ p = p'.
Proof. intros ?????? [x ->] [y Hy]. apply stem_split in Hy as (-> & -> & -> & _); [done|lia..]. Qed.

Lemma Chunks_same P s r p d d' ch : (forall name, of_bucket s r p name -> ~ P name) ->
  Same P d d' -> Chunks d s r p ch -> Chunks d' s r p ch.
Proof.
  intros Hout Hsame0. pose proof (Same_files _ _ _ Hsame0) as Hsame. apply Chunks_frame.
  - apply Hsame, Hout, of_bucket_path.
  - intros name q Hq%of_bucket_seq. by apply Hsame, Hout.
Qed.

Lemma write_same name sch bs d res d' : write_ipc_file name sch bs d = (res, d') -> Same (fun n => n = name) d d'.
Proof.
  unfold write_ipc_file, put_file. intros Hw. repeat case_match; simplify_eq/=;
    (split; [done|]; intros n; simpl; destruct (decide (n = name)); [by left|right];
     rewrite ?lookup_insert_ne by congruence; done).
Qed.

Lemma write_ok name sch bs d d' : Forall (fun b => schema_of b = sch) bs ->
  write_ipc_file name sch bs d = (Ok tt, d') -> Holds d' name bs /\ script d' = tail (script d).
Proof using Type*.
  intros Hsch Hw. destruct (ipc_roundtrip sch bs Hsch) as (bytes & Henc & Hdec).
  unfold write_ipc_file in Hw. destruct (default Fine _); [|done..]. rewrite Henc in Hw. simplify_eq.
  split; [|done]. exists bytes. simpl. by rewrite lookup_insert_eq.
Qed.

Lemma write_total name sch bs d : Forall (fun b => schema_of b = sch) bs -> Good d ->
  exists d', write_ipc_file name sch bs d = (Ok tt, d') /\ Good d'.
Proof using Type*.
  intros Hsch [Hfine Hh]. destruct (ipc_roundtrip sch bs Hsch) as (bytes & Henc & Hdec).
  unfold write_ipc_file. rewrite Hfine, Henc. simpl. eexists. split; [done|]. split; [|done]. simpl. by rewrite Hfine.
Qed.

Section Bucket.
Context (s r p : Z) (Hs : 0 <= s) (Hr : 0 <= r) (Hp : 0 <= p).

Lemma write_bucket_same sch bs d res d' : write_bucket s r p sch bs d = (res, d') -> Same (of_bucket s r p) d d'.
Proof.
  intros Hw%write_same. eapply Same_weaken; [|done]. intros name ->. apply of_bucket_path.
Qed.

Lemma write_bucket_chunks sch bs d d' : Forall (fun b => schema_of b = sch) bs -> Chunks d s r p [] ->
  write_bucket s r p sch bs d = (Ok tt, d') -> Chunks d' s r p [bs].
Proof using Type*.
  intros Hsch (_ & _ & Honly & _) Hw. pose proof (Same_files _ _ _ (write_same _ _ _ _ _ _ Hw)) as Hsame.
  apply write_ok in Hw as [Hh _]; [|done]. split; [done|]. split; [done|]. split; [|done].
  intros name q Hname Hq. simpl. rewrite Hsame in Hname; [by eapply Honly|].
  intros ->. by apply (segment_seq_path Hs Hr Hp Hs Hr Hp q).
Qed.

Lemma write_segment_chunks sch bs d d' first rest :
  Forall (fun b => schema_of b = sch) bs -> Chunks d s r p (first :: rest) ->
  Z.of_nat (length (first :: rest)) < u_max 64 ->
  write_ipc_file (segment_path s r p (Z.of_nat (length rest))) sch bs d = (Ok tt, d') ->
  Chunks d' s r p ((first :: rest) ++ [bs]).
Proof using Type*.
  intros Hsch (Hbase & Hseg & Honly & _) Hlen Hw. pose proof (Same_files _ _ _ (write_same _ _ _ _ _ _ Hw)) as Hsame.
  apply write_ok in Hw as [Hh _]; [|done].
  assert (forall name, name <> segment_path s r p (Z.of_nat (length rest)) -> forall b, Holds d name b -> Holds d' name b) as Hkeep.
  { intros name Hn b. unfold Holds. by rewrite Hsame. }
  split; [|split; [|split]].
  - simpl. apply Hkeep; [|done]. by apply path_segment.
  - simpl. intros i b Hi. apply lookup_app_Some in Hi as [Hi|[Hge Hi]].
    + apply Hkeep; [|by apply Hseg]. apply lookup_lt_Some in Hi.
      intros Heq. apply segment_path_inj in Heq; [lia|lia..].
    + pose proof (lookup_lt_Some _ _ _ Hi) as Hlt. simpl in Hlt.
      replace i with (length rest) in * by lia. rewrite Nat.sub_diag in Hi. by injection Hi as <-.
  - simpl. intros name q Hname Hq. rewrite length_app. simpl.
    destruct (decide (name = segment_path s r p (Z.of_nat (length rest)))) as [->|Hn].
    + exists (length rest). split; [done|lia].
    + rewrite Hsame in Hname by done. destruct (Honly name q Hname Hq) as (i & -> & Hi).
      exists i. split; [done|]. simpl in Hi. lia.
  - rewrite length_app. simpl length in *. lia.
Qed.

Lemma append_same sch bs d res d' :
  append_batches_to_bucket s r p sch bs d = (res, d') -> Same (of_bucket s r p) d d'.
Proof.
  unfold append_batches_to_bucket. intros Ha. case_bool_decide; simplify_eq; [apply Same_refl|].
  destruct (file_exists d (path s r p)); cbn [negb] in Ha; [|by eapply write_bucket_same].
  apply write_same in Ha. eapply Same_weaken; [|done]. intros name ->. apply of_bucket_segment.
Qed.

(** What one append adds to the chunks of a bucket. *)
Definition add_chunk (bs : list RecordBatch) (ch : list (list RecordBatch)) : list (list RecordBatch) :=
  match bs with [] => ch | _ => ch ++ [bs] end.

Lemma concat_add_chunk bs ch : concat (add_chunk bs ch) = concat ch ++ bs.
Proof. destruct bs; simpl; [by rewrite app_nil_r|]. rewrite concat_app. simpl. by rewrite app_nil_r. Qed.

Lemma length_add_chunk bs ch : (length (add_chunk bs ch) <= S (length ch))%nat.
Proof. destruct bs; simpl; [lia|]. rewrite length_app. simpl. lia. Qed.

Lemma append_chunks sch bs d d' ch :
  Forall (fun b => schema_of b = sch) bs -> Chunks d s r p ch -> Z.of_nat (length ch) < u_max 64 -> Healthy d ->
  append_batches_to_bucket s r p sch bs d = (Ok tt, d') -> Chunks d' s r p (add_chunk bs ch).
Proof using Type*.
  intros Hsch Hch Hlen Hh Ha. unfold append_batches_to_bucket in Ha. destruct bs as [|b bs]; [by simplify_eq/=|].
  rewrite bool_decide_false in Ha by done.
  rewrite (segment_paths_chunks s r p Hs Hr Hp d ch Hh Hch), length_fmap, length_seq, healthy_exists in Ha by done.
  unfold add_chunk. destruct ch as [|first rest].
  - rewrite bool_decide_false in Ha by (rewrite (proj1 Hch); by intros [? ?]). by eapply write_bucket_chunks.
  - destruct (proj1 Hch) as (bytes & Hb & _). rewrite bool_decide_true in Ha by (rewrite Hb; by eexists).
    simpl tail in Ha. by eapply write_segment_chunks.
Qed.

Lemma append_total sch bs d : Forall (fun b => schema_of b = sch) bs -> Good d ->
  exists d', append_batches_to_bucket s r p sch bs d = (Ok tt, d') /\ Good d'.
Proof using HL.
  intros Hsch Hfine. unfold append_batches_to_bucket. case_bool_decide; [by eexists|].
  case_match; by apply write_total.
Qed.
End Bucket.
End Writes.

(** ** The buckets a cache stands for *)

Section Rep.
Context `{HA : Arrow} `{HI : !ArrowIpc} `{HL : !ArrowIpcLaws}.

(** The directory has no file of the scope. *)
Definition Clean (d : Disk) (s r : Z) : Prop := forall name, of_scope s r name -> files d !! name = None.

(** Every batch of every bucket has the schema. *)
Definition Typed (sch : Schema) (l : list (list RecordBatch)) : Prop :=
  Forall (Forall (fun b => schema_of b = sch)) l.

Definition Bucket (k : nat) (d : Disk) (s r p : Z) (bs : list RecordBatch) : Prop :=
  exists ch, Chunks d s r p ch /\ concat ch = bs /\ (length ch <= k)%nat.

(** [Rep k d sch s r c l]: the cache entry of scope [(s, r)] with schema [sch]
    holds the buckets [l]; [k] bounds the number of files per bucket.  An
    in-memory entry has no file; a spilled one has exactly the files of its
    buckets, and its row counts are theirs. *)
Definition Rep (k : nat) (d : Disk) (sch : Schema) (s r : Z) (c : BucketCache) (l : list (list RecordBatch)) : Prop :=
  Z.of_nat (length l) <= 2 ^ 32 /\ Typed sch l /\
  match c with
  | Memory buckets => buckets = l /\ Clean d s r
  | Spilled sch' _ s' r' rc => sch' = sch /\ s' = s /\ r' = r /\ rc = (total_rows <$> l) /\
      (forall p, 0 <= p < 2 ^ 32 -> Bucket k d s r p (default [] (l !! Z.to_nat p)))
  end.

Lemma total_rows_app a b : total_rows (a ++ b) = (total_rows a + total_rows b)%nat.
Proof. unfold total_rows. rewrite fmap_app. induction (num_rows <$> a) as [|x l IH]; simpl; [done|]. rewrite IH. lia. Qed.

Lemma length_grow {A} n (x : A) l : length (grow n x l) = Nat.max n (length l).
Proof. unfold grow. rewrite length_app, length_replicate. lia. Qed.

Lemma lookup_grow {A} n (x : A) (l : list A) i : default x (grow n x l !! i) = default x (l !! i).
Proof.
  unfold grow. destruct (decide (i < length l)%nat) as [Hi|Hi].
  - by rewrite lookup_app_l.
  - rewrite lookup_app_r by lia. rewrite (lookup_ge_None_2 l) by lia.
    destruct (replicate _ x !! _) as [y|] eqn:Hy; [|done]. by apply lookup_replicate in Hy as [-> _].
Qed.

Lemma length_extend p bs l : length (extend_bucket p bs l) = Nat.max (S (Z.to_nat p)) (length l).
Proof. unfold extend_bucket. by rewrite length_alter, length_grow. Qed.

Lemma lookup_extend p bs l i : default [] (extend_bucket p bs l !! i) =
  default [] (l !! i) ++ (if decide (i = Z.to_nat p) then bs else []).
Proof.
  unfold extend_bucket. destruct (decide (i = Z.to_nat p)) as [->|Hne].
  - rewrite list_lookup_alter_eq, <-(lookup_grow (S (Z.to_nat p)) [] l).
    destruct (lookup_lt_is_Some_2 (grow (S (Z.to_nat p)) [] l) (Z.to_nat p)) as [b ->]; [rewrite length_grow; lia|done].
  - by rewrite list_lookup_alter_ne, app_nil_r, lookup_grow by done.
Qed.

Lemma Typed_extend sch p bs l : Forall (fun b => schema_of b = sch) bs -> Typed sch l -> Typed sch (extend_bucket p bs l).
Proof.
  unfold Typed, extend_bucket. intros Hbs Hl. apply Forall_alter.
  - apply Forall_app. split; [done|]. apply Forall_replicate. constructor.
  - intros b _ Hb. by apply Forall_app.
Qed.

Lemma bump_total p bs l :
  bump_row_count (total_rows <$> l) p (total_rows bs) = total_rows <$> extend_bucket p bs l.
Proof.
  unfold bump_row_count, extend_bucket, grow.
  rewrite (list_fmap_alter total_rows (fun b => b ++ bs) (fun n => n + total_rows bs)%nat).
  - rewrite fmap_app, fmap_replicate, length_fmap. done.
  - apply Forall_forall. intros b _. apply total_rows_app.
Qed.

Section Scope.
Context (s r : Z) (Hs : 0 <= s) (Hr : 0 <= r).

Lemma Clean_chunks d p : 0 <= p -> Clean d s r -> Chunks d s r p [].
Proof.
  intros Hp Hc. assert (forall name, of_bucket s r p name -> files d !! name = None) as Hn.
  { intros name Hb. apply Hc. by exists p. }
  split; [apply Hn, of_bucket_path|]. split; [done|]. split; [|done].
  intros name q [bytes Hname] Hq%of_bucket_seq. rewrite Hn in Hname; done.
Qed.

Lemma of_bucket_scope p name : 0 <= p -> of_bucket s r p name -> of_scope s r name.
Proof. intros Hp Hb. by exists p. Qed.

Lemma Same_scope p d d' : 0 <= p -> Same (of_bucket s r p) d d' -> Same (of_scope s r) d d'.
Proof. intros Hp. apply Same_weaken. intros name. by apply of_bucket_scope. Qed.

Lemma Chunks_other_bucket p p' d d' ch : 0 <= p -> 0 <= p' -> p <> p' ->
  Same (of_bucket s r p) d d' -> Chunks d s r p' ch -> Chunks d' s r p' ch.
Proof using Hs Hr.
  intros Hp Hp' Hne. apply Chunks_same. intros name Hb' Hb. apply Hne.
  by destruct (of_bucket_inj s r p s r p' name) as (_ & _ & ?).
Qed.

Lemma write_buckets_same sch buckets : forall i d res d',
  write_buckets sch s r i buckets d = (res, d') -> Same (of_scope s r) d d'.
Proof.
  induction buckets as [|b bs IH]; intros i d res d' Hw; simpl in Hw; [simplify_eq; apply Same_refl|].
  destruct (write_bucket _ _ _ _ _ _) as [[[]|e] d1] eqn:Hb; apply write_bucket_same in Hb;
    (apply Same_scope in Hb; [|apply wrapu_range; lia]).
  - eapply Same_trans; [done|]. by eapply IH.
  - by simplify_eq.
Qed.

Lemma write_buckets_chunks sch buckets : forall i d d', Typed sch buckets -> Z.of_nat (i + length buckets) <= 2 ^ 32 ->
  (forall p, Z.of_nat i <= p -> Chunks d s r p []) ->
  write_buckets sch s r i buckets d = (Ok tt, d') ->
  (forall p ch, 0 <= p < Z.of_nat i -> Chunks d s r p ch -> Chunks d' s r p ch) /\
  (forall j b, buckets !! j = Some b -> Chunks d' s r (Z.of_nat (i + j)) [b]) /\
  (forall p, Z.of_nat (i + length buckets) <= p -> Chunks d' s r p []).
Proof using Type*.
  induction buckets as [|b bs IH]; intros i d d' Hty Hlen Hfree Hw; simpl in Hw.
  { simplify_eq. split; [done|]. split; [done|]. intros p Hp. apply Hfree. simpl in Hp. lia. }
  inversion Hty as [|?? Hb Hbs]; subst. simpl length in Hlen.
  rewrite wrapu_small in Hw by (unfold u_ok, u_max; lia).
  destruct (write_bucket _ _ _ _ _ _) as [[[]|e] d1] eqn:Hb1; [|done].
  pose proof (write_bucket_same _ _ _ _ _ _ _ _ Hb1) as Hsame.
  apply write_bucket_chunks in Hb1; [|done|done|lia|done|apply Hfree; lia].
  destruct (IH (S i) d1 d') as (Hlow & Hmid & Hhigh); [done|lia| |done|].
  { intros p Hp. eapply (Chunks_other_bucket (Z.of_nat i) p d d1); [lia..|done|]. apply Hfree. lia. }
  split; [|split].
  - intros p ch Hp Hch. apply Hlow; [lia|]. by eapply (Chunks_other_bucket (Z.of_nat i) p d d1); [lia..|done|].
  - intros [|j] b' Hj; simpl in Hj; simplify_eq.
    + rewrite Nat.add_0_r. apply Hlow; [lia|done].
    + replace (i + S j)%nat with (S i + j)%nat by lia. by apply Hmid.
  - intros p Hp. simpl length in Hp. apply Hhigh. lia.
Qed.

Lemma write_buckets_total sch buckets : forall i d, Typed sch buckets -> Good d ->
  exists d', write_buckets sch s r i buckets d = (Ok tt, d') /\ Good d'.
Proof using HL.
  induction buckets as [|b bs IH]; intros i d Hty Hfine; simpl; [by eexists|].
  inversion Hty; subst. destruct (write_total (path s r (wrapu 32 (Z.of_nat i))) sch b d) as (d1 & Hw & Hf); [done..|].
  unfold write_bucket. rewrite Hw. by apply IH.
Qed.

Lemma spill_buckets_rep st sch buckets d c d' :
  Z.of_nat (length buckets) <= 2 ^ 32 -> Typed sch buckets -> Clean d s r ->
  spill_buckets sch buckets s r st d = (Ok c, d') -> Rep 1 d' sch s r c buckets.
Proof using Type*.
  intros Hlen Hty Hclean Hsp. unfold spill_buckets in Hsp.
  destruct (write_buckets _ _ _ _ _ _) as [[[]|e] d1] eqn:Hw; simplify_eq.
  apply write_buckets_chunks in Hw as (_ & Hmid & Hhigh); [|done|done|].
  - split; [done|]. split; [done|]. split_and!; [done..|]. intros p Hp.
    destruct (buckets !! Z.to_nat p) as [b|] eqn:Hb; simpl.
    + exists [b]. split_and!; [|apply app_nil_r|done]. replace p with (Z.of_nat (0 + Z.to_nat p)) by lia. by apply Hmid.
    + exists []. split_and!; [|done|simpl; lia]. apply Hhigh. apply lookup_ge_None in Hb. lia.
  - intros p Hp. by apply Clean_chunks; [lia|].
Qed.

Lemma spill_buckets_same st sch buckets d res d' :
  spill_buckets sch buckets s r st d = (res, d') -> Same (of_scope s r) d d'.
Proof.
  unfold spill_buckets. intros Hsp. destruct (write_buckets _ _ _ _ _ _) as [[[]|e] d1] eqn:Hw;
    apply write_buckets_same in Hw; by simplify_eq.
Qed.

Lemma spill_buckets_total st sch buckets d : Typed sch buckets -> Good d ->
  exists c d', spill_buckets sch buckets s r st d = (Ok c, d') /\ Good d'.
Proof using HL.
  intros Hty Hfine. destruct (write_buckets_total sch buckets 0 d Hty Hfine) as (d' & Hw & Hf).
  unfold spill_buckets. rewrite Hw. by eexists _, _.
Qed.

Lemma Rep_mono k k' d sch c l : (k <= k')%nat -> Rep k d sch s r c l -> Rep k' d sch s r c l.
Proof.
  intros Hk (Hlen & Hty & Hc). split; [done|]. split; [done|]. destruct c; [done|].
  destruct Hc as (? & ? & ? & ? & Hb). split_and!; [done..|]. intros p Hp.
  destruct (Hb p Hp) as (ch & ? & ? & ?). exists ch. split_and!; [done..|lia].
Qed.

(** What a cache entry stands for depends on the files of its scope only. *)
Lemma Clean_frame d d' : (forall name, of_scope s r name -> files d' !! name = files d !! name) ->
  Clean d s r -> Clean d' s r.
Proof. intros Hsame Hclean name Hn. rewrite Hsame by done. by apply Hclean. Qed.

Lemma Rep_frame k d d' sch c l : (forall name, of_scope s r name -> files d' !! name = files d !! name) ->
  Rep k d sch s r c l -> Rep k d' sch s r c l.
Proof.
  intros Hsame (Hlen & Hty & Hc). split; [done|]. split; [done|]. destruct c.
  - destruct Hc as [-> Hclean]. split; [done|]. by eapply Clean_frame.
  - destruct Hc as (? & ? & ? & ? & Hb). split_and!; [done..|]. intros p Hp.
    destruct (Hb p Hp) as (ch & Hch & ? & ?). exists ch. split_and!; [|done..].
    eapply Chunks_frame; [| |done].
    + apply Hsame. eapply of_bucket_scope; [|apply of_bucket_path]. lia.
    + intros name q Hq%of_bucket_seq. apply Hsame. eapply of_bucket_scope; [|done]. lia.
Qed.

Lemma spill_if_due_rep spill sch buckets d c d' :
  Z.of_nat (length buckets) <= 2 ^ 32 -> Typed sch buckets -> Clean d s r ->
  spill_if_due sch buckets s r spill d = (Ok tt, c, d') -> Rep 1 d' sch s r c buckets.
Proof using Type*.
  intros Hlen Hty Hclean. assert (Rep 1 d sch s r (Memory buckets) buckets) as Hmem by done.
  unfold spill_if_due. intros Hd. destruct spill as [st|]; [|by simplify_eq]. case_match; [|by simplify_eq].
  destruct (spill_buckets _ _ _ _ _ _) as [[c1|e] d1] eqn:Hsp; simplify_eq. by eapply spill_buckets_rep.
Qed.

Lemma spill_if_due_same spill sch buckets d res c d' :
  spill_if_due sch buckets s r spill d = (res, c, d') -> Same (of_scope s r) d d'.
Proof.
  unfold spill_if_due. intros Hd. destruct spill as [st|]; [|simplify_eq; apply Same_refl].
  case_match; [|simplify_eq; apply Same_refl].
  destruct (spill_buckets _ _ _ _ _ _) as [[c1|e] d1] eqn:Hsp; simplify_eq; by eapply spill_buckets_same.
Qed.

Lemma spill_if_due_total spill sch buckets d : Typed sch buckets -> Good d ->
  exists c d', spill_if_due sch buckets s r spill d = (Ok tt, c, d') /\ Good d'.
Proof using HL.
  intros Hty Hfine. unfold spill_if_due. destruct spill as [st|]; [|by eexists _, _].
  case_match; [|by eexists _, _]. destruct (spill_buckets_total st sch buckets d Hty Hfine) as (c & d' & -> & Hf).
  by eexists _, _.
Qed.

(** The spilled branch of the appends. *)
Lemma spilled_append_rep k sch st rc l p bs d d' :
  0 <= p < 2 ^ 32 -> Z.of_nat k < u_max 64 -> Healthy d -> Forall (fun b => schema_of b = sch) bs ->
  Rep k d sch s r (Spilled sch st s r rc) l -> append_batches_to_bucket s r p sch bs d = (Ok tt, d') ->
  Rep (S k) d' sch s r (Spilled sch st s r (bump_row_count rc p (total_rows bs))) (extend_bucket p bs l).
Proof using Type*.
  intros Hp Hk Hh Hbs (Hlen & Hty & _ & _ & _ & -> & Hb) Ha.
  pose proof (append_same _ _ _ _ _ _ _ _ Ha) as Hsame.
  split; [rewrite length_extend; lia|]. split; [by apply Typed_extend|]. split_and!; [done..|apply bump_total|].
  intros p' Hp'. rewrite lookup_extend. destruct (Hb p' Hp') as (ch & Hch & <- & Hlench).
  destruct (decide (Z.to_nat p' = Z.to_nat p)) as [Heq|Hne].
  - replace p' with p in * by lia. exists (add_chunk bs ch). split_and!.
    + eapply append_chunks; [lia..|done|done|lia|done|done].
    + apply concat_add_chunk.
    + pose proof (length_add_chunk bs ch). lia.
  - exists ch. split_and!; [|by rewrite app_nil_r|lia].
    eapply (Chunks_other_bucket p p' d d'); [lia|lia| |done|done]. intros ->. by apply Hne.
Qed.

(** [append_partition] appends to the bucket, whether the cache is in memory,
    is spilled by this call or was spilled before, if it reports success. *)
Lemma append_partition_rep k spill sch c l p bs d c' d' :
  0 <= p < 2 ^ 32 -> Z.of_nat k < u_max 64 -> Healthy d -> Forall (fun b => schema_of b = sch) bs -> Rep k d sch s r c l ->
  append_partition c sch s r p bs spill d = (Ok tt, c', d') -> Rep (S k) d' sch s r c' (extend_bucket p bs l).
Proof using Type*.
  intros Hp Hk Hh Hbs Hrep Ha. pose proof Hrep as (Hlen & Hty & Hc). unfold append_partition in Ha. destruct c.
  - destruct Hc as [-> Hclean]. eapply (Rep_mono 1); [lia|].
    eapply spill_if_due_rep; [rewrite length_extend; lia|by apply Typed_extend|done|done].
  - destruct Hc as (-> & -> & -> & _ & _).
    destruct (append_batches_to_bucket _ _ _ _ _ _) as [[[]|e] d1] eqn:Hap; simplify_eq.
    by eapply spilled_append_rep.
Qed.

Lemma append_batch_is_partition c sch p b spill d :
  append_batch c sch s r p b spill d = append_partition c sch s r p [b] spill d.
Proof. unfold append_batch, append_partition, append_batch_to_bucket. destruct c; [done|].
  unfold total_rows. simpl. by rewrite Nat.add_0_r. Qed.

(** A spilled entry names the scope [(s, r)], and its writes go there. *)
Definition Placed (c : BucketCache) : Prop :=
  match c with Memory _ => True | Spilled _ _ s' r' _ => s' = s /\ r' = r end.
(** Its batches have the entry's schema as well: writes succeed. *)
Definition Shape (sch : Schema) (c : BucketCache) : Prop :=
  match c with Memory buckets => Typed sch buckets | Spilled sch' _ s' r' _ => sch' = sch /\ s' = s /\ r' = r end.

Lemma Shape_placed sch c : Shape sch c -> Placed c.
Proof. destruct c; [done|]. by intros (_ & ? & ?). Qed.

Lemma Rep_shape k d sch c l : Rep k d sch s r c l -> Shape sch c.
Proof. intros (_ & Hty & Hc). destruct c; [by destruct Hc as [-> _]|]. by destruct Hc as (? & ? & ? & _). Qed.

Lemma spill_buckets_shape st sch buckets d c d' : spill_buckets sch buckets s r st d = (Ok c, d') -> Shape sch c.
Proof. unfold spill_buckets. intros Hsp. destruct (write_buckets _ _ _ _ _ _) as [[[]|] ?]; by simplify_eq. Qed.

Lemma spill_buckets_memory st sch buckets d c d' : spill_buckets sch buckets s r st d = (Ok c, d') -> memory_bytes c = 0.
Proof. unfold spill_buckets. intros Hsp. destruct (write_buckets _ _ _ _ _ _) as [[[]|] ?]; by simplify_eq. Qed.

Lemma spill_if_due_shape spill sch buckets d c d' : Typed sch buckets ->
  spill_if_due sch buckets s r spill d = (Ok tt, c, d') -> Shape sch c.
Proof.
  intros Hty. unfold spill_if_due. intros Hd. destruct spill as [st|]; [|by simplify_eq]. case_match; [|by simplify_eq].
  destruct (spill_buckets _ _ _ _ _ _) as [[c1|e] d1] eqn:Hsp; simplify_eq. by eapply spill_buckets_shape.
Qed.

Lemma spill_if_due_placed spill sch buckets d res c d' : spill_if_due sch buckets s r spill d = (res, c, d') -> Placed c.
Proof.
  unfold spill_if_due. intros Hd. destruct spill as [st|]; [|by simplify_eq]. case_match; [|by simplify_eq].
  destruct (spill_buckets _ _ _ _ _ _) as [[c1|e] d1] eqn:Hsp; simplify_eq; [|done].
  eapply Shape_placed, spill_buckets_shape, Hsp.
Qed.

Lemma append_partition_same spill sch c p bs d res c' d' : 0 <= p -> Placed c ->
  append_partition c sch s r p bs spill d = (res, c', d') -> Same (of_scope s r) d d' /\ Placed c'.
Proof.
  intros Hp Hc Ha. unfold append_partition in Ha. destruct c.
  - split; [by eapply spill_if_due_same|by eapply spill_if_due_placed].
  - destruct Hc as (-> & ->).
    destruct (append_batches_to_bucket _ _ _ _ _ _) as [[[]|e] d1] eqn:Hap; simplify_eq;
      (split; [apply append_same in Hap; by eapply Same_scope|done]).
Qed.

Lemma append_partition_total spill sch c p bs d : Forall (fun b => schema_of b = sch) bs -> Shape sch c ->
  Good d -> exists c' d', append_partition c sch s r p bs spill d = (Ok tt, c', d') /\ Good d' /\ Shape sch c'.
Proof using HL.
  intros Hbs Hc Hfine. unfold append_partition. destruct c.
  - assert (Typed sch (extend_bucket p bs buckets)) as Hty by (by apply Typed_extend).
    destruct (spill_if_due_total spill sch _ d Hty Hfine) as (c & d' & Hdue & Hf).
    exists c, d'. split_and!; try done. by eapply spill_if_due_shape.
  - destruct Hc as (-> & -> & ->). destruct (append_total s r p sch bs d Hbs Hfine) as (d' & -> & Hf). by eexists _, _.
Qed.

Lemma spill_now_rep k sch c l st d c' d' : Rep k d sch s r c l -> (1 <= k)%nat ->
  spill_now c sch s r st d = (Ok tt, c', d') -> Rep k d' sch s r c' l /\ memory_bytes c' = 0.
Proof using Type*.
  intros Hrep Hk Hsp. pose proof Hrep as (Hlen & Hty & Hc). unfold spill_now in Hsp. destruct c; [|by simplify_eq].
  destruct Hc as [-> Hclean]. destruct (spill_buckets _ _ _ _ _ _) as [[c1|e] d1] eqn:Hb; simplify_eq.
  split; [eapply Rep_mono; [done|]; by eapply spill_buckets_rep|].
  unfold spill_buckets in Hb. by destruct (write_buckets _ _ _ _ _ _) as [[[]|] ?]; simplify_eq.
Qed.

(** A bucket reads back as the batches with rows appended to it. *)
Lemma read_partition_rep k d sch c l p : 0 <= p < 2 ^ 32 -> Healthy d -> Rep k d sch s r c l ->
  exists bs, read_partition d c p = Ok bs /\ with_rows bs = with_rows (default [] (l !! Z.to_nat p)).
Proof using Type*.
  intros Hp Hh (_ & _ & Hc). unfold read_partition. destruct c.
  - destruct Hc as [-> _]. by eexists.
  - destruct Hc as (-> & -> & -> & _ & Hb). rewrite wrapu_small by (unfold u_ok, u_max; lia).
    destruct (Hb p Hp) as (ch & Hch & <- & _). rewrite (read_bucket_chunks s r p Hs Hr ltac:(lia) d ch Hh Hch). simpl.
    eexists. split; [done|]. case_bool_decide as Hn.
    + rewrite Hn. unfold with_rows. rewrite filter_cons_False; [done|]. rewrite num_rows_new_empty. lia.
    + unfold with_rows. by rewrite list_filter_filter_l.
Qed.

(** [clear_scoped_stage] removes the files of the scope, and no file of
    another scope. *)
Lemma clear_scoped_clean d : Healthy d -> Clean (clear_scoped_stage s r d) s r.
Proof using Hs Hr.
  intros Hh name (p & Hp & x & ->). unfold clear_scoped_stage, clear_by_prefix. cbn [files].
  apply map_lookup_filter_None. right. intros bytes _. cbn [fst]. rewrite scope_prefix by done.
  by rewrite bool_decide_true, Hh.
Qed.

Lemma clear_scoped_keeps d s' r' name : 0 <= s' -> 0 <= r' -> (s', r') <> (s, r) -> of_scope s' r' name ->
  files (clear_scoped_stage s r d) !! name = files d !! name.
Proof using Hs Hr.
  intros Hs' Hr' Hne (p & Hp & x & ->). unfold clear_scoped_stage, clear_by_prefix. cbn [files].
  rewrite map_lookup_filter. destruct (files d !! _) as [bytes|] eqn:Hb; rewrite ?Hb; [|done].
  cbn [mbind option_bind]. rewrite option_guard_True; [done|]. cbn [fst]. rewrite scope_prefix by done. rewrite bool_decide_false; [done|]. naive_solver.
Qed.

Lemma clear_stage_clean d : Healthy d -> Clean (clear_stage s d) s r.
Proof using Hs.
  intros Hh name (p & Hp & x & ->). unfold clear_stage, clear_by_prefix. cbn [files].
  apply map_lookup_filter_None. right. intros bytes _. cbn [fst]. rewrite stage_prefix by done.
  by rewrite bool_decide_true, Hh.
Qed.

Lemma partition_row_counts_rep k d sch c l : Rep k d sch s r c l -> partition_row_counts c = total_rows <$> l.
Proof. intros (_ & _ & Hc). destruct c; [by destruct Hc as [-> _]|]. by destruct Hc as (_ & _ & _ & -> & _). Qed.
End Scope.
End Rep.
