(* ===== verification/SpillWorker.v ===== *)
(** * SpillWorker: the stage cache of a Flight worker
    (oxidant-execution/src/flight.rs, shuffle/spill.rs)

    A worker keeps the output of its producer tasks under [(stage_id, src)],
    spills the largest entries when the worker-wide budget is exceeded, and
    serves one bucket of a stage as the union of its entries.  A producer task
    is a small machine (planning, streaming, collecting) whose steps
    interleave with those of the other tasks of the worker, with pushed
    batches, with reads, with the two halves of the cleanup at the end of a
    query and with changes of the file system; [step] is one such step. *)

From S2P Require Import Prelude Text Arrow Shuffle Spill.

(** The key [(stage_id, src)] of a cache entry, and [CachedStage]; the cache is
    the list of the entries its iterator yields. *)
Abbreviation Key := (Z * Z)%type (only parsing).
Abbreviation CachedStage := (Schema * BucketCache)%type (only parsing).

Section Worker.
Context `{HA : Arrow} `{HK : !RowKernels} `{HI : !ArrowIpc}.

Definition PUSH_SRC : Z := u_max 32.
Definition PRODUCER_FLUSH_BYTES : Z := 128 * 1024 * 1024.

Fixpoint get_entry (k : Key) (m : list (Key * CachedStage)) : option CachedStage :=
  match m with
  | [] => None
  | (k', e) :: m => if bool_decide (k' = k) then Some e else get_entry k m
  end.

Fixpoint set_entry (k : Key) (e : CachedStage) (m : list (Key * CachedStage)) : list (Key * CachedStage) :=
  match m with
  | [] => [(k, e)]
  | (k', e') :: m => if bool_decide (k' = k) then (k', e) :: m else (k', e') :: set_entry k e m
  end.

Definition remove_entry (k : Key) (m : list (Key * CachedStage)) : list (Key * CachedStage) := filter (fun kv => kv.1 <> k) m.

(** ** The worker-wide budget *)

Definition total_memory (m : list (Key * CachedStage)) : Z := sumZ ((fun kv : Key * CachedStage => memory_bytes kv.2.2) <$> m).

(** [Iterator::max_by_key]: the last of the largest entries. *)
Definition largest (m : list (Key * CachedStage)) : option (Key * CachedStage) :=
  foldl (fun (acc : option (Key * CachedStage)) (kv : Key * CachedStage) => match acc with
                       | None => Some kv
                       | Some best => if memory_bytes best.2.2 <=? memory_bytes kv.2.2 then Some kv else Some best
                       end) None m.

(** The loop of [enforce_total_budget]; [None] when the fuel runs out or the
    [expect] panics. *)
Fixpoint enforce_loop (fuel : nat) (limit : Z) (st : SpillStore) (m : list (Key * CachedStage)) (d : Disk)
  : option (result Error unit * list (Key * CachedStage) * Disk) :=
  match fuel with
  | O => None
  | S fuel =>
      if total_memory m <=? limit then Some (Ok tt, m, d)
      else match largest m with
           | None => None
           | Some (k, (schema, c)) =>
               match spill_now c schema k.1 k.2 st d with
               | (Ok _, c', d') => enforce_loop fuel limit st (set_entry k (schema, c') m) d'
               | (Err e, c', d') => Some (Err e, set_entry k (schema, c') m, d')
               end
           end
  end.

Definition enforce_total_budget (m : list (Key * CachedStage)) (st : SpillStore) (d : Disk)
  : option (result Error unit * list (Key * CachedStage) * Disk) :=
  match total_limit_bytes st with
  | None => Some (Ok tt, m, d)
  | Some limit => enforce_loop (S (length m)) limit st m d
  end.

(** ** Producer tasks *)

Record StageTicket := { stage_id : Z; partition_id : Z; num_partitions : Z; hash_key_cols : list nat }.
Definition ticket_key (t : StageTicket) : Key := (stage_id t, partition_id t).

(** [tonic::Status], by code. *)
Inductive Status := Internal (m : str) | Aborted (m : str) | ResourceExhausted (m : str).

(** Why the future of a task is dropped before it answers: [run_stage_bounded]
    ends it (timeout, cancel, watchdog), or the client goes away. *)
Inductive DropReason := TimedOut (m : str) | Cancelled | NoProgress (m : str) | ClientGone.

(** The locals of [partition_stage_stream]. *)
Record Streaming := {
  sg_schema : Schema;
  sg_cache : BucketCache;
  sg_staging : list (list RecordBatch);
  sg_bytes : Z;
}.

Inductive Phase := Planning | InStream (g : Streaming) | Collecting.

(** One call of [do_get] with a producing stage ticket; [tk_retried]: the
    stall retry was used. *)
Record Task := { tk_ticket : StageTicket; tk_retried : bool; tk_phase : Phase }.

(** [flush_staging], from bucket [p] on. *)
Fixpoint flush_staging (spill : option SpillStore) (t : StageTicket) (schema : Schema) (p : nat)
    (staging : list (list RecordBatch)) (c : BucketCache) (d : Disk) : result Error unit * BucketCache * Disk :=
  match staging with
  | [] => (Ok tt, c, d)
  | bs :: rest =>
      if bool_decide (bs = []) then flush_staging spill t schema (S p) rest c d
      else match append_partition c schema (stage_id t) (partition_id t) (wrapu 32 (Z.of_nat p)) bs spill d with
           | (Ok _, c', d') => flush_staging spill t schema (S p) rest c' d'
           | (Err e, c', d') => (Err e, c', d')
           end
  end.

Definition new_stream (t : StageTicket) (schema : Schema) : Streaming :=
  {| sg_schema := schema; sg_cache := Memory (replicate (Z.to_nat (num_partitions t)) []);
     sg_staging := replicate (Z.to_nat (num_partitions t)) []; sg_bytes := 0 |}.

(** Flush everything staged. *)
Definition flush (spill : option SpillStore) (t : StageTicket) (g : Streaming) (d : Disk)
  : result Error Streaming * Disk :=
  match flush_staging spill t (sg_schema g) 0 (sg_staging g) (sg_cache g) d with
  | (Ok _, c, d') => (Ok {| sg_schema := sg_schema g; sg_cache := c;
                            sg_staging := replicate (length (sg_staging g)) []; sg_bytes := 0 |}, d')
  | (Err e, _, d') => (Err e, d')
  end.

(** One iteration of the loop of [partition_stage_stream]. *)
Definition stream_batch (spill : option SpillStore) (t : StageTicket) (g : Streaming) (b : RecordBatch) (d : Disk)
  : result Error Streaming * Disk :=
  if (num_rows b =? 0)%nat then (Ok g, d)
  else match hash_partition [b] (hash_key_cols t) (Z.to_nat (num_partitions t)) with
       | Err e => (Err e, d)
       | Ok parts =>
           let g' := {| sg_schema := sg_schema g; sg_cache := sg_cache g;
                        sg_staging := zip_with app (sg_staging g) parts;
                        sg_bytes := sg_bytes g + sumZ (estimated_batch_bytes <$> parts) |} in
           if PRODUCER_FLUSH_BYTES <=? sg_bytes g' then flush spill t g' d else (Ok g', d)
       end.

(** ** The worker *)

Record Worker := {
  stage_outputs : list (Key * CachedStage);
  stage_inserted : gmap (Z * Z) Z;
  tasks : gmap (Z * Z) Task;
  disk : Disk;
  spill : option SpillStore;
  keep_spill : bool;
  stage_output_ttl : Z;
}.

Definition with_disk (w : Worker) (d : Disk) : Worker :=
  {| stage_outputs := stage_outputs w; stage_inserted := stage_inserted w; tasks := tasks w; disk := d;
     spill := spill w; keep_spill := keep_spill w; stage_output_ttl := stage_output_ttl w |}.
Definition with_tasks (w : Worker) (ts : gmap (Z * Z) Task) : Worker :=
  {| stage_outputs := stage_outputs w; stage_inserted := stage_inserted w; tasks := ts; disk := disk w;
     spill := spill w; keep_spill := keep_spill w; stage_output_ttl := stage_output_ttl w |}.
Definition with_cache (w : Worker) (m : list (Key * CachedStage)) (stamps : gmap (Z * Z) Z) (d : Disk) : Worker :=
  {| stage_outputs := m; stage_inserted := stamps; tasks := tasks w; disk := d;
     spill := spill w; keep_spill := keep_spill w; stage_output_ttl := stage_output_ttl w |}.

(** [note_stage_output_insert]: stamp the entry and drop the expired ones;
    their files stay. *)
Definition note_stage_output_insert (k : Key) (now : Z) (w : Worker) : Worker :=
  let stamps := <[k := now]> (stage_inserted w) in
  if stage_output_ttl w =? 0 then with_cache w (stage_outputs w) stamps (disk w)
  else let expired := filter (fun kv => stage_output_ttl w <= now - kv.2) stamps in
       with_cache w (filter (fun kv => expired !! kv.1 = None) (stage_outputs w))
         (filter (fun kv => ~ stage_output_ttl w <= now - kv.2) stamps) (disk w).

(** [StageSpillReaper::drop], armed. *)
Definition reap (k : Key) (w : Worker) : Worker :=
  with_cache w (remove_entry k (stage_outputs w)) (delete k (stage_inserted w))
    (match spill w with Some _ => clear_scoped_stage k.1 k.2 (disk w) | None => disk w end).

Definition clear_scope (k : Key) (w : Worker) : Worker :=
  with_disk w (match spill w with Some _ => clear_scoped_stage k.1 k.2 (disk w) | None => disk w end).

(** What the caller of one step sees. *)
Inductive Answer :=
  | Running
  | Panicked
  | TaskOk
  | TaskErr (e : Status)
  | TaskGone
  | Pushed (r : result Error unit)
  | Served (r : result Status (list RecordBatch))
  | Cleared.

Definition set_phase (w : Worker) (tk : Task) (ph : Phase) : Worker :=
  with_tasks w (<[ticket_key (tk_ticket tk) := {| tk_ticket := tk_ticket tk; tk_retried := tk_retried tk; tk_phase := ph |}]> (tasks w)).

(** The task answers an error: the reaper runs. *)
Definition fail_task (w : Worker) (tk : Task) (e : Status) : Worker * Answer :=
  let k := ticket_key (tk_ticket tk) in
  (reap k (with_tasks w (delete k (tasks w))), TaskErr e).

(** The budget over the cache; without a store it does nothing. *)
Definition enforce (w : Worker) : option (result Error unit * Worker) :=
  match spill w with
  | None => Some (Ok tt, w)
  | Some st => match enforce_total_budget (stage_outputs w) st (disk w) with
               | Some (r, m, d) => Some (r, with_cache w m (stage_inserted w) d)
               | None => None
               end
  end.

(** The producer branch of [run_stage] once the cache is built, and the end of
    [do_get]. *)
Definition commit (w : Worker) (tk : Task) (schema : Schema) (c : BucketCache) (now : Z) : Worker * Answer :=
  let k := ticket_key (tk_ticket tk) in
  let w := with_cache w (set_entry k (schema, c) (stage_outputs w)) (stage_inserted w) (disk w) in
  match enforce w with
  | None => (w, Panicked)
  | Some (Err e, w) => fail_task w tk (Internal (error_to_string e))
  | Some (Ok _, w) =>
      (note_stage_output_insert k now (with_tasks w (delete k (tasks w))), TaskOk)
  end.

(** [run_producer_stage] after the stream failed: discard the partial files
    and collect. *)
Definition fall_back (w : Worker) (tk : Task) : Worker * Answer :=
  (set_phase (clear_scope (ticket_key (tk_ticket tk)) w) tk Collecting, Running).

Definition planned (w : Worker) (tk : Task) (r : result str Schema) : Worker * Answer :=
  match r with
  | Err m => fail_task w tk (Internal m)
  | Ok schema => (set_phase w tk (InStream (new_stream (tk_ticket tk) schema)), Running)
  end.

Definition batch_received (w : Worker) (tk : Task) (g : Streaming) (b : RecordBatch) : Worker * Answer :=
  match stream_batch (spill w) (tk_ticket tk) g b (disk w) with
  | (Ok g', d) => (set_phase (with_disk w d) tk (InStream g'), Running)
  | (Err _, d) => fall_back (with_disk w d) tk
  end.

Definition stream_ended (w : Worker) (tk : Task) (g : Streaming) (now : Z) : Worker * Answer :=
  match flush (spill w) (tk_ticket tk) g (disk w) with
  | (Ok g', d) => commit (with_disk w d) tk (sg_schema g') (sg_cache g') now
  | (Err _, d) => fall_back (with_disk w d) tk
  end.

(** [produce_stage_collect] with what the engine returned. *)
Definition produce_stage_collect (w : Worker) (tk : Task) (r : result str (Schema * list RecordBatch)) (now : Z)
  : Worker * Answer :=
  let t := tk_ticket tk in
  match r with
  | Err m => fail_task w tk (Internal m)
  | Ok (schema, batches) =>
      match hash_partition batches (hash_key_cols t) (Z.to_nat (num_partitions t)) with
      | Err e => fail_task w tk (Internal (error_to_string e))
      | Ok buckets =>
          match maybe_spill schema buckets (stage_id t) (partition_id t) (spill w) (disk w) with
          | (Ok c, d) => commit (with_disk w d) tk schema c now
          | (Err e, d) => fail_task (with_disk w d) tk (Internal (error_to_string e))
          end
      end
  end.

(** The task's future is dropped; a stall is retried once. *)
Definition dropped (w : Worker) (tk : Task) (why : DropReason) : Worker * Answer :=
  let k := ticket_key (tk_ticket tk) in
  match why with
  | NoProgress m =>
      if tk_retried tk then fail_task w tk (Aborted m)
      else (with_tasks (clear_scope k w)
              (<[k := {| tk_ticket := tk_ticket tk; tk_retried := true; tk_phase := Planning |}]> (tasks w)), Running)
  | TimedOut m => fail_task w tk (ResourceExhausted m)
  | Cancelled => fail_task w tk (Aborted (lit "stage cancelled by driver"))
  | ClientGone => (fst (fail_task w tk (Aborted [])), TaskGone)
  end.

(** [cache_append_batch]. *)
Definition cache_append_batch (w : Worker) (hd : ShuffleExchangeHeader) (schema : Schema) (b : RecordBatch) (now : Z)
  : Worker * Answer :=
  let s := sh_stage_id hd in
  let p := sh_partition_id hd in
  let k := (s, PUSH_SRC) in
  let after (w : Worker) :=
    match enforce w with
    | None => (w, Panicked)
    | Some (Err e, w) => (w, Pushed (Err e))
    | Some (Ok _, w) => (note_stage_output_insert k now w, Pushed (Ok tt))
    end in
  match get_entry k (stage_outputs w) with
  | Some (existing, c) =>
      if bool_decide (existing = schema) then
        match append_batch c existing s PUSH_SRC p b (spill w) (disk w) with
        | (Ok _, c', d) => after (with_cache w (set_entry k (existing, c') (stage_outputs w)) (stage_inserted w) d)
        | (Err e, c', d) =>
            (with_cache w (set_entry k (existing, c') (stage_outputs w)) (stage_inserted w) d, Pushed (Err e))
        end
      else (w, Pushed (Err (Execution (fmt [lit "do_exchange schema mismatch for stage "; show_u s;
                                            lit " partition "; show_u p]))))
  | None =>
      match from_partition schema s PUSH_SRC p [b] (spill w) (disk w) with
      | (Ok c, d) => after (with_cache w (set_entry k (schema, c) (stage_outputs w)) (stage_inserted w) d)
      | (Err e, d) => (with_disk w d, Pushed (Err e))
      end
  end.

(** *** Reading *)

Definition align_batch_schema (b : RecordBatch) (schema : Schema) : option RecordBatch :=
  if bool_decide (schema_of b = schema) then Some b else try_new_batch schema b.

(** [entries.sort_by_key(|(key, _)| stamps.get(key))]: an unstamped entry
    comes first. *)
Definition stamp_le (stamps : gmap (Z * Z) Z) (a b : Key * CachedStage) : Prop :=
  match stamps !! a.1, stamps !! b.1 with
  | None, _ => True
  | Some _, None => False
  | Some x, Some y => x <= y
  end.
#[global] Instance stamp_le_dec stamps a b : Decision (stamp_le stamps a b).
Proof. unfold stamp_le. repeat case_match; apply _. Defined.

(** One entry's contribution: its batches, aligned to the freshest schema, or
    nothing when one of them does not fit. *)
Definition serve_entry (schema entry_schema : Schema) (part : list RecordBatch) : list RecordBatch :=
  if bool_decide (entry_schema = schema) then part
  else default [] (mapM (fun b => align_batch_schema b schema) part).

Definition read_shuffle (w : Worker) (s p : Z) : result Status (list RecordBatch) :=
  let entries := merge_sort (stamp_le (stage_inserted w)) (filter (fun kv => kv.1.1 = s) (stage_outputs w)) in
  match last entries with
  | None => Ok []
  | Some (_, (schema, _)) =>
      let! parts := mapM_result (fun kv : Key * CachedStage =>
          match read_partition (disk w) kv.2.2 p with
          | Ok part => Ok (serve_entry schema kv.2.1 part)
          | Err e => Err (Internal (fmt [lit "shuffle read stage "; show_u s; lit " partition "; show_u p;
                                         lit " src "; show_u kv.1.2; lit ": "; error_to_string e]))
          end) entries in
      let data := with_rows (concat parts) in
      Ok (if bool_decide (data = []) then [new_empty schema] else data)
  end.

(** [Vec]-wise sum of the [bucket_row_counts] action. *)
Fixpoint add_counts (a b : list nat) : list nat :=
  match a, b with
  | [], b => b
  | a, [] => a
  | x :: a, y :: b => (x + y)%nat :: add_counts a b
  end.
Definition bucket_row_counts (w : Worker) (s : Z) : list nat :=
  foldl (fun acc (kv : Key * CachedStage) => if kv.1.1 =? s then add_counts acc (partition_row_counts kv.2.2) else acc)
    [] (stage_outputs w).

(** *** End of a query *)

(** [clear_stages]: first the files of the stages in the cache, then the
    maps; the two parts hold the lock separately, so each is a step. *)
Definition clear_files (w : Worker) : Worker :=
  match spill w with
  | Some _ => if keep_spill w then w
              else with_disk w (foldl (fun d (kv : Key * CachedStage) => clear_stage kv.1.1 d) (disk w) (stage_outputs w))
  | None => w
  end.
Definition clear_maps (w : Worker) : Worker := with_cache w [] ∅ (disk w).

(** ** Steps *)

Inductive Op :=
  | Start (t : StageTicket)
  | Planned (k : Key) (r : result str Schema)
  | Batch (k : Key) (b : RecordBatch)
  | StreamError (k : Key)
  | StreamEnd (k : Key) (now : Z)
  | Collected (k : Key) (r : result str (Schema * list RecordBatch)) (now : Z)
  | Drop (k : Key) (why : DropReason)
  | Push (hd : ShuffleExchangeHeader) (schema : Schema) (b : RecordBatch) (now : Z)
  | Read (s p : Z)
  | ClearFiles
  | ClearMaps
  | FsChange (acc : Access) (faults : list WriteFault).

(** One step of one of the worker's futures, or a change in what the file
    system permits; a step that the task is not ready for does nothing. *)
Definition step (w : Worker) (op : Op) : Worker * Answer :=
  match op with
  | Start t => (with_tasks w (<[ticket_key t := {| tk_ticket := t; tk_retried := false; tk_phase := Planning |}]> (tasks w)), Running)
  | Planned k r =>
      match tasks w !! k with
      | Some tk => match tk_phase tk with Planning => planned w tk r | _ => (w, Running) end
      | None => (w, Running)
      end
  | Batch k b =>
      match tasks w !! k with
      | Some tk => match tk_phase tk with InStream g => batch_received w tk g b | _ => (w, Running) end
      | None => (w, Running)
      end
  | StreamError k =>
      match tasks w !! k with
      | Some tk => match tk_phase tk with InStream _ => fall_back w tk | _ => (w, Running) end
      | None => (w, Running)
      end
  | StreamEnd k now =>
      match tasks w !! k with
      | Some tk => match tk_phase tk with InStream g => stream_ended w tk g now | _ => (w, Running) end
      | None => (w, Running)
      end
  | Collected k r now =>
      match tasks w !! k with
      | Some tk => match tk_phase tk with Collecting => produce_stage_collect w tk r now | _ => (w, Running) end
      | None => (w, Running)
      end
  | Drop k why => match tasks w !! k with Some tk => dropped w tk why | None => (w, Running) end
  | Push hd schema b now => cache_append_batch w hd schema b now
  | Read s p => (w, Served (read_shuffle w s p))
  | ClearFiles => (clear_files w, Running)
  | ClearMaps => (clear_maps w, Cleared)
  | FsChange acc faults => (with_disk w {| files := files (disk w); script := faults; access := acc |}, Running)
  end.

Fixpoint steps (w : Worker) (ops : list Op) : Worker * list Answer :=
  match ops with
  | [] => (w, [])
  | op :: ops => let '(w, a) := step w op in let '(w, l) := steps w ops in (w, a :: l)
  end.
End Worker.
