(* ===== verification/SpillRefine.v ===== *)
(** * SpillRefine: a worker that spills is a worker that does not

    [Abs] is the stage cache as its readers see it: a map from producer scopes
    to buckets, with no files, no thresholds, no staging and no budget.  It
    also records the scopes whose files may not be those of their buckets,
    because an entry expired, was produced again, or was cleared under a
    running task ([ab_taint]).  [Sim] relates a worker to such a state; every
    step of the worker is the abstract step with the same answer, the
    worker-wide budget holds after every step, and what is said about reads
    holds for the stages without a tainted entry. *)

From S2P Require Import Prelude Text Arrow Shuffle Spill SpillWorker.

(** [try_new] gives the batch the schema it is called with. *)
Class TrySchema `{ArrowIpc} `{!RowKernels} : Prop := {
  try_new_schema b cols b' : try_new b cols = Ok b' -> schema_of b' = schema_of b;
}.

(** ** The abstract worker *)

Abbreviation Buckets := (list (list RecordBatch)) (only parsing).

Section Abstract.
Context `{HA : Arrow} `{HK : !RowKernels} `{HI : !ArrowIpc}.

Inductive AbPhase := APlanning | AStream (sch : Schema) (l : Buckets) | ACollecting.
Record AbTask := { at_ticket : StageTicket; at_retried : bool; at_phase : AbPhase }.

(** [ab_swept]: the files of the cached entries were removed, and nothing was
    committed or pushed since. *)
Record Abs := {
  ab_done : gmap (Z * Z) (Schema * Buckets);
  ab_tasks : gmap (Z * Z) AbTask;
  ab_stamps : gmap (Z * Z) Z;
  ab_taint : gset (Z * Z);
  ab_swept : bool;
}.

Definition with_ab_tasks (ts : gmap (Z * Z) AbTask) (a : Abs) : Abs :=
  {| ab_done := ab_done a; ab_tasks := ts; ab_stamps := ab_stamps a; ab_taint := ab_taint a; ab_swept := ab_swept a |}.
Definition with_ab_taint (taint : gset (Z * Z)) (a : Abs) : Abs :=
  {| ab_done := ab_done a; ab_tasks := ab_tasks a; ab_stamps := ab_stamps a; ab_taint := taint; ab_swept := ab_swept a |}.

(** A task of the scope starts; its files would mix with those of a cached
    entry. *)
Definition ab_start (t : StageTicket) (a : Abs) : Abs :=
  let k := ticket_key t in
  with_ab_taint (match ab_done a !! k with Some _ => {[k]} ∪ ab_taint a | None => ab_taint a end)
    (with_ab_tasks (<[k := {| at_ticket := t; at_retried := false; at_phase := APlanning |}]> (ab_tasks a)) a).
(** The files of the scope are removed. *)
Definition ab_wiped (k : Z * Z) (a : Abs) : Abs :=
  with_ab_taint (match ab_done a !! k with Some _ => ab_taint a | None => ab_taint a ∖ {[k]} end) a.
Definition ab_set_task (at_ : AbTask) (retried : bool) (ph : AbPhase) (a : Abs) : Abs :=
  with_ab_tasks (<[ticket_key (at_ticket at_) := {| at_ticket := at_ticket at_; at_retried := retried; at_phase := ph |}]> (ab_tasks a)) a.
Definition ab_phase (at_ : AbTask) (ph : AbPhase) (a : Abs) : Abs := ab_set_task at_ (at_retried at_) ph a.
Definition ab_fall_back (at_ : AbTask) (a : Abs) : Abs :=
  ab_wiped (ticket_key (at_ticket at_)) (ab_phase at_ ACollecting a).
Definition ab_fail (at_ : AbTask) (a : Abs) : Abs :=
  let k := ticket_key (at_ticket at_) in
  {| ab_done := delete k (ab_done a); ab_tasks := delete k (ab_tasks a); ab_stamps := delete k (ab_stamps a);
     ab_taint := ab_taint a ∖ {[k]}; ab_swept := ab_swept a |}.

Definition ab_parts (t : StageTicket) (bs : list RecordBatch) : result Error Buckets :=
  hash_partition bs (hash_key_cols t) (Z.to_nat (num_partitions t)).

Definition ab_batch (at_ : AbTask) (sch : Schema) (l : Buckets) (b : RecordBatch) (a : Abs) : Abs :=
  if (num_rows b =? 0)%nat then a
  else match ab_parts (at_ticket at_) [b] with
       | Ok parts => ab_phase at_ (AStream sch (zip_with app l parts)) a
       | Err _ => ab_fall_back at_ a
       end.

Definition ab_drop (at_ : AbTask) (why : DropReason) (a : Abs) : Abs * Answer :=
  match why with
  | NoProgress m =>
      if at_retried at_ then (ab_fail at_ a, TaskErr (Aborted m))
      else (ab_wiped (ticket_key (at_ticket at_)) (ab_set_task at_ true APlanning a), Running)
  | TimedOut m => (ab_fail at_ a, TaskErr (ResourceExhausted m))
  | Cancelled => (ab_fail at_ a, TaskErr (Aborted (lit "stage cancelled by driver")))
  | ClientGone => (ab_fail at_ a, TaskGone)
  end.

(** *** The time to live and the cleanup *)

(** The configuration of the worker: [stage_output_ttl] and [keep_spill]. *)
Context (ttl : Z) (keep : bool).

(** An entry is stamped, and the expired entries go; their files may stay. *)
Definition ab_note (k : Z * Z) (now : Z) (a : Abs) : Abs :=
  let stamps := <[k := now]> (ab_stamps a) in
  if ttl =? 0 then {| ab_done := ab_done a; ab_tasks := ab_tasks a; ab_stamps := stamps; ab_taint := ab_taint a; ab_swept := ab_swept a |}
  else let expired := filter (fun kv => ttl <= now - kv.2) stamps in
       {| ab_done := filter (fun kv => expired !! kv.1 = None) (ab_done a); ab_tasks := ab_tasks a;
          ab_stamps := filter (fun kv => ~ ttl <= now - kv.2) stamps;
          ab_taint := ab_taint a ∪ dom expired; ab_swept := ab_swept a |}.

(** The entry of scope [k] is set. *)
Definition ab_set (k : Z * Z) (sch : Schema) (l : Buckets) (a : Abs) : Abs :=
  {| ab_done := <[k := (sch, l)]> (ab_done a); ab_tasks := ab_tasks a; ab_stamps := ab_stamps a;
     ab_taint := ab_taint a; ab_swept := false |}.
Definition ab_put (k : Z * Z) (sch : Schema) (l : Buckets) (now : Z) (a : Abs) : Abs := ab_note k now (ab_set k sch l a).
Definition ab_commit (at_ : AbTask) (sch : Schema) (l : Buckets) (now : Z) (a : Abs) : Abs :=
  let k := ticket_key (at_ticket at_) in ab_note k now (ab_set k sch l (with_ab_tasks (delete k (ab_tasks a)) a)).

Definition ab_collected (at_ : AbTask) (r : result str (Schema * list RecordBatch)) (now : Z) (a : Abs) : Abs * Answer :=
  match r with
  | Err m => (ab_fail at_ a, TaskErr (Internal m))
  | Ok (sch, bs) => match ab_parts (at_ticket at_) bs with
                    | Ok l => (ab_commit at_ sch l now a, TaskOk)
                    | Err e => (ab_fail at_ a, TaskErr (Internal (error_to_string e)))
                    end
  end.

Definition ab_push (hd : ShuffleExchangeHeader) (sch : Schema) (b : RecordBatch) (now : Z) (a : Abs) : Abs * Answer :=
  let k := (sh_stage_id hd, PUSH_SRC) in
  match ab_done a !! k with
  | Some (sch', l) =>
      if bool_decide (sch' = sch) then (ab_put k sch' (extend_bucket (sh_partition_id hd) [b] l) now a, Pushed (Ok tt))
      else (a, Pushed (Err (Execution (fmt [lit "do_exchange schema mismatch for stage "; show_u (sh_stage_id hd);
                                            lit " partition "; show_u (sh_partition_id hd)]))))
  | None => (ab_put k sch (extend_bucket (sh_partition_id hd) [b] []) now a, Pushed (Ok tt))
  end.

(** The stage has a cached entry. *)
Definition ab_cached (a : Abs) (s : Z) : Prop := Exists (fun k : Z * Z => k.1 = s) (map_to_list (ab_done a)).*1.

(** The files of every cached stage go: those of its entries, those of its
    running tasks, and those nobody owned. *)
Definition ab_clear_files (a : Abs) : Abs :=
  if keep then a
  else {| ab_done := ab_done a; ab_tasks := ab_tasks a; ab_stamps := ab_stamps a;
          ab_taint := dom (ab_done a) ∪ filter (fun k => is_Some (ab_tasks a !! k) \/ ~ ab_cached a k.1) (ab_taint a)
                      ∪ filter (fun k => ab_cached a k.1) (dom (ab_tasks a));
          ab_swept := true |}.
(** The entries go; the files of those written since stay. *)
Definition ab_clear_maps (a : Abs) : Abs :=
  {| ab_done := ∅; ab_tasks := ab_tasks a; ab_stamps := ∅;
     ab_taint := if ab_swept a then filter (fun k => ab_done a !! k = None \/ is_Some (ab_tasks a !! k)) (ab_taint a)
                 else ab_taint a ∪ dom (ab_done a);
     ab_swept := false |}.

(** The abstract step.  The answer of a read is specified by [ReadOk]. *)
Definition ab_step (a : Abs) (op : Op) : Abs * option Answer :=
  let on k f := match ab_tasks a !! k with Some at_ => f at_ | None => (a, Some Running) end in
  match op with
  | Start t => (ab_start t a, Some Running)
  | Planned k r => on k (fun at_ => match at_phase at_, r with
      | APlanning, Err m => (ab_fail at_ a, Some (TaskErr (Internal m)))
      | APlanning, Ok sch => (ab_phase at_ (AStream sch (replicate (Z.to_nat (num_partitions (at_ticket at_))) [])) a, Some Running)
      | _, _ => (a, Some Running)
      end)
  | Batch k b => on k (fun at_ => match at_phase at_ with
      | AStream sch l => (ab_batch at_ sch l b a, Some Running)
      | _ => (a, Some Running)
      end)
  | StreamError k => on k (fun at_ => match at_phase at_ with
      | AStream _ _ => (ab_fall_back at_ a, Some Running)
      | _ => (a, Some Running)
      end)
  | StreamEnd k now => on k (fun at_ => match at_phase at_ with
      | AStream sch l => (ab_commit at_ sch l now a, Some TaskOk)
      | _ => (a, Some Running)
      end)
  | Collected k r now => on k (fun at_ => match at_phase at_ with
      | ACollecting => let '(a', ans) := ab_collected at_ r now a in (a', Some ans)
      | _ => (a, Some Running)
      end)
  | Drop k why => on k (fun at_ => let '(a', ans) := ab_drop at_ why a in (a', Some ans))
  | Push hd sch b now => let '(a', ans) := ab_push hd sch b now a in (a', Some ans)
  | Read _ _ => (a, None)
  | ClearFiles => (ab_clear_files a, Some Running)
  | ClearMaps => (ab_clear_maps a, Some Cleared)
  | FsChange _ _ => (a, Some Running)
  end.

(** The entries of a stage, and the batches with rows of one of their buckets. *)
Definition ab_entries (a : Abs) (s : Z) : list ((Z * Z) * (Schema * Buckets)) :=
  filter (fun kv => kv.1.1 = s) (map_to_list (ab_done a)).
Definition ab_bucket (a : Abs) (s p : Z) : list RecordBatch :=
  ab_entries a s ≫= (fun kv => with_rows (default [] (kv.2.2 !! Z.to_nat p))).

(** What a read must answer when the entries of the stage have one schema and
    none is tainted: the bucket's batches, or one empty batch of that schema. *)
Definition ReadOk (a : Abs) (s p : Z) (ans : Answer) : Prop :=
  (ab_entries a s = [] -> ans = Served (Ok [])) /\
  (forall sch, ab_entries a s <> [] -> Forall (fun kv => kv.2.1 = sch /\ kv.1 ∉ ab_taint a) (ab_entries a s) ->
     exists bs, ans = Served (Ok bs) /\
       (if decide (ab_bucket a s p = []) then bs = [new_empty sch] else bs ≡ₚ ab_bucket a s p)).

Definition Answers (a : Abs) (op : Op) (ans : Answer) : Prop :=
  match ab_step a op with
  | (_, Some ans') => ans = ans'
  | (_, None) => match op with Read s p => ReadOk a s p ans | _ => False end
  end.

(** ** What the driver and the file system do not do

    A worker has at most one running task per scope; batches have the schema
    announced for them; the file system stays healthy. *)

Definition valid_key (k : Z * Z) : Prop := u_ok 32 k.1 /\ u_ok 32 k.2.
Definition ValidTicket (t : StageTicket) : Prop :=
  valid_key (ticket_key t) /\ partition_id t <> PUSH_SRC /\ 1 <= num_partitions t <= u_max 32.

Definition Allowed (a : Abs) (op : Op) : Prop :=
  match op with
  | Start t => ValidTicket t /\ ab_tasks a !! ticket_key t = None
  | Batch k b => match at_phase <$> ab_tasks a !! k with Some (AStream sch _) => schema_of b = sch | _ => True end
  | Collected _ (Ok (sch, bs)) _ => Forall (fun b => schema_of b = sch) bs
  | Push hd sch b _ => u_ok 32 (sh_stage_id hd) /\ u_ok 32 (sh_partition_id hd) /\ schema_of b = sch
  | Read s p => u_ok 32 s /\ u_ok 32 p
  | FsChange _ _ => False
  | _ => True
  end.

#[global] Instance u_ok_dec n z : Decision (u_ok n z).
Proof. unfold u_ok. apply _. Defined.
#[global] Instance valid_key_dec k : Decision (valid_key k).
Proof. unfold valid_key. apply _. Defined.
#[global] Instance ValidTicket_dec t : Decision (ValidTicket t).
Proof. unfold ValidTicket. apply _. Defined.
#[global] Instance Allowed_dec a op : Decision (Allowed a op).
Proof. unfold Allowed. repeat case_match; apply _. Defined.
End Abstract.

(** ** Association lists *)

Section Entries.
Context `{HA : Arrow} `{HI : !ArrowIpc}.
Implicit Types (m : list (Key * CachedStage)) (e : CachedStage).

Lemma get_set_eq k e m : get_entry k (set_entry k e m) = Some e.
Proof. induction m as [|[k' e'] m IH]; simpl; repeat (case_bool_decide; simpl); congruence. Qed.

Lemma get_set_ne k k' e m : k' <> k -> get_entry k' (set_entry k e m) = get_entry k' m.
Proof. intros Hne. induction m as [|[k0 e0] m IH]; simpl; repeat (case_bool_decide; simpl); congruence. Qed.

Lemma get_remove_eq k m : get_entry k (remove_entry k m) = None.
Proof.
  induction m as [|[k' e'] m IH]; [done|]. unfold remove_entry in *. rewrite filter_cons. simpl.
  case_decide; simpl; [|done]. by rewrite bool_decide_false.
Qed.

Lemma get_remove_ne k k' m : k' <> k -> get_entry k' (remove_entry k m) = get_entry k' m.
Proof.
  intros Hne. induction m as [|[k0 e0] m IH]; [done|]. unfold remove_entry in *. rewrite filter_cons. simpl.
  case_decide as Hk; simpl in *; [by rewrite IH|]. rewrite bool_decide_false; [done|]. congruence.
Qed.

Lemma elem_set_keys k e m k' : k' ∈ (set_entry k e m).*1 <-> k' = k \/ k' ∈ m.*1.
Proof. induction m as [|[k0 e0] m IH]; simpl; [set_solver|]. case_bool_decide; set_solver. Qed.

Lemma NoDup_set k e m : NoDup m.*1 -> NoDup (set_entry k e m).*1.
Proof.
  induction m as [|[k0 e0] m IH]; simpl; intros Hnd; [apply NoDup_singleton|]. case_bool_decide; [done|].
  rewrite fmap_cons. simpl. apply NoDup_cons in Hnd as [Hni Hnd]. apply NoDup_cons. split; [|by apply IH].
  rewrite elem_set_keys. intros [->|]; [|done]. congruence.
Qed.

Lemma NoDup_remove k m : NoDup m.*1 -> NoDup (remove_entry k m).*1.
Proof. intros Hnd. apply sublist_NoDup with m.*1; [done|]. apply fmap_sublist. unfold remove_entry. apply sublist_filter. Qed.

Lemma elem_get k e m : NoDup m.*1 -> (k, e) ∈ m <-> get_entry k m = Some e.
Proof.
  induction m as [|[k0 e0] m IH]; simpl; intros Hnd; [set_solver|].
  apply NoDup_cons in Hnd as [Hni Hnd]. specialize (IH Hnd). rewrite elem_of_cons. case_bool_decide as Hk; [subst|].
  - split; [intros [?|Hin]; [congruence|]|intros [= ->]; by left]. exfalso. apply Hni.
    apply list_elem_of_fmap. by exists (k, e).
  - rewrite <-IH. split; [intros [?|?]; [congruence|done]|by right].
Qed.

Lemma get_filter (P : Key * CachedStage -> Prop) `{!forall kv, Decision (P kv)} (Q : Key -> Prop) `{!forall k, Decision (Q k)} k m :
  (forall kv, P kv <-> Q kv.1) -> get_entry k (filter P m) = if decide (Q k) then get_entry k m else None.
Proof.
  intros HPQ. induction m as [|[k0 e0] m IH]; [by case_decide|]. rewrite filter_cons. simpl. pose proof (HPQ (k0, e0)) as Hk0.
  simpl in Hk0. destruct (decide (P (k0, e0))); simpl; case_bool_decide; subst; rewrite ?IH; case_decide; tauto.
Qed.

(** *** The memory they take *)

Definition entry_bytes (kv : Key * CachedStage) : Z := memory_bytes kv.2.2.

Context `{HL : !ArrowIpcLaws}.

Lemma memory_bytes_nonneg (c : BucketCache) : 0 <= memory_bytes c.
Proof using HL.
  destruct c; simpl; [|lia]. unfold estimated_bucket_bytes, estimated_batch_bytes. apply sumZ_nonneg.
  apply Forall_fmap, Forall_forall. intros b _. apply memory_size_nonneg.
Qed.

Lemma total_memory_nonneg m : 0 <= total_memory m.
Proof using HL.
  apply sumZ_nonneg, Forall_fmap, Forall_forall. intros kv _. apply memory_bytes_nonneg.
Qed.

Lemma total_cons kv m : total_memory (kv :: m) = entry_bytes kv + total_memory m.
Proof. done. Qed.

Lemma total_filter (P : Key * CachedStage -> Prop) `{!forall kv, Decision (P kv)} m : total_memory (filter P m) <= total_memory m.
Proof using HL.
  induction m as [|kv m IH]; [done|]. rewrite filter_cons.
  pose proof (memory_bytes_nonneg kv.2.2). case_decide; rewrite !total_cons; unfold entry_bytes; lia.
Qed.

Lemma largest_spec m : match largest m with
  | None => m = []
  | Some best => best ∈ m /\ Forall (fun kv => entry_bytes kv <= entry_bytes best) m
  end.
Proof.
  unfold largest. induction m as [|kv m IH] using rev_ind; [done|]. rewrite foldl_snoc.
  destruct (foldl _ None m) as [best|] eqn:Hbest.
  - destruct IH as [Hin Hall]. destruct (Z.leb_spec (memory_bytes best.2.2) (memory_bytes kv.2.2)) as [Hle|Hlt].
    + split; [set_solver|]. apply Forall_app. split; [|by repeat constructor].
      eapply Forall_impl; [done|]. simpl. unfold entry_bytes in *. lia.
    + split; [set_solver|]. apply Forall_app. split; [done|]. repeat constructor. unfold entry_bytes in *. lia.
  - subst. split; [set_solver|]. by repeat constructor.
Qed.

(** The entries that still take memory. *)
Definition loaded (m : list (Key * CachedStage)) : nat := length (filter (fun kv => 0 < entry_bytes kv) m).

Lemma loaded_set k sch c m : memory_bytes c = 0 ->
  (exists e, get_entry k m = Some e /\ 0 < memory_bytes e.2) ->
  S (loaded (set_entry k (sch, c) m)) = loaded m.
Proof.
  intros Hc (e & Hget & Hpos). unfold loaded. induction m as [|[k0 e0] m IH]; [done|]. simpl in Hget |- *.
  case_bool_decide as Hk.
  - simplify_eq. rewrite filter_cons_False by (unfold entry_bytes; simpl; lia).
    by rewrite filter_cons_True by (unfold entry_bytes; simpl; lia).
  - rewrite !filter_cons. case_decide; simpl; rewrite <-IH by done; done.
Qed.

Lemma over_budget_loaded limit m : 0 <= limit -> limit < total_memory m -> exists kv, largest m = Some kv /\ 0 < entry_bytes kv.
Proof using HL.
  intros Hlim Hover. pose proof (largest_spec m) as Hl. destruct (largest m) as [best|].
  - exists best. split; [done|]. destruct Hl as [_ Hall]. destruct (decide (0 < entry_bytes best)) as [|Hno]; [done|].
    exfalso. assert (total_memory m <= 0); [|lia]. clear Hover.
    induction Hall as [|kv m Hkv Hall IH]; [done|]. rewrite total_cons. lia.
  - subst. unfold total_memory in Hover. simpl in Hover. lia.
Qed.
End Entries.

(** ** The simulation *)

Section Simulation.
Context `{HA : Arrow} `{HK : !RowKernels} `{HI : !ArrowIpc} `{HL : !ArrowIpcLaws} `{HT : !TrySchema}.
Implicit Types (w : Worker) (a : Abs) (k : Z * Z).

(** A total limit is at least 0 (the constructors make it at least 1). *)
Definition LimitOk (st : SpillStore) : Prop :=
  match total_limit_bytes st with Some limit => 0 <= limit | None => True end.

(** What a task has on disk: nothing, or the buckets it has flushed beside the
    batches it has staged. *)
Definition PhaseSim (K : nat) (d : Disk) (t : StageTicket) (ph : Phase) (aph : AbPhase) : Prop :=
  match ph, aph with
  | Planning, APlanning | Collecting, ACollecting => Clean d (stage_id t) (partition_id t)
  | InStream g, AStream sch l =>
      exists lf, length lf = Z.to_nat (num_partitions t) /\
        Rep K d sch (stage_id t) (partition_id t) (sg_cache g) lf /\ l = zip_with app lf (sg_staging g)
  | _, _ => False
  end.

(** The phases agree, and what is staged or cached can be written. *)
Definition PhaseShape (t : StageTicket) (ph : Phase) (aph : AbPhase) : Prop :=
  match ph, aph with
  | Planning, APlanning | Collecting, ACollecting => True
  | InStream g, AStream sch l =>
      sg_schema g = sch /\ length (sg_staging g) = Z.to_nat (num_partitions t) /\ Typed sch (sg_staging g) /\
      Shape (stage_id t) (partition_id t) sch (sg_cache g)
  | _, _ => False
  end.

Definition TaskShape k (tk : Task) (at_ : AbTask) : Prop :=
  tk_ticket tk = at_ticket at_ /\ tk_retried tk = at_retried at_ /\ ticket_key (tk_ticket tk) = k /\
  ValidTicket (tk_ticket tk) /\ PhaseShape (tk_ticket tk) (tk_phase tk) (at_phase at_).

(** Entries and tasks are the same on both sides. *)
Definition Matches k (e : option CachedStage) (ad : option (Schema * Buckets)) (tk : option Task) (at_ : option AbTask) : Prop :=
  match e, ad with
  | None, None => True
  | Some (sch, c), Some (sch', _) => valid_key k /\ sch = sch' /\ Shape k.1 k.2 sch c
  | _, _ => False
  end /\
  match tk, at_ with None, None => True | Some tk, Some at_ => TaskShape k tk at_ | _, _ => False end.

(** A scope is free, holds a committed entry, or belongs to a running task,
    and its files are those of the buckets. *)
Definition Exact (K : nat) (d : Disk) k (e : option CachedStage) (ad : option (Schema * Buckets))
    (tk : option Task) (at_ : option AbTask) : Prop :=
  match e, ad, tk, at_ with
  | None, None, None, None => valid_key k -> Clean d k.1 k.2
  | Some (sch, c), Some (_, l), None, None => Rep K d sch k.1 k.2 c l
  | None, None, Some tk, Some at_ => PhaseSim K d (tk_ticket tk) (tk_phase tk) (at_phase at_)
  | _, _, _, _ => False
  end.

Definition matches_of w a k : Prop :=
  Matches k (get_entry k (stage_outputs w)) (ab_done a !! k) (tasks w !! k) (ab_tasks a !! k).
Definition exact_of (K : nat) w a k : Prop :=
  Exact K (disk w) k (get_entry k (stage_outputs w)) (ab_done a !! k) (tasks w !! k) (ab_tasks a !! k).

Context (st : SpillStore) (ttl : Z) (keep : bool).

Record Sim0 (K : nat) w a : Prop := {
  sim_spill : spill w = Some st;
  sim_good : Good (disk w);
  sim_ttl : stage_output_ttl w = ttl;
  sim_keep : keep_spill w = keep;
  sim_keys : NoDup (stage_outputs w).*1;
  sim_stamps : stage_inserted w = ab_stamps a;
  sim_matches : forall k, matches_of w a k;
  sim_exact : forall k, k ∉ ab_taint a -> exact_of K w a k;
  sim_swept : ab_swept a = true -> forall k, valid_key k -> is_Some (ab_done a !! k) -> ab_tasks a !! k = None ->
    Clean (disk w) k.1 k.2;
}.

(** The worker-wide budget. *)
Definition Budget w : Prop :=
  match total_limit_bytes st with Some limit => total_memory (stage_outputs w) <= limit | None => True end.

Definition Sim (K : nat) w a : Prop := Sim0 K w a /\ Budget w.

(** *** Changes to one scope *)

(** The directories agree on the files of every other scope. *)
Definition Keeps k (d d' : Disk) : Prop := forall k' name, valid_key k' -> k' <> k -> of_scope k'.1 k'.2 name ->
  files d' !! name = files d !! name.

Lemma Same_Keeps k d d' : valid_key k -> Same (of_scope k.1 k.2) d d' -> Keeps k d d'.
Proof.
  intros [Hs Hr] Hsame [s' r'] name [Hs' Hr'] Hne (p & Hp & Hb). apply (Same_files _ _ _ Hsame). intros (p' & Hp' & Hb').
  unfold u_ok in *. destruct k as [s r]. cbn [fst snd] in *. apply Hne.
  by destruct (of_bucket_inj s' r' p s r p' name) as (-> & -> & _); [lia..|done|done|].
Qed.

Lemma clear_scoped_Keeps k d : valid_key k -> Keeps k d (clear_scoped_stage k.1 k.2 d).
Proof.
  intros [Hs Hr] [s' r'] name [Hs' Hr'] Hne Hsc. unfold u_ok in *. destruct k as [s r]. cbn [fst snd] in *.
  apply (clear_scoped_keeps s r ltac:(lia) ltac:(lia) d s' r'); [lia|lia|done|done].
Qed.

Lemma Keeps_refl k d : Keeps k d d.
Proof. by intros ? ? ? ?. Qed.

Lemma Keeps_trans k d d' d'' : Keeps k d d' -> Keeps k d' d'' -> Keeps k d d''.
Proof. intros H1 H2 k' name Hv Hne Hn. by rewrite (H2 k' name), (H1 k' name). Qed.

Lemma clear_scoped_good s r d : Good d -> Good (clear_scoped_stage s r d).
Proof. by intros [? ?]. Qed.

Lemma key_scope k : valid_key k -> 0 <= k.1 /\ 0 <= k.2.
Proof. intros [? ?]. unfold u_ok in *. lia. Qed.

Lemma PhaseSim_mono K K' d t ph aph : (K <= K')%nat -> PhaseSim K d t ph aph -> PhaseSim K' d t ph aph.
Proof.
  intros HK'. destruct ph, aph; try done. intros (lf & ? & ? & ?). exists lf. split_and!; try done.
  by eapply Rep_mono.
Qed.

Lemma PhaseSim_frame K d d' t ph aph :
  (forall name, of_scope (stage_id t) (partition_id t) name -> files d' !! name = files d !! name) ->
  PhaseSim K d t ph aph -> PhaseSim K d' t ph aph.
Proof.
  intros Hsame. destruct ph, aph; try done; try (by apply Clean_frame).
  intros (lf & ? & ? & ?). exists lf. split_and!; try done. by eapply Rep_frame.
Qed.

Lemma Exact_mono K K' d k e ad tk at_ : (K <= K')%nat -> Exact K d k e ad tk at_ -> Exact K' d k e ad tk at_.
Proof.
  intros HK'. unfold Exact. destruct e as [[sch c]|], ad as [[sch' l]|], tk, at_; try done.
  - by apply Rep_mono.
  - by apply PhaseSim_mono.
Qed.

Lemma matches_task w a k tk : matches_of w a k -> tasks w !! k = Some tk ->
  exists at_, ab_tasks a !! k = Some at_ /\ TaskShape k tk at_.
Proof. intros [_ Hm] Htk. rewrite Htk in Hm. destruct (ab_tasks a !! k) as [at_|]; [|done]. by exists at_. Qed.

Lemma matches_no_task w a k : matches_of w a k -> tasks w !! k = None -> ab_tasks a !! k = None.
Proof. intros [_ Hm] Htk. rewrite Htk in Hm. by destruct (ab_tasks a !! k). Qed.

Lemma matches_entry w a k sch c : matches_of w a k -> get_entry k (stage_outputs w) = Some (sch, c) ->
  exists l, ab_done a !! k = Some (sch, l) /\ valid_key k /\ Shape k.1 k.2 sch c.
Proof.
  intros [Hm _] He. rewrite He in Hm. destruct (ab_done a !! k) as [[sch' l]|]; [|done].
  destruct Hm as (? & -> & ?). by exists l.
Qed.

Lemma matches_done w a k sch l : matches_of w a k -> ab_done a !! k = Some (sch, l) ->
  exists c, get_entry k (stage_outputs w) = Some (sch, c) /\ valid_key k.
Proof.
  intros [Hm _] Hd. rewrite Hd in Hm. destruct (get_entry k _) as [[sch' c]|]; [|done].
  destruct Hm as (? & -> & ?). by exists c.
Qed.

Lemma matches_none w a k : matches_of w a k -> get_entry k (stage_outputs w) = None <-> ab_done a !! k = None.
Proof. intros [Hm _]. destruct (get_entry k _) as [[? ?]|], (ab_done a !! k) as [[? ?]|]; naive_solver. Qed.

Lemma Exact_frame K d d' k w a : (valid_key k -> forall name, of_scope k.1 k.2 name -> files d' !! name = files d !! name) ->
  matches_of w a k ->
  Exact K d k (get_entry k (stage_outputs w)) (ab_done a !! k) (tasks w !! k) (ab_tasks a !! k) ->
  Exact K d' k (get_entry k (stage_outputs w)) (ab_done a !! k) (tasks w !! k) (ab_tasks a !! k).
Proof.
  intros Hkeep Hm Hex. unfold Exact in *. pose proof Hm as [He Ht].
  destruct (get_entry k _) as [[sch c]|], (ab_done a !! k) as [[sch' l]|], (tasks w !! k) as [tk|], (ab_tasks a !! k) as [at_|]; try done.
  - destruct He as (Hv & _). eapply Rep_frame; [|done]. by apply Hkeep.
  - destruct Ht as (_ & _ & <- & (Hv & _) & _). eapply PhaseSim_frame; [|done]. by apply (Hkeep Hv).
  - intros Hv. eapply Clean_frame; [by apply Hkeep|]. by apply Hex.
Qed.

(** A step that touches only scope [k]. *)
Lemma Sim0_at K K' w a w' a' k : Sim0 K w a -> (K <= K')%nat -> Keeps k (disk w) (disk w') ->
  (forall k', k' <> k -> get_entry k' (stage_outputs w') = get_entry k' (stage_outputs w) /\
     tasks w' !! k' = tasks w !! k' /\ ab_done a' !! k' = ab_done a !! k' /\ ab_tasks a' !! k' = ab_tasks a !! k' /\
     (k' ∈ ab_taint a -> k' ∈ ab_taint a')) ->
  matches_of w' a' k -> (k ∉ ab_taint a' -> exact_of K' w' a' k) ->
  (ab_swept a' = true -> ab_swept a = true /\ ~ (is_Some (ab_done a' !! k) /\ ab_tasks a' !! k = None)) ->
  Good (disk w') -> NoDup (stage_outputs w').*1 -> stage_inserted w' = ab_stamps a' ->
  spill w' = spill w -> stage_output_ttl w' = stage_output_ttl w -> keep_spill w' = keep_spill w ->
  Sim0 K' w' a'.
Proof.
  intros [Hsp Hf Htt Hkp Hnd Hst Hma Hex Hsw] HK' Hkeep Hoth Hm Hk Hsw' Hf' Hnd' Hst' Hsp' Htt' Hkp'. constructor; try congruence.
  - intros k'. destruct (decide (k' = k)) as [->|Hne]; [done|]. destruct (Hoth k' Hne) as (He & Ht & Hd & Hat & _).
    unfold matches_of. rewrite He, Ht, Hd, Hat. apply Hma.
  - intros k' Hni. destruct (decide (k' = k)) as [->|Hne]; [by apply Hk|]. destruct (Hoth k' Hne) as (He & Ht & Hd & Hat & Hta).
    unfold exact_of. rewrite He, Ht, Hd, Hat. eapply Exact_mono; [done|]. eapply Exact_frame; [|apply Hma|apply Hex; auto].
    intros Hv name. by apply Hkeep.
  - intros Hs k' Hv Hd' Ht'. destruct (Hsw' Hs) as [Hs0 Hno]. destruct (decide (k' = k)) as [->|Hne]; [by destruct Hno|].
    destruct (Hoth k' Hne) as (_ & _ & Hd & Hat & _). rewrite Hd in Hd'. rewrite Hat in Ht'.
    eapply Clean_frame; [|by apply (Hsw Hs0 k')]. intros name. by apply Hkeep.
Qed.

(** *** The budget loop *)

Lemma enforce_loop_sim limit fuel : forall K w a, (1 <= K)%nat -> 0 <= limit -> Sim0 K w a -> ab_swept a = false ->
  (loaded (stage_outputs w) < fuel)%nat ->
  exists m d, enforce_loop fuel limit st (stage_outputs w) (disk w) = Some (Ok tt, m, d) /\
    Sim0 K (with_cache w m (stage_inserted w) d) a /\ total_memory m <= limit.
Proof using HL HT.
  induction fuel as [|fuel IH]; intros K w a HK1 Hlim Hsim Hsw Hfuel; [lia|]. simpl.
  destruct (Z.leb_spec (total_memory (stage_outputs w)) limit) as [Hle|Hover].
  { eexists _, _. split; [done|]. split; [|done]. by destruct Hsim; constructor. }
  destruct (over_budget_loaded limit _ Hlim Hover) as ([k [sch c]] & Hbest & Hpos).
  pose proof (largest_spec (stage_outputs w)) as Hl. rewrite Hbest in Hl |- *. destruct Hl as [Hin _].
  apply elem_get in Hin; [|by destruct Hsim]. pose proof (sim_matches _ _ _ Hsim k) as Hm.
  destruct (matches_entry w a k sch c Hm Hin) as (l & Had & Hv & Hshape). destruct (key_scope k Hv) as [Hv1 Hv2].
  destruct c as [buckets|]; [|unfold entry_bytes in Hpos; simpl in Hpos; lia].
  destruct (spill_buckets_total k.1 k.2 st sch buckets (disk w)) as (c' & d' & Hsp & Hf); [done|by destruct Hsim|].
  assert (spill_now (Memory buckets) sch k.1 k.2 st (disk w) = (Ok tt, c', d')) as Hnow by (simpl; by rewrite Hsp).
  pose proof (spill_buckets_shape k.1 k.2 _ _ _ _ _ _ Hsp) as Hshape'.
  rewrite Hnow. set (w' := with_cache w (set_entry k (sch, c') (stage_outputs w)) (stage_inserted w) d').
  destruct (IH K w' a) as (m & d & Hloop & Hsim' & Htot); [done|done| |done| |].
  - eapply (Sim0_at K K w a w' a k); try done; try (by destruct Hsim).
    + apply Same_Keeps; [done|]. by eapply spill_buckets_same.
    + intros k' Hne. simpl. by rewrite get_set_ne.
    + unfold matches_of. simpl. rewrite get_set_eq. destruct Hm as [_ Ht]. rewrite Had. done.
    + intros Hni. pose proof (sim_exact _ _ _ Hsim k Hni) as Hx. unfold exact_of in *. simpl. rewrite get_set_eq.
      rewrite Hin, Had in *. unfold Exact in *. destruct (tasks w !! k), (ab_tasks a !! k); try done.
      by apply (spill_now_rep k.1 k.2 ltac:(lia) ltac:(lia) K _ _ l) in Hnow as [? _].
    + by rewrite Hsw.
    + simpl. apply NoDup_set. by destruct Hsim.
  - simpl. assert (S (loaded (set_entry k (sch, c') (stage_outputs w))) = loaded (stage_outputs w)); [|lia].
    apply loaded_set; [|by exists (sch, Memory buckets)]. by apply (spill_buckets_memory _ _ _ _ _ _ _ _ Hsp).
  - simpl in Hloop. exists m, d. done.
Qed.

Context (Hlimit : LimitOk st).

Lemma enforce_sim K w a : (1 <= K)%nat -> Sim0 K w a -> ab_swept a = false ->
  exists w', enforce w = Some (Ok tt, w') /\ Sim K w' a /\ tasks w' = tasks w /\ stage_inserted w' = stage_inserted w.
Proof using HL HT Hlimit.
  intros HK1 Hsim Hsw. unfold enforce, enforce_total_budget. rewrite (sim_spill _ _ _ Hsim).
  unfold Sim, Budget. destruct (total_limit_bytes st) as [limit|] eqn:Hl.
  - destruct (enforce_loop_sim limit (S (length (stage_outputs w))) K w a) as (m & d & -> & Hsim' & Htot);
      [done|by unfold LimitOk in Hlimit; rewrite Hl in Hlimit|done|done| |].
    + unfold loaded. pose proof (length_filter (fun kv => 0 < entry_bytes kv) (stage_outputs w)). lia.
    + by eexists.
  - eexists. split; [done|]. split; [|done]. split; [|done]. by destruct Hsim; constructor.
Qed.

(** *** Producer steps *)

Lemma Typed_replicate sch n : Typed sch (replicate n []).
Proof. apply Forall_replicate. constructor. Qed.

Lemma compact_views_schema b b' : compact_views b = Ok b' -> schema_of b' = schema_of b.
Proof using HT. intros [->|(cols & _ & Hnew)]%compact_views_ok; [done|]. by apply try_new_schema in Hnew. Qed.

Lemma bucket_part_typed sch n b enc i bs bs' : schema_of b = sch -> Forall (fun x => schema_of x = sch) bs ->
  bucket_part n b enc i bs = Ok bs' -> Forall (fun x => schema_of x = sch) bs'.
Proof using HT.
  intros Hb Hbs Hp. unfold bucket_part in Hp. destruct (bucket_indices n enc i) as [|j js]; [by simplify_eq|].
  destruct (take_batch b (j :: js)) as [part|] eqn:Ht; [|done]. simpl in Hp.
  destruct (compact_views part) as [part'|] eqn:Hc; [|done]. simplify_eq/=. apply take_batch_ok in Ht as (cols & _ & Hnew).
  apply Forall_app. split; [done|]. repeat constructor. by rewrite (compact_views_schema _ _ Hc), (try_new_schema _ _ _ Hnew).
Qed.

Lemma partition_loop_typed sch n conv ks batches : forall out res, Forall (fun b => schema_of b = sch) batches -> Typed sch out ->
  partition_loop n conv ks batches out = Ok res -> Typed sch res /\ length res = length out.
Proof using HT.
  induction batches as [|b bs IH]; intros out res Hbs Hout Hrun; simpl in Hrun; [by simplify_eq|].
  inversion Hbs; subst. destruct (arrow_err _ _) as [enc|]; [|done]. simpl in Hrun.
  destruct (partition_batch n b enc out) as [out'|] eqn:Hpb; [|done]. simpl in Hrun.
  apply lookup_partition_batch in Hpb as [Hlen' Hpb]. rewrite <-Hlen'. apply IH; [done| |done].
  apply Forall_lookup. intros i bs' Hi. destruct (Hpb i bs' Hi) as (obs & Hobs & Hpart).
  eapply bucket_part_typed; [done|exact (Forall_lookup_1 _ _ _ _ Hout Hobs)|done].
Qed.

Lemma parts_typed sch t bs l : Forall (fun b => schema_of b = sch) bs -> 1 <= num_partitions t ->
  ab_parts t bs = Ok l -> Typed sch l /\ length l = Z.to_nat (num_partitions t).
Proof using HT.
  intros Hbs Hn Hp. unfold ab_parts, hash_partition in Hp. destruct bs as [|b bs].
  { simplify_eq. split; [apply Typed_replicate|apply length_replicate]. }
  destruct (hash_key_cols t) as [|k ks].
  - destruct (mapM_result compact_views (b :: bs)) as [first|] eqn:Hm; [|done]. apply mapM_result_ok in Hm. simplify_eq/=. split.
    + constructor; [|apply Typed_replicate].
      eapply Forall2_Forall_r; [exact Hm|]. eapply Forall_impl; [exact Hbs|]. intros x Hx y Hy.
      by rewrite (compact_views_schema _ _ Hy).
    + rewrite length_replicate. lia.
  - destruct (arrow_err _ _) as [conv|]; [|done]. cbn [rbind] in Hp.
    apply (partition_loop_typed sch) in Hp as [? Hlen]; [|done|apply Typed_replicate].
    by rewrite length_replicate in Hlen.
Qed.

(** The buckets after [stg] is appended from bucket [p] on. *)
Definition add_staged (p : nat) (bs : list RecordBatch) (lf : Buckets) : Buckets :=
  match bs with [] => lf | _ => extend_bucket (Z.of_nat p) bs lf end.
Fixpoint flushed (p : nat) (stg lf : Buckets) : Buckets :=
  match stg with
  | [] => lf
  | bs :: rest => flushed (S p) rest (add_staged p bs lf)
  end.

Lemma flushed_spec stg : forall p lf, (p + length stg <= length lf)%nat -> length (flushed p stg lf) = length lf /\
  forall i, default [] (flushed p stg lf !! i) = default [] (lf !! i) ++ (if decide (p <= i)%nat then default [] (stg !! (i - p)%nat) else []).
Proof.
  induction stg as [|bs rest IH]; intros p lf Hlen; simpl in *.
  { split; [done|]. intros i. case_decide; by rewrite ?lookup_nil, app_nil_r. }
  assert (length (add_staged p bs lf) = length lf) as Hl'.
  { unfold add_staged. destruct bs; [done|]. rewrite length_extend. lia. }
  assert (forall i, default [] (add_staged p bs lf !! i) = default [] (lf !! i) ++ (if decide (i = p) then bs else [])) as Hlk.
  { intros i. unfold add_staged. destruct bs; [case_decide; by rewrite app_nil_r|].
    rewrite lookup_extend. by rewrite Nat2Z.id. }
  destruct (IH (S p) (add_staged p bs lf) ltac:(lia)) as [Hlen' Hi]. split; [by rewrite Hlen'|]. intros i. rewrite Hi, Hlk, <-app_assoc. f_equal.
  destruct (decide (i = p)) as [->|Hne].
  - rewrite decide_False by lia. rewrite decide_True by lia. rewrite Nat.sub_diag. simpl. apply app_nil_r.
  - simpl. repeat case_decide; try lia; [|done]. by replace (i - p)%nat with (S (i - S p)) by lia.
Qed.

Lemma lookup_zip_app (l k : Buckets) i : length l = length k ->
  default [] (zip_with app l k !! i) = default [] (l !! i) ++ default [] (k !! i).
Proof.
  intros Hlen. rewrite lookup_zip_with. destruct (decide (i < length l)%nat) as [Hi|Hi].
  - destruct (lookup_lt_is_Some_2 l i Hi) as [x ->], (lookup_lt_is_Some_2 k i ltac:(lia)) as [y ->]. done.
  - rewrite !lookup_ge_None_2 by lia. done.
Qed.

Lemma buckets_ext (l k : Buckets) : length l = length k -> (forall i, default [] (l !! i) = default [] (k !! i)) -> l = k.
Proof.
  intros Hlen Hi. apply list_eq. intros i. specialize (Hi i). destruct (decide (i < length l)%nat) as [Hlt|Hge].
  - destruct (lookup_lt_is_Some_2 l i Hlt) as [x Hx], (lookup_lt_is_Some_2 k i ltac:(lia)) as [y Hy].
    rewrite Hx, Hy in Hi |- *. simpl in Hi. by rewrite Hi.
  - by rewrite !lookup_ge_None_2 by lia.
Qed.

Lemma flushed_zip stg lf : length stg = length lf -> flushed 0 stg lf = zip_with app lf stg.
Proof.
  intros Hlen. destruct (flushed_spec stg 0 lf ltac:(lia)) as [Hl Hi].
  apply buckets_ext; [rewrite length_zip_with; lia|]. intros i. rewrite Hi, lookup_zip_app by lia.
  rewrite decide_True by lia. by rewrite Nat.sub_0_r.
Qed.

Lemma Typed_zip sch (l k : Buckets) : Typed sch l -> Typed sch k -> Typed sch (zip_with app l k).
Proof.
  intros Hl. revert k. induction Hl as [|x l Hx Hl IH]; intros [|y k] Hk; simpl; try constructor.
  - inversion Hk; subst. by apply Forall_app.
  - inversion Hk; subst. by apply IH.
Qed.

Lemma zip_app_replicate (l : Buckets) : zip_with app l (replicate (length l) []) = l.
Proof. induction l as [|x l IH]; simpl; [done|]. by rewrite app_nil_r, IH. Qed.

Lemma zip_app_assoc (l k j : Buckets) : zip_with app (zip_with app l k) j = zip_with app l (zip_with app k j).
Proof. revert k j. induction l as [|x l IH]; intros [|y k] [|z j]; simpl; try done. by rewrite <-app_assoc, IH. Qed.

(** [flush_staging] writes every staged batch. *)
Lemma flush_staging_total spl t sch stg : forall p d c,
  valid_key (ticket_key t) -> Typed sch stg -> Shape (stage_id t) (partition_id t) sch c -> Good d ->
  exists c' d', flush_staging spl t sch p stg c d = (Ok tt, c', d') /\ Shape (stage_id t) (partition_id t) sch c' /\
    Same (of_scope (stage_id t) (partition_id t)) d d' /\ Good d'.
Proof using HL.
  induction stg as [|bs rest IH]; intros p d c Hv Hty Hsh Hf; simpl; [exists c, d; split_and!; try done; apply Same_refl|].
  inversion Hty as [|?? Hbs Hrest]; subst. case_bool_decide; [by apply IH|].
  destruct (append_partition_total (stage_id t) (partition_id t) spl sch c (wrapu 32 (Z.of_nat p)) bs d) as (c1 & d1 & Ha & Hf1 & Hsh1); [done..|].
  rewrite Ha. apply append_partition_same in Ha as [Hsame _]; [|apply wrapu_range; lia|by eapply Shape_placed].
  destruct (IH (S p) d1 c1) as (c' & d' & Hfl & Hs' & Hsame' & Hf'); [done..|].
  exists c', d'. split_and!; try done. by eapply Same_trans.
Qed.

(** It moves every staged batch into the buckets the cache holds. *)
Lemma flush_staging_rep spl t sch stg : forall p K d c lf c' d',
  valid_key (ticket_key t) -> Typed sch stg -> Rep K d sch (stage_id t) (partition_id t) c lf -> Healthy d ->
  (p + length stg <= length lf)%nat -> Z.of_nat (K + length stg) < u_max 64 ->
  flush_staging spl t sch p stg c d = (Ok tt, c', d') ->
  Rep (K + length stg) d' sch (stage_id t) (partition_id t) c' (flushed p stg lf).
Proof using HL.
  induction stg as [|bs rest IH]; intros p K d c lf c' d' Hv Hty Hrep Hh Hlen HK' Hfl; simpl in Hfl.
  { simplify_eq. by rewrite Nat.add_0_r. }
  inversion Hty as [|?? Hbs Hrest]; subst. simpl in Hlen, HK'. destruct (key_scope _ Hv) as [Hv1 Hv2]. simpl in Hv1, Hv2.
  destruct bs as [|b bs].
  { rewrite bool_decide_true in Hfl by done. eapply Rep_mono; [|eapply (IH (S p) K d c lf); try done; lia]. simpl. lia. }
  rewrite bool_decide_false in Hfl by done. pose proof Hrep as (Hl32 & _ & _). rewrite wrapu_small in Hfl by (unfold u_ok, u_max; lia).
  destruct (append_partition _ _ _ _ _ _ _ _) as [[[[]|e] c1] d1] eqn:Ha; [|done].
  pose proof Ha as Hsame. apply append_partition_same in Hsame as [Hsame _]; [|lia|by eapply Shape_placed, Rep_shape].
  apply (append_partition_rep (stage_id t) (partition_id t) ltac:(lia) ltac:(lia) K _ _ _ lf) in Ha; [|lia|lia|done|done|done].
  cbn [length]. rewrite Nat.add_succ_r, <-Nat.add_succ_l. eapply (IH (S p) (S K) d1 c1); try done; [by eapply Same_healthy| |lia].
  cbn [add_staged]. rewrite length_extend. lia.
Qed.

(** *** Tasks *)

(** The room left for segment numbers before one more step. *)
Definition Room (K : nat) : Prop := Z.of_nat K + 2 ^ 32 < u_max 64.
(** A step adds at most one chunk per bucket. *)
Definition Next (K K' : nat) : Prop := (K <= K')%nat /\ Z.of_nat K' <= Z.of_nat K + 2 ^ 32.

Lemma Next_refl K : Next K K.
Proof. unfold Next. lia. Qed.

(** The running task of a scope on both sides. *)
Definition At w a (tk : Task) (at_ : AbTask) : Prop :=
  tasks w !! ticket_key (tk_ticket tk) = Some tk /\ ab_tasks a !! ticket_key (tk_ticket tk) = Some at_.

Lemma sim_at K w a tk at_ : Sim0 K w a -> At w a tk at_ ->
  tk_ticket tk = at_ticket at_ /\ tk_retried tk = at_retried at_ /\ ValidTicket (tk_ticket tk) /\
  PhaseShape (tk_ticket tk) (tk_phase tk) (at_phase at_) /\
  (ticket_key (tk_ticket tk) ∉ ab_taint a -> get_entry (ticket_key (tk_ticket tk)) (stage_outputs w) = None /\
     ab_done a !! ticket_key (tk_ticket tk) = None /\
     PhaseSim K (disk w) (tk_ticket tk) (tk_phase tk) (at_phase at_)).
Proof.
  intros Hsim [Htk Hat]. set (k := ticket_key (tk_ticket tk)) in *.
  destruct (matches_task w a k tk (sim_matches _ _ _ Hsim k) Htk) as (at' & Hat' & Hts). simplify_eq.
  destruct Hts as (? & ? & _ & ? & ?). split_and!; try done.
  intros Hni. pose proof (sim_exact _ _ _ Hsim k Hni) as Hx. unfold exact_of in Hx. rewrite Htk, Hat in Hx. unfold Exact in Hx.
  by destruct (get_entry k _) as [[? ?]|], (ab_done a !! k) as [[? ?]|].
Qed.

(** A step that only changes the state of a task and the files of its scope. *)
Lemma set_task_sim K K' w a tk at_ d' retried ph aph T :
  Sim K w a -> At w a tk at_ -> (K <= K')%nat -> Keeps (ticket_key (tk_ticket tk)) (disk w) d' -> Good d' ->
  PhaseShape (tk_ticket tk) ph aph ->
  (forall k', k' <> ticket_key (tk_ticket tk) -> k' ∈ ab_taint a -> k' ∈ T) ->
  (ticket_key (tk_ticket tk) ∉ T -> ab_done a !! ticket_key (tk_ticket tk) = None /\ PhaseSim K' d' (tk_ticket tk) ph aph) ->
  Sim K' (with_tasks (with_disk w d')
            (<[ticket_key (tk_ticket tk) := {| tk_ticket := tk_ticket tk; tk_retried := retried; tk_phase := ph |}]> (tasks w)))
    (with_ab_taint T (ab_set_task at_ retried aph a)).
Proof.
  intros [Hsim Hbud] Hat HK' Hkeep Hf Hsh HT' Hex. destruct (sim_at K w a tk at_ Hsim Hat) as (Htick & _ & Hval & _ & _).
  pose proof (sim_matches _ _ _ Hsim (ticket_key (tk_ticket tk))) as Hm.
  split; [|done]. eapply (Sim0_at K K' w a _ _ (ticket_key (tk_ticket tk))); try done; try (by destruct Hsim).
  - intros k' Hne. simpl. rewrite <-Htick, !lookup_insert_ne by done. split_and!; try done. by apply HT'.
  - unfold matches_of. simpl. rewrite <-Htick, !lookup_insert_eq. split; [by destruct Hm|done].
  - intros [Hd Hph]%Hex. unfold exact_of. simpl. rewrite <-Htick, !lookup_insert_eq.
    rewrite Hd. rewrite (proj2 (matches_none w a _ Hm) Hd). done.
  - simpl. intros Hs. split; [done|]. rewrite <-Htick, lookup_insert_eq. by intros [_ ?].
Qed.

Lemma set_phase_sim K K' w a tk at_ d' ph aph :
  Sim K w a -> At w a tk at_ -> (K <= K')%nat -> Keeps (ticket_key (tk_ticket tk)) (disk w) d' -> Good d' ->
  PhaseShape (tk_ticket tk) ph aph ->
  (ticket_key (tk_ticket tk) ∉ ab_taint a -> PhaseSim K' d' (tk_ticket tk) ph aph) ->
  Sim K' (set_phase (with_disk w d') tk ph) (ab_phase at_ aph a).
Proof.
  intros Hs Hat HK' Hkeep Hf Hsh Hex. destruct (sim_at K w a tk at_ (proj1 Hs) Hat) as (_ & Hret & _ & _ & Hun).
  unfold set_phase, ab_phase. rewrite Hret.
  apply (set_task_sim K K' w a tk at_ d' (at_retried at_) ph aph (ab_taint a) Hs Hat HK' Hkeep Hf Hsh); [done|].
  intros Hni. destruct (Hun Hni) as (_ & Hd & _). auto.
Qed.

(** The files of the scope are removed and the task collects or starts over. *)
Lemma wiped_sim K w a tk at_ d' retried ph aph :
  Sim K w a -> At w a tk at_ -> Keeps (ticket_key (tk_ticket tk)) (disk w) d' -> Good d' ->
  (ph, aph) = (Collecting, ACollecting) \/ (ph, aph) = (Planning, APlanning) ->
  Sim K (with_tasks (with_disk w (clear_scoped_stage (stage_id (tk_ticket tk)) (partition_id (tk_ticket tk)) d'))
           (<[ticket_key (tk_ticket tk) := {| tk_ticket := tk_ticket tk; tk_retried := retried; tk_phase := ph |}]> (tasks w)))
    (ab_wiped (ticket_key (at_ticket at_)) (ab_set_task at_ retried aph a)).
Proof.
  clear Hlimit.
  intros Hs Hat Hkeep Hf Hph. destruct (sim_at K w a tk at_ (proj1 Hs) Hat) as (Htick & _ & (Hv & _) & _ & _).
  destruct (key_scope _ Hv) as [Hv1 Hv2]. simpl in Hv1, Hv2. rewrite <-Htick. unfold ab_wiped.
  assert (Clean (clear_scoped_stage (stage_id (tk_ticket tk)) (partition_id (tk_ticket tk)) d') (stage_id (tk_ticket tk)) (partition_id (tk_ticket tk))) as Hcl.
  { apply clear_scoped_clean; [lia|lia|]. by destruct Hf. }
  apply (set_task_sim K K w a tk at_ _ retried ph aph _ Hs Hat); [done| |by apply clear_scoped_good| | |].
  - eapply Keeps_trans; [done|]. by apply (clear_scoped_Keeps (ticket_key (tk_ticket tk))).
  - destruct Hph as [[= -> ->]|[= -> ->]]; done.
  - intros k' Hne Hin. simpl. destruct (ab_done a !! _); set_solver.
  - simpl. intros Hni. split; [|by destruct Hph as [[= -> ->]|[= -> ->]]].
    destruct (ab_done a !! ticket_key (tk_ticket tk)) as [[sch l]|] eqn:Hd; [|done]. exfalso.
    destruct (matches_done w a _ sch l (sim_matches _ _ _ (proj1 Hs) _) Hd) as (c & Hc & _).
    pose proof (sim_exact _ _ _ (proj1 Hs) _ Hni) as Hx. unfold exact_of in Hx. rewrite Hc, Hd in Hx.
    destruct Hat as [Htk _]. by rewrite Htk in Hx.
Qed.

Lemma clear_scope_disk k w : spill w = Some st -> clear_scope k w = with_disk w (clear_scoped_stage k.1 k.2 (disk w)).
Proof. intros Hsp. unfold clear_scope. by rewrite Hsp. Qed.

Lemma fall_back_sim K w a tk at_ d' :
  Sim K w a -> At w a tk at_ -> Keeps (ticket_key (tk_ticket tk)) (disk w) d' -> Good d' ->
  Sim K (fall_back (with_disk w d') tk).1 (ab_fall_back at_ a).
Proof.
  clear Hlimit.
  intros Hs Hat Hkeep Hf. destruct (sim_at K w a tk at_ (proj1 Hs) Hat) as (_ & Hret & _).
  unfold fall_back. cbn [fst]. rewrite clear_scope_disk by (by destruct Hs as [[] _]).
  unfold ab_fall_back, ab_phase, set_phase. rewrite Hret. apply (wiped_sim K w a tk at_ d'); try done. by left.
Qed.

(** The reaper frees the scope of a failed task. *)
Lemma fail_task_sim K w a tk at_ e : Sim K w a -> At w a tk at_ -> Sim K (fail_task w tk e).1 (ab_fail at_ a).
Proof using HL HT.
  clear Hlimit.
  intros [Hsim Hbud] Hat. destruct (sim_at K w a tk at_ Hsim Hat) as (Htick & _ & (Hv & _) & _).
  destruct (key_scope _ Hv) as [Hv1 Hv2]. unfold fail_task, reap, ab_fail. rewrite <-Htick.
  set (k := ticket_key (tk_ticket tk)) in *. cbn [fst]. cbn [spill with_tasks stage_outputs tasks disk].
  rewrite (sim_spill _ _ _ Hsim). split.
  - eapply (Sim0_at K K w a _ _ k); try done; try (by destruct Hsim).
    + by apply clear_scoped_Keeps.
    + intros k' Hne. simpl. rewrite get_remove_ne, !lookup_delete_ne by done. set_solver.
    + unfold matches_of. simpl. by rewrite get_remove_eq, !lookup_delete_eq.
    + intros _. unfold exact_of. simpl. rewrite get_remove_eq, !lookup_delete_eq. intros _.
      apply clear_scoped_clean; [lia|lia|]. by destruct Hsim as [? []].
    + simpl. intros Hs. split; [done|]. rewrite lookup_delete_eq. by intros [[? ?] _].
    + apply NoDup_remove. by destruct Hsim.
    + simpl. by rewrite (sim_stamps _ _ _ Hsim).
  - unfold Budget in *. destruct (total_limit_bytes st) as [limit|]; [|done].
    cbn [stage_outputs with_cache]. pose proof (total_filter (fun kv => kv.1 <> k) (stage_outputs w)). unfold remove_entry. lia.
Qed.

(** *** Commits *)

Lemma enforce_with_tasks w ts : enforce (with_tasks w ts) = (fun rw => (rw.1, with_tasks rw.2 ts)) <$> enforce w.
Proof.
  unfold enforce. simpl. destruct (spill w); [|done]. by destruct (enforce_total_budget _ _ _) as [[[? ?] ?]|].
Qed.

(** Expiry drops the same entries on both sides. *)
Lemma note_sim K w a k now : Sim K w a -> ab_swept a = false -> Sim K (note_stage_output_insert k now w) (ab_note ttl k now a).
Proof using HL HT.
  clear Hlimit.
  intros [Hsim Hbud] Hsw. unfold note_stage_output_insert, ab_note. rewrite (sim_ttl _ _ _ Hsim), (sim_stamps _ _ _ Hsim).
  destruct (ttl =? 0).
  { split; [|done]. destruct Hsim; constructor; try done. }
  set (expired := filter (fun kv => ttl <= now - kv.2) (<[k:=now]> (ab_stamps a))). split.
  - pose proof Hsim as [Hsp Hf Htt Hkp Hnd Hst Hma Hex _]. constructor; try done; simpl.
    + apply sublist_NoDup with (stage_outputs w).*1; [done|]. apply fmap_sublist, sublist_filter.
    + intros k'. specialize (Hma k'). unfold matches_of in *. simpl. rewrite map_lookup_filter, (get_filter _ (fun k => expired !! k = None)) by done.
      destruct Hma as [He Ht]. split; [|done].
      destruct (get_entry k' _) as [[? ?]|], (ab_done a !! k') as [[? ?]|]; simpl; case_decide; simplify_option_eq; try done.
    + intros k' Hni. apply not_elem_of_union in Hni as [Hni Hne]. rewrite not_elem_of_dom in Hne. specialize (Hex k' Hni).
      unfold exact_of in *. simpl. rewrite map_lookup_filter, (get_filter _ (fun k => expired !! k = None)), decide_True by done.
      destruct (ab_done a !! k') as [x|]; simpl; [|done]. by rewrite option_guard_True.
    + by rewrite Hsw.
  - unfold Budget in *. destruct (total_limit_bytes st) as [limit|]; [|done]. simpl.
    pose proof (total_filter (fun kv : Key * CachedStage => expired !! kv.1 = None) (stage_outputs w)). lia.
Qed.

(** A finished producer's buckets enter the cache. *)
Lemma commit_sim K K' w a tk at_ d' sch c l now :
  Sim K w a -> At w a tk at_ -> (1 <= K <= K')%nat -> Keeps (ticket_key (tk_ticket tk)) (disk w) d' -> Good d' ->
  Shape (stage_id (tk_ticket tk)) (partition_id (tk_ticket tk)) sch c ->
  (ticket_key (tk_ticket tk) ∉ ab_taint a -> Rep K' d' sch (stage_id (tk_ticket tk)) (partition_id (tk_ticket tk)) c l) ->
  exists w', commit (with_disk w d') tk sch c now = (w', TaskOk) /\ Sim K' w' (ab_commit ttl at_ sch l now a).
Proof using HL HT Hlimit.
  intros [Hsim Hbud] Hat HK' Hkeep Hf Hsh Hrep. destruct (sim_at K w a tk at_ Hsim Hat) as (Htick & _ & (Hv & _) & _ & Hun).
  unfold ab_commit. rewrite <-Htick. set (k := ticket_key (tk_ticket tk)) in *.
  set (w1 := with_cache (with_disk w d') (set_entry k (sch, c) (stage_outputs w)) (stage_inserted w) d').
  set (a1 := ab_set k sch l (with_ab_tasks (delete k (ab_tasks a)) a)).
  assert (Sim0 K' (with_tasks w1 (delete k (tasks w))) a1) as Hsim1.
  { eapply (Sim0_at K K' w a _ _ k); try done; try (by destruct Hsim); [lia| | | |].
    - intros k' Hne. simpl. rewrite get_set_ne by done.
      by rewrite lookup_insert_ne, !lookup_delete_ne by done.
    - unfold matches_of. simpl. by rewrite get_set_eq, lookup_insert_eq, !lookup_delete_eq.
    - simpl. intros Hni. unfold exact_of. simpl. rewrite get_set_eq, lookup_insert_eq, !lookup_delete_eq. by apply Hrep.
    - simpl. apply NoDup_set. by destruct Hsim. }
  destruct (enforce_sim K' _ _ ltac:(lia) Hsim1 eq_refl) as (w2 & Henf & Hsim2 & Hts & Hst).
  rewrite enforce_with_tasks in Henf. unfold commit. fold k. cbn [with_disk stage_outputs stage_inserted disk].
  change (with_cache _ _ _ _) with w1. destruct (enforce w1) as [[[[]|e] w3]|] eqn:Hw1; simplify_eq/=.
  eexists. split; [done|]. apply note_sim; [|done].
  assert (tasks w3 = tasks w) as ->; [|done].
  unfold enforce in Hw1. simpl in Hw1. destruct (spill w); [|by simplify_eq].
  destruct (enforce_total_budget _ _ _) as [[[? ?] ?]|]; by simplify_eq.
Qed.

(** *** The steps of a task *)

Lemma flush_sim K w a tk at_ g sch l :
  Sim K w a -> At w a tk at_ -> PhaseShape (tk_ticket tk) (InStream g) (AStream sch l) -> Room K ->
  exists g' d' K', flush (spill w) (tk_ticket tk) g (disk w) = (Ok g', d') /\ Next K K' /\
    Keeps (ticket_key (tk_ticket tk)) (disk w) d' /\ Good d' /\ sg_schema g' = sch /\
    PhaseShape (tk_ticket tk) (InStream g') (AStream sch l) /\
    (PhaseSim K (disk w) (tk_ticket tk) (InStream g) (AStream sch l) ->
     Rep K' d' sch (stage_id (tk_ticket tk)) (partition_id (tk_ticket tk)) (sg_cache g') l /\
     PhaseSim K' d' (tk_ticket tk) (InStream g') (AStream sch l)).
Proof using HL HT.
  clear Hlimit.
  intros [Hsim _] Hat (Hsch & Hstg & Hty & Hsh) Hroom.
  destruct (sim_at K w a tk at_ Hsim Hat) as (_ & _ & (Hv & _ & Hn) & _). unfold Room, u_max in *.
  destruct (flush_staging_total (spill w) (tk_ticket tk) sch (sg_staging g) 0 (disk w) (sg_cache g))
    as (c' & d' & Hfl & Hsh' & Hsame & Hf); [done|done|done|by destruct Hsim|].
  unfold flush. rewrite Hsch, Hfl. eexists _, d', (K + length (sg_staging g))%nat. split; [done|]. split_and!; try done.
  - unfold Next. lia.
  - by apply Same_Keeps.
  - simpl. rewrite length_replicate. split_and!; try done. apply Typed_replicate.
  - intros (lf & Hlf & Hrep & Hl).
    apply (flush_staging_rep _ _ _ _ 0 K (disk w) (sg_cache g) lf) in Hfl; [|done|done|done|by destruct Hsim as [? []]|lia|unfold u_max; lia].
    rewrite flushed_zip, <-Hl in Hfl by lia. split; [done|]. exists l.
    assert (length l = Z.to_nat (num_partitions (tk_ticket tk))) as Hlen by (subst l; rewrite length_zip_with; lia).
    simpl. split_and!; try done. rewrite Hstg, <-Hlen. by rewrite zip_app_replicate.
Qed.

Lemma ab_phase_same at_ a : ab_tasks a !! ticket_key (at_ticket at_) = Some at_ -> ab_phase at_ (at_phase at_) a = a.
Proof.
  intros Hat. unfold ab_phase, ab_set_task, with_ab_tasks. destruct a as [dn ts], at_ as [t r ph]. simpl in *.
  f_equal. by apply insert_id.
Qed.

Lemma batch_sim K w a tk at_ g sch l b :
  Sim K w a -> At w a tk at_ -> tk_phase tk = InStream g -> at_phase at_ = AStream sch l -> schema_of b = sch -> Room K ->
  exists w' K', batch_received w tk g b = (w', Running) /\ Next K K' /\ Sim K' w' (ab_batch at_ sch l b a).
Proof using HL HT.
  clear Hlimit.
  intros Hs Hat Hg Hl Hb Hroom. pose proof Hs as [Hsim _].
  destruct (sim_at K w a tk at_ Hsim Hat) as (Htick & _ & (Hv & _ & Hn) & Hsh & Hun). rewrite Hg, Hl in Hsh, Hun.
  pose proof Hsim as [_ Hgood _ _ _ _ _ _ _].
  unfold batch_received, stream_batch, ab_batch. destruct (num_rows b =? 0)%nat eqn:Hz.
  { eexists _, K. split; [done|]. split; [apply Next_refl|]. rewrite <-(ab_phase_same at_ a) by (rewrite <-Htick; by destruct Hat).
    rewrite Hl. eapply set_phase_sim; try done. intros Hni. by apply Hun. }
  rewrite <-Htick. fold (ab_parts (tk_ticket tk) [b]). destruct (ab_parts (tk_ticket tk) [b]) as [parts|e] eqn:Hparts; simpl.
  2: { eexists _, K. split; [done|]. split; [apply Next_refl|]. by apply (fall_back_sim K w a tk at_ (disk w)). }
  apply (parts_typed (schema_of b)) in Hparts as [Hpty Hplen]; [|by repeat constructor|lia].
  set (g' := {| sg_schema := sg_schema g; sg_cache := sg_cache g; sg_staging := zip_with app (sg_staging g) parts;
                sg_bytes := sg_bytes g + sumZ (estimated_batch_bytes <$> parts) |}).
  destruct Hsh as (Hsch & Hstg & Hty & Hshp). rewrite <-Hb in Hty, Hshp.
  assert (PhaseShape (tk_ticket tk) (InStream g') (AStream sch (zip_with app l parts))) as Hsh'.
  { simpl. rewrite length_zip_with, <-Hb. split_and!; try done; [congruence|lia|by apply Typed_zip]. }
  assert (ticket_key (tk_ticket tk) ∉ ab_taint a ->
    PhaseSim K (disk w) (tk_ticket tk) (InStream g') (AStream sch (zip_with app l parts))) as Hph'.
  { intros Hni. destruct (Hun Hni) as (_ & _ & lf & Hlf & Hrep & Hleq). exists lf. split_and!; try done.
    by rewrite Hleq, zip_app_assoc. }
  destruct (PRODUCER_FLUSH_BYTES <=? _).
  - destruct (flush_sim K w a tk at_ g' _ _ Hs Hat Hsh' Hroom) as (g2 & d' & K' & Hfl & Hnext & Hk & Hf & _ & Hsh2 & Hph2).
    rewrite Hfl. eexists _, K'. split; [done|]. split; [done|]. destruct Hnext. eapply (set_phase_sim K K'); try done.
    intros Hni. by apply Hph2, Hph'.
  - eexists _, K. split; [done|]. split; [apply Next_refl|]. by eapply (set_phase_sim K K).
Qed.

Lemma stream_end_sim K w a tk at_ g sch l now :
  Sim K w a -> At w a tk at_ -> tk_phase tk = InStream g -> at_phase at_ = AStream sch l -> Room K -> (1 <= K)%nat ->
  exists w' K', stream_ended w tk g now = (w', TaskOk) /\ Next K K' /\ Sim K' w' (ab_commit ttl at_ sch l now a).
Proof using HL HT Hlimit.
  intros Hs Hat Hg Hl Hroom HK1. pose proof Hs as [Hsim _].
  destruct (sim_at K w a tk at_ Hsim Hat) as (_ & _ & _ & Hsh & Hun). rewrite Hg, Hl in Hsh, Hun.
  destruct (flush_sim K w a tk at_ g _ _ Hs Hat Hsh Hroom) as (g' & d' & K' & Hfl & Hnext & Hk & Hf & Hsch & Hsh' & Hrep).
  unfold stream_ended. rewrite Hfl, Hsch. pose proof Hnext as [Hle _].
  destruct (commit_sim K K' w a tk at_ d' sch (sg_cache g') l now) as (w' & Hc & Hs'); try done.
  - by destruct Hsh' as (_ & _ & _ & ?).
  - intros Hni. apply Hrep. by apply Hun.
  - by exists w', K'.
Qed.

Lemma maybe_spill_total s r sch buckets d : Typed sch buckets -> Good d ->
  exists c d', maybe_spill sch buckets s r (Some st) d = (Ok c, d') /\ Shape s r sch c /\ Same (of_scope s r) d d' /\ Good d'.
Proof using HL.
  clear Hlimit.
  intros Hty Hf. unfold maybe_spill. destruct (should_spill st buckets).
  - destruct (spill_buckets_total s r st sch buckets d Hty Hf) as (c & d' & Hsp & Hf').
    exists c, d'. split_and!; try done; [by eapply (spill_buckets_shape s r)|by eapply spill_buckets_same].
  - exists (Memory buckets), d. split_and!; try done. apply Same_refl.
Qed.

Lemma maybe_spill_rep s r sch buckets d c d' : 0 <= s -> 0 <= r -> Z.of_nat (length buckets) <= 2 ^ 32 -> Typed sch buckets ->
  Clean d s r -> maybe_spill sch buckets s r (Some st) d = (Ok c, d') -> Rep 1 d' sch s r c buckets.
Proof using HL.
  clear Hlimit.
  intros Hs Hr Hlen Hty Hclean Hsp. unfold maybe_spill in Hsp. destruct (should_spill st buckets).
  - by eapply (spill_buckets_rep s r).
  - simplify_eq. done.
Qed.

Lemma collect_sim K w a tk at_ r now :
  Sim K w a -> At w a tk at_ -> tk_phase tk = Collecting ->
  match r with Ok (sch, bs) => Forall (fun b => schema_of b = sch) bs | Err _ => True end -> (1 <= K)%nat ->
  exists w', produce_stage_collect w tk r now = (w', (ab_collected ttl at_ r now a).2) /\ Sim K w' (ab_collected ttl at_ r now a).1.
Proof using HL HT Hlimit.
  intros Hs Hat Hg Hr HK1. pose proof Hs as [Hsim _].
  destruct (sim_at K w a tk at_ Hsim Hat) as (Htick & _ & (Hv & _ & Hn) & _ & Hun). destruct (key_scope _ Hv) as [Hv1 Hv2].
  simpl in Hv1, Hv2. unfold produce_stage_collect, ab_collected. destruct r as [[sch bs]|m].
  2: { eexists. split; [done|]. by apply (fail_task_sim K w a tk at_ (Internal [])). }
  rewrite <-Htick. fold (ab_parts (tk_ticket tk) bs). destruct (ab_parts (tk_ticket tk) bs) as [l|e] eqn:Hparts.
  2: { eexists. split; [done|]. by apply (fail_task_sim K w a tk at_ (Internal [])). }
  apply (parts_typed sch) in Hparts as [Hpty Hplen]; [|done|lia].
  destruct (maybe_spill_total (stage_id (tk_ticket tk)) (partition_id (tk_ticket tk)) sch l (disk w))
    as (c & d' & Hsp & Hsh & Hsame & Hf); [done|by destruct Hsim|].
  rewrite (sim_spill _ _ _ Hsim), Hsp.
  destruct (commit_sim K K w a tk at_ d' sch c l now) as (w' & Hc & Hs'); try done; [by apply Same_Keeps| |by exists w'].
  intros Hni. destruct (Hun Hni) as (_ & _ & Hph). rewrite Hg in Hph.
  eapply (Rep_mono _ _ 1); [lia|]. eapply maybe_spill_rep; [lia|lia|unfold u_max in *; lia|done| |done].
  by destruct (at_phase at_).
Qed.

Lemma drop_sim K w a tk at_ why : Sim K w a -> At w a tk at_ ->
  exists w', dropped w tk why = (w', (ab_drop at_ why a).2) /\ Sim K w' (ab_drop at_ why a).1.
Proof using HL HT.
  clear Hlimit.
  intros Hs Hat. pose proof Hs as [Hsim _].
  destruct (sim_at K w a tk at_ Hsim Hat) as (_ & Hret & _).
  destruct why; try (eexists; split; [done|]; by apply (fail_task_sim K w a tk at_ (Internal []))).
  unfold dropped, ab_drop. rewrite <-Hret. destruct (tk_retried tk); [eexists; split; [done|]; by apply (fail_task_sim K w a tk at_ (Internal []))|].
  eexists. split; [done|]. rewrite clear_scope_disk by (by destruct Hsim). cbn [fst].
  apply (wiped_sim K w a tk at_ (disk w) true Planning APlanning); try done; [by destruct Hsim|by right].
Qed.

(** *** Pushes *)

Lemma first_bucket p (bs : list RecordBatch) : <[Z.to_nat p := bs]> (replicate (S (Z.to_nat p)) []) = extend_bucket p bs [].
Proof.
  apply buckets_ext; [rewrite length_insert, length_replicate, length_extend; simpl; lia|]. intros i. rewrite lookup_extend, lookup_nil.
  cbn [default from_option app id].
  case_decide as Hi; [subst; rewrite list_lookup_insert_eq by (rewrite length_replicate; lia); done|].
  rewrite list_lookup_insert_ne by done. destruct (replicate _ _ !! i) as [x|] eqn:Hx; [|done].
  apply lookup_replicate in Hx as [-> _]. done.
Qed.

Lemma push_slot K w a s : Sim0 K w a -> tasks w !! (s, PUSH_SRC) = None /\ ab_tasks a !! (s, PUSH_SRC) = None.
Proof.
  intros Hsim. pose proof (sim_matches _ _ _ Hsim (s, PUSH_SRC)) as [_ Hm].
  destruct (tasks w !! _) as [tk|], (ab_tasks a !! _); try done.
  destruct Hm as (_ & _ & Hkey & (_ & Hne & _) & _). injection Hkey as _ Hp. done.
Qed.

(** An entry is replaced, then the budget is enforced and the entry stamped. *)
Lemma put_sim K K' w a k d' sch c l now : Sim0 K w a -> valid_key k -> tasks w !! k = None -> ab_tasks a !! k = None ->
  (1 <= K <= K')%nat -> Keeps k (disk w) d' -> Good d' -> Shape k.1 k.2 sch c -> (k ∉ ab_taint a -> Rep K' d' sch k.1 k.2 c l) ->
  exists w1 w', enforce (with_cache w (set_entry k (sch, c) (stage_outputs w)) (stage_inserted w) d') = Some (Ok tt, w1) /\
    note_stage_output_insert k now w1 = w' /\ Sim K' w' (ab_put ttl k sch l now a).
Proof using HL HT Hlimit.
  intros Hsim Hv Htk Hat HK' Hkeep Hf Hsh Hrep.
  set (w1 := with_cache w (set_entry k (sch, c) (stage_outputs w)) (stage_inserted w) d').
  assert (Sim0 K' w1 (ab_set k sch l a)) as Hsim1.
  { eapply (Sim0_at K K' w a _ _ k); try done; try (by destruct Hsim); [lia| | | |].
    - intros k' Hne. simpl. by rewrite get_set_ne, lookup_insert_ne by done.
    - unfold matches_of. simpl. by rewrite get_set_eq, Htk, Hat, lookup_insert_eq.
    - simpl. intros Hni. unfold exact_of. simpl. rewrite get_set_eq, Htk, Hat, lookup_insert_eq. by apply Hrep.
    - simpl. apply NoDup_set. by destruct Hsim. }
  destruct (enforce_sim K' _ _ ltac:(lia) Hsim1 eq_refl) as (w2 & Henf & Hsim2 & _ & _).
  exists w2, (note_stage_output_insert k now w2). split_and!; try done. by apply note_sim.
Qed.

Lemma push_sim K w a hd sch b now : Sim K w a -> u_ok 32 (sh_stage_id hd) -> u_ok 32 (sh_partition_id hd) ->
  schema_of b = sch -> Room K -> (1 <= K)%nat ->
  exists w' K', cache_append_batch w hd sch b now = (w', (ab_push ttl hd sch b now a).2) /\ Next K K' /\
    Sim K' w' (ab_push ttl hd sch b now a).1.
Proof using HL HT Hlimit.
  intros Hs Hst Hpt Hb Hroom HK1. pose proof Hs as [Hsim _]. pose proof Hsim as [Hsp Hgood _ _ _ _ _ _ _].
  assert (valid_key (sh_stage_id hd, PUSH_SRC)) as Hv by (split; [done|]; unfold u_ok, PUSH_SRC, u_max; simpl; lia).
  destruct (key_scope _ Hv) as [Hv1 Hv2]. simpl in Hv1, Hv2. assert (0 <= sh_partition_id hd < 2 ^ 32) as Hp by (unfold u_ok, u_max in Hpt; lia).
  destruct (push_slot K w a (sh_stage_id hd) Hsim) as (Htk & Hat). unfold Room in *.
  unfold cache_append_batch, ab_push. set (k := (sh_stage_id hd, PUSH_SRC)) in *. pose proof (sim_matches _ _ _ Hsim k) as Hm.
  assert (Forall (fun x => schema_of x = sch) [b]) as Hty by (by repeat constructor).
  destruct (get_entry k (stage_outputs w)) as [[sch0 c]|] eqn:He.
  - destruct (matches_entry w a k sch0 c Hm He) as (l & Hd & _ & Hsh). rewrite Hd. case_bool_decide as Hsch.
    2: { eexists _, K. split; [done|]. split; [apply Next_refl|done]. }
    subst sch0. rewrite append_batch_is_partition.
    destruct (append_partition_total (sh_stage_id hd) PUSH_SRC (spill w) sch c (sh_partition_id hd) [b] (disk w))
      as (c' & d' & Ha & Hf & Hsh'); [done..|].
    rewrite Ha. pose proof Ha as Hsame. apply append_partition_same in Hsame as [Hsame _]; [|lia|by eapply Shape_placed].
    destruct (put_sim K (S K) w a k d' sch c' (extend_bucket (sh_partition_id hd) [b] l) now) as (w1 & w' & Henf & Hnote & Hs');
      try done; [lia|by apply Same_Keeps| |].
    + intros Hni. pose proof (sim_exact _ _ _ Hsim k Hni) as Hx. unfold exact_of in Hx. rewrite He, Hd, Htk, Hat in Hx.
      eapply (append_partition_rep (sh_stage_id hd) PUSH_SRC); try done; [lia|by destruct Hgood].
    + rewrite Henf. exists w', (S K). rewrite Hnote. split; [done|]. split; [unfold Next; lia|done].
  - rewrite (proj1 (matches_none w a k Hm) He).
    assert (Typed sch (extend_bucket (sh_partition_id hd) [b] [])) as Hty' by (apply Typed_extend; [done|constructor]).
    destruct (maybe_spill_total (sh_stage_id hd) PUSH_SRC sch _ (disk w) Hty' Hgood) as (c & d' & Hms & Hsh & Hsame & Hf).
    unfold from_partition. rewrite first_bucket, Hsp, Hms.
    destruct (put_sim K K w a k d' sch c (extend_bucket (sh_partition_id hd) [b] []) now) as (w1 & w' & Henf & Hnote & Hs');
      try done; [by apply Same_Keeps| |].
    + intros Hni. pose proof (sim_exact _ _ _ Hsim k Hni) as Hx. unfold exact_of in Hx.
      rewrite He, (proj1 (matches_none w a k Hm) He), Htk, Hat in Hx.
      eapply (Rep_mono _ _ 1); [lia|]. eapply maybe_spill_rep; try done; [rewrite length_extend; simpl; lia|]. by apply Hx.
    + rewrite Henf. exists w', K. rewrite Hnote. split; [done|]. split; [unfold Next; lia|done].
Qed.

(** *** The cleanup *)

Definition clear_all (d : Disk) (m : list (Key * CachedStage)) : Disk :=
  foldl (fun d (kv : Key * CachedStage) => clear_stage kv.1.1 d) d m.

Lemma clear_stage_files s d name : files d !! name = None -> files (clear_stage s d) !! name = None.
Proof. intros Hn. unfold clear_stage, clear_by_prefix. cbn [files]. apply map_lookup_filter_None. by left. Qed.

Lemma clear_all_files m : forall d name, files d !! name = None -> files (clear_all d m) !! name = None.
Proof. induction m as [|kv m IH]; intros d name Hn; [done|]. apply IH. by apply clear_stage_files. Qed.

Lemma clear_all_good m : forall d, Good d -> Good (clear_all d m).
Proof. induction m as [|kv m IH]; intros d Hd; [done|]. by apply IH. Qed.

Lemma clear_all_access m : forall d, access (clear_all d m) = access d.
Proof. induction m as [|kv m IH]; intros d; [done|]. unfold clear_all in *. simpl. by rewrite IH. Qed.

(** The scopes of the stages that are cached lose their files, the others keep
    them. *)
Lemma clear_all_clean k m : valid_key k -> forall d, Healthy d -> Exists (fun kv : Key * CachedStage => kv.1.1 = k.1) m ->
  Clean (clear_all d m) k.1 k.2.
Proof.
  clear Hlimit. intros Hv. destruct (key_scope k Hv) as [Hv1 Hv2]. induction m as [|kv m IH]; intros d Hd Hex; [by inversion Hex|].
  apply Exists_cons in Hex as [Heq|Hex]; [|by apply IH]. destruct kv as [[s' r'] e]. simpl in Heq. subst s'.
  intros name Hn. apply (clear_all_files m (clear_stage k.1 d)). by apply (clear_stage_clean k.1 k.2).
Qed.

Lemma clear_all_keeps k m : valid_key k -> Forall (fun kv : Key * CachedStage => valid_key kv.1) m -> forall d name,
  ~ Exists (fun kv : Key * CachedStage => kv.1.1 = k.1) m -> of_scope k.1 k.2 name ->
  files (clear_all d m) !! name = files d !! name.
Proof.
  clear Hlimit. intros Hv. destruct (key_scope k Hv) as [Hv1 Hv2].
  induction 1 as [|kv m Hkv Hm IH]; intros d name Hno Hn; [done|]. rewrite Exists_cons in Hno.
  change (clear_all d (kv :: m)) with (clear_all (clear_stage kv.1.1 d) m). rewrite IH by tauto.
  destruct Hn as (p & Hp & x & ->). unfold clear_stage, clear_by_prefix. cbn [files]. destruct (key_scope _ Hkv) as [Hk1 _].
  rewrite map_lookup_filter. destruct (files d !! _) as [bytes|]; [|done].
  cbn [mbind option_bind]. rewrite option_guard_True; [done|]. cbn [fst]. rewrite stage_prefix by done.
  rewrite bool_decide_false; [done|]. intros Heq. tauto.
Qed.

Lemma cached_stages K w a s : Sim0 K w a ->
  ab_cached a s <-> Exists (fun kv : Key * CachedStage => kv.1.1 = s) (stage_outputs w).
Proof.
  intros Hsim. pose proof (sim_keys _ _ _ Hsim) as Hnd. unfold ab_cached. rewrite !Exists_exists. split.
  - intros (k & Hin & Hk). apply list_elem_of_fmap in Hin as ([k' [sch l]] & -> & Hin%elem_of_map_to_list).
    destruct (matches_done w a _ sch l (sim_matches _ _ _ Hsim k') Hin) as (c & Hc & _).
    exists (k', (sch, c)). split; [by apply elem_get|done].
  - intros ([k [sch c]] & Hin & Hk). apply elem_get in Hin; [|done].
    destruct (matches_entry w a _ sch c (sim_matches _ _ _ Hsim k) Hin) as (l & Hd & _).
    exists k. split; [|done]. apply list_elem_of_fmap. exists (k, (sch, l)). split; [done|]. by apply elem_of_map_to_list.
Qed.

Lemma entries_valid K w a : Sim0 K w a -> Forall (fun kv : Key * CachedStage => valid_key kv.1) (stage_outputs w).
Proof.
  intros Hsim. apply Forall_forall. intros [k [sch c]] Hin. apply elem_get in Hin; [|by destruct Hsim].
  by destruct (matches_entry w a k sch c (sim_matches _ _ _ Hsim k) Hin) as (l & _ & ? & _).
Qed.

Lemma clear_files_sim K w a : Sim K w a -> Sim K (clear_files w) (ab_clear_files keep a).
Proof.
  clear Hlimit. intros [Hsim Hbud]. unfold clear_files, ab_clear_files. rewrite (sim_spill _ _ _ Hsim), (sim_keep _ _ _ Hsim).
  destruct keep eqn:Hkeep; [done|]. change (foldl _ (disk w) (stage_outputs w)) with (clear_all (disk w) (stage_outputs w)). split; [|done].
  pose proof Hsim as [Hsp Hf Htt Hkp Hnd Hst Hma Hex _]. pose proof (fun s => cached_stages K w a s Hsim) as Hcached.
  pose proof (entries_valid K w a Hsim) as Hval. pose proof Hf as [_ Hh]. constructor; try done; simpl.
  - by apply clear_all_good.
  - intros k Hni. rewrite !not_elem_of_union, not_elem_of_dom, !elem_of_filter in Hni. destruct Hni as [[Hd Hta] Htk].
    rewrite elem_of_dom in Htk. specialize (Hma k). pose proof (proj2 (matches_none w a k Hma) Hd) as He. unfold exact_of. simpl.
    destruct (ab_tasks a !! k) as [at_|] eqn:Hat.
    + assert (~ ab_cached a k.1) as Hno by naive_solver. assert (k ∉ ab_taint a) as Hni by naive_solver.
      specialize (Hex k Hni). unfold exact_of in Hex. rewrite <-Hat. eapply Exact_frame; [|exact Hma|exact Hex].
      intros Hv name Hn. apply (clear_all_keeps k); try done. by rewrite <-Hcached.
    + assert (tasks w !! k = None) as Htw.
      { destruct (tasks w !! k) eqn:Htw; [|done]. destruct (matches_task w a k _ Hma Htw) as (? & ? & _). congruence. }
      rewrite He, Hd, Htw. intros Hv. destruct (decide (ab_cached a k.1)) as [Hc|Hc].
      * apply clear_all_clean; try done. by apply Hcached.
      * assert (k ∉ ab_taint a) as Hni. { intros Hin. apply Hta. split; [by right|done]. }
        specialize (Hex k Hni). unfold exact_of in Hex. rewrite He, Hd, Htw, Hat in Hex. intros name Hn. apply clear_all_files. by apply Hex.
  - intros _ k Hv [[sch l] Hd] _. destruct (matches_done w a k sch l (Hma k) Hd) as (c & Hc & _).
    apply clear_all_clean; try done. apply Exists_exists. exists (k, (sch, c)). split; [by apply elem_get|done].
Qed.

Lemma clear_maps_sim K w a : Sim K w a -> Sim K (clear_maps w) (ab_clear_maps a).
Proof using Hlimit.
  intros [Hsim _]. split.
  - pose proof Hsim as [Hsp Hf Htt Hkp Hnd Hst Hma Hex Hsw]. constructor; try done; simpl; [constructor| |].
    + intros k. split; [done|]. by destruct (Hma k).
    + intros k Hni. unfold exact_of. simpl. rewrite lookup_empty.
      assert (k ∉ ab_taint a -> ab_done a !! k = None -> Exact K (disk w) k None None (tasks w !! k) (ab_tasks a !! k)) as Hold.
      { intros Hni' Hd. specialize (Hex k Hni'). unfold exact_of in Hex. by rewrite (proj2 (matches_none w a k (Hma k)) Hd), Hd in Hex. }
      destruct (ab_swept a); [|apply not_elem_of_union in Hni as [? ?%not_elem_of_dom]; by apply Hold].
      rewrite elem_of_filter in Hni. destruct (ab_done a !! k) as [[sch l]|] eqn:Hd; [|apply Hold; [tauto|done]].
      destruct (matches_done w a k sch l (Hma k) Hd) as (c & Hc & Hv).
      assert (ab_tasks a !! k = None) as Hat.
      { destruct (ab_tasks a !! k) eqn:Hat; [|done]. destruct (decide (k ∈ ab_taint a)) as [Hin|Hin]; [naive_solver|].
        specialize (Hex k Hin). unfold exact_of in Hex. rewrite Hc, Hd, Hat in Hex. by destruct (tasks w !! k). }
      rewrite Hat. destruct (tasks w !! k) eqn:Htk.
      * destruct (matches_task w a k _ (Hma k) Htk) as (? & ? & _). congruence.
      * intros _. apply Hsw; [done|done|by eexists|done].
  - unfold Budget, LimitOk in *. destruct (total_limit_bytes st) as [limit|]; [|done]. simpl.
    unfold total_memory. simpl. done.
Qed.

(** *** Reads *)

(** The batches with rows of bucket [p] of entry [k]. *)
Definition rows_at a (p : Z) k : list RecordBatch :=
  match ab_done a !! k with Some (_, l) => with_rows (default [] (l !! Z.to_nat p)) | None => [] end.

Lemma ab_entries_elem a s k e : (k, e) ∈ ab_entries a s <-> k.1 = s /\ ab_done a !! k = Some e.
Proof. unfold ab_entries. rewrite list_elem_of_filter, elem_of_map_to_list. done. Qed.

Lemma ab_bucket_keys a s p : ab_bucket a s p = (ab_entries a s).*1 ≫= rows_at a p.
Proof.
  unfold ab_bucket. assert (Forall (fun kv => rows_at a p kv.1 = with_rows (default [] (kv.2.2 !! Z.to_nat p))) (ab_entries a s)) as Hall.
  { apply Forall_forall. intros [k [sch l]] [_ Hk]%ab_entries_elem. unfold rows_at. simpl. by rewrite Hk. }
  induction Hall as [|kv l Hkv Hall IH]; [done|]. simpl. rewrite Hkv. f_equal. exact IH.
Qed.

Lemma sim_entry K w a k sch c : Sim0 K w a -> get_entry k (stage_outputs w) = Some (sch, c) -> k ∉ ab_taint a ->
  exists l, ab_done a !! k = Some (sch, l) /\ valid_key k /\ Rep K (disk w) sch k.1 k.2 c l.
Proof.
  intros Hsim He Hni. destruct (matches_entry w a k sch c (sim_matches _ _ _ Hsim k) He) as (l & Hd & Hv & _).
  exists l. split_and!; try done. pose proof (sim_exact _ _ _ Hsim k Hni) as Hx. unfold exact_of in Hx. rewrite He, Hd in Hx.
  unfold Exact in Hx. by destruct (tasks w !! k), (ab_tasks a !! k).
Qed.

Lemma entry_keys K w a s : Sim0 K w a ->
  (filter (fun kv : Key * CachedStage => kv.1.1 = s) (stage_outputs w)).*1 ≡ₚ (ab_entries a s).*1.
Proof.
  intros Hsim. pose proof (sim_keys _ _ _ Hsim) as Hnd. apply NoDup_Permutation.
  - apply sublist_NoDup with (stage_outputs w).*1; [done|]. apply fmap_sublist, sublist_filter.
  - apply sublist_NoDup with (map_to_list (ab_done a)).*1; [apply NoDup_fst_map_to_list|]. apply fmap_sublist, sublist_filter.
  - intros k. rewrite !list_elem_of_fmap. split.
    + intros ([k' [sch c]] & -> & [Hs Hin]%list_elem_of_filter). apply elem_get in Hin; [|done].
      destruct (matches_entry w a _ _ _ (sim_matches _ _ _ Hsim k') Hin) as (l & Hd & _).
      exists (k', (sch, l)). split; [done|]. by apply ab_entries_elem.
    + intros ([k' [sch l]] & -> & [Hs Hd]%ab_entries_elem).
      destruct (matches_done w a _ _ _ (sim_matches _ _ _ Hsim k') Hd) as (c & Hc & _).
      exists (k', (sch, c)). split; [done|]. apply list_elem_of_filter. split; [done|]. by apply elem_get.
Qed.

Lemma serve_all a p (f : Key * CachedStage -> result Status (list RecordBatch)) (E : list (Key * CachedStage)) :
  (forall kv, kv ∈ E -> exists bs, f kv = Ok bs /\ with_rows bs = rows_at a p kv.1) ->
  exists parts, mapM_result f E = Ok parts /\ with_rows (concat parts) = E.*1 ≫= rows_at a p.
Proof.
  induction E as [|kv E IH]; intros Hf; [by exists []|].
  destruct (Hf kv ltac:(left)) as (bs & Hkv & Hrows). destruct IH as (parts & Hp & Hc); [intros; apply Hf; by right|].
  exists (bs :: parts). simpl. rewrite Hkv. simpl. rewrite Hp. split; [done|].
  unfold with_rows in *. rewrite filter_app, Hrows, Hc. done.
Qed.

Lemma read_sim K w a s p : Sim0 K w a -> u_ok 32 s -> u_ok 32 p -> ReadOk a s p (Served (read_shuffle w s p)).
Proof using HL.
  clear Hlimit. intros Hsim Hs Hp. pose proof (entry_keys K w a s Hsim) as Hkeys. unfold read_shuffle.
  set (E := merge_sort _ _). assert (E ≡ₚ filter (fun kv : Key * CachedStage => kv.1.1 = s) (stage_outputs w)) as HE
    by apply merge_sort_Permutation.
  assert (E.*1 ≡ₚ (ab_entries a s).*1) as HEk by (by rewrite HE). split.
  { intros Hnone. rewrite Hnone in HEk. simpl in HEk. apply Permutation_nil_r, fmap_nil_inv in HEk. by rewrite HEk. }
  intros sch Hsome Hall.
  assert (forall kv, kv ∈ E -> kv.2.1 = sch /\ exists bs, read_partition (disk w) kv.2.2 p = Ok bs /\ with_rows bs = rows_at a p kv.1) as Hkv.
  { intros [k [sch' c]] Hin. rewrite HE in Hin. apply list_elem_of_filter in Hin as [Hk Hin]. apply elem_get in Hin; [|by destruct Hsim].
    destruct (matches_entry w a k _ _ (sim_matches _ _ _ Hsim k) Hin) as (l & Hd & _).
    assert ((k, (sch', l)) ∈ ab_entries a s) as Hab by (by apply ab_entries_elem).
    destruct (proj1 (Forall_forall _ _) Hall _ Hab) as [Hsch Hni]. simpl in Hsch, Hni.
    destruct (sim_entry K w a _ _ _ Hsim Hin Hni) as (l' & Hd' & [Hv1 Hv2] & Hrep). unfold u_ok, u_max in *.
    split; [done|]. unfold rows_at. simpl. rewrite Hd'.
    apply (read_partition_rep k.1 k.2 ltac:(lia) ltac:(lia) K (disk w) sch' c l' p ltac:(lia)); [|done]. by destruct Hsim as [? []]. }
  destruct (last E) as [[k0 [sch0 c0]]|] eqn:Hlast.
  2: { exfalso. apply last_None in Hlast. rewrite Hlast in HEk. simpl in HEk. symmetry in HEk.
       apply Permutation_nil_r, fmap_nil_inv in HEk. done. }
  assert (sch0 = sch) as ->. { apply last_Some_elem_of in Hlast. by destruct (Hkv _ Hlast) as [<- _]. }
  destruct (serve_all a p (fun kv : Key * CachedStage => match read_partition (disk w) kv.2.2 p with
      | Ok part => Ok (serve_entry sch kv.2.1 part)
      | Err e => Err (Internal (fmt [lit "shuffle read stage "; show_u s; lit " partition "; show_u p;
                                     lit " src "; show_u kv.1.2; lit ": "; error_to_string e]))
      end) E) as (parts & -> & Hdata).
  { intros kv Hin. destruct (Hkv kv Hin) as (Hsch & bs & -> & Hrows). exists bs. split; [|done].
    unfold serve_entry. by rewrite bool_decide_true. }
  simpl. eexists. split; [done|]. rewrite Hdata, ab_bucket_keys.
  assert (E.*1 ≫= rows_at a p ≡ₚ (ab_entries a s).*1 ≫= rows_at a p) as Hperm by (by apply bind_perm).
  case_decide as Hempty.
  - rewrite Hempty in Hperm. symmetry in Hperm. apply Permutation_nil_l in Hperm. rewrite <-Hperm. by rewrite bool_decide_true.
  - rewrite bool_decide_false; [done|]. intros Hz. rewrite Hz in Hperm. by apply Permutation_nil_l in Hperm.
Qed.

(** ** Every step *)

Lemma start_sim K w a t : Sim K w a -> Allowed a (Start t) -> Sim K (step w (Start t)).1 (ab_start t a).
Proof.
  clear Hlimit. intros [Hsim Hbud] (Hv & Ht). split; [|done]. set (k := ticket_key t) in *. pose proof (sim_matches _ _ _ Hsim k) as Hm.
  eapply (Sim0_at K K w a _ _ k); try done; try (by destruct Hsim).
  - intros k' Hne. simpl. fold k. rewrite !lookup_insert_ne by done. split_and!; try done. destruct (ab_done a !! k); set_solver.
  - unfold matches_of. simpl. fold k. rewrite !lookup_insert_eq. split; [by destruct Hm|done].
  - simpl. fold k. intros Hni. unfold exact_of. simpl. fold k. rewrite !lookup_insert_eq.
    destruct (ab_done a !! k) eqn:Hd; [set_solver|]. pose proof (proj2 (matches_none w a k Hm) Hd) as He. rewrite He.
    pose proof (sim_exact _ _ _ Hsim k Hni) as Hx. unfold exact_of in Hx. rewrite He, Hd, Ht in Hx. simpl.
    destruct (tasks w !! k); [done|]. apply Hx. by destruct Hv.
  - simpl. intros Hs. split; [done|]. fold k. rewrite lookup_insert_eq. by intros [_ ?].
Qed.

Lemma planned_sim K w a tk at_ r :
  Sim K w a -> At w a tk at_ -> tk_phase tk = Planning ->
  exists a' ans, ab_step ttl keep a (Planned (ticket_key (tk_ticket tk)) r) = (a', Some ans) /\
    (planned w tk r).2 = ans /\ Sim K (planned w tk r).1 a'.
Proof using HL HT.
  clear Hlimit. intros Hs Hat Hph. pose proof Hs as [Hsim _].
  destruct (sim_at K w a tk at_ Hsim Hat) as (Htick & _ & (Hv & _ & Hn) & Hsh & Hun). rewrite Hph in Hsh, Hun.
  assert (at_phase at_ = APlanning) as Haph by (by destruct (at_phase at_)). rewrite Haph in Hun. destruct (Hat) as [_ Hat2].
  unfold ab_step, planned. rewrite Hat2, Haph. destruct r as [sch|m].
  2: { eexists _, _. split; [done|]. split; [done|]. by apply fail_task_sim. }
  eexists _, _. split; [done|]. split; [done|]. cbn [fst].
  change (set_phase w tk ?x) with (set_phase (with_disk w (disk w)) tk x). rewrite <-Htick. unfold u_max in *.
  eapply (set_phase_sim K K); try done; try (by destruct Hsim).
  - simpl. rewrite length_replicate. split_and!; try done; apply Typed_replicate.
  - intros (_ & _ & Hclean)%Hun. exists (replicate (Z.to_nat (num_partitions (tk_ticket tk))) []).
    simpl. rewrite length_replicate. split_and!; try done.
    + split_and!; try done; [rewrite length_replicate; lia|apply Typed_replicate].
    + pose proof (zip_app_replicate (replicate (Z.to_nat (num_partitions (tk_ticket tk))) [])) as Hz.
      by rewrite length_replicate in Hz.
Qed.

(** The task of [k] and its abstract counterpart; without a task the step does
    nothing on either side. *)
Ltac on_task w a k Hma Htask tk at_ Hat :=
  let Htk := fresh in
  destruct (tasks w !! k) as [tk|] eqn:Htk; [|rewrite (matches_no_task w a k (Hma k) Htk); naive_solver];
  destruct (Htask k tk Htk) as (at_ & -> & Hat & Hph); rewrite ?(proj2 Hat).
(** The phases of the two agree. *)
Ltac on_phase tk at_ g sch l Htp Hap :=
  destruct (tk_phase tk) as [|g|] eqn:Htp, (at_phase at_) as [|sch l|] eqn:Hap; try done; try naive_solver.

(** One step of the worker is one abstract step with the same answer. *)
Lemma step_sim K w a op : Sim K w a -> Allowed a op -> Room K -> (1 <= K)%nat ->
  exists K', Next K K' /\ Sim K' (step w op).1 (ab_step ttl keep a op).1 /\ Answers ttl keep a op (step w op).2.
Proof using HL HT Hlimit.
  intros Hs Hal Hroom HK1. pose proof Hs as [Hsim _]. unfold Answers. pose proof (sim_matches _ _ _ Hsim) as Hma.
  assert (forall k tk, tasks w !! k = Some tk -> exists at_, k = ticket_key (tk_ticket tk) /\ At w a tk at_ /\
    PhaseShape (tk_ticket tk) (tk_phase tk) (at_phase at_)) as Htask.
  { intros k tk Htk. destruct (matches_task w a k tk (Hma k) Htk) as (at_ & Hat & (_ & _ & Hk & _ & Hph)). subst k. by exists at_. }
  pose proof (Next_refl K) as Hnext.
  destruct op as [t|k r|k b|k|k now|k r now|k why|hd sch b now|s p| | |acc faults]; cbn [step ab_step].
  - exists K. split; [done|]. split; [by apply start_sim|done].
  - on_task w a k Hma Htask tk at_ Hat. on_phase tk at_ g sch l Htp Hap.
    destruct (planned_sim K w a tk at_ r Hs Hat Htp) as (a' & ans & Hab & Hans & Hs'). cbn [ab_step] in Hab.
    rewrite (proj2 Hat), Hap in Hab. rewrite Hab. by exists K.
  - on_task w a k Hma Htask tk at_ Hat. on_phase tk at_ g sch l Htp Hap.
    destruct (batch_sim K w a tk at_ g sch l b) as (w' & K' & -> & Hn & Hs'); try done; [|by exists K'].
    cbn in Hal. rewrite (proj2 Hat) in Hal. cbn in Hal. by rewrite Hap in Hal.
  - on_task w a k Hma Htask tk at_ Hat. on_phase tk at_ g sch l Htp Hap. exists K. split; [done|]. split; [|done].
    by apply (fall_back_sim K w a tk at_ (disk w)); try done; destruct Hsim.
  - on_task w a k Hma Htask tk at_ Hat. on_phase tk at_ g sch l Htp Hap.
    destruct (stream_end_sim K w a tk at_ g sch l now) as (w' & K' & -> & Hn & Hs'); try done. by exists K'.
  - on_task w a k Hma Htask tk at_ Hat. on_phase tk at_ g sch l Htp Hap.
    destruct (collect_sim K w a tk at_ r now) as (w' & -> & Hs'); try done. exists K. by destruct (ab_collected ttl at_ r now a).
  - on_task w a k Hma Htask tk at_ Hat.
    destruct (drop_sim K w a tk at_ why) as (w' & -> & Hs'); try done. exists K. by destruct (ab_drop at_ why a).
  - destruct Hal as (? & ? & ?). destruct (push_sim K w a hd sch b now) as (w' & K' & -> & Hn & Hs'); try done.
    exists K'. by destruct (ab_push ttl hd sch b now a).
  - exists K. split; [done|]. split; [done|]. destruct Hal. by apply (read_sim K).
  - exists K. split; [done|]. split; [by apply clear_files_sim|done].
  - exists K. split; [done|]. split; [by apply clear_maps_sim|done].
  - done.
Qed.
End Simulation.

(** ** Runs *)

Section Runs.
Context `{HA : Arrow} `{HK : !RowKernels} `{HI : !ArrowIpc}.

Definition ab_empty : Abs := {| ab_done := ∅; ab_tasks := ∅; ab_stamps := ∅; ab_taint := ∅; ab_swept := false |}.

(** A worker with a store whose directory is new ([unique_spill_subdir]), on a
    healthy disk, for any time to live. *)
Definition fresh_worker (st : SpillStore) (ttl : Z) (keep : bool) : Worker :=
  {| stage_outputs := []; stage_inserted := ∅; tasks := ∅; disk := {| files := ∅; script := []; access := healthy |};
     spill := Some st; keep_spill := keep; stage_output_ttl := ttl |}.

Lemma step_eta (w : Worker) op : step w op = ((step w op).1, (step w op).2).
Proof. by destruct (step w op). Qed.

Lemma steps_cons w op ops : steps w (op :: ops) =
  ((steps (step w op).1 ops).1, (step w op).2 :: (steps (step w op).1 ops).2).
Proof. simpl. destruct (step w op) as [w' a]. simpl. by destruct (steps w' ops). Qed.

Context (ttl : Z) (keep : bool).

Fixpoint ab_steps (a : Abs) (ops : list Op) : Abs :=
  match ops with [] => a | op :: ops => ab_steps (ab_step ttl keep a op).1 ops end.
Fixpoint AllowedRun (a : Abs) (ops : list Op) : Prop :=
  match ops with [] => True | op :: ops => Allowed a op /\ AllowedRun (ab_step ttl keep a op).1 ops end.
#[global] Instance AllowedRun_dec a ops : Decision (AllowedRun a ops).
Proof. revert a. induction ops as [|op ops IH]; intros a; simpl; apply _. Defined.
Fixpoint AnswersRun (a : Abs) (ops : list Op) (answers : list Answer) : Prop :=
  match ops, answers with
  | [], [] => True
  | op :: ops, ans :: answers => Answers ttl keep a op ans /\ AnswersRun (ab_step ttl keep a op).1 ops answers
  | _, _ => False
  end.

Context `{HL : !ArrowIpcLaws} `{HT : !TrySchema}.

Lemma run_sim st ops : LimitOk st -> forall K w a, Sim st ttl keep K w a -> (1 <= K)%nat ->
  Z.of_nat K + 2 ^ 32 * Z.of_nat (length ops) < u_max 64 -> AllowedRun a ops ->
  exists K', Sim st ttl keep K' (steps w ops).1 (ab_steps a ops) /\ AnswersRun a ops (steps w ops).2.
Proof using HL HT.
  intros Hlim. induction ops as [|op ops IH]; intros K w a Hs HK1 Hroom Hal; [by exists K|].
  destruct Hal as [Hop Hal]. cbn [length] in Hroom.
  destruct (step_sim st ttl keep Hlim K w a op Hs Hop ltac:(unfold Room; lia) HK1) as (K1 & [HK1' HK2] & Hs1 & Hans).
  destruct (IH K1 _ _ Hs1 ltac:(lia) ltac:(lia) Hal) as (K' & Hs' & Hanss).
  exists K'. rewrite steps_cons. cbn [fst snd ab_steps AnswersRun]. done.
Qed.

Lemma fresh_sim st : LimitOk st -> Sim st ttl keep 1 (fresh_worker st ttl keep) ab_empty.
Proof.
  intros Hlim. split.
  - constructor; try done; [apply NoDup_nil_2|].
    intros k _. unfold exact_of. simpl. rewrite !lookup_empty. intros _ name _. apply lookup_empty.
  - unfold Budget, LimitOk in *. destruct (total_limit_bytes st); [|done]. unfold total_memory. by simpl.
Qed.

(** C8. Spilling is invisible.  In every interleaving of producer tasks, pushed
    batches, reads and the two halves of cleanups, on a worker whose disk
    works, whatever the thresholds and the budget of its store and its time to
    live, each step answers what the same step answers on a worker that keeps
    every bucket in memory, and a read of a stage whose entries have one
    schema and are not tainted returns exactly the batches with rows committed
    to that bucket.  A scope becomes tainted when a task of it starts while its
    output is cached, when its entry expires, when the files of its stage are
    removed while its task runs or its entry is still cached, and when its
    entry is dropped by a cleanup that had removed the files before a later
    commit or push; it is clean again once its files are removed with nothing
    cached.  Assumed of the driver: one running task per scope, batches of the
    announced schema, partition ids below the one pushes use. *)
Theorem spilling_invisible st ops :
  LimitOk st -> 1 + 2 ^ 32 * Z.of_nat (length ops) < u_max 64 -> AllowedRun ab_empty ops ->
  AnswersRun ab_empty ops (steps (fresh_worker st ttl keep) ops).2.
Proof using HL HT.
  intros Hlim Hlen Hal. by destruct (run_sim st ops Hlim 1 _ _ (fresh_sim st Hlim)) as (K & _ & Hans).
Qed.

(** C21. The worker-wide budget: between steps the estimated memory of all the
    cached entries of a worker is within the total limit of its store, in the
    runs of [spilling_invisible]: any interleaving, any time to live, a disk
    that works, one running task per scope. *)
Theorem worker_within_budget st ops limit :
  total_limit_bytes st = Some limit -> 0 <= limit ->
  1 + 2 ^ 32 * Z.of_nat (length ops) < u_max 64 -> AllowedRun ab_empty ops ->
  total_memory (stage_outputs (steps (fresh_worker st ttl keep) ops).1) <= limit.
Proof using HL HT.
  intros Hst Hpos Hlen Hal. assert (LimitOk st) as Hlim by (unfold LimitOk; by rewrite Hst).
  destruct (run_sim st ops Hlim 1 _ _ (fresh_sim st Hlim)) as (K & [_ Hbud] & _); try done.
  unfold Budget in Hbud. by rewrite Hst in Hbud.
Qed.

(** *** Row counts *)

Lemma total_rows_perm (l k : list RecordBatch) : l ≡ₚ k -> total_rows l = total_rows k.
Proof. intros Hp. unfold total_rows. by rewrite Hp. Qed.

Lemma total_rows_cons b (bs : list RecordBatch) : total_rows (b :: bs) = (num_rows b + total_rows bs)%nat.
Proof. done. Qed.

Lemma total_with_rows (bs : list RecordBatch) : total_rows (with_rows bs) = total_rows bs.
Proof.
  induction bs as [|b bs IH]; [done|]. unfold with_rows in *. rewrite filter_cons, (total_rows_cons b bs).
  case_decide as Hb; [by rewrite total_rows_cons, IH|]. rewrite IH. lia.
Qed.

Lemma lookup_add_counts a : forall b i, default 0%nat (add_counts a b !! i) = (default 0 (a !! i) + default 0 (b !! i))%nat.
Proof.
  induction a as [|x a IH]; intros [|y b] i; simpl; [done|done| |].
  - by rewrite Nat.add_0_r.
  - destruct i as [|i]; simpl; [done|]. apply IH.
Qed.

Lemma counts_loop (f : Key -> nat) s i (m : list (Key * CachedStage)) : forall acc,
  Forall (fun kv : Key * CachedStage => kv.1.1 = s -> default 0%nat (partition_row_counts kv.2.2 !! i) = f kv.1) m ->
  default 0%nat (foldl (fun acc (kv : Key * CachedStage) => if kv.1.1 =? s then add_counts acc (partition_row_counts kv.2.2) else acc) acc m !! i) =
    (default 0 (acc !! i) + sum_list (f <$> (filter (fun kv : Key * CachedStage => kv.1.1 = s) m).*1))%nat.
Proof.
  induction m as [|kv m IH]; intros acc Hall; [simpl; lia|]. inversion Hall as [|?? Hkv Hm]; subst. cbn [foldl]. rewrite IH by done.
  rewrite filter_cons. destruct (Z.eqb_spec kv.1.1 s) as [Heq|Hne].
  - rewrite decide_True by done. rewrite lookup_add_counts, Hkv by done. rewrite <-Nat.add_assoc. done.
  - rewrite decide_False by done. done.
Qed.

Lemma total_rows_bind (f : Key -> list RecordBatch) (ks : list Key) :
  total_rows (ks ≫= f) = sum_list ((fun k => total_rows (f k)) <$> ks).
Proof. induction ks as [|k ks IH]; [done|]. rewrite bind_cons_eq, total_rows_app, IH. done. Qed.

Lemma rows_read (l : list RecordBatch) sch bs :
  (if decide (l = []) then bs = [new_empty sch] else bs ≡ₚ l) -> total_rows bs = total_rows l.
Proof using HL.
  case_decide as Hl; [|apply total_rows_perm]. intros ->. subst l. unfold total_rows. simpl. by rewrite num_rows_new_empty.
Qed.

(** C22. The row counts the driver's adaptive planning samples are exact: in the
    runs of [spilling_invisible], for a stage whose entries have one schema
    and none of them tainted, a read of a bucket answers and the count the
    worker reports for the bucket is the number of rows the read returns,
    whether the entries are in memory or spilled. *)
Theorem row_counts_exact st ops s sch p :
  LimitOk st -> 1 + 2 ^ 32 * Z.of_nat (length ops) < u_max 64 -> AllowedRun ab_empty ops -> u_ok 32 s -> u_ok 32 p ->
  let w := (steps (fresh_worker st ttl keep) ops).1 in
  Forall (fun kv : Key * CachedStage => kv.1.1 = s -> kv.2.1 = sch /\ kv.1 ∉ ab_taint (ab_steps ab_empty ops)) (stage_outputs w) ->
  exists bs, read_shuffle w s p = Ok bs /\ default 0%nat (bucket_row_counts w s !! Z.to_nat p) = total_rows bs.
Proof using HL HT.
  intros Hlim Hlen Hal Hs Hp w Hone. destruct (run_sim st ops Hlim 1 _ _ (fresh_sim st Hlim)) as (K & [Hsim _] & _); try done.
  fold w in Hsim. set (a := ab_steps ab_empty ops) in *.
  assert (default 0%nat (bucket_row_counts w s !! Z.to_nat p) = total_rows (ab_bucket a s p)) as ->.
  { rewrite ab_bucket_keys, total_rows_bind. unfold bucket_row_counts. rewrite (counts_loop (fun k => total_rows (rows_at a p k))).
    - rewrite lookup_nil. simpl. by rewrite (entry_keys st ttl keep K w a s Hsim).
    - apply Forall_forall. intros [k [sch' c]] Hin Hk. destruct (proj1 (Forall_forall _ _) Hone _ Hin Hk) as [_ Hni].
      apply elem_get in Hin; [|by destruct Hsim].
      destruct (sim_entry st ttl keep K w a k sch' c Hsim Hin Hni) as (l & Hd & _ & Hrep). simpl.
      rewrite (partition_row_counts_rep k.1 k.2 K _ _ _ _ Hrep). unfold rows_at. rewrite Hd, total_with_rows, list_lookup_fmap.
      by destruct (l !! Z.to_nat p). }
  destruct (read_sim st ttl keep K w a s p Hsim Hs Hp) as [Hnone Hsome].
  destruct (decide (ab_entries a s = [])) as [Hz|Hz].
  - exists []. specialize (Hnone Hz). injection Hnone as ->. split; [done|]. unfold ab_bucket. by rewrite Hz.
  - destruct (Hsome sch Hz) as (bs & Hbs & Hrows); [|injection Hbs as ->; exists bs; split; [done|by rewrite (rows_read _ _ _ Hrows)]].
    apply Forall_forall. intros [k [sch' l]] [Hk Hd]%ab_entries_elem.
    destruct (matches_done w a k sch' l (sim_matches _ _ _ _ _ _ Hsim k) Hd) as (c & Hc & _).
    apply elem_get in Hc; [|by destruct Hsim]. by destruct (proj1 (Forall_forall _ _) Hone _ Hc Hk).
Qed.

(** *** From the stream to the consumer *)

(** The steps of one producer task that streams these batches, then a read. *)
Definition read_after (t : StageTicket) (now p : Z) : list Op := [StreamEnd (ticket_key t) now; Read (stage_id t) p].
Definition produce_and_read (t : StageTicket) (sch : Schema) (bs : list RecordBatch) (now p : Z) : list Op :=
  Start t :: Planned (ticket_key t) (Ok sch) :: (Batch (ticket_key t) <$> bs) ++ read_after t now p.
End Runs.

(** A batch has as many rows as [num_rows] says. *)
Class RowCount `{RowKernels} : Prop := { num_rows_rows b : num_rows b = length (rows_of b) }.

Section Delivery.
Context `{HA : Arrow} `{HK : !RowKernels} `{HI : !ArrowIpc} `{HL : !ArrowIpcLaws} `{HT : !TrySchema}.
Context `{HR : !RowKernelsLaws} `{HC : !RowCount}.
Context (ttl : Z) (keep : bool) (t : StageTicket) (sch : Schema) (now p : Z).
Hypotheses (Httl : 0 <= ttl) (Hval : ValidTicket t) (Hkeys : hash_key_cols t <> []) (Hp : 0 <= p < num_partitions t).

Definition ab_streaming (l : Buckets) : Abs :=
  {| ab_done := ∅; ab_tasks := {[ticket_key t := {| at_ticket := t; at_retried := false; at_phase := AStream sch l |}]};
     ab_stamps := ∅; ab_taint := ∅; ab_swept := false |}.
Definition rows_to (bs : list RecordBatch) : list Row :=
  rows_in (Z.to_nat (num_partitions t)) (hash_key_cols t) (Z.to_nat p) (all_rows bs).

Lemma rows_of_none b : num_rows b = 0%nat -> rows_of b = [].
Proof using HC. intros Hz. apply nil_length_inv. by rewrite <-num_rows_rows. Qed.

Lemma all_rows_with_rows bs : all_rows (with_rows bs) = all_rows bs.
Proof using HC.
  unfold all_rows, with_rows. induction bs as [|b bs IH]; [done|]. rewrite filter_cons. case_decide as Hb.
  - by rewrite !bind_cons_eq, IH.
  - rewrite IH, bind_cons_eq. by rewrite rows_of_none by lia.
Qed.

Lemma rows_to_cons b bs : rows_to (b :: bs) = rows_to [b] ++ rows_to bs.
Proof. unfold rows_to, rows_in, all_rows. rewrite !bind_cons_eq, <-filter_app. by rewrite app_nil_r. Qed.

Lemma delivered_done l : let a := (ab_step ttl keep (ab_streaming l) (StreamEnd (ticket_key t) now)).1 in
  ab_done a = {[ticket_key t := (sch, l)]} /\ ab_taint a = ∅.
Proof using Httl.
  unfold ab_step, ab_streaming. cbn [ab_tasks]. rewrite lookup_singleton_eq. cbn [at_phase fst].
  unfold ab_commit, ab_note, ab_set, with_ab_tasks. cbn [ab_done ab_taint ab_stamps ab_tasks ab_swept at_ticket].
  rewrite !insert_empty. destruct (Z.eqb_spec ttl 0) as [|Hnz]; [done|]. cbn [ab_done ab_taint].
  assert (filter (fun kv : Z * Z * Z => ttl <= now - kv.2) {[ticket_key t := now]} = ∅) as ->.
  { apply map_filter_singleton_False. simpl. lia. }
  split; [|rewrite dom_empty_L; set_solver]. apply map_filter_id. intros k x _. apply lookup_empty.
Qed.

Lemma deliver_end l : length l = Z.to_nat (num_partitions t) ->
  AllowedRun ttl keep (ab_streaming l) (read_after t now p) /\
  forall answers, AnswersRun ttl keep (ab_streaming l) (read_after t now p) answers ->
    exists out, last answers = Some (Served (Ok out)) /\ all_rows out ≡ₚ all_rows (default [] (l !! Z.to_nat p)).
Proof using HL HC Httl Hval Hp.
  intros Hlen. pose proof Hval as ([Hv1 Hv2] & _ & Hn). unfold read_after. destruct (delivered_done l) as [Hd Ht].
  set (a1 := (ab_step ttl keep (ab_streaming l) (StreamEnd (ticket_key t) now)).1) in *.
  split.
  { cbn [AllowedRun]. split; [done|]. split; [|done]. split; [exact Hv1|]. unfold u_ok. lia. }
  intros answers. cbn [AnswersRun]. fold a1.
  destruct answers as [|ans1 [|ans2 [|]]]; [done|by intros [_ ?]| |by intros (_ & _ & ?)]. intros (_ & Hread & _).
  unfold Answers in Hread. cbn [ab_step] in Hread. destruct Hread as [_ Hread].
  assert (ab_entries a1 (stage_id t) = [(ticket_key t, (sch, l))]) as Hent.
  { unfold ab_entries. rewrite Hd, map_to_list_singleton. by rewrite filter_cons_True. }
  specialize (Hread sch). unfold ab_bucket in Hread. rewrite Hent, Ht in Hread.
  destruct Hread as (out & -> & Hout); [done|constructor; [split; [done|apply not_elem_of_empty]|constructor]|].
  exists out. split; [done|]. rewrite bind_cons_eq in Hout. cbn [mbind list_bind fst snd] in Hout. rewrite app_nil_r in Hout.
  case_decide as Hz.
  - subst out. rewrite <-(all_rows_with_rows (default [] (l !! Z.to_nat p))), Hz. unfold all_rows. simpl. rewrite rows_of_none; [done|]. apply num_rows_new_empty.
  - transitivity (all_rows (with_rows (default [] (l !! Z.to_nat p)))); [by apply bind_perm|]. by rewrite all_rows_with_rows.
Qed.

Lemma deliver_batches bs : Forall (fun b => schema_of b = sch) bs ->
  Forall (fun b => exists parts, hash_partition [b] (hash_key_cols t) (Z.to_nat (num_partitions t)) = Ok parts) bs ->
  forall l, length l = Z.to_nat (num_partitions t) ->
  AllowedRun ttl keep (ab_streaming l) ((Batch (ticket_key t) <$> bs) ++ read_after t now p) /\
  forall answers, AnswersRun ttl keep (ab_streaming l) ((Batch (ticket_key t) <$> bs) ++ read_after t now p) answers ->
    exists out, last answers = Some (Served (Ok out)) /\
      all_rows out ≡ₚ all_rows (default [] (l !! Z.to_nat p)) ++ rows_to bs.
Proof using HL HC HR Httl Hval Hp Hkeys.
  intros Hsch Henc. pose proof Hval as (_ & _ & Hn). induction Hsch as [|b bs Hb Hsch IH]; intros l Hlen.
  { cbn [fmap list_fmap app]. destruct (deliver_end l Hlen) as [Hal Hans]. split; [done|]. intros answers Ha.
    destruct (Hans answers Ha) as (out & ? & ?). exists out. split; [done|]. unfold rows_to, all_rows at 3, rows_in. simpl. by rewrite app_nil_r. }
  inversion Henc as [|?? [enc Hcv] Henc']; subst. cbn [fmap list_fmap app].
  assert (exists l', (ab_step ttl keep (ab_streaming l) (Batch (ticket_key t) b)).1 = ab_streaming l' /\ length l' = Z.to_nat (num_partitions t) /\
    all_rows (default [] (l' !! Z.to_nat p)) = all_rows (default [] (l !! Z.to_nat p)) ++ rows_to [b]) as (l' & Hstep & Hlen' & Hrows).
  { unfold ab_step, ab_streaming. cbn [ab_tasks]. rewrite lookup_singleton_eq. cbn [at_phase fst]. unfold ab_batch.
    destruct (num_rows b =? 0)%nat eqn:Hz.
    - exists l. split_and!; try done. unfold rows_to, all_rows at 3. rewrite bind_cons_eq, rows_of_none by (by apply Nat.eqb_eq).
      unfold rows_in. simpl. by rewrite app_nil_r.
    - destruct (ab_parts t [b]) as [parts|e] eqn:Hparts.
      + pose proof Hparts as Hpr. unfold ab_parts in Hpr. apply hash_partition_rows in Hpr as [Hpl Hpi]; [|lia|done].
        exists (zip_with app l parts). cbn [at_ticket]. rewrite Hparts. unfold ab_phase, ab_set_task, with_ab_tasks. cbn [ab_tasks ab_done at_ticket at_retried].
        rewrite insert_singleton_eq. split_and!; [done|rewrite length_zip_with; lia|]. rewrite lookup_zip_app by lia.
        unfold all_rows at 1. rewrite bind_app. f_equal.
        destruct (lookup_lt_is_Some_2 parts (Z.to_nat p) ltac:(lia)) as [part Hpart]. rewrite Hpart. simpl. by apply Hpi.
      + exfalso. unfold ab_parts in Hparts. by rewrite Hcv in Hparts. }
  destruct (IH Henc' l' Hlen') as [Hal Hans]. split.
  - cbn [AllowedRun]. rewrite Hstep. split; [|done]. unfold Allowed, ab_streaming. cbn [ab_tasks].
    by rewrite lookup_singleton_eq.
  - intros [|ans answers]; [done|]. cbn [AnswersRun]. rewrite Hstep. intros [_ Ha].
    destruct (Hans answers Ha) as (out & Hlast & Hout). exists out. split; [destruct answers; done|].
    by rewrite Hout, Hrows, <-app_assoc, <-rows_to_cons.
Qed.

(** C19. What a consumer pulls: a producer task that streams the batches [bs]
    and a later read of bucket [p] return exactly the rows of the stream whose
    key hashes to [p], whatever the thresholds and the budget of the spill
    store, its time to live and wherever the flushes fall.  The worker is new,
    its disk works, the batches have the announced schema and can be
    partitioned, and there are key columns. *)
Theorem producer_rows_delivered st bs :
  LimitOk st -> 1 + 2 ^ 32 * Z.of_nat (4 + length bs) < u_max 64 ->
  Forall (fun b => schema_of b = sch) bs ->
  Forall (fun b => exists parts, hash_partition [b] (hash_key_cols t) (Z.to_nat (num_partitions t)) = Ok parts) bs ->
  exists out, last (steps (fresh_worker st ttl keep) (produce_and_read t sch bs now p)).2 = Some (Served (Ok out)) /\
    all_rows out ≡ₚ rows_to bs.
Proof using HL HT HC HR Httl Hval Hp Hkeys.
  intros Hlim Hlen Hsch Henc. set (n := Z.to_nat (num_partitions t)).
  assert ((ab_step ttl keep (ab_step ttl keep ab_empty (Start t)).1 (Planned (ticket_key t) (Ok sch))).1 = ab_streaming (replicate n [])) as Hstep.
  { unfold ab_step, ab_start, ab_empty, ab_streaming, with_ab_taint, with_ab_tasks. cbn [ab_tasks ab_done fst]. rewrite lookup_insert_eq.
    cbn [at_phase fst]. unfold ab_phase, ab_set_task, with_ab_tasks. cbn [ab_tasks ab_done at_ticket at_retried]. by rewrite insert_insert_eq, insert_empty. }
  destruct (deliver_batches bs Hsch Henc (replicate n []) ltac:(apply length_replicate)) as [Hal Hans].
  destruct (run_sim ttl keep st (produce_and_read t sch bs now p) Hlim 1 _ _ (fresh_sim ttl keep st Hlim)) as (K & _ & Hrun); [done| | |].
  - unfold produce_and_read, read_after. cbn [length]. rewrite length_app, length_fmap. simpl length. lia.
  - unfold produce_and_read. cbn [AllowedRun]. rewrite Hstep. split; [|split; [done|done]].
    split; [done|]. unfold ab_empty. simpl. by rewrite !lookup_empty.
  - unfold produce_and_read in Hrun |- *. destruct (steps _ _).2 as [|a1 [|a2 answers]]; [done|by destruct Hrun as [_ ?]|].
    destruct Hrun as (_ & _ & Ha). rewrite Hstep in Ha. destruct (Hans answers Ha) as (out & Hlast & Hout).
    exists out. split; [destruct answers; done|]. rewrite Hout. destruct (replicate n [] !! _) as [x|] eqn:Hx; [|done].
    apply lookup_replicate in Hx as [-> _]. done.
Qed.
End Delivery.
