(* ===== verification/SpillOwn.v ===== *)
(** * SpillOwn: who owns a spill file

    A file of the spill directory belongs to the scope [(stage_id, src)] its
    name carries.  [Own] is the invariant that every file's scope has a cached
    entry or a running task, unless its last owner let go of it in one of the
    three ways the worker has: the entry expired, the first batch pushed to a
    stage was refused, or the cleanup dropped an entry whose files were written
    after it had removed the stage's files.  Writes may fail at any point; only
    listing, opening and removing files must work. *)

From S2P Require Import Prelude Text Arrow Shuffle Spill SpillWorker SpillRefine.

(** ** What a step lets go of *)

Section Orphans.
Context `{HA : Arrow} `{HK : !RowKernels} `{HI : !ArrowIpc}.

(** The entries that expire when [k] is stamped. *)
Definition expired_keys (k : Key) (now : Z) (w : Worker) : gset (Z * Z) :=
  if stage_output_ttl w =? 0 then ∅
  else dom (filter (fun kv => stage_output_ttl w <= now - kv.2) (<[k := now]> (stage_inserted w))).

(** The scopes whose files one step leaves without their owner; [swept]: the
    files of the cached entries were removed and nothing was written to them
    since. *)
Definition let_go (swept : bool) (w : Worker) (op : Op) : gset (Z * Z) :=
  match op, (step w op).2 with
  | StreamEnd k now, TaskOk | Collected k _ now, TaskOk => expired_keys k now w
  | Push hd _ _ now, Pushed (Ok _) => expired_keys (sh_stage_id hd, PUSH_SRC) now w
  | Push hd _ _ _, Pushed (Err _) =>
      match get_entry (sh_stage_id hd, PUSH_SRC) (stage_outputs (step w op).1) with
      | None => {[ (sh_stage_id hd, PUSH_SRC) ]}
      | Some _ => ∅
      end
  | ClearMaps, _ => if swept then ∅ else list_to_set (stage_outputs w).*1
  | _, _ => ∅
  end.

Definition sweeps (swept : bool) (w : Worker) (op : Op) : bool :=
  match op with
  | ClearFiles => negb (keep_spill w)
  | ClearMaps | StreamEnd _ _ | Collected _ _ _ | Push _ _ _ _ => false
  | _ => swept
  end.

(** The scopes a run has let go of. *)
Fixpoint orphaned (swept : bool) (w : Worker) (ops : list Op) : gset (Z * Z) :=
  match ops with
  | [] => ∅
  | op :: ops => let_go swept w op ∪ orphaned (sweeps swept w op) (step w op).1 ops
  end.

(** Tickets and headers with the numbers a driver can send, and a file system
    whose files can be listed and removed. *)
Definition OwnOp (op : Op) : Prop :=
  match op with
  | Start t => valid_key (ticket_key t)
  | Push hd _ _ _ => u_ok 32 (sh_stage_id hd) /\ u_ok 32 (sh_partition_id hd)
  | FsChange acc _ => acc = healthy
  | _ => True
  end.
End Orphans.

(** ** Writes stay in their scope *)

Section Scopes.
Context `{HA : Arrow} `{HK : !RowKernels} `{HI : !ArrowIpc} `{HL : !ArrowIpcLaws}.

Lemma flush_staging_same spl t sch stg : forall p c d res c' d', Placed (stage_id t) (partition_id t) c ->
  flush_staging spl t sch p stg c d = (res, c', d') ->
  Same (of_scope (stage_id t) (partition_id t)) d d' /\ Placed (stage_id t) (partition_id t) c'.
Proof.
  induction stg as [|bs rest IH]; intros p c d res c' d' Hpl Hfl; simpl in Hfl; [simplify_eq; split; [apply Same_refl|done]|].
  case_bool_decide; [by eapply IH|].
  destruct (append_partition _ _ _ _ _ _ _ _) as [[[[]|e] c1] d1] eqn:Ha;
    apply append_partition_same in Ha as [Hs Hp1]; try done; try (apply wrapu_range; lia).
  - destruct (IH _ _ _ _ _ _ Hp1 Hfl) as [? ?]. split; [by eapply Same_trans|done].
  - by simplify_eq.
Qed.

Lemma flush_same spl t g d res d' : Placed (stage_id t) (partition_id t) (sg_cache g) -> flush spl t g d = (res, d') ->
  Same (of_scope (stage_id t) (partition_id t)) d d' /\
  match res with Ok g' => Placed (stage_id t) (partition_id t) (sg_cache g') | Err _ => True end.
Proof.
  intros Hpl. unfold flush. destruct (flush_staging _ _ _ _ _ _ _) as [[[[]|e] c] d1] eqn:Hfl;
    apply flush_staging_same in Hfl as [? ?]; try done; intros Heq; by simplify_eq/=.
Qed.

Lemma stream_batch_same spl t g b d res d' : Placed (stage_id t) (partition_id t) (sg_cache g) ->
  stream_batch spl t g b d = (res, d') ->
  Same (of_scope (stage_id t) (partition_id t)) d d' /\
  match res with Ok g' => Placed (stage_id t) (partition_id t) (sg_cache g') | Err _ => True end.
Proof.
  intros Hpl. unfold stream_batch. intros Hb.
  destruct (num_rows b =? 0)%nat; [simplify_eq; split; [apply Same_refl|done]|].
  destruct (hash_partition _ _ _) as [parts|e]; [|simplify_eq; split; [apply Same_refl|done]].
  destruct (PRODUCER_FLUSH_BYTES <=? _); [by eapply flush_same in Hb|]. simplify_eq. split; [apply Same_refl|done].
Qed.

Lemma maybe_spill_same s r spl sch buckets d res d' : maybe_spill sch buckets s r spl d = (res, d') ->
  Same (of_scope s r) d d' /\ match res with Ok c => Placed s r c | Err _ => True end.
Proof.
  unfold maybe_spill. intros Hm. destruct spl as [st|]; [|simplify_eq; split; [apply Same_refl|done]].
  destruct (should_spill st buckets); [|simplify_eq; split; [apply Same_refl|done]].
  split; [by eapply spill_buckets_same|]. destruct res; [|done]. eapply Shape_placed, spill_buckets_shape, Hm.
Qed.

Lemma spill_now_same s r c sch st d res c' d' : Placed s r c -> spill_now c sch s r st d = (res, c', d') ->
  Same (of_scope s r) d d' /\ Placed s r c'.
Proof.
  intros Hpl. unfold spill_now. destruct c; [|intros Heq; simplify_eq; split; [apply Same_refl|done]].
  destruct (spill_buckets _ _ _ _ _ _) as [[c1|e] d1] eqn:Hsp; intros Heq; simplify_eq;
    (split; [by eapply spill_buckets_same|]); [|done]. eapply Shape_placed, spill_buckets_shape, Hsp.
Qed.

(** *** Entries *)

Definition entry_ok (kv : Key * CachedStage) : Prop := valid_key kv.1 /\ Placed kv.1.1 kv.1.2 kv.2.2.

Lemma get_elem k (m : list (Key * CachedStage)) : is_Some (get_entry k m) <-> k ∈ m.*1.
Proof.
  induction m as [|[k0 e] m IH]; simpl; [split; [by intros [? ?]|by intros ?%elem_of_nil]|].
  rewrite elem_of_cons, <-IH. case_bool_decide; naive_solver.
Qed.

Lemma get_ok k e (m : list (Key * CachedStage)) : Forall entry_ok m -> get_entry k m = Some e -> entry_ok (k, e).
Proof.
  induction 1 as [|[k0 e0] m H0 Hm IH]; simpl; [done|]. case_bool_decide; [|done]. intros [= <-]. by subst.
Qed.

Lemma set_ok k e (m : list (Key * CachedStage)) : Forall entry_ok m -> entry_ok (k, e) -> Forall entry_ok (set_entry k e m).
Proof.
  intros Hm Hk. induction Hm as [|[k0 e0] m H0 Hm IH]; simpl; [apply Forall_cons; done|].
  case_bool_decide; [subst|]; by apply Forall_cons.
Qed.

Lemma filter_ok (P : Key * CachedStage -> Prop) `{!forall kv, Decision (P kv)} m : Forall entry_ok m -> Forall entry_ok (filter P m).
Proof. rewrite !Forall_forall. intros Hm kv [_ Hin]%list_elem_of_filter. by apply Hm. Qed.

(** Two directories that differ in the scopes [P] only. *)
Definition Within (P : Z * Z -> Prop) (d d' : Disk) : Prop :=
  access d' = access d /\
  forall name, (exists k, P k /\ valid_key k /\ of_scope k.1 k.2 name) \/ files d' !! name = files d !! name.

Lemma Same_within (P : Z * Z -> Prop) k d d' : P k -> valid_key k -> Same (of_scope k.1 k.2) d d' -> Within P d d'.
Proof. intros HP Hv [Ha Hs]. split; [done|]. intros name. destruct (Hs name); [left; by exists k|by right]. Qed.

Lemma Within_trans P d d' d'' : Within P d d' -> Within P d' d'' -> Within P d d''.
Proof.
  intros [A1 H1] [A2 H2]. split; [congruence|]. intros name. destruct (H1 name), (H2 name); auto. right. congruence.
Qed.

(** The budget loop writes to the scopes of cached entries and keeps the keys. *)
Lemma enforce_loop_within fuel limit st : forall m d r m' d', Forall entry_ok m ->
  enforce_loop fuel limit st m d = Some (r, m', d') ->
  Forall entry_ok m' /\ (forall k, k ∈ m'.*1 <-> k ∈ m.*1) /\ Within (fun k => k ∈ m.*1) d d'.
Proof.
  induction fuel as [|fuel IH]; intros m d r m' d' Hm Hl; simpl in Hl; [done|].
  case_match; [simplify_eq; split_and!; try done; split; [done|]; intros ?; by right|].
  pose proof (largest_spec m) as Hlg. destruct (largest m) as [[k [sch c]]|]; [|done]. destruct Hlg as [Hin _].
  destruct (proj1 (Forall_forall _ _) Hm _ Hin) as [Hv Hpl]. simpl in Hv, Hpl.
  assert (k ∈ m.*1) as Hk by (apply list_elem_of_fmap; by exists (k, (sch, c))).
  destruct (spill_now c sch k.1 k.2 st d) as [[[[]|e] c1] d1] eqn:Hsp; apply spill_now_same in Hsp as [Hs Hp1]; try done;
    apply (Same_within (fun k => k ∈ m.*1) k) in Hs; try done;
    assert (Forall entry_ok (set_entry k (sch, c1) m)) as Hm1 by (by apply set_ok);
    assert (forall k', k' ∈ (set_entry k (sch, c1) m).*1 <-> k' ∈ m.*1) as Hkeys by (intros k'; rewrite elem_set_keys; naive_solver).
  - destruct (IH _ _ _ _ _ Hm1 Hl) as (Hm' & Hk' & Hw). split; [done|]. split; [intros k'; by rewrite Hk', Hkeys|].
    eapply Within_trans; [done|]. destruct Hw as [? Hw]. split; [done|]. intros name.
    destruct (Hw name) as [(k' & Hin' & ?)|]; [|by right]. left. exists k'. by rewrite <-Hkeys.
  - by simplify_eq.
Qed.

Lemma enforce_within w r w' : Forall entry_ok (stage_outputs w) -> enforce w = Some (r, w') ->
  Forall entry_ok (stage_outputs w') /\ (forall k, k ∈ (stage_outputs w').*1 <-> k ∈ (stage_outputs w).*1) /\
  Within (fun k => k ∈ (stage_outputs w).*1) (disk w) (disk w') /\
  tasks w' = tasks w /\ stage_inserted w' = stage_inserted w /\ stage_output_ttl w' = stage_output_ttl w /\ spill w' = spill w.
Proof.
  assert (forall P d, Within P d d) as Hrefl by (intros P d; split; [done|]; intros ?; by right).
  intros Hm He. unfold enforce in He. destruct (spill w) as [st|] eqn:Hsp; [|by simplify_eq].
  unfold enforce_total_budget in He. destruct (total_limit_bytes st) as [limit|].
  - destruct (enforce_loop _ _ _ _ _) as [[[r1 m1] d1]|] eqn:Hl; simplify_eq.
    apply enforce_loop_within in Hl as (? & ? & ?); [|done]. by split_and!.
  - simplify_eq. by split_and!.
Qed.
End Scopes.

(** ** The invariant *)

Section Owners.
Context `{HA : Arrow} `{HK : !RowKernels} `{HI : !ArrowIpc} `{HL : !ArrowIpcLaws}.
Context (st : SpillStore).
Implicit Types (w : Worker) (k : Z * Z) (L : gset (Z * Z)).

Definition owned L w k : Prop := k ∈ (stage_outputs w).*1 \/ is_Some (tasks w !! k) \/ k ∈ L.

Definition task_ok k (tk : Task) : Prop :=
  ticket_key (tk_ticket tk) = k /\ valid_key k /\
  match tk_phase tk with InStream g => Placed k.1 k.2 (sg_cache g) | _ => True end.

(** Every file carries the name of a scope. *)
Definition Named (d : Disk) : Prop :=
  forall name, is_Some (files d !! name) -> exists k, valid_key k /\ of_scope k.1 k.2 name.

Record Own (sw : bool) L w : Prop := {
  own_spill : spill w = Some st;
  own_healthy : Healthy (disk w);
  own_entries : Forall entry_ok (stage_outputs w);
  own_tasks : map_Forall task_ok (tasks w);
  own_named : Named (disk w);
  own_files : forall k name, valid_key k -> of_scope k.1 k.2 name -> is_Some (files (disk w) !! name) -> owned L w k;
  own_swept : sw = true -> forall k, k ∈ (stage_outputs w).*1 -> tasks w !! k = None -> Clean (disk w) k.1 k.2;
}.

Lemma scope_inj k k' name : valid_key k -> valid_key k' -> of_scope k.1 k.2 name -> of_scope k'.1 k'.2 name -> k = k'.
Proof.
  intros Hv Hv' (p & Hp & Hb) (p' & Hp' & Hb'). destruct (key_scope k Hv), (key_scope k' Hv').
  destruct (of_bucket_inj k.1 k.2 p k'.1 k'.2 p' name) as (? & ? & _); try done. destruct k, k'. simpl in *. congruence.
Qed.

Lemma entry_valid sw L w k : Own sw L w -> k ∈ (stage_outputs w).*1 -> valid_key k.
Proof.
  intros Ho (kv & -> & Hin)%list_elem_of_fmap. by destruct (proj1 (Forall_forall _ _) (own_entries _ _ _ Ho) _ Hin).
Qed.

Lemma Within_named P d d' : Within P d d' -> Named d -> Named d'.
Proof.
  intros [_ Hw] Hn name Hf. destruct (Hw name) as [(k & _ & Hv & Hs)|Heq]; [by exists k|]. apply Hn. by rewrite <-Heq.
Qed.

(** A scope outside the changed ones keeps its files. *)
Lemma Within_same P d d' k name : Within P d d' -> valid_key k -> ~ P k -> of_scope k.1 k.2 name ->
  files d' !! name = files d !! name.
Proof.
  intros [_ Hw] Hv Hno Hs. destruct (Hw name) as [(k' & HP & Hv' & Hs')|]; [|done].
  by rewrite (scope_inj k k' name Hv Hv' Hs Hs') in Hno.
Qed.

Lemma Within_clean P d d' k : Within P d d' -> valid_key k -> ~ P k -> Clean d k.1 k.2 -> Clean d' k.1 k.2.
Proof. intros Hw Hv Hno Hc name Hs. rewrite (Within_same P d d' k name) by done. by apply Hc. Qed.

(** A step that changes the files of the scopes [P] only: a scope that had an
    owner, or whose files changed, has an owner or no file. *)
Lemma own_change P `{!forall k, Decision (P k)} sw L w sw' L' w' : Own sw L w -> Within P (disk w) (disk w') ->
  spill w' = spill w -> Forall entry_ok (stage_outputs w') -> map_Forall task_ok (tasks w') ->
  (forall k, valid_key k -> owned L w k \/ P k -> owned L' w' k \/ Clean (disk w') k.1 k.2) ->
  (sw' = true -> forall k, k ∈ (stage_outputs w').*1 -> tasks w' !! k = None -> Clean (disk w') k.1 k.2) ->
  Own sw' L' w'.
Proof.
  intros [Hsp Hh He Ht Hn Hf Hsw] Hw Hsp' He' Ht' Hown Hsw'. constructor; try done; [congruence| | |].
  - unfold Healthy. rewrite (proj1 Hw). done.
  - by eapply Within_named.
  - intros k name Hv Hs Hname. destruct (Hown k Hv) as [|Hc]; [|done|rewrite Hc in Hname by done; by destruct Hname].
    destruct (decide (P k)) as [|Hno]; [by right|]. left. apply (Hf k name); [done|done|].
    by rewrite <-(Within_same P (disk w) (disk w') k name).
Qed.

(** *** Tasks *)

(** The removal of the files of scope [k] touches no other scope. *)
Lemma clear_scoped_within k d : valid_key k -> Named d -> Within (eq k) d (clear_scoped_stage k.1 k.2 d).
Proof.
  intros Hv Hn. split; [done|]. intros name. destruct (key_scope k Hv) as [Hv1 Hv2]. destruct (files d !! name) as [b|] eqn:Hb.
  - destruct (Hn name ltac:(by eexists)) as (k0 & Hv0 & Hs0). destruct (decide (k = k0)) as [->|Hne]; [left; by exists k0|].
    right. destruct (key_scope k0 Hv0). rewrite (clear_scoped_keeps k.1 k.2 Hv1 Hv2 d k0.1 k0.2); try done.
    intros Heq. apply Hne. destruct k, k0. simpl in *. congruence.
  - right. unfold clear_scoped_stage, clear_by_prefix. cbn [files]. apply map_lookup_filter_None. by left.
Qed.

(** A task changes its state and the files of its scope. *)
Lemma own_task sw L w k tk d' : Own sw L w -> valid_key k -> Within (eq k) (disk w) d' -> task_ok k tk ->
  Own sw L (with_tasks (with_disk w d') (<[k := tk]> (tasks w))).
Proof.
  intros Ho Hv Hw Htk. eapply (own_change (eq k) sw L w); try done; try (by destruct Ho).
  - simpl. apply map_Forall_insert_2; [done|]. by destruct Ho.
  - intros k' Hv' Hor. left. unfold owned in *. simpl. destruct (decide (k = k')) as [<-|Hne].
    + right. left. by rewrite lookup_insert_eq.
    + rewrite lookup_insert_ne by done. destruct Hor; [done|]. by subst.
  - simpl. intros Hs k' Hin Hno. destruct (decide (k = k')) as [<-|Hne]; [by rewrite lookup_insert_eq in Hno|].
    rewrite lookup_insert_ne in Hno by done. eapply (Within_clean (eq k)); [done|by eapply entry_valid|done|].
    by apply (own_swept _ _ _ Ho Hs).
Qed.

Lemma own_disk sw L w k d' : Own sw L w -> is_Some (tasks w !! k) -> Within (eq k) (disk w) d' -> Own sw L (with_disk w d').
Proof.
  intros Ho Htk Hw. eapply (own_change (eq k) sw L w); try done; try (by destruct Ho); simpl.
  - intros k' _ [Hor| <-]; left; [done|]. right. by left.
  - intros Hs k' Hin Hno. eapply (Within_clean (eq k)); [done|by eapply entry_valid| |by apply (own_swept _ _ _ Ho Hs)].
    intros <-. rewrite Hno in Htk. by destruct Htk.
Qed.

Lemma own_weaken sw L L' w : L ⊆ L' -> Own sw L w -> Own false L' w.
Proof.
  intros HL' [Hsp Hh He Ht Hn Hf Hsw]. constructor; try done. intros k name Hv Hs Hname.
  destruct (Hf k name Hv Hs Hname) as [|[|]]; unfold owned; auto.
Qed.

(** The reaper removes the entry, the stamp and the files of the scope. *)
Lemma own_reap sw L w k : Own sw L w -> valid_key k -> Own sw L (reap k (with_tasks w (delete k (tasks w)))).
Proof.
  intros Ho Hv. destruct (key_scope k Hv) as [Hv1 Hv2]. unfold reap. cbn [spill with_tasks disk]. rewrite (own_spill _ _ _ Ho).
  assert (Clean (clear_scoped_stage k.1 k.2 (disk w)) k.1 k.2) as Hclean by (apply clear_scoped_clean; [lia|lia|by destruct Ho]).
  assert (Within (eq k) (disk w) (clear_scoped_stage k.1 k.2 (disk w))) as Hw by (apply clear_scoped_within; [done|by destruct Ho]).
  assert (forall k', k' <> k -> k' ∈ (remove_entry k (stage_outputs w)).*1 <-> k' ∈ (stage_outputs w).*1) as Hkeys.
  { intros k' Hne. by rewrite <-!get_elem, get_remove_ne. }
  eapply (own_change (eq k) sw L w); try done; simpl.
  - apply filter_ok. by destruct Ho.
  - apply map_Forall_delete. by destruct Ho.
  - intros k' Hv' Hor. destruct (decide (k' = k)) as [->|Hne]; [by right|]. left. destruct Hor as [Hor|?]; [|congruence].
    unfold owned in *. simpl. rewrite Hkeys, lookup_delete_ne by done. done.
  - intros Hs k' Hin Hno. destruct (decide (k' = k)) as [->|Hne]; [done|]. rewrite Hkeys in Hin by done.
    rewrite lookup_delete_ne in Hno by done. eapply (Within_clean (eq k)); [done|by eapply entry_valid|congruence|].
    by apply (own_swept _ _ _ Ho Hs).
Qed.

Lemma own_fail sw L w tk e : Own sw L w -> valid_key (ticket_key (tk_ticket tk)) -> Own sw L (fail_task w tk e).1.
Proof. intros. by apply own_reap. Qed.

(** *** Commits and pushes *)

(** An entry of scope [k] is set after writes to its scope. *)
Lemma own_set sw L w k e d' : Own sw L w -> entry_ok (k, e) -> Within (eq k) (disk w) d' ->
  Own false L (with_cache (with_disk w d') (set_entry k e (stage_outputs w)) (stage_inserted w) d').
Proof.
  intros Ho Hok Hw. eapply (own_change (eq k) sw L w); try done; try (by destruct Ho); simpl.
  - apply set_ok; [by destruct Ho|done].
  - intros k' _ Hor. left. unfold owned in *. simpl. rewrite elem_set_keys. destruct Hor as [[?|?]| ->]; auto.
Qed.

Lemma own_enforce L w r w' : Own false L w -> enforce w = Some (r, w') -> Own false L w'.
Proof.
  intros Ho He. apply enforce_within in He as (Hok & Hkeys & Hw & Ht & _ & _ & Hsp); [|by destruct Ho].
  eapply (own_change (fun k => k ∈ (stage_outputs w).*1) false L w); try done.
  - rewrite Ht. by destruct Ho.
  - intros k Hv Hor. left. unfold owned in *. rewrite Hkeys, Ht. destruct Hor; auto.
Qed.

(** The entries that expire let go of their files. *)
Lemma own_note L w k now : Own false L w -> Own false (L ∪ expired_keys k now w) (note_stage_output_insert k now w).
Proof.
  intros Ho. unfold note_stage_output_insert, expired_keys. destruct (stage_output_ttl w =? 0).
  { apply (own_weaken false L); [set_solver|]. by destruct Ho. }
  set (expired := filter _ _). eapply (own_change (fun _ => False) false L w); try done.
  - split; [done|]. intros name. by right.
  - simpl. apply filter_ok. by destruct Ho.
  - simpl. by destruct Ho.
  - intros k' Hv [Hor|[]]. left. unfold owned in *. simpl. rewrite <-get_elem, (get_filter _ (fun k => expired !! k = None)) by done.
    rewrite <-get_elem in Hor. case_decide as Hx; [set_solver|]. right. right. apply elem_of_union. right. apply elem_of_dom.
    by destruct (expired !! k').
Qed.

Lemma own_drop_task L w k : Own false L w -> k ∈ (stage_outputs w).*1 -> Own false L (with_tasks w (delete k (tasks w))).
Proof.
  intros Ho Hin. eapply (own_change (fun _ => False) false L w); try done; try (by destruct Ho); simpl.
  - split; [done|]. intros name. by right.
  - apply map_Forall_delete. by destruct Ho.
  - intros k' _ [Hor|[]]. left. unfold owned in *. simpl. destruct (decide (k' = k)) as [->|Hne]; [by left|].
    by rewrite lookup_delete_ne.
Qed.

(** What a task's last step lets go of. *)
Definition gone (ans : Answer) (k : Key) (now : Z) w : gset (Z * Z) :=
  match ans with TaskOk => expired_keys k now w | _ => ∅ end.

Lemma own_commit sw L w tk sch c now d' : Own sw L w -> let k := ticket_key (tk_ticket tk) in
  valid_key k -> Within (eq k) (disk w) d' -> Placed k.1 k.2 c ->
  let res := commit (with_disk w d') tk sch c now in Own false (L ∪ gone res.2 k now w) res.1.
Proof.
  intros Ho k Hv Hw Hpl. pose proof (own_set sw L w k (sch, c) d' Ho (conj Hv Hpl) Hw) as Ho1.
  unfold commit. fold k. cbn [stage_outputs stage_inserted disk with_disk].
  destruct (enforce _) as [[[[]|e] w2]|] eqn:He; cbn [fst snd gone].
  - pose proof (own_enforce _ _ _ _ Ho1 He) as Ho2. apply enforce_within in He as (_ & Hkeys & _ & _ & Hst & Htt & _); [|by destruct Ho1].
    assert (expired_keys k now w = expired_keys k now (with_tasks w2 (delete k (tasks w2)))) as ->.
    { unfold expired_keys. simpl. rewrite Hst, Htt. done. }
    apply own_note, own_drop_task; [done|]. rewrite Hkeys. simpl. apply elem_set_keys. by left.
  - apply (own_weaken false L); [set_solver|]. apply own_fail; [|done]. by eapply own_enforce.
  - apply (own_weaken false L); [set_solver|done].
Qed.

Lemma own_fall_back sw L w tk d' : Own sw L w -> let k := ticket_key (tk_ticket tk) in
  valid_key k -> Within (eq k) (disk w) d' -> Own sw L (fall_back (with_disk w d') tk).1.
Proof.
  intros Ho k Hv Hw. unfold fall_back. fold k. cbn [fst]. unfold clear_scope. cbn [spill with_disk disk]. rewrite (own_spill _ _ _ Ho).
  unfold set_phase. fold k. apply (own_task sw L w k _ (clear_scoped_stage k.1 k.2 d') Ho Hv); [|done].
  eapply Within_trans; [done|]. apply clear_scoped_within; [done|]. eapply Within_named; [done|]. by destruct Ho.
Qed.

Lemma own_stream_end sw L w tk g now : Own sw L w -> let k := ticket_key (tk_ticket tk) in
  task_ok k tk -> tk_phase tk = InStream g ->
  let res := stream_ended w tk g now in Own false (L ∪ gone res.2 k now w) res.1.
Proof.
  intros Ho k (_ & Hv & Hpl) Hg. rewrite Hg in Hpl. unfold stream_ended.
  destruct (flush (spill w) (tk_ticket tk) g (disk w)) as [[g'|e] d'] eqn:Hfl; apply flush_same in Hfl as [Hs Hpl']; try done;
    apply (Same_within (eq k) k) in Hs; try done.
  - by eapply own_commit.
  - apply (own_weaken sw L); [set_solver|]. by apply own_fall_back.
Qed.

Lemma own_collect sw L w tk r now : Own sw L w -> let k := ticket_key (tk_ticket tk) in task_ok k tk -> tasks w !! k = Some tk ->
  let res := produce_stage_collect w tk r now in Own false (L ∪ gone res.2 k now w) res.1.
Proof.
  intros Ho k (_ & Hv & _) Htk.
  assert (forall w1 e, Own sw L w1 -> Own false (L ∪ gone (fail_task w1 tk e).2 k now w) (fail_task w1 tk e).1) as Hfail.
  { intros w1 e Ho1. apply (own_weaken sw L); [set_solver|]. by apply own_fail. }
  unfold produce_stage_collect. destruct r as [[sch bs]|m]; [|by apply Hfail].
  destruct (hash_partition _ _ _) as [l|e]; [|by apply Hfail].
  destruct (maybe_spill _ _ _ _ _ _) as [[c|e] d'] eqn:Hsp; apply maybe_spill_same in Hsp as [Hs Hpl];
    apply (Same_within (eq k) k) in Hs; try done; [by eapply own_commit|].
  apply Hfail. eapply (own_disk sw L w k); [done|by eexists|done].
Qed.

Lemma own_dropped sw L w tk why : Own sw L w -> let k := ticket_key (tk_ticket tk) in valid_key k -> Own sw L (dropped w tk why).1.
Proof.
  intros Ho k Hv. destruct why; try (by apply own_fail). unfold dropped. fold k. destruct (tk_retried tk); [by apply own_fail|].
  cbn [fst]. unfold clear_scope. rewrite (own_spill _ _ _ Ho).
  apply (own_task sw L w k _ (clear_scoped_stage k.1 k.2 (disk w)) Ho Hv); [|done].
  apply clear_scoped_within; [done|]. by destruct Ho.
Qed.

(** A push: what it lets go of depends on its answer. *)
Lemma own_push sw L w hd sch b now : Own sw L w -> u_ok 32 (sh_stage_id hd) -> u_ok 32 (sh_partition_id hd) ->
  Own false (L ∪ let_go sw w (Push hd sch b now)) (step w (Push hd sch b now)).1.
Proof.
  intros Ho Hs Hp. unfold let_go. cbn [step]. set (k := (sh_stage_id hd, PUSH_SRC)).
  assert (valid_key k) as Hv by (split; [done|]; unfold k, u_ok, PUSH_SRC, u_max; simpl; lia).
  set (G := fun res : Worker * Answer => match res.2 with
    | Pushed (Ok _) => expired_keys k now w
    | Pushed (Err _) => match get_entry k (stage_outputs res.1) with None => {[k]} | Some _ => ∅ end
    | _ => ∅ end).
  change (Own false (L ∪ G (cache_append_batch w hd sch b now)) (cache_append_batch w hd sch b now).1).
  assert (forall e c d', Within (eq k) (disk w) d' -> Placed k.1 k.2 c ->
    let w1 := with_cache w (set_entry k (e, c) (stage_outputs w)) (stage_inserted w) d' in
    let res := match enforce w1 with
      | None => (w1, Panicked)
      | Some (Err e, w) => (w, Pushed (Err e))
      | Some (Ok _, w) => (note_stage_output_insert k now w, Pushed (Ok tt))
      end in Own false (L ∪ G res) res.1) as Hafter.
  { intros e c d' Hw Hpl w1. pose proof (own_set sw L w k (e, c) d' Ho (conj Hv Hpl) Hw) as Ho1. change (with_cache _ _ _ _) with w1 in Ho1.
    destruct (enforce w1) as [[[[]|e2] w2]|] eqn:He; simpl.
    - pose proof (own_enforce _ _ _ _ Ho1 He) as Ho2. apply enforce_within in He as (_ & _ & _ & _ & Hst & Htt & _); [|by destruct Ho1].
      unfold G. simpl. assert (expired_keys k now w = expired_keys k now w2) as ->; [|by apply own_note].
      unfold expired_keys. rewrite Hst, Htt. done.
    - apply (own_weaken false L); [set_solver|]. by eapply own_enforce.
    - apply (own_weaken false L); [set_solver|done]. }
  unfold cache_append_batch. fold k. destruct (get_entry k (stage_outputs w)) as [[sch0 c]|] eqn:Hget.
  - destruct (get_ok _ _ _ (own_entries _ _ _ Ho) Hget) as [_ Hpl]. simpl in Hpl.
    case_bool_decide; [|apply (own_weaken sw L); [set_solver|done]].
    rewrite append_batch_is_partition. unfold u_ok in Hp.
    destruct (append_partition _ _ _ _ _ _ _ _) as [[[[]|e] c'] d'] eqn:Ha; apply append_partition_same in Ha as [Hsame Hpl'];
      try done; try lia; apply (Same_within (eq k) k) in Hsame; try done; [by apply Hafter|].
    apply (own_weaken false L); [set_solver|]. by apply (own_set sw L w k (sch0, c') d' Ho).
  - unfold from_partition. destruct (maybe_spill _ _ _ _ _ _) as [[c|e] d'] eqn:Hsp; apply maybe_spill_same in Hsp as [Hsame Hpl];
      apply (Same_within (eq k) k) in Hsame; try done; [by apply Hafter|].
    unfold G. cbn [fst snd with_disk stage_outputs]. rewrite Hget.
    eapply (own_change (eq k) sw L w); try done; try (by destruct Ho). intros k' _ Hor. left. unfold owned in *. simpl. set_solver.
Qed.

(** *** The cleanup *)

Lemma clear_all_within d (m : list (Key * CachedStage)) : Named d -> Forall entry_ok m ->
  Within (fun k => Exists (fun kv : Key * CachedStage => kv.1.1 = k.1) m) d (clear_all d m).
Proof.
  intros Hn Hm. assert (Forall (fun kv : Key * CachedStage => valid_key kv.1) m) as Hval by (eapply Forall_impl; [done|]; by intros ? []).
  split; [apply clear_all_access|]. intros name. destruct (files d !! name) as [b|] eqn:Hb.
  - destruct (Hn name ltac:(by eexists)) as (k & Hv & Hs).
    destruct (decide (Exists (fun kv : Key * CachedStage => kv.1.1 = k.1) m)) as [Hex|Hno]; [left; by exists k|].
    right. rewrite <-Hb. by apply (clear_all_keeps k).
  - right. by apply clear_all_files.
Qed.

Lemma own_clear_files sw L w : Own sw L w -> Own (sweeps sw w ClearFiles) L (clear_files w).
Proof.
  intros Ho. unfold clear_files. cbn [sweeps]. rewrite (own_spill _ _ _ Ho).
  destruct (keep_spill w) eqn:Hkeep; [by apply (own_weaken sw L)|]. cbn [negb].
  change (foldl _ (disk w) (stage_outputs w)) with (clear_all (disk w) (stage_outputs w)).
  assert (forall k, valid_key k -> Exists (fun kv : Key * CachedStage => kv.1.1 = k.1) (stage_outputs w) ->
    Clean (clear_all (disk w) (stage_outputs w)) k.1 k.2) as Hclean.
  { intros k Hv Hex. apply clear_all_clean; [done|by destruct Ho|done]. }
  eapply (own_change (fun k => Exists (fun kv : Key * CachedStage => kv.1.1 = k.1) (stage_outputs w)) sw L w); try done;
    try (by destruct Ho); simpl.
  - apply clear_all_within; by destruct Ho.
  - intros k Hv [Hor|Hex]; [by left|right; by apply Hclean].
  - intros _ k Hin _. apply Hclean; [by eapply entry_valid|]. apply list_elem_of_fmap in Hin as (kv & -> & Hin).
    apply Exists_exists. by exists kv.
Qed.

Lemma own_clear_maps sw L w : Own sw L w -> Own false (L ∪ let_go sw w ClearMaps) (clear_maps w).
Proof.
  intros Ho. eapply (own_change (fun _ => False) sw L w); try done; try (by destruct Ho); simpl.
  - split; [done|]. intros name. by right.
  - intros k Hv [Hor|[]]. unfold owned in *. simpl. destruct sw; [|set_solver].
    destruct Hor as [Hin|Hor]; [|set_solver]. destruct (tasks w !! k) eqn:Ht; [left; right; left; by eexists|].
    right. by apply (own_swept _ _ _ Ho).
Qed.

(** *** Every step *)

Lemma own_step sw L w op : Own sw L w -> OwnOp op -> Own (sweeps sw w op) (L ∪ let_go sw w op) (step w op).1.
Proof.
  intros Ho Hop.
  assert (forall k tk, tasks w !! k = Some tk -> k = ticket_key (tk_ticket tk) /\ valid_key k /\ task_ok k tk) as Htask.
  { intros k tk Htk. pose proof (own_tasks _ _ _ Ho k tk Htk) as Hok. destruct (Hok) as (<- & Hv & _). done. }
  assert (forall w', Own sw L w' -> Own sw (L ∪ ∅) w') as Hsame by (intros w'; by rewrite union_empty_r_L).
  assert (forall P, Within P (disk w) (disk w)) as Hrefl by (intros P; split; [done|]; intros ?; by right).
  assert (Own false (L ∪ ∅) w) as Hidle by (apply (own_weaken sw L); [set_solver|done]).
  destruct op as [t|k r|k b|k|k now|k r now|k why|hd sch b now|s p| | |acc faults]; cbn [sweeps].
  - apply Hsame. cbn [step fst]. by apply (own_task sw L w (ticket_key t) _ (disk w) Ho Hop).
  - apply Hsame. cbn [step]. destruct (tasks w !! k) as [tk|] eqn:Htk; [|done]. destruct (Htask k tk Htk) as (-> & Hv & Hok).
    destruct (tk_phase tk); try done. unfold planned. destruct r; [|by apply own_fail].
    by apply (own_task sw L w (ticket_key (tk_ticket tk)) _ (disk w) Ho Hv).
  - apply Hsame. cbn [step]. destruct (tasks w !! k) as [tk|] eqn:Htk; [|done]. destruct (Htask k tk Htk) as (-> & Hv & _ & _ & Hpl).
    destruct (tk_phase tk) as [|g|] eqn:Hg; try done. unfold batch_received.
    destruct (stream_batch _ _ _ _ _) as [[g'|e] d'] eqn:Hb; apply stream_batch_same in Hb as [Hs Hpl']; try done;
      apply (Same_within (eq (ticket_key (tk_ticket tk))) (ticket_key (tk_ticket tk))) in Hs; try done; [|by apply own_fall_back].
    by apply (own_task sw L w (ticket_key (tk_ticket tk)) _ d' Ho Hv).
  - apply Hsame. cbn [step]. destruct (tasks w !! k) as [tk|] eqn:Htk; [|done]. destruct (Htask k tk Htk) as (-> & Hv & _).
    destruct (tk_phase tk); try done. by apply (own_fall_back sw L w tk (disk w)).
  - unfold let_go. cbn [step]. destruct (tasks w !! k) as [tk|] eqn:Htk; [|done]. destruct (Htask k tk Htk) as (-> & Hv & Hok).
    destruct (tk_phase tk) as [|g|] eqn:Hg; try done. by apply (own_stream_end sw L w tk g now).
  - unfold let_go. cbn [step]. destruct (tasks w !! k) as [tk|] eqn:Htk; [|done]. destruct (Htask k tk Htk) as (-> & Hv & Hok).
    destruct (tk_phase tk) as [|g|] eqn:Hg; try done. by apply (own_collect sw L w tk r now).
  - apply Hsame. cbn [step]. destruct (tasks w !! k) as [tk|] eqn:Htk; [|done]. destruct (Htask k tk Htk) as (-> & Hv & _).
    by apply own_dropped.
  - destruct Hop. by apply own_push.
  - by apply Hsame.
  - unfold let_go. cbn [step fst snd]. rewrite union_empty_r_L. exact (own_clear_files sw L w Ho).
  - exact (own_clear_maps sw L w Ho).
  - apply Hsame. cbn [step fst]. simpl in Hop. subst acc.
    eapply (own_change (fun _ => False) sw L w); try done; try (by destruct Ho); simpl.
    + split; [by rewrite (own_healthy _ _ _ Ho)|]. intros name. by right.
    + intros k _ [Hor|[]]. by left.
Qed.

Lemma own_steps ops : forall sw L w, Own sw L w -> Forall OwnOp ops ->
  exists sw', Own sw' (L ∪ orphaned sw w ops) (steps w ops).1.
Proof.
  induction ops as [|op ops IH]; intros sw L w Ho Hops; [exists sw; cbn [orphaned steps fst]; by rewrite union_empty_r_L|].
  inversion Hops as [|?? Hop Hrest]; subst. destruct (IH _ _ _ (own_step sw L w op Ho Hop) Hrest) as [sw' Ho'].
  exists sw'. rewrite steps_cons. cbn [orphaned fst]. by rewrite (assoc_L (∪)).
Qed.
End Owners.

Section NoOrphans.
Context `{HA : Arrow} `{HK : !RowKernels} `{HI : !ArrowIpc} `{HL : !ArrowIpcLaws}.

(** C20. No spill file outlives its owner.  In every interleaving of producer
    tasks (repeated runs of a scope included), pushes, reads, cleanups and
    changes of which writes fail, on a worker whose files can be listed and
    removed: every file of the directory belongs to the scope of a cached
    entry or of a running task, except the files of scopes the run has let go
    of ([orphaned]): scopes whose entry expired, stages whose first pushed
    batch was refused, and entries the second half of a cleanup dropped after
    something was committed or pushed since its first half (or whose files it
    was told to keep).  Tasks that fail, stall, time out, are cancelled or
    abandoned, and spills that run out of space, leave nothing behind. *)
Theorem no_orphan_files st ttl keep ops name :
  Forall OwnOp ops -> let w := (steps (fresh_worker st ttl keep) ops).1 in
  is_Some (files (disk w) !! name) ->
  exists k, of_scope k.1 k.2 name /\
    (is_Some (get_entry k (stage_outputs w)) \/ is_Some (tasks w !! k) \/ k ∈ orphaned false (fresh_worker st ttl keep) ops).
Proof using HL.
  intros Hops w Hname. assert (Own st false ∅ (fresh_worker st ttl keep)) as Ho.
  { constructor; try done; [by intros n [? ?]|by intros k n _ _ [? ?]]. }
  destruct (own_steps st ops false ∅ _ Ho Hops) as [sw Ho']. fold w in Ho'. rewrite union_empty_l_L in Ho'.
  destruct (own_named _ _ _ _ Ho' name Hname) as (k & Hv & Hs). exists k. split; [done|].
  rewrite get_elem. exact (own_files _ _ _ _ Ho' k name Hv Hs Hname).
Qed.
End NoOrphans.
