(* ===== verification/SpillRuns.v ===== *)
(** * SpillRuns: runs of a spilling worker on row batches

    An implementation of the Arrow interface, the runs the theorems of
    [SpillRefine] are applied to, and the runs in which a worker serves the
    wrong rows. *)

From S2P Require Import Prelude Text Arrow Shuffle Spill SpillWorker SpillRefine SpillOwn.
Import RowBatch.

Module SpillRuns.
Import ShuffleRuns.

(** ** A row-oriented IPC format *)

#[export] Instance unit_eq_dec : EqDecision TimeUnit.
Proof. solve_decision. Defined.
#[export] Instance type_eq_dec : EqDecision DataType.
Proof. solve_decision. Defined.

Definition unit_code (u : TimeUnit) : nat :=
  match u with Second => 0 | Millisecond => 1 | Microsecond => 2 | Nanosecond => 3 end%nat.
Definition type_code (t : DataType) : nat :=
  match t with Timestamp u => unit_code u | Date32 => 4 | OtherType => 5 end%nat.
Definition code_type (n : nat) : DataType :=
  match n with
  | 0 => Timestamp Second | 1 => Timestamp Millisecond | 2 => Timestamp Microsecond | 3 => Timestamp Nanosecond
  | 4 => Date32 | _ => OtherType
  end%nat.

(** A file: the fields, then the cells of each batch. *)
Definition plain_file : Type := list (list Z * nat) * list (list (list (option Z * list Z))).
Definition plain_field (f : list Z * DataType) : list Z * nat := (f.1, type_code f.2).
Definition field_of (f : list Z * nat) : list Z * DataType := (f.1, code_type f.2).
Definition plain_cell (c : row_cell) : option Z * list Z := (value c, display c).
Definition cell_of (c : option Z * list Z) : row_cell := {| value := c.1; display := c.2 |}.
Definition to_plain (s : list (list Z * DataType)) (bs : list batch) : plain_file :=
  (map plain_field s, map (fun b => map (map plain_cell) (rows b)) bs).
Definition of_plain (f : plain_file) : list batch :=
  map (fun rs => {| fields := map field_of f.1; rows := map (map cell_of) rs |}) f.2.

#[export] Instance row_ipc : ArrowIpc := {|
  Schema := list (list Z * DataType);
  schema_of b := fields b;
  schema_empty := [];
  new_empty s := {| fields := s; rows := [] |};
  get_array_memory_size b := 100000000 * Z.of_nat (length (rows b));
  ipc_encode s bs := Ok [Z.pos (encode (to_plain s bs))];
  ipc_decode bytes :=
    match bytes with
    | [Z.pos n] => match decode (A := plain_file) n with Some f => Ok (of_plain f) | None => Err (InOpen, lit "not a stream") end
    | _ => Err (InOpen, lit "not a stream")
    end;
  try_new_batch s b := if bool_decide ((snd <$> s) = (snd <$> fields b)) then Some {| fields := s; rows := rows b |} else None |}.

Lemma type_code_type t : code_type (type_code t) = t.
Proof. by destruct t as [[]| |]. Qed.

Lemma map_id_ext {A} (f : A -> A) l : (forall x, f x = x) -> map f l = l.
Proof. intros Hf. induction l as [|x l IH]; simpl; [done|]. by rewrite Hf, IH. Qed.

Lemma of_to_plain s bs : Forall (fun b => fields b = s) bs -> of_plain (to_plain s bs) = bs.
Proof.
  intros Hs. unfold of_plain, to_plain. cbn [fst snd]. rewrite map_map.
  induction Hs as [|[fs rs] bs Hb Hs IH]; [done|]. simpl in *. rewrite IH. subst. f_equal. f_equal.
  - rewrite map_map. apply map_id_ext. intros [n t]. unfold field_of, plain_field. simpl. by rewrite type_code_type.
  - rewrite map_map. apply map_id_ext. intros r. rewrite map_map. apply map_id_ext. by intros [v d].
Qed.

#[export] Instance row_ipc_laws : ArrowIpcLaws.
Proof.
  constructor.
  - intros s bs Hs. eexists. split; [done|]. unfold ipc_decode, row_ipc. rewrite decode_encode. f_equal. by apply of_to_plain.
  - done.
  - intros b. unfold get_array_memory_size, row_ipc. lia.
Qed.
#[export] Instance row_try_schema : TrySchema.
Proof.
  constructor. intros b cols b' Hnew. cbn [try_new row_kernels] in Hnew. unfold rows_new in Hnew.
  destruct cols; [done|]. case_bool_decide; [|done]. by injection Hnew as <-.
Qed.
#[export] Instance row_count : RowCount.
Proof. constructor. intros b. cbn [rows_of row_kernels]. by rewrite length_fmap, length_seq. Qed.

(** ** A worker that spills *)

Definition sch : list (list Z * DataType) := [(lit "k", OtherType)].
Definition task (s : Z) : StageTicket := {| stage_id := s; partition_id := 0; num_partitions := 2; hash_key_cols := [0%nat] |}.
(** Every entry spills at once; a stage of two rows flushes. *)
Definition eager : SpillStore := with_total_limit (with_memory_limit 1) 1.

(** The values a read returned. *)
Definition values (ans : Answer) : option (list Z) :=
  match ans with Served (Ok bs) => Some (bs ≫= (fun b => omap (fun r => head r ≫= value) (rows b))) | _ => None end.
Definition answers (w : Worker) (ops : list Op) : list (option (list Z)) := values <$> (steps w ops).2.

(** A producer task from start to commit, with these batches. *)
Definition produce (s : Z) (bs : list (list Z)) (now : Z) : list Op :=
  [Start (task s); Planned (s, 0) (Ok sch)] ++ ((fun l => Batch (s, 0) (numbers l)) <$> bs) ++ [StreamEnd (s, 0) now].

(** *** Witnesses *)

(** A run with every kind of step: a stream error and its fallback, a stalled
    task and its retry, an abandoned task, a push, reads, a cleanup and the
    next query. *)
Definition busy : list Op :=
  [Start (task 0); Start (task 1); Planned (0, 0) (Ok sch); Batch (0, 0) (numbers [1; 2]); Planned (1, 0) (Ok sch);
   Batch (1, 0) (numbers [5]); StreamError (0, 0); Drop (1, 0) (NoProgress (lit "stalled")); Planned (1, 0) (Ok sch);
   Batch (1, 0) (numbers [6; 7]); Collected (0, 0) (Ok (sch, [numbers [1; 2; 3]])) 1;
   Push {| sh_stage_id := 0; sh_partition_id := 1 |} sch (numbers [8]) 2; StreamEnd (1, 0) 3; Start (task 2);
   Planned (2, 0) (Ok sch); Batch (2, 0) (numbers [9; 9]); Drop (2, 0) ClientGone; Read 0 1; Read 1 0;
   ClearFiles; ClearMaps; Start (task 0); Planned (0, 0) (Ok sch); Batch (0, 0) (numbers [4; 5]); StreamEnd (0, 0) 4; Read 0 1].

(** The default time to live, one hour. *)
Abbreviation hour := 3600 (only parsing).

Lemma busy_allowed : AllowedRun hour false ab_empty busy.
Proof. apply (bool_decide_unpack _). vm_compute. exact I. Qed.

(** No scope of the run is tainted when it is read. *)
Lemma busy_clean : ab_taint (ab_steps hour false ab_empty busy) = ∅ /\ ab_taint (ab_steps hour false ab_empty (take 19 busy)) = ∅.
Proof. split; vm_compute; reflexivity. Qed.

Lemma spilling_invisible_witness : AnswersRun hour false ab_empty busy (steps (fresh_worker eager hour false) busy).2.
Proof. apply (spilling_invisible hour false eager busy); [vm_compute; discriminate|vm_compute; reflexivity|exact busy_allowed]. Defined.

Lemma worker_within_budget_witness : total_memory (stage_outputs (steps (fresh_worker eager hour false) busy).1) <= 1.
Proof.
  apply (worker_within_budget hour false eager busy 1); [reflexivity|lia|vm_compute; reflexivity|exact busy_allowed].
Defined.

(** A producer whose disk fills up: the second file it creates fails, it falls
    back to collecting, and another task is running with its files. *)
Definition filling : list Op :=
  [Start (task 0); Start (task 1); Planned (1, 0) (Ok sch); Batch (1, 0) (numbers [5; 6]);
   FsChange healthy [Fine; NoCreate (lit "No space left on device")];
   Planned (0, 0) (Ok sch); Batch (0, 0) (numbers [1; 2])].

Lemma no_orphan_files_witness :
  let w := (steps (fresh_worker eager hour false) filling).1 in
  exists k : Z * Z, of_scope k.1 k.2 (path 1 0 0) /\
    (is_Some (get_entry k (stage_outputs w)) \/ is_Some (tasks w !! k) \/ k ∈ orphaned false (fresh_worker eager hour false) filling).
Proof.
  apply (no_orphan_files eager hour false filling (path 1 0 0)).
  - repeat (apply List.Forall_cons || apply List.Forall_nil); try exact I; try reflexivity; split; split; vm_compute; discriminate.
  - apply (bool_decide_unpack _). vm_compute. exact I.
Defined.

(** What the failed task had written is gone, and nothing was let go of. *)
Lemma filling_reclaimed :
  let w := (steps (fresh_worker eager hour false) filling).1 in
  dom (files (disk w)) = {[path 1 0 0; path 1 0 1; segment_path 1 0 1 0]} /\ orphaned false (fresh_worker eager hour false) filling = ∅.
Proof. split; vm_compute; reflexivity. Qed.

Lemma row_counts_exact_witness :
  exists bs, read_shuffle (steps (fresh_worker eager hour false) (take 17 busy)).1 0 1 = Ok bs /\
    default 0%nat (bucket_row_counts (steps (fresh_worker eager hour false) (take 17 busy)).1 0 !! 1%nat) = total_rows bs.
Proof.
  apply (row_counts_exact hour false eager (take 17 busy) 0 sch 1); try (apply (bool_decide_unpack _); vm_compute; exact I).
Defined.

Lemma producer_rows_delivered_witness :
  exists out, last (steps (fresh_worker eager hour false) (produce_and_read (task 0) sch [numbers [1; 2]; numbers [3; 4]] 0 1)).2 = Some (Served (Ok out)) /\
    all_rows out ≡ₚ rows_to (task 0) 1 [numbers [1; 2]; numbers [3; 4]].
Proof.
  apply (producer_rows_delivered (HI := row_ipc) hour false (task 0) sch 0 1); try (apply (bool_decide_unpack _); vm_compute; exact I).
  repeat (apply List.Forall_cons || apply List.Forall_nil); by eexists.
Defined.

(** *** Wrong rows *)

(** Running a producer task again on the worker that already holds its
    spilled output duplicates rows.  Nothing clears the scope when a task
    starts: the base files are rewritten, the segments of the first run stay,
    and the segments of the second run are numbered after them.  The second
    run of the same stream serves the rows of the old segments twice. *)
Theorem rerun_duplicates_rows :
  answers (fresh_worker eager 0 false) (produce 0 [[1; 2]; [3; 4]] 0 ++ [Read 0 0; Read 0 1]) =
    [None; None; None; None; None; Some [1; 3]; Some [2; 4]] /\
  answers (fresh_worker eager 0 false) (produce 0 [[1; 2]; [3; 4]] 0 ++ produce 0 [[1; 2]; [3; 4]] 1 ++ [Read 0 0; Read 0 1]) =
    [None; None; None; None; None; None; None; None; None; None; Some [1; 3; 3]; Some [2; 4; 2; 4]].
Proof. split; vm_compute; reflexivity. Qed.

(** A worker that drops cached outputs after 10 units of time. *)
Definition expiring : Worker :=
  {| stage_outputs := []; stage_inserted := ∅; tasks := ∅; disk := {| files := ∅; script := []; access := healthy |};
     spill := Some eager; keep_spill := false; stage_output_ttl := 10 |}.

(** The files of an expired entry are never reclaimed, and a later query
    reads them.  The expiry drops the entry of stage 0 and leaves its files to
    the cleanup at the end of the query; that cleanup only visits stages still
    in the cache.  The next query, whose stage 0 has the single row 7, is
    served rows 3, 2 and 4 of the earlier one as well. *)
Theorem expired_rows_served :
  answers expiring (produce 0 [[1; 2]; [3; 4]] 0 ++ produce 5 [[9]] 20 ++ [ClearFiles; ClearMaps] ++ produce 0 [[7]] 30 ++ [Read 0 0; Read 0 1]) =
    replicate 15 None ++ [Some [7; 3]; Some [2; 4]].
Proof. vm_compute. reflexivity. Qed.

(** A worker with a total limit of three rows whose disk refuses the first
    file. *)
Definition full_disk : Worker :=
  {| stage_outputs := []; stage_inserted := ∅; tasks := ∅;
     disk := {| files := ∅; script := [NoCreate (lit "No space left on device")]; access := healthy |};
     spill := Some (with_total_limit (with_memory_limit 1000000000) 300000000); keep_spill := false; stage_output_ttl := 0 |}.

(** A failed spill empties the output of another stage.  Committing stage 1
    exceeds the budget, the larger stage 0 is chosen to spill and its write
    fails: the task of stage 1 reports the error and is cleaned up, but the
    buckets of stage 0 were taken out of the cache before the write.  Stage 0
    is still served, without an error, as empty. *)
Theorem failed_spill_empties_stage :
  answers full_disk (produce 0 [[1; 2; 3]] 0 ++ [Read 0 0; Read 0 1] ++ produce 1 [[4]] 1 ++ [Read 0 0; Read 0 1]) =
    replicate 4 None ++ [Some [1; 3]; Some [2]] ++ replicate 4 None ++ [Some []; Some []] /\
  last (steps full_disk (produce 0 [[1; 2; 3]] 0 ++ produce 1 [[4]] 1)).2 =
    Some (TaskErr (Internal (error_to_string (Io (lit "spill create stage_0_src0_part_0.arrow: No space left on device"))))).
Proof. split; vm_compute; reflexivity. Qed.

(** [clear_stages] takes the lock twice: an output committed in between loses
    its entry and keeps its files, which a later run of the scope serves. *)
Lemma cleared_between_locks :
  answers (fresh_worker eager 0 false)
    ([ClearFiles] ++ produce 0 [[1; 2]; [3; 4]] 0 ++ [ClearMaps] ++ produce 0 [[7]] 0 ++ [Read 0 0; Read 0 1]) =
  replicate 11 None ++ [Some [7; 3]; Some [2; 4]].
Proof. vm_compute. reflexivity. Qed.

(** In each of these runs the scope read is tainted, and in the last two its
    files had been let go of. *)
Lemma wrong_rows_tainted :
  (0, 0) ∈ ab_taint (ab_steps 0 false ab_empty (produce 0 [[1; 2]; [3; 4]] 0 ++ produce 0 [[1; 2]; [3; 4]] 1)) /\
  (0, 0) ∈ ab_taint (ab_steps 10 false ab_empty (produce 0 [[1; 2]; [3; 4]] 0 ++ produce 5 [[9]] 20 ++ [ClearFiles; ClearMaps] ++ produce 0 [[7]] 30)) /\
  (0, 0) ∈ ab_taint (ab_steps 0 false ab_empty ([ClearFiles] ++ produce 0 [[1; 2]; [3; 4]] 0 ++ [ClearMaps])) /\
  orphaned false expiring (produce 0 [[1; 2]; [3; 4]] 0 ++ produce 5 [[9]] 20) = {[(0, 0)]} /\
  orphaned false (fresh_worker eager 0 false) ([ClearFiles] ++ produce 0 [[1; 2]; [3; 4]] 0 ++ [ClearMaps]) = {[(0, 0)]}.
Proof. split_and!; try (apply (bool_decide_unpack _); vm_compute; exact I); vm_compute; reflexivity. Qed.
End SpillRuns.
