(* ===== verification/StageDag.v ===== *)
(** * StageDag: concurrent dispatch of a query's stages

    [oxidant-execution/src/dag_dispatch.rs] (the dependency bookkeeping) and
    the dispatch loop of [run_stages_concurrent] in [driver.rs].  The loop is a
    step relation: which in-flight stage finishes next, and whether it
    succeeds, is up to the cluster.  [HashMap] and [HashSet] are [gmap] and
    [gset]; their iteration order never reaches an output. *)

From S2P Require Import Prelude Text.

Inductive ExchangeMode := Hash | Broadcast | Forward.
#[global] Instance ExchangeMode_eq_dec : EqDecision ExchangeMode.
Proof. solve_decision. Defined.

(** The fields of [StageDef] dispatch looks at. *)
Record StageDef := {
  stage_id : Z;
  stage_sql : str;
  upstream_stage_ids : list Z;
  stage_exchange : ExchangeMode;
}.

Definition SCALAR_TOKEN : str := lit "__OXIDANT_SCALAR_STAGE__".

(** [stage_sql_has_scalar_token]. *)
Definition has_scalar_token (sql : str) : bool :=
  contains sql SCALAR_TOKEN || contains sql (lit "__OXIDANT_SCALAR_STAGE_").

Record StageDag := {
  deps_remaining : gmap Z Z;
  dependents : gmap Z (list Z);
  ready : list Z;
  completed : gset Z;
  skipped : gset Z;
  total : Z;
}.

(** ** Construction *)

Definition dispatch_set (stages : list StageDef) (output_stage_id : Z) : gset Z :=
  list_to_set (filter (fun id => id <> output_stage_id) (stage_id <$> stages)).

(** The stages [s] waits for: its upstreams in the dispatch set and, when its
    SQL carries a scalar token, the scalar stage. *)
Definition stage_deps (dispatch : gset Z) (scalar_stage_id : option Z) (s : StageDef) : gset Z :=
  let deps : gset Z := list_to_set (filter (fun u => u ∈ dispatch) (upstream_stage_ids s)) in
  if has_scalar_token (stage_sql s) && bool_decide (scalar_stage_id <> Some (stage_id s)) then
    match scalar_stage_id with
    | Some scalar => if bool_decide (scalar ∈ dispatch) then {[ scalar ]} ∪ deps else deps
    | None => deps
    end
  else deps.

(** [dependents.entry(d).or_default().push(id)]. *)
Definition push_dependent (id : Z) (m : gmap Z (list Z)) (d : Z) : gmap Z (list Z) :=
  <[d := default [] (m !! d) ++ [id]]> m.

Definition add_stage (dispatch : gset Z) (scalar : option Z) (dag : StageDag) (s : StageDef) : StageDag :=
  if negb (bool_decide (stage_id s ∈ dispatch)) then dag
  else
    let deps := stage_deps dispatch scalar s in
    {| deps_remaining := <[stage_id s := Z.of_nat (size deps)]> (deps_remaining dag);
       dependents := foldl (push_dependent (stage_id s)) (dependents dag) (elements deps);
       ready := if bool_decide (deps = ∅) then ready dag ++ [stage_id s] else ready dag;
       completed := completed dag; skipped := skipped dag; total := total dag |}.

(** [StageDag::new]. *)
Definition dag_new (stages : list StageDef) (output_stage_id : Z) (scalar_stage_id : option Z) : StageDag :=
  let dispatch := dispatch_set stages output_stage_id in
  foldl (add_stage dispatch scalar_stage_id)
    {| deps_remaining := ∅; dependents := ∅; ready := []; completed := ∅; skipped := ∅;
       total := Z.of_nat (size dispatch) |} stages.

(** ** Operations *)

(** [take_ready]: [VecDeque::pop_front]. *)
Definition take_ready (dag : StageDag) : option (Z * StageDag) :=
  match ready dag with
  | [] => None
  | id :: rest =>
      Some (id, {| deps_remaining := deps_remaining dag; dependents := dependents dag; ready := rest;
                   completed := completed dag; skipped := skipped dag; total := total dag |})
  end.

(** One turn of the loop of [complete]. *)
Definition release (acc : gmap Z Z * list Z) (d : Z) : gmap Z Z * list Z :=
  match acc.1 !! d with
  | Some remaining =>
      let remaining := sat_subu remaining 1 in
      (<[d := remaining]> acc.1, if remaining =? 0 then acc.2 ++ [d] else acc.2)
  | None => acc
  end.

(** [complete]. *)
Definition complete (dag : StageDag) (id : Z) : StageDag :=
  if negb (bool_decide (is_Some (deps_remaining dag !! id))) || bool_decide (id ∈ completed dag) then dag
  else
    let done := {[ id ]} ∪ completed dag in
    let '(rem, rdy) := match dependents dag !! id with
                       | Some deps => foldl release (deps_remaining dag, ready dag) deps
                       | None => (deps_remaining dag, ready dag)
                       end in
    {| deps_remaining := rem; dependents := dependents dag; ready := rdy;
       completed := done; skipped := skipped dag; total := total dag |}.

(** The [while] of [fail].  Every turn pops an entry, and an entry pushes its
    dependents only the first time it is skipped, so the turns are bounded by
    the initial stack and the number of edges. *)
Fixpoint skip_loop (fuel : nat) (dag : StageDag) (skipped : gset Z) (stack : list Z) : gset Z :=
  match fuel with
  | O => skipped
  | S fuel =>
      match stack with
      | [] => skipped
      | d :: stack =>
          if bool_decide (d ∈ completed dag \/ d ∈ skipped) then skip_loop fuel dag skipped stack
          else skip_loop fuel dag ({[ d ]} ∪ skipped) (reverse (default [] (dependents dag !! d)) ++ stack)
      end
  end.

Definition edge_count (dag : StageDag) : nat := map_fold (fun _ l n => length l + n)%nat 0%nat (dependents dag).

(** [fail]: the stack is a list whose head is its top. *)
Definition fail_stage (dag : StageDag) (id : Z) : list Z * StageDag :=
  let stack := reverse (default [] (dependents dag !! id)) in
  let sk := skip_loop (S (length stack + edge_count dag)) dag (skipped dag) stack in
  (merge_sort Z.le (elements sk),
   {| deps_remaining := deps_remaining dag; dependents := dependents dag; ready := ready dag;
      completed := completed dag; skipped := sk; total := total dag |}).

(** [unfinished], on [usize]. *)
Definition unfinished (dag : StageDag) : Z :=
  wrapu 64 (total dag - Z.of_nat (size (completed dag)) - Z.of_nat (size (skipped dag))).

(** ** The dispatch loop of [run_stages_concurrent]

    [Running dag in_flight log]: [log] is the order in which stages were
    dispatched.  The checks between [take_ready] and the dispatch (membership,
    cancellation) can only end the query. *)

Inductive DriverState :=
  | Running (dag : StageDag) (in_flight : gset Z) (log : list Z)
  | Returned (r : result Error unit) (dag : StageDag) (log : list Z).

Definition cycle_error (n : Z) : Error :=
  Plan (fmt [lit "stage DAG has a dependency cycle: "; show_u n; lit " stage(s) never became dispatchable"]).

Inductive driver_step : DriverState -> DriverState -> Prop :=
  | step_dispatch dag dag' fl log id :
      take_ready dag = Some (id, dag') ->
      driver_step (Running dag fl log) (Running dag' ({[ id ]} ∪ fl) (log ++ [id]))
  | step_finish dag fl log id :
      take_ready dag = None -> id ∈ fl ->
      driver_step (Running dag fl log) (Running (complete dag id) (fl ∖ {[ id ]}) log)
  | step_fail dag fl log id e :
      take_ready dag = None -> id ∈ fl ->
      driver_step (Running dag fl log) (Returned (Err e) (fail_stage dag id).2 log)
  | step_abort dag fl log e :
      driver_step (Running dag fl log) (Returned (Err e) dag log)
  | step_return dag log :
      take_ready dag = None ->
      driver_step (Running dag ∅ log)
        (Returned (if unfinished dag =? 0 then Ok tt else Err (cycle_error (unfinished dag))) dag log).

(** ** Construction, specified *)

Definition dependents_of (m : gmap Z (list Z)) (d : Z) : list Z := default [] (m !! d).

Lemma push_dependents id m l d :
  NoDup l ->
  dependents_of (foldl (push_dependent id) m l) d =
  dependents_of m d ++ (if bool_decide (d ∈ l) then [id] else []).
Proof.
  intros Hl. revert m. induction Hl as [|a l Ha _ IH]; intros m; cbn [foldl]; [by rewrite app_nil_r|].
  rewrite IH. unfold push_dependent, dependents_of.
  destruct (decide (d = a)) as [->|Hne].
  - rewrite lookup_insert_eq. simpl. rewrite (bool_decide_false (a ∈ l)) by done.
    rewrite bool_decide_true by left. by rewrite app_nil_r.
  - rewrite lookup_insert_ne by done. f_equal. apply (f_equal (fun b : bool => if b then [id] else [])).
    apply bool_decide_ext. rewrite elem_of_cons. naive_solver.
Qed.

Section Dag.
Context (stages : list StageDef) (output_stage_id : Z) (scalar : option Z).
Abbreviation D := (dispatch_set stages output_stage_id).
Abbreviation deps := (stage_deps D scalar).

Lemma elem_of_dispatch s : s ∈ stages -> stage_id s ∈ D <-> stage_id s <> output_stage_id.
Proof.
  intros Hs. unfold dispatch_set. rewrite elem_of_list_to_set, list_elem_of_filter, list_elem_of_fmap. naive_solver.
Qed.

Lemma dispatch_stage id : id ∈ D -> exists s, s ∈ stages /\ stage_id s = id.
Proof.
  unfold dispatch_set. rewrite elem_of_list_to_set, list_elem_of_filter, list_elem_of_fmap. naive_solver.
Qed.

Lemma deps_dispatched s : deps s ⊆ D.
Proof.
  unfold stage_deps.
  assert ((list_to_set (filter (fun u => u ∈ D) (upstream_stage_ids s)) : gset Z) ⊆ D) as Hsub.
  { intros u. rewrite elem_of_list_to_set, list_elem_of_filter. naive_solver. }
  repeat case_match; try done. bool_to_prop. set_solver.
Qed.

(** Waiters on [d]: the dispatched stages that depend on it, in list order. *)
Definition waiters (l : list StageDef) (d : Z) : list Z :=
  stage_id <$> filter (fun s => stage_id s ∈ D /\ d ∈ deps s) l.

Definition built (l : list StageDef) : StageDag :=
  foldl (add_stage D scalar)
    {| deps_remaining := ∅; dependents := ∅; ready := []; completed := ∅; skipped := ∅;
       total := Z.of_nat (size D) |} l.

Lemma built_snoc l s : built (l ++ [s]) = add_stage D scalar (built l) s.
Proof. unfold built. by rewrite foldl_app. Qed.

Lemma built_static l : completed (built l) = ∅ /\ skipped (built l) = ∅ /\ total (built l) = Z.of_nat (size D).
Proof.
  induction l as [|s l IH] using rev_ind; [done|]. rewrite built_snoc. unfold add_stage.
  by destruct (negb _).
Qed.

Lemma built_dependents l d : dependents_of (dependents (built l)) d = waiters l d.
Proof.
  induction l as [|s l IH] using rev_ind; [done|]. rewrite built_snoc.
  unfold waiters. rewrite filter_app, fmap_app, filter_cons, filter_nil. fold (waiters l d). rewrite <-IH.
  unfold add_stage. destruct (bool_decide_reflect (stage_id s ∈ D)) as [Hs|Hs]; simpl negb; cbv iota.
  - cbn [dependents]. rewrite push_dependents by apply NoDup_elements. f_equal.
    destruct (bool_decide_reflect (d ∈ elements (deps s))) as [Hd|Hd]; rewrite elem_of_elements in Hd.
    + by rewrite decide_True.
    + by rewrite decide_False by naive_solver.
  - rewrite decide_False by naive_solver. by rewrite app_nil_r.
Qed.

Lemma built_ready l :
  ready (built l) = stage_id <$> filter (fun s => stage_id s ∈ D /\ deps s = ∅) l.
Proof.
  induction l as [|s l IH] using rev_ind; [done|]. rewrite built_snoc.
  rewrite filter_app, fmap_app, filter_cons, filter_nil, <-IH.
  unfold add_stage. destruct (bool_decide_reflect (stage_id s ∈ D)) as [Hs|Hs]; simpl negb; cbv iota.
  - cbn [ready]. destruct (bool_decide_reflect (deps s = ∅)).
    + by rewrite decide_True.
    + rewrite decide_False by naive_solver. by rewrite app_nil_r.
  - rewrite decide_False by naive_solver. by rewrite app_nil_r.
Qed.

Lemma built_remaining l id n :
  NoDup (stage_id <$> l) ->
  deps_remaining (built l) !! id = Some n <->
  exists s, s ∈ l /\ stage_id s = id /\ id ∈ D /\ n = Z.of_nat (size (deps s)).
Proof.
  induction l as [|s l IH] using rev_ind; intros Hnd.
  { split; [done|]. by intros (s & ?%elem_of_nil & _). }
  rewrite fmap_app in Hnd. apply NoDup_app in Hnd as (Hnd & Hx & _). specialize (IH Hnd).
  rewrite built_snoc. unfold add_stage.
  destruct (bool_decide_reflect (stage_id s ∈ D)) as [Hs|Hs]; simpl negb; cbv iota.
  - cbn [deps_remaining]. destruct (decide (id = stage_id s)) as [->|Hne].
    + rewrite lookup_insert_eq. split.
      * intros [= <-]. exists s. rewrite elem_of_app, list_elem_of_singleton. auto.
      * intros (s' & [Hs'| ->%list_elem_of_singleton]%elem_of_app & E & _ & ->); [|done].
        exfalso. apply (Hx (stage_id s)); [|by left]. rewrite <-E. by apply list_elem_of_fmap_2.
    + rewrite lookup_insert_ne by done. rewrite IH. split.
      * intros (s' & ? & ?). exists s'. rewrite elem_of_app. auto.
      * intros (s' & [Hs'| ->%list_elem_of_singleton]%elem_of_app & E & R); [by exists s'|]. by subst.
  - rewrite IH. split.
    + intros (s' & ? & ?). exists s'. rewrite elem_of_app. auto.
    + intros (s' & [Hs'| ->%list_elem_of_singleton]%elem_of_app & E & Hd & R); [by exists s'|]. by subst.
Qed.

(** ** The loop of [complete] *)

(** [d] waits for at most one more stage. *)
Definition last_dep (rem : gmap Z Z) (d : Z) : bool :=
  match rem !! d with Some n => n <=? 1 | None => false end.

Lemma release_loop rem rdy ds :
  NoDup ds ->
  (foldl release (rem, rdy) ds).2 = rdy ++ filter (fun d => last_dep rem d = true) ds /\
  forall d, (foldl release (rem, rdy) ds).1 !! d =
    if bool_decide (d ∈ ds) then (fun n => sat_subu n 1) <$> rem !! d else rem !! d.
Proof.
  intros Hds. revert rem rdy. induction Hds as [|a ds Ha Hds IH]; intros rem rdy; cbn [foldl].
  { split; [by rewrite filter_nil, app_nil_r|]. intros d. by rewrite bool_decide_false by apply not_elem_of_nil. }
  unfold release at 2 4. simpl fst. simpl snd. destruct (rem !! a) as [n|] eqn:En.
  - destruct (IH (<[a := sat_subu n 1]> rem) (if sat_subu n 1 =? 0 then rdy ++ [a] else rdy)) as [IH2 IH1].
    split.
    + rewrite IH2, filter_cons.
      rewrite (filter_ext_elem _ (fun d => last_dep rem d = true)).
      2:{ intros d Hd. unfold last_dep. by rewrite lookup_insert_ne by (by intros ->). }
      assert (last_dep rem a = (sat_subu n 1 =? 0)) as -> by (unfold last_dep, sat_subu; rewrite En; lia).
      destruct (sat_subu n 1 =? 0); [by rewrite decide_True, <-app_assoc|by rewrite decide_False].
    + intros d. rewrite IH1. destruct (decide (d = a)) as [->|Hne].
      * rewrite bool_decide_false by done. rewrite bool_decide_true by left. by rewrite lookup_insert_eq, En.
      * rewrite lookup_insert_ne by done.
        by rewrite (bool_decide_ext (d ∈ a :: ds) (d ∈ ds)) by (rewrite elem_of_cons; naive_solver).
  - destruct (IH rem rdy) as [IH2 IH1]. split.
    + rewrite IH2, filter_cons, decide_False; [done|]. unfold last_dep. by rewrite En.
    + intros d. rewrite IH1. destruct (decide (d = a)) as [->|Hne].
      * rewrite bool_decide_false by done. rewrite bool_decide_true by left. by rewrite En.
      * by rewrite (bool_decide_ext (d ∈ a :: ds) (d ∈ ds)) by (rewrite elem_of_cons; naive_solver).
Qed.

(** ** The invariant of the loop *)

Context (Hids : NoDup (stage_id <$> stages)).

Lemma stage_unique s s' : s ∈ stages -> s' ∈ stages -> stage_id s = stage_id s' -> s = s'.
Proof.
  intros Hs Hs' E. apply list_elem_of_lookup in Hs as [i Hi]. apply list_elem_of_lookup in Hs' as [j Hj].
  assert (i = j) as ->; [|congruence].
  eapply (NoDup_lookup (stage_id <$> stages)); [done| |].
  - rewrite list_lookup_fmap, Hi. done.
  - rewrite list_lookup_fmap, Hj. simpl. by rewrite E.
Qed.

Lemma NoDup_waiters d : NoDup (waiters stages d).
Proof.
  unfold waiters. eapply sublist_NoDup; [exact Hids|]. apply fmap_sublist, sublist_filter.
Qed.

Lemma elem_of_waiters d s : s ∈ stages -> stage_id s ∈ D -> stage_id s ∈ waiters stages d <-> d ∈ deps s.
Proof.
  intros Hs Hd. unfold waiters. rewrite list_elem_of_fmap. split.
  - intros (s' & E & [[_ Hw] Hs']%list_elem_of_filter). by rewrite (stage_unique s s').
  - intros Hw. exists s. split; [done|]. by apply list_elem_of_filter.
Qed.

Record dag_inv (dag : StageDag) (fl : gset Z) (log : list Z) : Prop := {
  inv_dependents : forall d, dependents_of (dependents dag) d = waiters stages d;
  inv_domain : forall id, is_Some (deps_remaining dag !! id) <-> id ∈ D;
  inv_remaining : forall s, s ∈ stages -> stage_id s ∈ D ->
    deps_remaining dag !! stage_id s = Some (Z.of_nat (size (deps s ∖ completed dag)));
  inv_totals : skipped dag = ∅ /\ total dag = Z.of_nat (size D);
  inv_nodup : NoDup (log ++ ready dag);
  inv_released : forall s, s ∈ stages -> stage_id s ∈ D ->
    stage_id s ∈ log ++ ready dag <-> deps s ⊆ completed dag;
  inv_known : forall id, id ∈ log ++ ready dag -> id ∈ D;
  inv_log : forall id, id ∈ log <-> id ∈ fl \/ id ∈ completed dag;
  inv_disjoint : fl ## completed dag;
}.

Lemma inv_new : dag_inv (dag_new stages output_stage_id scalar) ∅ [].
Proof.
  change (dag_new stages output_stage_id scalar) with (built stages).
  destruct (built_static stages) as (Ec & Es & Et).
  constructor; try done.
  - intros d. apply built_dependents.
  - intros id. split.
    + intros [n Hn]. apply built_remaining in Hn as (s & _ & _ & ? & _); [done|done].
    + intros Hid. destruct (dispatch_stage _ Hid) as (s & Hs & <-). eexists. apply built_remaining; [done|].
      by exists s.
  - intros s Hs Hd. apply built_remaining; [done|]. exists s. rewrite Ec, difference_empty_L. done.
  - simpl. rewrite built_ready. eapply sublist_NoDup; [exact Hids|]. apply fmap_sublist, sublist_filter.
  - intros s Hs Hd. simpl. rewrite built_ready, list_elem_of_fmap, Ec. split.
    + intros (s' & E & [[_ He] Hs']%list_elem_of_filter). rewrite (stage_unique s s') by done. by rewrite He.
    + intros Hsub. exists s. split; [done|]. apply list_elem_of_filter. split; [|done]. split; [done|set_solver].
  - intros id. simpl. rewrite built_ready, list_elem_of_fmap. intros (s & -> & [[? _] _]%list_elem_of_filter). done.
  - intros id. rewrite Ec. set_solver.
Qed.

Lemma inv_dispatch dag dag' fl log id :
  dag_inv dag fl log -> take_ready dag = Some (id, dag') -> dag_inv dag' ({[ id ]} ∪ fl) (log ++ [id]).
Proof.
  intros [I1 I2 I3 I4 I5 I6 I7 I8 I9] Ht. unfold take_ready in Ht.
  destruct (ready dag) as [|x rest] eqn:Er; [done|]. injection Ht as -> <-.
  assert (id ∉ log) as Hnew.
  { apply NoDup_app in I5 as (_ & Hx & _). intros Hin. apply (Hx id Hin). left. }
  constructor; cbn [deps_remaining dependents ready completed skipped total]; rewrite <-?app_assoc; try done.
  - intros id'. rewrite elem_of_app, I8, list_elem_of_singleton. set_solver.
  - assert (id ∉ completed dag) by (intros Hc; apply Hnew, I8; by right). set_solver.
Qed.

Lemma complete_eq dag id :
  id ∈ D -> id ∉ completed dag -> (forall i, is_Some (deps_remaining dag !! i) <-> i ∈ D) ->
  complete dag id =
  let p := foldl release (deps_remaining dag, ready dag) (dependents_of (dependents dag) id) in
  {| deps_remaining := p.1; dependents := dependents dag; ready := p.2;
     completed := {[ id ]} ∪ completed dag; skipped := skipped dag; total := total dag |}.
Proof.
  intros Hid Hc Hdom. unfold complete, dependents_of.
  rewrite bool_decide_true by (by apply Hdom). rewrite bool_decide_false by done. simpl negb. simpl orb. cbv iota.
  destruct (dependents dag !! id) as [l|]; simpl; [|done]. by destruct (foldl _ _ _).
Qed.

(** One more completed stage takes one off what its waiters wait for. *)
Lemma size_remaining (X C : gset Z) id :
  id ∈ X -> id ∉ C ->
  (1 <= size (X ∖ C))%nat /\ size (X ∖ ({[ id ]} ∪ C)) = (size (X ∖ C) - 1)%nat /\
  ((size (X ∖ C) <= 1)%nat <-> X ⊆ {[ id ]} ∪ C).
Proof.
  intros Hx Hc. assert (X ∖ ({[ id ]} ∪ C) = (X ∖ C) ∖ {[ id ]}) as -> by set_solver.
  assert ({[ id ]} ⊆ X ∖ C) as Hsub by set_solver.
  pose proof (size_difference (X ∖ C) {[ id ]} Hsub) as Hsz. rewrite size_singleton in Hsz.
  pose proof (subseteq_size _ _ Hsub) as Hge. rewrite size_singleton in Hge.
  split_and!; [done|done|]. split.
  - intros Hle. assert (size ((X ∖ C) ∖ {[ id ]}) = 0%nat) as H0 by lia.
    apply size_empty_inv in H0. intros y Hy. destruct (decide (y ∈ C)); [set_solver|].
    destruct (decide (y = id)); set_solver.
  - intros HX. assert ((X ∖ C) ∖ {[ id ]} = ∅) as E by set_solver. rewrite E, size_empty in Hsz. lia.
Qed.

Lemma inv_finish dag fl log id :
  dag_inv dag fl log -> id ∈ fl -> dag_inv (complete dag id) (fl ∖ {[ id ]}) log.
Proof.
  intros [I1 I2 I3 I4 I5 I6 I7 I8 I9] Hfl.
  assert (id ∈ log) as Hlog by (apply I8; by left).
  assert (id ∈ D) as Hd by (apply I7, elem_of_app; by left).
  assert (id ∉ completed dag) as Hc by set_solver.
  rewrite (complete_eq dag id Hd Hc I2), I1.
  destruct (release_loop (deps_remaining dag) (ready dag) (waiters stages id) (NoDup_waiters id)) as [Er Erem].
  set (p := foldl release _ _) in *. cbv zeta.
  assert (forall s, s ∈ stages -> stage_id s ∈ D -> stage_id s ∈ filter (fun d => last_dep (deps_remaining dag) d = true) (waiters stages id)
    <-> id ∈ deps s /\ deps s ⊆ {[ id ]} ∪ completed dag) as Hnew.
  { intros s Hs HsD. rewrite list_elem_of_filter, elem_of_waiters by done. unfold last_dep. rewrite I3 by done.
    split.
    - intros [Hle Hw]. destruct (size_remaining (deps s) (completed dag) id Hw Hc) as (_ & _ & Hiff).
      split; [done|]. apply Hiff. bool_to_prop. lia.
    - intros [Hw Hsub]. destruct (size_remaining (deps s) (completed dag) id Hw Hc) as (_ & _ & Hiff).
      apply Hiff in Hsub. split; [lia|done]. }
  assert (forall x, x ∈ filter (fun d => last_dep (deps_remaining dag) d = true) (waiters stages id) ->
    exists s, s ∈ stages /\ stage_id s ∈ D /\ x = stage_id s) as Hst.
  { intros x [_ Hx]%list_elem_of_filter. unfold waiters in Hx.
    apply list_elem_of_fmap in Hx as (s & -> & [[? _] ?]%list_elem_of_filter). by exists s. }
  constructor; cbn [deps_remaining dependents ready completed skipped total]; rewrite ?Er; try done.
  - intros i. rewrite Erem. destruct (bool_decide _); rewrite ?fmap_is_Some; apply I2.
  - intros s Hs HsD. rewrite Erem, I3 by done.
    destruct (bool_decide_reflect (stage_id s ∈ waiters stages id)) as [Hw|Hw]; rewrite elem_of_waiters in Hw by done.
    + destruct (size_remaining (deps s) (completed dag) id Hw Hc) as (Hge & -> & _). simpl. f_equal.
      unfold sat_subu. lia.
    + do 3 f_equal. set_solver.
  - rewrite app_assoc. apply NoDup_app. split_and!; [done| |apply NoDup_filter, NoDup_waiters].
    intros x Hx Hin. destruct (Hst x Hin) as (s & Hs & HsD & ->).
    apply Hnew in Hin as [Hw _]; [|done|done]. apply (I6 s Hs HsD) in Hx. set_solver.
  - intros s Hs HsD. rewrite app_assoc, elem_of_app, (I6 s Hs HsD), Hnew by done. split.
    + intros [?|[_ ?]]; [set_solver|done].
    + intros Hsub. destruct (decide (id ∈ deps s)); [by right|left]. set_solver.
  - intros x. rewrite app_assoc, elem_of_app. intros [Hx|Hx]; [by apply I7|].
    destruct (Hst x Hx) as (s & _ & HsD & ->). done.
  - intros x. rewrite I8. destruct (decide (x = id)); set_solver.
  - set_solver.
Qed.

(** ** Reachable states *)

Definition driver_start : DriverState := Running (dag_new stages output_stage_id scalar) ∅ [].
Definition reachable (st : DriverState) : Prop := rtc driver_step driver_start st.

Definition state_inv (st : DriverState) : Prop :=
  match st with Running dag fl log => dag_inv dag fl log | Returned _ _ _ => True end.

Lemma reachable_inv st : reachable st -> state_inv st.
Proof.
  revert st. apply (rtc_ind_r (R := driver_step) state_inv driver_start); [apply inv_new|].
  intros x y _ Hxy Hx. destruct Hxy; simpl in *; try done.
  - by eapply inv_dispatch.
  - by apply inv_finish.
Qed.

(** C4. A stage is dispatched only when every stage it depends on has completed
    its barrier, and never twice, in every interleaving of completions. *)
Theorem dispatch_waits_for_upstreams dag dag' fl log id s :
  reachable (Running dag fl log) -> take_ready dag = Some (id, dag') -> s ∈ stages -> stage_id s = id ->
  deps s ⊆ completed dag /\ id ∉ log.
Proof.
  intros Hr Ht Hs <-. destruct (reachable_inv _ Hr) as [_ _ _ _ I5 I6 I7 _ _].
  unfold take_ready in Ht. destruct (ready dag) as [|x rest] eqn:Er; [done|]. injection Ht as -> <-.
  assert (stage_id s ∈ log ++ stage_id s :: rest) as Hin by (apply elem_of_app; right; left).
  split; [apply (I6 s Hs (I7 _ Hin)); exact Hin|].
  apply NoDup_app in I5 as (_ & Hx & _). intros Hl. apply (Hx _ Hl). left.
Qed.

Lemma quiet_log dag fl log : dag_inv dag fl log -> take_ready dag = None -> ready dag = [].
Proof. intros _ Ht. unfold take_ready in Ht. by destruct (ready dag). Qed.

Lemma completed_dispatched dag fl log : dag_inv dag fl log -> completed dag ⊆ D.
Proof. intros I x Hx. apply (inv_known _ _ _ I), elem_of_app. left. apply (inv_log _ _ _ I). by right. Qed.

Lemma size_dispatch : Z.of_nat (size D) <= Z.of_nat (length stages).
Proof.
  unfold dispatch_set. rewrite size_list_to_set.
  - apply inj_le. etrans; [apply length_filter|]. by rewrite length_fmap.
  - by apply NoDup_filter.
Qed.

Lemma unfinished_eq dag fl log :
  Z.of_nat (length stages) <= i_max 64 -> dag_inv dag fl log ->
  unfinished dag = Z.of_nat (size (D ∖ completed dag)).
Proof.
  intros Hsmall I. destruct (inv_totals _ _ _ I) as [Es Et]. unfold unfinished. rewrite Es, Et, size_empty.
  pose proof (completed_dispatched _ _ _ I) as Hc. pose proof (subseteq_size _ _ Hc).
  rewrite (size_difference D (completed dag) Hc). pose proof size_dispatch.
  rewrite wrapu_small; [lia| |lia]. unfold u_ok, u_max, i_max in *. lia.
Qed.

(** When nothing is ready or in flight, every stage that has not completed
    waits for another such stage. *)
Lemma quiet_stuck dag log s :
  dag_inv dag ∅ log -> take_ready dag = None -> s ∈ stages -> stage_id s ∈ D ∖ completed dag ->
  exists d, d ∈ deps s /\ d ∈ D ∖ completed dag.
Proof.
  intros I Ht Hs [Hd Hc]%elem_of_difference. pose proof (quiet_log _ _ _ I Ht) as Er.
  assert (~ deps s ⊆ completed dag) as Hnot.
  { intros Hsub. apply (inv_released _ _ _ I s Hs Hd) in Hsub. rewrite Er, app_nil_r in Hsub.
    apply (inv_log _ _ _ I) in Hsub. set_solver. }
  destruct (set_choose_or_empty (deps s ∖ completed dag)) as [[d Hx]|E].
  2:{ exfalso. apply Hnot. intros x Hx. destruct (decide (x ∈ completed dag)); [done|set_solver]. }
  exists d. split; [set_solver|]. pose proof (deps_dispatched s). set_solver.
Qed.

(** With an acyclic plan (some ranking puts every stage above the stages it
    depends on), when nothing is ready or in flight every stage was dispatched
    exactly once and has completed. *)
Lemma quiet_complete dag log (rank : Z -> nat) :
  Z.of_nat (length stages) <= i_max 64 ->
  reachable (Running dag ∅ log) -> take_ready dag = None ->
  (forall s d, s ∈ stages -> stage_id s ∈ D -> d ∈ deps s -> (rank d < rank (stage_id s))%nat) ->
  completed dag = D /\ log ≡ₚ elements D /\ unfinished dag = 0.
Proof.
  intros Hsmall Hr Ht Hrank. pose proof (reachable_inv _ Hr) as I. cbn [state_inv] in I.
  assert (forall n s, s ∈ stages -> (rank (stage_id s) < n)%nat -> stage_id s ∈ D -> stage_id s ∈ completed dag) as Hall.
  { induction n as [|n IH]; intros s Hs Hn Hd; [lia|].
    destruct (decide (stage_id s ∈ completed dag)) as [|Hc]; [done|exfalso].
    assert (stage_id s ∈ D ∖ completed dag) as Hdc0 by (by apply elem_of_difference).
    destruct (quiet_stuck dag log s I Ht Hs Hdc0) as (d & Hdep & [HdD Hdc]%elem_of_difference).
    destruct (dispatch_stage _ HdD) as (s' & Hs' & <-). apply Hdc.
    apply (IH s'); [done| |done]. specialize (Hrank s _ Hs Hd Hdep). lia. }
  assert (completed dag = D) as Ec.
  { apply set_eq. intros x. split; [apply (completed_dispatched _ _ _ I)|]. intros Hx.
    destruct (dispatch_stage _ Hx) as (s & Hs & <-).
    apply (Hall (S (rank (stage_id s))) s Hs ltac:(lia) Hx). }
  split_and!; [done| |].
  - apply NoDup_Permutation; [|apply NoDup_elements|].
    + pose proof (inv_nodup _ _ _ I) as Hn. by apply NoDup_app in Hn as (? & _).
    + intros x. rewrite (inv_log _ _ _ I), Ec, elem_of_elements. set_solver.
  - rewrite (unfinished_eq _ _ _ Hsmall I), Ec, difference_diag_L, size_empty. done.
Qed.

(** The cycle error is never a false alarm: when it is reported there is a
    non-empty set of stages, none completed, each depending on another of
    them. *)
Theorem cycle_error_means_cycle dag log :
  Z.of_nat (length stages) <= i_max 64 ->
  reachable (Running dag ∅ log) -> take_ready dag = None -> unfinished dag <> 0 ->
  D ∖ completed dag <> ∅ /\
  forall s, s ∈ stages -> stage_id s ∈ D ∖ completed dag -> exists d, d ∈ deps s /\ d ∈ D ∖ completed dag.
Proof.
  intros Hsmall Hr Ht Hu. pose proof (reachable_inv _ Hr) as I. cbn [state_inv] in I.
  rewrite (unfinished_eq _ _ _ Hsmall I) in Hu. split.
  - intros E. rewrite E, size_empty in Hu. done.
  - intros s Hs Hd. by eapply quiet_stuck.
Qed.

Lemma steps_counted n dag fl log :
  nsteps driver_step n driver_start (Running dag fl log) ->
  n = (length log + size (completed dag))%nat.
Proof.
  revert dag fl log. induction n as [|n IH]; intros dag fl log Hn.
  - inversion Hn; subst. simpl. destruct (built_static stages) as (E & _).
    unfold dag_new. fold (built stages). by rewrite E, size_empty.
  - apply nsteps_inv_r in Hn as (st & Hst & Hlast).
    inversion Hlast as [dag0 dag1 fl0 log0 id Ht|dag0 fl0 log0 id Ht Hid| | |]; subst; simplify_eq.
    + rewrite (IH _ _ _ Hst). unfold take_ready in Ht. destruct (ready dag0); [done|]. injection Ht as -> <-.
      cbn [completed]. rewrite length_app. simpl. lia.
    + pose proof (reachable_inv _ (rtc_nsteps_2 _ _ _ Hst)) as I. cbn [state_inv] in I.
      assert (id ∈ log) as Hlog by (apply (inv_log _ _ _ I); by left).
      assert (id ∈ D) as Hd by (apply (inv_known _ _ _ I), elem_of_app; by left).
      assert (id ∉ completed dag0) as Hc by (pose proof (inv_disjoint _ _ _ I); set_solver).
      rewrite (IH _ _ _ Hst), (complete_eq dag0 id Hd Hc (inv_domain _ _ _ I)). cbn [completed].
      rewrite size_union, size_singleton by set_solver. lia.
Qed.

(** The dispatch loop ends: no run takes more than two steps per stage (a
    dispatch and a completion) before it returns. *)
Lemma dispatch_bound n dag fl log :
  nsteps driver_step n driver_start (Running dag fl log) -> Z.of_nat n <= 2 * Z.of_nat (size D).
Proof.
  intros Hn. rewrite (steps_counted _ _ _ _ Hn).
  pose proof (reachable_inv _ (rtc_nsteps_2 _ _ _ Hn)) as I. cbn [state_inv] in I.
  pose proof (subseteq_size _ _ (completed_dispatched _ _ _ I)).
  pose proof (inv_nodup _ _ _ I) as Hnd. apply NoDup_app in Hnd as (Hnd & _).
  assert (length log <= size D)%nat; [|lia].
  rewrite <-(size_list_to_set (C := gset Z) log Hnd). apply subseteq_size. intros x Hx.
  apply elem_of_list_to_set in Hx. apply (inv_known _ _ _ I), elem_of_app. by left.
Qed.

(** The steps of the loop that are neither a failed stage nor an abort. *)
Inductive smooth_step : DriverState -> DriverState -> Prop :=
  | smooth_dispatch dag dag' fl log id :
      take_ready dag = Some (id, dag') ->
      smooth_step (Running dag fl log) (Running dag' ({[ id ]} ∪ fl) (log ++ [id]))
  | smooth_finish dag fl log id :
      take_ready dag = None -> id ∈ fl ->
      smooth_step (Running dag fl log) (Running (complete dag id) (fl ∖ {[ id ]}) log)
  | smooth_return dag log :
      take_ready dag = None ->
      smooth_step (Running dag ∅ log)
        (Returned (if unfinished dag =? 0 then Ok tt else Err (cycle_error (unfinished dag))) dag log).

Lemma smooth_driver st st' : smooth_step st st' -> driver_step st st'.
Proof. intros []; by econstructor. Qed.

(** The loop is never stuck: ready stages are dispatched, else one of those in
    flight finishes, else it returns. *)
Lemma smooth_progress dag fl log : exists st, smooth_step (Running dag fl log) st.
Proof.
  destruct (take_ready dag) as [[id dag']|] eqn:Et; [eexists; by econstructor|].
  destruct (set_choose_or_empty fl) as [[id Hid]|E]; [eexists; by eapply smooth_finish|].
  apply leibniz_equiv in E as ->. eexists. by apply smooth_return.
Qed.

Lemma smooth_steps n st : nsteps smooth_step n driver_start st -> nsteps driver_step n driver_start st.
Proof. induction 1; [apply nsteps_O|eapply nsteps_l; [by apply smooth_driver|done]]. Qed.

(** C26. On an acyclic plan with distinct stage ids, as long as no stage fails and
    the query is not aborted, the dispatch loop finishes the query whatever the
    order of completions: such a run takes at most two steps per stage and the
    return, and a run that cannot go on has returned success with every stage
    dispatched once and completed.  With failures or aborts it may stop
    earlier, with an error; whatever happened, success is returned only with
    every stage completed. *)
Theorem concurrent_dispatch_complete (rank : Z -> nat) :
  Z.of_nat (length stages) <= i_max 64 ->
  (forall s d, s ∈ stages -> stage_id s ∈ D -> d ∈ deps s -> (rank d < rank (stage_id s))%nat) ->
  (forall n st, nsteps smooth_step n driver_start st ->
    Z.of_nat n <= 2 * Z.of_nat (size D) + 1 /\
    ((forall st', ~ smooth_step st st') ->
      exists dag log, st = Returned (Ok tt) dag log /\ completed dag = D /\ log ≡ₚ elements D)) /\
  (forall dag log, reachable (Returned (Ok tt) dag log) -> completed dag = D /\ log ≡ₚ elements D).
Proof.
  intros Hsmall Hrank. split.
  - intros n st Hn. destruct st as [dag fl log|r dag log].
    + pose proof (dispatch_bound n dag fl log (smooth_steps _ _ Hn)). split; [lia|]. intros Hstuck.
      destruct (smooth_progress dag fl log) as [st Hst]. by apply Hstuck in Hst.
    + destruct n as [|n]; [by inversion Hn|]. apply nsteps_inv_r in Hn as (st & Hst & Hlast).
      pose proof (smooth_steps _ _ Hst) as Hd. inversion Hlast as [| |dag0 log0 Ht]; subst.
      pose proof (dispatch_bound _ _ _ _ Hd). split; [lia|]. intros _. exists dag, log.
      destruct (quiet_complete dag log rank Hsmall (rtc_nsteps_2 _ _ _ Hd) Ht Hrank) as (Ec & El & Eu).
      by rewrite Eu.
  - intros dag log Hr. apply rtc_inv_r in Hr as [[=]|(st & Hst & Hlast)].
    inversion Hlast as [| | | |dag0 log0 Ht E]; subst.
    destruct (quiet_complete dag log rank Hsmall Hst Ht Hrank) as (Ec & El & _). by split.
Qed.

(** ** Skipping the dependents of a failed stage *)

Definition edges_from (m : gmap Z (list Z)) (sk : gset Z) : nat :=
  map_fold (fun _ l n => length l + n)%nat 0%nat (filter (fun kv => kv.1 ∉ sk) m).

Lemma edges_from_skip m sk d :
  d ∉ sk -> (length (dependents_of m d) + edges_from m ({[ d ]} ∪ sk) = edges_from m sk)%nat.
Proof.
  intros Hd. unfold edges_from, dependents_of.
  assert (filter (fun kv : Z * list Z => kv.1 ∉ {[ d ]} ∪ sk) m = delete d (filter (fun kv => kv.1 ∉ sk) m)) as ->.
  { apply map_eq. intros i. destruct (decide (i = d)) as [->|Hne].
    - rewrite lookup_delete_eq. apply map_lookup_filter_None. right. intros x _. simpl. set_solver.
    - rewrite lookup_delete_ne by done. destruct (decide (i ∈ sk)).
      + rewrite !(proj2 (map_lookup_filter_None _ _ _)); [done| |]; right; intros x _; simpl; set_solver.
      + destruct (m !! i) as [l|] eqn:E.
        * rewrite !(proj2 (map_lookup_filter_Some _ _ _ l)); [done| |]; (split; [done|simpl; set_solver]).
        * rewrite !(proj2 (map_lookup_filter_None _ _ _)); [done| |]; by left. }
  destruct (m !! d) as [l|] eqn:E; simpl.
  - rewrite <-(map_fold_delete_L (fun _ l n => length l + n)%nat 0%nat d l); [done|intros; lia|].
    apply map_lookup_filter_Some. done.
  - rewrite delete_id; [done|]. apply map_lookup_filter_None. by left.
Qed.

Lemma edges_from_none m : edges_from m ∅ = map_fold (fun _ l n => length l + n)%nat 0%nat m.
Proof. unfold edges_from. rewrite map_filter_id; [done|]. intros i x _. simpl. set_solver. Qed.

Lemma edges_from_le m sk : (edges_from m sk <= edges_from m ∅)%nat.
Proof.
  induction sk as [|d sk Hd IH] using set_ind_L; [done|].
  pose proof (edges_from_skip m sk d Hd). lia.
Qed.

Lemma skip_loop_sound f dag sk stack x :
  x ∈ skip_loop f dag sk stack ->
  x ∈ sk \/ exists y, y ∈ stack /\ rtc (fun a b => b ∈ dependents_of (dependents dag) a) y x.
Proof.
  revert sk stack. induction f as [|f IH]; intros sk stack Hx; cbn [skip_loop] in Hx; [by left|].
  destruct stack as [|d stack]; [by left|].
  destruct (bool_decide _).
  - destruct (IH _ _ Hx) as [?|(y & Hy & Hr)]; [by left|]. right. exists y. split; [by right|done].
  - destruct (IH _ _ Hx) as [[->%elem_of_singleton|?]%elem_of_union|(y & [Hy|Hy]%elem_of_app & Hr)].
    + right. exists d. split; [left|done].
    + by left.
    + rewrite elem_of_reverse in Hy. right. exists d. split; [left|]. by eapply rtc_l.
    + right. exists y. split; [by right|done].
Qed.

Lemma skip_loop_closed f dag sk stack :
  (length stack + edges_from (dependents dag) sk < f)%nat ->
  (forall a b, a ∈ sk -> b ∈ dependents_of (dependents dag) a -> b ∈ sk \/ b ∈ stack \/ b ∈ completed dag) ->
  sk ⊆ skip_loop f dag sk stack /\
  (forall a, a ∈ stack -> a ∈ skip_loop f dag sk stack \/ a ∈ completed dag) /\
  (forall a b, a ∈ skip_loop f dag sk stack -> b ∈ dependents_of (dependents dag) a ->
     b ∈ skip_loop f dag sk stack \/ b ∈ completed dag).
Proof.
  revert sk stack. induction f as [|f IH]; intros sk stack Hf Hcl; [lia|].
  cbn [skip_loop]. destruct stack as [|d stack].
  { split_and!; [done|by intros ? ?%elem_of_nil|]. intros a b Ha Hb.
    destruct (Hcl a b Ha Hb) as [?|[?%elem_of_nil|?]]; [by left|done|by right]. }
  destruct (bool_decide_reflect (d ∈ completed dag \/ d ∈ sk)) as [Hd|Hd].
  - simpl in Hf. destruct (IH sk stack ltac:(lia)) as (H1 & H2 & H3).
    { intros a b Ha Hb. destruct (Hcl a b Ha Hb) as [?|[[->|?]%elem_of_cons|?]]; auto.
      destruct Hd; auto. }
    split_and!; [done| |done]. intros a [->|Ha]%elem_of_cons; [|by apply H2]. destruct Hd; [by right|left; by apply H1].
  - assert (d ∉ sk) as Hds by tauto. pose proof (edges_from_skip (dependents dag) sk d Hds) as He.
    fold (dependents_of (dependents dag) d).
    destruct (IH ({[ d ]} ∪ sk) (reverse (dependents_of (dependents dag) d) ++ stack)) as (H1 & H2 & H3).
    { rewrite length_app, length_reverse. simpl in Hf. lia. }
    { intros a b [->%elem_of_singleton|Ha]%elem_of_union Hb.
      - right. left. apply elem_of_app. left. by rewrite elem_of_reverse.
      - destruct (Hcl a b Ha Hb) as [?|[[->|?]%elem_of_cons|?]]; set_solver. }
    split_and!; [set_solver| |done].
    intros a [->|Ha]%elem_of_cons; [left; set_solver|]. apply H2, elem_of_app. by right.
Qed.

(** C33. When a stage fails, the stages reported as skipped are exactly its
    transitive dependents, in increasing order: everything that waits for it
    and nothing else. *)
Theorem fail_skips_dependents dag fl log id :
  reachable (Running dag fl log) -> id ∈ fl ->
  StronglySorted Z.le (fail_stage dag id).1 /\
  forall x, x ∈ (fail_stage dag id).1 <-> tc (fun a b => b ∈ waiters stages a) id x.
Proof.
  intros Hr Hfl. pose proof (reachable_inv _ Hr) as I. cbn [state_inv] in I.
  destruct (inv_totals _ _ _ I) as [Es _]. unfold fail_stage. rewrite Es. fold (dependents_of (dependents dag) id).
  set (stack := reverse (dependents_of (dependents dag) id)).
  assert ((length stack + edges_from (dependents dag) ∅ < S (length stack + edge_count dag))%nat) as Hfuel.
  { unfold edge_count. rewrite edges_from_none. lia. }
  set (S0 := skip_loop _ _ _ _). cbn [fst].
  assert (forall a b, b ∈ dependents_of (dependents dag) a <-> b ∈ waiters stages a) as Edep
    by (intros a b; by rewrite (inv_dependents _ _ _ I)).
  (* whatever waits for a stage that has not completed has not completed *)
  assert (forall a b, b ∈ waiters stages a -> a ∉ completed dag -> b ∉ completed dag) as Hnc.
  { intros a b Hb Ha Hbc. assert (b ∈ log) as Hbl by (apply (inv_log _ _ _ I); by right).
    pose proof Hb as Hb'. unfold waiters in Hb'. apply list_elem_of_fmap in Hb' as (s & -> & [[HsD Hw] Hs]%list_elem_of_filter).
    assert (deps s ⊆ completed dag) by (apply (inv_released _ _ _ I s Hs HsD), elem_of_app; by left). set_solver. }
  assert (id ∉ completed dag) as Hid by (pose proof (inv_disjoint _ _ _ I); set_solver).
  split; [apply StronglySorted_merge_sort; apply _|].
  intros x. rewrite (merge_sort_Permutation Z.le), elem_of_elements. split.
  - intros Hx. destruct (skip_loop_sound _ _ _ _ _ Hx) as [?|(y & Hy & Hyx)]; [set_solver|].
    subst stack. rewrite elem_of_reverse, Edep in Hy.
    eapply tc_rtc_r; [by apply tc_once|]. eapply rtc_subrel; [|exact Hyx]. intros a b. by rewrite Edep.
  - intros Hx.
    destruct (skip_loop_closed _ dag ∅ stack Hfuel ltac:(intros a b Ha; set_solver)) as (_ & H2 & H3).
    fold S0 in H2, H3.
    assert (x ∈ S0 /\ x ∉ completed dag) as [? _]; [|done].
    revert x Hx. apply (tc_ind_r (R := fun a b => b ∈ waiters stages a) (fun x => x ∈ S0 /\ x ∉ completed dag) id).
    + intros y Hy. pose proof (Hnc id y Hy Hid). split; [|done].
      destruct (H2 y); [subst stack; rewrite elem_of_reverse, Edep; done|done|done].
    + intros y z _ Hz [Hy Hyc]. pose proof (Hnc y z Hz Hyc). split; [|done].
      destruct (H3 y z Hy); [by apply Edep|done|done].
Qed.
End Dag.

(** ** A diamond: two scans, their join, and the output stage *)
Module DagRuns.

Definition stage (id : Z) (ups : list Z) : StageDef :=
  {| stage_id := id; stage_sql := lit "SELECT 1"; upstream_stage_ids := ups; stage_exchange := Hash |}.
Definition diamond : list StageDef := [stage 0 []; stage 1 []; stage 2 [0; 1]; stage 3 [2]].

Definition next (d : StageDag) : StageDag := match take_ready d with Some (_, d') => d' | None => d end.
Definition d0 : StageDag := dag_new diamond 3 None.
Definition d2 : StageDag := next (next d0).
Definition d4 : StageDag := complete (complete d2 1) 0.
Definition d6 : StageDag := complete (next d4) 2.

Lemma diamond_ids : NoDup (stage_id <$> diamond).
Proof. apply (bool_decide_unpack _). by vm_compute. Qed.

Lemma steps_d2 : nsteps driver_step 2 (driver_start diamond 3 None) (Running d2 {[ 0; 1 ]} [0; 1]).
Proof.
  eapply nsteps_l; [apply (step_dispatch d0 (next d0) ∅ [] 0); vm_compute; reflexivity|].
  eapply nsteps_l; [apply (step_dispatch (next d0) d2 _ _ 1); vm_compute; reflexivity|].
  replace ({[1]} ∪ ({[0]} ∪ ∅) : gset Z) with ({[0; 1]} : gset Z) by (vm_compute; reflexivity).
  apply nsteps_O.
Qed.

Lemma reach_d2 : reachable diamond 3 None (Running d2 {[ 0; 1 ]} [0; 1]).
Proof. eapply rtc_nsteps_2, steps_d2. Qed.

Lemma reach_d4 : reachable diamond 3 None (Running d4 ∅ [0; 1]).
Proof.
  eapply rtc_r; [eapply rtc_r; [apply reach_d2|]|].
  - apply (step_finish d2 _ _ 1); [vm_compute; reflexivity|set_solver].
  - replace (∅ : gset Z) with (({[0; 1]} ∖ {[1]}) ∖ {[0]} : gset Z) by (vm_compute; reflexivity).
    apply (step_finish (complete d2 1) _ _ 0); [vm_compute; reflexivity|set_solver].
Qed.

Lemma reach_d6 : reachable diamond 3 None (Running d6 ∅ [0; 1; 2]).
Proof.
  eapply rtc_r; [eapply rtc_r; [apply reach_d4|]|].
  - apply (step_dispatch d4 (next d4) _ _ 2). vm_compute. reflexivity.
  - replace (∅ : gset Z) with (({[2]} ∪ ∅) ∖ {[2]} : gset Z) by (vm_compute; reflexivity).
    apply (step_finish (next d4) _ _ 2); [vm_compute; reflexivity|set_solver].
Qed.

Lemma dispatch_waits_for_upstreams_witness :
  stage_deps (dispatch_set diamond 3) None (stage 2 [0; 1]) ⊆ completed d4 /\ 2 ∉ [0; 1].
Proof.
  refine (dispatch_waits_for_upstreams diamond 3 None diamond_ids d4 (next d4) ∅ [0; 1] 2 (stage 2 [0; 1])
            reach_d4 _ _ eq_refl); [vm_compute; reflexivity|]. right. right. left.
Defined.

Lemma smooth_d2 : nsteps smooth_step 2 (driver_start diamond 3 None) (Running d2 {[ 0; 1 ]} [0; 1]).
Proof.
  eapply nsteps_l; [apply (smooth_dispatch d0 (next d0) ∅ [] 0); vm_compute; reflexivity|].
  eapply nsteps_l; [apply (smooth_dispatch (next d0) d2 _ _ 1); vm_compute; reflexivity|].
  replace ({[1]} ∪ ({[0]} ∪ ∅) : gset Z) with ({[0; 1]} : gset Z) by (vm_compute; reflexivity).
  apply nsteps_O.
Qed.

Lemma smooth_d4 : nsteps smooth_step 2 (Running d2 {[ 0; 1 ]} [0; 1]) (Running d4 ∅ [0; 1]).
Proof.
  eapply nsteps_l; [apply (smooth_finish d2 _ _ 1); [vm_compute; reflexivity|set_solver]|].
  replace (∅ : gset Z) with (({[0; 1]} ∖ {[1]}) ∖ {[0]} : gset Z) by (vm_compute; reflexivity).
  apply nsteps_once, (smooth_finish (complete d2 1) _ _ 0); [vm_compute; reflexivity|set_solver].
Qed.

Lemma smooth_d6 : nsteps smooth_step 2 (Running d4 ∅ [0; 1]) (Running d6 ∅ [0; 1; 2]).
Proof.
  eapply nsteps_l; [apply (smooth_dispatch d4 (next d4) _ _ 2); vm_compute; reflexivity|].
  replace (∅ : gset Z) with (({[2]} ∪ ∅) ∖ {[2]} : gset Z) at 2 by (vm_compute; reflexivity).
  apply nsteps_once, (smooth_finish (next d4) _ _ 2); [vm_compute; reflexivity|set_solver].
Qed.

Lemma smooth_end : smooth_step (Running d6 ∅ [0; 1; 2]) (Returned (Ok tt) d6 [0; 1; 2]).
Proof.
  pose proof (smooth_return d6 [0; 1; 2]) as Hret.
  replace (unfinished d6) with 0 in Hret by (vm_compute; reflexivity). change (0 =? 0) with true in Hret. cbv iota in Hret.
  refine (Hret _). vm_compute. reflexivity.
Qed.

Lemma steps_d6 : nsteps smooth_step 7 (driver_start diamond 3 None) (Returned (Ok tt) d6 [0; 1; 2]).
Proof. exact (nsteps_trans 4 3 _ _ _ (nsteps_trans 2 2 _ _ _ smooth_d2 smooth_d4)
  (nsteps_trans 2 1 _ _ _ smooth_d6 (nsteps_once _ _ smooth_end))). Qed.

Lemma concurrent_dispatch_complete_witness :
  Z.of_nat 7 <= 2 * Z.of_nat (size (dispatch_set diamond 3)) + 1 /\
  completed d6 = dispatch_set diamond 3 /\ [0; 1; 2] ≡ₚ elements (dispatch_set diamond 3).
Proof.
  refine (let H := concurrent_dispatch_complete diamond 3 None diamond_ids Z.to_nat _ _ in
          conj (proj1 (proj1 H 7%nat _ steps_d6)) (proj2 H d6 [0; 1; 2] (rtc_nsteps_2 _ _ _ (smooth_steps _ _ _ _ _ steps_d6))));
    [by vm_compute|].
  intros s d Hs _ Hd.
  assert (forallb (fun s => forallb (fun d => Nat.ltb (Z.to_nat d) (Z.to_nat (stage_id s)))
    (elements (stage_deps (dispatch_set diamond 3) None s))) diamond = true) as Hall by (vm_compute; reflexivity).
  rewrite forallb_forall in Hall. specialize (Hall s (proj1 (list_elem_of_In _ _) Hs)).
  rewrite forallb_forall in Hall. apply Nat.ltb_lt, Hall, list_elem_of_In, elem_of_elements, Hd.
Defined.

(** Two stages that read each other. *)
Definition loop : list StageDef := [stage 0 [1]; stage 1 [0]; stage 2 [1]].

Lemma cycle_error_means_cycle_witness :
  dispatch_set loop 2 ∖ completed (dag_new loop 2 None) <> ∅ /\
  forall s, s ∈ loop -> stage_id s ∈ dispatch_set loop 2 ∖ completed (dag_new loop 2 None) ->
    exists d, d ∈ stage_deps (dispatch_set loop 2) None s /\ d ∈ dispatch_set loop 2 ∖ completed (dag_new loop 2 None).
Proof.
  refine (cycle_error_means_cycle loop 2 None _ (dag_new loop 2 None) [] _ _ _ _).
  - apply (bool_decide_unpack _). by vm_compute.
  - by vm_compute.
  - apply rtc_refl.
  - vm_compute. reflexivity.
  - by vm_compute.
Defined.

Lemma fail_skips_dependents_witness :
  StronglySorted Z.le (fail_stage d2 0).1 /\
  forall x, x ∈ (fail_stage d2 0).1 <-> tc (fun a b => b ∈ waiters diamond 3 None diamond a) 0 x.
Proof.
  refine (fail_skips_dependents diamond 3 None diamond_ids d2 {[ 0; 1 ]} [0; 1] 0 reach_d2 _). set_solver.
Defined.

End DagRuns.
