(* ===== verification/Cluster.v ===== *)
(** * Cluster: workers, partition owners and the size of the cluster

    [oxidant-execution/src/membership.rs] (rendezvous assignment of partitions
    to workers, the cache of the worker list), [autoscale.rs] (the recommended
    worker count) and the [Cluster] snapshot of [driver.rs].

    Environment variables are arguments; [resolve] is the answer of the
    underlying membership (a fixed list or a DNS lookup) at an instant. *)

From S2P Require Import Prelude Text Shuffle StageDag.

Abbreviation endpoint := (list Z) (only parsing).

(** ** Rendezvous hashing *)

(** FNV-1a over the bytes of the endpoint and of the partition. *)
Definition rendezvous_weight (ep : endpoint) (partition : Z) : Z :=
  foldl fnv1a_step (foldl fnv1a_step FNV_OFFSET (utf8_encode ep)) (to_le_bytes 4 partition).

(** [Iterator::max_by_key]: the last of the elements with the largest key. *)
Definition max_step {A} (key : A -> Z) (best : option A) (x : A) : option A :=
  match best with
  | None => Some x
  | Some b => if key x <? key b then Some b else Some x
  end.
Definition max_by_key {A} (key : A -> Z) (l : list A) : option A := foldl (max_step key) None l.

(** [ClusterMembership::owner_of], over a snapshot of the endpoints. *)
Definition owner_of (eps : list endpoint) (partition num_partitions : Z) : option endpoint :=
  if bool_decide (eps = []) || (num_partitions =? 0) then None
  else max_by_key (fun ep => rendezvous_weight ep partition) eps.

(** ** The cached worker list *)

(** [RefreshingMembership]: when the cache was filled, and the list. *)
Record MembershipCache := { cached_at : Z; cached : list endpoint }.

(** [OXIDANT_MEMBERSHIP_TTL_MS]. *)
Definition membership_ttl_ms (var : option str) : Z := default 2000 (var ≫= parse_u 10 (u_max 64)).

Definition membership_new (now : Z) : MembershipCache := {| cached_at := now; cached := [] |}.

(** [refresh_if_needed] at the instant [now]. *)
Definition refresh_if_needed (resolve : Z -> list endpoint) (ttl now : Z) (c : MembershipCache)
    : list endpoint * MembershipCache :=
  let c := if bool_decide (cached c = []) || (ttl <=? now - cached_at c)
           then {| cached_at := now; cached := resolve now |} else c in
  (cached c, c).

(** A sequence of calls of [endpoints()]. *)
Fixpoint membership_calls (resolve : Z -> list endpoint) (ttl : Z) (c : MembershipCache) (times : list Z)
    : list (list endpoint) :=
  match times with
  | [] => []
  | now :: times =>
      let '(eps, c) := refresh_if_needed resolve ttl now c in eps :: membership_calls resolve ttl c times
  end.

(** ** The cluster snapshot *)

Record ShuffleEnv := {
  SHUFFLE_PARTITIONS : option str;
  DEFAULT_PARALLELISM : option str;
  WORKER_VCPUS : option str;
  WORKER_CORES : option str;
  WORKER_COUNT : option str;
}.

(** [parse().ok().filter(|n| n > 0)], on [w]-bit integers. *)
Definition positive_var (w : Z) (var : option str) : option Z :=
  n ← var ≫= parse_u 10 (u_max w); if 0 <? n then Some n else None.

Definition sat_mulu (w a b : Z) : Z := Z.min (u_max w) (a * b).

Definition DEFAULT_SHUFFLE_PARTITIONS_FLOOR : Z := 200.

Definition default_shuffle_partitions (env : ShuffleEnv) (worker_count : Z) : Z :=
  let workers := wrapu 32 (Z.max worker_count 1) in
  let worker_vcpus := default workers
    (match positive_var 32 (WORKER_VCPUS env) with
     | Some n => Some n
     | None => (fun cores => sat_mulu 32 cores workers) <$> positive_var 32 (WORKER_CORES env)
     end) in
  Z.max (Z.max DEFAULT_SHUFFLE_PARTITIONS_FLOOR worker_vcpus) workers.

Definition shuffle_partitions (env : ShuffleEnv) (worker_count : Z) : Z :=
  match positive_var 32 (SHUFFLE_PARTITIONS env) with
  | Some n => n
  | None => default (default_shuffle_partitions env worker_count) (positive_var 32 (DEFAULT_PARALLELISM env))
  end.

Record Cluster := {
  workers : list endpoint;
  num_partitions : Z;
  expected_worker_count : option Z;
}.

Definition worker_count (c : Cluster) : Z := Z.of_nat (length (workers c)).

Definition cluster_new (env : ShuffleEnv) (ws : list endpoint) : Cluster :=
  {| workers := ws; num_partitions := shuffle_partitions env (Z.of_nat (length ws));
     expected_worker_count := positive_var 64 (WORKER_COUNT env) |}.

(** [owner_endpoint], with the membership's current endpoints. *)
Definition owner_endpoint (c : Cluster) (eps : list endpoint) (partition : Z) : result Error endpoint :=
  ok_or (owner_of eps partition (num_partitions c)) (Execution (fmt [lit "no owner for partition "; show_u partition])).

Definition check_shard_modulus (c : Cluster) : result Error unit :=
  match expected_worker_count c with
  | None => Ok tt
  | Some expected =>
      if negb (worker_count c =? expected) then
        Err (Execution (fmt [lit "driver worker fan-out ("; show_u (worker_count c);
          lit ") does not match OXIDANT_WORKER_COUNT ("; show_u expected;
          lit "); workers shard files as i-of-"; show_u expected;
          lit ", so continuing would silently drop data"]))
      else Ok tt
  end.

(** ** Autoscaling *)

Record StageTaskDemand := { sd_stage_id : Z; num_tasks : Z }.
Record ParallelismDemand := { pd_shuffle_partitions : Z; peak_stage_tasks : Z; pd_stages : list StageTaskDemand }.
Record ScaleRecommendation := {
  current_workers : Z;
  recommended_workers : Z;
  peak_task_demand : Z;
  task_slots_per_worker : Z;
  should_scale : bool;
  reason : str;
}.

Definition autoscale_enabled (var : option str) : bool :=
  match var with Some v => bool_decide (v = lit "1") || eq_ignore_ascii_case v (lit "true") | None => false end.

(** [flight::worker_task_slots] and [task_slots_per_worker]; [available] is
    [std::thread::available_parallelism]. *)
Definition worker_task_slots (var : option str) (available : option Z) : Z :=
  Z.max (default (default 4 available) (positive_var 64 var)) 1.
Definition task_slots (var : option str) (available : option Z) : Z := wrapu 32 (Z.max (worker_task_slots var available) 1).

Definition stage_num_tasks (stage : StageDef) (stages : list StageDef) (c : Cluster) : Z :=
  if bool_decide (stage_exchange stage = Forward) then 1
  else
    let is_output := negb (existsb (fun s => bool_decide (stage_id stage ∈ upstream_stage_ids s)) stages) in
    if is_output && negb (bool_decide (upstream_stage_ids stage = [])) then num_partitions c
    else wrapu 32 (Z.max (worker_count c) 1).

Definition max_or (d : Z) (l : list Z) : Z := match l with [] => d | x :: l => foldl Z.max x l end.

Definition parallelism_demand (c : Cluster) (stages : list StageDef) : ParallelismDemand :=
  let demands := (fun s => {| sd_stage_id := stage_id s; num_tasks := stage_num_tasks s stages c |}) <$> stages in
  {| pd_shuffle_partitions := Z.max (num_partitions c) 1;
     peak_stage_tasks := Z.max (max_or 1 (num_tasks <$> demands)) 1;
     pd_stages := demands |}.

Definition recommend_worker_count (current_workers min_workers max_workers : Z) (demand : ParallelismDemand) (task_slots : Z)
    : ScaleRecommendation :=
  let slots := Z.max task_slots 1 in
  let lo := Z.max min_workers 1 in
  let hi := Z.max max_workers lo in
  let current := Z.min (Z.max current_workers lo) hi in
  let by_partitions := sat_addu 32 (pd_shuffle_partitions demand) (slots - 1) / slots in
  let by_stage_tasks := sat_addu 32 (peak_stage_tasks demand) (slots - 1) / slots in
  let needed := Z.max (Z.max by_partitions by_stage_tasks) lo in
  let recommended := Z.max (Z.min needed hi) current in
  let peak := Z.max (peak_stage_tasks demand) (pd_shuffle_partitions demand) in
  let should_scale := current <? recommended in
  {| current_workers := current;
     recommended_workers := recommended;
     peak_task_demand := peak;
     task_slots_per_worker := slots;
     should_scale := should_scale;
     reason :=
       if should_scale then
         fmt [lit "parallelism demand peak="; show_u peak; lit " partitions="; show_u (pd_shuffle_partitions demand);
              lit " slots/worker="; show_u slots; lit " needs "; show_u needed; lit " workers (have "; show_u current; lit ")"]
       else
         fmt [lit "current "; show_u current; lit " workers satisfy peak="; show_u peak; lit " partitions=";
              show_u (pd_shuffle_partitions demand); lit " with "; show_u slots; lit " slots/worker"] |}.

(** [autoscale_target]. *)
Definition nonempty_var (var : option str) : option str :=
  s ← var; if bool_decide (s = []) then None else Some s.
Definition autoscale_target (gateway_url cluster_id : option str) : option (str * str) :=
  url ← nonempty_var gateway_url; id ← nonempty_var cluster_id;
  Some (trim_end_matches (fun c => c =? 47) url, id).

(** ** Rendezvous: theorems *)

Section MaxByKey.
Context {A : Type} (key : A -> Z).

(** [b] is the last maximum of [l]. *)
Definition last_max (l : list A) (b : A) : Prop :=
  exists l1 l2, l = l1 ++ b :: l2 /\ Forall (fun x => key x <= key b) l1 /\ Forall (fun x => key x < key b) l2.

Lemma max_by_key_snoc l x : max_by_key key (l ++ [x]) = max_step key (max_by_key key l) x.
Proof. unfold max_by_key. by rewrite foldl_app. Qed.

Lemma max_by_key_spec l b : max_by_key key l = Some b <-> last_max l b.
Proof.
  revert b. induction l as [|x l IH] using rev_ind; intros b.
  { split; [done|]. intros (l1 & l2 & E & _). by destruct l1. }
  rewrite max_by_key_snoc. split.
  - destruct (max_by_key key l) as [c|] eqn:E; cbn [max_step].
    + pose proof (proj1 (IH c) eq_refl) as (l1 & l2 & -> & H1 & H2).
      destruct (Z.ltb_spec (key x) (key c)); intros [= <-].
      * exists l1, (l2 ++ [x]). rewrite <-app_assoc, Forall_app, Forall_singleton. done.
      * exists (l1 ++ c :: l2), []. split_and!; [done| |constructor].
        apply Forall_app. split; [eapply Forall_impl; [exact H1|]|constructor; [done|eapply Forall_impl; [exact H2|]]]; cbn; lia.
    + intros [= <-]. exists l, []. split_and!; [done| |constructor].
      destruct l as [|y l] using rev_ind; [constructor|]. rewrite max_by_key_snoc in E.
      destruct (max_by_key key l) as [c|]; cbn in E; [by destruct (_ <? _)|done].
  - intros (l1 & l2 & E & H1 & H2). destruct l2 as [|y l2 _] using rev_ind.
    + apply app_inj_tail in E as [-> ->]. destruct (max_by_key key l1) as [c|] eqn:Ec; cbn; [|done].
      pose proof (proj1 (IH c) eq_refl) as (l3 & l4 & -> & _ & _). apply Forall_app in H1 as [_ [Hc _]%Forall_cons].
      destruct (Z.ltb_spec (key b) (key c)); [lia|done].
    + rewrite app_comm_cons, app_assoc in E. apply app_inj_tail in E as [-> ->].
      apply Forall_app in H2 as [H2 [Hy _]%Forall_cons].
      assert (max_by_key key (l1 ++ b :: l2) = Some b) as -> by (apply IH; by exists l1, l2).
      cbn. destruct (Z.ltb_spec (key y) (key b)); [done|lia].
Qed.

Lemma max_by_key_some l : l <> [] -> exists b, max_by_key key l = Some b /\ b ∈ l /\ Forall (fun x => key x <= key b) l.
Proof.
  intros Hl. destruct (max_by_key key l) as [b|] eqn:E.
  - exists b. split; [done|]. apply max_by_key_spec in E as (l1 & l2 & -> & H1 & H2). split; [set_solver|].
    apply Forall_app. split; [done|]. constructor; [done|]. eapply Forall_impl; [exact H2|]. cbn. lia.
  - destruct l as [|x l] using rev_ind; [done|]. rewrite max_by_key_snoc in E.
    destruct (max_by_key key l); cbn in E; [by destruct (_ <? _)|done].
Qed.

Lemma Forall_sublist (P : A -> Prop) k l : k `sublist_of` l -> Forall P l -> Forall P k.
Proof. induction 1; intros Hl; [done| |]; apply Forall_cons in Hl as [? ?]; [constructor|]; auto. Qed.

(** Dropping other elements keeps the last maximum. *)
Lemma last_max_sublist l k b : NoDup l -> k `sublist_of` l -> b ∈ k -> last_max l b -> last_max k b.
Proof.
  intros Hnd Hs Hb (l1 & l2 & -> & H1 & H2). apply sublist_app_r in Hs as (k1 & k2 & -> & Hs1 & Hs2).
  apply NoDup_app in Hnd as (_ & Hdis & Hnd). apply NoDup_cons in Hnd as [Hb2 _].
  assert (b ∈ k2) as Hbk.
  { apply elem_of_app in Hb as [Hb|Hb]; [|done]. exfalso. apply (Hdis b); [|by left].
    by eapply (sublist_subseteq k1 l1). }
  inversion Hs2 as [|? k' ? Hk|? k' ? Hk]; subst.
  - exists k1, k'. split_and!; [done|by eapply Forall_sublist|by eapply Forall_sublist].
  - exfalso. apply Hb2. by eapply (sublist_subseteq k2 l2).
Qed.
End MaxByKey.

(** C38. Partitions have stable owners: when workers leave, every partition whose
    owner stays keeps it; read the other way, a worker that joins takes
    partitions over but none moves between the others. *)
Theorem owner_stable eps eps' p np ep :
  NoDup eps -> eps' `sublist_of` eps -> owner_of eps p np = Some ep -> ep ∈ eps' -> owner_of eps' p np = Some ep.
Proof.
  unfold owner_of. intros Hnd Hs Ho Hin. destruct (np =? 0); [by rewrite orb_true_r in Ho|]. rewrite orb_false_r in *.
  destruct (bool_decide (eps = [])); [done|]. rewrite bool_decide_false by (intros ->; by apply elem_of_nil in Hin).
  apply max_by_key_spec. apply max_by_key_spec in Ho. by eapply last_max_sublist.
Qed.

(** Every partition has an owner among the workers as soon as there is one,
    and no worker outweighs it; when no two workers have the same weight the
    owner does not depend on the order in which the workers are listed. *)
Theorem owner_of_correct eps p np :
  eps <> [] -> np <> 0 ->
  exists ep, owner_of eps p np = Some ep /\ ep ∈ eps /\
    (forall x, x ∈ eps -> rendezvous_weight x p <= rendezvous_weight ep p) /\
    (forall eps', eps ≡ₚ eps' -> (forall x y, x ∈ eps -> y ∈ eps -> rendezvous_weight x p = rendezvous_weight y p -> x = y) ->
       owner_of eps' p np = Some ep).
Proof.
  intros He Hn.
  assert (forall l, l <> [] -> owner_of l p np = max_by_key (fun ep => rendezvous_weight ep p) l) as Hmax.
  { intros l Hl. unfold owner_of. rewrite bool_decide_false by done. by destruct (Z.eqb_spec np 0). }
  destruct (max_by_key_some (fun ep => rendezvous_weight ep p) eps He) as (ep & E & Hin & Hle).
  exists ep. rewrite Hmax by done. split_and!; [done|done|by rewrite <-Forall_forall|].
  intros eps' Hp Hinj. assert (eps' <> []) as He' by (intros ->; by apply Permutation_nil_r in Hp).
  rewrite Hmax by done. destruct (max_by_key_some (fun ep => rendezvous_weight ep p) eps' He') as (ep' & E' & Hin' & Hle').
  rewrite E'. f_equal. rewrite <-Hp in Hin'. apply Hinj; [done|done|]. rewrite Forall_forall in Hle, Hle'.
  apply Z.le_antisymm; [by apply Hle|]. apply Hle'. by rewrite <-Hp.
Qed.

(** Every answer of the cached membership is what the underlying membership
    answered at some instant no further back than the time to live. *)
Theorem membership_answers_recent resolve ttl t0 times :
  0 <= ttl -> Sorted Z.le (t0 :: times) ->
  Forall2 (fun now eps => exists t, t0 <= t <= now /\ (t = now \/ now - t < ttl) /\ eps = resolve t)
    times (membership_calls resolve ttl (membership_new t0) times).
Proof.
  intros Httl Hs.
  assert (forall c, (cached c = [] \/ t0 <= cached_at c /\ Forall (fun now => cached_at c <= now) times /\ cached c = resolve (cached_at c)) ->
    Forall2 (fun now eps => exists t, t0 <= t <= now /\ (t = now \/ now - t < ttl) /\ eps = resolve t)
      times (membership_calls resolve ttl c times)) as Hall; [|by apply Hall; left].
  apply Sorted_StronglySorted in Hs; [|intros ???; lia]. apply StronglySorted_inv in Hs as [Hs H0].
  induction times as [|now times IH]; intros c Hc; [constructor|].
  apply StronglySorted_inv in Hs as [Hs Hnow]. apply Forall_cons in H0 as [H0 H0'].
  cbn [membership_calls]. unfold refresh_if_needed. set (c' := if _ || _ then _ else c). cbn [fst snd].
  assert (exists t, t0 <= t <= now /\ (t = now \/ now - t < ttl) /\ cached c' = resolve t) as Ht.
  { unfold c'. destruct (bool_decide_reflect (cached c = [])) as [|Hne]; cbn [orb]; [exists now; cbn; auto with lia|].
    destruct Hc as [?|(Ha & Hf & Hr)]; [done|]. apply Forall_cons in Hf as [Hf _].
    destruct (Z.leb_spec ttl (now - cached_at c)); [exists now; cbn; auto with lia|]. exists (cached_at c). auto with lia. }
  constructor; [exact Ht|]. apply IH; [done|done|]. unfold c'.
  destruct (bool_decide (cached c = [])) eqn:Ee; cbn [orb]; [right; by cbn|].
  destruct (ttl <=? _); [right; by cbn|]. destruct Hc as [Hc|(Ha & Hf & Hr)]; [by left|].
  right. apply Forall_cons in Hf as [_ Hf]. done.
Qed.

(** ** Autoscaling: theorems *)

Lemma div_ceil_le a s n : 0 < s -> 0 <= a -> (a + (s - 1)) / s <= n <-> a <= n * s.
Proof.
  intros Hs Ha. split; intros Hn.
  - pose proof (Z.mod_pos_bound (a + (s - 1)) s Hs). pose proof (Z.div_mod (a + (s - 1)) s ltac:(lia)). nia.
  - apply Z.lt_succ_r, Z.div_lt_upper_bound; nia.
Qed.


(** A query runs only when the driver sees as many workers as the workers
    shard their files by: the check passes exactly when no count is configured
    or the snapshot has that many workers, and the shuffle of a snapshot has at
    least one partition. *)
Theorem shard_modulus_checked env ws :
  let c := cluster_new env ws in
  (check_shard_modulus c = Ok tt <->
     forall n, positive_var 64 (WORKER_COUNT env) = Some n -> Z.of_nat (length ws) = n) /\
  0 < num_partitions c.
Proof.
  unfold check_shard_modulus, worker_count. cbn. split.
  - destruct (positive_var 64 (WORKER_COUNT env)) as [n|]; [|by split].
    destruct (Z.eqb_spec (Z.of_nat (length ws)) n) as [E|E]; cbn; [split; [by intros _ ? [= <-]|done]|].
    split; [done|]. intros Hn. by specialize (Hn n eq_refl).
  - assert (forall v n, positive_var 32 v = Some n -> 0 < n) as Hpos.
    { intros v n. unfold positive_var. destruct (v ≫= _) as [m|]; cbn; [|done].
      destruct (Z.ltb_spec 0 m); intros [= <-]; done. }
    unfold shuffle_partitions. destruct (positive_var 32 (SHUFFLE_PARTITIONS env)) as [n|] eqn:E1; [by eapply Hpos|].
    destruct (positive_var 32 (DEFAULT_PARALLELISM env)) as [n|] eqn:E2; [by eapply Hpos|].
    cbn [default]. unfold default_shuffle_partitions, DEFAULT_SHUFFLE_PARTITIONS_FLOOR. cbv zeta.
    set (w := wrapu _ _). set (v := default w _). lia.
Qed.

(** ** Concrete clusters *)
Module ClusterRuns.

Definition a : endpoint := lit "a:1".
Definition b : endpoint := lit "b:1".
Definition c : endpoint := lit "c:1".

(** Partition 0 keeps its owner when [b] leaves. *)
Definition owner0 : endpoint := default [] (owner_of [a; b; c] 0 12).

Lemma owner_stable_witness : owner_of [a; c] 0 12 = Some owner0.
Proof.
  refine (owner_stable [a; b; c] [a; c] 0 12 owner0 _ _ _ _).
  - apply (bool_decide_unpack _). vm_compute. exact I.
  - apply sublist_skip, sublist_cons, sublist_skip, sublist_nil.
  - vm_compute. reflexivity.
  - apply (bool_decide_unpack _). vm_compute. exact I.
Defined.

Lemma owner_of_correct_witness :
  exists ep, owner_of [a; b; c] 5 12 = Some ep /\ ep ∈ [a; b; c] /\
    (forall x, x ∈ [a; b; c] -> rendezvous_weight x 5 <= rendezvous_weight ep 5) /\
    (forall eps', [a; b; c] ≡ₚ eps' ->
       (forall x y, x ∈ [a; b; c] -> y ∈ [a; b; c] -> rendezvous_weight x 5 = rendezvous_weight y 5 -> x = y) ->
       owner_of eps' 5 12 = Some ep).
Proof. refine (owner_of_correct [a; b; c] 5 12 _ _); discriminate. Defined.

Lemma membership_answers_recent_witness :
  let resolve := fun t => if t <? 3000 then [a] else [a; b] in
  Forall2 (fun now eps => exists t, 0 <= t <= now /\ (t = now \/ now - t < 2000) /\ eps = resolve t)
    [100; 1500; 2500; 3500] [[a]; [a]; [a]; [a]].
Proof.
  refine (membership_answers_recent _ 2000 0 [100; 1500; 2500; 3500] _ _); [lia|].
  repeat (constructor; [|constructor; lia]). repeat constructor.
Defined.


End ClusterRuns.
