(* ===== verification/TaskRetry.v ===== *)
(** * TaskRetry: running one stage task on a cluster that fails

    [oxidant-execution/src/scheduler.rs] (attempts on the task's own worker,
    recomputation of missing shuffle inputs, alternate workers), [lineage.rs]
    (who produced what) and, of [flight.rs], [do_get_batches] with its own retry
    loop, [run_stage_on_worker] and [pull_bucket_with_retry].

    The workers, the connections to them and the membership are the class
    [Workers]: every call may answer anything and change the world.  [M] of
    [Effects] carries the world, the lineage and the log of the times a stage
    ticket was sent to a worker ([do_get_batches_once]); here [Crashed]
    stands for a recursion that ran out of fuel, which [task_answers] excludes. *)

From S2P Require Import Prelude Text Effects Aqe StageDag.

Abbreviation endpoint := (list Z) (only parsing).

(** ** Data *)

Record StageTicket := {
  tk_stage_id : Z;
  partition_id : Z;
  tk_num_partitions : Z;
  upstream_endpoints : list endpoint;
  tk_sql : str;
  tk_plan_fragment : list Z;
  tk_hash_key_cols : list Z;
  tk_upstreams : list Z;
  produce : bool;
  tk_pins : str;
  tk_replicated : str;
  coalesce_read_modulus : Z;
  forward_upstream_stage_ids : list Z;
  upstream_bucket_rows : list Z;
  tk_lf_required : bool;
  tk_lf_principal : str;
}.

(** [StageDef], all of it. *)
Record TaskStage := {
  sg_sql : str;
  sg_upstreams : list Z;
  sg_hash_key_cols : list Z;
  sg_exchange : ExchangeMode;
  sg_plan_fragment : option (list Z);
  sg_pins : str;
  sg_replicated : str;
  sg_lf_required : bool;
  sg_lf_principal : str;
}.

Record WorkerHeartbeat := { slots_total : option Z; slots_used : option Z }.
Definition has_available_slot (h : WorkerHeartbeat) : bool :=
  match slots_total h, slots_used h with
  | Some total, Some used => used <? total
  | _, _ => true
  end.

(** ** Error classes *)

Definition has_any (s : str) (words : list string) : bool := existsb (fun w => contains s (lit w)) words.

Definition is_retryable (e : Error) : bool :=
  let s := to_ascii_lowercase (error_to_string e) in
  if contains s (lit "connect worker") then true
  else if has_any s ["transport"; "goaway"; "incomplete message"]%string then true
  else if has_any s ["deadline"; "timed out"; "timeout"]%string then false
  else has_any s ["unavailable"; "connection"; "reset"; "broken pipe"; "health check failed"; "shuffle"; "empty bucket";
                  "no task slots"]%string.

Definition needs_upstream_recompute (e : Error) : bool :=
  has_any (to_ascii_lowercase (error_to_string e)) ["shuffle"; "empty bucket"; "no batches"]%string.

Definition action_unimplemented (e : Error) : bool :=
  has_any (to_ascii_lowercase (error_to_string e)) ["unimplemented"; "not implemented"]%string.

Definition is_pull_retryable (e : Error) : bool :=
  has_any (to_ascii_lowercase (error_to_string e))
    ["connect"; "unavailable"; "transport"; "goaway"; "incomplete message"; "do_get"; "do_exchange"]%string.

(** [OXIDANT_TASK_MAX_RETRIES]. *)
Definition task_max_retries (var : option str) : Z :=
  default 3 (n ← var ≫= parse_u 10 (u_max 32); if 0 <? n then Some n else None).

(** ** The cluster *)

(** The first and the fourth are one [do_get]: dial or take the pooled channel,
    send the ticket, read the stream. *)
Class Workers (W Batch : Type) := {
  do_get_stage : endpoint -> StageTicket -> W -> result Error (list Batch) * W;
  heartbeat_worker : endpoint -> W -> result Error WorkerHeartbeat * W;
  health_check_worker : endpoint -> W -> result Error unit * W;
  do_get_bucket : endpoint -> Z -> Z -> W -> result Error (list Batch) * W;
  drop_channel : endpoint -> W -> W;
  live_endpoints : W -> list endpoint * W;
}.

Section Task.
Context `{Workers W Batch}.
Variable retries_var : option str.
Variable stages : gmap Z TaskStage.

(** A stage ticket that was sent: where, which, with which answer. *)
Record run := { run_on : endpoint; run_ticket : StageTicket; run_result : result Error (list Batch) }.

(** The world, [StageLineage], and the log of what was sent. *)
Record TaskState := {
  world : W;
  lineage : gmap (Z * Z) endpoint;
  runs : list run;
}.

Definition T := M TaskState.

(** A call of the cluster that does not send a stage ticket. *)
Definition ask {A} (f : W -> A * W) : T A := fun s =>
  let '(a, w) := f (world s) in (Done a, {| world := w; lineage := lineage s; runs := runs s |}).

(** [do_get_batches_once] with a stage ticket and with a bucket's. *)
Definition stage_once (ep : endpoint) (ticket : StageTicket) : T (result Error (list Batch)) := fun s =>
  let '(r, w) := do_get_stage ep ticket (world s) in
  (Done r, {| world := w; lineage := lineage s; runs := runs s ++ [{| run_on := ep; run_ticket := ticket; run_result := r |}] |}).
Definition bucket_once (ep : endpoint) (stage bucket : Z) : T (result Error (list Batch)) := ask (do_get_bucket ep stage bucket).

Definition evict_flight_channel (ep : endpoint) : T unit := ask (fun w => (tt, drop_channel ep w)).

(** The loop of [do_get_batches], with [tries] sends left after the next one. *)
Fixpoint do_get_loop (ep : endpoint) (once : T (result Error (list Batch))) (tries : nat) : T (result Error (list Batch)) :=
  do! r <- once;
  match r with
  | Ok b => ret (Ok b)
  | Err e =>
      match tries with
      | O => ret (Err e)
      | S tries => if negb (is_retryable e) then ret (Err e) else run! evict_flight_channel ep; do_get_loop ep once tries
      end
  end.
(** [MAX_TRIES] is 3. *)
Definition do_get_batches (ep : endpoint) (once : T (result Error (list Batch))) : T (result Error (list Batch)) :=
  do_get_loop ep once 2.

Definition run_stage_on_worker (ep : endpoint) (ticket : StageTicket) : T (result Error (list Batch)) :=
  do_get_batches ep (stage_once ep ticket).

(** [StageLineage::record_producer] and [producer_endpoint]. *)
Definition record_producer (stage partition : Z) (ep : endpoint) : T unit := fun s =>
  (Done tt, {| world := world s; lineage := <[(stage, partition) := ep]> (lineage s); runs := runs s |}).
Definition producer_endpoint (s : TaskState) (stage partition : Z) : option endpoint := lineage s !! (stage, partition).

Definition record_if_producer (ticket : StageTicket) (ep : endpoint) : T unit :=
  if produce ticket then record_producer (tk_stage_id ticket) (partition_id ticket) ep else ret tt.

Definition worker_accepts_task (ep : endpoint) : T bool :=
  do! hb <- ask (heartbeat_worker ep);
  match hb with
  | Ok heartbeat => ret (has_available_slot heartbeat)
  | Err e =>
      if action_unimplemented e then do! r <- ask (health_check_worker ep); ret (is_ok r)
      else ret false
  end.

Definition show_slot (o : option Z) : str := match o with Some n => show_u n | None => lit "?" end.

Definition no_free_slots_error (ep : endpoint) : T Error :=
  do! hb <- ask (heartbeat_worker ep);
  ret (match hb with
       | Ok h => Execution (fmt [lit "worker has no free task slots: "; ep; lit " (used: "; show_slot (slots_used h); lit "/";
                                 show_slot (slots_total h); lit ")"])
       | Err _ => Execution (fmt [lit "worker has no free task slots: "; ep])
       end).

(** The loop of [pull_bucket_with_retry]; [MAX_TRIES] is 3. *)
Fixpoint pull_loop (tries : nat) (ep : endpoint) (stage bucket : Z) : T (result Error (list Batch)) :=
  do! r <- do_get_batches ep (bucket_once ep stage bucket);
  match r with
  | Ok b => ret (Ok b)
  | Err e =>
      match tries with
      | O => ret (Err e)
      | S tries => if is_pull_retryable e then pull_loop tries ep stage bucket else ret (Err e)
      end
  end.
Definition pull_bucket_with_retry (ep : endpoint) (stage bucket : Z) : T (result Error (list Batch)) :=
  pull_loop 2 ep stage bucket.

(** ** The attempts on the task's own worker *)

(** [for attempt in 0..max]: the batches, or the last error. *)
Fixpoint attempts (max : Z) (primary : endpoint) (ticket : StageTicket) (l : list Z) (last_err : option Error)
    : T (list Batch + option Error) :=
  match l with
  | [] => ret (inr last_err)
  | attempt :: l =>
      do! accepts <- if 0 <? attempt then worker_accepts_task primary else ret true;
      if negb accepts then
        do! e <- no_free_slots_error primary;
        if attempt + 1 <? max then attempts max primary ticket l (Some e) else ret (inr (Some e))
      else
        do! r <- run_stage_on_worker primary ticket;
        match r with
        | Ok b => run! record_if_producer ticket primary; ret (inl b)
        | Err e => if is_retryable e then attempts max primary ticket l (Some e) else throw e
        end
  end.

(** ** Alternate workers *)

Fixpoint alternates (ticket : StageTicket) (eps tried : list endpoint) (last_err : option Error) : T (list Batch + option Error) :=
  match eps with
  | [] => ret (inr last_err)
  | alt :: eps =>
      if bool_decide (alt ∈ tried) then alternates ticket eps tried last_err
      else
        do! accepts <- worker_accepts_task alt;
        if negb accepts then alternates ticket eps tried last_err
        else
          do! r <- run_stage_on_worker alt ticket;
          match r with
          | Ok b => run! record_if_producer ticket alt; ret (inl b)
          | Err e => if is_retryable e then alternates ticket eps (tried ++ [alt]) (Some e) else throw e
          end
  end.

(** ** Recomputing upstream producers *)

(** Whether every bucket the consumer needs can be read from [ep]. *)
Fixpoint all_readable (ep : endpoint) (stage : Z) (needed : list Z) : T bool :=
  match needed with
  | [] => ret true
  | bucket :: needed =>
      do! r <- pull_bucket_with_retry ep stage bucket;
      if match r with Ok (_ :: _) => true | _ => false end then all_readable ep stage needed else ret false
  end.

(** [forward_upstreams]. *)
Definition forward_upstreams (sg : TaskStage) : list Z :=
  List.filter (fun id => match stages !! id with Some d => bool_decide (sg_exchange d = Forward) | None => false end)
    (sg_upstreams sg).

Definition producer_ticket (consumer : StageTicket) (up : Z) (sg : TaskStage) (i : Z) : StageTicket := {|
  tk_stage_id := up;
  partition_id := wrapu 32 i;
  tk_num_partitions := tk_num_partitions consumer;
  upstream_endpoints := if bool_decide (sg_upstreams sg = []) then [] else upstream_endpoints consumer;
  tk_sql := sg_sql sg;
  tk_plan_fragment := default [] (sg_plan_fragment sg);
  tk_hash_key_cols := sg_hash_key_cols sg;
  tk_upstreams := sg_upstreams sg;
  produce := true;
  tk_pins := sg_pins sg;
  tk_replicated := sg_replicated sg;
  coalesce_read_modulus := 0;
  forward_upstream_stage_ids := forward_upstreams sg;
  upstream_bucket_rows := [];
  tk_lf_required := sg_lf_required sg;
  tk_lf_principal := sg_lf_principal sg;
|}.

(** [healthy_endpoints]. *)
Fixpoint healthy_endpoints (eps : list endpoint) : T (list endpoint) :=
  match eps with
  | [] => ret []
  | ep :: eps =>
      do! r <- ask (health_check_worker ep);
      do! out <- healthy_endpoints eps;
      ret (if is_ok r then ep :: out else out)
  end.

(** The worker a producer is run on again: the same one if it is healthy, else
    another of the membership. *)
Definition recompute_target (ep : endpoint) : T endpoint :=
  do! healthy <- healthy_endpoints [ep];
  match healthy with
  | e :: _ => ret e
  | [] =>
      do! eps <- ask live_endpoints;
      match List.find (fun e => negb (bool_decide (e = ep))) eps with
      | Some e => ret e
      | None => throw (Execution (lit "recompute: no healthy worker"))
      end
  end.

Section Recompute.
(** [run_stage_inner] on a producer. *)
Variable run_inner : endpoint -> StageTicket -> T (list Batch).

Fixpoint recompute_stage (consumer : StageTicket) (needed : list Z) (up : Z) (sg : TaskStage) (eps : list (Z * endpoint)) : T unit :=
  match eps with
  | [] => ret tt
  | (i, ep) :: eps =>
      do! readable <- all_readable ep up needed;
      if readable then recompute_stage consumer needed up sg eps
      else
        do! target <- recompute_target ep;
        run! run_inner target (producer_ticket consumer up sg i);
        recompute_stage consumer needed up sg eps
  end.

Definition needed_buckets (consumer : StageTicket) : list Z :=
  let read_mod := if coalesce_read_modulus consumer =? 0 then tk_num_partitions consumer
                  else Z.min (coalesce_read_modulus consumer) (tk_num_partitions consumer) in
  coalesced_read_buckets (tk_num_partitions consumer) read_mod (partition_id consumer).

Definition enumerate (l : list endpoint) : list (Z * endpoint) := imap (fun i ep => (Z.of_nat i, ep)) l.

Fixpoint recompute_stages (consumer : StageTicket) (ups : list Z) : T unit :=
  match ups with
  | [] => ret tt
  | up :: ups =>
      match stages !! up with
      | None => throw (Execution (fmt [lit "recompute: unknown stage "; show_u up]))
      | Some sg =>
          let probe := if bool_decide (sg_exchange sg = Forward) then take 1 (upstream_endpoints consumer)
                       else upstream_endpoints consumer in
          run! recompute_stage consumer (needed_buckets consumer) up sg (enumerate probe);
          recompute_stages consumer ups
      end
  end.

(** [recompute_upstream_producers]. *)
Definition recompute_upstream_producers (consumer : StageTicket) : T unit :=
  recompute_stages consumer (tk_upstreams consumer).

(** ** One task: [run_stage_inner_impl] *)

(** After the attempts: recompute the inputs and run once more, if that may help. *)
Definition after_recompute (primary : endpoint) (ticket : StageTicket) (last_err : option Error) : T (list Batch + option Error) :=
  if negb (bool_decide (tk_upstreams ticket = [])) &&
     match last_err with Some e => needs_upstream_recompute e | None => false end
  then
    do! r <- try_ (recompute_upstream_producers ticket);
    match r with
    | Err e => ret (inr (Some e))
    | Ok _ =>
        do! accepts <- worker_accepts_task primary;
        if accepts then
          do! r <- run_stage_on_worker primary ticket;
          match r with
          | Ok b => ret (inl b)
          | Err e => ret (inr (Some e))
          end
        else do! e <- no_free_slots_error primary; ret (inr (Some e))
    end
  else ret (inr last_err).

Definition run_stage_inner_impl (primary : endpoint) (ticket : StageTicket) : T (list Batch) :=
  let max := task_max_retries retries_var in
  do! r <- attempts max primary ticket (range 0 max) None;
  match r with
  | inl b => ret b
  | inr last_err =>
      do! r <- after_recompute primary ticket last_err;
      match r with
      | inl b => ret b
      | inr last_err =>
          do! eps <- ask live_endpoints;
          do! r <- alternates ticket eps [primary] last_err;
          match r with
          | inl b => ret b
          | inr (Some e) => throw e
          | inr None => throw (Execution (lit "stage task failed on all workers"))
          end
      end
  end.

End Recompute.

(** [run_stage_inner]; the recursion goes from a consumer to its producers. *)
Fixpoint run_stage_inner (fuel : nat) (primary : endpoint) (ticket : StageTicket) : T (list Batch) :=
  match fuel with
  | O => fun s => (Crashed, s)
  | S fuel => run_stage_inner_impl (run_stage_inner fuel) primary ticket
  end.

End Task.
Arguments run Batch : clear implicits.
Arguments TaskState W Batch : clear implicits.

(** ** Calls that leave the log alone *)

Section Quiet.
Context `{Workers W Batch}.
Abbreviation TM := (M (TaskState W Batch)).

(** [m] always answers, and changes neither the log nor the lineage. *)
Definition quiet {A} (m : TM A) : Prop :=
  forall s, exists a w, m s = (Done a, {| world := w; lineage := lineage s; runs := runs s |}).

Lemma quiet_ret {A} (a : A) : quiet (ret a).
Proof. intros [w l r]. by exists a, w. Qed.
Lemma quiet_ask {A} (f : W -> A * W) : quiet (ask f).
Proof. intros s. unfold ask. destruct (f (world s)) as [a w]. by exists a, w. Qed.
Lemma quiet_bind {A B} (m : TM A) (k : A -> TM B) : quiet m -> (forall a, quiet (k a)) -> quiet (mbind m k).
Proof.
  intros Hm Hk s. destruct (Hm s) as (a & w & E). unfold mbind. rewrite E. destruct (Hk a {| world := w; lineage := lineage s; runs := runs s |}) as (b & w' & E').
  rewrite E'. by exists b, w'.
Qed.

Lemma quiet_accepts ep : quiet (worker_accepts_task ep).
Proof.
  apply quiet_bind; [apply quiet_ask|]. intros [h|e]; [apply quiet_ret|].
  destruct (action_unimplemented e); [|apply quiet_ret]. apply quiet_bind; [apply quiet_ask|intros; apply quiet_ret].
Qed.
Lemma quiet_no_slots ep : quiet (no_free_slots_error ep).
Proof. apply quiet_bind; [apply quiet_ask|intros; apply quiet_ret]. Qed.

(** A quiet call can be stepped over. *)
Lemma mbind_quiet {A B} (m : TM A) (k : A -> TM B) s : quiet m ->
  exists a w, mbind m k s = k a {| world := w; lineage := lineage s; runs := runs s |}.
Proof. intros Hm. destruct (Hm s) as (a & w & E). exists a, w. unfold mbind. by rewrite E. Qed.

End Quiet.
#[export] Hint Resolve quiet_ret quiet_ask quiet_accepts quiet_no_slots : quiet.

(** ** What a task leaves in the log *)

Section Log.
Context `{Workers W Batch}.

(** A send that failed with an error worth retrying. *)
Definition retried (r : run Batch) : Prop := exists e, run_result r = Err e /\ is_retryable e = true.

Definition recorded (ticket : StageTicket) (ep : endpoint) (lin : gmap (Z * Z) endpoint) : gmap (Z * Z) endpoint :=
  if produce ticket then <[(tk_stage_id ticket, partition_id ticket) := ep]> lin else lin.

(** The sends [rs] explain the outcome [o]: all are of [ticket]; all but the
    last failed with a retryable error; the last is the success that is
    returned (and recorded), or the terminal error that is reported. *)
Record explains (ticket : StageTicket) (lin lin' : gmap (Z * Z) endpoint) (rs : list (run Batch))
    (o : outcome (list Batch + option Error)) : Prop := {
  ex_ticket : Forall (fun r => run_ticket r = ticket) rs;
  ex_outcome : match o with
  | Done (inl b) => exists rs0 ep, rs = rs0 ++ [{| run_on := ep; run_ticket := ticket; run_result := Ok b |}] /\
      Forall retried rs0 /\ lin' = recorded ticket ep lin
  | Done (inr _) => Forall retried rs /\ lin' = lin
  | Failed e => exists rs0 ep, rs = rs0 ++ [{| run_on := ep; run_ticket := ticket; run_result := Err e |}] /\
      Forall retried rs0 /\ is_retryable e = false /\ lin' = lin
  | Crashed => False
  end;
}.

Lemma explains_cons ticket lin lin' rs o r :
  run_ticket r = ticket -> retried r -> explains ticket lin lin' rs o -> explains ticket lin lin' (r :: rs) o.
Proof.
  intros Ht Hr [Ha Ho]. split; [by constructor|]. destruct o as [[b|le]|e|]; [| | |done].
  - destruct Ho as (rs0 & ep & -> & ? & ?). exists (r :: rs0), ep. split_and!; [done|by constructor|done].
  - destruct Ho as [? ?]. split; [by constructor|done].
  - destruct Ho as (rs0 & ep & -> & ? & ? & ?). exists (r :: rs0), ep. split_and!; [done|by constructor|done|done].
Qed.

Lemma explains_app ticket lin lin' rs rs' o :
  Forall (fun r => run_ticket r = ticket) rs -> Forall retried rs -> explains ticket lin lin' rs' o ->
  explains ticket lin lin' (rs ++ rs') o.
Proof.
  induction rs as [|r rs IH]; [done|]. intros [Ht Hts]%Forall_cons [Hr Hrs]%Forall_cons Ho.
  apply explains_cons; [done|done|by apply IH].
Qed.

Lemma record_if_producer_eq ticket ep (s : TaskState W Batch) :
  record_if_producer ticket ep s =
  (Done tt, {| world := world s; lineage := recorded ticket ep (lineage s); runs := runs s |}).
Proof. unfold record_if_producer, recorded, record_producer. destruct (produce ticket); [done|]. by destruct s. Qed.

(** One stage task on one worker: at most three sends, each but the last after
    an error worth retrying, the last with the answer. *)
Record sent_on (ep : endpoint) (ticket : StageTicket) (r : result Error (list Batch)) (rs : list (run Batch)) : Prop := {
  so_ticket : Forall (fun x => run_ticket x = ticket) rs;
  so_on : Forall (fun x => run_on x = ep) rs;
  so_last : exists rs0, rs = rs0 ++ [{| run_on := ep; run_ticket := ticket; run_result := r |}] /\ Forall retried rs0;
  so_len : (length rs <= 3)%nat;
}.

Lemma do_get_loop_cases ep ticket tries (s : TaskState W Batch) :
  exists r w rs, do_get_loop ep (stage_once ep ticket) tries s = (Done r, {| world := w; lineage := lineage s; runs := runs s ++ rs |}) /\
    Forall (fun x => run_ticket x = ticket) rs /\ Forall (fun x => run_on x = ep) rs /\
    (exists rs0, rs = rs0 ++ [{| run_on := ep; run_ticket := ticket; run_result := r |}] /\ Forall retried rs0) /\
    (length rs <= S tries)%nat.
Proof.
  revert s. induction tries as [|tries IH]; intros s; cbn [do_get_loop]; unfold mbind at 1, stage_once at 1;
    destruct (do_get_stage ep ticket (world s)) as [r w]; set (x := {| run_on := ep; run_ticket := ticket; run_result := r |}).
  1: { exists r, w, [x]. split_and!; [by destruct r|by apply Forall_singleton..|exists []; by split|done]. }
  assert (forall q, q = r -> exists r0 w0 rs, (Done q, {| world := w; lineage := lineage s; runs := runs s ++ [x] |}) =
      (Done r0, {| world := w0; lineage := lineage s; runs := runs s ++ rs |}) /\
      Forall (fun x => run_ticket x = ticket) rs /\ Forall (fun x => run_on x = ep) rs /\
      (exists rs0, rs = rs0 ++ [{| run_on := ep; run_ticket := ticket; run_result := r0 |}] /\ Forall retried rs0) /\
      (length rs <= S (S tries))%nat) as Hstop.
  { intros q ->. exists r, w, [x]. split_and!; [done|by apply Forall_singleton..|exists []; by split|cbn; lia]. }
  destruct r as [b|e]; [by apply Hstop|]. destruct (is_retryable e) eqn:Er; cbn [negb]; [|by apply Hstop].
  unfold mbind at 1, evict_flight_channel, ask. cbn [world lineage runs].
  destruct (IH {| world := drop_channel ep w; lineage := lineage s; runs := runs s ++ [x] |})
    as (r & w' & rs & E & Ht & Ho & (rs0 & -> & Hr) & Hl). cbn [lineage runs] in E.
  exists r, w', (x :: rs0 ++ [{| run_on := ep; run_ticket := ticket; run_result := r |}]).
  split_and!; [by rewrite E, <-app_assoc|by constructor|by constructor| |cbn in *; lia].
  exists (x :: rs0). split; [done|]. constructor; [by exists e|done].
Qed.

Lemma run_stage_cases ep ticket (s : TaskState W Batch) :
  exists r w rs, run_stage_on_worker ep ticket s = (Done r, {| world := w; lineage := lineage s; runs := runs s ++ rs |}) /\
    sent_on ep ticket r rs.
Proof.
  destruct (do_get_loop_cases ep ticket 2 s) as (r & w & rs & E & ? & ? & ? & ?). exists r, w, rs. by split.
Qed.

(** A success ends the task, an error worth retrying is one more failed send,
    any other ends it. *)
Lemma sent_ok ep ticket b rs lin : sent_on ep ticket (Ok b) rs -> explains ticket lin (recorded ticket ep lin) rs (Done (inl b)).
Proof. intros [Ht _ (rs0 & -> & Hr) _]. split; [done|]. by exists rs0, ep. Qed.
Lemma sent_retried ep ticket e rs : sent_on ep ticket (Err e) rs -> is_retryable e = true -> Forall retried rs.
Proof. intros [_ _ (rs0 & -> & Hr) _] He. apply Forall_app. split; [done|]. apply Forall_singleton. by exists e. Qed.
Lemma sent_terminal ep ticket e rs lin : sent_on ep ticket (Err e) rs -> is_retryable e = false -> explains ticket lin lin rs (Failed e).
Proof. intros [Ht _ (rs0 & -> & Hr) _] He. split; [done|]. by exists rs0, ep. Qed.

Lemma attempts_log max primary ticket l le (s : TaskState W Batch) :
  let '(o, s') := attempts max primary ticket l le s in
  exists rs, runs s' = runs s ++ rs /\ explains ticket (lineage s) (lineage s') rs o /\
    Forall (fun r => run_on r = primary) rs /\ (length rs <= 3 * length l)%nat.
Proof.
  revert le s. induction l as [|i l IH]; intros le s.
  { cbn. exists []. rewrite app_nil_r. repeat split; constructor. }
  cbn [attempts].
  set (k := fun accepts : bool => if negb accepts then _ else _).
  assert (quiet (if 0 <? i then worker_accepts_task primary else ret true)) as Hq by (destruct (0 <? i); auto with quiet).
  destruct (mbind_quiet _ k s Hq) as (accepts & w & ->). unfold k. destruct accepts; cbn [negb].
  - destruct (run_stage_cases primary ticket {| world := w; lineage := lineage s; runs := runs s |}) as (r & w' & rs1 & E & Hsent).
    pose proof (so_len _ _ _ _ Hsent). pose proof (so_on _ _ _ _ Hsent).
    unfold mbind at 1. rewrite E. cbn [lineage runs]. destruct r as [b|e].
    + unfold mbind. rewrite record_if_producer_eq. cbn [lineage runs world]. exists rs1.
      split_and!; [done|by apply sent_ok|done|cbn; lia].
    + destruct (is_retryable e) eqn:Er.
      * specialize (IH (Some e) {| world := w'; lineage := lineage s; runs := runs s ++ rs1 |}). cbn [lineage runs] in IH.
        destruct (attempts max primary ticket l (Some e) _) as [o s']. destruct IH as (rs & Hrs & Hex & Hon & Hlen).
        exists (rs1 ++ rs). split_and!; [by rewrite Hrs, <-app_assoc| |by apply Forall_app|rewrite length_app; cbn; lia].
        apply explains_app; [apply Hsent|by eapply sent_retried|done].
      * cbn. exists rs1. split_and!; [done|by eapply sent_terminal|done|cbn; lia].
  - set (k' := fun e => if i + 1 <? max then _ else _).
    destruct (mbind_quiet (no_free_slots_error primary) k' {| world := w; lineage := lineage s; runs := runs s |}
      ltac:(auto with quiet)) as (e & w' & ->). unfold k'. destruct (i + 1 <? max).
    + specialize (IH (Some e) {| world := w'; lineage := lineage s; runs := runs s |}). cbn [lineage runs] in *.
      destruct (attempts max primary ticket l (Some e) _) as [o s']. destruct IH as (rs & ? & ? & ? & ?).
      exists rs. split_and!; [done|done|done|cbn; lia].
    + cbn. exists []. rewrite app_nil_r. split_and!; [done| |constructor|cbn; lia]. repeat split; constructor.
Qed.

(** The sends of [rs] to one worker. *)
Definition sends_to (ep : endpoint) (rs : list (run Batch)) : nat := length (filter (fun r => run_on r = ep) rs).

Lemma sends_to_app ep rs rs' : sends_to ep (rs ++ rs') = (sends_to ep rs + sends_to ep rs')%nat.
Proof. unfold sends_to. by rewrite filter_app, length_app. Qed.
Lemma sends_to_length ep rs : (sends_to ep rs <= length rs)%nat.
Proof. apply length_filter. Qed.
Lemma sends_to_none ep rs : (forall r, r ∈ rs -> run_on r <> ep) -> sends_to ep rs = 0%nat.
Proof.
  intros Hn. unfold sends_to. induction rs as [|r rs IH]; [done|]. rewrite filter_cons_False by (apply Hn; left).
  apply IH. intros. apply Hn. by right.
Qed.

Lemma alternates_log ticket eps tried le (s : TaskState W Batch) :
  let '(o, s') := alternates ticket eps tried le s in
  exists rs, runs s' = runs s ++ rs /\ explains ticket (lineage s) (lineage s') rs o /\
    (forall ep, (sends_to ep rs <= 3)%nat) /\ forall r, r ∈ rs -> run_on r ∈ eps /\ run_on r ∉ tried.
Proof.
  revert tried le s. induction eps as [|alt eps IH]; intros tried le s.
  { cbn. exists []. rewrite app_nil_r. split_and!; [done|repeat split; constructor|intros; cbn; lia|]. by intros ep ?%elem_of_nil. }
  assert (forall le s0, runs s0 = runs s -> lineage s0 = lineage s ->
    let '(o, s') := alternates ticket eps tried le s0 in
    exists rs, runs s' = runs s ++ rs /\ explains ticket (lineage s) (lineage s') rs o /\
      (forall ep, (sends_to ep rs <= 3)%nat) /\ forall r, r ∈ rs -> run_on r ∈ alt :: eps /\ run_on r ∉ tried) as Hskip.
  { intros le0 s0 E1 E2. specialize (IH tried le0 s0). destruct (alternates ticket eps tried le0 s0) as [o s'].
    destruct IH as (rs & ? & ? & ? & Hin). exists rs. rewrite <-E1, <-E2. split_and!; [done|done|done|].
    intros r Hr. destruct (Hin r Hr). split; [by right|done]. }
  cbn [alternates]. destruct (bool_decide_reflect (alt ∈ tried)) as [|Hnew]; [by apply Hskip|].
  set (k := fun accepts : bool => if negb accepts then _ else _).
  destruct (mbind_quiet (worker_accepts_task alt) k s ltac:(auto with quiet)) as (accepts & w & ->). unfold k.
  destruct accepts; cbn [negb]; [|by apply Hskip].
  destruct (run_stage_cases alt ticket {| world := w; lineage := lineage s; runs := runs s |}) as (r & w' & rs1 & E & Hsent).
  unfold mbind at 1. rewrite E. cbn [lineage runs]. pose proof (so_len _ _ _ _ Hsent) as Hlen.
  pose proof (so_on _ _ _ _ Hsent) as Hon. rewrite Forall_forall in Hon.
  assert (forall x, x ∈ rs1 -> run_on x ∈ alt :: eps /\ run_on x ∉ tried) as Hone.
  { intros x Hx. rewrite (Hon x Hx). split; [left|done]. }
  assert (forall ep, (sends_to ep rs1 <= 3)%nat) as Hthree by (intros ep; pose proof (sends_to_length ep rs1); lia).
  destruct r as [b|e].
  - unfold mbind. rewrite record_if_producer_eq. cbn [lineage runs world]. exists rs1.
    split_and!; [done|by apply sent_ok|done|done].
  - destruct (is_retryable e) eqn:Er; [|by exists rs1; split_and!; [|eapply sent_terminal| |]].
    specialize (IH (tried ++ [alt]) (Some e) {| world := w'; lineage := lineage s; runs := runs s ++ rs1 |}). cbn [lineage runs] in IH.
    destruct (alternates ticket eps (tried ++ [alt]) (Some e) _) as [o s'].
    destruct IH as (rs & Hrs & Hex & Hnd & Hin). exists (rs1 ++ rs).
    split_and!; [by rewrite Hrs, <-app_assoc|apply explains_app; [apply Hsent|by eapply sent_retried|done]| |].
    + intros ep. rewrite sends_to_app. destruct (decide (ep = alt)) as [->|Hne].
      * rewrite (sends_to_none alt rs); [pose proof (sends_to_length alt rs1); lia|].
        intros x Hx Ha. destruct (Hin x Hx) as [_ Hn]. apply Hn. rewrite Ha. apply elem_of_app. right. left.
      * rewrite (sends_to_none ep rs1); [apply Hnd|]. intros x Hx. rewrite (Hon x Hx). congruence.
    + intros x [Hx|Hx]%elem_of_app; [by apply Hone|]. destruct (Hin x Hx) as [? Hn].
      apply not_elem_of_app in Hn as [? _]. split; [by right|done].
Qed.

End Log.

(** ** Theorems *)

Section Correct.
Context `{Workers W Batch} (retries_var : option str) (stages : gmap Z TaskStage).
Abbreviation TM := (M (TaskState W Batch)).

Lemma task_max_retries_pos : 0 < task_max_retries retries_var.
Proof.
  unfold task_max_retries. destruct (retries_var ≫= _) as [n|]; cbn; [|lia]. destruct (Z.ltb_spec 0 n); cbn; lia.
Qed.

(** C9. A task without shuffle inputs is sent to its own worker at most three
    times ([do_get_batches]) for each of its [OXIDANT_TASK_MAX_RETRIES]
    attempts, and then at most three times to each other worker.  It is sent
    again only after an error worth retrying: an error that is not (a stage
    timeout, whose attempt may still be running on the worker) ends the task at
    once.  The first success is returned, and is recorded as the producer of
    the task's output; a failed task leaves the lineage alone.  A task with
    shuffle inputs may also recompute them and is not covered. *)
Theorem leaf_task_correct fuel primary ticket (s : TaskState W Batch) :
  tk_upstreams ticket = [] ->
  let '(o, s') := run_stage_inner retries_var stages (S fuel) primary ticket s in
  exists own others, runs s' = runs s ++ own ++ others /\
    Forall (fun r => run_ticket r = ticket) (own ++ others) /\
    Forall (fun r => run_on r = primary) own /\ Z.of_nat (length own) <= 3 * task_max_retries retries_var /\
    (forall ep, (sends_to ep others <= 3)%nat) /\ sends_to primary others = 0%nat /\
    match o with
    | Done b => exists before ep, own ++ others = before ++ [{| run_on := ep; run_ticket := ticket; run_result := Ok b |}] /\
        Forall retried before /\ lineage s' = recorded ticket ep (lineage s)
    | Failed e => lineage s' = lineage s /\
        (Forall retried (own ++ others) \/
         exists before ep, own ++ others = before ++ [{| run_on := ep; run_ticket := ticket; run_result := Err e |}] /\
           Forall retried before /\ is_retryable e = false)
    | Crashed => False
    end.
Proof.
  intros Hleaf. cbn [run_stage_inner]. unfold run_stage_inner_impl. pose proof task_max_retries_pos as Hmax.
  set (max := task_max_retries retries_var) in *.
  pose proof (attempts_log max primary ticket (range 0 max) None s) as Ha. rewrite length_range in Ha.
  unfold mbind at 1. destruct (attempts max primary ticket (range 0 max) None s) as [o1 s1].
  destruct Ha as (own & Er & [Et Eo] & Eon & Elen).
  assert (Z.of_nat (length own) <= 3 * max) as Hlen by lia.
  destruct o1 as [[b|le]|e|]; [| | |done].
  - exists own, []. rewrite app_nil_r. cbn. destruct Eo as (rs0 & ep & -> & Hrs & Hl).
    split_and!; try done; [intros; cbn; lia|by exists rs0, ep].
  - destruct Eo as [Hretr Hl]. unfold after_recompute. rewrite Hleaf, bool_decide_true by done. cbn [negb andb].
    unfold mbind at 1. cbn [ret]. set (k := fun eps => mbind (alternates ticket eps [primary] le) _).
    destruct (mbind_quiet (ask live_endpoints) k s1 ltac:(auto with quiet)) as (eps & w & ->). unfold k.
    pose proof (alternates_log ticket eps [primary] le {| world := w; lineage := lineage s1; runs := runs s1 |}) as Hb.
    unfold mbind. destruct (alternates ticket eps [primary] le _) as [o2 s2]. cbn [lineage runs] in Hb.
    destruct Hb as (others & Er2 & [Et2 Eo2] & Hnd & Hin). rewrite Er, <-app_assoc in Er2.
    assert (sends_to primary others = 0%nat) as Hprim.
    { apply sends_to_none. intros r Hr Hp. destruct (Hin _ Hr) as [_ Hn]. apply Hn. rewrite Hp. left. }
    assert (Forall (fun r => run_ticket r = ticket) (own ++ others)) as Hall by (by apply Forall_app).
    destruct o2 as [[b|[e|]]|e|]; [| | | |done]; cbn.
    + destruct Eo2 as (rs0 & ep & -> & Hrs & Hl2). exists own, (rs0 ++ [{| run_on := ep; run_ticket := ticket; run_result := Ok b |}]).
      split_and!; try done. exists (own ++ rs0), ep. rewrite <-app_assoc. split_and!; [done|by apply Forall_app|by rewrite Hl2, Hl].
    + destruct Eo2 as [Hr2 Hl2]. exists own, others. split_and!; try done; [by rewrite Hl2, Hl|]. left. by apply Forall_app.
    + destruct Eo2 as [Hr2 Hl2]. exists own, others. split_and!; try done; [by rewrite Hl2, Hl|]. left. by apply Forall_app.
    + destruct Eo2 as (rs0 & ep & -> & Hrs & Hnr & Hl2). exists own, (rs0 ++ [{| run_on := ep; run_ticket := ticket; run_result := Err e |}]).
      split_and!; try done; [by rewrite Hl2, Hl|]. right. exists (own ++ rs0), ep. rewrite <-app_assoc.
      split_and!; [done|by apply Forall_app|done].
  - exists own, []. rewrite app_nil_r. cbn. destruct Eo as (rs0 & ep & -> & Hrs & Hnr & Hl).
    split_and!; try done; [intros; cbn; lia|]. right. by exists rs0, ep.
Qed.

(** *** Every task: success and termination *)

Definition last_ok (ticket : StageTicket) (b : list Batch) (s : TaskState W Batch) : Prop :=
  exists ep, last (runs s) = Some {| run_on := ep; run_ticket := ticket; run_result := Ok b |}.

Lemma explains_last ticket lin lin' (rs l : list (run Batch)) b :
  explains ticket lin lin' rs (Done (inl b)) ->
  exists ep, last (l ++ rs) = Some {| run_on := ep; run_ticket := ticket; run_result := Ok b |}.
Proof. intros [_ (rs0 & ep & -> & _)]. exists ep. by rewrite app_assoc, last_snoc. Qed.

(** Whatever a task had to do, recompute its inputs or move to another
    worker, the batches it returns are those of the last stage ticket that was
    sent, and that was this very ticket. *)
Theorem task_success_was_run fuel primary ticket (s s' : TaskState W Batch) b :
  run_stage_inner retries_var stages fuel primary ticket s = (Done b, s') -> last_ok ticket b s'.
Proof.
  destruct fuel as [|fuel]; [done|]. cbn [run_stage_inner]. unfold run_stage_inner_impl.
  set (max := task_max_retries retries_var). unfold mbind at 1.
  pose proof (attempts_log max primary ticket (range 0 max) None s) as Ha.
  destruct (attempts max primary ticket (range 0 max) None s) as [[[b1|le]|e|] s1]; [| |done|done].
  { destruct Ha as (rs & Er & Hex & _). intros [= <- <-]. unfold last_ok. rewrite Er. by eapply explains_last. }
  unfold mbind at 1.
  assert (forall b2 s2, after_recompute stages (run_stage_inner retries_var stages fuel) primary ticket le s1 = (Done (inl b2), s2) ->
    last_ok ticket b2 s2) as Hrec.
  { clear. intros b2 s2. unfold after_recompute. destruct (negb _ && _); [|done]. unfold mbind at 1.
    destruct (try_ _ s1) as [[[u|e]|e|] s3]; [|done|done|done].
    set (k := fun accepts : bool => if accepts then _ else _).
    destruct (mbind_quiet (worker_accepts_task primary) k s3 ltac:(auto with quiet)) as (acc & w & ->). unfold k.
    destruct acc.
    - destruct (run_stage_cases primary ticket {| world := w; lineage := lineage s3; runs := runs s3 |}) as (r & w' & rs & E & Hsent).
      unfold mbind. rewrite E. destruct r as [b|e]; [|done]. intros [= <- <-]. exists primary.
      destruct Hsent as [_ _ (rs0 & -> & _) _]. cbn. by rewrite app_assoc, last_snoc.
    - set (k' := fun e => ret (inr (Some e))).
      destruct (mbind_quiet (no_free_slots_error primary) k' {| world := w; lineage := lineage s3; runs := runs s3 |}
        ltac:(auto with quiet)) as (e & w' & ->). done. }
  destruct (after_recompute _ _ _ _ _ _) as [[[b2|le2]|e|] s2]; [|clear Hrec|done|done].
  { intros [= <- <-]. by apply Hrec. }
  set (k := fun eps => mbind (alternates ticket eps [primary] le2) _).
  destruct (mbind_quiet (ask live_endpoints) k s2 ltac:(auto with quiet)) as (eps & w & ->). unfold k, mbind.
  pose proof (alternates_log ticket eps [primary] le2 {| world := w; lineage := lineage s2; runs := runs s2 |}) as Hb.
  destruct (alternates ticket eps [primary] le2 _) as [[[b3|[e|]]|e|] s3]; [|done|done|done|done].
  destruct Hb as (rs & Er & Hex & _). intros [= <- <-]. unfold last_ok. rewrite Er. by eapply explains_last.
Qed.

(** [m] does not run out of fuel. *)
Definition ends {A} (m : TM A) : Prop := forall s, (m s).1 <> Crashed.

Lemma ends_quiet {A} (m : TM A) : quiet m -> ends m.
Proof. intros Hm s. destruct (Hm s) as (a & w & ->). done. Qed.
Lemma ends_bind {A B} (m : TM A) (k : A -> TM B) : ends m -> (forall a, ends (k a)) -> ends (mbind m k).
Proof. intros Hm Hk s. unfold mbind. specialize (Hm s). destruct (m s) as [[a|e|] s']; [apply Hk|done|done]. Qed.
Lemma ends_throw {A} e : ends (throw e : TM A).
Proof. done. Qed.
Lemma ends_try {A} (m : TM A) : ends m -> ends (try_ m).
Proof. intros Hm s. unfold try_. specialize (Hm s). by destruct (m s) as [[a|e|] s']. Qed.
Lemma ends_run ep ticket : ends (run_stage_on_worker ep ticket : TM _).
Proof. intros s. destruct (run_stage_cases ep ticket s) as (r & w & rs & -> & _). done. Qed.

Lemma quiet_bucket ep st x : quiet (do_get_batches ep (bucket_once ep st x) : TM _).
Proof.
  unfold do_get_batches. generalize 2%nat. intros n.
  induction n as [|n IHn]; (apply quiet_bind; [apply quiet_ask|]); intros [b|e]; auto with quiet.
  destruct (negb _); auto with quiet. by apply quiet_bind; [apply quiet_ask|].
Qed.

Lemma quiet_readable ep st l : quiet (all_readable ep st l : TM bool).
Proof.
  induction l as [|x l IH]; [apply quiet_ret|]. apply quiet_bind; [|intros [[|b bs]|e]; auto with quiet].
  unfold pull_bucket_with_retry. generalize 2%nat. intros n.
  induction n as [|n IHn]; (apply quiet_bind; [apply quiet_bucket|]); intros [b|e]; auto with quiet.
  by destruct (is_pull_retryable e); auto with quiet.
Qed.

Lemma ends_target ep : ends (recompute_target ep : TM _).
Proof.
  apply ends_bind; [|intros [|e l]].
  - apply ends_quiet. repeat (apply quiet_bind; [auto with quiet|intros]); auto with quiet.
  - apply ends_bind; [apply ends_quiet; auto with quiet|]. intros eps. destruct (List.find _ eps); [apply ends_quiet; auto with quiet|done].
  - apply ends_quiet. auto with quiet.
Qed.

Lemma ends_stages run_inner consumer ups :
  (forall up sg ep i, up ∈ ups -> stages !! up = Some sg -> ends (run_inner ep (producer_ticket stages consumer up sg i))) ->
  ends (recompute_stages stages run_inner consumer ups : TM unit).
Proof.
  induction ups as [|up ups IH]; intros Hr; [apply ends_quiet, quiet_ret|]. cbn [recompute_stages].
  destruct (stages !! up) as [sg|] eqn:E; [|done]. apply ends_bind; [|intros _; apply IH; intros; apply Hr; [by right|done]].
  generalize (enumerate (if bool_decide (sg_exchange sg = Forward) then take 1 (upstream_endpoints consumer) else upstream_endpoints consumer)).
  intros l. induction l as [|[i ep] l IHl]; [apply ends_quiet, quiet_ret|]. cbn [recompute_stage].
  apply ends_bind; [apply ends_quiet, quiet_readable|]. intros [|]; [done|].
  apply ends_bind; [apply ends_target|]. intros t. apply ends_bind; [apply Hr; [left|done]|done].
Qed.

Lemma ends_attempts max primary ticket l le : ends (attempts max primary ticket l le : TM _).
Proof.
  intros s. pose proof (attempts_log max primary ticket l le s) as Ha.
  destruct (attempts _ _ _ _ _ s) as [[?|?|] s']; [done|done|]. by destruct Ha as (? & _ & [_ []] & _).
Qed.
Lemma ends_alternates ticket eps tried le : ends (alternates ticket eps tried le : TM _).
Proof.
  intros s. pose proof (alternates_log ticket eps tried le s) as Ha.
  destruct (alternates _ _ _ _ s) as [[?|?|] s']; [done|done|]. by destruct Ha as (? & _ & [_ []] & _).
Qed.

(** Recomputation ends: on a stage graph without cycles the recursion from a
    task to the producers of its inputs, and to theirs, is at most as deep as
    the graph, so with that much fuel the task is always answered. *)
Theorem task_answers (rank : Z -> nat) fuel primary ticket (s : TaskState W Batch) :
  (forall id sg up, stages !! id = Some sg -> up ∈ sg_upstreams sg -> (rank up < rank id)%nat) ->
  (forall up, up ∈ tk_upstreams ticket -> (rank up < fuel)%nat) ->
  (run_stage_inner retries_var stages (S fuel) primary ticket s).1 <> Crashed.
Proof.
  intros Hrank. revert primary ticket s. induction fuel as [fuel IH] using lt_wf_ind. intros primary ticket s Hups. revert s.
  change (ends (run_stage_inner retries_var stages (S fuel) primary ticket)). cbn [run_stage_inner].
  apply ends_bind; [apply ends_attempts|]. intros [b|le]; [apply ends_quiet, quiet_ret|].
  apply ends_bind.
  - unfold after_recompute. destruct (negb _ && _); [|apply ends_quiet, quiet_ret].
    apply ends_bind.
    + apply ends_try, ends_stages. intros up sg ep i Hup Hsg. destruct fuel as [|fuel]; [by apply Hups in Hup; lia|].
      intros s. apply (IH fuel ltac:(lia)). intros up' Hup'. pose proof (Hrank _ _ _ Hsg Hup'). specialize (Hups _ Hup). lia.
    + intros [u|e]; [|apply ends_quiet, quiet_ret]. apply ends_bind; [apply ends_quiet; auto with quiet|]. intros [|].
      * apply ends_bind; [apply ends_run|]. intros [b|e]; apply ends_quiet, quiet_ret.
      * apply ends_bind; [apply ends_quiet; auto with quiet|]. intros e. apply ends_quiet, quiet_ret.
  - intros [b|le2]; [apply ends_quiet, quiet_ret|]. apply ends_bind; [apply ends_quiet; auto with quiet|]. intros eps.
    apply ends_bind; [apply ends_alternates|]. intros [b|[e|]]; [apply ends_quiet, quiet_ret|done|done].
Qed.

End Correct.

(** ** Concrete runs *)
Module TaskRuns.

(** The answers the next stage tasks give; every worker has a free slot, no
    bucket can be read, and the membership lists two workers. *)
Definition World := list (result Error (list Z)).
#[local] Instance scripted : Workers World Z := {|
  do_get_stage _ _ w := match w with r :: w => (r, w) | [] => (Ok [], []) end;
  heartbeat_worker _ w := (Ok {| slots_total := Some 4; slots_used := Some 0 |}, w);
  health_check_worker _ w := (Ok tt, w);
  do_get_bucket _ _ _ w := (Ok [], w);
  drop_channel _ w := w;
  live_endpoints w := ([lit "w1"; lit "w2"], w);
|}.

Definition stage (ups : list Z) : TaskStage := {|
  sg_sql := lit "SELECT 1"; sg_upstreams := ups; sg_hash_key_cols := [0]; sg_exchange := Hash; sg_plan_fragment := None;
  sg_pins := []; sg_replicated := []; sg_lf_required := false; sg_lf_principal := [] |}.
Definition demo_stages : gmap Z TaskStage := {[ 0 := stage []; 1 := stage [0] ]}.

Definition ticket (id : Z) (ups : list Z) (p : bool) : StageTicket := {|
  tk_stage_id := id; partition_id := 0; tk_num_partitions := 1; upstream_endpoints := if bool_decide (ups = []) then [] else [lit "w1"];
  tk_sql := lit "SELECT 1"; tk_plan_fragment := []; tk_hash_key_cols := [0]; tk_upstreams := ups; produce := p; tk_pins := [];
  tk_replicated := []; coalesce_read_modulus := 0; forward_upstream_stage_ids := []; upstream_bucket_rows := [];
  tk_lf_required := false; tk_lf_principal := [] |}.

Definition start (w : World) : TaskState World Z := {| world := w; lineage := ∅; runs := [] |}.

Definition one_try : option str := Some (lit "1").
Definition missing : Error := Execution (lit "do_get: shuffle bucket not found").
Definition timeout : Error := Execution (lit "do_get: stage timed out after 600000 ms (OXIDANT_STAGE_TIMEOUT_MS)").

Definition consumer : StageTicket := ticket 1 [0] false.
Definition rerun : StageTicket := producer_ticket demo_stages consumer 0 (stage []) 0.

(** The bucket is missing for all the sends of one attempt. *)
Definition stale : World := repeat (Err missing) 3 ++ [Ok []; Err timeout; Ok [7]].

(** A stage timeout is not retryable, because the attempt may still be running
    on its worker; yet when it strikes the run that follows a recomputation of
    the task's inputs, the task goes on to the other workers and is run a
    second time. *)
Theorem timeout_rerun_after_recompute :
  is_retryable timeout = false /\
  let '(o, s') := run_stage_inner one_try demo_stages 2 (lit "w1") consumer (start stale) in
  o = Done [7] /\
  runs s' = repeat {| run_on := lit "w1"; run_ticket := consumer; run_result := Err missing |} 3 ++
            [{| run_on := lit "w1"; run_ticket := rerun; run_result := Ok [] |};
             {| run_on := lit "w1"; run_ticket := consumer; run_result := Err timeout |};
             {| run_on := lit "w2"; run_ticket := consumer; run_result := Ok [7] |}].
Proof. vm_compute. repeat split. Qed.

(** A producing task that succeeds in the run after a recomputation is not
    recorded in the lineage, although the producer it recomputed is. *)
Theorem recovered_producer_unrecorded :
  let '(o, s') := run_stage_inner one_try demo_stages 2 (lit "w1") (ticket 1 [0] true) (start (repeat (Err missing) 3 ++ [Ok []; Ok []])) in
  o = Done [] /\ producer_endpoint s' 0 0 = Some (lit "w1") /\ producer_endpoint s' 1 0 = None.
Proof. vm_compute. repeat split. Qed.

Lemma leaf_task_correct_witness :
  let t := ticket 0 [] true in
  let '(o, s') := run_stage_inner one_try demo_stages 1 (lit "w1") t (start (repeat (Err missing) 3 ++ [Err missing; Ok [5]])) in
  exists own others, runs s' = [] ++ own ++ others /\
    Forall (fun r => run_ticket r = t) (own ++ others) /\
    Forall (fun r => run_on r = lit "w1") own /\ Z.of_nat (length own) <= 3 /\
    (forall ep, (sends_to ep others <= 3)%nat) /\ sends_to (lit "w1") others = 0%nat /\
    match o with
    | Done b => exists before ep, own ++ others = before ++ [{| run_on := ep; run_ticket := t; run_result := Ok b |}] /\
        Forall retried before /\ lineage s' = recorded t ep ∅
    | Failed e => lineage s' = ∅ /\
        (Forall retried (own ++ others) \/
         exists before ep, own ++ others = before ++ [{| run_on := ep; run_ticket := t; run_result := Err e |}] /\
           Forall retried before /\ is_retryable e = false)
    | Crashed => False
    end.
Proof. exact (leaf_task_correct one_try demo_stages 0 (lit "w1") (ticket 0 [] true) (start (repeat (Err missing) 3 ++ [Err missing; Ok [5]])) eq_refl). Defined.

Lemma task_success_was_run_witness :
  last_ok consumer [7] (run_stage_inner one_try demo_stages 2 (lit "w1") consumer (start stale)).2.
Proof.
  refine (task_success_was_run one_try demo_stages 2 (lit "w1") consumer (start stale) _ [7] _).
  vm_compute. reflexivity.
Defined.

Lemma task_answers_witness :
  (run_stage_inner one_try demo_stages 2 (lit "w1") consumer (start [Err missing; Err timeout])).1 <> Crashed.
Proof.
  refine (task_answers one_try demo_stages Z.to_nat 1 (lit "w1") consumer _ _ _).
  - intros id sg up Hid Hup. unfold demo_stages in Hid. apply lookup_insert_Some in Hid as [[<- <-]|[_ Hid]]; [by apply elem_of_nil in Hup|].
    apply lookup_singleton_Some in Hid as [<- <-]. apply list_elem_of_singleton in Hup as ->. vm_compute. lia.
  - intros up Hup. apply list_elem_of_singleton in Hup as ->. vm_compute. lia.
Defined.

End TaskRuns.
