(* ===== verification/PipelineGraph.v ===== *)
(** * PipelineGraph: the order in which a pipeline's tables are updated

    [oxidant-pipelines/src/graph.rs]: edges from the tables a definition
    reads, a depth-first topological sort that reports a cycle with its path,
    and the subgraph of a table selection.  Which tables a SQL text mentions is
    decided by DataFusion's parser and is a parameter ([refs]).  [BTreeMap] and
    [BTreeSet] keyed by names are [gmap] and [gset]. *)

From S2P Require Import Prelude Text.

Abbreviation name := (list Z) (only parsing).

(** [AppendFlow], [ExpectAction] and [Expectation]. *)
Record AppendFlow := { af_sql : str; af_by_name : bool }.
Inductive ExpectAction := Warn | Drop | Fail.
Record Expectation := { check : str; action : ExpectAction }.

(** The fields of [TableConfig] the graph and the passes over it look at:
    [tc_source] says whether the table has a streaming source, [tc_auto_cdc] is
    the source of an automatic CDC flow; [tc_expect] is a [BTreeMap], as the
    list of its entries in key order. *)
Record TableConfig := {
  tc_name : name;
  tc_source : bool;
  tc_auto_cdc : option name;
  tc_sql : option str;
  tc_sql_by_name : bool;
  tc_append_flows : list AppendFlow;
  tc_output_schema : option str;
  tc_expect : list (str * Expectation);
}.

Record Node := {
  nd_name : name;
  depends_on : list name;
  reads_outside_pipeline : bool;
}.

(** ** Edges *)

(** [reference.rsplit('.').next()]: the text after the last dot. *)
Definition short_name (reference : name) : name :=
  match rsplit_once 46 reference with Some (_, s) => s | None => reference end.

Definition push_new (deps : list name) (d : name) : list name :=
  if bool_decide (d ∈ deps) then deps else deps ++ [d].

(** The inner [for candidate in [reference, short]]. *)
Definition add_candidate (declared : gset name) (self : name) (acc : list name * bool) (candidate : name)
    : list name * bool :=
  if bool_decide (candidate <> self) && bool_decide (candidate ∈ declared)
  then (push_new acc.1 candidate, true) else acc.

Definition add_reference (declared : gset name) (self : name) (acc : list name * bool) (reference : name)
    : list name * bool :=
  let short := short_name reference in
  let matched := bool_decide (reference = self) || bool_decide (short = self) in
  let '(deps, matched) := foldl (add_candidate declared self) (acc.1, matched) [reference; short] in
  (deps, acc.2 || negb matched).

Definition cdc_deps (declared : gset name) (self : name) (cdc : option name) : list name :=
  match cdc with
  | Some source0 =>
      let source := trim source0 in
      if bool_decide (source <> self) && bool_decide (source ∈ declared) then [source] else []
  | None => []
  end.

Section Graph.
(** [table_references]. *)
Context (refs : str -> result Error (list name)).

(** One table: its dependencies and whether it reads outside the pipeline. *)
Definition table_edges (declared : gset name) (t : TableConfig) : result Error (list name * bool) :=
  let self := trim (tc_name t) in
  let deps := cdc_deps declared self (tc_auto_cdc t) in
  match tc_sql t with
  | None => Ok (deps, false)
  | Some sql => let! rs := refs sql in Ok (foldl (add_reference declared self) (deps, false) rs)
  end.

Definition declared_names (tables : list TableConfig) : gset name :=
  list_to_set ((fun t => trim (tc_name t)) <$> tables).

(** The loop of [Graph::build] over the tables. *)
Fixpoint collect_edges (declared : gset name) (tables : list TableConfig)
    (acc : gmap name (list name) * gmap name bool) : result Error (gmap name (list name) * gmap name bool) :=
  match tables with
  | [] => Ok acc
  | t :: tables =>
      let! e := table_edges declared t in
      collect_edges declared tables
        (<[trim (tc_name t) := e.1]> acc.1, <[trim (tc_name t) := e.2]> acc.2)
  end.

(** ** The sort *)

Inductive Mark := Visiting | Done.

Record Search := {
  marks : gmap name Mark;
  stack : list name;
  out : list name;
}.

Definition edges_of (edges : gmap name (list name)) (n : name) : list name := default [] (edges !! n).

Fixpoint position_of (n : name) (l : list name) : option nat :=
  match l with
  | [] => None
  | x :: l => if bool_decide (x = n) then Some 0%nat else S <$> position_of n l
  end.

Definition cycle_error (cycle : list name) : Error :=
  Io (fmt [lit "the table graph has a cycle: "; join (lit " -> ") cycle]).

(** [for d in deps { visit(d)?; }]. *)
Fixpoint for_each (f : name -> Search -> result Error Search) (l : list name) (st : Search) : result Error Search :=
  match l with
  | [] => Ok st
  | d :: l => let! st := f d st in for_each f l st
  end.

(** [visit].  The stack never holds a name twice, so one unit of fuel per
    declared table and one more is enough; running out of fuel is an error no
    real error equals. *)
Fixpoint visit (fuel : nat) (edges : gmap name (list name)) (n : name) (st : Search) : result Error Search :=
  match fuel with
  | O => Err (Io [])
  | S fuel =>
      match marks st !! n with
      | Some Done => Ok st
      | Some Visiting =>
          let start := default 0%nat (position_of n (stack st)) in
          Err (cycle_error (drop start (stack st) ++ [n]))
      | None =>
          let! st := for_each (visit fuel edges) (edges_of edges n)
            {| marks := <[n := Visiting]> (marks st); stack := stack st ++ [n]; out := out st |} in
          Ok {| marks := <[n := Done]> (marks st); stack := removelast (stack st); out := out st ++ [n] |}
      end
  end.

Definition seed_visit (fuel : nat) (edges : gmap name (list name)) (n : name) (st : Search) : result Error Search :=
  visit fuel edges n {| marks := marks st; stack := []; out := out st |}.

(** [topological_order]. *)
Definition topological_order (tables : list TableConfig) (edges : gmap name (list name))
    : result Error (list Node) :=
  let! st := for_each (seed_visit (S (size (dom edges))) edges) ((fun t => trim (tc_name t)) <$> tables)
    {| marks := ∅; stack := []; out := [] |} in
  Ok ((fun n => {| nd_name := n; depends_on := edges_of edges n; reads_outside_pipeline := false |}) <$> out st).

(** [Graph::build]. *)
Definition build (tables : list TableConfig) : result Error (list Node) :=
  let declared := declared_names tables in
  let! eo := collect_edges declared tables (∅, ∅) in
  let! order := topological_order tables eo.1 in
  Ok ((fun nd => {| nd_name := nd_name nd; depends_on := depends_on nd;
                    reads_outside_pipeline := default false (eo.2 !! nd_name nd) |}) <$> order).

(** ** [Graph::subgraph] *)

Definition by_name (order : list Node) (n : name) : option Node :=
  (* collecting into a map keeps the last of equal names *)
  list_find (fun nd => nd_name nd = n) (reverse order) ≫= fun p => Some p.2.

(** The [while] over the stack (head = top).  An entry pushes its dependencies
    only the first time it is needed, so the pushes are bounded by the edges. *)
Fixpoint need_loop (fuel : nat) (order : list Node) (needed : gset name) (stk : list name) : gset name :=
  match fuel with
  | O => needed
  | S fuel =>
      match stk with
      | [] => needed
      | n :: stk =>
          if bool_decide (n ∈ needed) then need_loop fuel order needed stk
          else need_loop fuel order ({[ n ]} ∪ needed)
                 (match by_name order n with Some nd => reverse (depends_on nd) | None => [] end ++ stk)
      end
  end.

Definition need_fuel (order : list Node) (wanted : list name) : nat :=
  S (length wanted + foldr (fun nd k => length (depends_on nd) + k)%nat 0%nat order).

Definition not_declared (order : list Node) (n : name) : Error :=
  Io (fmt [lit "`--table "; n; lit "` is not a declared table (declared: ";
           join (lit ", ") (nd_name <$> order); lit ")"]).

Definition subgraph (order : list Node) (wanted : list name) : result Error (list Node) :=
  match wanted with
  | [] => Ok order
  | _ =>
      match list_find (fun n => n ∉ nd_name <$> order) wanted with
      | Some (_, n) => Err (not_declared order n)
      | None =>
          let needed := need_loop (need_fuel order wanted) order ∅ (reverse wanted) in
          Ok (filter (fun nd => nd_name nd ∈ needed) order)
      end
  end.

End Graph.

(** ** Correctness of the sort *)

Section Sort.
Context (edges : gmap name (list name)).
Abbreviation next := (edges_of edges).

(** A walk along edges. *)
Definition Path (l : list name) : Prop :=
  forall i a b, l !! i = Some a -> l !! S i = Some b -> b ∈ next a.

(** A closed walk of at least one edge. *)
Definition is_cycle (l : list name) : Prop :=
  Path l /\ (2 <= length l)%nat /\ head l = last l.

Record dfs (st : Search) : Prop := {
  dfs_done : forall x, marks st !! x = Some Done <-> x ∈ out st;
  dfs_visiting : forall x, marks st !! x = Some Visiting <-> x ∈ stack st;
  dfs_nodup_out : NoDup (out st);
  dfs_nodup_stack : NoDup (stack st);
  dfs_path : Path (stack st);
  dfs_topo : forall i x, out st !! i = Some x -> forall d, d ∈ next x -> d ∈ take i (out st);
  dfs_known : forall x, x ∈ stack st \/ x ∈ out st -> x ∈ dom edges;
}.

Lemma Path_snoc l n : Path l -> (forall p, last l = Some p -> n ∈ next p) -> Path (l ++ [n]).
Proof.
  intros Hl Hn i a b Ha Hb. apply lookup_lt_Some in Hb as Hlt. rewrite length_app in Hlt. simpl in Hlt.
  destruct (decide (S i = length l)) as [E|].
  - rewrite lookup_app_r in Hb by lia. replace (S i - length l)%nat with 0%nat in Hb by lia. injection Hb as <-.
    rewrite lookup_app_l in Ha by lia. apply Hn. rewrite last_lookup. by rewrite <-E.
  - rewrite lookup_app_l in Ha by lia. rewrite lookup_app_l in Hb by lia. by eapply Hl.
Qed.

Lemma Path_drop l k : Path l -> Path (drop k l).
Proof.
  intros Hl i a b. rewrite !lookup_drop. intros Ha Hb. eapply Hl; [exact Ha|]. by rewrite <-Hb, Nat.add_succ_r.
Qed.

Lemma position_of_lookup n l : n ∈ l -> exists i, position_of n l = Some i /\ l !! i = Some n.
Proof.
  induction l as [|x l IH]; intros Hn; [by apply elem_of_nil in Hn|]. simpl.
  destruct (bool_decide_reflect (x = n)) as [->|Hne]; [by exists 0%nat|].
  apply elem_of_cons in Hn as [->|Hn]; [done|]. destruct (IH Hn) as (i & -> & Hi). by exists (S i).
Qed.

Lemma stack_bound st : dfs st -> (length (stack st) <= size (dom edges))%nat.
Proof.
  intros I. rewrite <-(size_list_to_set (C := gset name) (stack st)) by apply I.
  apply subseteq_size. intros x Hx. apply elem_of_list_to_set in Hx. apply (dfs_known _ I). by left.
Qed.

(** Closing an edge back into the stack closes a cycle. *)
Lemma back_edge_cycle st n :
  dfs st -> n ∈ stack st -> (forall p, last (stack st) = Some p -> n ∈ next p) ->
  is_cycle (drop (default 0%nat (position_of n (stack st))) (stack st) ++ [n]).
Proof.
  intros I Hn Hlast. destruct (position_of_lookup n (stack st) Hn) as (i & -> & Hi). simpl.
  apply lookup_lt_Some in Hi as Hlt.
  assert (head (drop i (stack st)) = Some n) as Hh by (by rewrite head_lookup, lookup_drop, Nat.add_0_r).
  split_and!.
  - apply Path_snoc; [apply Path_drop, I|]. intros p Hp. apply Hlast.
    rewrite last_lookup, length_drop, lookup_drop in Hp. rewrite last_lookup, <-Hp. f_equal. lia.
  - rewrite length_app, length_drop. simpl. lia.
  - rewrite last_snoc. by destruct (drop i (stack st)).
Qed.

Definition extends (st st' : Search) : Prop := stack st' = stack st /\ exists new, out st' = out st ++ new.

Lemma extends_elem st st' x : extends st st' -> x ∈ out st -> x ∈ out st'.
Proof. intros [_ [new ->]] Hx. apply elem_of_app. by left. Qed.

Lemma extends_trans st st' st'' : extends st st' -> extends st' st'' -> extends st st''.
Proof. intros [E [n1 O1]] [E' [n2 O2]]. split; [congruence|]. exists (n1 ++ n2). by rewrite O2, O1, app_assoc. Qed.

Definition visit_post (n : name) (st : Search) (r : result Error Search) : Prop :=
  match r with
  | Ok st' => dfs st' /\ extends st st' /\ n ∈ out st'
  | Err e => exists c, e = cycle_error c /\ is_cycle c
  end.

Lemma for_each_post f l st :
  (forall d st', d ∈ l -> dfs st' -> extends st st' -> visit_post d st' (f d st')) ->
  dfs st ->
  match for_each f l st with
  | Ok st' => dfs st' /\ extends st st' /\ forall d, d ∈ l -> d ∈ out st'
  | Err e => exists c, e = cycle_error c /\ is_cycle c
  end.
Proof.
  revert st. induction l as [|d l IH]; intros st Hf Hst; simpl.
  { split_and!; [done|split; [done|exists []; by rewrite app_nil_r]|by intros ? ?%elem_of_nil]. }
  assert (extends st st) as Hrefl by (split; [done|exists []; by rewrite app_nil_r]).
  pose proof (Hf d st ltac:(left) Hst Hrefl) as Hd. destruct (f d st) as [st1|e]; cbn [rbind]; [|exact Hd].
  destruct Hd as (I1 & E1 & Hin).
  specialize (IH st1). destruct (for_each f l st1) as [st2|e].
  - destruct IH as (I2 & E2 & Hall).
    { intros x st' Hx I' E'. apply Hf; [by right|done|by eapply extends_trans]. }
    { done. }
    split_and!; [done|by eapply extends_trans|]. intros x [->|Hx]%elem_of_cons; [by eapply extends_elem|by apply Hall].
  - apply IH; [|done]. intros x st' Hx I' E'. apply Hf; [by right|done|by eapply extends_trans].
Qed.

Context (Hclosed : forall n d, d ∈ next n -> d ∈ dom edges).

Lemma dfs_push st n :
  dfs st -> marks st !! n = None -> n ∈ dom edges -> (forall p, last (stack st) = Some p -> n ∈ next p) ->
  dfs {| marks := <[n := Visiting]> (marks st); stack := stack st ++ [n]; out := out st |}.
Proof.
  intros I Hn Hd Hlast. destruct I as [I1 I2 I3 I4 I5 I6 I7].
  assert (n ∉ stack st) as Hns by (intros H; apply I2 in H; congruence).
  assert (n ∉ out st) as Hno by (intros H; apply I1 in H; congruence).
  constructor; cbn [marks stack out]; try done.
  - intros x. destruct (decide (x = n)) as [->|]; [rewrite lookup_insert_eq; naive_solver|].
    by rewrite lookup_insert_ne.
  - intros x. rewrite elem_of_app, list_elem_of_singleton. destruct (decide (x = n)) as [->|].
    + rewrite lookup_insert_eq. naive_solver.
    + rewrite lookup_insert_ne by done. rewrite I2. naive_solver.
  - apply NoDup_app. split_and!; [done| |apply NoDup_singleton]. intros x Hx ->%list_elem_of_singleton. done.
  - by apply Path_snoc.
  - intros x [[Hx| ->%list_elem_of_singleton]%elem_of_app|Hx]; [apply I7; by left|done|apply I7; by right].
Qed.

Lemma dfs_pop st st1 n :
  dfs st1 -> extends {| marks := <[n := Visiting]> (marks st); stack := stack st ++ [n]; out := out st |} st1 ->
  (forall d, d ∈ next n -> d ∈ out st1) ->
  dfs {| marks := <[n := Done]> (marks st1); stack := removelast (stack st1); out := out st1 ++ [n] |}.
Proof.
  intros [I1 I2 I3 I4 I5 I6 I7] [Es _] Hdeps. cbn [stack] in Es. rewrite Es, removelast_last in *.
  assert (n ∈ stack st ++ [n]) as Hns by (apply elem_of_app; right; by apply list_elem_of_singleton).
  assert (marks st1 !! n = Some Visiting) as Hv by (by apply I2).
  assert (n ∉ out st1) as Hno by (intros H; apply I1 in H; congruence).
  apply NoDup_app in I4 as (Hnd & Hdisj & _).
  assert (n ∉ stack st) as Hn by (intros H; apply (Hdisj n H); by apply list_elem_of_singleton).
  constructor; cbn [marks stack out].
  - intros x. rewrite elem_of_app, list_elem_of_singleton. destruct (decide (x = n)) as [->|].
    + rewrite lookup_insert_eq. naive_solver.
    + rewrite lookup_insert_ne by done. rewrite I1. naive_solver.
  - intros x. destruct (decide (x = n)) as [->|]; [rewrite lookup_insert_eq; naive_solver|].
    rewrite lookup_insert_ne by done. rewrite I2, elem_of_app, list_elem_of_singleton. naive_solver.
  - apply NoDup_app. split_and!; [done| |apply NoDup_singleton]. intros x Hx ->%list_elem_of_singleton. done.
  - done.
  - intros i a b Ha Hb. eapply (I5 i); by apply lookup_app_l_Some.
  - intros i x Hx d Hd. destruct (decide (i < length (out st1))%nat) as [Hi|Hi].
    + rewrite lookup_app_l in Hx by done. rewrite take_app_le by lia. by eapply I6.
    + rewrite lookup_app_r in Hx by lia. apply lookup_lt_Some in Hx as Hlt. simpl in Hlt.
      replace (i - length (out st1))%nat with 0%nat in Hx by lia. injection Hx as <-.
      rewrite take_app_ge by lia. apply elem_of_app. left. by apply Hdeps.
  - intros x [Hx|[Hx| ->%list_elem_of_singleton]%elem_of_app].
    + apply I7. left. apply elem_of_app. by left.
    + apply I7. by right.
    + apply I7. by left.
Qed.

Lemma visit_spec fuel n st :
  dfs st -> n ∈ dom edges -> (forall p, last (stack st) = Some p -> n ∈ next p) ->
  (size (dom edges) < fuel + length (stack st))%nat ->
  visit_post n st (visit fuel edges n st).
Proof.
  revert n st. induction fuel as [|fuel IH]; intros n st I Hd Hlast Hf.
  { pose proof (stack_bound st I). lia. }
  cbn [visit]. destruct (marks st !! n) as [[|]|] eqn:Em.
  - exists (drop (default 0%nat (position_of n (stack st))) (stack st) ++ [n]). split; [done|].
    apply back_edge_cycle; [done|by apply (dfs_visiting _ I)|done].
  - split_and!; [done|split; [done|exists []; by rewrite app_nil_r]|by apply (dfs_done _ I)].
  - set (st0 := {| marks := _; stack := _; out := _ |}).
    pose proof (dfs_push st n I Em Hd Hlast) as I0. fold st0 in I0.
    assert (Hloop : match for_each (visit fuel edges) (next n) st0 with
      | Ok st' => dfs st' /\ extends st0 st' /\ forall d, d ∈ next n -> d ∈ out st'
      | Err e => exists c, e = cycle_error c /\ is_cycle c end).
    { apply for_each_post; [|done]. intros d st' Hdep I' [Es _]. apply IH; [done|by eapply Hclosed| |].
      - rewrite Es. subst st0. cbn [stack]. rewrite last_snoc. intros p [= <-]. done.
      - rewrite Es. subst st0. cbn [stack]. rewrite length_app. simpl. lia. }
    destruct (for_each _ _ st0) as [st1|e]; cbn [rbind]; [|exact Hloop].
    destruct Hloop as (I1 & E1 & Hall). pose proof (dfs_pop st st1 n I1 E1 Hall) as I2.
    destruct E1 as [Es [new Eo]]. subst st0. cbn [stack out] in Es, Eo.
    cbn [visit_post]. split_and!; [exact I2| |].
    + split; cbn [stack out]; [by rewrite Es, removelast_last|]. exists (new ++ [n]). by rewrite Eo, app_assoc.
    + cbn [out]. apply elem_of_app. right. by apply list_elem_of_singleton.
Qed.

Lemma seed_spec fuel n st :
  dfs st -> stack st = [] -> n ∈ dom edges -> (size (dom edges) < fuel)%nat ->
  visit_post n st (seed_visit fuel edges n st).
Proof.
  intros I Es Hd Hf. unfold seed_visit. rewrite <-Es.
  replace {| marks := marks st; stack := stack st; out := out st |} with st by (by destruct st).
  apply visit_spec; [done|done|by rewrite Es|lia].
Qed.

Lemma dfs_init : dfs {| marks := ∅; stack := []; out := [] |}.
Proof.
  constructor; cbn [marks stack out]; try done.
  - intros x. rewrite lookup_empty. split; [done|by intros ?%elem_of_nil].
  - intros x. rewrite lookup_empty. split; [done|by intros ?%elem_of_nil].
  - apply NoDup_nil_2.
  - apply NoDup_nil_2.
  - by intros x [?%elem_of_nil|?%elem_of_nil].
Qed.

Lemma sort_spec names :
  (forall n, n ∈ names -> n ∈ dom edges) ->
  match for_each (seed_visit (S (size (dom edges))) edges) names {| marks := ∅; stack := []; out := [] |} with
  | Ok st => dfs st /\ forall n, n ∈ names -> n ∈ out st
  | Err e => exists c, e = cycle_error c /\ is_cycle c
  end.
Proof.
  intros Hn. pose proof (for_each_post (seed_visit (S (size (dom edges))) edges) names
    {| marks := ∅; stack := []; out := [] |}) as H.
  destruct (for_each _ _ _) as [st|e].
  - destruct H as (I & _ & Hall); [|apply dfs_init|done].
    intros d st' Hd I' [Es _]. apply seed_spec; [done|done|by apply Hn|lia].
  - apply H; [|apply dfs_init]. intros d st' Hd I' [Es _]. apply seed_spec; [done|done|by apply Hn|lia].
Qed.

(** A cycle rules out a complete sort. *)
Lemma no_cycle_in_sort st c :
  dfs st -> (forall x, x ∈ dom edges -> x ∈ out st) -> (forall x, x ∈ c -> x ∈ dom edges) -> ~ is_cycle c.
Proof.
  intros I Hall Hc (Hp & Hlen & Hhl).
  (* positions strictly decrease along the walk *)
  assert (forall i a, c !! i = Some a -> exists k, out st !! k = Some a /\
    forall a0 k0, c !! 0%nat = Some a0 -> out st !! k0 = Some a0 -> (i + k <= k0)%nat) as Hpos.
  { induction i as [|i IH]; intros a Ha.
    - assert (a ∈ out st) as Hin by (apply Hall, Hc; by eapply list_elem_of_lookup_2).
      apply list_elem_of_lookup in Hin as [k Hk]. exists k. split; [done|].
      intros a0 k0 H0 Hk0. rewrite Ha in H0. injection H0 as <-.
      rewrite (NoDup_lookup _ _ _ _ (dfs_nodup_out _ I) Hk Hk0). lia.
    - assert (is_Some (c !! i)) as [b Hb].
      { apply lookup_lt_is_Some. apply lookup_lt_Some in Ha. lia. }
      destruct (IH b Hb) as (k & Hk & Hbound).
      pose proof (dfs_topo _ I k b Hk a (Hp i b a Hb Ha)) as Htake.
      apply list_elem_of_lookup in Htake as [j Hj]. apply lookup_take_Some in Hj as [Hj Hlt].
      exists j. split; [done|]. intros a0 k0 H0 Hk0. specialize (Hbound a0 k0 H0 Hk0). lia. }
  destruct c as [|a0 c]; [simpl in Hlen; lia|]. simpl in Hhl. symmetry in Hhl. rewrite last_lookup in Hhl.
  destruct (Hpos _ _ Hhl) as (k & Hk & Hbound). specialize (Hbound a0 k eq_refl Hk). simpl in *. lia.
Qed.
End Sort.

(** ** Edges, specified *)

Lemma elem_of_push_new deps d x : x ∈ push_new deps d <-> x ∈ deps \/ x = d.
Proof.
  unfold push_new. destruct (bool_decide_reflect (d ∈ deps)); [naive_solver|].
  rewrite elem_of_app, list_elem_of_singleton. done.
Qed.

(** [x] is a dependency a reference names. *)
Definition names_dep (declared : gset name) (self reference x : name) : Prop :=
  x <> self /\ x ∈ declared /\ (x = reference \/ x = short_name reference).

Definition outside_ref (declared : gset name) (self reference : name) : Prop :=
  forall x, x = reference \/ x = short_name reference -> x <> self /\ x ∉ declared.

Lemma outside_ref_iff declared self r :
  outside_ref declared self r <->
  (r <> self /\ r ∉ declared) /\ (short_name r <> self /\ short_name r ∉ declared).
Proof.
  unfold outside_ref. split.
  - intros H. split; apply H; [by left|by right].
  - intros [H1 H2] x [->| ->]; done.
Qed.

Lemma add_candidate_spec declared self acc c :
  (forall x, x ∈ (add_candidate declared self acc c).1 <-> x ∈ acc.1 \/ (x = c /\ c <> self /\ c ∈ declared)) /\
  ((add_candidate declared self acc c).2 = true <-> acc.2 = true \/ (c <> self /\ c ∈ declared)).
Proof.
  unfold add_candidate. destruct (bool_decide_reflect (c <> self)) as [H1|H1], (bool_decide_reflect (c ∈ declared)) as [H2|H2];
    simpl; split; intros; rewrite ?elem_of_push_new; naive_solver.
Qed.

Lemma add_reference_spec declared self acc r :
  (forall x, x ∈ (add_reference declared self acc r).1 <-> x ∈ acc.1 \/ names_dep declared self r x) /\
  ((add_reference declared self acc r).2 = true <-> acc.2 = true \/ outside_ref declared self r).
Proof.
  unfold add_reference. cbn [foldl].
  set (m := bool_decide (r = self) || bool_decide (short_name r = self)).
  destruct (add_candidate_spec declared self (acc.1, m) r) as [D1 M1].
  set (a1 := add_candidate declared self (acc.1, m) r) in *.
  destruct (add_candidate_spec declared self a1 (short_name r)) as [D2 M2].
  set (a2 := add_candidate declared self a1 (short_name r)) in *.
  destruct a2 as [deps matched]. cbn [fst snd] in *. split.
  - intros x. rewrite D2, D1. unfold names_dep. naive_solver.
  - rewrite orb_true_iff, negb_true_iff, <-not_true_iff_false, M2, M1. subst m.
    rewrite orb_true_iff, !bool_decide_eq_true, outside_ref_iff.
    destruct (decide (r = self)), (decide (short_name r = self)); tauto.
Qed.

Lemma exists_cons {A} (P : A -> Prop) x l : (exists y, y ∈ x :: l /\ P y) <-> P x \/ exists y, y ∈ l /\ P y.
Proof.
  split.
  - intros (y & [->|Hy]%elem_of_cons & HP); [by left|right; by exists y].
  - intros [HP|(y & Hy & HP)]; [exists x; split; [left|done]|exists y; split; [by right|done]].
Qed.

Lemma add_references_spec declared self rs acc :
  (forall x, x ∈ (foldl (add_reference declared self) acc rs).1 <->
     x ∈ acc.1 \/ exists r, r ∈ rs /\ names_dep declared self r x) /\
  ((foldl (add_reference declared self) acc rs).2 = true <->
     acc.2 = true \/ exists r, r ∈ rs /\ outside_ref declared self r).
Proof.
  revert acc. induction rs as [|r rs IH]; intros acc; cbn [foldl].
  { split; intros; (split; [by left|intros [?|(r & ?%elem_of_nil & _)]; done]). }
  destruct (add_reference_spec declared self acc r) as [D M].
  destruct (IH (add_reference declared self acc r)) as [D' M'].
  split; intros; rewrite ?D', ?M', ?D, ?M, exists_cons; tauto.
Qed.

Lemma elem_of_cdc_deps declared self cdc x :
  x ∈ cdc_deps declared self cdc <->
  exists source, cdc = Some source /\ x = trim source /\ x <> self /\ x ∈ declared.
Proof.
  unfold cdc_deps. destruct cdc as [source|]; [|split; [by intros ?%elem_of_nil|naive_solver]].
  destruct (bool_decide_reflect (trim source <> self)) as [H1|H1], (bool_decide_reflect (trim source ∈ declared)) as [H2|H2];
    simpl; rewrite ?list_elem_of_singleton, ?elem_of_nil; naive_solver.
Qed.

Section Build.
Context (refs : str -> result Error (list name)).

(** The names a table's SQL mentions. *)
Definition mentions (t : TableConfig) (r : name) : Prop :=
  exists sql rs, tc_sql t = Some sql /\ refs sql = Ok rs /\ r ∈ rs.

Lemma table_edges_spec declared t e :
  table_edges refs declared t = Ok e ->
  let self := trim (tc_name t) in
  (forall x, x ∈ e.1 <->
     (exists source, tc_auto_cdc t = Some source /\ x = trim source /\ x <> self /\ x ∈ declared) \/
     (exists r, mentions t r /\ names_dep declared self r x)) /\
  (e.2 = true <-> exists r, mentions t r /\ outside_ref declared self r).
Proof.
  intros He self. unfold table_edges in He. fold self in He. destruct (tc_sql t) as [sql|] eqn:Es.
  - destruct (refs sql) as [rs|] eqn:Er; [|done]. cbn [rbind] in He. injection He as <-.
    assert (forall r, r ∈ rs <-> mentions t r) as Hm.
    { intros r. unfold mentions. rewrite Es. split; [by intros; exists sql, rs|].
      intros (sql' & rs' & E1 & E2 & ?). injection E1 as <-. rewrite Er in E2. by injection E2 as <-. }
    destruct (add_references_spec declared self rs (cdc_deps declared self (tc_auto_cdc t), false)) as [D M].
    cbn [fst snd] in D, M. split.
    + intros x. rewrite D, elem_of_cdc_deps. apply or_iff_compat_l.
      split; intros (r & Hr & ?); exists r; (split; [by apply Hm|done]).
    + rewrite M. split; [intros [?|(r & Hr & ?)]; [done|]|intros (r & Hr & ?); right];
        exists r; (split; [by apply Hm|done]).
  - injection He as <-. cbn [fst snd].
    assert (forall r, ~ mentions t r) as Hm by (intros r (sql' & rs' & E1 & _); congruence).
    split.
    + intros x. rewrite elem_of_cdc_deps. split; [by left|]. intros [?|(r & Hr & _)]; [done|by destruct (Hm r)].
    + split; [done|]. intros (r & Hr & _). by destruct (Hm r).
Qed.

Lemma collect_edges_spec declared tables acc eo :
  collect_edges refs declared tables acc = Ok eo ->
  dom eo.1 = dom acc.1 ∪ declared_names tables /\
  (forall n, n ∉ declared_names tables -> eo.1 !! n = acc.1 !! n /\ eo.2 !! n = acc.2 !! n) /\
  (forall n l, eo.1 !! n = Some l -> acc.1 !! n = Some l \/
     exists t e, t ∈ tables /\ trim (tc_name t) = n /\ table_edges refs declared t = Ok e /\ e.1 = l) /\
  (NoDup ((fun t => trim (tc_name t)) <$> tables) -> forall t, t ∈ tables ->
     exists e, table_edges refs declared t = Ok e /\ eo.1 !! trim (tc_name t) = Some e.1 /\
               eo.2 !! trim (tc_name t) = Some e.2).
Proof.
  revert acc. induction tables as [|t tables IH]; intros acc He; cbn [collect_edges] in He.
  { injection He as <-. unfold declared_names. simpl. split_and!; [set_solver|done|by left|by intros _ ? ?%elem_of_nil]. }
  destruct (table_edges refs declared t) as [e|] eqn:Et; [|done]. cbn [rbind] in He.
  destruct (IH _ He) as (Hd & Hout & Hin & Hnd). cbn [fst snd] in *.
  unfold declared_names in *. rewrite fmap_cons, list_to_set_cons. split_and!.
  - rewrite Hd, dom_insert_L. set_solver.
  - intros n Hn. rewrite not_elem_of_union, not_elem_of_singleton in Hn. destruct Hn as [Hne Hn].
    destruct (Hout n Hn) as [-> ->]. by rewrite !lookup_insert_ne.
  - intros n l Hl. destruct (Hin n l Hl) as [Ha|(t' & e' & Ht' & En & E1 & E2)].
    + destruct (decide (n = trim (tc_name t))) as [->|Hne].
      * rewrite lookup_insert_eq in Ha. injection Ha as <-. right. exists t, e. split; [left|done].
      * rewrite lookup_insert_ne in Ha by done. by left.
    + right. exists t', e'. split; [by right|done].
  - intros Hnodup t' [->|Ht']%elem_of_cons.
    + exists e. split; [done|]. apply NoDup_cons in Hnodup as [Hni _].
      destruct (Hout (trim (tc_name t))) as [-> ->]; [by rewrite elem_of_list_to_set|].
      by rewrite !lookup_insert_eq.
    + apply NoDup_cons in Hnodup as [_ Hnodup]. by apply Hnd.
Qed.

Lemma collected_closed tables eo :
  collect_edges refs (declared_names tables) tables (∅, ∅) = Ok eo ->
  dom eo.1 = declared_names tables /\ forall n d, d ∈ edges_of eo.1 n -> d ∈ dom eo.1.
Proof.
  intros He. destruct (collect_edges_spec _ _ _ _ He) as (Hd & _ & Hin & _). cbn [fst snd] in *.
  rewrite dom_empty_L, union_empty_l_L in Hd. split; [done|].
  intros n d Hnd. unfold edges_of in Hnd. destruct (eo.1 !! n) as [l|] eqn:El; [|by apply elem_of_nil in Hnd].
  destruct (Hin n l El) as [?|(t & e & Ht & <- & Ee & <-)]; [done|]. rewrite Hd.
  apply (table_edges_spec _ _ _ Ee) in Hnd as [(source & _ & _ & _ & ?)|(r & _ & _ & ? & _)]; done.
Qed.

Definition names_of (tables : list TableConfig) : list name := (fun t => trim (tc_name t)) <$> tables.

Lemma names_declared tables eo n :
  collect_edges refs (declared_names tables) tables (∅, ∅) = Ok eo -> n ∈ names_of tables <-> n ∈ dom eo.1.
Proof.
  intros He. destruct (collected_closed tables eo He) as [Hd _]. rewrite Hd.
  unfold declared_names, names_of. by rewrite elem_of_list_to_set.
Qed.

(** The shape of a successful build. *)
Lemma build_inv tables order :
  build refs tables = Ok order ->
  exists eo st, collect_edges refs (declared_names tables) tables (∅, ∅) = Ok eo /\ dfs eo.1 st /\
    (forall n, n ∈ dom eo.1 -> n ∈ out st) /\
    order = (fun n => {| nd_name := n; depends_on := edges_of eo.1 n;
                         reads_outside_pipeline := default false (eo.2 !! n) |}) <$> out st.
Proof.
  intros Hb. unfold build in Hb. destruct (collect_edges _ _ _ _) as [eo|] eqn:Ee; [|done]. cbn [rbind] in Hb.
  unfold topological_order in Hb. fold (names_of tables) in Hb.
  destruct (collected_closed tables eo Ee) as [_ Hc].
  pose proof (sort_spec eo.1 Hc (names_of tables) (fun n Hn => proj1 (names_declared tables eo n Ee) Hn)) as Hs.
  destruct (for_each _ _ _) as [st|]; [|done]. cbn [rbind] in Hb. injection Hb as <-. destruct Hs as [I Hall].
  exists eo, st. split_and!; [done|done| |].
  - intros n Hn. apply Hall. by eapply names_declared.
  - rewrite <-list_fmap_compose. done.
Qed.

(** The order has every declared table once, after its dependencies. *)
Lemma build_sorted tables order :
  build refs tables = Ok order ->
  NoDup (nd_name <$> order) /\
  (forall n, n ∈ nd_name <$> order <-> n ∈ declared_names tables) /\
  (forall i nd d, order !! i = Some nd -> d ∈ depends_on nd -> d ∈ nd_name <$> take i order).
Proof.
  intros Hb. destruct (build_inv _ _ Hb) as (eo & st & Ee & I & Hall & ->).
  destruct (collected_closed tables eo Ee) as [Hd _].
  set (mk := fun n => {| nd_name := n; depends_on := edges_of eo.1 n; reads_outside_pipeline := default false (eo.2 !! n) |}).
  assert (forall l, nd_name <$> (mk <$> l) = l) as Hid
    by (intros l; rewrite <-list_fmap_compose; apply list_fmap_id).
  rewrite Hid. split_and!.
  - apply I.
  - intros n. rewrite <-Hd. split; [|apply Hall]. intros Hn. apply (dfs_known _ _ I). by right.
  - intros i nd d Hi Hdep. rewrite list_lookup_fmap in Hi. destruct (out st !! i) as [n|] eqn:En; [|done].
    injection Hi as <-. cbn [mk depends_on] in Hdep. rewrite <-fmap_take, Hid. by eapply (dfs_topo _ _ I).
Qed.

(** C31. The order is refused only for a reason: a table's SQL does not parse, or
    the reported path really is a cycle of declared dependencies.  Conversely a
    pipeline whose SQL parses and whose dependencies are acyclic is ordered. *)
Theorem build_fails_only_on_cycles tables :
  match build refs tables with
  | Ok order => exists eo, collect_edges refs (declared_names tables) tables (∅, ∅) = Ok eo /\
      forall c, (forall x, x ∈ c -> x ∈ declared_names tables) -> ~ is_cycle eo.1 c
  | Err e =>
      collect_edges refs (declared_names tables) tables (∅, ∅) = Err e \/
      exists eo c, collect_edges refs (declared_names tables) tables (∅, ∅) = Ok eo /\
        e = cycle_error c /\ is_cycle eo.1 c
  end.
Proof.
  destruct (build refs tables) as [order|e] eqn:Hb.
  - destruct (build_inv _ _ Hb) as (eo & st & Ee & I & Hall & _).
    destruct (collected_closed tables eo Ee) as [Hd _]. exists eo. split; [done|].
    intros c Hc. apply (no_cycle_in_sort eo.1 st c I Hall). intros x Hx. rewrite Hd. by apply Hc.
  - unfold build in Hb. destruct (collect_edges _ _ _ _) as [eo|e'] eqn:Ee; [|left; cbn [rbind] in Hb; congruence].
    right. cbn [rbind] in Hb. unfold topological_order in Hb. fold (names_of tables) in Hb.
    destruct (collected_closed tables eo Ee) as [_ Hc].
    pose proof (sort_spec eo.1 Hc (names_of tables) (fun n Hn => proj1 (names_declared tables eo n Ee) Hn)) as Hs.
    destruct (for_each _ _ _) as [st|e']; cbn [rbind] in Hb; [done|]. injection Hb as <-.
    destruct Hs as (c & -> & Hcyc). by exists eo, c.
Qed.

(** The dependencies of a table are the declared tables its SQL or its CDC
    source names, directly or by the last segment of a qualified name, itself
    excepted; it is marked as reading outside the pipeline exactly when some
    name its SQL mentions is neither declared nor its own. *)
Lemma build_dependencies tables order t nd :
  NoDup ((fun t => trim (tc_name t)) <$> tables) ->
  build refs tables = Ok order -> t ∈ tables -> nd ∈ order -> nd_name nd = trim (tc_name t) ->
  (forall x, x ∈ depends_on nd <->
     (exists source, tc_auto_cdc t = Some source /\ x = trim source /\ x <> nd_name nd /\ x ∈ declared_names tables) \/
     (exists r, mentions t r /\ names_dep (declared_names tables) (nd_name nd) r x)) /\
  (reads_outside_pipeline nd = true <->
     exists r, mentions t r /\ outside_ref (declared_names tables) (nd_name nd) r).
Proof.
  intros Hnd Hb Ht Hin En. destruct (build_inv _ _ Hb) as (eo & st & Ee & I & Hall & ->).
  destruct (collect_edges_spec _ _ _ _ Ee) as (_ & _ & _ & Hlook).
  destruct (Hlook Hnd t Ht) as (e & He & E1 & E2).
  apply list_elem_of_fmap in Hin as (n & -> & _). cbn [nd_name depends_on reads_outside_pipeline] in *. subst n.
  unfold edges_of. rewrite E1, E2. apply (table_edges_spec _ _ _ He).
Qed.

(** Every [sql:] of a graph that was built parses. *)
Lemma build_refs_ok tables order t sql :
  build refs tables = Ok order -> t ∈ tables -> tc_sql t = Some sql -> exists rs, refs sql = Ok rs.
Proof.
  unfold build. intros Hb Ht Es. destruct (collect_edges _ _ _ _) as [eo|] eqn:E; [|done]. clear Hb. revert E.
  generalize (declared_names tables), (∅ : gmap name (list name), ∅ : gmap name bool). intros D acc.
  revert acc Ht. clear -Es. induction tables as [|u tables IH]; intros acc Ht E; [by apply elem_of_nil in Ht|].
  cbn [collect_edges] in E. destruct (table_edges refs D u) as [e|] eqn:Ee; [|done]. cbn [rbind] in E.
  apply elem_of_cons in Ht as [<-|Ht]; [|by eapply IH].
  unfold table_edges in Ee. rewrite Es in Ee. destruct (refs sql) as [rs|]; [by exists rs|done].
Qed.

(** [r] names the table [x]: in full, or by its last segment. *)
Definition refers (r x : name) : Prop := x = r \/ exists qualifier, r = qualifier ++ 46 :: x /\ 46 ∉ x.

Lemma refers_short r x : refers r x -> x = r \/ x = short_name r.
Proof.
  intros [?|(q & -> & Hx)]; [by left|right]. unfold short_name. by rewrite rsplit_once_app.
Qed.

(** The other tables of the pipeline that a table's [sql:] or CDC source names. *)
Definition reads_table (tables : list TableConfig) (t : TableConfig) (x : name) : Prop :=
  x ∈ names_of tables /\ x <> trim (tc_name t) /\
  ((exists source, tc_auto_cdc t = Some source /\ x = trim source) \/
   (exists sql rs r, tc_sql t = Some sql /\ refs sql = Ok rs /\ r ∈ rs /\ refers r x)).

(** C25. A pipeline whose tables have distinct names is updated in an order with
    each declared table exactly once, and each table after every other table
    of the pipeline that its [sql:] query or its CDC source names, in full or
    by the last segment of a qualified name.  Append flows are not looked at:
    what only they read is not ordered. *)
Theorem build_topological tables order :
  NoDup (names_of tables) -> build refs tables = Ok order ->
  nd_name <$> order ≡ₚ names_of tables /\
  forall t x, t ∈ tables -> reads_table tables t x ->
    exists before after, nd_name <$> order = before ++ trim (tc_name t) :: after /\ x ∈ before.
Proof.
  intros Hnames Hb. destruct (build_sorted _ _ Hb) as (Hnd & Hin & Htopo).
  assert (forall n, n ∈ nd_name <$> order <-> n ∈ names_of tables) as Hin'
    by (intros n; rewrite Hin; unfold declared_names; apply elem_of_list_to_set).
  split; [by apply NoDup_Permutation|]. intros t x Ht (Hx & Hself & Hread).
  assert (trim (tc_name t) ∈ nd_name <$> order) as Htn by (apply Hin', list_elem_of_fmap; by exists t).
  apply list_elem_of_fmap in Htn as (nd & En & Hnd').
  destruct (build_dependencies tables order t nd Hnames Hb Ht Hnd' (eq_sym En)) as [Hdeps _].
  assert (x ∈ declared_names tables) as Hxd by (by apply elem_of_list_to_set).
  assert (x ∈ depends_on nd) as Hdep.
  { apply Hdeps. rewrite <-En. destruct Hread as [(source & ? & ?)|(sql & rs & r & ? & ? & ? & Hr)].
    - left. by exists source.
    - right. exists r. split; [by exists sql, rs|]. split_and!; [done|done|by apply refers_short]. }
  apply list_elem_of_lookup in Hnd' as [i Hi]. specialize (Htopo i nd x Hi Hdep).
  exists (nd_name <$> take i order), (nd_name <$> drop (S i) order). split; [|done].
  rewrite <-(take_drop_middle _ _ _ Hi) at 1. by rewrite fmap_app, fmap_cons, En.
Qed.
End Build.

(** ** Selections *)

Section Subgraph.
Context (order : list Node) (Hnd : NoDup (nd_name <$> order)).

Definition node_deps (n : name) : list name :=
  match by_name order n with Some nd => depends_on nd | None => [] end.

Lemma by_name_spec n nd : by_name order n = Some nd <-> nd ∈ order /\ nd_name nd = n.
Proof.
  unfold by_name. destruct (list_find _ (reverse order)) as [[i x]|] eqn:E; simpl.
  - apply list_find_Some in E as (Hx & En & _). apply list_elem_of_lookup_2 in Hx. rewrite elem_of_reverse in Hx. split.
    + intros [= <-]. done.
    + intros [Hin En2]. f_equal. apply list_elem_of_lookup in Hx as [j Hj]. apply list_elem_of_lookup in Hin as [k Hk].
      assert (j = k) as ->; [|congruence].
      apply (NoDup_lookup (nd_name <$> order) j k n Hnd); rewrite list_lookup_fmap; [rewrite Hj|rewrite Hk]; simpl; congruence.
  - split; [done|]. intros [Hin En]. apply list_find_None in E. rewrite Forall_reverse, Forall_forall in E.
    by destruct (E nd Hin).
Qed.

(** What is still to be pushed by names not yet needed. *)
Definition edges_left (needed : gset name) : nat :=
  foldr (fun nd k => (if bool_decide (nd_name nd ∈ needed) then 0 else length (depends_on nd)) + k)%nat 0%nat order.

Lemma edges_left_skip needed n :
  n ∉ needed -> (length (node_deps n) + edges_left ({[ n ]} ∪ needed) <= edges_left needed)%nat.
Proof.
  intros Hn. unfold edges_left.
  assert (forall l, (foldr (fun nd k => (if bool_decide (nd_name nd ∈ {[ n ]} ∪ needed) then 0 else length (depends_on nd)) + k)%nat 0%nat l
    <= foldr (fun nd k => (if bool_decide (nd_name nd ∈ needed) then 0 else length (depends_on nd)) + k)%nat 0%nat l)%nat) as Hmono.
  { induction l as [|nd l IH]; simpl; [lia|].
    destruct (bool_decide_reflect (nd_name nd ∈ {[n]} ∪ needed)), (bool_decide_reflect (nd_name nd ∈ needed)); [lia|lia|set_solver|lia]. }
  unfold node_deps. destruct (by_name order n) as [nd|] eqn:E; [|simpl; apply Hmono].
  apply by_name_spec in E as [Hin <-]. clear Hnd.
  induction order as [|x l IH]; [by apply elem_of_nil in Hin|]. cbn [foldr].
  apply elem_of_cons in Hin as [->|Hin].
  - rewrite (bool_decide_true (nd_name x ∈ {[nd_name x]} ∪ needed)) by set_solver.
    rewrite (bool_decide_false (nd_name x ∈ needed)) by done. specialize (Hmono l). lia.
  - specialize (IH Hin).
    destruct (bool_decide_reflect (nd_name x ∈ {[nd_name nd]} ∪ needed)), (bool_decide_reflect (nd_name x ∈ needed)); [lia|lia|set_solver|lia].
Qed.

Lemma need_loop_sound f needed stk x :
  x ∈ need_loop f order needed stk ->
  x ∈ needed \/ exists y, y ∈ stk /\ rtc (fun a b => b ∈ node_deps a) y x.
Proof.
  revert needed stk. induction f as [|f IH]; intros needed stk Hx; cbn [need_loop] in Hx; [by left|].
  destruct stk as [|n stk]; [by left|]. destruct (bool_decide _).
  - destruct (IH _ _ Hx) as [?|(y & Hy & Hr)]; [by left|]. right. exists y. split; [by right|done].
  - destruct (IH _ _ Hx) as [[->%elem_of_singleton|?]%elem_of_union|(y & [Hy|Hy]%elem_of_app & Hr)].
    + right. exists n. split; [left|done].
    + by left.
    + right. exists n. split; [left|]. eapply rtc_l; [|exact Hr]. unfold node_deps.
      destruct (by_name order n); [by rewrite elem_of_reverse in Hy|by apply elem_of_nil in Hy].
    + right. exists y. split; [by right|done].
Qed.

Lemma need_loop_closed f needed stk :
  (length stk + edges_left needed < f)%nat ->
  (forall a b, a ∈ needed -> b ∈ node_deps a -> b ∈ needed \/ b ∈ stk) ->
  needed ⊆ need_loop f order needed stk /\
  (forall a, a ∈ stk -> a ∈ need_loop f order needed stk) /\
  (forall a b, a ∈ need_loop f order needed stk -> b ∈ node_deps a -> b ∈ need_loop f order needed stk).
Proof.
  revert needed stk. induction f as [|f IH]; intros needed stk Hf Hcl; [lia|].
  cbn [need_loop]. destruct stk as [|n stk].
  { split_and!; [done|by intros ? ?%elem_of_nil|]. intros a b Ha Hb.
    destruct (Hcl a b Ha Hb) as [?|?%elem_of_nil]; done. }
  destruct (bool_decide_reflect (n ∈ needed)) as [Hn|Hn].
  - simpl in Hf. destruct (IH needed stk ltac:(lia)) as (H1 & H2 & H3).
    { intros a b Ha Hb. destruct (Hcl a b Ha Hb) as [?|[->|?]%elem_of_cons]; auto. }
    split_and!; [done| |done]. intros a [->|Ha]%elem_of_cons; [by apply H1|by apply H2].
  - pose proof (edges_left_skip needed n Hn) as He. simpl in Hf.
    set (push := match by_name order n with Some nd => reverse (depends_on nd) | None => [] end).
    assert (forall b, b ∈ push <-> b ∈ node_deps n) as Hpush.
    { intros b. subst push. unfold node_deps. destruct (by_name order n); [apply elem_of_reverse|done]. }
    assert (length push = length (node_deps n)) as Hlen.
    { subst push. unfold node_deps. destruct (by_name order n); [apply length_reverse|done]. }
    destruct (IH ({[ n ]} ∪ needed) (push ++ stk)) as (H1 & H2 & H3).
    { rewrite length_app. lia. }
    { intros a b [->%elem_of_singleton|Ha]%elem_of_union Hb.
      - right. apply elem_of_app. left. by apply Hpush.
      - destruct (Hcl a b Ha Hb) as [?|[->|?]%elem_of_cons]; set_solver. }
    split_and!; [set_solver| |done].
    intros a [->|Ha]%elem_of_cons; [set_solver|]. apply H2, elem_of_app. by right.
Qed.

(** C35. Selecting tables updates exactly those tables and everything they
    depend on, transitively, in the pipeline's own order; a name that is not
    declared is refused. *)
Theorem subgraph_is_ancestor_closure wanted :
  wanted <> [] ->
  match subgraph order wanted with
  | Ok sub =>
      (forall n, n ∈ wanted -> n ∈ nd_name <$> order) /\
      sub `sublist_of` order /\
      forall nd, nd ∈ sub <-> nd ∈ order /\ exists w, w ∈ wanted /\ rtc (fun a b => b ∈ node_deps a) w (nd_name nd)
  | Err e => exists n, n ∈ wanted /\ n ∉ nd_name <$> order /\ e = not_declared order n
  end.
Proof.
  intros Hw. unfold subgraph. destruct wanted as [|w0 wanted0]; [done|].
  set (wanted := w0 :: wanted0) in *.
  destruct (list_find _ wanted) as [[i n]|] eqn:Ef.
  - apply list_find_Some in Ef as (Hn & Hnot & _). exists n. split_and!; [by eapply list_elem_of_lookup_2|done|done].
  - apply list_find_None in Ef. rewrite Forall_forall in Ef.
    set (needed := need_loop _ _ _ _). split_and!.
    + intros n Hn. specialize (Ef n Hn). by destruct (decide (n ∈ nd_name <$> order)).
    + apply sublist_filter.
    + assert (length (reverse wanted) + edges_left ∅ < need_fuel order wanted)%nat as Hfuel.
      { unfold need_fuel, edges_left. rewrite length_reverse. apply Nat.lt_succ_r, Nat.add_le_mono_l.
        clear. induction order as [|nd l IH]; simpl; [lia|]. rewrite bool_decide_false by set_solver. lia. }
      destruct (need_loop_closed _ ∅ (reverse wanted) Hfuel ltac:(intros a b Ha; set_solver)) as (_ & H2 & H3).
      fold needed in H2, H3. intros nd. rewrite list_elem_of_filter. split.
      * intros [Hin Ho]. split; [done|]. destruct (need_loop_sound _ _ _ _ Hin) as [?|(y & Hy & Hr)]; [set_solver|].
        exists y. split; [by rewrite elem_of_reverse in Hy|done].
      * intros [Ho (w & Hww & Hr)]. split; [|done].
        apply (rtc_ind_r (R := fun a b => b ∈ node_deps a) (fun x => x ∈ needed) w); [|intros; by eapply H3|done].
        apply H2. by rewrite elem_of_reverse.
Qed.
End Subgraph.

(** ** A three-table pipeline

    The SQL of a table is taken to be the comma-separated list of the names it
    reads. *)
Module GraphRuns.

Definition refs (sql : str) : result Error (list name) := Ok (split_char 44 sql).

Definition table (n : string) (stream : bool) (cdc sql : option string) (flows : list string) : TableConfig :=
  {| tc_name := lit n; tc_source := stream; tc_auto_cdc := lit <$> cdc; tc_sql := lit <$> sql;
     tc_sql_by_name := false; tc_append_flows := (fun f => {| af_sql := lit f; af_by_name := false |}) <$> flows;
     tc_output_schema := None; tc_expect := [] |}.

Definition bronze : TableConfig := table "bronze" true None None [].
Definition silver : TableConfig := table "silver" false None (Some "local.live.bronze,lake.raw"%string) [].
Definition gold : TableConfig := table "gold" false None (Some "silver"%string) [].
Definition tables : list TableConfig := [gold; bronze; silver].

Definition node (n : string) (deps : list string) (o : bool) : Node :=
  {| nd_name := lit n; depends_on := lit <$> deps; reads_outside_pipeline := o |}.
Definition order : list Node :=
  [node "bronze" [] false; node "silver" ["bronze"%string] true; node "gold" ["silver"%string] false].

Lemma build_tables : build refs tables = Ok order.
Proof. vm_compute. reflexivity. Qed.

(** The message a cycle produces. *)
Example cycle_message :
  build refs [table "a" false None (Some "b"%string) []; table "b" false (Some "a"%string) None []] =
  Err (Io (lit "the table graph has a cycle: a -> b -> a")).
Proof. vm_compute. reflexivity. Qed.

(** [silver] comes after [bronze], which its query names with its catalog. *)
Lemma build_topological_witness :
  nd_name <$> order ≡ₚ names_of tables /\
  exists before after, nd_name <$> order = before ++ lit "silver" :: after /\ lit "bronze" ∈ before.
Proof.
  assert (NoDup (names_of tables)) as Hnd by (apply (bool_decide_unpack _); by vm_compute).
  destruct (build_topological refs tables order Hnd build_tables) as [Hp Hord]. split; [exact Hp|].
  apply (Hord silver (lit "bronze")); [right; right; left|]. split; [right; left|]. split; [by vm_compute|]. right.
  exists (lit "local.live.bronze,lake.raw"), [lit "local.live.bronze"; lit "lake.raw"], (lit "local.live.bronze").
  split_and!; [done|by vm_compute|left|]. right. exists (lit "local.live"). split; [by vm_compute|].
  apply (bool_decide_unpack _). by vm_compute.
Defined.

Lemma subgraph_is_ancestor_closure_witness :
  match subgraph order [lit "silver"] with
  | Ok sub =>
      (forall n, n ∈ [lit "silver"] -> n ∈ nd_name <$> order) /\ sub `sublist_of` order /\
      forall nd, nd ∈ sub <-> nd ∈ order /\
        exists w, w ∈ [lit "silver"] /\ rtc (fun a b => b ∈ node_deps order a) w (nd_name nd)
  | Err e => exists n, n ∈ [lit "silver"] /\ n ∉ nd_name <$> order /\ e = not_declared order n
  end.
Proof.
  refine (subgraph_is_ancestor_closure order _ [lit "silver"] _); [|done].
  apply (bool_decide_unpack _). by vm_compute.
Defined.

End GraphRuns.
