(* ===== verification/FlowSql.v ===== *)
(** * FlowSql: the SQL a derived table runs

    [oxidant-pipelines/src/output_write.rs] (flow queries, their union under a
    declared schema, table properties and output formats) and
    [expectations.rs] (the SQL an expectation wraps around a query).

    The engine is the class [Engine]: [Engine::sql] over the current contents
    of the tables, [Engine::schema], and what the code reads of an Arrow batch.
    [parse_spark_schema] belongs to [oxidant-loom]. *)

From S2P Require Import Prelude Text PipelineGraph.

(** What [parse_spark_schema] answers: the column names of a struct, or
    another type with its debug text. *)
Inductive spark_type := StructType (fields : list str) | OtherSparkType (debug : str).

Class Engine (Batch : Type) := {
  engine_sql : (name -> list Batch) -> str -> result Error (list Batch);
  engine_schema : (name -> list Batch) -> str -> result Error (list str);
  num_rows : Batch -> Z;
  int64_column0 : Batch -> option Z;
  conform_batch : list str -> Batch -> result Error Batch;
  parse_spark_schema : str -> result str spark_type;
}.

Definition em_dash : str := [8212].

(** ** Flow queries *)

Record FlowQuery := { fq_sql : str; fq_by_name : bool }.

Definition nonempty (s : str) : bool := bool_decide (s <> []).

Definition flow_queries (sql : option str) (sql_by_name : bool) (append_flows : list AppendFlow) : list FlowQuery :=
  match trim <$> sql with
  | Some sql => if nonempty sql then [{| fq_sql := sql; fq_by_name := sql_by_name |}] else []
  | None => []
  end ++
  omap (fun flow => let sql := trim (af_sql flow) in
          if nonempty sql then Some {| fq_sql := sql; fq_by_name := af_by_name flow |} else None) append_flows.

Definition by_name_error : Error := Plan (lit "BY NAME requires a declared output schema on the target table").

Fixpoint validate_by_name_loop (flows : list FlowQuery) : result Error unit :=
  match flows with
  | [] => Ok tt
  | flow :: flows => if fq_by_name flow then Err by_name_error else validate_by_name_loop flows
  end.
Definition validate_by_name_requires_schema (flows : list FlowQuery) (has_declared_schema : bool) : result Error unit :=
  if has_declared_schema then Ok tt else validate_by_name_loop flows.

(** ** Projections onto a declared schema *)

Definition quote_ident (name : str) : str :=
  if forallb (fun c => is_ascii_alphanumeric c || (c =? 95)) name && nonempty name &&
     negb (match name with c :: _ => is_ascii_digit c | [] => false end)
  then name else fmt [lit "`"; name; lit "`"].

Definition column_projection (source_name target : str) : str :=
  fmt [quote_ident source_name; lit " AS "; quote_ident target].

Definition positional_projections (source target : list str) : result Error (list str) :=
  if negb (length source =? length target)%nat then
    Err (Plan (fmt [lit "flow produces "; show_u (Z.of_nat (length source));
                    lit " column(s) but the declared schema has "; show_u (Z.of_nat (length target))]))
  else Ok (zip_with column_projection source target).

Definition missing_column (dst : str) : Error :=
  Plan (fmt [lit "flow is missing column `"; dst; lit "` required by the declared schema"]).

Fixpoint by_name_projections (source target : list str) : result Error (list str) :=
  match target with
  | [] => Ok []
  | dst :: target =>
      match List.find (fun f => eq_ignore_ascii_case f dst) source with
      | None => Err (missing_column dst)
      | Some src => let! out := by_name_projections source target in Ok (column_projection src dst :: out)
      end
  end.

Section WithEngine.
Context `{Engine Batch}.

Definition parse_output_schema (ddl : str) : result Error (list str) :=
  let trimmed := trim ddl in
  let inner := trim (default trimmed (s ← strip_prefix (lit "(") trimmed; strip_suffix (lit ")") s)) in
  if negb (nonempty inner) then Err (Plan (lit "output schema must not be empty"))
  else match parse_spark_schema inner with
       | Err e => Err (Plan (fmt [lit "invalid output schema `"; ddl; lit "`: "; e]))
       | Ok (StructType fields) => Ok fields
       | Ok (OtherSparkType other) => Err (Plan (fmt [lit "output schema must be a struct of columns, got "; other]))
       end.

Definition enforce_schema_sql (c : name -> list Batch) (query : str) (target : list str) (by_name : bool) : result Error str :=
  let! source := engine_schema c query in
  let! projections := if by_name then by_name_projections source target else positional_projections source target in
  Ok (fmt [lit "SELECT "; join (lit ", ") projections; lit " FROM ("; trim query; lit ") AS _flow"]).

Definition flow_branch (c : name -> list Batch) (target : option (list str)) (flow : FlowQuery) : result Error str :=
  match target with
  | Some schema => enforce_schema_sql c (fq_sql flow) schema (fq_by_name flow)
  | None => Ok (fq_sql flow)
  end.

(** [output_schema.map(parse_output_schema).transpose()]. *)
Definition parse_declared (output_schema : option str) : result Error (option (list str)) :=
  match output_schema with
  | Some ddl => let! s := parse_output_schema ddl in Ok (Some s)
  | None => Ok None
  end.

Definition paren (s : str) : str := fmt [lit "("; s; lit ")"].

Definition union_flow_sql (c : name -> list Batch) (flows : list FlowQuery) (output_schema : option str) : result Error str :=
  match flows with
  | [] => Err (Plan (lit "table has no flow SQL"))
  | _ =>
      let! target := parse_declared output_schema in
      let! _ := validate_by_name_requires_schema flows (bool_decide (is_Some target)) in
      let! branches := mapM_result (flow_branch c target) flows in
      match branches with
      | [b] => Ok b
      | _ => Ok (join (lit " UNION ALL ") (paren <$> branches))
      end
  end.

Definition conform_batches_to_schema (batches : list Batch) (target : list str) : result Error (list Batch) :=
  mapM_result (conform_batch target) batches.

(** [scalar_count] of [runner.rs], after its query has run. *)
Fixpoint first_count (batches : list Batch) : Z :=
  match batches with
  | [] => 0
  | b :: batches =>
      if num_rows b =? 0 then first_count batches
      else match int64_column0 b with
           | Some v => Z.max v 0
           | None => first_count batches
           end
  end.
Definition scalar_count (c : name -> list Batch) (sql : str) : result Error Z :=
  let! batches := engine_sql c sql in Ok (first_count batches).

End WithEngine.

(** ** Expectations *)

#[global] Instance ExpectAction_eq_dec : EqDecision ExpectAction.
Proof. solve_decision. Defined.

Definition drop_checks (expectations : list (str * Expectation)) : list str :=
  List.filter nonempty
    ((fun e => trim (check (snd e))) <$> List.filter (fun e => bool_decide (action (snd e) = Drop)) expectations).

Definition apply_drops (sql : str) (expectations : list (str * Expectation)) : str :=
  match drop_checks expectations with
  | [] => sql
  | checks =>
      let predicate := join (lit " AND ") (paren <$> checks) in
      fmt [lit "SELECT * FROM ("; trim sql; lit ") AS _oxidant_expect WHERE "; predicate]
  end.

Definition has_drops (expectations : list (str * Expectation)) : bool :=
  existsb (fun e => bool_decide (action (snd e) = Drop) && nonempty (trim (check (snd e)))) expectations.

Definition violation_count_sql (sql chk : str) : str :=
  fmt [lit "SELECT count(*) AS violations FROM ("; trim sql; lit ") AS _oxidant_expect WHERE ("; chk; lit ") IS NOT TRUE"].

Definition counted (expectations : list (str * Expectation)) : list (str * Expectation) :=
  List.filter (fun e => match action (snd e) with Warn | Fail => true | Drop => false end) expectations.

(** ** Table properties and output formats *)

Definition SOURCE_TABLE_PROPERTIES : list str :=
  [lit "subscribe"; lit "topic"; lit "oxidant.spool.dir"; lit "startingOffsets"; lit "maxOffsetsPerTrigger";
   lit "kafka.bootstrap.servers"; lit "bootstrap.servers"].
Definition SINK_TABLE_PROPERTIES : list str := [lit "icebergCompat"].

Definition is_source_table_property (key : str) : bool :=
  bool_decide (key ∈ SOURCE_TABLE_PROPERTIES) || starts_with key (lit "kafka.") || starts_with key (lit "spark.").
Definition is_sink_table_property (key : str) : bool := bool_decide (key ∈ SINK_TABLE_PROPERTIES).

Definition unsupported_property (key : str) : Error :=
  Unsupported (fmt [lit "TBLPROPERTIES key `"; key;
    lit "` is not supported on pipeline table outputs "; em_dash; lit " remove it rather than silently dropping it"]).

Fixpoint split_properties_loop (properties : list (str * str)) (source sink : list (str * str))
    : result Error (list (str * str) * list (str * str)) :=
  match properties with
  | [] => Ok (source, sink)
  | (key, value) :: rest =>
      if is_source_table_property key then split_properties_loop rest (source ++ [(key, value)]) sink
      else if is_sink_table_property key then split_properties_loop rest source (sink ++ [(key, value)])
      else Err (unsupported_property key)
  end.
(** The entries of a [BTreeMap] in key order; inserting them in that order
    keeps it. *)
Definition split_table_properties (properties : list (str * str)) : result Error (list (str * str) * list (str * str)) :=
  split_properties_loop properties [] [].

Definition validate_output_format (format label : str) : result Error unit :=
  let normalized := to_ascii_lowercase (trim format) in
  if bool_decide (normalized ∈ [lit "delta"; lit "parquet"; lit "csv"; lit "json"]) then Ok tt
  else if bool_decide (normalized = lit "iceberg") then
    Err (Unsupported (fmt [label; lit ": `iceberg` is not a write target. Use `delta` with `icebergCompat` enabled "; em_dash; lit " Iceberg metadata is published over the same Parquet files."]))
  else Err (Unsupported (fmt [label; lit ": unwritable format `"; format; lit "` (expected delta, parquet, csv, or json)"])).

Definition validate_external_sink_format (format label : str) : result Error unit :=
  let normalized := to_ascii_lowercase (trim format) in
  if bool_decide (normalized = lit "kafka") then
    Err (Unsupported (fmt [label; lit ": Kafka sink is not supported "; em_dash; lit " the Kafka integration is source-only (see docs/TODOS.md)"]))
  else
    let! _ := validate_output_format format label in
    if negb (bool_decide (normalized ∈ [lit "delta"; lit "parquet"])) then
      Err (Unsupported (fmt [label; lit ": sink format `"; format;
        lit "` has no streaming writer "; em_dash; lit " use `delta` (atomic per-batch commits) or `parquet` (one file per batch, no commit protocol; see docs/TODOS.md)"]))
    else Ok tt.

(** ** What SQL promises about the wrapped queries

    [truth k r] is the three-valued value of the predicate [k] on the row [r];
    [wf_query] and [wf_check] hold of the texts that parse as a query and as an
    expression over its columns, [wf_pred] of the predicates made of such
    expressions.  The laws are SQL's: what [AND] and [IS NOT TRUE] mean, which
    rows a [WHERE] keeps, and that [count( * )] answers one row with their
    number. *)
Class SqlSemantics (Batch Row : Type) `{Engine Batch} := {
  rows_of : list Batch -> list Row;
  wf_query : str -> Prop;
  wf_check : str -> Prop;
  wf_pred : str -> Prop;
  truth : str -> Row -> option bool;
  sql_and : forall ks, ks <> [] -> Forall wf_check ks ->
    let p := join (lit " AND ") ((fun k => fmt [lit "("; k; lit ")"]) <$> ks) in
    wf_pred p /\ forall r, truth p r = Some true <-> Forall (fun k => truth k r = Some true) ks;
  sql_is_not_true : forall k, wf_check k ->
    let p := fmt [lit "("; k; lit ") IS NOT TRUE"] in
    wf_pred p /\ forall r, truth p r = Some (bool_decide (truth k r <> Some true));
  query_where : forall c q p bs, wf_query q -> wf_pred p -> engine_sql c q = Ok bs ->
    exists bs', engine_sql c (fmt [lit "SELECT * FROM ("; q; lit ") AS _oxidant_expect WHERE "; p]) = Ok bs' /\
      rows_of bs' = filter (fun r => truth p r = Some true) (rows_of bs);
  query_count : forall c q p bs, wf_query q -> wf_pred p -> engine_sql c q = Ok bs ->
    exists bs' b, engine_sql c (fmt [lit "SELECT count(*) AS violations FROM ("; q; lit ") AS _oxidant_expect WHERE "; p]) = Ok bs' /\
      List.filter (fun b => negb (num_rows b =? 0)) bs' = [b] /\
      int64_column0 b = Some (Z.of_nat (length (filter (fun r => truth p r = Some true) (rows_of bs))));
  query_planned : forall c q bs, engine_sql c q = Ok bs -> exists fs, engine_schema c q = Ok fs;
}.

Section Semantics.
Context `{SqlSemantics Batch Row}.

(** The rows of a result that do not satisfy a check. *)
Definition violations_of (k : str) (bs : list Batch) : Z :=
  Z.of_nat (length (filter (fun r => truth k r <> Some true) (rows_of bs))).

Lemma apply_drops_rows c sql es bs :
  trim sql = sql -> wf_query sql -> Forall wf_check (drop_checks es) -> engine_sql c sql = Ok bs ->
  exists bs', engine_sql c (apply_drops sql es) = Ok bs' /\
    rows_of bs' = filter (fun r => Forall (fun k => truth k r = Some true) (drop_checks es)) (rows_of bs).
Proof.
  intros Ht Hq Hk Hs. unfold apply_drops. destruct (drop_checks es) as [|k ks] eqn:E.
  - exists bs. split; [done|]. symmetry. induction (rows_of bs) as [|r rs IH]; [done|].
    rewrite filter_cons_True by constructor. by rewrite IH.
  - rewrite Ht. destruct (sql_and (k :: ks) ltac:(done) Hk) as [Hp Htruth].
    destruct (query_where c sql _ bs Hq Hp Hs) as (bs' & E' & Hrows). exists bs'. split; [exact E'|].
    rewrite Hrows. apply filter_ext_elem. intros r _. apply Htruth.
Qed.

Lemma first_count_one bs b v : List.filter (fun b => negb (num_rows b =? 0)) bs = [b] -> int64_column0 b = Some v -> 0 <= v ->
  first_count bs = v.
Proof.
  intros Hf Hv Hge. induction bs as [|x bs IH]; [done|]. cbn [List.filter first_count] in *.
  destruct (num_rows x =? 0); cbn [negb] in Hf; [by apply IH|]. injection Hf as -> _. rewrite Hv. lia.
Qed.

(** The query the code counts violations with counts the rows on which the
    check is false or null. *)
Lemma scalar_count_violations c q k bs :
  trim q = q -> wf_query q -> wf_check k -> engine_sql c q = Ok bs ->
  scalar_count c (violation_count_sql q k) = Ok (violations_of k bs).
Proof.
  intros Ht Hq Hk Hs. destruct (sql_is_not_true k Hk) as [Hp Htruth].
  destruct (query_count c q _ bs Hq Hp Hs) as (bs' & b & E & Hb & Hv).
  assert (violation_count_sql q k = fmt [lit "SELECT count(*) AS violations FROM ("; q; lit ") AS _oxidant_expect WHERE ";
    fmt [lit "("; k; lit ") IS NOT TRUE"]]) as ->.
  { unfold violation_count_sql, fmt. rewrite Ht. cbn [concat].
    change (lit ") AS _oxidant_expect WHERE (") with (lit ") AS _oxidant_expect WHERE " ++ lit "(").
    by rewrite !app_nil_r, <-!app_assoc. }
  unfold scalar_count. rewrite E. cbn [rbind]. f_equal. unfold violations_of.
  rewrite (first_count_one bs' b _ Hb Hv ltac:(lia)). do 2 f_equal. apply filter_ext_elem. intros r _.
  rewrite Htruth. split; [intros [= Hd]; by apply bool_decide_eq_true in Hd|intros Hd; by rewrite bool_decide_true].
Qed.

End Semantics.

Lemma has_drops_spec es : has_drops es = negb (bool_decide (drop_checks es = [])).
Proof.
  induction es as [|[l e] es IH]; [done|]. unfold has_drops, drop_checks in *. cbn [existsb List.filter snd].
  destruct (bool_decide (action e = Drop)); cbn [andb orb]; [|exact IH].
  rewrite fmap_cons. cbn [snd List.filter]. by destruct (nonempty (trim (check e))).
Qed.
