(* ===== verification/PipelinePass.v ===== *)
(** * PipelinePass: one pass over a pipeline's tables

    [oxidant-pipelines/src/runner.rs] ([one_pass], [recompute],
    [PipelineState], [advance_stream]).  A pass walks the tables in graph order;
    it skips what depends on a failed table, leaves derived tables alone when
    nothing they read moved, advances streams and recomputes the rest.

    A recompute is the whole of the function: the flow SQL, the expectations,
    the query, the transaction version and [LakeSink::replace_batch].  The
    query engine is the class [Engine] and the hash of a definition is the
    parameter [fingerprint].  What streams deliver and which I/O fails in a
    given pass is a script, one [table_event] per table. *)

From S2P Require Import Prelude Text PipelineGraph FlowSql.

(** ** Configuration *)

Inductive TableKind := Streaming | AutoCdc | Derived.
#[global] Instance TableKind_eq_dec : EqDecision TableKind.
Proof. solve_decision. Defined.

(** [TableConfig::kind]. *)
Definition kind (t : TableConfig) : TableKind :=
  match tc_auto_cdc t with
  | Some _ => AutoCdc
  | None => if tc_source t then Streaming else Derived
  end.

(** ** Pipeline state *)

Record TableState := { ts_epoch : Z; ts_built : bool; ts_definition : str }.
Definition default_table_state : TableState := {| ts_epoch := 0; ts_built := false; ts_definition := [] |}.

Record PipelineState := {
  ps_tables : gmap name TableState;
  ps_once : gset name;
}.

Definition slot_of (st : PipelineState) (n : name) : TableState := default default_table_state (ps_tables st !! n).
Definition set_slot (st : PipelineState) (n : name) (s : TableState) : PipelineState :=
  {| ps_tables := <[n := s]> (ps_tables st); ps_once := ps_once st |}.

Definition built_as (st : PipelineState) (n : name) (definition : str) : bool :=
  match ps_tables st !! n with
  | Some t => ts_built t && bool_decide (ts_definition t = definition)
  | None => false
  end.

Definition mark_built (st : PipelineState) (n : name) (definition : str) : PipelineState :=
  set_slot st n {| ts_epoch := ts_epoch (slot_of st n); ts_built := true; ts_definition := definition |}.

Definition once_completed (st : PipelineState) (n : name) : bool := bool_decide (n ∈ ps_once st).
Definition mark_once_completed (st : PipelineState) (n : name) : PipelineState :=
  {| ps_tables := ps_tables st; ps_once := {[ n ]} ∪ ps_once st |}.

(** [next_epoch], on [u64]. *)
Definition next_epoch (st : PipelineState) (n : name) : Z * PipelineState :=
  let s := slot_of st n in
  let e := wrapu 64 (ts_epoch s + 1) in
  (e, set_slot st n {| ts_epoch := e; ts_built := ts_built s; ts_definition := ts_definition s |}).

(** [state.tables.entry(name).or_default().epoch = version]. *)
Definition set_epoch (st : PipelineState) (n : name) (version : Z) : PipelineState :=
  let s := slot_of st n in
  set_slot st n {| ts_epoch := version; ts_built := ts_built s; ts_definition := ts_definition s |}.

(** ** Outcomes *)

Record TableOutcome := {
  to_name : name;
  to_rows : Z;
  to_unchanged : bool;
  to_error : option str;
  to_skipped : bool;
}.

Inductive TableStatus := Updated | Unchanged | Skipped | FailedWith (error : str).

Definition status (o : TableOutcome) : TableStatus :=
  if to_skipped o then Skipped
  else if to_unchanged o then Unchanged
  else match to_error o with Some e => FailedWith e | None => Updated end.

Definition outcome_skipped (n : name) : TableOutcome :=
  {| to_name := n; to_rows := 0; to_unchanged := false; to_error := None; to_skipped := true |}.
Definition outcome_unchanged (n : name) : TableOutcome :=
  {| to_name := n; to_rows := 0; to_unchanged := true; to_error := None; to_skipped := false |}.
Definition outcome_updated (n : name) (rows : Z) : TableOutcome :=
  {| to_name := n; to_rows := rows; to_unchanged := false; to_error := None; to_skipped := false |}.
Definition outcome_failed (n : name) (e : str) : TableOutcome :=
  {| to_name := n; to_rows := 0; to_unchanged := false; to_error := Some e; to_skipped := false |}.

(** ** The pass *)

(** [RunEventKind::ExpectationViolation]. *)
Record violation := { vi_table : name; vi_label : str; failed_records : Z }.

Section Pass.
Context `{Engine Batch}.
Variable fingerprint : TableConfig -> str.

(** *** The batches a derived table's definition yields *)

Definition expectation_error (n label : str) (violations : Z) (chk : str) : Error :=
  Execution (fmt [lit "table `"; n; lit "` expectation `"; label; lit "` failed: "; show_u violations;
                  lit " record(s) do not satisfy `"; chk; lit "`; the table is unchanged"]).

(** The loop over [expectations::counted]; the events it emits come first. *)
Fixpoint check_expectations (c : name -> list Batch) (n sql : str) (es : list (str * Expectation))
    : list violation * result Error unit :=
  match es with
  | [] => ([], Ok tt)
  | (label, e) :: es =>
      match scalar_count c (violation_count_sql sql (check e)) with
      | Err err => ([], Err err)
      | Ok violations =>
          if violations =? 0 then check_expectations c n sql es
          else match action e with
               | Fail => ([], Err (expectation_error n label violations (check e)))
               | Warn =>
                   let '(vs, r) := check_expectations c n sql es in
                   ({| vi_table := n; vi_label := label; failed_records := violations |} :: vs, r)
               | Drop => check_expectations c n sql es
               end
      end
  end.

(** The query, conformed to the declared schema; without one and without
    batches, the schema is asked of the engine. *)
Definition query_batches (c : name -> list Batch) (output_schema : option str) (effective_sql : str) : result Error (list Batch) :=
  let! batches := engine_sql c effective_sql in
  let! declared := parse_declared output_schema in
  match declared with
  | Some target => conform_batches_to_schema batches target
  | None =>
      match batches with
      | [] => let! _ := engine_schema c effective_sql in Ok batches
      | _ => Ok batches
      end
  end.

Definition derived_batches (t : TableConfig) (c : name -> list Batch) : list violation * result Error (list Batch) :=
  let n := trim (tc_name t) in
  match union_flow_sql c (flow_queries (tc_sql t) (tc_sql_by_name t) (tc_append_flows t)) (tc_output_schema t) with
  | Err e => ([], Err e)
  | Ok sql =>
      let sql := trim sql in
      if negb (nonempty sql) then ([], Err (Plan (fmt [lit "derived table `"; n; lit "` has no `sql:`"])))
      else
        let '(vs, r) := check_expectations c n sql (counted (tc_expect t)) in
        (vs, let! _ := r in query_batches c (tc_output_schema t) (apply_drops sql (tc_expect t)))
  end.

(** *** The lake *)

(** Where in a recompute an I/O failure strikes: before the sink is open, while
    it commits, or after the commit. *)
Inductive moment := BeforeEpoch | BeforeCommit | AfterCommit.

(** What updating a table meets in one pass. *)
Inductive table_event :=
  | StreamStep (r : result Error Z) (after : list Batch)
  | Recompute (fault : option (Error * moment)).

Definition put {A} (f : name -> A) (n : name) (a : A) : name -> A := fun x => if decide (x = n) then a else f x.

(** Contents and last committed transaction version of each table. *)
Record World := {
  contents : name -> list Batch;
  committed_txn : name -> option Z;
}.

Definition total_rows (batches : list Batch) : Z := foldr (fun b n => num_rows b + n) 0 batches.

(** [LakeSink::replace_batch] on a Delta table, over [DeltaTableWriter::replace].
    A failure before the commit (a schema that does not match, an I/O error)
    changes nothing; a version not above the committed one is a replay and
    changes nothing either. *)
Definition replace_batch (w : World) (n : name) (batches : list Batch) (batch_id : Z) (fault : option (Error * moment))
    : result Error Z * World :=
  let v := wraps 64 batch_id in
  let committed := {| contents := put (contents w) n batches; committed_txn := put (committed_txn w) n (Some v) |} in
  match fault with
  | Some (e, BeforeEpoch) | Some (e, BeforeCommit) => (Err e, w)
  | _ =>
      if match committed_txn w n with Some c => v <=? c | None => false end then (Ok 0, w)
      else match fault with
           | Some (e, _) => (Err e, committed)
           | None => (Ok (total_rows batches), committed)
           end
  end.

(** [recompute]. *)
Definition recompute (t : TableConfig) (fault : option (Error * moment)) (st : PipelineState) (w : World)
    : result Error Z * (PipelineState * World) :=
  let n := trim (tc_name t) in
  match (derived_batches t (contents w)).2 with
  | Err e => (Err e, (st, w))
  | Ok batches =>
      match fault with
      | Some (e, BeforeEpoch) => (Err e, (st, w))
      | _ =>
          let '(epoch, st) := next_epoch st n in
          let version := Z.max epoch (wrapu 64 (Z.max (default 0 (committed_txn w n)) 0 + 1)) in
          let st := set_epoch st n version in
          let '(r, w) := replace_batch w n batches version fault in
          (r, (st, w))
      end
  end.

(** [advance_stream] through the query manager: the rows of the batches it ran,
    and the table's contents after them.  A table without a started query (the
    script has no [StreamStep] for it) runs nothing. *)
Definition advance_stream (n : name) (ev : table_event) (w : World) : result Error Z * World :=
  match ev with
  | StreamStep r after => (r, {| contents := put (contents w) n after; committed_txn := committed_txn w |})
  | Recompute _ => (Ok 0, w)
  end.

Record PassState := {
  p_world : World;
  p_state : PipelineState;
  p_failed : list name;
  p_changed : list name;
  p_outcomes : list TableOutcome;
}.

Definition push_outcome (p : PassState) (o : TableOutcome) : PassState :=
  {| p_world := p_world p; p_state := p_state p; p_failed := p_failed p; p_changed := p_changed p;
     p_outcomes := p_outcomes p ++ [o] |}.

Variable tables : list TableConfig.
Variable once_tables : gset name.

(** [Plan::table]. *)
Definition plan_table (n : name) : option TableConfig :=
  snd <$> list_find (fun t => trim (tc_name t) = n) tables.

Definition any_in (l k : list name) : bool := existsb (fun d => bool_decide (d ∈ k)) l.

(** Run the table's own update. *)
Definition run_update (t : TableConfig) (ev : table_event) (st : PipelineState) (w : World)
    : result Error Z * (PipelineState * World) :=
  let n := trim (tc_name t) in
  match kind t with
  | Streaming | AutoCdc => let '(r, w) := advance_stream n ev w in (r, (st, w))
  | Derived => recompute t (match ev with Recompute f => f | StreamStep _ _ => None end) st w
  end.

(** The arms that follow an update. *)
Definition after_update (t : TableConfig) (nd : Node) (p : PassState)
    (r : result Error Z * (PipelineState * World)) : PassState :=
  let derived := bool_decide (kind t = Derived) in
  match r with
  | (Ok rows, (st, w)) =>
      let st := if derived then mark_built st (nd_name nd) (fingerprint t) else st in
      let st := if bool_decide (nd_name nd ∈ once_tables) then mark_once_completed st (nd_name nd) else st in
      {| p_world := w; p_state := st; p_failed := p_failed p;
         p_changed := if (0 <? rows) || derived then p_changed p ++ [nd_name nd] else p_changed p;
         p_outcomes := p_outcomes p ++ [outcome_updated (nd_name nd) rows] |}
  | (Err e, (st, w)) =>
      {| p_world := w; p_state := st; p_failed := p_failed p ++ [nd_name nd]; p_changed := p_changed p;
         p_outcomes := p_outcomes p ++ [outcome_failed (nd_name nd) (error_to_string e)] |}
  end.

(** The body of the loop of [one_pass]. *)
Definition pass_node (events : name -> table_event) (p : PassState) (nd : Node) : PassState :=
  if any_in (depends_on nd) (p_failed p) then
    let p := push_outcome p (outcome_skipped (nd_name nd)) in
    {| p_world := p_world p; p_state := p_state p; p_failed := p_failed p ++ [nd_name nd];
       p_changed := p_changed p; p_outcomes := p_outcomes p |}
  else
    match plan_table (nd_name nd) with
    | None => p
    | Some t =>
        if bool_decide (nd_name nd ∈ once_tables) && once_completed (p_state p) (nd_name nd)
        then push_outcome p (outcome_unchanged (nd_name nd))
        else if bool_decide (kind t = Derived) && built_as (p_state p) (nd_name nd) (fingerprint t)
                && negb (reads_outside_pipeline nd) && negb (any_in (depends_on nd) (p_changed p))
        then push_outcome p (outcome_unchanged (nd_name nd))
        else after_update t nd p (run_update t (events (nd_name nd)) (p_state p) (p_world p))
    end.

(** [one_pass]. *)
Definition one_pass (nodes : list Node) (events : name -> table_event) (st : PipelineState) (w : World) : PassState :=
  foldl (pass_node events)
    {| p_world := w; p_state := st; p_failed := []; p_changed := []; p_outcomes := [] |} nodes.

End Pass.
Arguments table_event Batch : clear implicits.
Arguments World Batch : clear implicits.
Arguments PassState Batch : clear implicits.

(** ** State lemmas *)

Lemma lookup_set_slot st n m s : ps_tables (set_slot st n s) !! m = if decide (m = n) then Some s else ps_tables st !! m.
Proof.
  unfold set_slot. simpl. destruct (decide (m = n)) as [->|]; [by rewrite lookup_insert_eq|by rewrite lookup_insert_ne].
Qed.

Lemma built_as_mark st n d : built_as (mark_built st n d) n d = true.
Proof.
  unfold built_as, mark_built. rewrite lookup_set_slot, decide_True by done. simpl. by rewrite bool_decide_true.
Qed.

Lemma built_as_ext st st' n d : ps_tables st' !! n = ps_tables st !! n -> built_as st' n d = built_as st n d.
Proof. unfold built_as. by intros ->. Qed.

Lemma any_in_spec l k : any_in l k = true <-> exists d, d ∈ l /\ d ∈ k.
Proof.
  unfold any_in. rewrite existsb_exists. split.
  - intros (d & Hd & Hk). exists d. rewrite list_elem_of_In. bool_to_prop. done.
  - intros (d & Hd & Hk). exists d. rewrite <-list_elem_of_In, bool_decide_true by done. done.
Qed.

Lemma any_in_nil l : any_in l [] = false.
Proof. apply not_true_is_false. rewrite any_in_spec. by intros (d & _ & ?%elem_of_nil). Qed.

Lemma put_eq {A} (f : name -> A) n a : put f n a n = a.
Proof. unfold put. by rewrite decide_True. Qed.
Lemma put_ne {A} (f : name -> A) n a x : x <> n -> put f n a x = f x.
Proof. unfold put. intros. by rewrite decide_False. Qed.

Section Fresh.
Context `{Engine Batch} (fingerprint : TableConfig -> str).
Context (tables : list TableConfig) (once_tables : gset name) (nodes : list Node).

Lemma recompute_tables t fault st (w : World Batch) m :
  m <> trim (tc_name t) ->
  ps_tables (recompute t fault st w).2.1 !! m = ps_tables st !! m /\
  contents (recompute t fault st w).2.2 m = contents w m /\
  committed_txn (recompute t fault st w).2.2 m = committed_txn w m.
Proof.
  intros Hm. unfold recompute, replace_batch. destruct (derived_batches _ _) as [vs [bs|e]]; [|done]. cbn [snd].
  cbn [next_epoch]. set (v := wraps 64 _).
  set (b := match committed_txn w _ with Some c => v <=? c | None => false end). destruct b; destruct fault as [[e [| |]]|]; cbn;
    rewrite ?lookup_insert_ne by done; rewrite ?put_ne by done; done.
Qed.

(** The version a recompute commits under. *)
Definition recompute_version (st : PipelineState) (w : World Batch) (n : name) : Z :=
  Z.max (ts_epoch (slot_of st n) + 1) (Z.max (default 0 (committed_txn w n)) 0 + 1).

Definition in_range (st : PipelineState) (w : World Batch) (n : name) : Prop :=
  0 <= ts_epoch (slot_of st n) < i_max 64 /\ default 0 (committed_txn w n) < i_max 64.

Definition commit_to (w : World Batch) (n : name) (bs : list Batch) (v : Z) : World Batch :=
  {| contents := put (contents w) n bs; committed_txn := put (committed_txn w) n (Some v) |}.

Lemma recompute_eq t fault st (w : World Batch) bs :
  let n := trim (tc_name t) in let v := recompute_version st w n in
  in_range st w n -> (derived_batches t (contents w)).2 = Ok bs ->
  recompute t fault st w =
  match fault with
  | Some (e, BeforeEpoch) => (Err e, (st, w))
  | Some (e, BeforeCommit) => (Err e, (set_epoch (next_epoch st n).2 n v, w))
  | Some (e, AfterCommit) => (Err e, (set_epoch (next_epoch st n).2 n v, commit_to w n bs v))
  | None => (Ok (total_rows bs), (set_epoch (next_epoch st n).2 n v, commit_to w n bs v))
  end.
Proof.
  intros n v [He Hc] Hd. unfold recompute. fold n. rewrite Hd. unfold next_epoch.
  rewrite (wrapu_small 64 (ts_epoch _ + 1)) by (unfold u_ok, u_max, i_max in *; lia).
  rewrite (wrapu_small 64 (Z.max _ 0 + 1)) by (unfold u_ok, u_max, i_max in *; lia).
  fold (recompute_version st w n). fold v. unfold replace_batch.
  rewrite (wraps_small 64 v) by (unfold i_ok, i_min, v, recompute_version, i_max in *; lia).
  assert (match committed_txn w n with Some c => v <=? c | None => false end = false) as ->.
  { destruct (committed_txn w n) as [c|] eqn:E; [|done]. apply Z.leb_gt. unfold v, recompute_version. rewrite E. simpl. lia. }
  destruct fault as [[e [| |]]|]; reflexivity.
Qed.

Lemma recompute_ok t fault st (w : World Batch) rows r :
  let n := trim (tc_name t) in
  in_range st w n -> recompute t fault st w = (Ok rows, r) ->
  exists bs, (derived_batches t (contents w)).2 = Ok bs /\
    r = (set_epoch (next_epoch st n).2 n (recompute_version st w n), commit_to w n bs (recompute_version st w n)).
Proof.
  intros n Hr E. destruct (derived_batches t (contents w)).2 as [bs|e] eqn:Ed.
  - rewrite (recompute_eq t fault st w bs Hr Ed) in E. exists bs. split; [done|].
    destruct fault as [[e [| |]]|]; simplify_eq. done.
  - unfold recompute in E. rewrite Ed in E. done.
Qed.

(** A recompute without an I/O failure is never taken for a replay: it
    commits under a version above the one its table last committed and above
    its last epoch, and the table then holds the batches of its definition (for
    versions within [i64], the type the log stores them in). *)
Theorem recompute_version_fresh t st (w : World Batch) bs :
  let n := trim (tc_name t) in let v := recompute_version st w n in
  in_range st w n -> (derived_batches t (contents w)).2 = Ok bs ->
  exists st' w', recompute t None st w = (Ok (total_rows bs), (st', w')) /\
    ts_epoch (slot_of st' n) = v /\ committed_txn w' n = Some v /\ contents w' n = bs /\
    default 0 (committed_txn w n) < v /\ ts_epoch (slot_of st n) < v.
Proof.
  intros n v Hr Hd. rewrite (recompute_eq t None st w bs Hr Hd). eexists _, _. split; [done|]. cbn. rewrite !put_eq.
  split_and!; [|done|done|unfold v, recompute_version; lia|unfold v, recompute_version; lia].
  unfold slot_of. cbn. by rewrite lookup_insert_eq.
Qed.

Abbreviation table_of := (plan_table tables).
Abbreviation step := (pass_node fingerprint tables once_tables).

Lemma plan_table_name n t : table_of n = Some t -> trim (tc_name t) = n.
Proof.
  unfold plan_table. destruct (list_find _ tables) as [[i x]|] eqn:E; [|done]. simpl. intros [= <-].
  by apply list_find_Some in E as (_ & ? & _).
Qed.

(** *** Outcomes *)

Definition bad (o : TableOutcome) : Prop := to_skipped o = true \/ is_Some (to_error o).

Record outcomes_inv (ds : list Node) (p : PassState Batch) : Prop := {
  oi_names : to_name <$> p_outcomes p = nd_name <$> ds;
  oi_failed : forall x, x ∈ p_failed p <-> exists o, o ∈ p_outcomes p /\ to_name o = x /\ bad o;
}.

Lemma outcomes_push ds p p' nd o :
  outcomes_inv ds p -> p_outcomes p' = p_outcomes p ++ [o] -> to_name o = nd_name nd ->
  (bad o /\ p_failed p' = p_failed p ++ [nd_name nd] \/ ~ bad o /\ p_failed p' = p_failed p) ->
  outcomes_inv (ds ++ [nd]) p'.
Proof.
  intros [I1 I2] Eo En Hb. constructor.
  - by rewrite Eo, !fmap_app, I1, !fmap_cons, En.
  - intros x. rewrite Eo. setoid_rewrite elem_of_app. setoid_rewrite list_elem_of_singleton.
    destruct Hb as [[Hbad ->]|[Hbad ->]].
    + rewrite elem_of_app, I2, list_elem_of_singleton. split.
      * intros [(o' & ? & ?)| ->]; [exists o'; auto|exists o; auto].
      * intros (o' & [?| ->] & <- & ?); [left; exists o'; auto|by right].
    + rewrite I2. split.
      * intros (o' & ? & ?). exists o'. auto.
      * intros (o' & [?| ->] & <- & ?); [exists o'; auto|done].
Qed.

Definition last_skipped (p : PassState Batch) : Prop := exists o, last (p_outcomes p) = Some o /\ to_skipped o = true.

Lemma step_outcome events p nd ds :
  is_Some (table_of (nd_name nd)) -> outcomes_inv ds p ->
  outcomes_inv (ds ++ [nd]) (step events p nd) /\
  exists o, p_outcomes (step events p nd) = p_outcomes p ++ [o] /\ to_name o = nd_name nd /\
    (to_skipped o = true <-> any_in (depends_on nd) (p_failed p) = true).
Proof.
  intros [t Ht] I. unfold pass_node. destruct (any_in (depends_on nd) (p_failed p)) eqn:Ea.
  { split; [|by exists (outcome_skipped (nd_name nd))].
    apply (outcomes_push ds p _ nd (outcome_skipped (nd_name nd))); [done|done|done|]. left. split; [by left|done]. }
  rewrite Ht.
  assert (outcomes_inv (ds ++ [nd]) (push_outcome p (outcome_unchanged (nd_name nd))) /\
    exists o, p_outcomes (push_outcome p (outcome_unchanged (nd_name nd))) = p_outcomes p ++ [o] /\
      to_name o = nd_name nd /\ (to_skipped o = true <-> false = true)) as Hun.
  { split; [|by exists (outcome_unchanged (nd_name nd))].
    apply (outcomes_push ds p _ nd (outcome_unchanged (nd_name nd))); [done|done|done|].
    right. split; [|done]. intros [?|[? ?]]; done. }
  destruct (_ && once_completed _ _); [exact Hun|]. destruct (_ && _ && _ && _); [exact Hun|].
  destruct (run_update _ _ _ _) as [[rows|e] [st w]]; cbn [after_update].
  - split; [|by exists (outcome_updated (nd_name nd) rows)].
    apply (outcomes_push ds p _ nd (outcome_updated (nd_name nd) rows)); [done|done|done|].
    right. split; [|done]. intros [?|[? ?]]; done.
  - split; [|by exists (outcome_failed (nd_name nd) (error_to_string e))].
    apply (outcomes_push ds p _ nd (outcome_failed (nd_name nd) (error_to_string e))); [done|done|done|].
    left. split; [right; by eexists|done].
Qed.

Lemma pass_outcomes events p ds rest :
  (forall nd, nd ∈ rest -> is_Some (table_of (nd_name nd))) -> outcomes_inv ds p ->
  let p' := foldl (step events) p rest in
  outcomes_inv (ds ++ rest) p' /\ (exists l, p_outcomes p' = p_outcomes p ++ l) /\
  forall i nd, rest !! i = Some nd -> exists o, p_outcomes p' !! (length ds + i)%nat = Some o /\
    to_name o = nd_name nd /\
    (to_skipped o = true <-> exists d o', d ∈ depends_on nd /\ o' ∈ take (length ds + i) (p_outcomes p') /\
                                          to_name o' = d /\ bad o').
Proof.
  revert p ds. induction rest as [|nd rest IH]; intros p ds Hd I; cbn [foldl].
  { split_and!; [by rewrite app_nil_r|exists []; by rewrite app_nil_r|done]. }
  destruct (step_outcome events p nd ds (Hd nd ltac:(left)) I) as (I' & o & Eo & En & Hs).
  assert (forall x, x ∈ rest -> is_Some (table_of (nd_name x))) as Hd' by (intros; apply Hd; by right).
  destruct (IH (step events p nd) (ds ++ [nd]) Hd' I') as (I2 & [l El] & Hrest).
  set (p' := foldl _ _ rest) in *.
  assert (length (p_outcomes p) = length ds) as Hlen by (by rewrite <-(length_fmap to_name), (oi_names _ _ I), length_fmap).
  split_and!; [by rewrite <-app_assoc in I2|exists ([o] ++ l); by rewrite El, Eo, app_assoc|].
  intros [|i] x Hx; cbn in Hx.
  - injection Hx as <-. exists o. rewrite Nat.add_0_r, El, Eo, <-app_assoc. split_and!.
    + rewrite <-Hlen. by apply (list_lookup_middle (p_outcomes p) l o).
    + done.
    + rewrite Hs, any_in_spec, <-Hlen, take_app_length. setoid_rewrite (oi_failed _ _ I). naive_solver.
  - destruct (Hrest i x Hx) as (o' & Ho' & Hn' & Hs'). rewrite length_app in Ho', Hs'. simpl in Ho', Hs'.
    replace (length ds + S i)%nat with (length ds + 1 + i)%nat by lia. by exists o'.
Qed.

(** C34. Every table of a pass gets exactly one outcome, in pass order, and is
    skipped exactly when a table it depends on failed or was skipped earlier in
    the same pass. *)
Theorem pass_skips_exactly events st w :
  (forall nd, nd ∈ nodes -> is_Some (table_of (nd_name nd))) ->
  let os := p_outcomes (one_pass fingerprint tables once_tables nodes events st w) in
  to_name <$> os = nd_name <$> nodes /\
  forall i nd, nodes !! i = Some nd -> exists o, os !! i = Some o /\ to_name o = nd_name nd /\
    (to_skipped o = true <->
       exists d o', d ∈ depends_on nd /\ o' ∈ take i os /\ to_name o' = d /\ bad o').
Proof.
  intros Hd. cbv zeta. unfold one_pass.
  set (p0 := {| p_world := w; p_state := st; p_failed := []; p_changed := []; p_outcomes := [] |}).
  assert (outcomes_inv [] p0) as I0.
  { constructor; [done|]. intros x. split; [by intros ?%elem_of_nil|]. intros (o & ?%elem_of_nil & _). done. }
  destruct (pass_outcomes events p0 [] nodes Hd I0) as (I & _ & Hall). split; [apply I|exact Hall].
Qed.

(** *** Freshness *)

Definition derived_node (nd : Node) (t : TableConfig) : Prop := table_of (nd_name nd) = Some t /\ kind t = Derived.

Definition fresh (w : World Batch) (nd : Node) (t : TableConfig) : Prop :=
  (derived_batches t (contents w)).2 = Ok (contents w (nd_name nd)).

(** What the batches of a node's definition may depend on: the tables it
    depends on and, for a node that reads outside the pipeline, tables that are
    not of the pass. *)
Definition reads (nd : Node) (x : name) : Prop :=
  x ∈ depends_on nd \/ reads_outside_pipeline nd = true /\ x ∉ nd_name <$> nodes.

Context (events : name -> table_event Batch) (st0 : PipelineState) (w0 : World Batch).

Record pass_ok : Prop := {
  po_tables : forall nd, nd ∈ nodes -> is_Some (table_of (nd_name nd));
  po_nodup : NoDup (nd_name <$> nodes);
  po_order : forall i nd d, nodes !! i = Some nd -> d ∈ depends_on nd -> d ∈ nd_name <$> take i nodes;
  po_local : forall nd t c c', nd ∈ nodes -> derived_node nd t -> (forall x, reads nd x -> c x = c' x) ->
    derived_batches t c = derived_batches t c';
  po_stream : forall nd r after, nd ∈ nodes -> events (nd_name nd) = StreamStep (Ok r) after ->
    0 <= r /\ (r = 0 -> after = contents w0 (nd_name nd));
  po_range : forall nd, nd ∈ nodes -> in_range st0 w0 (nd_name nd);
  po_fresh : forall nd t, nd ∈ nodes -> nd_name nd ∉ once_tables -> derived_node nd t -> built_as st0 (nd_name nd) (fingerprint t) = true ->
    reads_outside_pipeline nd = false -> fresh w0 nd t;
}.

Record fresh_inv (ds : list Node) (p : PassState Batch) : Prop := {
  fi_fresh : forall nd t, nd ∈ ds -> nd_name nd ∉ once_tables -> derived_node nd t ->
    fresh (p_world p) nd t /\ built_as (p_state p) (nd_name nd) (fingerprint t) = true;
  fi_unchanged : forall x, x ∉ p_changed p -> contents (p_world p) x = contents w0 x;
  fi_changed : forall x, x ∈ p_changed p -> x ∈ nd_name <$> ds;
  fi_later : forall x, x ∉ nd_name <$> ds ->
    ps_tables (p_state p) !! x = ps_tables st0 !! x /\ committed_txn (p_world p) x = committed_txn w0 x;
}.

(** A step only touches the table it is at, and the failures only grow. *)
Lemma step_frame p nd x : x <> nd_name nd ->
  contents (p_world (step events p nd)) x = contents (p_world p) x /\
  committed_txn (p_world (step events p nd)) x = committed_txn (p_world p) x /\
  ps_tables (p_state (step events p nd)) !! x = ps_tables (p_state p) !! x.
Proof.
  intros Hx. unfold pass_node. destruct (any_in _ _); [done|]. destruct (table_of (nd_name nd)) as [t|] eqn:Et; [|done].
  apply plan_table_name in Et. destruct (_ && once_completed _ _); [done|]. destruct (_ && _ && _ && _); [done|].
  destruct (run_update t (events (nd_name nd)) (p_state p) (p_world p)) as [r [st w]] eqn:Er.
  assert (contents w x = contents (p_world p) x /\ committed_txn w x = committed_txn (p_world p) x /\
          ps_tables st !! x = ps_tables (p_state p) !! x) as (E1 & E2 & E3).
  { unfold run_update in Er. rewrite Et in Er. destruct (kind t).
    1,2: unfold advance_stream in Er; destruct (events (nd_name nd)); simplify_eq; cbn; by rewrite ?put_ne.
    pose proof (recompute_tables t (match events (nd_name nd) with Recompute f => f | StreamStep _ _ => None end)
      (p_state p) (p_world p) x ltac:(by rewrite Et)) as (? & ? & ?).
    rewrite Er in *. done. }
  unfold after_update. destruct r as [rows|e]; [|done]. cbn [p_world p_state]. split_and!; [done|done|].
  destruct (bool_decide (nd_name nd ∈ _)); destruct (bool_decide _); cbn; by rewrite ?lookup_insert_ne by congruence.
Qed.

Lemma step_failed p nd : p_failed (step events p nd) = [] -> p_failed p = [].
Proof.
  unfold pass_node. destruct (any_in _ _); [by intros [? ?]%app_nil|]. destruct (table_of _) as [t|]; [|done].
  destruct (_ && once_completed _ _); [done|]. destruct (_ && _ && _ && _); [done|].
  destruct (run_update _ _ _ _) as [[rows|e] [st w]]; [done|]. by intros [? ?]%app_nil.
Qed.

Lemma fold_failed p l : p_failed (foldl (step events) p l) = [] -> p_failed p = [].
Proof. revert p. induction l as [|nd l IH]; intros p; [done|]. cbn. intros Hf. by apply (step_failed p nd), IH. Qed.

Lemma not_read i j x nd : pass_ok -> nodes !! j = Some x -> nodes !! i = Some nd -> (j <= i)%nat -> ~ reads x (nd_name nd).
Proof.
  intros P Hj Hi Hle [Hd|[_ Hd]].
  - apply (po_order P j x _ Hj) in Hd. apply list_elem_of_fmap in Hd as (y & Ey & Hy).
    apply list_elem_of_lookup in Hy as [k Hk]. apply lookup_take_Some in Hk as [Hk Hlt].
    assert (k = i) as ->; [|lia].
    apply (NoDup_lookup _ k i (nd_name nd) (po_nodup P)); rewrite list_lookup_fmap; [by rewrite Hk, Ey|by rewrite Hi].
  - apply Hd. apply list_elem_of_fmap. exists nd. split; [done|]. by apply list_elem_of_lookup_2 in Hi.
Qed.

Lemma fresh_frame nd t w w' : pass_ok -> nd ∈ nodes -> derived_node nd t -> fresh w nd t ->
  (forall x, reads nd x \/ x = nd_name nd -> contents w' x = contents w x) -> fresh w' nd t.
Proof.
  intros P Hn Hd Hf Hc. unfold fresh in *. rewrite (Hc (nd_name nd)) by auto. rewrite <-Hf. f_equal.
  apply (po_local P nd); auto.
Qed.

(** What one step does at its own table. *)
Lemma step_at i nd p : pass_ok -> nodes !! i = Some nd -> fresh_inv (take i nodes) p -> nd_name nd ∉ nd_name <$> take i nodes ->
  p_failed (step events p nd) = [] ->
  (p_changed (step events p nd) = p_changed p /\ contents (p_world (step events p nd)) (nd_name nd) = contents w0 (nd_name nd) \/
   p_changed (step events p nd) = p_changed p ++ [nd_name nd]) /\
  forall t, nd_name nd ∉ once_tables -> derived_node nd t ->
    fresh (p_world (step events p nd)) nd t /\ built_as (p_state (step events p nd)) (nd_name nd) (fingerprint t) = true.
Proof.
  intros P Hi I Hnew Hfail. pose proof (list_elem_of_lookup_2 _ _ _ Hi) as Hn.
  assert (contents (p_world p) (nd_name nd) = contents w0 (nd_name nd)) as Hsame.
  { apply (fi_unchanged _ _ I). intros Hc. by apply (fi_changed _ _ I) in Hc. }
  destruct (fi_later _ _ I (nd_name nd) Hnew) as [Hst Htx].
  pose proof (step_failed p nd Hfail) as Hf0. unfold pass_node in *. rewrite Hf0, any_in_nil in Hfail |- *.
  destruct (table_of (nd_name nd)) as [t|] eqn:Et; [|by destruct (po_tables P nd Hn); congruence].
  destruct (bool_decide (nd_name nd ∈ once_tables) && _) eqn:Eo.
  { split; [by left|]. intros ? Hno. apply andb_true_iff in Eo as [Eo _]. bool_to_prop. done. }
  destruct (bool_decide (kind t = Derived) && _ && _ && _) eqn:Eu.
  { split; [by left|]. intros t' Hno [Et' Hk]. assert (t' = t) as -> by congruence.
    apply andb_true_iff in Eu as [Eu Hch]. apply andb_true_iff in Eu as [Eu Hout]. apply andb_true_iff in Eu as [_ Hb].
    apply negb_true_iff in Hout, Hch. split; [|done]. cbn [push_outcome p_world].
    apply (fresh_frame nd t w0); [done|done|done| |].
    - apply (po_fresh P nd t Hn Hno); [done| |done]. by rewrite <-(built_as_ext st0 (p_state p)).
    - intros x [[Hx|[Hx _]]| ->]; [|congruence|done]. apply (fi_unchanged _ _ I). intros Hx'.
      apply not_true_iff_false in Hch. apply Hch. apply any_in_spec. by exists x. }
  destruct (run_update t (events (nd_name nd)) (p_state p) (p_world p)) as [[rows|e] [st w]] eqn:Er;
    cbn [after_update p_failed] in Hfail; [|by apply app_nil in Hfail as [_ ?]].
  cbn [after_update p_changed p_world p_state]. pose proof (plan_table_name _ _ Et) as En.
  unfold run_update in Er. rewrite En in Er. destruct (decide (kind t = Derived)) as [Hk|Hk].
  - rewrite (bool_decide_true (kind t = Derived)), orb_true_r by done. split; [by right|]. intros t' Hno [Et' _].
    assert (t' = t) as -> by congruence. rewrite Hk in Er. rewrite (bool_decide_false (nd_name nd ∈ _)) by done.
    split; [|apply built_as_mark].
    assert (in_range (p_state p) (p_world p) (trim (tc_name t))) as Hr.
    { rewrite En. pose proof (po_range P nd Hn) as Hr. unfold in_range, slot_of in *. by rewrite Hst, Htx. }
    destruct (recompute_ok t _ _ _ rows _ Hr Er) as (bs & Hbs & [= -> ->]). rewrite En.
    unfold fresh. cbn [commit_to contents]. rewrite put_eq, <-Hbs. f_equal. apply (po_local P nd); [done|done|].
    intros x Hx. apply put_ne. intros ->. by apply (not_read i i nd nd P Hi Hi).
  - rewrite (bool_decide_false (kind t = Derived)) by done. rewrite orb_false_r. split; [|intros t' _ [Et' Hk']; congruence].
    assert (exists r after, events (nd_name nd) = StreamStep r after /\ r = Ok rows /\ w = {| contents := put (contents (p_world p)) (nd_name nd) after; committed_txn := committed_txn (p_world p) |} \/ rows = 0 /\ w = p_world p) as Hw.
    { destruct (kind t); [| |done].
      all: unfold advance_stream in Er; destruct (events (nd_name nd)) as [r after|f]; simplify_eq; [exists (Ok rows), after; by left|].
      all: exists (Ok 0), []; by right. }
    destruct Hw as (r & after & [(Ev & -> & ->)|[-> ->]]); [|by left].
    destruct (po_stream P nd rows after Hn Ev) as [Hge H0]. destruct (0 <? rows) eqn:E0; [by right|]. bool_to_prop.
    left. split; [done|]. cbn [contents]. rewrite put_eq. apply H0. lia.
Qed.

Lemma step_fresh i nd p : pass_ok -> nodes !! i = Some nd -> fresh_inv (take i nodes) p ->
  p_failed (step events p nd) = [] -> fresh_inv (take (S i) nodes) (step events p nd).
Proof.
  intros P Hi I Hfail. rewrite (take_S_r _ _ nd Hi).
  assert (nd_name nd ∉ nd_name <$> take i nodes) as Hnew.
  { intros (y & Ey & Hy)%list_elem_of_fmap. apply list_elem_of_lookup in Hy as [k Hk].
    apply lookup_take_Some in Hk as [Hk Hlt]. assert (k = i); [|lia].
    apply (NoDup_lookup _ k i (nd_name nd) (po_nodup P)); rewrite list_lookup_fmap; [by rewrite Hk, Ey|by rewrite Hi]. }
  destruct (step_at i nd p P Hi I Hnew Hfail) as [Hch Hown]. pose proof (step_frame p nd) as Hframe.
  set (p' := step events p nd) in *. constructor.
  - intros x t [Hx|Hx]%elem_of_app Hno Hd; [|apply list_elem_of_singleton in Hx as ->; auto].
    assert (nd_name x <> nd_name nd) as Hne.
    { intros E. apply Hnew. rewrite <-E. apply list_elem_of_fmap. by exists x. }
    destruct (fi_fresh _ _ I x t Hx Hno Hd) as [Hf Hb]. destruct (Hframe _ Hne) as (_ & _ & Hs).
    split; [|by rewrite (built_as_ext (p_state p))].
    apply list_elem_of_lookup in Hx as [j Hj]. apply lookup_take_Some in Hj as [Hj Hlt].
    apply (fresh_frame x t (p_world p)); [done|by apply list_elem_of_lookup_2 in Hj|done|done|].
    intros y Hy. apply Hframe. intros ->. destruct Hy as [Hy|Hy]; [|congruence].
    by apply (not_read i j x nd P Hj Hi); [lia|].
  - intros x Hx. destruct (decide (x = nd_name nd)) as [->|Hne].
    + destruct Hch as [[_ ?]|Hch]; [done|]. exfalso. apply Hx. rewrite Hch. set_solver.
    + destruct (Hframe _ Hne) as (-> & _ & _). apply (fi_unchanged _ _ I).
      destruct Hch as [[Hch _]|Hch]; rewrite Hch in Hx; [done|set_solver].
  - intros x Hx. rewrite fmap_app, elem_of_app.
    destruct Hch as [[Hch _]|Hch]; rewrite Hch in Hx; [left; by apply (fi_changed _ _ I)|].
    apply elem_of_app in Hx as [Hx|Hx]; [left; by apply (fi_changed _ _ I)|by right].
  - intros x Hx. rewrite fmap_app in Hx. apply not_elem_of_app in Hx as [Hx Hx2].
    assert (x <> nd_name nd) as Hne by (intros ->; apply Hx2; by left).
    destruct (Hframe _ Hne) as (_ & -> & ->). by apply (fi_later _ _ I).
Qed.

(** One pass: leaving out the tables it reports unchanged is sound when a table
    recorded as built was fresh before. *)
Lemma one_pass_fresh : pass_ok ->
  let p := one_pass fingerprint tables once_tables nodes events st0 w0 in
  p_failed p = [] ->
  forall nd t, nd ∈ nodes -> nd_name nd ∉ once_tables -> derived_node nd t ->
    fresh (p_world p) nd t /\ built_as (p_state p) (nd_name nd) (fingerprint t) = true.
Proof.
  intros P p Hfail. subst p.
  set (p0 := {| p_world := w0; p_state := st0; p_failed := []; p_changed := []; p_outcomes := [] |}).
  assert (forall i, (i <= length nodes)%nat -> fresh_inv (take i nodes) (foldl (step events) p0 (take i nodes))) as Hall.
  { induction i as [|i IH]; intros Hi.
    - rewrite take_0. constructor; cbn; try done; intros ? ? ?%elem_of_nil; done.
    - destruct (lookup_lt_is_Some_2 nodes i Hi) as [nd Hnd]. rewrite (take_S_r _ _ nd Hnd) at 2. rewrite foldl_app. cbn [foldl].
      apply step_fresh; [done|done|apply IH; lia|].
      apply (fold_failed _ (drop (S i) nodes)).
      assert (foldl (step events) p0 nodes = foldl (step events) (step events (foldl (step events) p0 (take i nodes)) nd) (drop (S i) nodes)) as <-.
      { rewrite <-(take_drop_middle nodes i nd Hnd) at 1. by rewrite foldl_app. }
      exact Hfail. }
  specialize (Hall (length nodes) (le_n _)). rewrite take_ge in Hall by done. intros nd t. apply (fi_fresh _ _ Hall).
Qed.

End Fresh.

(** ** Passes over a pipeline built by the graph *)

Section Runs.
Context `{Engine Batch} (fingerprint : TableConfig -> str) (refs : str -> result Error (list name)).
Context (tables : list TableConfig) (once_tables : gset name) (nodes : list Node).
(** Expressions over the columns of the query they check, with no subquery. *)
Context (plain : str -> Prop).

(** The table a reference denotes: the pipeline's table of that name or of its
    last segment, or one outside. *)
Definition denotes (r : name) : name :=
  if bool_decide (r ∈ names_of tables) then r
  else if bool_decide (short_name r ∈ names_of tables) then short_name r else r.

(** The answer to a query depends only on the contents of [X]. *)
Definition depends_only (q : str) (X : list name) : Prop :=
  forall c c', (forall x, x ∈ X -> c x = c' x) ->
    engine_sql c q = engine_sql c' q /\ engine_schema c q = engine_schema c' q.

(** What is relied on of the engine and its parser: a query reads the tables the
    parser lists (spaces around it do not matter), and filtering or counting
    its rows by a plain expression reads no other. *)
Record sql_reads : Prop := {
  reads_listed : forall q rs, refs q = Ok rs -> depends_only (trim q) (denotes <$> rs);
  reads_where : forall q ks X, ks <> [] -> Forall plain ks -> depends_only q X ->
    depends_only (fmt [lit "SELECT * FROM ("; q; lit ") AS _oxidant_expect WHERE ";
                       join (lit " AND ") ((fun k => fmt [lit "("; k; lit ")"]) <$> ks)]) X;
  reads_count : forall q k X, plain k -> depends_only q X ->
    depends_only (fmt [lit "SELECT count(*) AS violations FROM ("; q; lit ") AS _oxidant_expect WHERE ("; k;
                       lit ") IS NOT TRUE"]) X;
}.

(** A derived table defined by one query, without append flows or a declared
    schema, whose checks are plain. *)
Record plain_table (t : TableConfig) : Prop := {
  pt_flows : tc_append_flows t = [];
  pt_schema : tc_output_schema t = None;
  pt_counted : Forall (fun le => plain (check (snd le))) (counted (tc_expect t));
  pt_drops : Forall plain (drop_checks (tc_expect t));
}.

Record pipeline_ok : Prop := {
  pk_names : NoDup (names_of tables);
  pk_build : build refs tables = Ok nodes;
  pk_engine : sql_reads;
  pk_plain : forall t, t ∈ tables -> kind t = Derived -> plain_table t;
  pk_self : forall t sql rs r, t ∈ tables -> tc_sql t = Some sql -> refs sql = Ok rs -> r ∈ rs -> denotes r <> trim (tc_name t);
}.

Lemma check_expectations_local c c' n sql es X :
  sql_reads -> depends_only sql X -> trim sql = sql -> (forall x, x ∈ X -> c x = c' x) ->
  Forall (fun le => plain (check (snd le))) es -> check_expectations c n sql es = check_expectations c' n sql es.
Proof.
  intros L Hd Ht Hc. induction es as [|[label e] es IH]; intros Hes; [done|]. apply Forall_cons in Hes as [He Hes].
  cbn [check_expectations]. unfold scalar_count, violation_count_sql. rewrite Ht.
  destruct (reads_count L sql (check e) X He Hd c c' Hc) as [-> _]. by rewrite IH.
Qed.

Lemma derived_batches_local t c c' X :
  sql_reads -> plain_table t -> (forall sql, tc_sql t = Some sql -> depends_only (trim sql) X) ->
  (forall x, x ∈ X -> c x = c' x) -> derived_batches t c = derived_batches t c'.
Proof.
  intros L [Hf Hs Hk Hdr] Hd Hc. unfold derived_batches. rewrite Hf, Hs. unfold flow_queries.
  destruct (tc_sql t) as [sql|]; [|done]. cbn [fmap option_fmap option_map omap list_omap].
  destruct (nonempty (trim sql)); [|done]. cbn [app union_flow_sql parse_declared rbind validate_by_name_requires_schema].
  destruct (bool_decide (is_Some None)) eqn:E; [apply bool_decide_eq_true in E; by inversion E|].
  destruct (tc_sql_by_name t); [done|]. unfold validate_by_name_requires_schema. cbn [validate_by_name_loop fq_by_name rbind mapM_result flow_branch fq_sql].
  rewrite trim_idem. destruct (nonempty (trim sql)); [|done]. cbn [negb].
  pose proof (Hd sql eq_refl) as Hq.
  rewrite (check_expectations_local c c' _ (trim sql) _ X L Hq (trim_idem sql) Hc Hk).
  destruct (check_expectations c' _ _ _) as [vs [u|e]]; [|done]. cbn [rbind]. unfold query_batches. cbn [parse_declared].
  assert (depends_only (apply_drops (trim sql) (tc_expect t)) X) as Hdd.
  { unfold apply_drops. destruct (drop_checks (tc_expect t)) as [|k ks] eqn:Ek; [done|]. rewrite trim_idem.
    by apply (reads_where L (trim sql) (k :: ks)). }
  destruct (Hdd c c' Hc) as [-> ->]. done.
Qed.

Lemma plan_table_in n t : plan_table tables n = Some t -> t ∈ tables.
Proof.
  unfold plan_table. destruct (list_find _ tables) as [[i x]|] eqn:E; [|done]. cbn. intros [= <-].
  apply list_find_Some in E as (E & _). by apply list_elem_of_lookup_2 in E.
Qed.

(** A definition reads only what the graph says. *)
Lemma graph_local nd t c c' : pipeline_ok -> nd ∈ nodes -> derived_node tables nd t ->
  (forall x, reads nodes nd x -> c x = c' x) -> derived_batches t c = derived_batches t c'.
Proof.
  intros K Hn [Ht Hk] Hc. pose proof (plan_table_in _ _ Ht) as Hin. pose proof (plan_table_name _ _ _ Ht) as En.
  destruct (build_dependencies refs tables nodes t nd (pk_names K) (pk_build K) Hin Hn (eq_sym En)) as [Hdeps Hout].
  destruct (build_sorted refs tables nodes (pk_build K)) as (_ & Hnames & _).
  assert (forall x, x ∈ declared_names tables <-> x ∈ names_of tables) as Hdecl
    by (intros x; unfold declared_names; apply elem_of_list_to_set).
  apply (derived_batches_local t c c' (match tc_sql t with Some sql => match refs sql with Ok rs => denotes <$> rs | Err _ => [] end | None => [] end));
    [apply K|by apply (pk_plain K)| |].
  - intros sql Es. rewrite Es. destruct (refs sql) as [rs|e] eqn:Er; [by apply (reads_listed (pk_engine K))|].
    exfalso. destruct (build_refs_ok refs tables nodes t sql (pk_build K) Hin Es) as [rs E]. congruence.
  - destruct (tc_sql t) as [sql|] eqn:Es; [|by intros x ?%elem_of_nil]. destruct (refs sql) as [rs|e] eqn:Er; [|by intros x ?%elem_of_nil].
    intros x (r & -> & Hr)%list_elem_of_fmap. apply Hc. unfold reads.
    pose proof (pk_self K t sql rs r Hin Es Er Hr) as Hself. rewrite En in Hself.
    assert (mentions refs t r) as Hm by (by exists sql, rs). unfold denotes in *.
    destruct (bool_decide_reflect (r ∈ names_of tables)) as [Hd|Hd].
    { left. apply Hdeps. right. exists r. split; [done|]. split_and!; [done|by apply Hdecl|by left]. }
    destruct (bool_decide_reflect (short_name r ∈ names_of tables)) as [Hd2|Hd2].
    { left. apply Hdeps. right. exists r. split; [done|]. split_and!; [done|by apply Hdecl|by right]. }
    right. split; [|rewrite Hnames, Hdecl; done]. apply Hout. exists r. split; [done|].
    assert (nd_name nd ∈ names_of tables) as Hs by (apply Hdecl, Hnames, list_elem_of_fmap; by exists nd).
    intros x [->| ->]; (split; [congruence|by rewrite Hdecl]).
Qed.

(** The streams of a pass: a batch count is not negative, and a stream that ran
    no rows left its table alone. *)
Definition streams_ok (events : name -> table_event Batch) (w : World Batch) : Prop :=
  forall nd r after, nd ∈ nodes -> events (nd_name nd) = StreamStep (Ok r) after ->
    0 <= r /\ (r = 0 -> after = contents w (nd_name nd)).

(** Between two passes only tables outside the pipeline change. *)
Definition only_outside (w w' : World Batch) : Prop :=
  forall x, x ∈ names_of tables -> contents w' x = contents w x /\ committed_txn w' x = committed_txn w x.

(** Passes without a failed table, from a pipeline that has no state yet. *)
Inductive passes : PipelineState -> World Batch -> Prop :=
  | passes_start w : passes {| ps_tables := ∅; ps_once := ∅ |} w
  | passes_next st w w1 events :
      passes st w -> only_outside w w1 -> streams_ok events w1 ->
      (forall nd, nd ∈ nodes -> in_range st w1 (nd_name nd)) ->
      let p := one_pass fingerprint tables once_tables nodes events st w1 in
      p_failed p = [] -> passes (p_state p) (p_world p).

Definition built_fresh (st : PipelineState) (w : World Batch) : Prop :=
  forall nd t, nd ∈ nodes -> nd_name nd ∉ once_tables -> derived_node tables nd t ->
    built_as st (nd_name nd) (fingerprint t) = true -> reads_outside_pipeline nd = false -> fresh w nd t.

Lemma built_fresh_outside st w w1 : pipeline_ok -> only_outside w w1 -> built_fresh st w -> built_fresh st w1.
Proof.
  intros K Ho Hb nd t Hn Hno Hd Hbuilt Hr. specialize (Hb nd t Hn Hno Hd Hbuilt Hr). unfold fresh in *.
  destruct (build_sorted refs tables nodes (pk_build K)) as (_ & Hnames & Htopo).
  assert (forall x, x ∈ nd_name <$> nodes -> x ∈ names_of tables) as Hin
    by (intros x Hx; apply Hnames in Hx; unfold declared_names in Hx; by apply elem_of_list_to_set in Hx).
  destruct (Ho (nd_name nd)) as [-> _]; [apply Hin, list_elem_of_fmap; by exists nd|]. rewrite <-Hb. f_equal.
  apply (graph_local nd t _ _ K Hn Hd). intros x [Hx|[Hx _]]; [|congruence]. apply Ho, Hin.
  apply list_elem_of_lookup in Hn as [i Hi]. apply (Htopo i nd x Hi) in Hx as (y & -> & Hy)%list_elem_of_fmap.
  apply list_elem_of_fmap. exists y. split; [done|]. by eapply elem_of_take in Hy as (? & ? & _); eapply list_elem_of_lookup_2.
Qed.

Lemma next_pass_fresh st w w1 events :
  pipeline_ok -> built_fresh st w -> only_outside w w1 -> streams_ok events w1 ->
  (forall nd, nd ∈ nodes -> in_range st w1 (nd_name nd)) ->
  let p := one_pass fingerprint tables once_tables nodes events st w1 in
  p_failed p = [] ->
  forall nd t, nd ∈ nodes -> nd_name nd ∉ once_tables -> derived_node tables nd t ->
    fresh (p_world p) nd t /\ built_as (p_state p) (nd_name nd) (fingerprint t) = true.
Proof.
  intros K Hb Ho Hs Hr p Hfail. destruct (build_sorted refs tables nodes (pk_build K)) as (Hnd & Hnames & Htopo).
  apply (one_pass_fresh fingerprint tables once_tables nodes events st w1); [|exact Hfail]. constructor; try done.
  - intros nd Hn. assert (nd_name nd ∈ declared_names tables) as Hd by (apply Hnames, list_elem_of_fmap; by exists nd).
    unfold declared_names in Hd. apply elem_of_list_to_set, list_elem_of_fmap in Hd as (t & Et & Ht).
    unfold plan_table. destruct (list_find (fun t => trim (tc_name t) = nd_name nd) tables) as [[i x]|] eqn:E; [by eexists|].
    apply list_find_None in E. rewrite Forall_forall in E. by destruct (E t Ht).
  - intros nd t c c' Hn Hd. by apply (graph_local nd t).
  - by apply (built_fresh_outside st w w1).
Qed.

Lemma passes_fresh st w : pipeline_ok -> passes st w -> built_fresh st w.
Proof.
  intros K. induction 1 as [w|st w w1 events Hp IH Ho Hs Hr p Hfail].
  - intros nd t _ _ _ Hbuilt. unfold built_as in Hbuilt. cbn in Hbuilt. by rewrite lookup_empty in Hbuilt.
  - intros nd t Hn Hno Hd _ _. by apply (next_pass_fresh st w w1 events K IH Ho Hs Hr Hfail nd t).
Qed.


End Runs.

(** ** Expectations *)

Section Expectations.
Context `{SqlSemantics Batch Row}.

(** A [Fail] expectation some row of the query does not satisfy. *)
Definition fails (bs : list Batch) (le : str * Expectation) : bool :=
  bool_decide (action (snd le) = Fail) && negb (violations_of (check (snd le)) bs =? 0).

Definition warns (bs : list Batch) (le : str * Expectation) : bool :=
  bool_decide (action (snd le) = Warn) && negb (violations_of (check (snd le)) bs =? 0).
Definition warnings (n : name) (bs : list Batch) (es : list (str * Expectation)) : list violation :=
  map (fun le => {| vi_table := n; vi_label := fst le; failed_records := violations_of (check (snd le)) bs |})
    (List.filter (warns bs) es).

Lemma check_expectations_spec c n sql bs es :
  trim sql = sql -> wf_query sql -> engine_sql c sql = Ok bs -> Forall (fun le => wf_check (check (snd le))) es ->
  match check_expectations c n sql es with
  | (vs, Ok _) => existsb (fails bs) es = false /\ vs = warnings n bs es
  | (_, Err e) => exists label exp, (label, exp) ∈ es /\ action exp = Fail /\ violations_of (check exp) bs <> 0 /\
      e = expectation_error n label (violations_of (check exp) bs) (check exp)
  end.
Proof.
  intros Ht Hq Hs. induction es as [|[label exp] es IH]; intros Hes; [done|].
  apply Forall_cons in Hes as [Hk Hes]. specialize (IH Hes). cbn [check_expectations].
  rewrite (scalar_count_violations c sql (check exp) bs Ht Hq Hk Hs).
  unfold warnings in *. cbn [existsb List.filter]. unfold fails at 1, warns at 1. cbn [fst snd].
  assert (match check_expectations c n sql es with
    | (_, Err e) => exists l x, (l, x) ∈ (label, exp) :: es /\ action x = Fail /\ violations_of (check x) bs <> 0 /\
        e = expectation_error n l (violations_of (check x) bs) (check x)
    | _ => True end) as Herr.
  { destruct (check_expectations c n sql es) as [vs [u|e]]; [done|]. destruct IH as (l & x & Hin & ?).
    exists l, x. split; [by right|done]. }
  destruct (violations_of (check exp) bs =? 0) eqn:E0; bool_to_prop.
  - rewrite !andb_false_r. cbn [orb]. by destruct (check_expectations c n sql es) as [vs [u|e]].
  - rewrite !andb_true_r. destruct (action exp) eqn:Ea; cbn -[violations_of].
    + destruct (check_expectations c n sql es) as [vs [u|e]]; [|done]. destruct IH as [? ->]. done.
    + by destruct (check_expectations c n sql es) as [vs [u|e]].
    + exists label, exp. split_and!; [left|done|done|done].
Qed.

(** C27. Expectations are enforced against the rows of the table's own query: if
    a [fail] check is not true of some row, false or null, the update is refused with that
    expectation's message and nothing changes; otherwise the table receives
    exactly the rows on which every non-blank [drop] check is true, and each
    violated [warn] check is reported with its exact count. *)
Theorem recompute_enforces_expectations t st (w : World Batch) sql bs :
  let n := trim (tc_name t) in
  in_range st w n -> tc_output_schema t = None ->
  union_flow_sql (contents w) (flow_queries (tc_sql t) (tc_sql_by_name t) (tc_append_flows t)) None = Ok sql ->
  trim sql <> [] -> wf_query (trim sql) ->
  Forall (fun le => wf_check (check (snd le))) (counted (tc_expect t)) -> Forall wf_check (drop_checks (tc_expect t)) ->
  engine_sql (contents w) (trim sql) = Ok bs ->
  if existsb (fails bs) (counted (tc_expect t))
  then exists label exp, (label, exp) ∈ counted (tc_expect t) /\ fails bs (label, exp) = true /\
    recompute t None st w = (Err (expectation_error n label (violations_of (check exp) bs) (check exp)), (st, w))
  else exists bs' st' w', recompute t None st w = (Ok (total_rows bs'), (st', w')) /\ contents w' n = bs' /\
    rows_of bs' = filter (fun r => Forall (fun k => truth k r = Some true) (drop_checks (tc_expect t))) (rows_of bs) /\
    (derived_batches t (contents w)).1 = warnings n bs (counted (tc_expect t)).
Proof.
  intros n Hr Hns Hu Hne Hq Hc Hd Hs.
  pose proof (check_expectations_spec (contents w) n (trim sql) bs _ (trim_idem sql) Hq Hs Hc) as Hspec.
  destruct (apply_drops_rows _ _ _ _ (trim_idem sql) Hq Hd Hs) as (bs' & Hs' & Hrows).
  destruct (check_expectations (contents w) n (trim sql) (counted (tc_expect t))) as [vs [u|e]] eqn:Ec.
  - destruct Hspec as [-> ->]. exists bs'.
    assert (derived_batches t (contents w) = (warnings n bs (counted (tc_expect t)), Ok bs')) as Hdb.
    { unfold derived_batches. rewrite Hns, Hu. unfold nonempty. rewrite bool_decide_true by done. cbn [negb]. fold n.
      rewrite Ec. cbn [rbind]. unfold query_batches. rewrite Hs'. cbn [rbind parse_declared].
      destruct bs' as [|b bs']; [|done]. destruct (query_planned _ _ _ Hs') as [fs ->]. done. }
    pose proof (recompute_eq t None st w bs' Hr ltac:(by rewrite Hdb)) as ->.
    eexists _, _. split; [done|]. rewrite Hdb. cbn. by rewrite put_eq.
  - destruct Hspec as (label & exp & Hin & Ha & Hv & ->).
    assert (fails bs (label, exp) = true) as Hf.
    { unfold fails. cbn [snd]. rewrite bool_decide_true by done. destruct (Z.eqb_spec (violations_of (check exp) bs) 0); done. }
    assert (existsb (fails bs) (counted (tc_expect t)) = true) as ->.
    { apply existsb_exists. exists (label, exp). by rewrite <-list_elem_of_In. }
    exists label, exp. split_and!; [done|done|].
    assert ((derived_batches t (contents w)).2 = Err (expectation_error n label (violations_of (check exp) bs) (check exp))) as Hdb.
    { unfold derived_batches. rewrite Hns, Hu. unfold nonempty. rewrite bool_decide_true by done. cbn [negb]. fold n.
      by rewrite Ec. }
    unfold recompute. by rewrite Hdb.
Qed.

End Expectations.

(** ** Concrete passes

    A small engine: a table is a list of batches of nullable integers, a query
    is a comma-separated list of table names whose batches it concatenates, and
    the checks [#] and [$] ask for a positive value and for one below ten. *)
Module PassRuns.

(** A stream [bronze], [silver] over it and [gold] over [silver]. *)
Definition bronze : TableConfig := GraphRuns.table "bronze" true None None [].
Definition silver : TableConfig := GraphRuns.table "silver" false None (Some "bronze"%string) [].
Definition gold : TableConfig := GraphRuns.table "gold" false None (Some "silver"%string) [].
Definition demo_tables : list TableConfig := [bronze; silver; gold].
Definition demo_nodes : list Node :=
  [GraphRuns.node "bronze" [] false; GraphRuns.node "silver" ["bronze"%string] false;
   GraphRuns.node "gold" ["silver"%string] false].
Definition fp (t : TableConfig) : str := default [] (tc_sql t).

Definition Row := option Z.
Definition truth1 (r : Row) (k : Z) : option bool :=
  if k =? 35 then (fun v => 0 <? v) <$> r else if k =? 36 then (fun v => v <? 10) <$> r else None.
Definition letters (s : str) : list Z := List.filter (fun ch => (ch =? 35) || (ch =? 36)) s.

(** SQL's [AND]. *)
Definition and3 (a b : option bool) : option bool :=
  match a, b with
  | Some false, _ | _, Some false => Some false
  | Some true, Some true => Some true
  | _, _ => None
  end.
Definition all_hold (r : Row) (s : str) : option bool := foldr and3 (Some true) (truth1 r <$> letters s).
(** Of the texts that occur only [IS NOT TRUE] has a [T]. *)
Definition holds (p : str) (r : Row) : option bool :=
  if bool_decide (84 ∈ p) then Some (bool_decide (all_hold r p <> Some true)) else all_hold r p.

Definition plain_text (q : str) : bool := bool_decide (40 ∉ q) && bool_decide (41 ∉ q).
Definition base (c : name -> list (list Row)) (q : str) : list (list Row) := split_char 44 q ≫= (fun r => c (denotes demo_tables r)).

(** The query and the predicate of [<prefix>q) AS _oxidant_expect WHERE p]. *)
Definition wrapped (prefix text : str) : option (str * str) :=
  rest ← strip_prefix prefix text; x ← split_once 41 rest;
  p ← strip_prefix (lit " AS _oxidant_expect WHERE ") x.2;
  if plain_text x.1 && bool_decide (95 ∉ p) then Some (x.1, p) else None.

Definition select_all : str := lit "SELECT * FROM (".
Definition select_count : str := lit "SELECT count(*) AS violations FROM (".
Definition kept (p : str) (rows : list Row) : list Row := filter (fun r => holds p r = Some true) rows.

Definition no_parse : Error := Plan (lit "could not parse").
Definition run (c : name -> list (list Row)) (text : str) : result Error (list (list Row)) :=
  if plain_text text then Ok (base c text)
  else match wrapped select_all text with
       | Some (q, p) => Ok [kept p (concat (base c q))]
       | None =>
           match wrapped select_count text with
           | Some (q, p) => Ok [[Some (Z.of_nat (length (kept p (concat (base c q)))))]]
           | None => Err no_parse
           end
       end.

#[local] Instance demo : Engine (list Row) := {|
  engine_sql := run;
  engine_schema c q := Ok [];
  num_rows b := Z.of_nat (length b);
  int64_column0 b := default None (head b);
  conform_batch _ b := Ok b;
  parse_spark_schema _ := Ok (StructType []);
|}.

Definition demo_refs (q : str) : result Error (list name) := if plain_text q && bool_decide (trim q = q) then Ok (split_char 44 q) else Err no_parse.

Definition demo_check (k : str) : Prop := k = [35] \/ k = [36].
Definition demo_and (ks : list str) : str := join (lit " AND ") ((fun k => fmt [lit "("; k; lit ")"]) <$> ks).
Definition demo_not_true (k : str) : str := fmt [lit "("; k; lit ") IS NOT TRUE"].
Definition demo_pred (p : str) : Prop :=
  (exists ks, ks <> [] /\ Forall demo_check ks /\ p = demo_and ks) \/ exists k, demo_check k /\ p = demo_not_true k.

Lemma plain_text_spec q : plain_text q = true <-> 40 ∉ q /\ 41 ∉ q.
Proof. unfold plain_text. rewrite andb_true_iff, !bool_decide_eq_true. done. Qed.

(** A prefix without a closing parenthesis ends before the first one. *)
Lemma strip_before_paren P a b p : 41 ∉ P -> strip_prefix P (a ++ 41 :: b) = Some p -> exists a', a = P ++ a' /\ p = a' ++ 41 :: b.
Proof.
  intros HP E. apply strip_prefix_sound in E. revert P HP E. induction a as [|x a IH]; intros [|y P] HP E.
  - exists []. by split.
  - cbn in E. injection E as <- _. exfalso. apply HP. left.
  - exists (x :: a). by split.
  - cbn in E. injection E as <- E. destruct (IH P) as (a' & -> & ->); [set_solver|done|]. by exists a'.
Qed.

Definition wrap (prefix q p : str) : str := fmt [prefix; q; lit ") AS _oxidant_expect WHERE "; p].
Lemma wrap_eq prefix q p : wrap prefix q p = prefix ++ q ++ 41 :: lit " AS _oxidant_expect WHERE " ++ p.
Proof. unfold wrap, fmt. cbn [concat]. by rewrite app_nil_r. Qed.

(** Wrapping a query reads as that query, if it is one, and as nothing if not. *)
Lemma wrapped_wrap prefix q p : 95 ∉ p -> wrapped prefix (wrap prefix q p) = if plain_text q then Some (q, p) else None.
Proof.
  intros Hp. rewrite wrap_eq. unfold wrapped. rewrite strip_prefix_app. cbn [mbind option_bind].
  destruct (decide (41 ∈ q)) as [Hq|Hq].
  - assert (plain_text q = false) as -> by (apply not_true_is_false; rewrite plain_text_spec; naive_solver).
    apply list_elem_of_split_l in Hq as (a & b & -> & Ha). rewrite <-app_assoc. cbn [app].
    rewrite split_once_app by done. cbn [mbind option_bind fst snd].
    destruct (strip_prefix (lit " AS _oxidant_expect WHERE ") _) as [p'|] eqn:E; [|done].
    apply strip_before_paren in E as (b' & -> & ->); [|apply (bool_decide_unpack _); by vm_compute]. cbn [mbind option_bind].
    rewrite (bool_decide_false (95 ∉ _)); [by rewrite andb_false_r|]. intros Hn. apply Hn.
    rewrite elem_of_app. right. right. rewrite elem_of_app. left. apply (bool_decide_unpack _). by vm_compute.
  - rewrite split_once_app by done. cbn [mbind option_bind fst snd]. rewrite strip_prefix_app. cbn [mbind option_bind].
    rewrite (bool_decide_true (95 ∉ p)) by done. by rewrite andb_true_r.
Qed.

Lemma wrap_not_plain prefix q p : 40 ∈ prefix -> plain_text (wrap prefix q p) = false.
Proof.
  intros Hin. apply not_true_is_false. rewrite plain_text_spec, wrap_eq, elem_of_app. naive_solver.
Qed.

Lemma run_where c q p : 95 ∉ p -> run c (wrap select_all q p) =
  if plain_text q then Ok [kept p (concat (base c q))] else Err no_parse.
Proof.
  intros Hp. unfold run. rewrite wrap_not_plain by (apply (bool_decide_unpack _); by vm_compute). rewrite wrapped_wrap by done.
  destruct (plain_text q); [done|]. rewrite wrap_eq. done.
Qed.
Lemma run_count c q p : 95 ∉ p -> run c (wrap select_count q p) =
  if plain_text q then Ok [[Some (Z.of_nat (length (kept p (concat (base c q)))))]] else Err no_parse.
Proof.
  intros Hp. unfold run. rewrite wrap_not_plain by (apply (bool_decide_unpack _); by vm_compute).
  assert (wrapped select_all (wrap select_count q p) = None) as -> by (by rewrite wrap_eq).
  rewrite wrapped_wrap by done. by destruct (plain_text q).
Qed.

Lemma demo_and_cons k k' ks : demo_and (k :: k' :: ks) = fmt [lit "("; k; lit ")"] ++ lit " AND " ++ demo_and (k' :: ks).
Proof. done. Qed.

(** No [_] and no [T] in a conjunction, whose checks are its letters. *)
Lemma demo_and_chars ks : ks <> [] -> Forall demo_check ks ->
  letters (demo_and ks) = concat ks /\ 84 ∉ demo_and ks /\ 95 ∉ demo_and ks.
Proof.
  induction ks as [|k [|k' ks] IH]; intros Hne Hk; [done| |].
  - destruct (Forall_inv Hk) as [->| ->]; split_and!; try done; apply (bool_decide_unpack _); by vm_compute.
  - apply Forall_cons in Hk as [Hk Hks]. destruct (IH ltac:(done) Hks) as (E1 & E2 & E3). rewrite demo_and_cons.
    unfold letters in *. rewrite !List.filter_app, E1. rewrite !not_elem_of_app.
    destruct Hk as [->| ->]; split_and!; try done; apply (bool_decide_unpack _); by vm_compute.
Qed.

Lemma demo_pred_plain p : demo_pred p -> 95 ∉ p.
Proof.
  intros [(ks & Hne & Hk & ->)|(k & Hk & ->)]; [by apply demo_and_chars|].
  destruct Hk as [->| ->]; apply (bool_decide_unpack _); by vm_compute.
Qed.

Lemma and3_true l : foldr and3 (Some true) l = Some true <-> Forall (fun x => x = Some true) l.
Proof.
  induction l as [|x l IH]; [done|]. cbn [foldr]. rewrite Forall_cons, <-IH.
  destruct x as [[]|], (foldr and3 (Some true) l) as [[]|]; cbn; naive_solver.
Qed.

Lemma holds_letter k r : demo_check k -> holds k r = Some true <-> Forall (fun ch => truth1 r ch = Some true) k.
Proof.
  intros Hk. unfold holds, all_hold. destruct Hk as [->| ->]; rewrite bool_decide_false by (apply (bool_decide_unpack _); by vm_compute);
    rewrite and3_true, Forall_fmap; done.
Qed.

Lemma demo_and_truth ks r : ks <> [] -> Forall demo_check ks ->
  holds (demo_and ks) r = Some true <-> Forall (fun k => holds k r = Some true) ks.
Proof.
  intros Hne Hk. destruct (demo_and_chars ks Hne Hk) as (El & Ht & _). unfold holds at 1. rewrite bool_decide_false by done.
  unfold all_hold. rewrite El, and3_true, Forall_fmap. clear -Hk. induction Hk as [|k ks Hk Hks IH]; [done|].
  cbn [concat]. rewrite Forall_app, Forall_cons, (holds_letter k r Hk). by rewrite <-IH.
Qed.

Lemma demo_not_true_truth k r : demo_check k -> holds (demo_not_true k) r = Some (bool_decide (holds k r <> Some true)).
Proof.
  intros Hk. unfold holds. destruct Hk as [->| ->];
    rewrite (bool_decide_true (84 ∈ demo_not_true _)) by (apply (bool_decide_unpack _); by vm_compute);
    rewrite (bool_decide_false (84 ∈ _)) by (apply (bool_decide_unpack _); by vm_compute); done.
Qed.

#[local] Instance demo_semantics : SqlSemantics (list Row) Row.
Proof.
  refine {| rows_of := @concat Row; wf_query := fun q => plain_text q = true; wf_check := demo_check; wf_pred := demo_pred;
            truth := holds |}.
  - intros ks Hne Hk. split; [left; by exists ks|]. intros r. by apply demo_and_truth.
  - intros k Hk. split; [right; by exists k|]. intros r. by apply demo_not_true_truth.
  - intros c q p bs Hq Hp Hs. cbn in Hs. unfold run in Hs. rewrite Hq in Hs. injection Hs as <-.
    exists [kept p (concat (base c q))]. split; [|cbn; by rewrite app_nil_r].
    pose proof (run_where c q p (demo_pred_plain p Hp)) as E. rewrite Hq in E. exact E.
  - intros c q p bs Hq Hp Hs. cbn in Hs. unfold run in Hs. rewrite Hq in Hs. injection Hs as <-.
    pose proof (run_count c q p (demo_pred_plain p Hp)) as E. rewrite Hq in E.
    eexists _, _. split; [exact E|]. split; [reflexivity|]. done.
  - intros. by eexists.
Defined.

(** What a query of the demo engine reads. *)
Lemma demo_base_local c c' q X : plain_text q = true -> depends_only q X -> (forall x, x ∈ X -> c x = c' x) -> base c q = base c' q.
Proof.
  intros Hq Hd Hc. destruct (Hd c c' Hc) as [E _]. cbn in E. unfold run in E. rewrite Hq in E. by injection E.
Qed.

Lemma demo_reads : sql_reads demo_refs demo_tables demo_check.
Proof.
  constructor.
  - intros q rs Hr c c' Hc. split; [|done]. unfold demo_refs in Hr. destruct (plain_text q) eqn:Hq; [|done].
    destruct (bool_decide (trim q = q)) eqn:Ht; [|done]. injection Hr as <-.
    bool_to_prop. rewrite Ht. cbn. unfold run. rewrite Hq. f_equal. unfold base. induction (split_char 44 q) as [|r rs IH]; [done|].
    cbn [mbind list_bind]. rewrite (Hc (denotes demo_tables r)), IH; [done| |left]. intros x Hx. apply Hc. by right.
  - intros q ks X Hne Hk Hd c c' Hc. split; [|done]. destruct (demo_and_chars ks Hne Hk) as (_ & _ & H95).
    change (run c (wrap select_all q (demo_and ks)) = run c' (wrap select_all q (demo_and ks))). rewrite !run_where by done.
    destruct (plain_text q) eqn:Hq; [|done]. by rewrite (demo_base_local c c' q X).
  - intros q k X Hk Hd c c' Hc. split; [|done].
    assert (95 ∉ demo_not_true k) as H95 by (apply demo_pred_plain; right; by exists k).
    assert (fmt [lit "SELECT count(*) AS violations FROM ("; q; lit ") AS _oxidant_expect WHERE ("; k; lit ") IS NOT TRUE"]
      = wrap select_count q (demo_not_true k)) as ->.
    { unfold wrap, demo_not_true, fmt. cbn [concat]. change (lit ") AS _oxidant_expect WHERE (") with (lit ") AS _oxidant_expect WHERE " ++ lit "(").
      by rewrite !app_nil_r, <-!app_assoc. }
    cbn [engine_sql demo]. rewrite !run_count by done. destruct (plain_text q) eqn:Hq; [|done]. by rewrite (demo_base_local c c' q X).
Qed.

Definition empty_world : World (list Row) := {| contents := fun _ => []; committed_txn := fun _ => None |}.
Definition empty_state : PipelineState := {| ps_tables := ∅; ps_once := ∅ |}.

Definition pass (ev : name -> table_event (list Row)) (st : PipelineState) (w : World (list Row)) : PassState (list Row) :=
  one_pass fp demo_tables ∅ demo_nodes ev st w.

(** The stream delivers [r] rows, after which it holds [bs]; [silver] meets [f]. *)
Definition script (r : Z) (bs : list (list Row)) (f : option (Error * moment)) (n : name) : table_event (list Row) :=
  if decide (n = lit "bronze") then StreamStep (Ok r) bs
  else if decide (n = lit "silver") then Recompute f else Recompute None.

Definition pass1 : PassState (list Row) := pass (script 1 [[Some 1]] None) empty_state empty_world.
Definition pass2 : PassState (list Row) :=
  pass (script 1 [[Some 1]; [Some 2]] (Some (Io (lit "timeout"), BeforeEpoch))) (p_state pass1) (p_world pass1).
Definition pass3 : PassState (list Row) := pass (script 0 [[Some 1]; [Some 2]] None) (p_state pass2) (p_world pass2).

(** After a failed update of [silver], the next pass in which its stream is
    idle reports [silver] and [gold] unchanged and ends without a failure,
    although both still hold what they held before the failure and not what
    their definitions yield: the failure does not clear the record that they
    are built. *)
Theorem failed_update_goes_stale :
  (status <$> p_outcomes pass2) = [Updated; FailedWith (lit "io error: timeout"); Skipped] /\
  (status <$> p_outcomes pass3) = [Updated; Unchanged; Unchanged] /\ p_failed pass3 = [] /\
  contents (p_world pass3) (lit "bronze") = [[Some 1]; [Some 2]] /\
  contents (p_world pass3) (lit "silver") = [[Some 1]] /\
  (derived_batches silver (contents (p_world pass3))).2 = Ok [[Some 1]; [Some 2]].
Proof. vm_compute. repeat split. Qed.

(** [late] reads [silver] only through an append flow. *)
Definition late : TableConfig := GraphRuns.table "late" false None None ["silver"%string].
Definition late_tables : list TableConfig := [late; bronze; silver].
Definition late_order : list Node :=
  [GraphRuns.node "late" [] false; GraphRuns.node "bronze" [] false; GraphRuns.node "silver" ["bronze"%string] false].

(** The graph looks at [sql:] only, so a table that reads another through an
    append flow is ordered before it and without depending on it; it is then
    built from the previous contents and left alone when they change. *)
Theorem append_flows_not_ordered :
  build GraphRuns.refs late_tables = Ok late_order /\
  flow_queries (tc_sql late) (tc_sql_by_name late) (tc_append_flows late) = [{| fq_sql := lit "silver"; fq_by_name := false |}] /\
  let p1 := one_pass fp late_tables ∅ late_order (script 1 [[Some 1]] None) empty_state empty_world in
  let p2 := one_pass fp late_tables ∅ late_order (script 1 [[Some 1]; [Some 2]] None) (p_state p1) (p_world p1) in
  contents (p_world p1) (lit "silver") = [[Some 1]] /\ contents (p_world p1) (lit "late") = [] /\
  (status <$> p_outcomes p2) = [Unchanged; Updated; Updated] /\
  contents (p_world p2) (lit "silver") = [[Some 1]; [Some 2]] /\ contents (p_world p2) (lit "late") = [].
Proof. vm_compute. repeat split. Qed.

(** *** Witnesses *)

Lemma recompute_version_fresh_witness :
  exists st' w', recompute silver None (p_state pass1) (p_world pass1) = (Ok 1, (st', w')) /\
    ts_epoch (slot_of st' (lit "silver")) = 2 /\ committed_txn w' (lit "silver") = Some 2 /\
    contents w' (lit "silver") = [[Some 1]] /\ 1 < 2 /\ 1 < 2.
Proof.
  refine (recompute_version_fresh silver (p_state pass1) (p_world pass1) [[Some 1]] _ _).
  - split; vm_compute; [split; congruence|congruence].
  - vm_compute. reflexivity.
Defined.

Lemma pass_skips_exactly_witness :
  to_name <$> p_outcomes pass2 = nd_name <$> demo_nodes /\
  forall i nd, demo_nodes !! i = Some nd -> exists o, p_outcomes pass2 !! i = Some o /\ to_name o = nd_name nd /\
    (to_skipped o = true <->
       exists d o', d ∈ depends_on nd /\ o' ∈ take i (p_outcomes pass2) /\ to_name o' = d /\ bad o').
Proof.
  refine (pass_skips_exactly fp demo_tables ∅ demo_nodes _ _ _ _).
  intros nd Hnd. repeat (apply elem_of_cons in Hnd as [->|Hnd]; [by eexists|]). by apply elem_of_nil in Hnd.
Defined.

Lemma demo_built : build demo_refs demo_tables = Ok demo_nodes.
Proof. vm_compute. reflexivity. Qed.

Lemma demo_pipeline_ok : pipeline_ok demo_refs demo_tables demo_nodes demo_check.
Proof.
  constructor.
  - apply (bool_decide_unpack _). by vm_compute.
  - apply demo_built.
  - apply demo_reads.
  - intros t Ht Hk. repeat (apply elem_of_cons in Ht as [->|Ht]; [first [done|constructor; done || constructor]|]).
    by apply elem_of_nil in Ht.
  - intros t sql rs r Ht Es Er Hr.
    assert (forallb (fun t => match tc_sql t with
      | Some sql => match demo_refs sql with Ok rs => forallb (fun r => bool_decide (denotes demo_tables r <> trim (tc_name t))) rs | Err _ => true end
      | None => true end) demo_tables = true) as Hall by (vm_compute; reflexivity).
    rewrite forallb_forall in Hall. specialize (Hall t (proj1 (list_elem_of_In _ _) Ht)). cbn beta in Hall. rewrite Es, Er in Hall.
    rewrite forallb_forall in Hall. specialize (Hall r (proj1 (list_elem_of_In _ _) Hr)). by apply bool_decide_eq_true in Hall.
Qed.

Lemma demo_streams r bs f w : 0 < r -> streams_ok demo_nodes (script r bs f) w.
Proof.
  intros Hr nd r' after Hnd E. unfold script in E. destruct (decide _); [|by destruct (decide _)]. simplify_eq. split; lia.
Qed.

Lemma demo_first : passes fp demo_tables ∅ demo_nodes (p_state pass1) (p_world pass1).
Proof.
  apply (passes_next fp demo_tables ∅ demo_nodes empty_state empty_world empty_world (script 1 [[Some 1]] None)).
  - apply passes_start.
  - done.
  - by apply demo_streams.
  - intros nd Hnd. repeat (apply elem_of_cons in Hnd as [->|Hnd]; [vm_compute; repeat split; congruence|]). by apply elem_of_nil in Hnd.
  - vm_compute. reflexivity.
Qed.


(** [silver] with a [drop] on non-positive and null values, a [warn] and a
    [fail] on values of ten and more. *)
Definition guarded (a : ExpectAction) : TableConfig :=
  {| tc_name := lit "silver"; tc_source := false; tc_auto_cdc := None; tc_sql := Some (lit "bronze");
     tc_sql_by_name := false; tc_append_flows := []; tc_output_schema := None;
     tc_expect := [(lit "positive", {| check := lit " # "; action := Drop |});
                   (lit "small", {| check := lit "$"; action := a |})] |}.
Definition dirty : World (list Row) :=
  {| contents := fun n => if decide (n = lit "bronze") then [[Some 5; None]; [Some (-2); Some 70]] else [];
     committed_txn := fun _ => None |}.

Lemma recompute_enforces_expectations_witness :
  exists bs' st' w', recompute (guarded Warn) None empty_state dirty = (Ok (total_rows bs'), (st', w')) /\
    contents w' (lit "silver") = bs' /\ rows_of bs' = [Some 5; Some 70] /\
    (derived_batches (guarded Warn) (contents dirty)).1 =
      [{| vi_table := lit "silver"; vi_label := lit "small"; failed_records := 2 |}].
Proof.
  refine (recompute_enforces_expectations (guarded Warn) empty_state dirty (lit "bronze") [[Some 5; None]; [Some (-2); Some 70]]
    _ _ _ _ _ _ _ _).
  - vm_compute. repeat split; congruence.
  - reflexivity.
  - vm_compute. reflexivity.
  - vm_compute. discriminate.
  - split; apply (bool_decide_unpack _); vm_compute; exact I.
  - constructor; [exact (or_intror eq_refl)|constructor].
  - constructor; [exact (or_introl eq_refl)|constructor].
  - vm_compute. reflexivity.
Defined.

End PassRuns.
