(* ===== verification/Cron.v ===== *)
(** * Cron: schedules of the reconcile command

    [oxidant-pipelines/src/cron.rs]: parsing a five-field expression and
    finding the next firing.  The calendar (which month, day of month and
    weekday a day has, and which days exist) is the [chrono] crate's and a
    parameter, the class [Calendar]; instants are nanoseconds since the Unix
    epoch in UTC and days are numbered from it. *)

From S2P Require Import Prelude Text.

Class Calendar := {
  month_of : Z -> Z;          (** [NaiveDate::month] *)
  day_of : Z -> Z;            (** [NaiveDate::day] *)
  weekday_of : Z -> Z;        (** [weekday().num_days_from_sunday()] *)
  first_date : Z;             (** [NaiveDate::MIN] *)
  last_date : Z;              (** [NaiveDate::MAX] *)
}.

Definition MINUTE : Z := 60 * 1000000000.
Definition HOUR : Z := 60 * MINUTE.
Definition DAY : Z := 24 * HOUR.

(** [366 * 4]. *)
Definition HORIZON_DAYS : Z := 1464.

Record Cron := {
  expr : str;
  minutes : list Z;
  hours : list Z;
  days_of_month : list Z;
  months : list Z;
  days_of_week : list Z;
  dom_restricted : bool;
  dow_restricted : bool;
}.

(** ** Parsing *)

Definition MONTH_NAMES : list str :=
  lit <$> ["jan"; "feb"; "mar"; "apr"; "may"; "jun"; "jul"; "aug"; "sep"; "oct"; "nov"; "dec"]%string.
Definition DAY_NAMES : list str := lit <$> ["sun"; "mon"; "tue"; "wed"; "thu"; "fri"; "sat"]%string.

Definition bad_value (text name : str) (min max : Z) : Error :=
  Io (fmt [lit "cron `"; name; lit "` field: expected "; show_u min; lit "-"; show_u max;
           lit ", got `"; text; lit "`"]).

(** [iter().position(..)]. *)
Fixpoint position (x : str) (l : list str) : option Z :=
  match l with
  | [] => None
  | y :: l => if bool_decide (y = x) then Some 0 else Z.succ <$> position x l
  end.

(** [value]: one number or name in a field. *)
Definition value (text name : str) (min max : Z) (names : list str) : result Error Z :=
  let text := trim text in
  let! parsed :=
    match parse_u 10 (u_max 32) text with
    | Some number => Ok number
    | None =>
        let lower := to_ascii_lowercase text in
        let! index := ok_or (position lower names) (bad_value text name min max) in
        Ok (wrapu 32 (index + min))
    end in
  if (parsed <? min) || (max <? parsed) then Err (bad_value text name min max) else Ok parsed.

(** One item of a field: its range text and step, *)
Definition item_split (item name : str) : result Error (str * Z) :=
  match split_once 47 item with
  | Some (range, step) =>
      let! s := ok_or (match parse_u 10 (u_max 32) (trim step) with
                       | Some s => if 0 <? s then Some s else None
                       | None => None
                       end)
        (Io (fmt [lit "cron `"; name; lit "` field: `"; item; lit "` has step `"; step;
                  lit "`, which must be a positive number"])) in
      Ok (trim range, s)
  | None => Ok (item, 1)
  end.

(** the bounds of that range, *)
Definition range_bounds (range : str) (step : Z) (name : str) (min max : Z) (names : list str)
    : result Error (Z * Z) :=
  if bool_decide (range = lit "*") then Ok (min, max)
  else match split_once 45 range with
       | Some (lo, hi) =>
           let! lo := value lo name min max names in
           let! hi := value hi name min max names in
           Ok (lo, hi)
       | None =>
           let! single := value range name min max names in
           if 1 <? step then Ok (single, max) else Ok (single, single)
       end.

(** and both together, refusing a range that runs backwards. *)
Definition item_range (item name : str) (min max : Z) (names : list str) : result Error (Z * Z * Z) :=
  let! rs := item_split (trim item) name in
  let! b := range_bounds rs.1 rs.2 name min max names in
  if b.2 <? b.1 then
    Err (Io (fmt [lit "cron `"; name; lit "` field: range `"; rs.1; lit "` runs backwards"]))
  else Ok (b.1, b.2, rs.2).

(** [while at <= hi { out.push(at); at += step }] on [u32]: the addition wraps.
    An [at] that has not passed [hi] grows with every turn or, once it has
    wrapped, shrinks with every turn, so [hi + 1] turns are enough. *)
Fixpoint step_values (fuel : nat) (at_ hi step : Z) : list Z :=
  match fuel with
  | O => []
  | S fuel => if at_ <=? hi then at_ :: step_values fuel (wrapu 32 (at_ + step)) hi step else []
  end.

Definition item_values (item name : str) (min max : Z) (names : list str) : result Error (list Z) :=
  let! ' (lo, hi, step) := item_range item name min max names in
  Ok (step_values (S (Z.to_nat hi)) lo hi step).

(** [field]. *)
Definition field (text0 name : str) (min max : Z) (names : list str) : result Error (list Z) :=
  let text := trim text0 in
  match text with
  | [] => Err (Io (fmt [lit "cron `"; name; lit "` field is empty"]))
  | _ =>
      let! out := mapM_result (fun item => item_values item name min max names) (split_char 44 text) in
      Ok (sort_dedup (concat out))
  end.

(** [Cron::parse]. *)
Definition parse (e : str) : result Error Cron :=
  let fields := split_whitespace e in
  match fields with
  | [f0; f1; f2; f3; f4] =>
      let! minutes := field f0 (lit "minute") 0 59 [] in
      let! hours := field f1 (lit "hour") 0 23 [] in
      let! days_of_month := field f2 (lit "day-of-month") 1 31 [] in
      let! months := field f3 (lit "month") 1 12 MONTH_NAMES in
      let! dow := field f4 (lit "day-of-week") 0 7 DAY_NAMES in
      Ok {| expr := join (lit " ") fields;
            minutes := minutes; hours := hours; days_of_month := days_of_month; months := months;
            days_of_week := sort_dedup ((fun d => d mod 7) <$> dow);
            dom_restricted := negb (bool_decide (trim f2 = lit "*"));
            dow_restricted := negb (bool_decide (trim f4 = lit "*")) |}
  | _ => Err (Io (fmt [lit "`"; e;
           lit "` is not a cron expression: expected 5 fields (minute hour day-of-month month day-of-week), got ";
           show_u (Z.of_nat (length fields))]))
  end.

(** ** The next firing *)

Section Schedule.
Context `{Calendar}.

Definition contains_z (l : list Z) (x : Z) : bool := bool_decide (x ∈ l).

Definition matches_day (c : Cron) (day : Z) : bool :=
  if negb (contains_z (months c) (month_of day)) then false
  else
    let dom := contains_z (days_of_month c) (day_of day) in
    let dow := contains_z (days_of_week c) (weekday_of day) in
    if dom_restricted c && dow_restricted c then dom || dow else dom && dow.

Definition date_naive (t : Z) : Z := t / DAY.
Definition in_range (t : Z) : bool := (first_date <=? date_naive t) && (date_naive t <=? last_date).

(** The two inner loops.  [None]: no slot of the day is late enough;
    [Some None]: [and_hms_opt] refused the time and [?] left the function. *)
Fixpoint scan_minutes (day start hour : Z) (ms : list Z) : option (option Z) :=
  match ms with
  | [] => None
  | minute :: ms =>
      if (23 <? hour) || (59 <? minute) then Some None
      else let at_ := day * DAY + hour * HOUR + minute * MINUTE in
           if start <=? at_ then Some (Some at_) else scan_minutes day start hour ms
  end.

Fixpoint scan_hours (day start : Z) (ms hs : list Z) : option (option Z) :=
  match hs with
  | [] => None
  | hour :: hs =>
      match scan_minutes day start hour ms with
      | Some r => Some r
      | None => scan_hours day start ms hs
      end
  end.

(** The [while] over days; each turn moves one day on. *)
Fixpoint scan_days (fuel : nat) (c : Cron) (day last_day start : Z) : option Z :=
  match fuel with
  | O => None
  | S fuel =>
      if day <=? last_day then
        match (if matches_day c day then scan_hours day start (minutes c) (hours c) else None) with
        | Some r => r
        | None => if last_date <=? day then None else scan_days fuel c (day + 1) last_day start
        end
      else None
  end.

(** [Cron::next_after].  The outer [None] is the panic of chrono's [+] past
    the last date it represents. *)
Definition next_after (c : Cron) (after : Z) : option (option Z) :=
  let start := after - after mod MINUTE + MINUTE in
  let last := after + HORIZON_DAYS * DAY in
  if in_range start && in_range last then
    Some (scan_days (Z.to_nat (HORIZON_DAYS + 2)) c (date_naive start) (date_naive last) start)
  else None.

(** [Cron::is_due]. *)
Definition is_due (c : Cron) (since now : Z) : option bool :=
  match next_after c since with
  | Some (Some next) => Some (next <=? now)
  | Some None => Some false
  | None => None
  end.

End Schedule.

(** ** Fields *)

Definition small (hi step : Z) : Prop := 0 <= hi < 2 ^ 31 /\ 0 < step <= u_max 32.

Lemma step_values_bounds f a hi step x :
  0 <= a -> x ∈ step_values f a hi step -> 0 <= x <= hi.
Proof.
  revert a. induction f as [|f IH]; intros a Ha Hx; simpl in Hx; [by apply elem_of_nil in Hx|].
  destruct (Z.leb_spec a hi); [|by apply elem_of_nil in Hx].
  apply elem_of_cons in Hx as [->|Hx]; [lia|]. eapply IH; [|exact Hx].
  pose proof (wrapu_range 32 (a + step) ltac:(lia)) as [??]. done.
Qed.

(** A turn of the loop either moves up to [hi] without wrapping or moves down. *)
Lemma wrap_cases a hi step :
  small hi step -> 0 <= a <= hi ->
  (step + hi <= u_max 32 /\ wrapu 32 (a + step) = a + step) \/
  (u_max 32 < step + hi /\ (hi < wrapu 32 (a + step) \/ 0 <= wrapu 32 (a + step) < a)).
Proof.
  unfold small, wrapu, u_max. intros [Hhi Hs] Ha.
  destruct (Z.leb_spec (step + hi) (2 ^ 32 - 1)); [left; split; [done|]; apply Z.mod_small; lia|right; split; [done|]].
  destruct (Z.ltb_spec (a + step) (2 ^ 32)).
  - left. rewrite Z.mod_small by lia. lia.
  - right. replace (a + step) with ((a + step - 2 ^ 32) + 1 * 2 ^ 32) by lia.
    rewrite Z.mod_add, Z.mod_small by lia. lia.
Qed.

Lemma step_values_fuel f f' a hi step :
  small hi step -> 0 <= a ->
  (step + hi <= u_max 32 -> (Z.to_nat (hi + 1 - a) <= f)%nat /\ (Z.to_nat (hi + 1 - a) <= f')%nat) ->
  (u_max 32 < step + hi -> (a <= hi -> (Z.to_nat a < f)%nat /\ (Z.to_nat a < f')%nat)) ->
  step_values f a hi step = step_values f' a hi step.
Proof.
  intros Hs. revert f' a. induction f as [|f IH]; intros [|f'] a Ha H1 H2.
  - done.
  - simpl. destruct (Z.leb_spec a hi); [|done]. exfalso. destruct (wrap_cases a hi step Hs ltac:(lia)) as [[? _]|[? _]]; lia.
  - simpl. destruct (Z.leb_spec a hi); [|done]. exfalso. destruct (wrap_cases a hi step Hs ltac:(lia)) as [[? _]|[? _]]; lia.
  - simpl. destruct (Z.leb_spec a hi); [|done]. f_equal.
    destruct (wrap_cases a hi step Hs ltac:(lia)) as [[Hu E]|[Hu Hw]].
    + rewrite E. unfold small in Hs. apply IH; lia.
    + unfold small, u_max in *. apply IH; lia.
Qed.

(** Without wrapping the loop collects every [step]-th value of the range. *)
Lemma elem_of_step_values f a hi step x :
  small hi step -> step + hi <= u_max 32 -> 0 <= a -> (Z.to_nat (hi + 1 - a) <= f)%nat ->
  x ∈ step_values f a hi step <-> a <= x <= hi /\ (step | x - a).
Proof.
  intros Hs Hsum. revert a. induction f as [|f IH]; intros a Ha Hf; simpl.
  { rewrite elem_of_nil. split; [done|]. intros [? _]. lia. }
  destruct (Z.leb_spec a hi).
  - destruct (wrap_cases a hi step Hs ltac:(lia)) as [[_ ->]|[? _]]; [|lia].
    destruct Hs as [Hhi Hst]. rewrite elem_of_cons, IH by lia. split.
    + intros [->|[? [k Hk]]]; [split; [lia|exists 0; lia]|]. split; [lia|]. exists (k + 1). lia.
    + intros [Hx [k Hk]]. destruct (Z.eq_dec x a); [by left|right].
      assert (0 < k) by nia. split; [nia|]. exists (k - 1). lia.
  - rewrite elem_of_nil. split; [done|]. intros [? _]. lia.
Qed.

Lemma value_bounds text name min max names v :
  value text name min max names = Ok v -> min <= v <= max.
Proof. intros Hv. unfold value in Hv. repeat step_ok Hv; bool_to_prop; lia. Qed.

Lemma parse_digits_max radix mx acc s v : acc <= mx -> parse_digits radix mx acc s = Some v -> v <= mx.
Proof.
  revert acc. induction s as [|c s IH]; intros acc Ha; simpl; [by intros [= <-]|].
  destruct (to_digit radix c); [|done]. destruct (Z.leb_spec (acc * radix + z) mx); [|done]. by apply IH.
Qed.

Lemma parse_u_max radix mx s v : 0 <= mx -> parse_u radix mx s = Some v -> v <= mx.
Proof. intros Hm Hp. unfold parse_u in Hp. repeat case_match; try done; by eapply parse_digits_max in Hp. Qed.

Lemma item_split_step item name rs : item_split item name = Ok rs -> 0 < rs.2 <= u_max 32.
Proof.
  intros Hi. unfold item_split in Hi. destruct (split_once 47 item) as [[range step]|]; [|by injection Hi as <-].
  destruct (parse_u 10 (u_max 32) (trim step)) as [s|] eqn:Ep; [|done].
  destruct (Z.ltb_spec 0 s); [|done]. injection Hi as <-. simpl.
  by apply parse_u_max in Ep.
Qed.

Lemma range_bounds_ok range step name min max names b :
  min <= max -> range_bounds range step name min max names = Ok b ->
  min <= b.1 <= max /\ min <= b.2 <= max.
Proof.
  intros Hm Hb. unfold range_bounds in Hb. destruct (bool_decide _); [injection Hb as <-; simpl; lia|].
  destruct (split_once 45 range) as [[lo hi]|]; repeat step_ok Hb;
    repeat match goal with H : value _ _ _ _ _ = Ok _ |- _ => apply value_bounds in H end; simpl; lia.
Qed.

Lemma item_range_ok item name min max names lo hi step :
  min <= max -> item_range item name min max names = Ok (lo, hi, step) ->
  min <= lo <= hi /\ hi <= max /\ 0 < step <= u_max 32.
Proof.
  intros Hm Hi. unfold item_range in Hi. repeat step_ok Hi. bool_to_prop.
  match goal with H : item_split _ _ = Ok _ |- _ => apply item_split_step in H end.
  match goal with H : range_bounds _ _ _ _ _ _ = Ok _ |- _ => apply range_bounds_ok in H; [|done] end. lia.
Qed.

Lemma mapM_result_elem {E A B} (f : A -> result E B) l ys y :
  mapM_result f l = Ok ys -> y ∈ ys <-> (exists x, x ∈ l /\ f x = Ok y).
Proof.
  revert ys. induction l as [|a l IH]; intros ys Hm; simpl in Hm.
  { simplify_eq. split; [by intros ?%elem_of_nil|]. by intros (? & ?%elem_of_nil & _). }
  destruct (f a) as [b|] eqn:Ef; [|done]. simpl in Hm.
  destruct (mapM_result f l) as [bs|] eqn:El; [|done]. simpl in Hm. simplify_eq.
  rewrite elem_of_cons, (IH _ eq_refl). split.
  - intros [->|(x & ? & ?)]; [exists a; split; [left|done]|exists x; split; [by right|done]].
  - intros (x & [->|Hx]%elem_of_cons & Hy); [left; congruence|right; by exists x].
Qed.

Lemma elem_of_field text name min max names vs x :
  field text name min max names = Ok vs ->
  x ∈ vs <-> exists item lo hi step,
    item ∈ split_char 44 (trim text) /\ item_range item name min max names = Ok (lo, hi, step) /\
    x ∈ step_values (S (Z.to_nat hi)) lo hi step.
Proof.
  intros Hf. unfold field in Hf. destruct (trim text) as [|c t] eqn:Et; [done|].
  destruct (mapM_result _ _) as [out|] eqn:Em; [|done]. simpl in Hf. simplify_eq.
  rewrite elem_of_sort_dedup, list_elem_of_In, in_concat. split.
  - intros (l & Hl & Hx). rewrite <-list_elem_of_In in Hl. rewrite <-list_elem_of_In in Hx.
    apply (mapM_result_elem _ _ _ _ Em) in Hl as (item & Hi & Hv). unfold item_values in Hv.
    destruct (item_range _ _ _ _ _) as [[[lo hi] step]|] eqn:Ei; [|done]. simpl in Hv. simplify_eq.
    by exists item, lo, hi, step.
  - intros (item & lo & hi & step & Hi & Hr & Hx). eexists. rewrite <-!list_elem_of_In. split; [|exact Hx].
    apply (mapM_result_elem _ _ _ _ Em). exists item. split; [done|]. unfold item_values. by rewrite Hr.
Qed.

(** A field is the strictly increasing list of the values its items name:
    for every item with its range [lo-hi] and its step, each [step]-th value
    from [lo] on, up to [hi] (for steps that do not overflow [u32]). *)
Theorem field_exact text name min max names vs :
  0 <= min -> min <= max -> max < 2 ^ 31 -> field text name min max names = Ok vs ->
  (forall item lo hi step, item ∈ split_char 44 (trim text) ->
     item_range item name min max names = Ok (lo, hi, step) -> step + hi <= u_max 32) ->
  StronglySorted Z.lt vs /\
  forall x, x ∈ vs <-> exists item lo hi step,
    item ∈ split_char 44 (trim text) /\ item_range item name min max names = Ok (lo, hi, step) /\
    lo <= x <= hi /\ (step | x - lo).
Proof.
  intros Hmin Hm Hmax Hf Hno. split.
  { unfold field in Hf. destruct (trim text); [done|]. repeat step_ok Hf. apply sort_dedup_sorted. }
  intros x. rewrite (elem_of_field _ _ _ _ _ _ _ Hf).
  assert (forall item lo hi step, item ∈ split_char 44 (trim text) ->
    item_range item name min max names = Ok (lo, hi, step) ->
    x ∈ step_values (S (Z.to_nat hi)) lo hi step <-> lo <= x <= hi /\ (step | x - lo)) as Hv.
  { intros item lo hi step Hi Hr. pose proof (item_range_ok _ _ _ _ _ _ _ _ Hm Hr).
    pose proof (Hno _ _ _ _ Hi Hr).
    apply elem_of_step_values; [split; lia|done|lia|lia]. }
  split; intros (item & lo & hi & step & Hi & Hr & Hx); exists item, lo, hi, step;
    (split; [done|split; [done|]]); apply (Hv item lo hi step Hi Hr); done.
Qed.

(** The expansion loop ends: [hi + 1] turns are enough for every range and
    step the parser accepts, including steps whose addition wraps. *)
Theorem step_loop_ends item name min max names lo hi step f :
  0 <= min -> min <= max -> max < 2 ^ 31 -> item_range item name min max names = Ok (lo, hi, step) ->
  (Z.to_nat hi < f)%nat ->
  Ok (step_values f lo hi step) = item_values item name min max names.
Proof.
  intros Hmin Hm Hmax Hr Hf. pose proof (item_range_ok _ _ _ _ _ _ _ _ Hm Hr).
  unfold item_values. rewrite Hr. cbn [rbind]. f_equal.
  apply step_values_fuel; [split; lia|lia|lia|lia].
Qed.

(** What [parse] promises to the search. *)
Record cron_wf (c : Cron) : Prop := {
  wf_minutes : StronglySorted Z.lt (minutes c) /\ Forall (fun m => 0 <= m <= 59) (minutes c);
  wf_hours : StronglySorted Z.lt (hours c) /\ Forall (fun h => 0 <= h <= 23) (hours c);
  wf_days : Forall (fun d => 0 <= d <= 31) (days_of_month c) /\ Forall (fun d => 0 <= d <= 6) (days_of_week c);
  wf_months : Forall (fun m => 0 <= m <= 12) (months c);
}.

Lemma field_wf text name min max names vs :
  0 <= min -> min <= max -> field text name min max names = Ok vs ->
  StronglySorted Z.lt vs /\ Forall (fun v => 0 <= v <= max) vs.
Proof.
  intros Hmin Hm Hf. split.
  { unfold field in Hf. destruct (trim text); [done|]. repeat step_ok Hf. apply sort_dedup_sorted. }
  apply Forall_forall. intros x Hx. apply (elem_of_field _ _ _ _ _ _ _ Hf) in Hx as (item & lo & hi & step & _ & Hr & Hx).
  pose proof (item_range_ok _ _ _ _ _ _ _ _ Hm Hr). apply step_values_bounds in Hx; lia.
Qed.

Lemma parse_wf e c : parse e = Ok c -> cron_wf c.
Proof.
  intros Hp. unfold parse in Hp. destruct (split_whitespace e) as [|f0 [|f1 [|f2 [|f3 [|f4 [|]]]]]]; try done.
  repeat (match type of Hp with rbind (field ?t ?n ?a ?b ?ns) _ = _ =>
    destruct (field t n a b ns) eqn:?; [cbn [rbind] in Hp|done] end).
  injection Hp as <-.
  repeat match goal with H : field _ _ _ _ _ = Ok _ |- _ => apply field_wf in H; [|lia|lia] end. split_hyps.
  constructor; simpl; try done. split; [done|].
  apply Forall_forall. intros x Hx. rewrite elem_of_sort_dedup, list_elem_of_fmap in Hx.
  destruct Hx as (d & -> & _). pose proof (Z.mod_pos_bound d 7 ltac:(lia)). lia.
Qed.

(** ** The search *)

Section Search.
Context `{Calendar}.

Definition slot (day h m : Z) : Z := day * DAY + h * HOUR + m * MINUTE.

(** An instant at which the schedule fires. *)
Definition fires (c : Cron) (t : Z) : Prop :=
  t mod MINUTE = 0 /\ matches_day c (date_naive t) = true /\
  t mod DAY / HOUR ∈ hours c /\ t mod HOUR / MINUTE ∈ minutes c.

Lemma slot_parts day h m :
  0 <= h <= 23 -> 0 <= m <= 59 ->
  date_naive (slot day h m) = day /\ slot day h m mod DAY / HOUR = h /\
  slot day h m mod HOUR / MINUTE = m /\ slot day h m mod MINUTE = 0.
Proof.
  intros Hh Hm. unfold slot, date_naive.
  assert (0 <= h * HOUR + m * MINUTE < DAY) by (unfold DAY, HOUR, MINUTE; lia).
  assert (0 <= m * MINUTE < HOUR) by (unfold HOUR, MINUTE; lia).
  replace (day * DAY + h * HOUR + m * MINUTE) with ((h * HOUR + m * MINUTE) + day * DAY) by lia.
  split_and!.
  - rewrite Z.div_add, Z.div_small by (done || lia). lia.
  - rewrite Z.mod_add, Z.mod_small by (done || lia).
    rewrite Z.add_comm, Z.div_add, Z.div_small by (done || lia). lia.
  - replace ((h * HOUR + m * MINUTE) + day * DAY) with (m * MINUTE + (h + 24 * day) * HOUR) by (unfold DAY; lia).
    rewrite Z.mod_add, Z.mod_small by (done || lia). by rewrite Z.div_mul.
  - replace ((h * HOUR + m * MINUTE) + day * DAY) with ((m + 60 * h + 1440 * day) * MINUTE)
      by (unfold DAY, HOUR; lia).
    by rewrite Z.mod_mul.
Qed.

Lemma slot_of t : t mod MINUTE = 0 -> t = slot (date_naive t) (t mod DAY / HOUR) (t mod HOUR / MINUTE).
Proof.
  intros Ht. unfold slot, date_naive.
  pose proof (Z.div_mod t DAY ltac:(done)) as H1. pose proof (Z.div_mod (t mod DAY) HOUR ltac:(done)) as H2.
  assert (t mod DAY mod HOUR = t mod HOUR) as H3.
  { unfold DAY. rewrite (Z.mul_comm 24), Z.rem_mul_r by (done || lia).
    rewrite (Z.mul_comm HOUR), Z.mod_add, Z.mod_mod by done. done. }
  pose proof (Z.div_mod (t mod HOUR) MINUTE ltac:(done)) as H4.
  assert (t mod HOUR mod MINUTE = 0) as H5.
  { rewrite <-Ht. unfold HOUR. rewrite (Z.mul_comm 60), Z.rem_mul_r by (done || lia).
    rewrite (Z.mul_comm MINUTE), Z.mod_add, Z.mod_mod by done. done. }
  lia.
Qed.

(** The day's slots, in the order of the two loops. *)
Definition slots (day : Z) (ms hs : list Z) : list Z := hs ≫= (fun h => slot day h <$> ms).

Definition first_from (start : Z) (l : list Z) : option Z := head (filter (fun t => start <= t) l).

Lemma first_from_app start l k :
  first_from start (l ++ k) = match first_from start l with Some x => Some x | None => first_from start k end.
Proof. unfold first_from. rewrite filter_app. by destruct (filter _ l). Qed.

Lemma scan_minutes_first day start h ms :
  0 <= h <= 23 -> Forall (fun m => 0 <= m <= 59) ms ->
  scan_minutes day start h ms = Some <$> first_from start (slot day h <$> ms).
Proof.
  intros Hh. induction 1 as [|m ms Hm _ IH]; [done|]. simpl.
  replace ((23 <? h) || (59 <? m)) with false by lia. fold (slot day h m).
  unfold first_from. rewrite filter_cons.
  destruct (Z.leb_spec start (slot day h m)); [by rewrite decide_True|].
  rewrite decide_False by lia. exact IH.
Qed.

Lemma scan_hours_first day start ms hs :
  Forall (fun h => 0 <= h <= 23) hs -> Forall (fun m => 0 <= m <= 59) ms ->
  scan_hours day start ms hs = Some <$> first_from start (slots day ms hs).
Proof.
  intros Hh Hm. induction Hh as [|h hs Hh _ IH]; [done|]. simpl scan_hours.
  unfold slots. rewrite bind_cons_eq, first_from_app, scan_minutes_first by done.
  by destruct (first_from start (slot day h <$> ms)).
Qed.

Lemma first_from_least start l t :
  StronglySorted Z.lt l -> first_from start l = Some t ->
  t ∈ l /\ start <= t /\ forall u, u ∈ l -> start <= u -> t <= u.
Proof.
  intros Hs. unfold first_from. induction Hs as [|a l Hs IH Ha]; [done|].
  rewrite filter_cons. destruct (decide (start <= a)).
  - intros [= <-]. split_and!; [left|done|]. intros u [->|Hu]%elem_of_cons _; [lia|].
    rewrite Forall_forall in Ha. specialize (Ha _ Hu). lia.
  - intros Hf. destruct (IH Hf) as (? & ? & Hmin). split_and!; [by right|done|].
    intros u [->|Hu]%elem_of_cons Hu'; [lia|by apply Hmin].
Qed.

Lemma first_from_none start l u : first_from start l = None -> u ∈ l -> u < start.
Proof.
  intros Hf Hu. destruct (Z.lt_ge_cases u start) as [|Hge]; [done|exfalso].
  assert (u ∈ filter (fun t => start <= t) l) as Hin by (by apply list_elem_of_filter).
  unfold first_from in Hf. destruct (filter _ l); [by apply elem_of_nil in Hin|done].
Qed.

Lemma slots_sorted day ms hs :
  StronglySorted Z.lt ms -> Forall (fun m => 0 <= m <= 59) ms -> StronglySorted Z.lt hs ->
  StronglySorted Z.lt (slots day ms hs).
Proof.
  intros Hm Hmb Hh. rewrite Forall_forall in Hmb. induction Hh as [|h hs Hh IH Ha]; [constructor|].
  unfold slots. rewrite bind_cons_eq. apply StronglySorted_app. split_and!; [|apply (StronglySorted_fmap _ Z.lt); [|done]|exact IH].
  - intros x y (m & -> & Hx)%list_elem_of_fmap (h' & Hy & Hh')%list_elem_of_bind.
    apply list_elem_of_fmap in Hy as (m' & -> & Hy).
    rewrite Forall_forall in Ha. specialize (Ha _ Hh'). pose proof (Hmb _ Hx). pose proof (Hmb _ Hy).
    unfold slot, HOUR, MINUTE. lia.
  - intros x y Hxy. unfold slot, MINUTE. lia.
Qed.

Definition day_slots (c : Cron) (day : Z) : list Z :=
  if matches_day c day then slots day (minutes c) (hours c) else [].

Lemma elem_of_slots day ms hs t :
  t ∈ slots day ms hs <-> exists h m, h ∈ hs /\ m ∈ ms /\ t = slot day h m.
Proof.
  unfold slots. rewrite list_elem_of_bind. split.
  - intros (h & (m & -> & Hm)%list_elem_of_fmap & Hh). by exists h, m.
  - intros (h & m & Hh & Hm & ->). exists h. split; [|done]. apply list_elem_of_fmap. by exists m.
Qed.

Lemma elem_of_day_slots c day t :
  cron_wf c -> t ∈ day_slots c day <-> fires c t /\ date_naive t = day.
Proof.
  intros [[_ Hm] [_ Hh] _ _]. rewrite Forall_forall in Hm, Hh. unfold day_slots. split.
  - destruct (matches_day c day) eqn:Hd; [|by intros ?%elem_of_nil].
    intros (h & m & Hh' & Hm' & ->)%elem_of_slots.
    destruct (slot_parts day h m (Hh _ Hh') (Hm _ Hm')) as (E1 & E2 & E3 & E4).
    unfold fires. rewrite E1, E2, E3, E4. done.
  - intros [(Ha & Hd & Hh' & Hm') <-]. rewrite Hd. apply elem_of_slots.
    exists (t mod DAY / HOUR), (t mod HOUR / MINUTE). split_and!; [done|done|by apply slot_of].
Qed.

Lemma day_slots_sorted c day : cron_wf c -> StronglySorted Z.lt (day_slots c day).
Proof.
  intros [[Hs Hm] [Hsh Hh] _ _]. unfold day_slots. destruct (matches_day c day); [by apply slots_sorted|constructor].
Qed.

Lemma scan_day_first c day start :
  cron_wf c ->
  (if matches_day c day then scan_hours day start (minutes c) (hours c) else None) =
  Some <$> first_from start (day_slots c day).
Proof.
  intros [[Hs Hm] [Hsh Hh] _ _]. unfold day_slots. destruct (matches_day c day); [by apply scan_hours_first|done].
Qed.

(** The search over days finds the first firing from [start] on, if the range
    of days has one. *)
Lemma scan_days_spec f c day last_day start :
  cron_wf c -> last_day <= last_date -> (Z.to_nat (last_day + 1 - day) < f)%nat ->
  match scan_days f c day last_day start with
  | Some t => fires c t /\ start <= t /\ day <= date_naive t <= last_day /\
              forall u, fires c u -> start <= u -> day <= date_naive u -> t <= u
  | None => forall u, fires c u -> start <= u -> day <= date_naive u <= last_day -> False
  end.
Proof.
  intros Hc Hl. revert day. induction f as [|f IH]; intros day Hf; [lia|]. cbn [scan_days].
  destruct (Z.leb_spec day last_day) as [Hd|]; [|intros; lia].
  rewrite scan_day_first by done.
  pose proof (day_slots_sorted c day Hc) as Hs.
  destruct (first_from start (day_slots c day)) as [t|] eqn:Ef; simpl.
  - destruct (first_from_least _ _ _ Hs Ef) as (Ht & Hst & Hmin).
    apply elem_of_day_slots in Ht as [Hft Hdt]; [|done]. split_and!; [done|done|lia|lia|].
    intros u Hfu Hu Hdu. destruct (Z.eq_dec (date_naive u) day) as [E|].
    + apply Hmin; [|done]. by apply elem_of_day_slots.
    + unfold date_naive in *. apply Z.lt_le_incl. apply (Z.lt_le_trans _ ((t / DAY + 1) * DAY)).
      * pose proof (Z.mul_succ_div_gt t DAY ltac:(done)). lia.
      * apply (Z.le_trans _ (u / DAY * DAY)); [apply Z.mul_le_mono_nonneg_r; [done|lia]|].
        pose proof (Z.mul_div_le u DAY ltac:(done)). lia.
  - assert (forall u, fires c u -> start <= u -> date_naive u = day -> False) as Hnone.
    { intros u Hfu Hu Hdu. assert (u ∈ day_slots c day) as Hin by (by apply elem_of_day_slots).
      pose proof (first_from_none _ _ _ Ef Hin). lia. }
    destruct (Z.leb_spec last_date day) as [Hlast|Hlast].
    { intros u Hfu Hu Hdu. apply (Hnone u); [done|done|lia]. }
    specialize (IH (day + 1) ltac:(lia)).
    destruct (scan_days f c (day + 1) last_day start) as [t|].
    + destruct IH as (? & ? & ? & Hmin). split_and!; [done|done|lia|lia|].
      intros u Hfu Hu Hdu. destruct (Z.eq_dec (date_naive u) day) as [E|]; [by destruct (Hnone u)|].
      apply Hmin; [done|done|lia].
    + intros u Hfu Hu Hdu. destruct (Z.eq_dec (date_naive u) day) as [E|]; [by destruct (Hnone u)|].
      apply (IH u); [done|done|lia].
Qed.

(** A firing is past [after] exactly when it is not before the next whole minute. *)
Lemma after_iff_start after u :
  u mod MINUTE = 0 -> after < u <-> after - after mod MINUTE + MINUTE <= u.
Proof.
  intros Hu. pose proof (Z.mod_pos_bound after MINUTE ltac:(done)).
  pose proof (Z.div_mod after MINUTE ltac:(done)). pose proof (Z.div_mod u MINUTE ltac:(done)).
  unfold MINUTE in *. lia.
Qed.

Lemma next_after_search c after :
  cron_wf c -> is_Some (next_after c after) ->
  match next_after c after with
  | Some (Some t) => fires c t /\ after < t /\ date_naive t <= date_naive (after + HORIZON_DAYS * DAY) /\
                     forall u, fires c u -> after < u -> t <= u
  | _ => forall u, fires c u -> after < u -> date_naive u <= date_naive (after + HORIZON_DAYS * DAY) -> False
  end.
Proof.
  intros Hc [r Hr]. unfold next_after in *. set (start := after - after mod MINUTE + MINUTE) in *.
  set (last := after + HORIZON_DAYS * DAY) in *.
  destruct (in_range start && in_range last) eqn:Hi; [|done].
  unfold in_range in Hi. bool_to_prop.
  assert (start <= after + MINUTE) as Hsa by (pose proof (Z.mod_pos_bound after MINUTE ltac:(done)); lia).
  assert (after < start) as Has by (pose proof (Z.mod_pos_bound after MINUTE ltac:(done)); lia).
  assert (date_naive last + 1 - date_naive start <= HORIZON_DAYS + 1) as Hfuel.
  { unfold date_naive, last. rewrite Z.div_add by done.
    pose proof (Z.div_le_mono after start DAY ltac:(done) ltac:(lia)). lia. }
  pose proof (scan_days_spec (Z.to_nat (HORIZON_DAYS + 2)) c (date_naive start) (date_naive last) start Hc ltac:(lia)
    ltac:(unfold HORIZON_DAYS in *; lia)) as Hspec.
  assert (forall u, fires c u -> after < u -> start <= u /\ date_naive start <= date_naive u) as Hafter.
  { intros u [Hu _] Hau. apply (after_iff_start after u Hu) in Hau. split; [done|]. by apply Z.div_le_mono. }
  destruct (scan_days _ _ _ _ _) as [t|].
  - destruct Hspec as (Hft & Hst & Hd & Hmin). split_and!; [done|lia|lia|].
    intros u Hfu Hau. destruct (Hafter u Hfu Hau). by apply Hmin.
  - intros u Hfu Hau Hdu. destruct (Hafter u Hfu Hau). by apply (Hspec u).
Qed.

(** C28. The next firing of a parsed schedule: [next_after] returns an instant
    strictly after the one asked about at which the schedule fires, with no
    firing between the two; when it returns nothing, there is no firing up to
    the end of the day four years ahead.  It answers for every instant whose
    horizon the calendar can represent. *)
Theorem next_after_correct e c after :
  parse e = Ok c ->
  in_range (after - after mod MINUTE + MINUTE) = true -> in_range (after + HORIZON_DAYS * DAY) = true ->
  exists answer, next_after c after = Some answer /\
  match answer with
  | Some t => fires c t /\ after < t /\ forall u, fires c u -> after < u -> t <= u
  | None => forall u, fires c u -> after < u -> date_naive (after + HORIZON_DAYS * DAY) < date_naive u
  end.
Proof.
  intros Hp Hi1 Hi2. pose proof (parse_wf _ _ Hp) as Hc.
  assert (is_Some (next_after c after)) as Hs by (unfold next_after; rewrite Hi1, Hi2; eauto).
  pose proof (next_after_search c after Hc Hs) as Hn. destruct Hs as [answer Ea]. rewrite Ea in Hn.
  exists answer. split; [done|]. destruct answer as [t|].
  - destruct Hn as (? & ? & _ & ?). done.
  - intros u Hfu Hau. destruct (Z.lt_ge_cases (date_naive (after + HORIZON_DAYS * DAY)) (date_naive u)); [done|].
    exfalso. by apply (Hn u).
Qed.

(** C37. A run is due exactly when the schedule has fired after [since] and by
    [now], for a [now] within the four-year horizon. *)
Theorem is_due_iff_fired e c since now :
  parse e = Ok c ->
  in_range (since - since mod MINUTE + MINUTE) = true -> in_range (since + HORIZON_DAYS * DAY) = true ->
  now <= since + HORIZON_DAYS * DAY ->
  exists due, is_due c since now = Some due /\
  (due = true <-> exists u, fires c u /\ since < u <= now).
Proof.
  intros Hp Hi1 Hi2 Hnow. pose proof (parse_wf _ _ Hp) as Hc.
  assert (is_Some (next_after c since)) as Hs by (unfold next_after; rewrite Hi1, Hi2; eauto).
  pose proof (next_after_search c since Hc Hs) as Hn. destruct Hs as [answer Ea]. rewrite Ea in Hn.
  unfold is_due. rewrite Ea. destruct answer as [t|].
  - destruct Hn as (Hft & Hat & _ & Hmin). eexists. split; [done|]. rewrite Z.leb_le. split.
    + intros Hle. exists t. done.
    + intros (u & Hfu & Hsu & Hun). specialize (Hmin u Hfu Hsu). lia.
  - eexists. split; [done|]. split; [done|]. intros (u & Hfu & Hsu & Hun).
    destruct (Hn u Hfu Hsu). apply Z.div_le_mono; [done|lia].
Qed.

End Search.

(** ** Concrete schedules, in the Gregorian calendar *)
Module CronRuns.

(** Month and day of month of a day number: eras of 400 years of 146097 days,
    years starting in March. *)
Definition civil (z : Z) : Z * Z :=
  let z := z + 719468 in
  let doe := z mod 146097 in
  let yoe := (doe - doe / 1460 + doe / 36524 - doe / 146096) / 365 in
  let doy := doe - (365 * yoe + yoe / 4 - yoe / 100) in
  let mp := (5 * doy + 2) / 153 in
  (if mp <? 10 then mp + 3 else mp - 9, doy - (153 * mp + 2) / 5 + 1).

#[global] Instance gregorian : Calendar := {|
  month_of d := (civil d).1;
  day_of d := (civil d).2;
  weekday_of d := (d + 4) mod 7;
  first_date := -95746163;
  last_date := 95026236;
|}.

Definition schedule (s : string) : Cron :=
  match parse (lit s) with
  | Ok c => c
  | Err _ => {| expr := []; minutes := []; hours := []; days_of_month := []; months := []; days_of_week := [];
                dom_restricted := false; dow_restricted := false |}
  end.

(** 2026-08-23 (a Sunday) is day 20688. *)
Definition sunday : Z := 20688.

Example monday_after : next_after (schedule "0 0 1 * MON") (sunday * DAY) = Some (Some ((sunday + 1) * DAY)).
Proof. vm_compute. reflexivity. Qed.

Lemma field_exact_witness :
  StronglySorted Z.lt [0; 15; 30; 45; 50] /\
  forall x, x ∈ [0; 15; 30; 45; 50] <-> exists item lo hi step,
    item ∈ split_char 44 (trim (lit "*/15,50")) /\
    item_range item (lit "minute") 0 59 [] = Ok (lo, hi, step) /\ lo <= x <= hi /\ (step | x - lo).
Proof.
  apply (field_exact (lit "*/15,50") (lit "minute") 0 59 [] [0; 15; 30; 45; 50]);
    [lia|lia|lia|vm_compute; reflexivity|].
  intros item lo hi step Hi Hr. change (split_char 44 (trim (lit "*/15,50"))) with [lit "*/15"; lit "50"] in Hi.
  apply elem_of_cons in Hi as [->|Hi]; [|apply list_elem_of_singleton in Hi as ->].
  - vm_compute in Hr. injection Hr as <- <- <-. by vm_compute.
  - vm_compute in Hr. injection Hr as <- <- <-. by vm_compute.
Defined.

Lemma step_loop_ends_witness :
  Ok (step_values 100 1 59 4294967295) = item_values (lit "1-59/4294967295") (lit "minute") 0 59 [].
Proof.
  apply (step_loop_ends (lit "1-59/4294967295") (lit "minute") 0 59 [] 1 59 4294967295 100);
    [lia|lia|lia|vm_compute; reflexivity|lia].
Defined.

Lemma next_after_correct_witness :
  exists answer, next_after (schedule "0 0 1 * MON") (sunday * DAY) = Some answer /\
  match answer with
  | Some t => fires (schedule "0 0 1 * MON") t /\ sunday * DAY < t /\
              forall u, fires (schedule "0 0 1 * MON") u -> sunday * DAY < u -> t <= u
  | None => forall u, fires (schedule "0 0 1 * MON") u -> sunday * DAY < u ->
              date_naive (sunday * DAY + HORIZON_DAYS * DAY) < date_naive u
  end.
Proof.
  exact (next_after_correct (lit "0 0 1 * MON") (schedule "0 0 1 * MON") (sunday * DAY)
           ltac:(vm_compute; reflexivity) ltac:(vm_compute; reflexivity) ltac:(vm_compute; reflexivity)).
Defined.

Lemma is_due_iff_fired_witness :
  exists due, is_due (schedule "0 6 * * *") (sunday * DAY) (sunday * DAY + 7 * HOUR) = Some due /\
  (due = true <-> exists u, fires (schedule "0 6 * * *") u /\ sunday * DAY < u <= sunday * DAY + 7 * HOUR).
Proof.
  apply (is_due_iff_fired (lit "0 6 * * *")); [vm_compute; reflexivity|vm_compute; reflexivity|vm_compute; reflexivity|].
  by vm_compute.
Defined.

(** 2096-03-01 and 2104-02-29. *)
Definition march_2096 : Z := 46081.
Definition feb29_2104 : Z := 49001.

(** Four years are not always enough for a leap day: from March 2096 the
    schedule [0 0 29 2 *] is reported as never firing again, although it fires
    on 29 February 2104 (2100 is not a leap year). *)
Theorem leap_day_beyond_horizon :
  civil march_2096 = (3, 1) /\ civil feb29_2104 = (2, 29) /\
  next_after (schedule "0 0 29 2 *") (march_2096 * DAY) = Some None /\
  fires (schedule "0 0 29 2 *") (feb29_2104 * DAY).
Proof.
  split_and!; [vm_compute; reflexivity|vm_compute; reflexivity|vm_compute; reflexivity|].
  unfold fires. split_and!; [vm_compute; reflexivity|vm_compute; reflexivity| |]; apply (bool_decide_unpack _); vm_compute; exact I.
Qed.

(** A step near [u32::MAX] wraps around the loop variable, so a range that
    starts at 1 also yields 0. *)
Theorem step_wraps_below_range :
  rmap minutes (parse (lit "1-59/4294967295 * * * *")) = Ok [0; 1].
Proof. vm_compute. reflexivity. Qed.

End CronRuns.
