(* ===== verification/PgOutput.v ===== *)
(** * PgOutput: the Postgres replication messages

    [oxidant-streaming/src/pg_replication.rs]: log positions ([Lsn]), the
    bounds-checked cursor ([Reader]), the [pgoutput] decoder
    ([decode_logical]), the stream frames ([decode_wire]), the standby status
    update, and the [sslmode] option.

    The wire format itself is documented by Postgres; [encode_logical] and
    [encode_wire] write it down, and the theorems relate the decoder to it:
    a message decodes to itself whatever follows it, a truncated message is
    refused, and the section loop of an update always ends. *)

From S2P Require Import Prelude Text.

(** ** Log positions *)

Record Lsn := { lsn : Z }.

Definition as_i64 (l : Lsn) : Z := wraps 64 (lsn l).
Definition from_i64 (value : Z) : Lsn := {| lsn := wrapu 64 value |}.

(** [Lsn::parse].  [high << 32] drops the bits shifted out of the [u64]. *)
Definition lsn_parse (text : str) : result Error Lsn :=
  let text := trim text in
  let bad := Io (fmt [lit "`"; text; lit "` is not a Postgres LSN"]) in
  let! ' (high, low) :=
    ok_or (split_once 47 text)
      (Io (fmt [lit "`"; text; lit "` is not a Postgres LSN (expected `16/B374D848`)"])) in
  let! high := ok_or (parse_u 16 (u_max 64) high) bad in
  let! low := ok_or (parse_u 16 (u_max 64) low) bad in
  Ok {| lsn := Z.lor (wrapu 64 (Z.shiftl high 32)) low |}.

(** [Display for Lsn]. *)
Definition lsn_show (l : Lsn) : str :=
  fmt [show_hex (Z.shiftr (lsn l) 32); lit "/"; show_hex (Z.land (lsn l) 4294967295)].

Definition PG_EPOCH_UNIX_MICROS : Z := 946684800000000.

(** ** Messages *)

Inductive TupleData :=
  | Null
  | UnchangedToast
  | TextValue (bytes : list Z)
  | BinaryValue (bytes : list Z).

Record RelationColumn := {
  rc_key : bool;
  rc_name : str;
  rc_type_oid : Z;
  rc_type_modifier : Z;
}.

Record Relation := {
  rel_oid : Z;
  rel_namespace : str;
  rel_name : str;
  rel_replica_identity : Z;
  rel_columns : list RelationColumn;
}.

Definition qualified (r : Relation) : str := fmt [rel_namespace r; lit "."; rel_name r].

Inductive LogicalMessage :=
  | Begin (final_lsn : Lsn) (commit_time xid : Z)
  | Commit (flags : Z) (commit_lsn end_lsn : Lsn) (commit_time : Z)
  | Origin (commit_lsn : Lsn) (name : str)
  | RelationMsg (r : Relation)
  | TypeMsg (oid : Z) (namespace name : str)
  | Insert (relation : Z) (new : list TupleData)
  | Update (relation : Z) (key old : option (list TupleData)) (new : list TupleData)
  | Delete (relation : Z) (key old : option (list TupleData))
  | Truncate (options : Z) (relations : list Z).

Inductive WireMessage :=
  | XLogData (wal_start wal_end : Lsn) (clock : Z) (data : list Z)
  | Keepalive (wal_end : Lsn) (clock : Z) (reply_requested : bool).

(** ** The cursor *)

Record Reader := { rd_buf : list Z; rd_pos : Z; rd_what : str }.

Definition reader_new (buf : list Z) (what : str) : Reader :=
  {| rd_buf := buf; rd_pos := 0; rd_what := what |}.

Definition blen (l : list Z) : Z := Z.of_nat (length l).
Definition from_pos (r : Reader) : list Z := drop (Z.to_nat (Z.min (rd_pos r) (blen (rd_buf r)))) (rd_buf r).
Definition seek (r : Reader) (pos : Z) : Reader :=
  {| rd_buf := rd_buf r; rd_pos := pos; rd_what := rd_what r |}.

(** A reading step: [&mut Reader -> Result<A>]. *)
Definition R (A : Type) : Type := Reader -> result Error (A * Reader).
Definition rd_ret {A} (a : A) : R A := fun r => Ok (a, r).
Definition rd_err {A} (e : Reader -> Error) : R A := fun r => Err (e r).
Definition rd_bind {A B} (m : R A) (k : A -> R B) : R B :=
  fun r => match m r with Ok (a, r') => k a r' | Err e => Err e end.
Notation "'read' x '<-' m ';' k" := (rd_bind m (fun x => k))
  (at level 60, x name, m at next level, k at level 200, right associativity) : oxidant_scope.

(** [Reader::take]. *)
Definition rd_take (n : Z) : R (list Z) := fun r =>
  let e := sat_addu 64 (rd_pos r) n in
  if blen (rd_buf r) <? e then
    Err (Io (fmt [rd_what r; lit " message is truncated: wanted "; show_u n; lit " byte(s) at offset ";
                  show_u (rd_pos r); lit ", only "; show_u (sat_subu (blen (rd_buf r)) (rd_pos r)); lit " left"]))
  else Ok (take (Z.to_nat (e - rd_pos r)) (drop (Z.to_nat (rd_pos r)) (rd_buf r)), seek r e).

Definition rd_u8 : R Z := read b <- rd_take 1; rd_ret (hd 0 b).
Definition rd_i16 : R Z := read b <- rd_take 2; rd_ret (from_be_bytes_signed b).
Definition rd_u32 : R Z := read b <- rd_take 4; rd_ret (from_be_bytes b).
Definition rd_i32 : R Z := read b <- rd_take 4; rd_ret (from_be_bytes_signed b).
Definition rd_i64 : R Z := read b <- rd_take 8; rd_ret (from_be_bytes_signed b).
Definition rd_lsn : R Lsn := read b <- rd_take 8; rd_ret {| lsn := from_be_bytes b |}.

(** [Reader::rest]. *)
Definition rd_rest (r : Reader) : list Z * Reader := (from_pos r, seek r (blen (rd_buf r))).

(** [iter().position(|b| *b == 0)], as the bytes before it. *)
Fixpoint until_nul (bs : list Z) : option (list Z) :=
  match bs with
  | [] => None
  | b :: t => if b =? 0 then Some [] else cons b <$> until_nul t
  end.

(** [Reader::cstr]. *)
Definition rd_cstr : R str := fun r =>
  match until_nul (from_pos r) with
  | None => Err (Io (fmt [rd_what r; lit " message ends inside a string at offset "; show_u (rd_pos r)]))
  | Some raw =>
      match from_utf8 raw with
      | Err e => Err (Io (fmt [rd_what r; lit " message has a non-UTF-8 string: "; show_utf8_error e]))
      | Ok text => Ok (text, seek r (rd_pos r + (blen raw + 1)))
      end
  end.

Definition rd_value : R TupleData :=
  read tag <- rd_u8;
  if tag =? 110 then rd_ret Null
  else if tag =? 117 then rd_ret UnchangedToast
  else if tag =? 116 then (read len <- rd_i32; read b <- rd_take (Z.max len 0); rd_ret (TextValue b))
  else if tag =? 98 then (read len <- rd_i32; read b <- rd_take (Z.max len 0); rd_ret (BinaryValue b))
  else rd_err (fun r => Io (fmt [rd_what r; lit " message has tuple kind `"; [tag];
                                 lit "`, which pgoutput v1 does not define"])).

(** [for _ in 0..n { out.push(step?) }]. *)
Fixpoint rd_times {A} (n : nat) (step : R A) : R (list A) :=
  match n with
  | O => rd_ret []
  | S n => read x <- step; read xs <- rd_times n step; rd_ret (x :: xs)
  end.

(** [Reader::tuple]. *)
Definition rd_tuple : R (list TupleData) :=
  read columns <- rd_i16;
  if columns <? 0 then
    rd_err (fun r => Io (fmt [rd_what r; lit " message declares "; show_i columns; lit " columns"]))
  else rd_times (Z.to_nat columns) rd_value.

(** ** [decode_logical] *)

Definition expect_tag (tag : Z) (what : str) : R unit :=
  read got <- rd_u8;
  if negb (got =? tag) then
    rd_err (fun _ => Io (fmt [lit "pgoutput "; what; lit " message expected section `"; [tag];
                              lit "`, got `"; [got]; lit "`"]))
  else rd_ret tt.

Definition rd_column : R RelationColumn :=
  read flags <- rd_u8; read name <- rd_cstr; read oid <- rd_u32; read modifier <- rd_i32;
  rd_ret {| rc_key := Z.land flags 1 =? 1; rc_name := name; rc_type_oid := oid; rc_type_modifier := modifier |}.

(** The [loop] of an update: [K] and [O] sections until the [N] section.
    Every turn reads at least one byte, so one unit of fuel per byte of the
    buffer and one more is enough; running out is the message no error has. *)
Fixpoint update_sections (fuel : nat) (key old : option (list TupleData))
    : R (option (list TupleData) * option (list TupleData) * list TupleData) :=
  match fuel with
  | O => rd_err (fun _ => Io [])
  | S fuel =>
      read tag <- rd_u8;
      if tag =? 75 then (read t <- rd_tuple; update_sections fuel (Some t) old)
      else if tag =? 79 then (read t <- rd_tuple; update_sections fuel key (Some t))
      else if tag =? 78 then (read new <- rd_tuple; rd_ret (key, old, new))
      else rd_err (fun _ => Io (fmt [lit "pgoutput Update message has section `"; [tag]; lit "`"]))
  end.

Definition rd_sections : R (option (list TupleData) * option (list TupleData) * list TupleData) :=
  fun r => update_sections (S (length (rd_buf r))) None None r.

Definition rd_begin : R LogicalMessage :=
  read final_lsn <- rd_lsn; read commit_time <- rd_i64; read xid <- rd_u32;
  rd_ret (Begin final_lsn commit_time xid).

Definition rd_commit : R LogicalMessage :=
  read flags <- rd_u8; read commit_lsn <- rd_lsn; read end_lsn <- rd_lsn; read commit_time <- rd_i64;
  rd_ret (Commit flags commit_lsn end_lsn commit_time).

Definition rd_origin : R LogicalMessage :=
  read commit_lsn <- rd_lsn; read name <- rd_cstr; rd_ret (Origin commit_lsn name).

Definition rd_relation : R LogicalMessage :=
  read oid <- rd_u32; read namespace <- rd_cstr; read name <- rd_cstr;
  read replica_identity <- rd_u8; read count <- rd_i16;
  read columns <- rd_times (Z.to_nat (Z.max count 0)) rd_column;
  rd_ret (RelationMsg {|
    rel_oid := oid;
    rel_namespace := match namespace with [] => lit "pg_catalog" | _ => namespace end;
    rel_name := name; rel_replica_identity := replica_identity; rel_columns := columns |}).

Definition rd_type : R LogicalMessage :=
  read oid <- rd_u32; read namespace <- rd_cstr; read name <- rd_cstr; rd_ret (TypeMsg oid namespace name).

Definition rd_insert : R LogicalMessage :=
  read relation <- rd_u32; read u <- expect_tag 78 (lit "Insert"); read new <- rd_tuple;
  rd_ret (Insert relation new).

Definition rd_update : R LogicalMessage :=
  read relation <- rd_u32;
  read s <- rd_sections;
  rd_ret (Update relation s.1.1 s.1.2 s.2).

Definition rd_delete : R LogicalMessage :=
  read relation <- rd_u32; read tag <- rd_u8;
  if tag =? 75 then (read t <- rd_tuple; rd_ret (Delete relation (Some t) None))
  else if tag =? 79 then (read t <- rd_tuple; rd_ret (Delete relation None (Some t)))
  else rd_err (fun _ => Io (fmt [lit "pgoutput Delete message has section `"; [tag]; lit "`"])).

Definition rd_truncate : R LogicalMessage :=
  read count <- rd_i32; read options <- rd_u8;
  read relations <- rd_times (Z.to_nat (Z.max count 0)) rd_u32;
  rd_ret (Truncate options relations).

Definition rd_logical : R LogicalMessage :=
  read tag <- rd_u8;
  if tag =? 66 then rd_begin
  else if tag =? 67 then rd_commit
  else if tag =? 79 then rd_origin
  else if tag =? 82 then rd_relation
  else if tag =? 89 then rd_type
  else if tag =? 73 then rd_insert
  else if tag =? 85 then rd_update
  else if tag =? 68 then rd_delete
  else if tag =? 84 then rd_truncate
  else rd_err (fun _ => Io (fmt [lit "pgoutput message type `"; [tag];
                                 lit "` is not part of protocol version 1"])).

Definition decode_logical (bytes : list Z) : result Error LogicalMessage :=
  rmap fst (rd_logical (reader_new bytes (lit "pgoutput"))).

(** ** [decode_wire] and [standby_status_update] *)

Definition rd_wire (bytes : list Z) : R WireMessage :=
  read tag <- rd_u8;
  if tag =? 119 then
    (read wal_start <- rd_lsn; read wal_end <- rd_lsn; read clock <- rd_i64;
     fun r => Ok (XLogData wal_start wal_end clock (drop (Z.to_nat (rd_pos r)) bytes), r))
  else if tag =? 107 then
    (read wal_end <- rd_lsn; read clock <- rd_i64; read reply <- rd_u8;
     rd_ret (Keepalive wal_end clock (negb (reply =? 0))))
  else rd_err (fun _ => Io (fmt [lit "replication stream frame `"; [tag];
                                 lit "` is neither XLogData nor a keepalive"])).

Definition decode_wire (bytes : list Z) : result Error WireMessage :=
  rmap fst (rd_wire bytes (reader_new bytes (lit "replication"))).

Definition standby_status_update (written flushed applied : Lsn) (clock : Z) : list Z :=
  [114] ++ to_be_bytes 8 (lsn written) ++ to_be_bytes 8 (lsn flushed) ++ to_be_bytes 8 (lsn applied)
  ++ to_be_bytes 8 clock ++ [0].

(** ** [TlsMode] *)

Inductive TlsMode := Disable | Require_ | VerifyCa | VerifyFull.
#[global] Instance TlsMode_eq_dec : EqDecision TlsMode.
Proof. solve_decision. Defined.

Definition tls_parse (text : str) : result Error TlsMode :=
  let t := to_ascii_lowercase (trim text) in
  if bool_decide (t = lit "disable") then Ok Disable
  else if bool_decide (t = lit "require") then Ok Require_
  else if bool_decide (t = lit "verify-ca" \/ t = lit "verify_ca") then Ok VerifyCa
  else if bool_decide (t = lit "verify-full" \/ t = lit "verify_full") then Ok VerifyFull
  else Err (Io (fmt [lit "postgres_cdc `tls: "; t;
                     lit "` is not a TLS mode (expected `disable`, `require`, `verify-ca`, or `verify-full`)"])).

Definition tls_enabled (m : TlsMode) : bool := bool_decide (m <> Disable).

Definition tls_show (m : TlsMode) : str :=
  match m with
  | Disable => lit "disable" | Require_ => lit "require"
  | VerifyCa => lit "verify-ca" | VerifyFull => lit "verify-full"
  end.

(** ** The wire format

    Postgres documents the messages as concatenations of big-endian integers
    and NUL-terminated strings. *)

Definition enc_cstr (s : str) : list Z := utf8_encode s ++ [0].
Definition enc_value (v : TupleData) : list Z :=
  match v with
  | Null => [110]
  | UnchangedToast => [117]
  | TextValue b => [116] ++ to_be_bytes 4 (blen b) ++ b
  | BinaryValue b => [98] ++ to_be_bytes 4 (blen b) ++ b
  end.
Definition enc_tuple (t : list TupleData) : list Z :=
  to_be_bytes 2 (Z.of_nat (length t)) ++ (t ≫= enc_value).
Definition enc_column (c : RelationColumn) : list Z :=
  [if rc_key c then 1 else 0] ++ enc_cstr (rc_name c) ++ to_be_bytes 4 (rc_type_oid c)
  ++ to_be_bytes 4 (rc_type_modifier c).
Definition enc_section (tag : Z) (t : option (list TupleData)) : list Z :=
  match t with Some t => [tag] ++ enc_tuple t | None => [] end.

Definition encode_logical (m : LogicalMessage) : list Z :=
  match m with
  | Begin l t x => [66] ++ to_be_bytes 8 (lsn l) ++ to_be_bytes 8 t ++ to_be_bytes 4 x
  | Commit f c e t => [67] ++ [f] ++ to_be_bytes 8 (lsn c) ++ to_be_bytes 8 (lsn e) ++ to_be_bytes 8 t
  | Origin l n => [79] ++ to_be_bytes 8 (lsn l) ++ enc_cstr n
  | RelationMsg r =>
      [82] ++ to_be_bytes 4 (rel_oid r) ++ enc_cstr (rel_namespace r) ++ enc_cstr (rel_name r)
      ++ [rel_replica_identity r] ++ to_be_bytes 2 (Z.of_nat (length (rel_columns r)))
      ++ (rel_columns r ≫= enc_column)
  | TypeMsg o ns n => [89] ++ to_be_bytes 4 o ++ enc_cstr ns ++ enc_cstr n
  | Insert r t => [73] ++ to_be_bytes 4 r ++ [78] ++ enc_tuple t
  | Update r k o n => [85] ++ to_be_bytes 4 r ++ enc_section 75 k ++ enc_section 79 o ++ [78] ++ enc_tuple n
  | Delete r k o => [68] ++ to_be_bytes 4 r ++ enc_section 75 k ++ enc_section 79 o
  | Truncate f rs =>
      [84] ++ to_be_bytes 4 (Z.of_nat (length rs)) ++ [f] ++ (rs ≫= to_be_bytes 4)
  end.

Definition encode_wire (m : WireMessage) : list Z :=
  match m with
  | XLogData s e c d => [119] ++ to_be_bytes 8 (lsn s) ++ to_be_bytes 8 (lsn e) ++ to_be_bytes 8 c ++ d
  | Keepalive e c r => [107] ++ to_be_bytes 8 (lsn e) ++ to_be_bytes 8 c ++ [if r then 1 else 0]
  end.

(** The values the format has room for. *)
Definition name_ok (s : str) : Prop := Forall is_scalar s /\ 0 ∉ s.
Definition value_ok (v : TupleData) : Prop :=
  match v with TextValue b | BinaryValue b => blen b <= i_max 32 | _ => True end.
Definition tuple_ok (t : list TupleData) : Prop := Z.of_nat (length t) <= i_max 16 /\ Forall value_ok t.
Definition section_ok (t : option (list TupleData)) : Prop := from_option tuple_ok True t.
Definition column_ok (c : RelationColumn) : Prop :=
  name_ok (rc_name c) /\ u_ok 32 (rc_type_oid c) /\ i_ok 32 (rc_type_modifier c).
Definition message_ok (m : LogicalMessage) : Prop :=
  match m with
  | Begin l t x => u_ok 64 (lsn l) /\ i_ok 64 t /\ u_ok 32 x
  | Commit f c e t => u_ok 64 (lsn c) /\ u_ok 64 (lsn e) /\ i_ok 64 t
  | Origin l n => u_ok 64 (lsn l) /\ name_ok n
  | RelationMsg r =>
      u_ok 32 (rel_oid r) /\ name_ok (rel_namespace r) /\ rel_namespace r <> [] /\ name_ok (rel_name r)
      /\ Z.of_nat (length (rel_columns r)) <= i_max 16 /\ Forall column_ok (rel_columns r)
  | TypeMsg o ns n => u_ok 32 o /\ name_ok ns /\ name_ok n
  | Insert r t => u_ok 32 r /\ tuple_ok t
  | Update r k o n => u_ok 32 r /\ section_ok k /\ section_ok o /\ tuple_ok n
  | Delete r k o => u_ok 32 r /\ section_ok k /\ section_ok o /\ (is_Some k <-> ~ is_Some o)
  | Truncate f rs => Z.of_nat (length rs) <= i_max 32 /\ Forall (u_ok 32) rs
  end.

(** ** Reading what was written

    [reads m bs a]: wherever the bytes [bs] stand under the cursor, [m] reads
    [a] from exactly those bytes.  [local m]: whenever [m] succeeds it has
    read some bytes in that sense, so its answer never depends on what
    precedes or follows them. *)

Definition at_ (what : str) (pre post : list Z) : Reader :=
  {| rd_buf := pre ++ post; rd_pos := blen pre; rd_what := what |}.

Definition reads {A} (m : R A) (bs : list Z) (a : A) : Prop :=
  forall what pre post, blen (pre ++ bs ++ post) <= i_max 64 ->
    m (at_ what pre (bs ++ post)) = Ok (a, at_ what (pre ++ bs) post).

Definition local {A} (m : R A) : Prop :=
  forall what pre post a r, blen (pre ++ post) <= i_max 64 ->
    m (at_ what pre post) = Ok (a, r) ->
    exists bs post', post = bs ++ post' /\ r = at_ what (pre ++ bs) post' /\ reads m bs a.

Lemma blen_app a b : blen (a ++ b) = blen a + blen b.
Proof. unfold blen. rewrite length_app. lia. Qed.

Lemma blen_nonneg a : 0 <= blen a.
Proof. unfold blen. lia. Qed.
#[export] Hint Resolve blen_nonneg : oxidant.

Lemma drop_blen (pre post : list Z) : drop (Z.to_nat (blen pre)) (pre ++ post) = post.
Proof. unfold blen. by rewrite Nat2Z.id, drop_app_length. Qed.

Lemma reads_ret {A} (a : A) : reads (rd_ret a) [] a.
Proof. intros what pre post H. unfold rd_ret. simpl. by rewrite app_nil_r. Qed.

Lemma reads_bind {A B} (m : R A) (k : A -> R B) b1 b2 a b :
  reads m b1 a -> reads (k a) b2 b -> reads (rd_bind m k) (b1 ++ b2) b.
Proof.
  intros H1 H2 what pre post Hl. unfold rd_bind. rewrite <-app_assoc in *.
  rewrite H1 by done. rewrite H2 by (by rewrite <-app_assoc). by rewrite app_assoc.
Qed.

(** The same with the bytes split by hand, and a last step that reads nothing. *)
Lemma reads_step {A B} (m : R A) (k : A -> R B) bs b1 b2 a b :
  reads m b1 a -> bs = b1 ++ b2 -> reads (k a) b2 b -> reads (rd_bind m k) bs b.
Proof. intros ? -> ?. by eapply reads_bind. Qed.

Lemma reads_last {A B} (m : R A) (f : A -> B) bs a : reads m bs a -> reads (read x <- m; rd_ret (f x)) bs (f a).
Proof. intros H. eapply reads_step; [exact H|by rewrite app_nil_r|apply reads_ret]. Qed.

Lemma reads_take bs : reads (rd_take (blen bs)) bs bs.
Proof.
  intros what pre post Hl. unfold rd_take, at_. simpl rd_pos. simpl rd_buf. simpl rd_what.
  rewrite !blen_app in Hl. rewrite !blen_app.
  pose proof (blen_nonneg pre). pose proof (blen_nonneg bs). pose proof (blen_nonneg post).
  unfold sat_addu. rewrite Z.min_r by (unfold u_max, i_max in *; lia).
  destruct (Z.ltb_spec (blen pre + (blen bs + blen post)) (blen pre + blen bs)); [lia|].
  unfold seek. simpl. rewrite <-app_assoc. do 2 f_equal.
  replace (Z.to_nat (blen pre + blen bs - blen pre)) with (length bs) by (unfold blen; lia).
  by rewrite drop_blen, take_app_length.
Qed.

Lemma reads_take' n bs : blen bs = n -> reads (rd_take n) bs bs.
Proof. intros <-. apply reads_take. Qed.

Lemma local_take n : 0 <= n -> local (rd_take n).
Proof.
  intros Hn what pre post a r Hl. unfold rd_take at 1, at_ at 1 2 3 4 5 6 7 8. simpl rd_pos. simpl rd_buf.
  rewrite blen_app in *. pose proof (blen_nonneg pre). pose proof (blen_nonneg post).
  destruct (Z.ltb_spec (blen pre + blen post) (sat_addu 64 (blen pre) n)) as [|Hle]; [done|].
  intros [= <- <-]. unfold sat_addu in *. rewrite Z.min_r in * by (unfold u_max, i_max in *; lia).
  replace (Z.to_nat (blen pre + n - blen pre)) with (Z.to_nat n) by lia.
  rewrite drop_blen.
  assert (blen (take (Z.to_nat n) post) = n) as Hn'.
  { unfold blen in *. rewrite length_take. lia. }
  exists (take (Z.to_nat n) post), (drop (Z.to_nat n) post). split_and!.
  - by rewrite take_drop.
  - unfold at_, seek. simpl. rewrite blen_app, Hn', <-app_assoc, take_drop. done.
  - by apply reads_take'.
Qed.

Lemma local_ret {A} (a : A) : local (rd_ret a).
Proof.
  intros what pre post x r Hl [= <- <-]. exists [], post. rewrite app_nil_r. split_and!; [done|done|].
  apply reads_ret.
Qed.

Lemma local_err {A} (e : Reader -> Error) : local (@rd_err A e).
Proof. intros what pre post x r Hl. done. Qed.

Lemma local_bind {A B} (m : R A) (k : A -> R B) : local m -> (forall a, local (k a)) -> local (rd_bind m k).
Proof.
  intros Hm Hk what pre post b r Hl. unfold rd_bind at 1.
  destruct (m _) as [[a r1]|] eqn:E; [|done]. intros Hr.
  destruct (Hm _ _ _ _ _ Hl E) as (b1 & p1 & -> & -> & R1).
  destruct (Hk _ _ _ _ _ _ ltac:(by rewrite <-app_assoc) Hr) as (b2 & p2 & -> & -> & R2).
  exists (b1 ++ b2), p2. rewrite <-!app_assoc. split_and!; [done|done|]. by eapply reads_bind.
Qed.

(** *** Primitive values *)

Lemma reads_u8 b : reads rd_u8 [b] b.
Proof. unfold rd_u8. apply (reads_last (rd_take 1) (hd 0) [b] [b]). by apply reads_take'. Qed.

Lemma blen_be k n : blen (to_be_bytes k n) = Z.of_nat k.
Proof. unfold blen. by rewrite length_to_be_bytes. Qed.

Lemma reads_unsigned k n :
  0 <= n < 256 ^ Z.of_nat k ->
  reads (read b <- rd_take (Z.of_nat k); rd_ret (from_be_bytes b)) (to_be_bytes k n) n.
Proof.
  intros Hn. rewrite <-(from_to_be_bytes k n Hn) at 2. apply reads_last. apply reads_take', blen_be.
Qed.

Lemma reads_signed k n :
  (0 < k)%nat -> i_ok (8 * Z.of_nat k) n ->
  reads (read b <- rd_take (Z.of_nat k); rd_ret (from_be_bytes_signed b)) (to_be_bytes k n) n.
Proof.
  intros Hk Hn. rewrite <-(from_to_be_bytes_signed k n Hk Hn) at 2. apply reads_last. apply reads_take', blen_be.
Qed.

Lemma reads_u32 n : u_ok 32 n -> reads rd_u32 (to_be_bytes 4 n) n.
Proof. unfold u_ok, u_max. intros. apply (reads_unsigned 4). simpl. lia. Qed.
Lemma reads_i16 n : i_ok 16 n -> reads rd_i16 (to_be_bytes 2 n) n.
Proof. intros. apply (reads_signed 2); [lia|done]. Qed.
Lemma reads_i32 n : i_ok 32 n -> reads rd_i32 (to_be_bytes 4 n) n.
Proof. intros. apply (reads_signed 4); [lia|done]. Qed.
Lemma reads_i64 n : i_ok 64 n -> reads rd_i64 (to_be_bytes 8 n) n.
Proof. intros. apply (reads_signed 8); [lia|done]. Qed.
Lemma reads_lsn l : u_ok 64 (lsn l) -> reads rd_lsn (to_be_bytes 8 (lsn l)) l.
Proof.
  destruct l as [n]. simpl. unfold u_ok, u_max. intros Hn.
  rewrite <-(from_to_be_bytes 8 n) at 2 by (simpl; lia).
  apply (reads_last (rd_take 8) (fun b => {| lsn := from_be_bytes b |})). apply reads_take', blen_be.
Qed.

Lemma from_pos_at what pre post : from_pos (at_ what pre post) = post.
Proof.
  unfold from_pos, at_. simpl. rewrite blen_app, Z.min_l by (pose proof (blen_nonneg post); lia).
  apply drop_blen.
Qed.

Lemma until_nul_app raw t : 0 ∉ raw -> until_nul (raw ++ 0 :: t) = Some raw.
Proof.
  induction raw as [|b raw IH]; intros H; simpl; [done|].
  apply not_elem_of_cons in H as [Hb H]. destruct (Z.eqb_spec b 0); [by subst|]. by rewrite IH.
Qed.

Lemma until_nul_sound bs raw : until_nul bs = Some raw -> exists t, bs = raw ++ 0 :: t /\ 0 ∉ raw.
Proof.
  revert raw. induction bs as [|b bs IH]; intros raw; simpl; [done|].
  destruct (Z.eqb_spec b 0) as [->|Hb]; [intros [= <-]; exists bs; split; [done|apply not_elem_of_nil]|].
  destruct (until_nul bs) as [r|]; [|done]. intros [= <-].
  destruct (IH _ eq_refl) as (t & -> & Hr). exists t. split; [done|]. by apply not_elem_of_cons.
Qed.

Lemma reads_cstr_raw raw text : 0 ∉ raw -> from_utf8 raw = Ok text -> reads rd_cstr (raw ++ [0]) text.
Proof.
  intros Hr Ht what pre post Hl. unfold rd_cstr. rewrite from_pos_at, <-app_assoc.
  cbn [app]. rewrite until_nul_app by done. rewrite Ht. unfold seek, at_. simpl.
  rewrite !blen_app, <-!app_assoc. done.
Qed.

Lemma reads_cstr s : name_ok s -> reads rd_cstr (enc_cstr s) s.
Proof.
  intros [Hs H0]. apply reads_cstr_raw; [by apply utf8_encode_no_nul|by apply from_utf8_encode].
Qed.

Lemma local_cstr : local rd_cstr.
Proof.
  intros what pre post a r Hl. unfold rd_cstr at 1. rewrite from_pos_at.
  destruct (until_nul post) as [raw|] eqn:E; [|done].
  destruct (until_nul_sound _ _ E) as (t & -> & Hr). destruct (from_utf8 raw) as [text|] eqn:Et; [|done].
  intros [= <- <-]. exists (raw ++ [0]), t. split_and!.
  - by rewrite <-app_assoc.
  - unfold seek, at_. simpl. rewrite !blen_app, <-!app_assoc. done.
  - by apply reads_cstr_raw.
Qed.

(** *** Lists *)

Lemma reads_times {A} (step : R A) (enc : A -> list Z) (l : list A) :
  Forall (fun a => reads step (enc a) a) l -> reads (rd_times (length l) step) (l ≫= enc) l.
Proof.
  induction 1 as [|a l Ha _ IH]; [apply reads_ret|]. cbn [length rd_times].
  eapply reads_step; [exact Ha|apply bind_cons_eq|]. by apply (reads_last _ (cons a)).
Qed.

Lemma local_times {A} (step : R A) n : local step -> local (rd_times n step).
Proof.
  intros H. induction n as [|n IH]; [apply local_ret|]. cbn [rd_times].
  apply local_bind; [done|]. intros a. apply local_bind; [done|]. intros l. apply local_ret.
Qed.

Create HintDb reader discriminated.
#[export] Hint Resolve local_cstr local_ret local_err : reader.
#[export] Hint Resolve reads_u8 reads_u32 reads_i16 reads_i32 reads_i64 reads_lsn reads_cstr : reader.

(** Locality follows the structure of a reader. *)
Ltac locality := repeat first
  [ progress intros
  | apply local_bind | apply local_times | (apply local_take; lia)
  | solve [eauto 1 with reader]
  | match goal with |- local (if ?b then _ else _) => destruct b end ].

Lemma local_u8 : local rd_u8. Proof. unfold rd_u8. locality. Qed.
Lemma local_i16 : local rd_i16. Proof. unfold rd_i16. locality. Qed.
Lemma local_u32 : local rd_u32. Proof. unfold rd_u32. locality. Qed.
Lemma local_i32 : local rd_i32. Proof. unfold rd_i32. locality. Qed.
Lemma local_i64 : local rd_i64. Proof. unfold rd_i64. locality. Qed.
Lemma local_lsn : local rd_lsn. Proof. unfold rd_lsn. locality. Qed.
#[export] Hint Resolve local_u8 local_i16 local_u32 local_i32 local_i64 local_lsn : reader.
Lemma local_value : local rd_value. Proof. unfold rd_value. locality. Qed.
#[export] Hint Resolve local_value : reader.
Lemma local_tuple : local rd_tuple. Proof. unfold rd_tuple. locality. Qed.
#[export] Hint Resolve local_tuple : reader.
Lemma local_column : local rd_column. Proof. unfold rd_column. locality. Qed.
#[export] Hint Resolve local_column : reader.
Lemma local_sections fuel key old : local (update_sections fuel key old).
Proof. revert key old. induction fuel as [|f IH]; intros key old; cbn [update_sections]; locality; apply IH. Qed.

(** *** Tuples and sections *)

Ltac step_with H := eapply reads_step; [eapply H|reflexivity|cbv beta].

Lemma i_ok_len w n : 0 < w -> Z.of_nat n <= i_max w -> i_ok w (Z.of_nat n).
Proof.
  intros Hw Hn. unfold i_ok, i_min. pose proof (Z.pow_pos_nonneg 2 (w - 1) ltac:(lia) ltac:(lia)). lia.
Qed.

Lemma reads_value v : value_ok v -> reads rd_value (enc_value v) v.
Proof.
  intros Hv. destruct v as [| |b|b]; unfold rd_value; cbn [enc_value].
  - apply (reads_bind rd_u8 _ [110] [] 110); [apply reads_u8|apply reads_ret].
  - apply (reads_bind rd_u8 _ [117] [] 117); [apply reads_u8|apply reads_ret].
  - step_with reads_u8. simpl Z.eqb. cbv iota. step_with reads_i32; [by apply i_ok_len|].
    apply (reads_last _ TextValue). apply reads_take'. pose proof (blen_nonneg b). lia.
  - step_with reads_u8. simpl Z.eqb. cbv iota. step_with reads_i32; [by apply i_ok_len|].
    apply (reads_last _ BinaryValue). apply reads_take'. pose proof (blen_nonneg b). lia.
Qed.

Lemma reads_tuple t : tuple_ok t -> reads rd_tuple (enc_tuple t) t.
Proof.
  intros [Hl Hv]. unfold rd_tuple, enc_tuple. step_with reads_i16; [by apply i_ok_len|].
  destruct (Z.ltb_spec (Z.of_nat (length t)) 0); [lia|]. rewrite Nat2Z.id.
  apply reads_times. eapply Forall_impl; [exact Hv|]. apply reads_value.
Qed.
#[export] Hint Resolve reads_tuple : reader.

Lemma reads_column c : column_ok c -> reads rd_column (enc_column c) c.
Proof.
  intros (Hn & Ho & Hm). destruct c as [key name oid modifier]. unfold rd_column, enc_column. simpl in *.
  step_with reads_u8. step_with reads_cstr; [done|]. step_with reads_u32; [done|].
  rewrite <-(app_nil_r (to_be_bytes 4 modifier)). step_with reads_i32; [done|].
  replace (Z.land (if key then 1 else 0) 1 =? 1) with key by (by destruct key). apply reads_ret.
Qed.

Lemma u8_at what pre post b : blen (pre ++ b :: post) <= i_max 64 ->
  rd_u8 (at_ what pre (b :: post)) = Ok (b, at_ what (pre ++ [b]) post).
Proof. intros H. by apply (reads_u8 b). Qed.

Lemma u8_at_end what pre x : blen (pre ++ []) <= i_max 64 -> rd_u8 (at_ what pre []) <> Ok x.
Proof.
  unfold rd_u8, rd_bind, rd_take, at_. simpl. rewrite app_nil_r. intros Hl.
  unfold sat_addu. rewrite Z.min_r by (unfold i_max, u_max in *; lia).
  destruct (Z.ltb_spec (blen pre) (blen pre + 1)); [done|lia].
Qed.

(** The section loop gives the same answer for all fuels larger than what is
    left of the buffer. *)
Lemma sections_fuel f f' key old what pre post :
  blen (pre ++ post) <= i_max 64 -> (length post < f)%nat -> (length post < f')%nat ->
  update_sections f key old (at_ what pre post) = update_sections f' key old (at_ what pre post).
Proof.
  revert f' key old pre post. induction f as [|f IH]; intros [|f'] key old pre post Hl Hf Hf'; [lia|lia|lia|].
  cbn [update_sections]. unfold rd_bind at 1 5. destruct post as [|b post].
  { destruct (rd_u8 (at_ what pre [])) as [[b r]|] eqn:E; [|done].
    exfalso. by eapply u8_at_end. }
  rewrite u8_at by done. rewrite (cons_middle b pre post) in Hl. simpl in Hf, Hf'.
  assert (forall key old, (read t <- rd_tuple; update_sections f (key t) (old t)) (at_ what (pre ++ [b]) post) =
          (read t <- rd_tuple; update_sections f' (key t) (old t)) (at_ what (pre ++ [b]) post)) as Hnext.
  { intros k o. unfold rd_bind. destruct (rd_tuple _) as [[t r]|] eqn:E; [|done].
    destruct (local_tuple _ _ _ _ _ ltac:(by rewrite <-app_assoc) E) as (bs & p & -> & -> & _).
    rewrite length_app in *. apply IH; [by rewrite <-!app_assoc|lia|lia]. }
  destruct (b =? 75); [apply (Hnext (fun t => Some t) (fun _ => old))|].
  destruct (b =? 79); [apply (Hnext (fun _ => key) (fun t => Some t))|].
  by destruct (b =? 78).
Qed.

Lemma rd_sections_fuel f what pre post :
  blen (pre ++ post) <= i_max 64 -> (length post < f)%nat ->
  rd_sections (at_ what pre post) = update_sections f None None (at_ what pre post).
Proof. intros Hl Hf. apply sections_fuel; [done| |done]. simpl. rewrite length_app. lia. Qed.

Lemma local_rd_sections : local rd_sections.
Proof.
  intros what pre post a r Hl E.
  rewrite (rd_sections_fuel (S (length post))) in E by (try done; lia).
  destruct (local_sections _ _ _ _ _ _ _ _ Hl E) as (bs & p & -> & -> & HR).
  exists bs, p. split_and!; [done|done|]. intros what' pre' post' Hl'.
  set (F := S (length (bs ++ p) + length (bs ++ post'))%nat).
  rewrite (rd_sections_fuel F) by (try done; subst F; lia).
  specialize (HR what' pre' post' Hl').
  (* the fuel of the run that succeeded is irrelevant as well *)
  assert (reads (update_sections F None None) bs a) as HF.
  { pose proof (local_sections F None None what pre (bs ++ p) a (at_ what (pre ++ bs) p) Hl) as HL.
    rewrite <-(sections_fuel (S (length (bs ++ p)))) in HL by (try done; subst F; lia).
    destruct (HL E) as (bs2 & p2 & E2 & E3 & HR2). unfold at_ in E3. injection E3 as E3 E4.
    assert (bs2 = bs) as ->; [|done].
    rewrite !blen_app in E4. apply (app_inj_1 bs bs2) in E2 as [<- _]; [done|]. unfold blen in E4. lia. }
  by apply HF.
Qed.
#[export] Hint Resolve local_rd_sections : reader.

Lemma reads_sections_raw f k o key old new :
  (2 < f)%nat -> section_ok k -> section_ok o -> tuple_ok new ->
  reads (update_sections f key old) (enc_section 75 k ++ enc_section 79 o ++ [78] ++ enc_tuple new)
    (match k with Some t => Some t | None => key end, match o with Some t => Some t | None => old end, new).
Proof.
  intros Hf Hk Ho Hn. destruct f as [|[|[|f]]]; try lia.
  assert (forall f key old, reads (update_sections (S f) key old) ([78] ++ enc_tuple new) (key, old, new)) as HN.
  { intros. cbn [update_sections]. step_with reads_u8. simpl Z.eqb. cbv iota.
    apply (reads_last _ (fun t => (key0, old0, t))). by apply reads_tuple. }
  assert (forall f key, reads (update_sections (S (S f)) key old) (enc_section 79 o ++ [78] ++ enc_tuple new)
            (key, match o with Some t => Some t | None => old end, new)) as HO.
  { intros. destruct o as [t|]; [|apply HN]. cbn [enc_section]. rewrite <-app_assoc.
    cbn [update_sections]. step_with reads_u8. simpl Z.eqb. cbv iota.
    step_with reads_tuple; [done|]. apply HN. }
  destruct k as [t|]; [|apply HO]. cbn [enc_section]. rewrite <-app_assoc.
  cbn [update_sections]. step_with reads_u8. simpl Z.eqb. cbv iota.
  step_with reads_tuple; [done|]. apply HO.
Qed.

Lemma reads_sections k o new :
  section_ok k -> section_ok o -> tuple_ok new ->
  reads rd_sections (enc_section 75 k ++ enc_section 79 o ++ [78] ++ enc_tuple new) (k, o, new).
Proof.
  intros Hk Ho Hn what pre post Hl.
  set (B := enc_section 75 k ++ enc_section 79 o ++ [78] ++ enc_tuple new) in *.
  set (F := (3 + length (B ++ post))%nat).
  rewrite (rd_sections_fuel F) by (try done; subst F; lia).
  rewrite (reads_sections_raw F k o None None new) by (try done; subst F; lia).
  by destruct k, o.
Qed.

(** *** Whole messages *)

Lemma local_logical : local rd_logical.
Proof.
  unfold rd_logical, rd_begin, rd_commit, rd_origin, rd_relation, rd_type, rd_insert, rd_update, rd_delete,
    rd_truncate, expect_tag. locality.
Qed.

Lemma reads_logical m : message_ok m -> reads rd_logical (encode_logical m) m.
Proof.
  intros Hm. unfold rd_logical. destruct m; cbn [encode_logical message_ok] in *; split_hyps;
    step_with reads_u8; simpl Z.eqb; cbv iota.
  - unfold rd_begin. step_with reads_lsn; [done|]. step_with reads_i64; [done|].
    apply (reads_last _ (Begin final_lsn commit_time)). by apply reads_u32.
  - unfold rd_commit. step_with reads_u8. step_with reads_lsn; [done|]. step_with reads_lsn; [done|].
    apply (reads_last _ (Commit flags commit_lsn end_lsn)). by apply reads_i64.
  - unfold rd_origin. step_with reads_lsn; [done|]. apply (reads_last _ (Origin commit_lsn)). by apply reads_cstr.
  - destruct r as [oid ns name ident cols]. simpl in *. unfold rd_relation.
    step_with reads_u32; [done|]. step_with reads_cstr; [done|]. step_with reads_cstr; [done|].
    step_with reads_u8. step_with reads_i16; [by apply i_ok_len|].
    rewrite Z.max_l, Nat2Z.id by lia.
    rewrite <-(app_nil_r (cols ≫= enc_column)). eapply reads_step;
      [apply (reads_times _ enc_column)|reflexivity|].
    + eapply Forall_impl; [eassumption|]. apply reads_column.
    + destruct ns; [done|]. apply reads_ret.
  - unfold rd_type. step_with reads_u32; [done|]. step_with reads_cstr; [done|].
    apply (reads_last _ (TypeMsg oid namespace)). by apply reads_cstr.
  - unfold rd_insert, expect_tag. step_with reads_u32; [done|].
    eapply (reads_step _ _ _ [78]); [|reflexivity|apply (reads_last _ (Insert relation)); by apply reads_tuple].
    apply (reads_step _ _ _ [78] [] 78); [apply reads_u8|done|apply reads_ret].
  - unfold rd_update. step_with reads_u32; [done|].
    apply (reads_last _ (fun s => Update relation s.1.1 s.1.2 s.2) _ (key, old, new)). by apply reads_sections.
  - unfold rd_delete. step_with reads_u32; [done|]. destruct key as [k|], old as [o|]; simpl in *; try by naive_solver.
    + rewrite app_nil_r. step_with reads_u8. simpl Z.eqb. cbv iota.
      apply (reads_last _ (fun t => Delete relation (Some t) None)). by apply reads_tuple.
    + step_with reads_u8. simpl Z.eqb. cbv iota.
      apply (reads_last _ (fun t => Delete relation None (Some t))). by apply reads_tuple.
  - unfold rd_truncate. step_with reads_i32; [by apply i_ok_len|]. step_with reads_u8.
    rewrite Z.max_l, Nat2Z.id by lia. apply (reads_last _ (Truncate options)).
    apply (reads_times _ (to_be_bytes 4)). eapply Forall_impl; [eassumption|]. apply reads_u32.
Qed.

(** C24. Decoding inverts the wire format: every message whose fields fit
    decodes to itself, whatever bytes follow it in the buffer. *)
Theorem decode_logical_roundtrip m rest :
  message_ok m -> blen (encode_logical m ++ rest) <= i_max 64 ->
  decode_logical (encode_logical m ++ rest) = Ok m.
Proof.
  intros Hm Hl. unfold decode_logical. change (reader_new ?b ?w) with (at_ w [] b).
  by rewrite (reads_logical m Hm).
Qed.

(** C36. A truncated message is refused: no strict prefix of an encoded message
    decodes, to that message or to any other. *)
Theorem truncated_message_refused m n :
  message_ok m -> blen (encode_logical m) <= i_max 64 -> (n < length (encode_logical m))%nat ->
  is_ok (decode_logical (take n (encode_logical m))) = false.
Proof.
  intros Hm Hl Hn. set (bs := encode_logical m) in *. unfold decode_logical.
  change (reader_new ?b ?w) with (at_ w [] b). set (w := lit "pgoutput").
  destruct (rd_logical (at_ w [] (take n bs))) as [[m' r]|] eqn:E; [|done]. exfalso.
  assert (blen ([] ++ take n bs) <= i_max 64) as Ht by (unfold blen in *; simpl; rewrite length_take; lia).
  destruct (local_logical _ _ _ _ _ Ht E) as (b1 & p & Eb & -> & HR).
  assert (bs = b1 ++ (p ++ drop n bs)) as Ebs by (by rewrite app_assoc, <-Eb, take_drop).
  pose proof (reads_logical m Hm w [] [] ltac:(simpl; rewrite app_nil_r; done)) as H1.
  specialize (HR w [] (p ++ drop n bs) ltac:(simpl; rewrite <-Ebs; done)).
  fold bs in H1. rewrite <-Ebs in HR. rewrite app_nil_r in H1. rewrite HR in H1.
  injection H1 as _ _ H1. apply (f_equal length) in Eb. rewrite length_take, length_app in Eb.
  simpl in H1. unfold blen in H1. lia.
Qed.

(** *** The loop ends *)

(** [answers m]: on a buffer of addressable size [m] does not run out of fuel. *)
Definition answers {A} (m : R A) : Prop :=
  forall what pre post, blen (pre ++ post) <= i_max 64 -> m (at_ what pre post) <> Err (Io []).

Lemma answers_bind {A B} (m : R A) (k : A -> R B) :
  answers m -> local m -> (forall a, answers (k a)) -> answers (rd_bind m k).
Proof.
  intros Hm Hl Hk what pre post Hb. unfold rd_bind.
  destruct (m _) as [[a r]|e] eqn:E; [|intros [= ->]; by apply (Hm what pre post Hb)].
  destruct (Hl _ _ _ _ _ Hb E) as (bs & p & -> & -> & _). apply Hk. by rewrite <-app_assoc.
Qed.

Lemma answers_ret {A} (a : A) : answers (rd_ret a).
Proof. by intros what pre post _. Qed.

Lemma io_nonempty (a b : str) (l : list str) : b <> [] -> Io (fmt (a :: b :: l)) <> Io [].
Proof.
  intros Hb H. injection H as H. unfold fmt in H. simpl in H.
  apply app_eq_nil in H as [_ H]. by apply app_eq_nil in H as [? _].
Qed.

Lemma err_io_nonempty {A} (a b : str) (l : list str) : b <> [] -> @Err Error A (Io (fmt (a :: b :: l))) <> Err (Io []).
Proof. intros Hb. pose proof (io_nonempty a b l Hb). congruence. Qed.

Lemma answers_err {A} (e : Reader -> Error) : (forall r, e r <> Io []) -> answers (@rd_err A e).
Proof. intros He what pre post _ [= H]. by apply (He (at_ what pre post)). Qed.

Lemma answers_take n : answers (rd_take n).
Proof.
  intros what pre post _. unfold rd_take. case_match; [|done]. by apply err_io_nonempty.
Qed.

Lemma answers_cstr : answers rd_cstr.
Proof.
  intros what pre post _. unfold rd_cstr. repeat case_match; try done; by apply err_io_nonempty.
Qed.

Lemma answers_times {A} (step : R A) n : answers step -> local step -> answers (rd_times n step).
Proof.
  intros Ha Hl. induction n as [|n IH]; [apply answers_ret|]. cbn [rd_times].
  apply answers_bind; [done|done|]. intros x. apply answers_bind; [done|by apply local_times|].
  intros xs. apply answers_ret.
Qed.

Ltac answering := repeat first
  [ progress intros
  | (apply answers_bind; [|solve [locality]|]) | (apply answers_times; [|solve [locality]])
  | apply answers_take | apply answers_cstr | apply answers_ret
  | (apply answers_err; intros; by apply io_nonempty)
  | solve [eauto 1 with reader]
  | match goal with |- answers (if ?b then _ else _) => destruct b end ].

Lemma answers_u8 : answers rd_u8. Proof. unfold rd_u8. answering. Qed.
Lemma answers_i16 : answers rd_i16. Proof. unfold rd_i16. answering. Qed.
Lemma answers_u32 : answers rd_u32. Proof. unfold rd_u32. answering. Qed.
Lemma answers_i32 : answers rd_i32. Proof. unfold rd_i32. answering. Qed.
Lemma answers_i64 : answers rd_i64. Proof. unfold rd_i64. answering. Qed.
Lemma answers_lsn : answers rd_lsn. Proof. unfold rd_lsn. answering. Qed.
#[export] Hint Resolve answers_u8 answers_i16 answers_u32 answers_i32 answers_i64 answers_lsn : reader.
Lemma answers_value : answers rd_value. Proof. unfold rd_value. answering. Qed.
#[export] Hint Resolve answers_value : reader.
Lemma answers_tuple : answers rd_tuple. Proof. unfold rd_tuple. answering. Qed.
Lemma answers_column : answers rd_column. Proof. unfold rd_column. answering. Qed.
#[export] Hint Resolve answers_tuple answers_column : reader.

Lemma answers_sections f key old what pre post :
  blen (pre ++ post) <= i_max 64 -> (length post < f)%nat ->
  update_sections f key old (at_ what pre post) <> Err (Io []).
Proof.
  revert key old pre post. induction f as [|f IH]; intros key old pre post Hl Hf; [lia|].
  cbn [update_sections]. unfold rd_bind at 1. pose proof (answers_u8 what pre post Hl) as Hu.
  destruct (rd_u8 _) as [[b r]|e] eqn:E; [|intros [= ->]; by apply Hu]. clear Hu.
  destruct post as [|b' post].
  { exfalso. by eapply u8_at_end. }
  rewrite u8_at in E by done. injection E as <- <-. simpl in Hf.
  assert (blen ((pre ++ [b']) ++ post) <= i_max 64) as Hl' by (by rewrite <-app_assoc).
  assert (forall key old, (read t <- rd_tuple; update_sections f (key t) (old t)) (at_ what (pre ++ [b']) post) <> Err (Io []))
    as Hnext.
  { intros k o. unfold rd_bind. pose proof (answers_tuple what (pre ++ [b']) post Hl') as Ht.
    destruct (rd_tuple _) as [[t r]|] eqn:E; [|intros [= ->]; by apply Ht].
    destruct (local_tuple _ _ _ _ _ Hl' E) as (bs & p & -> & -> & _).
    rewrite length_app in *. apply IH; [by rewrite <-app_assoc|lia]. }
  destruct (b' =? 75); [apply (Hnext (fun t => Some t) (fun _ => old))|].
  destruct (b' =? 79); [apply (Hnext (fun _ => key) (fun t => Some t))|].
  destruct (b' =? 78); [|done].
  apply (answers_bind rd_tuple (fun new => rd_ret (key, old, new)));
    [apply answers_tuple|apply local_tuple|intros; apply answers_ret|done].
Qed.

Lemma answers_rd_sections : answers rd_sections.
Proof. intros what pre post Hl. apply answers_sections; [done|]. simpl. rewrite length_app. lia. Qed.
#[export] Hint Resolve answers_rd_sections : reader.

(** The decoder always answers: the section loop of an update runs out of
    bytes before it runs out of fuel, for every buffer that fits in memory. *)
Theorem decode_logical_answers bytes :
  blen bytes <= i_max 64 -> decode_logical bytes <> Err (Io []).
Proof.
  intros Hl. assert (answers rd_logical) as Ha.
  { unfold rd_logical, rd_begin, rd_commit, rd_origin, rd_relation, rd_type, rd_insert, rd_update, rd_delete,
      rd_truncate, expect_tag. answering. }
  unfold decode_logical. specialize (Ha (lit "pgoutput") [] bytes Hl).
  change (at_ (lit "pgoutput") [] bytes) with (reader_new bytes (lit "pgoutput")) in Ha.
  destruct (rd_logical _) as [[m r]|e]; simpl; [done|]. congruence.
Qed.

(** ** Stream frames, positions and options *)

Definition wire_ok (m : WireMessage) : Prop :=
  match m with
  | XLogData s e c _ => u_ok 64 (lsn s) /\ u_ok 64 (lsn e) /\ i_ok 64 c
  | Keepalive e c _ => u_ok 64 (lsn e) /\ i_ok 64 c
  end.

Lemma run_step {A B} (m : R A) (k : A -> R B) what pre bs post a :
  reads m bs a -> blen (pre ++ bs ++ post) <= i_max 64 ->
  rd_bind m k (at_ what pre (bs ++ post)) = k a (at_ what (pre ++ bs) post).
Proof. intros Hr Hb. unfold rd_bind. by rewrite Hr. Qed.

Lemma wire_keepalive bytes e c rep :
  wire_ok (Keepalive e c rep) -> reads (rd_wire bytes) (encode_wire (Keepalive e c rep)) (Keepalive e c rep).
Proof.
  intros [He Hc]. unfold rd_wire. cbn [encode_wire]. step_with reads_u8. simpl Z.eqb. cbv iota.
  step_with reads_lsn; [done|]. step_with reads_i64; [done|].
  apply (reads_step _ _ _ [if rep then 1 else 0] [] (if rep then 1 else 0)); [apply reads_u8|done|].
  destruct rep; apply reads_ret.
Qed.

(** A stream frame decodes to itself, and the payload of a data frame is
    exactly the rest of the frame. *)
Theorem decode_wire_roundtrip m :
  wire_ok m -> blen (encode_wire m) <= i_max 64 -> decode_wire (encode_wire m) = Ok m.
Proof.
  intros Hm Hl. unfold decode_wire. change (reader_new ?b ?w) with (at_ w [] b).
  destruct m as [s e c d|e c rep].
  - destruct Hm as (Hs & He & Hc). unfold rd_wire. cbn [encode_wire] in *.
    rewrite (run_step _ _ _ _ _ _ 119 (reads_u8 119)) by done.
    change (119 =? 119) with true. cbv iota.
    rewrite (run_step _ _ _ _ _ _ s (reads_lsn s Hs)) by done.
    rewrite (run_step _ _ _ _ _ _ e (reads_lsn e He)) by (rewrite <-?app_assoc; exact Hl).
    rewrite (run_step _ _ _ _ _ _ c (reads_i64 c Hc)) by (rewrite <-?app_assoc; exact Hl).
    unfold at_. simpl rd_pos. cbn [rmap fst]. do 2 f_equal.
  - pose proof (wire_keepalive (encode_wire (Keepalive e c rep)) e c rep Hm (lit "replication") [] []) as Hr.
    rewrite app_nil_r in Hr. rewrite Hr by done. done.
Qed.

(** The fields of a status update, read back by the layout Postgres documents. *)
Definition rd_standby : R (Lsn * Lsn * Lsn * Z) :=
  read tag <- rd_u8; read written <- rd_lsn; read flushed <- rd_lsn; read applied <- rd_lsn;
  read clock <- rd_i64; read reply <- rd_u8;
  if (tag =? 114) && (reply =? 0) then rd_ret (written, flushed, applied, clock)
  else rd_err (fun _ => Io (lit "not a status update")).

(** A standby status update carries the three positions and the clock it
    was given, in that order, and never asks for a reply. *)
Theorem standby_status_update_layout written flushed applied clock :
  u_ok 64 (lsn written) -> u_ok 64 (lsn flushed) -> u_ok 64 (lsn applied) -> i_ok 64 clock ->
  reads rd_standby (standby_status_update written flushed applied clock) (written, flushed, applied, clock) /\
  blen (standby_status_update written flushed applied clock) = 34.
Proof.
  intros Hw Hf Ha Hc. split.
  - unfold rd_standby, standby_status_update. step_with reads_u8.
    do 3 (step_with reads_lsn; [done|]). step_with reads_i64; [done|].
    apply (reads_step _ _ _ [0] [] 0); [apply reads_u8|done|apply reads_ret].
  - unfold standby_status_update. by rewrite !blen_app, !blen_be.
Qed.

(** Halves of a [u64]. *)
Lemma halves n : u_ok 64 n ->
  Z.lor (wrapu 64 (Z.shiftl (Z.shiftr n 32) 32)) (Z.land n 4294967295) = n.
Proof.
  intros Hn. unfold u_ok, u_max in Hn. change 4294967295 with (Z.ones 32). unfold wrapu.
  rewrite Z.mod_small.
  - apply Z.bits_inj'. intros i Hi. rewrite Z.lor_spec, Z.land_spec.
    destruct (Z.ltb_spec i 32).
    + rewrite Z.shiftl_spec_low, Z.ones_spec_low by lia. simpl. by rewrite andb_true_r.
    + rewrite Z.shiftl_spec, Z.shiftr_spec, Z.ones_spec_high by lia.
      rewrite andb_false_r, orb_false_r. f_equal. lia.
  - rewrite Z.shiftl_mul_pow2, Z.shiftr_div_pow2 by lia.
    pose proof (Z.mul_div_le n (2 ^ 32) ltac:(lia)). pose proof (Z.div_pos n (2 ^ 32) ltac:(lia) ltac:(lia)). lia.
Qed.

Lemma show_hex_no_char n k : 0 <= n -> (k < 48 \/ 57 < k < 65 \/ 90 < k) -> k ∉ show_hex n.
Proof.
  intros Hn Hk Hin. pose proof (show_radix_digits 16 n ltac:(lia) Hn) as Hd.
  rewrite Forall_forall in Hd. by apply (is_digit_of_ne 16 k k (Hd _ Hin)).
Qed.

Lemma show_hex_no_space n : 0 <= n -> Forall (fun c => is_whitespace c = false) (show_hex n).
Proof.
  intros Hn. pose proof (show_radix_digits 16 n ltac:(lia) Hn) as Hd. eapply Forall_impl; [exact Hd|].
  intros c (d & Hd' & ->). unfold digit_char, is_whitespace. destruct (Z.ltb_spec d 10); lia.
Qed.

(** A log position survives both of its spellings: printing and parsing it,
    and the [i64] the checkpoint stores. *)
Theorem lsn_roundtrip l :
  u_ok 64 (lsn l) -> lsn_parse (lsn_show l) = Ok l /\ from_i64 (as_i64 l) = l.
Proof.
  destruct l as [n]. simpl. intros Hn. split.
  - unfold lsn_parse, lsn_show, fmt. simpl lsn. cbn [concat]. rewrite app_nil_r.
    assert (u_ok 64 (Z.shiftr n 32)) as Hh.
    { unfold u_ok, u_max in *. rewrite Z.shiftr_div_pow2 by lia. split; [apply Z.div_pos; lia|].
      pose proof (Z.div_le_upper_bound n (2 ^ 32) n ltac:(lia)). lia. }
    assert (u_ok 64 (Z.land n 4294967295)) as Hlo.
    { unfold u_ok, u_max in *. change 4294967295 with (Z.ones 32). rewrite Z.land_ones by lia.
      pose proof (Z.mod_pos_bound n (2 ^ 32) ltac:(lia)). lia. }
    unfold u_ok in Hh, Hlo. rewrite trim_id.
    2:{ rewrite !Forall_app. split_and!; [apply show_hex_no_space; lia| |apply show_hex_no_space; lia].
        by repeat constructor. }
    change (lit "/" ++ ?s) with (47 :: s). rewrite split_once_app by (apply show_hex_no_char; lia). cbn [ok_or rbind].
    rewrite (parse_u_show_radix 16 (u_max 64)) by lia. cbn [ok_or rbind].
    rewrite (parse_u_show_radix 16 (u_max 64)) by lia. cbn [ok_or rbind]. by rewrite halves.
  - unfold from_i64, as_i64, wraps, wrapu. simpl. f_equal. unfold u_ok, u_max in Hn.
    rewrite Zminus_mod, Zmod_mod, <-Zminus_mod.
    replace (n + 2 ^ (64 - 1) - 2 ^ (64 - 1)) with n by lia. apply Z.mod_small. lia.
Qed.

(** Every TLS mode is printed as a spelling the parser accepts for it, and
    only [disable] turns encryption off. *)
Theorem tls_mode_roundtrip m :
  tls_parse (tls_show m) = Ok m /\ (tls_enabled m = false <-> m = Disable).
Proof. destruct m; by vm_compute. Qed.

(** ** A concrete update message *)
Module PgRuns.

Definition toast_update : LogicalMessage :=
  Update 16384 (Some [TextValue (lit "7")]) None [TextValue (lit "7"); UnchangedToast; Null].

Lemma toast_update_ok : message_ok toast_update.
Proof.
  assert (forall s, blen s <= 1 -> value_ok (TextValue s)) as Hv.
  { intros s Hs. cbn. assert (1 <= i_max 32) by (by vm_compute). lia. }
  assert (tuple_ok [TextValue (lit "7")]) as H1.
  { split; [by vm_compute|]. apply Forall_singleton, Hv. done. }
  assert (tuple_ok [TextValue (lit "7"); UnchangedToast; Null]) as H2.
  { split; [by vm_compute|]. apply Forall_cons; split; [by apply Hv|].
    apply Forall_cons; split; [exact I|]. apply Forall_singleton. exact I. }
  refine (conj _ (conj H1 (conj I H2))). by vm_compute.
Qed.

Lemma decode_logical_roundtrip_witness :
  decode_logical (encode_logical toast_update ++ [1; 2]) = Ok toast_update.
Proof. exact (decode_logical_roundtrip toast_update [1; 2] toast_update_ok ltac:(by vm_compute)). Defined.

Lemma truncated_message_refused_witness :
  is_ok (decode_logical (take 20 (encode_logical toast_update))) = false.
Proof.
  exact (truncated_message_refused toast_update 20 toast_update_ok ltac:(by vm_compute) ltac:(vm_compute; lia)).
Defined.

Lemma decode_logical_answers_witness : decode_logical [85; 0; 0; 0; 1; 75; 0; 0] <> Err (Io []).
Proof. exact (decode_logical_answers [85; 0; 0; 0; 1; 75; 0; 0] ltac:(by vm_compute)). Defined.

Lemma decode_wire_roundtrip_witness :
  decode_wire (encode_wire (XLogData {| lsn := 5 |} {| lsn := 9 |} (-3) [66; 1])) =
  Ok (XLogData {| lsn := 5 |} {| lsn := 9 |} (-3) [66; 1]).
Proof.
  exact (decode_wire_roundtrip (XLogData {| lsn := 5 |} {| lsn := 9 |} (-3) [66; 1])
           ltac:(by vm_compute) ltac:(by vm_compute)).
Defined.

Lemma standby_status_update_layout_witness :
  reads rd_standby (standby_status_update {| lsn := 3 |} {| lsn := 2 |} {| lsn := 1 |} 0)
    ({| lsn := 3 |}, {| lsn := 2 |}, {| lsn := 1 |}, 0) /\
  blen (standby_status_update {| lsn := 3 |} {| lsn := 2 |} {| lsn := 1 |} 0) = 34.
Proof.
  exact (standby_status_update_layout {| lsn := 3 |} {| lsn := 2 |} {| lsn := 1 |} 0
           ltac:(by vm_compute) ltac:(by vm_compute) ltac:(by vm_compute) ltac:(by vm_compute)).
Defined.

Lemma lsn_roundtrip_witness :
  lsn_parse (lsn_show {| lsn := 97500059720 |}) = Ok {| lsn := 97500059720 |} /\
  from_i64 (as_i64 {| lsn := 97500059720 |}) = {| lsn := 97500059720 |}.
Proof. exact (lsn_roundtrip {| lsn := 97500059720 |} ltac:(by vm_compute)). Defined.

End PgRuns.
