(* ===== verification/PgCdc.v ===== *)
(** * PgCdc: the Postgres change-data-capture source

    [oxidant-streaming/src/postgres_cdc.rs]: the options, the column types,
    and [PostgresCdcSource] — opening the slot, the initial snapshot, decoding
    the log forward to a commit boundary, planning, polling and confirming.

    The server is the class [CdcWire], the trait of the same name: every call
    may answer anything and change the world.  The Arrow builders and the hex
    crate are the class [CdcLib].  A loop that reads until the server has no
    more to say has fuel; [Crashed] stands for fuel that ran out, and
    [PgStream.v] shows that it does not when the server's answers end. *)

From S2P Require Import Prelude Text Effects Source PgOutput.

(** ** Operations and schemas *)

Inductive Op := OpSnapshot | OpInsert | OpUpdate | OpDelete | OpTruncate.
#[export] Instance Op_eq_dec : EqDecision Op.
Proof. solve_decision. Defined.

Definition op_code (o : Op) : str :=
  match o with
  | OpSnapshot => lit "s" | OpInsert => lit "i" | OpUpdate => lit "u" | OpDelete => lit "d" | OpTruncate => lit "t"
  end.

Definition publication_name (o : Op) : option str :=
  match o with
  | OpInsert => Some (lit "insert") | OpUpdate => Some (lit "update") | OpDelete => Some (lit "delete")
  | OpTruncate => Some (lit "truncate") | OpSnapshot => None
  end.

Definition op_parse (text : str) : option Op :=
  let t := to_ascii_lowercase (trim text) in
  if bool_decide (t = lit "insert" \/ t = lit "i") then Some OpInsert
  else if bool_decide (t = lit "update" \/ t = lit "u") then Some OpUpdate
  else if bool_decide (t = lit "delete" \/ t = lit "d") then Some OpDelete
  else if bool_decide (t = lit "truncate" \/ t = lit "t") then Some OpTruncate
  else None.

(** The Arrow types this source emits. *)
Inductive CdcType :=
  | Boolean | Int32 | Int64 | Float32 | Float64 | Binary | Date32
  | Time64Micros
  | TimestampMicros (tz : option str)
  | Decimal128 (precision scale : Z)
  | Utf8.

Record ColumnSchema := {
  col_name : str;
  type_oid : Z;
  type_modifier : Z;
  data_type : CdcType;
  nullable : bool;
  warning : option str;
}.

Record TableSchema := {
  ts_schema : str;
  ts_table : str;
  ts_columns : list ColumnSchema;
  ts_keys : list str;
  ts_replica_identity : Z;
}.

Definition table_qualified (t : TableSchema) : str := fmt [ts_schema t; lit "."; ts_table t].

(** [decimal_scale]: [atttypmod] for [numeric(p,s)] is [((p << 16) | s) + 4]. *)
Definition decimal_scale (type_modifier : Z) : option Z :=
  if type_modifier <? 4 then None
  else
    let packed := type_modifier - 4 in
    let precision := Z.land (Z.shiftr packed 16) 65535 in
    let scale := Z.land packed 65535 in
    if (38 <? precision) || (precision <? scale) then None else Some (wraps 8 scale).

Definition numeric_warning : str :=
  lit "unconstrained `numeric` has no scale to map to a decimal; emitting its text form. Declare `numeric(p,s)` on the source column for a typed value.".

Definition arrow_type_for (type_oid type_modifier : Z) (type_name : str) (type_category : Z) : CdcType * option str :=
  if type_oid =? 16 then (Boolean, None)
  else if (type_oid =? 21) || (type_oid =? 23) then (Int32, None)
  else if (type_oid =? 20) || (type_oid =? 26) || (type_oid =? 5069) then (Int64, None)
  else if type_oid =? 700 then (Float32, None)
  else if type_oid =? 701 then (Float64, None)
  else if type_oid =? 17 then (Binary, None)
  else if type_oid =? 1082 then (Date32, None)
  else if type_oid =? 1083 then (Time64Micros, None)
  else if type_oid =? 1114 then (TimestampMicros None, None)
  else if type_oid =? 1184 then (TimestampMicros (Some (lit "UTC")), None)
  else if type_oid =? 1700 then
    match decimal_scale type_modifier with
    | Some scale => (Decimal128 38 scale, None)
    | None => (Utf8, Some numeric_warning)
    end
  else if type_category =? 65 then
    (Utf8, Some (fmt [lit "array type `"; type_name; lit "` is emitted as its Postgres text form (`{a,b}`)"]))
  else (Utf8, None).

Record Field := { f_name : str; f_type : CdcType; f_nullable : bool }.

Definition OP_COLUMN : str := lit "__oxidant_op".
Definition LSN_COLUMN : str := lit "__oxidant_lsn".
Definition TS_COLUMN : str := lit "__oxidant_ts".

Definition emitted_schema (columns : list ColumnSchema) : list Field :=
  ((fun c => {| f_name := col_name c; f_type := data_type c; f_nullable := true |}) <$> columns) ++
  [{| f_name := OP_COLUMN; f_type := Utf8; f_nullable := false |};
   {| f_name := LSN_COLUMN; f_type := Int64; f_nullable := false |};
   {| f_name := TS_COLUMN; f_type := TimestampMicros None; f_nullable := true |}].

(** ** Options *)

Record PgConnectConfig := {
  pc_host : str; pc_port : Z; pc_database : str; pc_user : str;
  pc_password : option str; pc_tls : TlsMode; pc_tls_ca : option str;
}.

(** Durations are milliseconds; a [BTreeSet] is the list of its elements. *)
Record PostgresCdcOptions := {
  connect : PgConnectConfig;
  publication : str;
  slot : str;
  opt_tables : list str;
  exclude_columns : list str;
  opt_keys : list str;
  publish_ops : list Op;
  max_slot_bytes : Z;
  max_batch_bytes : Z;
  snapshot_batch_rows : Z;
  idle : Z;
  status_interval : Z;
  transaction_warn_bytes : Z;
  slot_wait : Z;
  log_dir : option str;
  opt_name : str;
}.

Definition SOURCE_NAME : str := lit "postgres_cdc".
Definition SNAPSHOT_KEY : str := lit "snapshot".
Definition LSN_KEY : str := lit "lsn".
Definition CONSISTENT_POINT_KEY : str := lit "consistent_point".
Definition DEFAULT_MAX_SLOT_BYTES : Z := 10 * 1024 * 1024 * 1024.
Definition DEFAULT_MAX_BATCH_BYTES : Z := 32 * 1024 * 1024.
Definition DEFAULT_SNAPSHOT_BATCH_ROWS : Z := 65536.
Definition DEFAULT_SLOT_WAIT_MS : Z := 30000.
Definition TRANSACTION_WARN_BYTES : Z := 1024 * 1024 * 1024.
Definition DEFAULT_STATUS_MS : Z := 20000.
Definition DEFAULT_IDLE_MS : Z := 500.

Definition KNOWN_OPTIONS : list str :=
  [lit "host"; lit "port"; lit "database"; lit "user"; lit "password_env"; lit "tls"; lit "tls_ca";
   lit "publication"; lit "slot"; lit "tables"; lit "exclude_columns"; lit "keys"; lit "publish_ops";
   lit "max_slot_bytes"; lit "max_batch_bytes"; lit "snapshot_batch_rows"].

(** [qualify]. *)
Definition qualify (entry : str) : result Error str :=
  let entry := trim entry in
  let '(schema, table) := match split_once 46 entry with
                          | Some (schema, table) => (trim schema, trim table)
                          | None => (lit "public", entry)
                          end in
  if bool_decide (schema = []) || bool_decide (table = []) || contains table [46] then
    Err (Plan (fmt [lit "postgres_cdc: `tables:` entry `"; entry; lit "` is not a `schema.table` name"]))
  else Ok (fmt [to_ascii_lowercase schema; lit "."; to_ascii_lowercase table]).

Section Options.
Variable options : gmap (list Z) str.
(** [std::env::var]: [None] when it is not set or not Unicode. *)
Variable env : str -> option str.

Definition get_opt (key : str) : option str :=
  match trim <$> (options !! key) with
  | Some v => if bool_decide (v = []) then None else Some v
  | None => None
  end.
Definition required (key : str) : result Error str :=
  ok_or (get_opt key) (Plan (fmt [lit "postgres_cdc: `"; key; lit "` is required in `options:`"])).
Definition number (key : str) (dflt : Z) : result Error Z :=
  match get_opt key with
  | None => Ok dflt
  | Some text =>
      ok_or (parse_u 10 (u_max 64) text)
        (Plan (fmt [lit "postgres_cdc: `"; key; lit ": "; text; lit "` is not a number of bytes"]))
  end.
Definition list_opt (key : str) : list str :=
  match get_opt key with
  | Some v => List.filter (fun i => negb (bool_decide (i = []))) (trim <$> split_char 44 v)
  | None => []
  end.

Fixpoint unknown_key (keys : list str) : option str :=
  match keys with
  | [] => None
  | key :: keys =>
      if negb (bool_decide (key ∈ KNOWN_OPTIONS)) && negb (starts_with key (lit "oxidant.")) then Some key
      else unknown_key keys
  end.

(** [collect::<Result<Vec<_>>>()]. *)
Fixpoint collect {A B} (f : A -> result Error B) (l : list A) : result Error (list B) :=
  match l with
  | [] => Ok []
  | x :: l => let! y := f x in let! ys := collect f l in Ok (y :: ys)
  end.

Definition parse_publish_op (item : str) : result Error Op :=
  ok_or (op_parse item)
    (Plan (fmt [lit "postgres_cdc: `publish_ops` has `"; item; lit "` (expected any of insert, update, delete, truncate)"])).

Definition parse_publish_ops : result Error (list Op) :=
  match get_opt (lit "publish_ops") with
  | None => Ok [OpInsert; OpUpdate; OpDelete; OpTruncate]
  | Some _ =>
      let! ops := collect parse_publish_op (list_opt (lit "publish_ops")) in
      if bool_decide (ops = [])
      then Err (Plan (fmt [lit "postgres_cdc: `publish_ops:` is empty "; [8212]; lit " the stream would carry nothing"]))
      else Ok ops
  end.

Definition parse_port : result Error Z :=
  match get_opt (lit "port") with
  | None => Ok 5432
  | Some text =>
      ok_or (parse_u 10 (u_max 16) text) (Plan (fmt [lit "postgres_cdc: `port: "; text; lit "` is not a port number"]))
  end.

Definition parse_password : result Error (option str) :=
  match get_opt (lit "password_env") with
  | Some variable =>
      let! v := ok_or (env variable)
        (Plan (fmt [lit "postgres_cdc: `password_env: "; variable; lit "` names an environment variable that is not set"])) in
      Ok (Some v)
  | None => Ok None
  end.

Definition env_millis (key : str) (dflt : Z) : Z := default dflt (env key ≫= parse_u 10 (u_max 64)).

(** [PostgresCdcOptions::from_options]; the options are looked up in the order
    of the source, so the first error is the same. *)
Definition from_options : result Error PostgresCdcOptions :=
  match unknown_key (fst <$> map_to_list options) with
  | Some key =>
      Err (Plan (fmt [lit "postgres_cdc: `"; key; lit "` is not a source option (known: "; join (lit ", ") KNOWN_OPTIONS; lit ")"]))
  | None =>
      let! tables := collect qualify (list_opt (lit "tables")) in
      if bool_decide (tables = []) then
        Err (Plan (lit "postgres_cdc: `tables:` must name at least one `schema.table` (or `schema.*`)"))
      else
        let! password := parse_password in
        let! ops := parse_publish_ops in
        let! port := parse_port in
        let! host := required (lit "host") in
        let! database := required (lit "database") in
        let! user := required (lit "user") in
        let! tls := tls_parse (default (lit "verify-full") (get_opt (lit "tls"))) in
        let! publication := required (lit "publication") in
        let! slot := required (lit "slot") in
        let! max_slot := number (lit "max_slot_bytes") DEFAULT_MAX_SLOT_BYTES in
        let! max_batch := number (lit "max_batch_bytes") DEFAULT_MAX_BATCH_BYTES in
        let! rows := number (lit "snapshot_batch_rows") DEFAULT_SNAPSHOT_BATCH_ROWS in
        Ok {| connect := {| pc_host := host; pc_port := port; pc_database := database; pc_user := user;
                            pc_password := password; pc_tls := tls; pc_tls_ca := get_opt (lit "tls_ca") |};
              publication := publication; slot := slot; opt_tables := tables;
              exclude_columns := to_ascii_lowercase <$> list_opt (lit "exclude_columns");
              opt_keys := list_opt (lit "keys"); publish_ops := ops;
              max_slot_bytes := max_slot; max_batch_bytes := max_batch; snapshot_batch_rows := Z.max rows 1;
              idle := env_millis (lit "OXIDANT_PG_CDC_IDLE_MS") DEFAULT_IDLE_MS;
              status_interval := env_millis (lit "OXIDANT_PG_CDC_STATUS_MS") DEFAULT_STATUS_MS;
              transaction_warn_bytes := TRANSACTION_WARN_BYTES;
              slot_wait := env_millis (lit "OXIDANT_PG_CDC_SLOT_WAIT_MS") DEFAULT_SLOT_WAIT_MS;
              log_dir := options !! lit "oxidant.connector.log_dir";
              opt_name := default SOURCE_NAME (options !! lit "oxidant.connector.name") |}
  end.

End Options.

(** [publish_list]: the set is iterated in the order of the variants. *)
Definition publish_list (o : PostgresCdcOptions) : str :=
  join (lit ", ") (omap publication_name
    (List.filter (fun op => bool_decide (op ∈ publish_ops o)) [OpSnapshot; OpInsert; OpUpdate; OpDelete; OpTruncate])).

(** ** The server and the libraries *)

Record SlotOpen := { consistent_point : Lsn; existed : bool; so_snapshot_open : bool }.
Record SlotMetrics := { retained_bytes : Z; server_flush : Lsn; confirmed_flush : option Lsn }.

Definition cdc_row : Type := list (option str).

(** [trait CdcWire], and the process clock in milliseconds. *)
Class CdcWire (W : Type) := {
  open_slot : bool -> W -> result Error SlotOpen * W;
  snapshot_open : TableSchema -> W -> result Error unit * W;
  snapshot_fetch : Z -> W -> result Error (list cdc_row) * W;
  snapshot_close : W -> result Error unit * W;
  end_snapshot : W -> result Error unit * W;
  start_stream : Lsn -> W -> result Error unit * W;
  next_wire : Z -> W -> result Error (option WireMessage) * W;
  confirm : Lsn -> Lsn -> W -> result Error bool * W;
  slot_metrics : W -> result Error SlotMetrics * W;
  instant_now : W -> Z * W;
}.

(** [build_array] (the conversion of a column of Postgres text to an Arrow
    array, with what it could not represent), the builders of the three
    metadata columns, [RecordBatch::try_new] and [hex::encode]. *)
Class CdcLib (Array Batch : Type) := {
  build_array : CdcType -> str -> list (option str) -> result Error (Array * option (str * Z));
  string_array : list str -> Array;
  int64_array : list Z -> Array;
  timestamp_array : list (option Z) -> Array;
  try_new : list Field -> list Array -> result str Batch;
  hex_encode : list Z -> str;
}.

(** ** The state of the source *)

Record ChangeEvent := {
  ev_op : Op;
  ev_lsn : Z;
  ts_micros : option Z;
  values : cdc_row;
}.

(** The entries of the connector log. *)
Inductive LogEvent :=
  | SnapshotInterrupted (tables_already_loaded : Z)
  | SnapshotStart (point : Lsn)
  | SnapshotRestart (planned_at : option Z) (point : Lsn)
  | SnapshotDone (table : str) (rows : Z) (point : Lsn) (counted : bool)
  | SlotMetricsRead (m : SlotMetrics) (pos : Lsn) (lag_bytes : Z)
  | LogError (e : Error)
  | StandbyStatus (reason : str) (confirmed : Lsn) (sent : bool)
  | LargeTransaction (buffered_bytes changes : Z)
  | SchemaChange (table : str) (added removed : list str)
  | ValueDropped (column reason : str) (rows : Z)
  | Replay (start_lsn end_lsn : Lsn)
  | BatchRead (start_lsn end_lsn : Lsn) (rows : Z)
  | Committed (confirmed : Lsn) (snapshot_tables_done : Z) (sent : bool).

(** What the source knows of the publisher's relations. *)
Record Shapes := {
  relations : gmap Z Relation;
  projections : gmap Z (list (option nat));
  reported_drift : gset Z;
}.

Record PostgresCdcSource (W : Type) := {
  wire : W;
  log : list LogEvent;
  shapes : Shapes;
  reported_dropped : gset (list Z);
  snapshot_done : Z;
  position : Lsn;
  opened : bool;
  snapshot_is_open : bool;
  stream_at : option Lsn;
  planned : option (BatchRange * list ChangeEvent);
  last_status : Z;
}.
Arguments wire {W} _.
Arguments log {W} _.
Arguments shapes {W} _.
Arguments reported_dropped {W} _.
Arguments snapshot_done {W} _.
Arguments position {W} _.
Arguments opened {W} _.
Arguments snapshot_is_open {W} _.
Arguments stream_at {W} _.
Arguments planned {W} _.
Arguments last_status {W} _.

#[export] Instance Lsn_eq_dec : EqDecision Lsn.
Proof. solve_decision. Defined.

Definition lsn_max (a b : Lsn) : Lsn := if lsn a <? lsn b then b else a.

(** Assignments to the fields. *)
Section Setters.
Context {W : Type}.
Implicit Types s : PostgresCdcSource W.

Definition set_wire (w : W) s : PostgresCdcSource W :=
  {| wire := w; log := log s; shapes := shapes s; reported_dropped := reported_dropped s;
     snapshot_done := snapshot_done s; position := position s; opened := opened s;
     snapshot_is_open := snapshot_is_open s; stream_at := stream_at s; planned := planned s; last_status := last_status s |}.
Definition add_log (e : LogEvent) s : PostgresCdcSource W :=
  {| wire := wire s; log := log s ++ [e]; shapes := shapes s; reported_dropped := reported_dropped s;
     snapshot_done := snapshot_done s; position := position s; opened := opened s;
     snapshot_is_open := snapshot_is_open s; stream_at := stream_at s; planned := planned s; last_status := last_status s |}.
Definition set_shapes (h : Shapes) s : PostgresCdcSource W :=
  {| wire := wire s; log := log s; shapes := h; reported_dropped := reported_dropped s;
     snapshot_done := snapshot_done s; position := position s; opened := opened s;
     snapshot_is_open := snapshot_is_open s; stream_at := stream_at s; planned := planned s; last_status := last_status s |}.
Definition set_dropped (d : gset (list Z)) s : PostgresCdcSource W :=
  {| wire := wire s; log := log s; shapes := shapes s; reported_dropped := d;
     snapshot_done := snapshot_done s; position := position s; opened := opened s;
     snapshot_is_open := snapshot_is_open s; stream_at := stream_at s; planned := planned s; last_status := last_status s |}.
Definition set_done (n : Z) s : PostgresCdcSource W :=
  {| wire := wire s; log := log s; shapes := shapes s; reported_dropped := reported_dropped s;
     snapshot_done := n; position := position s; opened := opened s;
     snapshot_is_open := snapshot_is_open s; stream_at := stream_at s; planned := planned s; last_status := last_status s |}.
Definition set_position (p : Lsn) s : PostgresCdcSource W :=
  {| wire := wire s; log := log s; shapes := shapes s; reported_dropped := reported_dropped s;
     snapshot_done := snapshot_done s; position := p; opened := opened s;
     snapshot_is_open := snapshot_is_open s; stream_at := stream_at s; planned := planned s; last_status := last_status s |}.
Definition set_opened (b : bool) s : PostgresCdcSource W :=
  {| wire := wire s; log := log s; shapes := shapes s; reported_dropped := reported_dropped s;
     snapshot_done := snapshot_done s; position := position s; opened := b;
     snapshot_is_open := snapshot_is_open s; stream_at := stream_at s; planned := planned s; last_status := last_status s |}.
Definition set_snapshot_open (b : bool) s : PostgresCdcSource W :=
  {| wire := wire s; log := log s; shapes := shapes s; reported_dropped := reported_dropped s;
     snapshot_done := snapshot_done s; position := position s; opened := opened s;
     snapshot_is_open := b; stream_at := stream_at s; planned := planned s; last_status := last_status s |}.
Definition set_stream_at (l : option Lsn) s : PostgresCdcSource W :=
  {| wire := wire s; log := log s; shapes := shapes s; reported_dropped := reported_dropped s;
     snapshot_done := snapshot_done s; position := position s; opened := opened s;
     snapshot_is_open := snapshot_is_open s; stream_at := l; planned := planned s; last_status := last_status s |}.
Definition set_planned (p : option (BatchRange * list ChangeEvent)) s : PostgresCdcSource W :=
  {| wire := wire s; log := log s; shapes := shapes s; reported_dropped := reported_dropped s;
     snapshot_done := snapshot_done s; position := position s; opened := opened s;
     snapshot_is_open := snapshot_is_open s; stream_at := stream_at s; planned := p; last_status := last_status s |}.
Definition set_last_status (t : Z) s : PostgresCdcSource W :=
  {| wire := wire s; log := log s; shapes := shapes s; reported_dropped := reported_dropped s;
     snapshot_done := snapshot_done s; position := position s; opened := opened s;
     snapshot_is_open := snapshot_is_open s; stream_at := stream_at s; planned := planned s; last_status := t |}.

End Setters.

(** [String::from_utf8_lossy]: every maximal invalid sequence becomes U+FFFD. *)
Fixpoint lossy (fuel : nat) (bs : list Z) : str :=
  match fuel with
  | O => []
  | S fuel =>
      match from_utf8 bs with
      | Ok s => s
      | Err e =>
          let valid := match from_utf8 (take (Z.to_nat (valid_up_to e)) bs) with Ok s => s | Err _ => [] end in
          valid ++ [65533] ++
          match error_len e with
          | Some n => lossy fuel (drop (Z.to_nat (valid_up_to e + n)) bs)
          | None => []
          end
      end
  end.
Definition from_utf8_lossy (bs : list Z) : str := lossy (S (length bs)) bs.

(** [quote_literal] of [pg_replication.rs]: embedded quotes are doubled. *)
Definition quote_literal (text : str) : str :=
  [39] ++ (text ≫= (fun c => if c =? 39 then [39; 39] else [c])) ++ [39].

(** [[T]::chunks]. *)
Fixpoint chunks_fuel {A} (fuel : nat) (n : nat) (l : list A) : list (list A) :=
  match fuel, l with
  | S fuel, _ :: _ => take n l :: chunks_fuel fuel n (drop n l)
  | _, _ => []
  end.
Definition chunks {A} (n : nat) (l : list A) : list (list A) := chunks_fuel (length l) n l.

(** ** The source *)

Section Cdc.
Context {W Array Batch : Type} `{!CdcWire W} `{!CdcLib Array Batch}.
Variable options : PostgresCdcOptions.
Variable tables : list TableSchema.
(** The number of frames, or of snapshot slices, one call may read. *)
Variable fuel : nat.

Notation Src := (PostgresCdcSource W).
Definition C := M (PostgresCdcSource W).

(** [with_wire]: the schema is that of the first table. *)
Definition schema : list Field :=
  emitted_schema (match tables with t :: _ => ts_columns t | [] => [] end).

Definition with_wire (w : W) : Src :=
  let '(t, w) := instant_now w in
  {| wire := w; log := []; shapes := {| relations := ∅; projections := ∅; reported_drift := ∅ |};
     reported_dropped := ∅; snapshot_done := 0; position := {| lsn := 0 |}; opened := false;
     snapshot_is_open := false; stream_at := None; planned := None; last_status := t |}.

(** A call on the wire; its error is the call's. *)
Definition ask {A} (f : W -> result Error A * W) : C A := fun s =>
  let '(r, w) := f (wire s) in
  (match r with Ok a => Done a | Err e => Failed e end, set_wire w s).
Definition event (e : LogEvent) : C unit := modify (add_log e).
Definition now : C Z := fun s => let '(t, w) := instant_now (wire s) in (Done t, set_wire w s).
Definition out_of_fuel {A} : C A := fun s => (Crashed, s).

Definition table_count : Z := Z.of_nat (length tables).

(** *** Opening the slot *)

Definition slot_lost (s : Src) : Error :=
  Execution (fmt [lit "postgres_cdc: replication slot `"; slot options; lit "` no longer exists, but this pipeline has committed up to LSN ";
                  lsn_show (position s);
                  lit ". WAL written since then may already be recycled, so resuming would silently skip changes. Re-snapshot by deleting this table's checkpoint directory, then restart the pipeline."]).

(** The snapshot is complete as far as this source knows. *)
Definition restored_complete (s : Src) : bool :=
  negb (bool_decide (tables = [])) && (table_count <=? snapshot_done s).

(** [ensure_open]. *)
Definition ensure_open : C unit :=
  do! s <- get;
  if opened s then ret tt
  else
    let complete := restored_complete s in
    run! (if negb complete && (0 <? snapshot_done s) then event (SnapshotInterrupted (snapshot_done s)) else ret tt);
    do! o <- ask (open_slot (negb complete));
    run! (if complete then
            if existed o then ret tt else (do! s <- get; throw (slot_lost s))
          else
            run! modify (set_done 0);
            run! modify (set_position (consistent_point o));
            run! modify (set_snapshot_open (so_snapshot_open o));
            run! modify (set_stream_at None);
            event (SnapshotStart (consistent_point o)));
    modify (set_opened true).

(** [bytes]: the rendering of a byte count, which is text of an error only. *)
Variable bytes : Z -> str.
Definition slot_too_big (m : SlotMetrics) : Error :=
  Execution (fmt [lit "postgres_cdc: replication slot `"; slot options; lit "` is holding "; bytes (retained_bytes m);
                  lit " of WAL, over the `max_slot_bytes` limit of "; bytes (max_slot_bytes options);
                  lit ". The source database's disk fills next, so this pipeline stops rather than let it. Drain the backlog (or raise `max_slot_bytes:`); if the pipeline is being retired, drop the slot with `SELECT pg_drop_replication_slot(";
                  quote_literal (slot options); lit ");`."]).

(** [guard_slot]. *)
Definition guard_slot : C SlotMetrics :=
  do! m <- ask slot_metrics;
  do! s <- get;
  run! event (SlotMetricsRead m (position s) (sat_subu (lsn (server_flush m)) (lsn (position s))));
  if max_slot_bytes options <? retained_bytes m then
    run! event (LogError (slot_too_big m)); throw (slot_too_big m)
  else ret m.

(** [confirm_position]: the only call of [confirm]. *)
Definition confirm_position : C bool :=
  do! s <- get;
  do! sent <- ask (confirm (position s) (position s));
  do! t <- now;
  run! modify (set_last_status t);
  ret sent.

Definition confirm_logged (reason : str) : C unit :=
  do! sent <- confirm_position;
  do! s <- get;
  event (StandbyStatus reason (position s) sent).

(** [heartbeat]. *)
Definition heartbeat : C unit :=
  do! t <- now;
  do! s <- get;
  if t - last_status s <? status_interval options then ret tt else confirm_logged (lit "keepalive").

(** [finish_snapshot]. *)
Definition finish_snapshot : C unit :=
  do! s <- get;
  if negb (snapshot_is_open s) || bool_decide (tables = []) || (snapshot_done s <? table_count) then ret tt
  else
    run! ask end_snapshot;
    modify (set_snapshot_open false).

(** [ensure_stream]. *)
Definition ensure_stream (start : Lsn) : C unit :=
  run! finish_snapshot;
  do! s <- get;
  if bool_decide (stream_at s = Some start) then ret tt
  else
    do! r <- try_ (ask (start_stream start));
    match r with
    | Err e => run! modify (set_stream_at None); throw e
    | Ok _ => modify (set_stream_at (Some start))
    end.

(** *** Relations and rows *)

Definition emitted_names : list str :=
  List.filter (fun n => negb (bool_decide (n ∈ [OP_COLUMN; LSN_COLUMN; TS_COLUMN]))) (f_name <$> schema).

Definition find_table (r : Relation) : option TableSchema :=
  List.find (fun t => bool_decide (table_qualified t = qualified r)) tables.

(** [iter().position(..)]. *)
Definition index_where (p : str -> bool) (l : list str) : option nat := fst <$> list_find (fun n => p n = true) l.

Definition projection_of (r : Relation) : list (option nat) :=
  (fun c => index_where (fun n => bool_decide (n = rc_name c)) emitted_names) <$> rel_columns r.

Definition added_columns (t : TableSchema) (r : Relation) : list str :=
  List.filter (fun n => negb (bool_decide (to_ascii_lowercase n ∈ exclude_columns options)))
    (rc_name <$> List.filter (fun c => negb (bool_decide (rc_name c ∈ col_name <$> ts_columns t))) (rel_columns r)).
Definition removed_columns (t : TableSchema) (r : Relation) : list str :=
  List.filter (fun n => negb (bool_decide (n ∈ rc_name <$> rel_columns r))) (col_name <$> ts_columns t).

Definition learn (r : Relation) (h : Shapes) : Shapes :=
  {| relations := <[rel_oid r := r]> (relations h);
     projections := <[rel_oid r := projection_of r]> (projections h);
     reported_drift := reported_drift h |}.

(** [remember]. *)
Definition remember (r : Relation) : C unit :=
  match find_table r with
  | None => ret tt
  | Some t =>
      let added := added_columns t r in
      let dropped := removed_columns t r in
      do! s <- get;
      run! (if negb (bool_decide (added = []) && bool_decide (dropped = [])) &&
               negb (bool_decide (rel_oid r ∈ reported_drift (shapes s)))
            then
              run! modify (set_shapes {| relations := relations (shapes s); projections := projections (shapes s);
                                         reported_drift := {[ rel_oid r ]} ∪ reported_drift (shapes s) |});
              event (SchemaChange (qualified r) added dropped)
            else ret tt);
      do! s <- get;
      modify (set_shapes (learn r (shapes s)))
  end.

Definition emitted_columns : nat := (length schema - 3)%nat.

Definition datum_text (d : TupleData) : option str :=
  match d with
  | TextValue b => Some (from_utf8_lossy b)
  | BinaryValue b => Some (lit "\x" ++ hex_encode b)
  | Null | UnchangedToast => None
  end.

(** The assignments [values[target] = ..] of one tuple. *)
Fixpoint place (projection : list (option nat)) (tuple : list TupleData) (row : cdc_row) : cdc_row :=
  match projection, tuple with
  | target :: projection, datum :: tuple =>
      place projection tuple (match target with Some t => <[t := datum_text datum]> row | None => row end)
  | _, _ => row
  end.

(** [project]. *)
Definition project (h : Shapes) (oid : Z) (tuple : list TupleData) : option cdc_row :=
  match relations h !! oid with
  | None => None
  | Some r =>
      if existsb (fun t => bool_decide (table_qualified t = qualified r)) tables
      then Some (place (default [] (projections h !! oid)) tuple (replicate emitted_columns None))
      else None
  end.

(** [push_row] and [push_change]. *)
Definition push_row (h : Shapes) (into : list ChangeEvent) (oid : Z) (op : Op) (l : Lsn) (tuple : list TupleData) : list ChangeEvent :=
  match project h oid tuple with
  | None => into
  | Some row => into ++ [{| ev_op := op; ev_lsn := as_i64 l; ts_micros := None; values := row |}]
  end.
Definition push_change (h : Shapes) (into : list ChangeEvent) (oid : Z) (op : Op) (l : Lsn) (tuple : list TupleData) : list ChangeEvent :=
  if bool_decide (op ∈ publish_ops options) then push_row h into oid op l tuple else into.

(** [key_positions]. *)
Definition key_positions (h : Shapes) (oid : Z) : list nat :=
  match relations h !! oid with
  | None => []
  | Some r =>
      match find_table r with
      | None => []
      | Some t =>
          omap (fun key => index_where (fun n => eq_ignore_ascii_case n key) (f_name <$> take emitted_columns schema)) (ts_keys t)
      end
  end.

(** [moved_key]. *)
Definition moved_key (h : Shapes) (oid : Z) (key old : option (list TupleData)) (new : list TupleData) : option (list TupleData) :=
  match key with
  | Some key => Some key
  | None =>
      match old with
      | None => None
      | Some old =>
          let positions := key_positions h oid in
          if bool_decide (positions = []) then None
          else
            match project h oid old, project h oid new with
            | Some was, Some now =>
                if existsb (fun i : nat => negb (bool_decide (was !! i = now !! i))) positions then Some old else None
            | _, _ => None
            end
      end
  end.

(** *** Reading forward *)

(** The local variables of [read_forward]. *)
Record ReadState := {
  committed : list ChangeEvent;
  open_txn : list ChangeEvent;
  bytes_seen : Z;
  range_end : Lsn;
  observed : Lsn;
  in_txn : bool;
  txn_bytes : Z;
  txn_reported : bool;
}.

Definition read_start (from : Lsn) : ReadState :=
  {| committed := []; open_txn := []; bytes_seen := 0; range_end := from; observed := from;
     in_txn := false; txn_bytes := 0; txn_reported := false |}.

Definition observe (l : Lsn) (rs : ReadState) : ReadState :=
  {| committed := committed rs; open_txn := open_txn rs; bytes_seen := bytes_seen rs; range_end := range_end rs;
     observed := lsn_max (observed rs) l; in_txn := in_txn rs; txn_bytes := txn_bytes rs; txn_reported := txn_reported rs |}.
Definition set_open_txn (evs : list ChangeEvent) (rs : ReadState) : ReadState :=
  {| committed := committed rs; open_txn := evs; bytes_seen := bytes_seen rs; range_end := range_end rs;
     observed := observed rs; in_txn := in_txn rs; txn_bytes := txn_bytes rs; txn_reported := txn_reported rs |}.

(** The bytes of one frame, and the warning about a large transaction. *)
Definition count_bytes (len : Z) (rs : ReadState) : ReadState * bool :=
  let seen := wrapu 64 (bytes_seen rs + len) in
  let buffered := if in_txn rs then wrapu 64 (txn_bytes rs + len) else txn_bytes rs in
  let report := in_txn rs && (transaction_warn_bytes options <=? buffered) && negb (txn_reported rs) in
  ({| committed := committed rs; open_txn := open_txn rs; bytes_seen := seen; range_end := range_end rs;
      observed := observed rs; in_txn := in_txn rs; txn_bytes := buffered;
      txn_reported := txn_reported rs || report |}, report).

Definition stamp (ts : Z) (e : ChangeEvent) : ChangeEvent :=
  {| ev_op := ev_op e; ev_lsn := ev_lsn e; ts_micros := Some ts; values := values e |}.

Definition begin_txn (rs : ReadState) : ReadState :=
  {| committed := committed rs; open_txn := []; bytes_seen := bytes_seen rs; range_end := range_end rs;
     observed := observed rs; in_txn := true; txn_bytes := 0; txn_reported := false |}.
Definition commit_txn (from end_lsn : Lsn) (commit_time : Z) (rs : ReadState) : ReadState :=
  let rs := observe end_lsn rs in
  if lsn end_lsn <=? lsn from then
    {| committed := committed rs; open_txn := []; bytes_seen := bytes_seen rs; range_end := range_end rs;
       observed := observed rs; in_txn := false; txn_bytes := txn_bytes rs; txn_reported := txn_reported rs |}
  else
    {| committed := committed rs ++ (stamp (wraps 64 (commit_time + PG_EPOCH_UNIX_MICROS)) <$> open_txn rs);
       open_txn := []; bytes_seen := bytes_seen rs; range_end := end_lsn;
       observed := observed rs; in_txn := false; txn_bytes := txn_bytes rs; txn_reported := txn_reported rs |}.

(** The rows one message adds to the open transaction. *)
Definition push_message (h : Shapes) (wal_start : Lsn) (m : LogicalMessage) (into : list ChangeEvent) : list ChangeEvent :=
  match m with
  | Insert oid new => push_change h into oid OpInsert wal_start new
  | Update oid key old new =>
      let into := match moved_key h oid key old new with
                  | Some was => push_row h into oid OpDelete wal_start was
                  | None => into
                  end in
      push_change h into oid OpUpdate wal_start new
  | Delete oid key old =>
      let image := match old with Some o => o | None => default [] key end in
      push_change h into oid OpDelete wal_start image
  | Truncate _ oids => foldl (fun into oid => push_change h into oid OpTruncate wal_start []) into oids
  | _ => into
  end.

(** The [match] on a decoded message. *)
Definition apply_message (from wal_start : Lsn) (m : LogicalMessage) (rs : ReadState) : C ReadState :=
  match m with
  | RelationMsg r => run! remember r; ret rs
  | Begin _ _ _ => ret (begin_txn rs)
  | Commit _ _ end_lsn commit_time => ret (commit_txn from end_lsn commit_time rs)
  | _ => do! s <- get; ret (set_open_txn (push_message (shapes s) wal_start m (open_txn rs)) rs)
  end.

(** [!in_txn && (observed >= stop_at || bytes_seen >= byte_budget)]. *)
Definition batch_full (stop_at : Lsn) (byte_budget : Z) (rs : ReadState) : bool :=
  negb (in_txn rs) && ((lsn stop_at <=? lsn (observed rs)) || (byte_budget <=? bytes_seen rs)).

(** The [loop]. *)
Fixpoint read_loop (n : nat) (from stop_at : Lsn) (byte_budget : Z) (rs : ReadState) : C ReadState :=
  if batch_full stop_at byte_budget rs then ret rs
  else
    match n with
    | O => out_of_fuel
    | S n =>
        do! next <- try_ (ask (next_wire (idle options)));
        match next with
        | Err e => run! modify (set_stream_at None); throw e
        | Ok None => ret rs
        | Ok (Some (Keepalive wal_end _ reply_requested)) =>
            run! (if reply_requested then confirm_logged (lit "reply_requested") else ret tt);
            read_loop n from stop_at byte_budget (observe wal_end rs)
        | Ok (Some (XLogData wal_start wal_end _ data)) =>
            let '(rs, report) := count_bytes (blen data) (observe wal_end rs) in
            run! (if report then event (LargeTransaction (txn_bytes rs) (Z.of_nat (length (open_txn rs)))) else ret tt);
            do! m <- lift_result (decode_logical data);
            do! rs <- apply_message from wal_start m rs;
            read_loop n from stop_at byte_budget rs
        end
    end.

(** [read_forward]. *)
Definition read_forward (from stop_at : Lsn) (byte_budget : Z) : C (list ChangeEvent * Lsn) :=
  run! ensure_stream from;
  do! rs <- read_loop fuel from stop_at byte_budget (read_start from);
  run! modify (set_stream_at (if in_txn rs then None else Some (lsn_max (range_end rs) from)));
  if bool_decide (committed rs = []) && negb (in_txn rs) then
    let e := lsn_max (observed rs) from in
    run! modify (set_stream_at (Some e));
    ret ([], e)
  else ret (committed rs, range_end rs).

(** *** Arrow batches *)

Definition column_values (index : nat) (chunk : list ChangeEvent) : list (option str) :=
  (fun e => match values e !! index with Some v => v | None => None end) <$> chunk.

Fixpoint build_columns (fields : list (nat * Field)) (chunk : list ChangeEvent)
    (dropped : list (str * str * Z)) : result Error (list Array * list (str * str * Z)) :=
  match fields with
  | [] => Ok ([], dropped)
  | (index, f) :: fields =>
      let! ' (a, unrepresentable) := build_array (f_type f) (f_name f) (column_values index chunk) in
      let dropped := match unrepresentable with Some (reason, count) => dropped ++ [(f_name f, reason, count)] | None => dropped end in
      let! ' (cols, dropped) := build_columns fields chunk dropped in
      Ok (a :: cols, dropped)
  end.

Definition build_chunk (chunk : list ChangeEvent) (dropped : list (str * str * Z)) : result Error (Batch * list (str * str * Z)) :=
  let! ' (cols, dropped) := build_columns (imap (fun i f => (i, f)) (take emitted_columns schema)) chunk dropped in
  match try_new schema (cols ++ [string_array ((fun e => op_code (ev_op e)) <$> chunk);
                                 int64_array (ev_lsn <$> chunk); timestamp_array (ts_micros <$> chunk)]) with
  | Ok b => Ok (b, dropped)
  | Err e => Err (Execution (fmt [lit "postgres_cdc: build record batch: "; e]))
  end.

Fixpoint build_chunks (cs : list (list ChangeEvent)) (dropped : list (str * str * Z)) : result Error (list Batch * list (str * str * Z)) :=
  match cs with
  | [] => Ok ([], dropped)
  | chunk :: cs =>
      let! ' (b, dropped) := build_chunk chunk dropped in
      let! ' (bs, dropped) := build_chunks cs dropped in
      Ok (b :: bs, dropped)
  end.

(** [report_dropped]. *)
Fixpoint report_dropped (dropped : list (str * str * Z)) : C unit :=
  match dropped with
  | [] => ret tt
  | (column, reason, count) :: dropped =>
      do! s <- get;
      run! (if bool_decide (column ∈ reported_dropped s) then ret tt
            else run! modify (set_dropped ({[ column ]} ∪ reported_dropped s)); event (ValueDropped column reason count));
      report_dropped dropped
  end.

(** [build_batches]. *)
Definition build_batches (events : list ChangeEvent) : C (list Batch) :=
  do! r <- lift_result (build_chunks (chunks (Z.to_nat (Z.max (snapshot_batch_rows options) 1)) events) []);
  run! report_dropped r.2;
  ret r.1.

(** *** The snapshot *)

Definition snapshot_event (point : Lsn) (row : cdc_row) : ChangeEvent :=
  {| ev_op := OpSnapshot; ev_lsn := sat_i 64 (as_i64 point - 1); ts_micros := None; values := row |}.

Fixpoint fetch_slices (n : nat) (batches : list Batch) (total : Z) : C (list Batch * Z) :=
  match n with
  | O => out_of_fuel
  | S n =>
      do! rows <- ask (snapshot_fetch (snapshot_batch_rows options));
      match rows with
      | [] => ret (batches, total)
      | _ =>
          do! s <- get;
          do! built <- build_batches (snapshot_event (position s) <$> rows);
          fetch_slices n (batches ++ built) (wrapu 64 (total + Z.of_nat (length rows)))
      end
  end.

(** [read_table]. *)
Definition read_table (t : TableSchema) : C (list Batch * Z) :=
  run! ask (snapshot_open t);
  do! r <- fetch_slices fuel [] 0;
  run! ask snapshot_close;
  ret r.

(** [restart_snapshot]. *)
Definition restart_snapshot (planned_at : option Z) : C unit :=
  run! modify (set_done 0);
  do! s <- get;
  event (SnapshotRestart planned_at (position s)).

Definition no_such_table (index : Z) : Error :=
  Plan (fmt [lit "postgres_cdc: this batch was recorded against source table "; show_u index; lit ", and the source now has ";
             show_u table_count; lit " "; [8212]; lit " the `tables:` option changed under a live checkpoint"]).
Definition snapshot_closed (t : TableSchema) : Error :=
  Execution (fmt [lit "postgres_cdc: the snapshot of `"; table_qualified t;
                  lit "` was planned, but the slot's snapshot transaction is no longer open. This batch is already durable "; [8212];
                  lit " the transaction is committed once the checkpoint holds it "; [8212];
                  lit " so it should never be replayed; if the pipeline is stuck here, delete this table's checkpoint directory to re-snapshot."]).

(** [poll_snapshot]. *)
Definition poll_snapshot (table_index : Z) (planned_at : option Z) : C (list Batch) :=
  match tables !! Z.to_nat table_index with
  | None => throw (no_such_table table_index)
  | Some t =>
      do! s <- get;
      let honourable := bool_decide (planned_at = Some (as_i64 (position s))) in
      run! (if honourable then ret tt else restart_snapshot planned_at);
      do! s <- get;
      if negb (snapshot_is_open s) then throw (snapshot_closed t)
      else
        do! r <- try_ (read_table t);
        match r with
        | Err e =>
            run! modify (set_opened false);
            run! modify (set_snapshot_open false);
            run! modify (set_stream_at None);
            throw e
        | Ok (batches, rows) =>
            run! (if honourable then modify (set_done (table_index + 1)) else ret tt);
            do! s <- get;
            run! event (SnapshotDone (table_qualified t) rows (position s) honourable);
            ret batches
        end
  end.

(** *** The [Source] trait *)

Definition snapshot_range (s : Src) : BatchRange :=
  {| br_source := SOURCE_NAME;
     br_start := <[SNAPSHOT_KEY := wraps 64 (snapshot_done s)]> {[ CONSISTENT_POINT_KEY := as_i64 (position s) ]};
     br_end := {[ SNAPSHOT_KEY := wraps 64 (wraps 64 (snapshot_done s) + 1) ]};
     br_items := [] |}.
Definition wal_range (from e : Lsn) : BatchRange :=
  {| br_source := SOURCE_NAME; br_start := {[ LSN_KEY := as_i64 from ]}; br_end := {[ LSN_KEY := as_i64 e ]}; br_items := [] |}.

(** Nothing for this publication: the position moves over it. *)
Definition skip_over (e : Lsn) : C BatchRange :=
  do! s <- get;
  run! (if lsn (position s) <? lsn e then modify (set_position e) else ret tt);
  run! heartbeat;
  ret default_range.

(** [plan_batch] once the snapshot is complete. *)
Definition plan_stream (m : SlotMetrics) : C BatchRange :=
  do! s <- get;
  let from := position s in
  do! r <- read_forward from (server_flush m) (max_batch_bytes options);
  match r.1 with
  | [] => skip_over r.2
  | _ =>
      let range := wal_range from r.2 in
      run! modify (set_planned (Some (range, r.1)));
      ret range
  end.

Definition plan_batch : C BatchRange :=
  run! ensure_open;
  do! m <- guard_slot;
  do! s <- get;
  if snapshot_done s <? table_count then ret (snapshot_range s) else plan_stream m.

Definition wrong_source (r : BatchRange) : Error :=
  Plan (fmt [lit "postgres_cdc: batch range was planned by `"; br_source r; lit "`, not by this source"]).
Definition wal_gone (from e reached : Lsn) : Error :=
  Execution (fmt [lit "postgres_cdc: replaying batch range ["; lsn_show from; lit ", "; lsn_show e; lit ") reached only ";
                  lsn_show reached; lit " "; [8212]; lit " the publisher no longer holds the WAL this batch covered"]).

(** The replay of a recorded range. *)
Definition replay (from e : Lsn) : C (list ChangeEvent) :=
  run! event (Replay from e);
  run! ensure_stream from;
  do! r <- read_forward from e (u_max 64);
  if lsn r.2 <? lsn e then throw (wal_gone from e r.2)
  else ret (List.filter (fun ev => ev_lsn ev <? as_i64 e) r.1).

Definition poll_wal (range : BatchRange) : C (list Batch) :=
  let from := from_i64 (default 0 (br_start range !! LSN_KEY)) in
  let e := from_i64 (default 0 (br_end range !! LSN_KEY)) in
  do! s <- get;
  run! modify (set_planned None);
  do! events <- match planned s with
                | Some (r, events) => if bool_decide (r = range) then ret events else replay from e
                | None => replay from e
                end;
  do! batches <- build_batches events;
  run! modify (set_position e);
  run! event (BatchRead from e (Z.of_nat (length events)));
  ret batches.

(** A range is a table of the snapshot or a stretch of the log. *)
Definition poll_opened (range : BatchRange) : C (list Batch) :=
  match br_start range !! SNAPSHOT_KEY with
  | Some index => poll_snapshot (Z.max index 0) (br_start range !! CONSISTENT_POINT_KEY)
  | None => poll_wal range
  end.

Definition poll_range (range : BatchRange) : C (list Batch) :=
  if range_is_empty range then ret []
  else if negb (bool_decide (br_source range = SOURCE_NAME)) then throw (wrong_source range)
  else
    run! ensure_open;
    poll_opened range.

Definition committed_offsets (s : Src) : option SourceOffsets :=
  Some {| so_source := SOURCE_NAME;
          so_entries := <[SNAPSHOT_KEY := wraps 64 (snapshot_done s)]> {[ LSN_KEY := as_i64 (position s) ]} |}.

Definition restore_offsets (s : Src) (o : SourceOffsets) : Src :=
  if negb (bool_decide (so_source o = SOURCE_NAME)) then s
  else set_position (from_i64 (default 0 (so_entries o !! LSN_KEY)))
         (set_done (Z.max (default 0 (so_entries o !! SNAPSHOT_KEY)) 0) s).

Definition available_end : C (option (gmap (list Z) Z)) :=
  run! ensure_open;
  do! m <- ask slot_metrics;
  ret (Some (<[SNAPSHOT_KEY := wraps 64 table_count]> {[ LSN_KEY := as_i64 (server_flush m) ]})).

Definition mark_durable : C unit :=
  do! s <- get;
  if negb (opened s) then ret tt
  else
    run! finish_snapshot;
    do! sent <- confirm_position;
    do! s <- get;
    event (Committed (position s) (snapshot_done s) sent).

End Cdc.
