(* ===== verification/PgStream.v ===== *)
(** * PgStream: what the change-data-capture source guarantees

    Theorems about [PgCdc.v].  A [History] wire is any wire that also records
    the calls made on it and their answers; theorems about an arbitrary one
    speak about everything the source asked of the server.

    - the log is read in whole transactions, each row once, stamped with its
      commit ([read_forward_transactions]);
    - a recorded range is read again with the same result ([replay_reproduces]);
    - a confirmation carries the committed position ([confirm_carries_position]);
    - across restarts the stream follows a snapshot of every table taken at one
      point ([stream_follows_snapshot]). *)

From S2P Require Import Prelude Text Effects Source PgOutput PgCdc.

(** ** Recorded calls *)

Inductive WireCall :=
  | CallOpen (create : bool) (r : result Error SlotOpen)
  | CallCursor (t : TableSchema) (r : result Error unit)
  | CallFetch (rows : Z) (r : result Error (list cdc_row))
  | CallClose (r : result Error unit)
  | CallEndSnapshot (r : result Error unit)
  | CallStart (start : Lsn) (r : result Error unit)
  | CallNext (r : result Error (option WireMessage))
  | CallConfirm (written flushed : Lsn) (r : result Error bool)
  | CallMetrics (r : result Error SlotMetrics).

Record History (W : Type) := { hw : W; calls : list WireCall }.
Arguments hw {W} _.
Arguments calls {W} _.

Section History.
Context {W : Type} `{!CdcWire W}.

Definition recorded {A} (f : W -> result Error A * W) (c : result Error A -> WireCall) (h : History W)
    : result Error A * History W :=
  let '(r, w) := f (hw h) in (r, {| hw := w; calls := calls h ++ [c r] |}).

#[export] Instance History_wire : CdcWire (History W) := {
  open_slot create := recorded (open_slot create) (CallOpen create);
  snapshot_open t := recorded (snapshot_open t) (CallCursor t);
  snapshot_fetch n := recorded (snapshot_fetch n) (CallFetch n);
  snapshot_close := recorded snapshot_close CallClose;
  end_snapshot := recorded end_snapshot CallEndSnapshot;
  start_stream l := recorded (start_stream l) (CallStart l);
  next_wire d := recorded (next_wire d) CallNext;
  confirm a b := recorded (confirm a b) (CallConfirm a b);
  slot_metrics := recorded slot_metrics CallMetrics;
  instant_now h := let '(t, w) := instant_now (hw h) in (t, {| hw := w; calls := calls h |});
}.

End History.

(** The frames a run of calls received, and the confirmations it sent. *)
Definition frame_of (c : WireCall) : option WireMessage :=
  match c with CallNext (Ok (Some f)) => Some f | _ => None end.
Definition confirmed_of (c : WireCall) : option (Lsn * Lsn) :=
  match c with CallConfirm a b _ => Some (a, b) | _ => None end.
Definition frames (l : list WireCall) : list WireMessage := omap frame_of l.
Definition confirms (l : list WireCall) : list (Lsn * Lsn) := omap confirmed_of l.

(** ** The transactions of a stream *)

(** The messages of some frames, with the position of each. *)
Fixpoint messages (fs : list WireMessage) : result Error (list (Lsn * LogicalMessage)) :=
  match fs with
  | [] => Ok []
  | Keepalive _ _ _ :: fs => messages fs
  | XLogData ws _ _ data :: fs => let! m := decode_logical data in let! ms := messages fs in Ok ((ws, m) :: ms)
  end.

Record Txn := {
  tx_at : Lsn; tx_final : Lsn; tx_xid : Z;
  tx_changes : list (Lsn * LogicalMessage);
  tx_commit_at : Lsn; tx_flags : Z; tx_commit : Lsn; tx_end : Lsn; tx_time : Z;
}.

Definition is_change (m : LogicalMessage) : bool :=
  match m with Begin _ _ _ | Commit _ _ _ _ => false | _ => true end.
Definition txn_ok (t : Txn) : Prop := Forall (fun c => is_change c.2 = true) (tx_changes t).

Definition txn_begin (t : Txn) : Lsn * LogicalMessage := (tx_at t, Begin (tx_final t) (tx_time t) (tx_xid t)).
Definition txn_commit (t : Txn) : Lsn * LogicalMessage :=
  (tx_commit_at t, Commit (tx_flags t) (tx_commit t) (tx_end t) (tx_time t)).
Definition txn_messages (t : Txn) : list (Lsn * LogicalMessage) :=
  txn_begin t :: tx_changes t ++ [txn_commit t].

(** What was read of a stream: whole transactions, and the beginning of one. *)
Record reads_txns (ms : list (Lsn * LogicalMessage)) (txns : list Txn) (cut : list (Lsn * LogicalMessage)) : Prop := {
  rt_ok : Forall txn_ok txns;
  rt_messages : ms = (txns ≫= txn_messages) ++ cut;
  rt_cut : cut = [] \/ exists t k, txn_ok t /\ cut = txn_begin t :: take k (tx_changes t);
}.

(** Two states of knowledge that render every row alike: only the drift already
    reported may differ. *)
#[export] Instance Shapes_equiv : Equiv Shapes := fun h k => relations h = relations k /\ projections h = projections k.
#[export] Instance Shapes_equivalence : Equivalence (≡@{Shapes}).
Proof. split; [by split|by intros h k [? ?]|intros h k l [? ?] [? ?]; split; by etrans]. Qed.

(** ** Calls that leave the position alone

    [steady m]: whatever the outcome, [m] keeps the snapshot counter, the
    position, the open flag and the planned batch, and every confirmation it
    sends carries the position. *)

Section Steady.
Context {W Array Batch : Type} `{!CdcWire W} `{!CdcLib Array Batch}.
Variable options : PostgresCdcOptions.
Variable tables : list TableSchema.
Notation Src := (PostgresCdcSource (History W)).
Notation CH := (M Src).

Definition core (s : Src) : Z * Lsn * bool * option (BatchRange * list ChangeEvent) :=
  (snapshot_done s, position s, opened s, planned s).

(** The calls between two states. *)
Definition new_calls (s s' : Src) : list WireCall := drop (length (calls (wire s))) (calls (wire s')).

Record steadily (s s' : Src) : Prop := {
  st_core : core s' = core s;
  st_calls : calls (wire s') = calls (wire s) ++ new_calls s s';
  st_confirms : Forall (fun c => c = (position s, position s)) (confirms (new_calls s s'));
}.

Lemma steadily_intro s s' cs :
  core s' = core s -> calls (wire s') = calls (wire s) ++ cs ->
  Forall (fun c => c = (position s, position s)) (confirms cs) -> steadily s s'.
Proof.
  intros Hc Hcs Hf. assert (new_calls s s' = cs) as E by (unfold new_calls; by rewrite Hcs, drop_app_length).
  split; [done|by rewrite E|by rewrite E].
Qed.

Lemma new_calls_trans s s1 s2 :
  calls (wire s1) = calls (wire s) ++ new_calls s s1 -> calls (wire s2) = calls (wire s1) ++ new_calls s1 s2 ->
  new_calls s s2 = new_calls s s1 ++ new_calls s1 s2 /\ calls (wire s2) = calls (wire s) ++ new_calls s s2.
Proof.
  intros H1 H2. assert (new_calls s s2 = new_calls s s1 ++ new_calls s1 s2) as E.
  { unfold new_calls at 1. by rewrite H2, H1, <-app_assoc, drop_app_length. }
  split; [done|]. by rewrite E, app_assoc, <-H1.
Qed.

Lemma confirms_app l k : confirms (l ++ k) = confirms l ++ confirms k.
Proof. apply omap_app. Qed.
Lemma frames_app l k : frames (l ++ k) = frames l ++ frames k.
Proof. apply omap_app. Qed.

#[export] Instance steadily_preorder : PreOrder steadily.
Proof.
  split.
  - intros s. apply (steadily_intro s s []); [done|by rewrite app_nil_r|constructor].
  - intros s s1 s2 [C1 E1 F1] [C2 E2 F2]. destruct (new_calls_trans s s1 s2) as [E _]; [done|done|].
    apply (steadily_intro s s2 (new_calls s s1 ++ new_calls s1 s2)); [congruence|by rewrite E2, E1, <-app_assoc|].
    rewrite confirms_app. apply Forall_app. split; [done|]. injection C1 as _ C1 _ _. by rewrite C1 in F2.
Qed.

Definition steady {A} (m : CH A) : Prop := forall s, steadily s (m s).2.

Lemma steady_ret {A} (a : A) : steady (ret a).
Proof. intros s. done. Qed.
Lemma steady_throw {A} e : steady (throw e : CH A).
Proof. intros s. done. Qed.
Lemma steady_get : steady get.
Proof. intros s. done. Qed.
Lemma steady_fuel {A} : steady (out_of_fuel : CH A).
Proof. intros s. done. Qed.
Lemma steady_lift {A} (r : result Error A) : steady (lift_result r : CH A).
Proof. intros s. by destruct r. Qed.
Lemma steady_bind {A B} (m : CH A) (k : A -> CH B) : steady m -> (forall a, steady (k a)) -> steady (mbind m k).
Proof.
  intros Hm Hk s. unfold mbind. specialize (Hm s). destruct (m s) as [[a|e|] s1]; [|done|done].
  etrans; [exact Hm|apply Hk].
Qed.
Lemma steady_try {A} (m : CH A) : steady m -> steady (try_ m).
Proof. intros Hm s. unfold try_. specialize (Hm s). by destruct (m s) as [[a|e|] s1]. Qed.
Lemma steady_modify f :
  (forall s, core (f s) = core s) -> (forall s, wire (f s) = wire s) -> steady (modify f).
Proof. intros Hc Hw s. apply (steadily_intro _ _ []); [apply Hc|cbn; by rewrite Hw, app_nil_r|constructor]. Qed.
Lemma steady_ask {A} (f : W -> result Error A * W) c :
  (forall r, confirmed_of (c r) = None) -> steady (ask (recorded f c) : CH A).
Proof.
  intros Hc s. unfold ask, recorded. destruct (f _) as [r w]. apply (steadily_intro _ _ [c r]); [done|done|].
  unfold confirms. cbn. rewrite Hc. constructor.
Qed.
Lemma steady_now : steady (now : CH Z).
Proof.
  intros s. unfold now. cbn. destruct (instant_now _) as [t w].
  apply (steadily_intro _ _ []); [done|by rewrite app_nil_r|constructor].
Qed.
Lemma steady_event e : steady (event e).
Proof. by apply steady_modify. Qed.

Lemma steady_confirm : steady (confirm_position : CH bool).
Proof.
  intros s. unfold confirm_position. unfold mbind at 1, get at 1. cbn [fst snd].
  unfold mbind at 1, ask. cbn [confirm History_wire]. unfold recorded.
  destruct (confirm _ _ (hw (wire s))) as [r w]. set (s1 := set_wire _ s).
  assert (steadily s s1) as Hs.
  { apply (steadily_intro _ _ [CallConfirm (position s) (position s) r]); [done|done|]. cbn. by repeat constructor. }
  destruct r as [b|e]; [|exact Hs]. etrans; [exact Hs|].
  refine (steady_bind _ _ steady_now (fun t => steady_bind _ _ _ (fun _ => steady_ret b)) s1). by apply steady_modify.
Qed.

End Steady.

Create HintDb steady.
#[export] Hint Resolve steady_ret steady_throw steady_get steady_fuel steady_lift steady_try steady_now steady_event
  steady_confirm : steady.
#[export] Hint Extern 1 (steady (modify _)) => apply steady_modify; done : steady.
#[export] Hint Extern 1 (steady (ask _)) => apply steady_ask; done : steady.

(** Case analysis along the body of an operation. *)
Ltac steady_step :=
  first [ progress intros
        | apply steady_bind; [auto with steady|]
        | solve [auto with steady]
        | match goal with
          | |- steady (if ?b then _ else _) => destruct b
          | |- steady (match ?x with _ => _ end) => destruct x
          | |- steady (let '(_, _) := ?x in _) => destruct x
          end
        | apply steady_bind ].
Ltac steady_solve := repeat steady_step.

Section SteadyOps.
Context {W Array Batch : Type} `{!CdcWire W} `{!CdcLib Array Batch}.
Variable options : PostgresCdcOptions.
Variable tables : list TableSchema.
Variable fuel : nat.
Variable bytes : Z -> str.
Notation Src := (PostgresCdcSource (History W)).

Lemma steady_confirm_logged r : steady (confirm_logged r : M Src unit).
Proof. unfold confirm_logged. steady_solve. Qed.
#[local] Hint Resolve steady_confirm_logged : steady.
Lemma steady_heartbeat : steady (heartbeat options : M Src unit).
Proof. unfold heartbeat. steady_solve. Qed.
Lemma steady_guard : steady (guard_slot options bytes : M Src _).
Proof. unfold guard_slot. steady_solve. Qed.
Lemma steady_finish : steady (finish_snapshot tables : M Src unit).
Proof. unfold finish_snapshot. steady_solve. Qed.
#[local] Hint Resolve steady_finish : steady.
Lemma steady_stream l : steady (ensure_stream tables l : M Src unit).
Proof. unfold ensure_stream. steady_solve. Qed.
#[local] Hint Resolve steady_stream : steady.
Lemma steady_remember r : steady (remember options tables r : M Src unit).
Proof. unfold remember. steady_solve. Qed.
#[local] Hint Resolve steady_remember : steady.
Lemma steady_apply from ws m rs : steady (apply_message options tables from ws m rs : M Src _).
Proof. unfold apply_message. steady_solve. Qed.
#[local] Hint Resolve steady_apply : steady.
Lemma steady_loop n from stop budget rs : steady (read_loop options tables n from stop budget rs : M Src _).
Proof.
  revert rs. induction n as [|n IH]; intros rs; cbn [read_loop]; steady_solve.
Qed.
#[local] Hint Resolve steady_loop : steady.
Lemma steady_read from stop budget : steady (read_forward options tables fuel from stop budget : M Src _).
Proof. unfold read_forward. steady_solve. Qed.
#[local] Hint Resolve steady_read : steady.
Lemma steady_report l : steady (report_dropped l : M Src unit).
Proof. induction l as [|[[c r] n] l IH]; cbn [report_dropped]; steady_solve. Qed.
#[local] Hint Resolve steady_report : steady.
Lemma steady_build evs : steady (build_batches options tables evs : M Src _).
Proof. unfold build_batches. steady_solve. Qed.
#[local] Hint Resolve steady_build : steady.
Lemma steady_slices n bs total : steady (fetch_slices options tables n bs total : M Src _).
Proof. revert bs total. induction n as [|n IH]; intros bs total; cbn [fetch_slices]; steady_solve. Qed.
#[local] Hint Resolve steady_slices : steady.
Lemma steady_table t : steady (read_table options tables fuel t : M Src _).
Proof. unfold read_table. steady_solve. Qed.
Lemma steady_replay from e : steady (replay options tables fuel from e : M Src _).
Proof. unfold replay. steady_solve. Qed.

End SteadyOps.

#[export] Hint Resolve steady_confirm_logged steady_heartbeat steady_guard steady_finish steady_stream steady_remember
  steady_apply steady_loop steady_read steady_report steady_build steady_slices steady_table steady_replay : steady.

(** ** Confirmations *)

Section Confirm.
Context {W Array Batch : Type} `{!CdcWire W} `{!CdcLib Array Batch}.
Variable options : PostgresCdcOptions.
Variable tables : list TableSchema.
Variable fuel : nat.
Variable bytes : Z -> str.
Notation Src := (PostgresCdcSource (History W)).

(** The calls between two states confirm positions of [P] only. *)
Record confirming (P : Lsn -> Prop) (s s' : Src) : Prop := {
  cf_calls : calls (wire s') = calls (wire s) ++ new_calls s s';
  cf_confirms : Forall (fun c => c.1 = c.2 /\ P c.1) (confirms (new_calls s s'));
}.

Lemma confirming_steady (P : Lsn -> Prop) s s' : steadily s s' -> P (position s) -> confirming P s s'.
Proof. intros [_ E F] HP. split; [done|]. eapply Forall_impl; [exact F|]. by intros c ->. Qed.

Lemma confirming_trans P s s1 s2 : confirming P s s1 -> confirming P s1 s2 -> confirming P s s2.
Proof.
  intros [E1 F1] [E2 F2]. destruct (new_calls_trans s s1 s2) as [E E']; [done|done|]. split; [done|].
  rewrite E, confirms_app. by apply Forall_app.
Qed.

Lemma confirming_mono (P Q : Lsn -> Prop) s s' : (forall p, P p -> Q p) -> confirming P s s' -> confirming Q s s'.
Proof. intros H [E F]. split; [done|]. eapply Forall_impl; [exact F|]. intros c [? ?]. auto. Qed.

Lemma confirming_refl P s : confirming P s s.
Proof. split; unfold new_calls; rewrite drop_all; [by rewrite app_nil_r|constructor]. Qed.

Lemma confirming_same P s s' : wire s' = wire s -> confirming P s s'.
Proof. intros E. split; unfold new_calls; rewrite E, drop_all; [by rewrite app_nil_r|constructor]. Qed.

(** What opening the slot does, by the server's answer. *)
Inductive opens (s : Src) : outcome unit * Src -> Prop :=
  | opens_already : opened s = true -> opens s (Done tt, s)
  | opens_failed e w l s' :
      opened s = false -> wire s' = {| hw := w; calls := calls (wire s) ++ [CallOpen l (Err e)] |} ->
      core s' = core s -> opens s (Failed e, s')
  | opens_lost o w l e s' :
      opened s = false -> restored_complete tables s = true -> existed o = false ->
      wire s' = {| hw := w; calls := calls (wire s) ++ [CallOpen l (Ok o)] |} ->
      core s' = core s -> opens s (Failed e, s')
  | opens_resumed o w l s' :
      opened s = false -> restored_complete tables s = true -> existed o = true ->
      wire s' = {| hw := w; calls := calls (wire s) ++ [CallOpen l (Ok o)] |} ->
      core s' = (snapshot_done s, position s, true, planned s) -> opens s (Done tt, s')
  | opens_fresh o w l s' :
      opened s = false -> restored_complete tables s = false ->
      wire s' = {| hw := w; calls := calls (wire s) ++ [CallOpen l (Ok o)] |} ->
      core s' = (0, consistent_point o, true, planned s) -> opens s (Done tt, s').

Lemma ensure_open_opens s : opens s (ensure_open options tables s).
Proof.
  unfold ensure_open, mbind, get, ask, ret, event, modify, throw. cbn [open_slot History_wire]. unfold recorded.
  destruct (opened s) eqn:Eo; [by constructor|].
  destruct (restored_complete tables s) eqn:Er; destruct (0 <? snapshot_done s); cbn -[slot_lost];
    destruct (open_slot _ (hw (wire s))) as [[o|e] w]; cbn -[slot_lost];
    try (by eapply opens_failed); try (by eapply opens_fresh);
    destruct (existed o) eqn:Ee; cbn -[slot_lost]; first [by eapply opens_resumed|by eapply opens_lost].
Qed.

(** Opening the slot confirms nothing. *)
Lemma ensure_open_confirms s P : confirming P s (ensure_open options tables s).2.
Proof.
  assert (forall s' w l r, wire s' = {| hw := w; calls := calls (wire s) ++ [CallOpen l r] |} -> confirming P s s') as Hk.
  { intros s' w l r Es. assert (new_calls s s' = [CallOpen l r]) as E
      by (unfold new_calls; rewrite Es; cbn; by rewrite drop_app_length).
    split; rewrite E; [by rewrite Es|]. constructor. }
  destruct (ensure_open_opens s); eauto using confirming_refl.
Qed.

Lemma after_open {A} (k : M Src A) P s :
  (forall s1, ensure_open options tables s = (Done tt, s1) -> confirming P s1 (k s1).2) ->
  confirming P s (mbind (ensure_open options tables) (fun _ => k) s).2.
Proof.
  intros Hk. pose proof (ensure_open_confirms s P) as Ho. unfold mbind.
  destruct (ensure_open options tables s) as [[[]|e|] s1]; [|done|done].
  eapply confirming_trans; [exact Ho|by apply Hk].
Qed.

Lemma confirming_bind {A B} (m : M Src A) (k : A -> M Src B) (P : Lsn -> Prop) s :
  steady m -> P (position s) ->
  (forall a s1, steadily s s1 -> m s = (Done a, s1) -> confirming P s1 (k a s1).2) ->
  confirming P s (mbind m k s).2.
Proof.
  intros Hm HP Hk. unfold mbind. specialize (Hm s). destruct (m s) as [[a|e|] s1] eqn:E; [|by apply confirming_steady..].
  eapply confirming_trans; [by apply confirming_steady|by apply Hk].
Qed.

Lemma steadily_position (s s' : Src) : steadily s s' -> position s' = position s.
Proof. intros [E _ _]. by injection E. Qed.

Lemma confirming_steady_op {A} (m : M Src A) (P : Lsn -> Prop) s : steady m -> P (position s) -> confirming P s (m s).2.
Proof. intros Hm HP. by apply confirming_steady. Qed.

(** Where a plan over an empty stretch leaves the source before it speaks. *)
Definition skipped (e : Lsn) (s : Src) : Src := if lsn (position s) <? lsn e then set_position e s else s.
Definition keep_alive : M Src BatchRange := mbind (heartbeat options) (fun _ => ret default_range).
Lemma skip_over_eq e s : skip_over options e s = keep_alive (skipped e s).
Proof. unfold skip_over, skipped, mbind, get. by destruct (_ <? _). Qed.
Lemma steady_keep_alive : steady keep_alive.
Proof. apply steady_bind; auto with steady. Qed.

Lemma skip_confirms e s :
  confirming (fun p => p = position (skip_over options e s).2) s (skip_over options e s).2.
Proof.
  rewrite skip_over_eq. pose proof (steady_keep_alive (skipped e s)) as Hst.
  apply (confirming_trans _ _ (skipped e s)); [apply confirming_same; unfold skipped; by destruct (_ <? _)|].
  apply confirming_steady; [done|]. by rewrite (steadily_position _ _ Hst).
Qed.

Lemma plan_stream_confirms m s :
  confirming (fun p => p = position s \/ p = position (plan_stream options tables fuel m s).2) s
    (plan_stream options tables fuel m s).2.
Proof.
  unfold plan_stream, mbind, get. cbn beta iota zeta.
  pose proof (steady_read options tables fuel (position s) (server_flush m) (max_batch_bytes options) s) as Hr.
  destruct (read_forward _ _ _ _ _ _ s) as [[[[|ev evs] e]|er|] s1]; cbn [fst snd] in Hr |- *.
  - eapply confirming_trans; [apply confirming_steady; [exact Hr|by left]|].
    eapply confirming_mono; [|apply skip_confirms]. by right.
  - eapply confirming_trans; [apply confirming_steady; [exact Hr|by left]|by apply confirming_same].
  - apply confirming_steady; [exact Hr|by left].
  - apply confirming_steady; [exact Hr|by left].
Qed.

(** [plan_batch] after the slot is open. *)
Definition plan_tail : M Src BatchRange :=
  do! m <- guard_slot options bytes;
  do! s <- get;
  if snapshot_done s <? table_count tables then ret (snapshot_range s) else plan_stream options tables fuel m.
Lemma plan_batch_eq s s1 :
  ensure_open options tables s = (Done tt, s1) -> plan_batch options tables fuel bytes s = plan_tail s1.
Proof. intros E. unfold plan_batch, mbind at 1. by rewrite E. Qed.

Lemma plan_tail_confirms s :
  confirming (fun p => p = position s \/ p = position (plan_tail s).2) s (plan_tail s).2.
Proof.
  unfold plan_tail, mbind, get. pose proof (steady_guard options bytes s) as Hg.
  destruct (guard_slot options bytes s) as [[m|er|] s2]; cbn [fst snd] in Hg |- *;
    [|apply confirming_steady; [done|by left]..].
  eapply confirming_trans; [apply confirming_steady; [exact Hg|by left]|].
  cbn beta iota. rewrite <-(steadily_position _ _ Hg).
  destruct (_ <? _); [apply confirming_refl|apply plan_stream_confirms].
Qed.

Lemma plan_confirms s s1 : ensure_open options tables s = (Done tt, s1) ->
  confirming (fun p => p = position s1 \/ p = position (plan_batch options tables fuel bytes s).2) s
    (plan_batch options tables fuel bytes s).2.
Proof.
  intros E. rewrite (plan_batch_eq _ _ E). eapply confirming_trans; [|apply plan_tail_confirms].
  pose proof (ensure_open_confirms s (fun p => p = position s1 \/ p = position (plan_tail s1).2)) as H. by rewrite E in H.
Qed.

Lemma poll_snapshot_confirms i pl s :
  confirming (fun p => p = position s) s (poll_snapshot options tables fuel i pl s).2.
Proof.
  unfold poll_snapshot. destruct (tables !! _) as [t|]; [|apply confirming_refl].
  unfold mbind at 1, get at 1. cbn beta iota zeta. set (h := bool_decide _).
  set (s1 := if h then s else add_log (SnapshotRestart pl (position s)) (set_done 0 s)).
  assert (forall k : unit -> M Src (list Batch), mbind (if h then ret tt else restart_snapshot pl) k s = k tt s1) as Ek
    by (intros k; subst s1; unfold mbind; by destruct h).
  rewrite Ek. clear Ek. assert (wire s1 = wire s /\ position s1 = position s) as [Ew Ep] by (subst s1; by destruct h).
  apply (confirming_trans _ _ s1); [by apply confirming_same|]. rewrite <-Ep. clearbody s1.
  unfold mbind at 1, get at 1. cbn beta iota. destruct (negb _); [apply confirming_refl|].
  apply confirming_bind; [auto with steady|done|]. intros [[bs rows]|e] s2 Hs _; [|by apply confirming_same].
  destruct h; by apply confirming_same.
Qed.

Lemma poll_wal_confirms r s : confirming (fun p => p = position s) s (poll_wal options tables fuel r s).2.
Proof.
  unfold poll_wal. unfold mbind at 1, get at 1. cbn beta iota zeta.
  unfold mbind at 1, modify at 1. cbn beta iota.
  apply (confirming_trans _ _ (set_planned None s)); [by apply confirming_same|].
  apply confirming_bind; [|done|].
  { destruct (planned s) as [[r' evs]|]; [destruct (bool_decide _)|]; auto with steady. }
  intros evs s2 Hs _. change (position s) with (position (set_planned None s)). rewrite <-(steadily_position _ _ Hs).
  apply confirming_bind; [auto with steady|done|]. intros bs s3 Hs3 _. by apply confirming_same.
Qed.

(** Confirming is the one irreversible act: it lets the server discard its log
    up to the confirmed position.  Whatever the server answers, every
    confirmation carries the source's own position: during a plan the one the
    slot was opened at or the one the plan leaves, during a poll the one
    before the batch, and when a batch is durable the one the checkpoint
    holds. *)
Theorem confirm_carries_position s s1 range :
  ensure_open options tables s = (Done tt, s1) ->
  confirming (fun p => p = position s1 \/ p = position (plan_batch options tables fuel bytes s).2) s
    (plan_batch options tables fuel bytes s).2 /\
  confirming (fun p => p = position s1) s (poll_range options tables fuel range s).2 /\
  confirming (fun p => exists o, committed_offsets s = Some o /\ so_entries o !! LSN_KEY = Some (as_i64 p)) s
    (mark_durable tables s).2 /\
  committed_offsets (mark_durable tables s).2 = committed_offsets s.
Proof.
  intros E. split; [by apply plan_confirms|]. split.
  - unfold poll_range. destruct (range_is_empty range); [apply confirming_refl|].
    destruct (negb _); [apply confirming_refl|]. apply after_open. intros s1' E'. rewrite E in E'. injection E' as <-.
    unfold poll_opened. destruct (_ !! SNAPSHOT_KEY); [apply poll_snapshot_confirms|apply poll_wal_confirms].
  - assert (steadily s (mark_durable tables s).2) as Hs.
    { assert (steady (mark_durable tables : M Src unit)) as H; [|apply H]. unfold mark_durable. steady_solve. }
    split.
    + apply confirming_steady; [done|]. eexists. split; [reflexivity|]. cbn [so_entries].
      rewrite lookup_insert_ne by done. by rewrite lookup_singleton_eq.
    + destruct Hs as [Hc _ _]. injection Hc as Hd Hp _ _. unfold committed_offsets. by rewrite Hd, Hp.
Qed.

End Confirm.

(** ** The loop as a function of the frames it reads *)

Section Scan.
Context {W Array Batch : Type} `{!CdcWire W} `{!CdcLib Array Batch}.
Variable options : PostgresCdcOptions.
Variable tables : list TableSchema.
Notation Src := (PostgresCdcSource (History W)).
Implicit Types (h k : Shapes) (rs : ReadState).

Definition note (r : Relation) (h : Shapes) : Shapes :=
  match find_table tables r with Some _ => learn tables r h | None => h end.

Definition scan_message (from ws : Lsn) (m : LogicalMessage) (p : Shapes * ReadState) : Shapes * ReadState :=
  match m with
  | RelationMsg r => (note r p.1, p.2)
  | Begin _ _ _ => (p.1, begin_txn p.2)
  | Commit _ _ end_lsn commit_time => (p.1, commit_txn from end_lsn commit_time p.2)
  | _ => (p.1, set_open_txn (push_message options tables p.1 ws m (open_txn p.2)) p.2)
  end.

Definition scan (from : Lsn) (f : WireMessage) (p : Shapes * ReadState) : result Error (Shapes * ReadState) :=
  match f with
  | Keepalive wal_end _ _ => Ok (p.1, observe wal_end p.2)
  | XLogData ws wal_end _ data =>
      let! m := decode_logical data in
      Ok (scan_message from ws m (p.1, (count_bytes options (blen data) (observe wal_end p.2)).1))
  end.

Inductive scans (from stop : Lsn) (budget : Z) : Shapes * ReadState -> list WireMessage -> Shapes * ReadState -> Prop :=
  | scans_nil p : scans from stop budget p [] p
  | scans_cons p q r f fs :
      batch_full stop budget p.2 = false -> scan from f p = Ok q -> scans from stop budget q fs r ->
      scans from stop budget p (f :: fs) r.

Lemma push_message_equiv h k ws m evs : h ≡ k -> push_message options tables h ws m evs = push_message options tables k ws m evs.
Proof. destruct h, k. intros [E1 E2]. cbn in E1, E2. by subst. Qed.

#[export] Instance note_proper r : Proper ((≡) ==> (≡)) (note r).
Proof. intros h k [E1 E2]. unfold note. destruct (find_table _ _); [|by split]. split; cbn; congruence. Qed.

Lemma scan_message_equiv from ws m h k rs :
  h ≡ k -> (scan_message from ws m (h, rs)).1 ≡ (scan_message from ws m (k, rs)).1 /\
           (scan_message from ws m (h, rs)).2 = (scan_message from ws m (k, rs)).2.
Proof. intros E. destruct m; cbn -[note push_message]; rewrite ?(push_message_equiv _ _ _ _ _ E); by rewrite ?E. Qed.

Lemma remember_notes r (s : Src) :
  exists s1, remember options tables r s = (Done tt, s1) /\ shapes s1 ≡ note r (shapes s) /\ wire s1 = wire s.
Proof.
  unfold remember, note. destruct (find_table tables r) as [t|]; [|by exists s].
  unfold mbind, get, modify. cbn beta iota zeta. destruct (_ && _); cbn; by eexists.
Qed.

Lemma apply_scans from ws m rs (s : Src) :
  exists s1, apply_message options tables from ws m rs s = (Done (scan_message from ws m (shapes s, rs)).2, s1) /\
    shapes s1 ≡ (scan_message from ws m (shapes s, rs)).1 /\ wire s1 = wire s.
Proof.
  destruct m; try (by exists s). unfold apply_message, mbind. by destruct (remember_notes r s) as (s1 & -> & ? & ?); exists s1.
Qed.

(** A reply to a keepalive touches neither the relations nor the frames. *)
Lemma reply_keeps (b : bool) (s : Src) s1 :
  (if b then confirm_logged (lit "reply_requested") else ret tt) s = (Done tt, s1) ->
  shapes s1 = shapes s /\ frames (new_calls s s1) = [] /\ calls (wire s1) = calls (wire s) ++ new_calls s s1.
Proof.
  destruct b; [|intros [= <-]; unfold new_calls; by rewrite drop_all, app_nil_r].
  unfold confirm_logged, confirm_position, mbind, get, ask, modify, now, event, ret.
  cbn [confirm instant_now History_wire]. unfold recorded.
  destruct (confirm _ _ _) as [[b|e] w]; cbn; [|done]. destruct (instant_now w) as [t w']. cbn.
  intros [= <-]. unfold new_calls. cbn. by rewrite drop_app_length.
Qed.

(** One answer of the server. *)
Lemma next_call (s : Src) :
  exists r w, ask (next_wire (idle options)) s = (match r with Ok a => Done a | Err e => Failed e end, set_wire w s) /\
    new_calls s (set_wire w s) = [CallNext r] /\ calls w = calls (wire s) ++ [CallNext r].
Proof.
  unfold ask. cbn [next_wire History_wire]. unfold recorded. destruct (next_wire _ _) as [r w].
  exists r, {| hw := w; calls := calls (wire s) ++ [CallNext r] |}. split; [done|]. split; [|done].
  unfold new_calls. cbn. by rewrite drop_app_length.
Qed.

Lemma frames_step (s s1 s2 : Src) f :
  calls (wire s1) = calls (wire s) ++ [CallNext (Ok (Some f))] ->
  calls (wire s2) = calls (wire s1) ++ new_calls s1 s2 ->
  frames (new_calls s s2) = f :: frames (new_calls s1 s2).
Proof.
  intros H1 H2. destruct (new_calls_trans s s1 s2) as [-> _]; [|done|].
  - unfold new_calls. by rewrite H1, drop_app_length.
  - unfold new_calls at 1. by rewrite H1, drop_app_length.
Qed.

Lemma read_loop_scans n from stop budget rs h (s : Src) rs' s' :
  shapes s ≡ h -> read_loop options tables n from stop budget rs s = (Done rs', s') ->
  exists h', scans from stop budget (h, rs) (frames (new_calls s s')) (h', rs') /\ shapes s' ≡ h'.
Proof.
  revert rs h s. induction n as [|n IH]; intros rs h s Hh; cbn [read_loop];
    (destruct (batch_full stop budget rs) eqn:Ef;
      [intros [= <- <-]; exists h; unfold new_calls; rewrite drop_all; by split; [constructor|]|done || idtac]).
  unfold mbind at 1, try_. destruct (next_call s) as (r & w & -> & Hn & Hw).
  set (s1 := set_wire w s) in *.
  destruct r as [[f|]|e]; [|intros [= <- <-]; exists h; rewrite Hn; by split; [constructor|]|done].
  assert (shapes s1 ≡ h) as Hh1 by done.
  destruct f as [ws we c data|we c reply].
  - destruct (count_bytes options (blen data) (observe we rs)) as [rs1 report] eqn:Ec.
    set (s2 := if report then add_log (LargeTransaction (txn_bytes rs1) (Z.of_nat (length (open_txn rs1)))) s1 else s1).
    assert (shapes s2 = shapes s1 /\ wire s2 = wire s1) as [Es2 Ew2] by (subst s2; by destruct report).
    unfold mbind at 1.
    replace ((if report then event _ else ret tt) s1) with (Done tt, s2) by (subst s2; by destruct report).
    clearbody s2. unfold mbind at 1. destruct (decode_logical data) as [m|e] eqn:Ed; [|done]. cbn [lift_result ret].
    unfold mbind at 1. destruct (apply_scans from ws m rs1 s2) as (s3 & -> & Hs3 & Ew3).
    rewrite Es2 in Hs3 |- *. destruct (scan_message_equiv from ws m _ _ rs1 Hh1) as [E1 E2]. rewrite E2 in *.
    intros Hrun. pose proof Hrun as Hst. apply (f_equal snd) in Hst. cbn [snd] in Hst.
    pose proof (steady_loop options tables n from stop budget (scan_message from ws m (h, rs1)).2 s3) as [_ Hc3 _].
    rewrite Hst in Hc3.
    assert (shapes s3 ≡ (scan_message from ws m (h, rs1)).1) as Hh3 by (by rewrite Hs3).
    destruct (IH _ _ _ Hh3 Hrun) as (h' & Hsc & Hh').
    exists h'. split; [|done].
    assert (new_calls s3 s' = new_calls s1 s') as En by (unfold new_calls; by rewrite Ew3, Ew2).
    rewrite (frames_step s s1 s' (XLogData ws we c data)); [|done|by rewrite <-En, <-Ew2, <-Ew3]. rewrite <-En.
    eapply scans_cons; [done| |by rewrite <-surjective_pairing in Hsc; exact Hsc]. cbn [scan fst snd]. by rewrite Ed, Ec.
  - unfold mbind at 1. destruct ((if reply then _ else ret tt) s1) as [[[]|e|] s2] eqn:Er; [|done|done].
    destruct (reply_keeps _ _ _ Er) as (Es2 & Ef2 & Ec2). intros Hrun.
    pose proof (steady_loop options tables n from stop budget (observe we rs) s2) as [_ Hc3 _].
    pose proof (f_equal snd Hrun) as Hst. cbn [snd] in Hst. rewrite Hst in Hc3.
    assert (shapes s2 ≡ h) as Hh2 by (by rewrite Es2). destruct (IH _ _ _ Hh2 Hrun) as (h' & Hsc & Hh').
    exists h'. split; [|done]. destruct (new_calls_trans s1 s2 s') as [En Ec]; [done|done|].
    rewrite (frames_step s s1 s' (Keepalive we c reply)); [|done|done]. rewrite En, frames_app, Ef2.
    by eapply scans_cons.
Qed.

(** *** Transactions *)

Fixpoint render (h : Shapes) (ms : list (Lsn * LogicalMessage)) (evs : list ChangeEvent) : Shapes * list ChangeEvent :=
  match ms with
  | [] => (h, evs)
  | (ws, m) :: ms =>
      match m with
      | RelationMsg r => render (note r h) ms evs
      | _ => render h ms (push_message options tables h ws m evs)
      end
  end.

(** The rows of a transaction, stamped with its commit time. *)
Definition txn_events (h : Shapes) (t : Txn) : Shapes * list ChangeEvent :=
  let '(h, evs) := render h (tx_changes t) [] in (h, stamp (wraps 64 (tx_time t + PG_EPOCH_UNIX_MICROS)) <$> evs).

(** The rows of the transactions that end after [from]. *)
Fixpoint txns_events (from : Lsn) (h : Shapes) (txns : list Txn) : list ChangeEvent :=
  match txns with
  | [] => []
  | t :: txns =>
      let '(h, evs) := txn_events h t in
      (if lsn (tx_end t) <=? lsn from then [] else evs) ++ txns_events from h txns
  end.
Fixpoint txns_shapes (h : Shapes) (txns : list Txn) : Shapes :=
  match txns with [] => h | t :: txns => txns_shapes (txn_events h t).1 txns end.

Definition last_end (from e : Lsn) (txns : list Txn) : Lsn :=
  foldl (fun e t => if lsn (tx_end t) <=? lsn from then e else tx_end t) e txns.

(** What the messages determine of the loop's variables. *)
Record View := { v_shapes : Shapes; v_committed : list ChangeEvent; v_open : list ChangeEvent; v_in : bool; v_end : Lsn }.
Definition view (p : Shapes * ReadState) : View :=
  {| v_shapes := p.1; v_committed := committed p.2; v_open := open_txn p.2; v_in := in_txn p.2; v_end := range_end p.2 |}.

Definition view_step (from : Lsn) (v : View) (c : Lsn * LogicalMessage) : View :=
  match c.2 with
  | RelationMsg r =>
      {| v_shapes := note r (v_shapes v); v_committed := v_committed v; v_open := v_open v; v_in := v_in v; v_end := v_end v |}
  | Begin _ _ _ => {| v_shapes := v_shapes v; v_committed := v_committed v; v_open := []; v_in := true; v_end := v_end v |}
  | Commit _ _ e time =>
      if lsn e <=? lsn from
      then {| v_shapes := v_shapes v; v_committed := v_committed v; v_open := []; v_in := false; v_end := v_end v |}
      else {| v_shapes := v_shapes v;
              v_committed := v_committed v ++ (stamp (wraps 64 (time + PG_EPOCH_UNIX_MICROS)) <$> v_open v);
              v_open := []; v_in := false; v_end := e |}
  | m => {| v_shapes := v_shapes v; v_committed := v_committed v;
            v_open := push_message options tables (v_shapes v) c.1 m (v_open v); v_in := v_in v; v_end := v_end v |}
  end.

Lemma scan_view from f p q : scan from f p = Ok q ->
  exists ms, messages [f] = Ok ms /\ view q = foldl (view_step from) (view p) ms.
Proof.
  destruct f as [ws we c data|we c reply]; cbn [scan messages]; [|by intros [= <-]; exists []].
  destruct (decode_logical data) as [m|e]; [|done]. cbn -[scan_message count_bytes]. intros [= <-]. eexists. split; [done|].
  cbn [foldl]. destruct m; try done. unfold scan_message, commit_txn, view_step. cbn -[stamp]. by destruct (_ <=? _).
Qed.

Lemma messages_cons f fs ms ms' : messages [f] = Ok ms -> messages fs = Ok ms' -> messages (f :: fs) = Ok (ms ++ ms').
Proof.
  destruct f as [ws we c data|we c reply]; cbn; [|intros [= <-]; done].
  destruct (decode_logical data); [|done]. cbn. intros [= <-] ->. done.
Qed.

Lemma scans_view from stop budget p fs q : scans from stop budget p fs q ->
  exists ms, messages fs = Ok ms /\ view q = foldl (view_step from) (view p) ms.
Proof.
  induction 1 as [p|p q r f fs _ Hf _ (ms & Hms & Hv)]; [by exists []|].
  destruct (scan_view _ _ _ _ Hf) as (m1 & Hm1 & Hv1). exists (m1 ++ ms).
  split; [by apply messages_cons|]. by rewrite foldl_app, <-Hv1.
Qed.

Lemma changes_view from ms v : Forall (fun c => is_change c.2 = true) ms ->
  foldl (view_step from) v ms =
  {| v_shapes := (render (v_shapes v) ms (v_open v)).1; v_committed := v_committed v;
     v_open := (render (v_shapes v) ms (v_open v)).2; v_in := v_in v; v_end := v_end v |}.
Proof.
  intros H. revert v. induction H as [|[ws m] ms Hm _ IH]; intros v; [by destruct v|].
  cbn [foldl render]. rewrite IH. by destruct m.
Qed.

Lemma txn_view from t v : txn_ok t ->
  foldl (view_step from) v (txn_messages t) =
  {| v_shapes := (txn_events (v_shapes v) t).1;
     v_committed := v_committed v ++ (if lsn (tx_end t) <=? lsn from then [] else (txn_events (v_shapes v) t).2);
     v_open := []; v_in := false; v_end := if lsn (tx_end t) <=? lsn from then v_end v else tx_end t |}.
Proof.
  intros Ht. unfold txn_messages. cbn [foldl]. rewrite foldl_app, (changes_view _ (tx_changes t)) by exact Ht. cbn [foldl].
  unfold txn_events, view_step at 1. cbn -[render]. destruct (render _ _ _) as [h evs]. cbn.
  destruct (_ <=? _); by rewrite ?app_nil_r.
Qed.

Lemma txns_view from txns v : Forall txn_ok txns -> v_in v = false ->
  exists o, foldl (view_step from) v (txns ≫= txn_messages) =
  {| v_shapes := txns_shapes (v_shapes v) txns; v_committed := v_committed v ++ txns_events from (v_shapes v) txns;
     v_open := o; v_in := false; v_end := last_end from (v_end v) txns |}.
Proof.
  intros H. revert v. induction H as [|t txns Ht _ IH]; intros v Hv.
  - exists (v_open v). destruct v as [h c o i e]. cbn in *. subst i. by rewrite app_nil_r.
  - rewrite bind_cons, foldl_app, txn_view by done. edestruct IH as [o E]; [|rewrite E]; [done|].
    exists o. f_equal; cbn -[txn_events]. destruct (txn_events _ _) as [h evs]. cbn. by rewrite app_assoc.
Qed.

Lemma stream_view from h ms txns cut : reads_txns ms txns cut ->
  let v := foldl (view_step from) (view (h, read_start from)) ms in
  v_committed v = txns_events from h txns /\ v_in v = bool_decide (cut <> []) /\ v_end v = last_end from from txns.
Proof.
  intros [Hok -> Hcut]. cbn zeta. rewrite foldl_app.
  destruct (txns_view from txns (view (h, read_start from)) Hok eq_refl) as [o ->].
  destruct Hcut as [->|(t & k & Ht & ->)]; [done|]. cbn [foldl].
  rewrite changes_view; [done|]. by apply Forall_take.
Qed.

(** What has been seen of the log only grows, and covers every commit read. *)
Lemma scan_observed from f p q : scan from f p = Ok q ->
  lsn (observed p.2) <= lsn (observed q.2) /\
  forall ms c, messages [f] = Ok ms -> c ∈ ms -> forall fl cl e t, c.2 = Commit fl cl e t -> lsn e <= lsn (observed q.2).
Proof.
  assert (forall a b, lsn a <= lsn (lsn_max a b) /\ lsn b <= lsn (lsn_max a b)) as Hmax
    by (intros a b; unfold lsn_max; destruct (_ <? _) eqn:E; lia).
  destruct f as [ws we c data|we c reply]; cbn [scan messages].
  - destruct (decode_logical data) as [m|e]; [|done]. cbn -[scan_message count_bytes]. intros [= <-].
    assert (lsn (observed p.2) <= lsn (observed (scan_message from ws m (p.1, (count_bytes options (blen data) (observe we p.2)).1)).2)) as Hm.
    { pose proof (Hmax (observed p.2) we) as H1. destruct m; cbn -[lsn_max]; try lia.
      unfold commit_txn. pose proof (Hmax (lsn_max (observed p.2) we) end_lsn). destruct (_ <=? _); cbn -[lsn_max]; lia. }
    split; [exact Hm|]. intros ms c' [= <-] ->%list_elem_of_singleton fl cl e t Hc. cbn in Hc. subst m.
    cbn -[lsn_max commit_txn count_bytes]. unfold commit_txn.
    pose proof (Hmax (observed (count_bytes options (blen data) (observe we p.2)).1) e).
    destruct (_ <=? _); cbn -[lsn_max] in *; lia.
  - intros [= <-]. cbn -[lsn_max]. split; [apply Hmax|]. by intros ms c' [= <-] ?%elem_of_nil.
Qed.

Lemma scans_observed from stop budget p fs q ms : scans from stop budget p fs q -> messages fs = Ok ms ->
  lsn (observed p.2) <= lsn (observed q.2) /\
  forall c, c ∈ ms -> forall fl cl e t, c.2 = Commit fl cl e t -> lsn e <= lsn (observed q.2).
Proof.
  intros H. revert ms. induction H as [p|p q r f fs _ Hf Hs IH]; intros ms Hms.
  - split; [done|]. injection Hms as <-. by intros c ?%elem_of_nil.
  - destruct (scan_view _ _ _ _ Hf) as (m1 & Hm1 & _). destruct (scans_view _ _ _ _ _ _ Hs) as (m2 & Hm2 & _).
    pose proof (messages_cons _ _ _ _ Hm1 Hm2) as E. rewrite Hms in E. injection E as ->.
    destruct (scan_observed _ _ _ _ Hf) as [H1 H2]. destruct (IH _ Hm2) as [H3 H4]. split; [lia|].
    intros c [Hc|Hc]%elem_of_app fl cl e t He; [|by eapply H4]. specialize (H2 _ _ Hm1 Hc _ _ _ _ He). lia.
Qed.

Lemma ensure_stream_keeps l (s : Src) s1 : ensure_stream tables l s = (Done tt, s1) ->
  shapes s1 = shapes s /\ frames (new_calls s s1) = [].
Proof.
  unfold ensure_stream, finish_snapshot, try_, mbind, get, ask, modify, throw, ret.
  cbn [end_snapshot start_stream History_wire]. unfold recorded.
  assert (forall s : Src, frames (new_calls s s) = []) as Hnil by (intros t; unfold new_calls; by rewrite drop_all).
  destruct (_ || _ || _); [|destruct (end_snapshot (hw (wire s))) as [[[]|e] w]; [|done]];
    cbn; (destruct (bool_decide _); [intros [= <-]|destruct (start_stream l _) as [[[]|e'] w']; [intros [= <-]|done]]);
    unfold new_calls; cbn; rewrite ?drop_all, <-?app_assoc, ?drop_app_length; done.
Qed.

Lemma read_forward_inv fuel from stop budget (s : Src) evs e s' :
  read_forward options tables fuel from stop budget s = (Done (evs, e), s') ->
  exists h rs, scans from stop budget (shapes s, read_start from) (frames (new_calls s s')) (h, rs) /\ shapes s' ≡ h /\
    evs = committed rs /\
    (committed rs = [] /\ in_txn rs = false /\ e = lsn_max (observed rs) from /\ stream_at s' = Some e \/
     (committed rs <> [] \/ in_txn rs = true) /\ e = range_end rs /\
     stream_at s' = if in_txn rs then None else Some (lsn_max e from)).
Proof.
  unfold read_forward, mbind.
  pose proof (steady_stream tables from s) as [_ Hc1 _].
  destruct (ensure_stream tables from s) as [[[]|e0|] s1] eqn:E1; [|done|done]. cbn [snd] in Hc1.
  destruct (ensure_stream_keeps _ _ _ E1) as [Hsh Hfr].
  pose proof (steady_loop options tables fuel from stop budget (read_start from) s1) as [_ Hc2 _].
  destruct (read_loop _ _ _ _ _ _ _ s1) as [[rs|e0|] s2] eqn:E2; [|done|done]. cbn [snd] in Hc2.
  assert (shapes s1 ≡ shapes s) as Hsh' by (by rewrite Hsh).
  destruct (read_loop_scans _ _ _ _ _ _ _ _ _ Hsh' E2) as (h & Hsc & Hh).
  destruct (new_calls_trans _ _ _ Hc1 Hc2) as [En _].
  assert (forall s3 : Src, wire s3 = wire s2 -> frames (new_calls s s3) = frames (new_calls s1 s2)) as Hf.
  { intros s3 Ew. transitivity (frames (new_calls s s2)); [unfold new_calls; by rewrite Ew|]. by rewrite En, frames_app, Hfr. }
  unfold modify. cbn -[lsn_max]. intros Hr. exists h, rs.
  destruct (bool_decide_reflect (committed rs = [])) as [Hc|Hc], (in_txn rs) eqn:Ei; cbn -[lsn_max] in Hr;
    injection Hr as <- <- <-; rewrite Hf by done; (split; [done|]; split; [done|]; split; [by rewrite ?Hc|]); auto 10.
Qed.

Lemma last_end_cases from e txns : last_end from e txns = e \/ exists t, t ∈ txns /\ last_end from e txns = tx_end t.
Proof.
  revert e. induction txns as [|t txns IH]; intros e; [by left|]. cbn.
  destruct (IH (if lsn (tx_end t) <=? lsn from then e else tx_end t)) as [H|(t' & Ht' & H)].
  - unfold last_end in H. rewrite H. destruct (_ <=? _); [by left|]. right. exists t. split; [by left|done].
  - right. exists t'. split; [by right|done].
Qed.

Definition by_end (a b : Txn) : Prop := lsn (tx_end a) < lsn (tx_end b).

(** Each end after [from] passes on the greatest seen so far. *)
Lemma last_end_ge from e txns : StronglySorted by_end txns ->
  Forall (fun t => lsn e < lsn (tx_end t) \/ lsn (tx_end t) <= lsn from) txns \/ lsn e <= lsn from ->
  (lsn e <= lsn (last_end from e txns) \/ lsn e <= lsn from) /\
  forall t, t ∈ txns -> lsn from < lsn (tx_end t) -> lsn (tx_end t) <= lsn (last_end from e txns).
Proof.
  intros Hs. revert e. induction Hs as [|t txns Hs IH Hf]; intros e He.
  - split; [by left|]. by intros t ?%elem_of_nil.
  - cbn. destruct (Z.leb_spec (lsn (tx_end t)) (lsn from)) as [Hle|Hlt].
    + destruct (IH e) as [H1 H2].
      { destruct He as [He|He]; [left; by inversion He|by right]. }
      split; [done|]. intros u [->|Hu]%elem_of_cons Hfu; [lia|by apply H2].
    + destruct (IH (tx_end t)) as [H1 H2].
      { left. eapply Forall_impl; [exact Hf|]. unfold by_end. auto. }
      unfold last_end in *. split.
      * destruct He as [He|He]; [|by right]. inversion He; subst. lia.
      * intros u [->|Hu]%elem_of_cons Hfu; [lia|by apply H2].
Qed.

(** C18. The log is read in whole transactions.  Whatever the server sends, when a
    read of the log succeeds and what arrived is whole transactions and
    possibly the beginning of another, the rows returned are exactly those of
    the transactions that end after the start of the range, in order, stamped
    with their commit; nothing of the unfinished transaction is returned, and
    the next read starts the stream over.  The range ends at its start, at the
    end of one of these transactions, or, when there was nothing to return, at
    a point between transactions; every transaction returned ends within it. *)
Theorem read_forward_transactions fuel from stop budget (s : Src) evs e s' ms txns cut :
  read_forward options tables fuel from stop budget s = (Done (evs, e), s') ->
  messages (frames (new_calls s s')) = Ok ms -> reads_txns ms txns cut -> StronglySorted by_end txns ->
  evs = txns_events from (shapes s) txns /\
  (cut <> [] -> stream_at s' = None) /\
  (e = from \/ (exists t, t ∈ txns /\ e = tx_end t) \/ evs = [] /\ cut = []) /\
  (forall t, t ∈ txns -> lsn from < lsn (tx_end t) -> lsn (tx_end t) <= lsn e).
Proof.
  intros Hr Hms Hrt Hsort. destruct (read_forward_inv _ _ _ _ _ _ _ _ Hr) as (h & rs & Hsc & _ & -> & Hend).
  destruct (scans_view _ _ _ _ _ _ Hsc) as (ms' & Hms' & Hv). rewrite Hms in Hms'. injection Hms' as <-.
  destruct (stream_view from (shapes s) ms txns cut Hrt) as (Hc & Hi & He). rewrite <-Hv in Hc, Hi, He. cbn in Hc, Hi, He.
  split; [done|]. destruct Hend as [(Hnil & Hin & -> & Hat)|(_ & -> & Hat)].
  - assert (cut = []) as Hcut by (rewrite Hin in Hi; by destruct cut).
    split; [done|]. split; [auto|]. intros t Ht _. destruct (scans_observed _ _ _ _ _ _ _ Hsc Hms) as [_ Ho].
    assert (lsn (tx_end t) <= lsn (observed rs)) as Hle; [|unfold lsn_max; destruct (_ <? _) eqn:E; lia].
    eapply (Ho (txn_commit t)); [|done]. rewrite (rt_messages _ _ _ Hrt). apply elem_of_app. left.
    apply list_elem_of_bind. exists t. split; [|done]. right. apply elem_of_app. right. by left.
  - rewrite He in *. split.
    { intros Hcut. rewrite Hi, bool_decide_true in Hat by done. done. }
    split.
    + destruct (last_end_cases from from txns) as [|(t & ? & ?)]; eauto.
    + by apply last_end_ge; [|right].
Qed.

(** *** Reading a range again *)

(** The relations a change is about. *)
Definition oids_of (m : LogicalMessage) : list Z :=
  match m with
  | Insert o _ | Update o _ _ _ | Delete o _ _ => [o]
  | Truncate _ os => os
  | _ => []
  end.

(** The relations known after some messages, and whether every change is about
    one that is known by then. *)
Definition learns (m : LogicalMessage) (known : gset Z) : gset Z :=
  match m with
  | RelationMsg r => match find_table tables r with Some _ => {[ rel_oid r ]} ∪ known | None => known end
  | _ => known
  end.
Fixpoint described (known : gset Z) (ms : list (Lsn * LogicalMessage)) : Prop :=
  match ms with
  | [] => True
  | (_, m) :: ms => (forall o, o ∈ oids_of m -> o ∈ known) /\ described (learns m known) ms
  end.
Definition known_after (known : gset Z) (ms : list (Lsn * LogicalMessage)) : gset Z :=
  foldl (fun (known : gset Z) c => learns c.2 known) known ms.

Definition agree (known : gset Z) (h k : Shapes) : Prop :=
  forall o, o ∈ known -> relations h !! o = relations k !! o /\ projections h !! o = projections k !! o.

Lemma project_agree known h k o tuple : agree known h k -> o ∈ known -> project tables h o tuple = project tables k o tuple.
Proof. intros Ha Ho. destruct (Ha _ Ho) as [E1 E2]. unfold project. by rewrite E1, E2. Qed.

Lemma push_row_agree known h k evs o op ws tuple : agree known h k -> o ∈ known ->
  push_row tables h evs o op ws tuple = push_row tables k evs o op ws tuple.
Proof. intros Ha Ho. unfold push_row. by rewrite (project_agree _ _ _ _ _ Ha Ho). Qed.

Lemma push_agree known h k ws m evs : agree known h k -> (forall o, o ∈ oids_of m -> o ∈ known) ->
  push_message options tables h ws m evs = push_message options tables k ws m evs.
Proof.
  intros Ha Ho. destruct m as [| | | | |o new|o key old new|o key old|f os]; try done;
    cbn [push_message oids_of] in *; unfold push_change.
  - rewrite (push_row_agree _ _ _ _ _ _ _ _ Ha); [done|]. apply Ho. by left.
  - assert (o ∈ known) as Hk by (apply Ho; by left). destruct (Ha _ Hk) as [E1 _].
    assert (moved_key tables h o key old new = moved_key tables k o key old new) as ->.
    { unfold moved_key, key_positions. rewrite E1. destruct key as [|], old as [old|]; try done.
      by rewrite (project_agree _ _ _ o old Ha Hk), (project_agree _ _ _ o new Ha Hk). }
    destruct (moved_key _ _ _ _ _ _) as [was|].
    + by rewrite (push_row_agree _ _ _ _ o OpDelete ws was Ha Hk), (push_row_agree _ _ _ _ o OpUpdate ws new Ha Hk).
    + by rewrite (push_row_agree _ _ _ _ o OpUpdate ws new Ha Hk).
  - rewrite (push_row_agree _ _ _ _ _ _ _ _ Ha); [done|]. apply Ho. by left.
  - revert evs. induction os as [|o os IH]; intros evs; [done|]. cbn [foldl].
    rewrite (push_row_agree _ _ _ _ _ _ _ _ Ha); [|apply Ho; by left]. apply IH. intros o' Ho'. apply Ho. by right.
Qed.

Lemma note_agree known h k r : agree known h k -> agree (learns (RelationMsg r) known) (note r h) (note r k).
Proof.
  intros Ha o. unfold learns, note. destruct (find_table tables r); [|apply Ha]. cbn.
  destruct (decide (o = rel_oid r)) as [->|Hne]; [by rewrite !lookup_insert_eq|].
  rewrite !lookup_insert_ne by done. intros [Ho%elem_of_singleton|Ho]%elem_of_union; [done|by apply Ha].
Qed.

Lemma render_agree known h k ms evs : agree known h k -> described known ms ->
  (render h ms evs).2 = (render k ms evs).2 /\ agree (known_after known ms) (render h ms evs).1 (render k ms evs).1.
Proof.
  revert known h k evs. induction ms as [|[ws m] ms IH]; intros known h k evs Ha Hd; [done|].
  destruct Hd as [Ho Hd]. destruct m; cbn [render]; try (rewrite (push_agree _ _ _ _ _ _ Ha Ho); by apply IH).
  apply (IH (learns (RelationMsg r) known)); [by apply note_agree|done].
Qed.

Lemma described_app known ms ms' : described known (ms ++ ms') <-> described known ms /\ described (known_after known ms) ms'.
Proof.
  revert known. induction ms as [|[ws m] ms IH]; intros known; cbn; [tauto|]. rewrite IH. cbn. tauto.
Qed.

Lemma txns_events_agree from known h k txns : agree known h k -> described known (txns ≫= tx_changes) ->
  txns_events from h txns = txns_events from k txns.
Proof.
  revert known h k. induction txns as [|t txns IH]; intros known h k Ha Hd; [done|].
  rewrite bind_cons, described_app in Hd. destruct Hd as [Hd1 Hd2].
  destruct (render_agree known h k _ [] Ha Hd1) as [Er Hr]. cbn [txns_events]. unfold txn_events.
  destruct (render h _ _) as [h1 e1], (render k _ _) as [k1 e2]. cbn in Er, Hr. subst e2.
  f_equal. by apply (IH (known_after known (tx_changes t))).
Qed.

Lemma txns_events_app from h a b : txns_events from h (a ++ b) = txns_events from h a ++ txns_events from (txns_shapes h a) b.
Proof.
  revert h. induction a as [|t a IH]; intros h; [done|]. cbn [app txns_events txns_shapes].
  destruct (txn_events h t) as [h1 e1]. cbn. by rewrite IH, app_assoc.
Qed.

(** Every row carries the position of a change of its transaction. *)
Lemma push_message_lsn h ws m evs e : e ∈ push_message options tables h ws m evs -> e ∈ evs \/ ev_lsn e = as_i64 ws.
Proof.
  assert (forall evs o op tuple, e ∈ push_row tables h evs o op ws tuple -> e ∈ evs \/ ev_lsn e = as_i64 ws) as Hrow.
  { intros l o op tuple. unfold push_row. destruct (project _ _ _ _); [|auto].
    intros [?|He%list_elem_of_singleton]%elem_of_app; [auto|by subst e; right]. }
  assert (forall evs o op tuple, e ∈ push_change options tables h evs o op ws tuple -> e ∈ evs \/ ev_lsn e = as_i64 ws) as Hch.
  { intros l o op tuple. unfold push_change. destruct (bool_decide _); [apply Hrow|auto]. }
  destruct m as [| | | | |o new|o key old new|o key old|f os]; cbn [push_message]; try (by auto); try apply Hch.
  - intros [He|]%Hch; [|auto]. destruct (moved_key _ _ _ _ _ _); [by eapply Hrow|auto].
  - revert evs. induction os as [|o os IH]; intros evs; [auto|]. cbn. intros [He|]%IH; [by apply Hch in He|auto].
Qed.

Lemma render_lsn h ms evs e : e ∈ (render h ms evs).2 -> e ∈ evs \/ exists c, c ∈ ms /\ ev_lsn e = as_i64 c.1.
Proof.
  revert h evs. induction ms as [|[ws m] ms IH]; intros h evs; [auto|].
  destruct m; cbn [render]; (intros [He|(c & Hc & Hl)]%IH; [|right; exists c; split; [by right|done]]);
    try (apply push_message_lsn in He as [He|He]; [auto|right; eexists (_, _); split; [by left|done]]).
  by left.
Qed.

Lemma txns_events_lsn from h txns e : e ∈ txns_events from h txns ->
  exists t c, t ∈ txns /\ c ∈ tx_changes t /\ ev_lsn e = as_i64 c.1.
Proof.
  revert h. induction txns as [|t txns IH]; intros h; [by intros ?%elem_of_nil|]. cbn [txns_events].
  unfold txn_events. pose proof (render_lsn h (tx_changes t) []) as Hr. destruct (render _ _ _) as [h1 evs].
  intros [He|He]%elem_of_app.
  - destruct (_ <=? _); [by apply elem_of_nil in He|]. apply list_elem_of_fmap in He as (e0 & -> & He0).
    apply Hr in He0 as [?%elem_of_nil|(c & Hc & Hl)]; [done|]. exists t, c. split; [by left|done].
  - destruct (IH _ He) as (t' & c & ? & ? & ?). exists t', c. split; [by right|done].
Qed.

(** The publisher's log, in commit order: a change precedes the end of its
    transaction. *)
Record log_ok (T : list Txn) : Prop := {
  lo_sorted : StronglySorted by_end T;
  lo_changes : forall t c, t ∈ T -> c ∈ tx_changes t -> 0 <= lsn c.1 < lsn (tx_end t);
}.

(** The frames of one session carry the log from its beginning on. *)
Definition delivers (T : list Txn) (fs : list WireMessage) (txns : list Txn) : Prop :=
  exists ms cut, messages fs = Ok ms /\ reads_txns ms txns cut /\ txns `prefix_of` T.

(** The position a frame claims the log has been sent up to. *)
Definition claim (f : WireMessage) : Lsn := match f with XLogData _ e _ _ => e | Keepalive e _ _ => e end.

(** A claim does not pass the end of a transaction that was not sent. *)
Definition honest (T : list Txn) (fs : list WireMessage) : Prop :=
  forall i f ms, fs !! i = Some f -> messages (take (S i) fs) = Ok ms ->
  forall t, t ∈ T -> lsn (tx_end t) <= lsn (claim f) -> txn_commit t ∈ ms.

(** Everything observed was claimed by a frame or is the end of a commit. *)
Lemma scans_observed_by from stop budget p fs q : scans from stop budget p fs q ->
  observed q.2 = observed p.2 \/ (exists f, f ∈ fs /\ observed q.2 = claim f) \/
  (exists ms c fl cl t, messages fs = Ok ms /\ c ∈ ms /\ c.2 = Commit fl cl (observed q.2) t).
Proof.
  intros H. induction H as [p|p q r f fs _ Hf Hs IH]; [by left|].
  assert (forall a b : Lsn, lsn_max a b = a \/ lsn_max a b = b) as Hmax by (intros a b; unfold lsn_max; destruct (_ <? _); auto).
  assert (observed q.2 = observed p.2 \/ observed q.2 = claim f \/
    exists ms c fl cl t, messages [f] = Ok ms /\ c ∈ ms /\ c.2 = Commit fl cl (observed q.2) t) as Hq.
  { destruct f as [ws we c data|we c reply]; cbn [scan messages claim] in *.
    - destruct (decode_logical data) as [m|e]; [|done]. cbn -[scan_message count_bytes] in Hf |- *. injection Hf as <-.
      destruct m; try (cbn -[lsn_max]; destruct (Hmax (observed p.2) we); by auto).
      set (rs1 := (count_bytes options (blen data) (observe we p.2)).1).
      assert (observed (commit_txn from end_lsn commit_time rs1) = lsn_max (lsn_max (observed p.2) we) end_lsn) as Ho
        by (unfold commit_txn; destruct (lsn end_lsn <=? lsn from); reflexivity).
      change (observed (scan_message from ws _ _).2) with (observed (commit_txn from end_lsn commit_time rs1)). rewrite Ho.
      destruct (Hmax (lsn_max (observed p.2) we) end_lsn) as [->| ->]; [destruct (Hmax (observed p.2) we); by auto|].
      right; right. eexists _, _, flags, commit_lsn, commit_time. split; [done|]. split; [by left|done].
    - injection Hf as <-. cbn -[lsn_max]. destruct (Hmax (observed p.2) we); auto. }
  destruct (scan_view _ _ _ _ Hf) as (m1 & Hm1 & _). destruct (scans_view _ _ _ _ _ _ Hs) as (m2 & Hm2 & _).
  pose proof (messages_cons _ _ _ _ Hm1 Hm2) as E.
  destruct IH as [Eq|[(g & Hg & Eq)|(ms & c & fl & cl & t & Hms & Hc & Ec)]].
  - rewrite Eq. destruct Hq as [?|[?|(ms & c & fl & cl & t & Hms & Hc & Ec)]]; [by left|right; left; exists f; split; [by left|done]|].
    right. right. exists (m1 ++ m2), c, fl, cl, t. split; [done|]. rewrite Hm1 in Hms. injection Hms as <-. split; [|done].
    apply elem_of_app. by left.
  - right. left. exists g. split; [by right|done].
  - right. right. exists (m1 ++ m2), c, fl, cl, t. split; [done|]. rewrite Hm2 in Hms. injection Hms as <-. split; [|done].
    apply elem_of_app. by right.
Qed.

Lemma messages_take fs ms i : messages fs = Ok ms -> exists ms', messages (take i fs) = Ok ms' /\ ms' `prefix_of` ms.
Proof.
  revert ms i. induction fs as [|f fs IH]; intros ms i H; [exists []; rewrite take_nil; split; [done|apply prefix_nil]|].
  destruct i as [|i]; [exists []; split; [done|apply prefix_nil]|]. destruct f as [ws we c data|we c reply]; cbn in *.
  - destruct (decode_logical data) as [m|]; [|done]. cbn in *. destruct (messages fs) as [ms2|] eqn:E; [|done].
    cbn in H. injection H as <-. destruct (IH _ i eq_refl) as (ms' & -> & Hp). eexists. split; [done|]. by apply prefix_cons.
  - by apply IH.
Qed.

(** The frames of a beginning of the messages, with a frame still to come. *)
Lemma messages_split fs a b : messages fs = Ok (a ++ b) -> b <> [] ->
  exists fs1 f fs2, fs = fs1 ++ f :: fs2 /\ messages fs1 = Ok a.
Proof.
  revert a. induction fs as [|f fs IH]; intros a H Hb.
  - cbn in H. injection H as H. by apply symmetry, app_nil in H as [].
  - destruct a as [|x a]; [by exists [], f, fs|]. destruct f as [ws we c data|we c reply]; cbn in H.
    + destruct (decode_logical data) as [m|] eqn:Ed; [|done]. cbn in H. destruct (messages fs) as [ms2|] eqn:E; [|done].
      cbn in H. injection H as <- ->. destruct (IH a) as (fs1 & f & fs2 & -> & Hf); [done|done|].
      exists (XLogData ws we c data :: fs1), f, fs2. split; [done|]. cbn. by rewrite Ed, Hf.
    + destruct (IH (x :: a)) as (fs1 & f & fs2 & -> & Hf); [done|done|].
      by exists (Keepalive we c reply :: fs1), f, fs2.
Qed.

Lemma scans_split from stop budget p fs1 f fs2 q : scans from stop budget p (fs1 ++ f :: fs2) q ->
  exists r, scans from stop budget p fs1 r /\ batch_full stop budget r.2 = false.
Proof.
  revert p. induction fs1 as [|g fs1 IH]; intros p H; inversion H; subst.
  - exists p. by split; [constructor|].
  - destruct (IH _ H6) as (r & Hr & Hb). exists r. split; [by econstructor|done].
Qed.

Lemma txns_events_old from h txns : Forall (fun t => lsn (tx_end t) <= lsn from) txns -> txns_events from h txns = [].
Proof.
  intros H. revert h. induction H as [|t txns Ht _ IH]; intros h; [done|]. cbn [txns_events].
  destruct (txn_events h t) as [h1 evs]. destruct (Z.leb_spec (lsn (tx_end t)) (lsn from)); [by rewrite IH|lia].
Qed.

Lemma sorted_last l t : StronglySorted by_end (l ++ [t]) -> Forall (fun u => lsn (tx_end u) < lsn (tx_end t)) l.
Proof.
  induction l as [|u l IH]; intros H; [done|]. inversion H as [|? ? Hs Hf]; subst. constructor; [|by apply IH].
  rewrite Forall_forall in Hf. apply Hf. apply elem_of_app. right. by left.
Qed.

(** The range of a read that returned rows ends with its last transaction. *)
Lemma last_end_last from h txns : StronglySorted by_end txns -> txns_events from h txns <> [] ->
  exists l t, txns = l ++ [t] /\ last_end from from txns = tx_end t /\ lsn from < lsn (tx_end t).
Proof.
  intros Hs He. destruct txns as [|t l _] using rev_ind; [done|]. exists l, t. split; [done|].
  destruct (Z.leb_spec (lsn (tx_end t)) (lsn from)) as [Hle|Hlt].
  - destruct He. apply txns_events_old. apply Forall_app. split; [|by constructor].
    eapply Forall_impl; [by apply sorted_last|]. intros u Hu. cbn in Hu. lia.
  - split; [|done]. unfold last_end. rewrite foldl_app. cbn. destruct (Z.leb_spec (lsn (tx_end t)) (lsn from)); [lia|done].
Qed.

(** Two beginnings of the log: one that reaches the last transaction of the
    other contains it. *)
Lemma prefix_reaches T l t txns u : StronglySorted by_end T ->
  (l ++ [t]) `prefix_of` T -> txns `prefix_of` T -> u ∈ txns -> lsn (tx_end t) <= lsn (tx_end u) ->
  (l ++ [t]) `prefix_of` txns.
Proof.
  intros Hs H1 H2 Hu Hle. destruct (prefix_weak_total _ _ _ H1 H2) as [|[k Hk]]; [done|].
  destruct k as [|x k _] using rev_ind; [by rewrite Hk, app_nil_r|].
  rewrite app_assoc in Hk. apply app_inj_tail in Hk as [-> <-].
  destruct H1 as [k' ->]. assert (StronglySorted by_end ((txns ++ k) ++ [t])) as Hs' by (by apply StronglySorted_app_1_l in Hs).
  apply sorted_last in Hs'. rewrite Forall_forall in Hs'. specialize (Hs' u). unfold by_end in Hs'.
  rewrite elem_of_app in Hs'. specialize (Hs' (or_introl Hu)). lia.
Qed.

(** In an honest session everything up to the observed position was sent. *)
Lemma observed_sent from stop budget h T txns fs q t :
  log_ok T -> delivers T fs txns -> honest T fs -> scans from stop budget (h, read_start from) fs q ->
  t ∈ T -> lsn from < lsn (tx_end t) -> lsn (tx_end t) <= lsn (observed q.2) ->
  exists u, u ∈ txns /\ lsn (tx_end t) <= lsn (tx_end u).
Proof.
  intros Hlog (ms & cut & Hms & Hrt & Hp) Hh Hsc Ht Hf Ho.
  assert (forall c fl cl e tm, c ∈ ms -> c.2 = Commit fl cl e tm -> exists u, u ∈ txns /\ e = tx_end u) as Hcommit.
  { intros c fl cl e tm Hc Ec. rewrite (rt_messages _ _ _ Hrt) in Hc. apply elem_of_app in Hc as [Hc|Hc].
    - apply list_elem_of_bind in Hc as (u & Hc & Hu). pose proof (rt_ok _ _ _ Hrt) as Hok. rewrite Forall_forall in Hok.
      specialize (Hok _ Hu). unfold txn_ok in Hok. rewrite Forall_forall in Hok. unfold txn_messages in Hc.
      apply elem_of_cons in Hc as [->|[Hc|Hc%list_elem_of_singleton]%elem_of_app]; [done| |].
      + apply Hok in Hc. by rewrite Ec in Hc.
      + subst c. injection Ec as _ _ <- _. eauto.
    - destruct (rt_cut _ _ _ Hrt) as [->|(u & k & Hok & ->)]; [by apply elem_of_nil in Hc|].
      apply elem_of_cons in Hc as [->|Hc]; [done|]. unfold txn_ok in Hok. rewrite Forall_forall in Hok.
      assert (c ∈ tx_changes u) as Hc' by (rewrite <-(take_drop k (tx_changes u)); apply elem_of_app; by left).
      apply Hok in Hc'. by rewrite Ec in Hc'. }
  destruct (scans_observed_by _ _ _ _ _ _ Hsc) as [E|[(f & Hfs & E)|(ms' & c & fl & cl & tm & Hms' & Hc & Ec)]].
  - rewrite E in Ho. cbn in Ho. lia.
  - apply list_elem_of_lookup in Hfs as [i Hi]. destruct (messages_take _ _ (S i) Hms) as (ms' & Hms' & Hpre).
    rewrite E in Ho. pose proof (Hh _ _ _ Hi Hms' _ Ht Ho) as Hin.
    assert (txn_commit t ∈ ms) as Hin' by (destruct Hpre as [k ->]; apply elem_of_app; by left).
    destruct (Hcommit _ _ _ _ _ Hin' eq_refl) as (u & Hu & Eu). exists u. split; [done|]. by rewrite Eu.
  - rewrite Hms in Hms'. injection Hms' as <-. destruct (Hcommit _ _ _ _ _ Hc Ec) as (u & Hu & Eu).
    exists u. split; [done|]. by rewrite <-Eu.
Qed.

Lemma replay_inv fuel from e (s : Src) evs s' :
  replay options tables fuel from e s = (Done evs, s') ->
  exists s1 evs0 reached, read_forward options tables fuel from e (u_max 64) s1 = (Done (evs0, reached), s') /\
    lsn e <= lsn reached /\ evs = List.filter (fun ev => ev_lsn ev <? as_i64 e) evs0 /\
    shapes s1 = shapes s /\ frames (new_calls s s') = frames (new_calls s1 s').
Proof.
  unfold replay, mbind, event, modify. set (s0 := add_log _ s). cbn beta iota.
  pose proof (steady_stream tables from s0) as [_ Hc1 _].
  destruct (ensure_stream tables from s0) as [[[]|er|] s1] eqn:E1; [|done|done]. cbn [snd] in Hc1.
  destruct (ensure_stream_keeps _ _ _ E1) as [Hsh Hfr].
  pose proof (steady_read options tables fuel from e (u_max 64) s1) as [_ Hc2 _].
  destruct (read_forward _ _ _ _ _ _ s1) as [[[evs0 reached]|er|] s2] eqn:E2; [|done|done]. cbn [fst snd] in Hc2 |- *.
  destruct (Z.ltb_spec (lsn reached) (lsn e)); [done|]. intros [= <- <-]. exists s1, evs0, reached.
  split; [done|]. split; [done|]. split; [done|]. split; [done|].
  destruct (new_calls_trans _ _ _ Hc1 Hc2) as [En _]. change (new_calls s s2) with (new_calls s0 s2).
  by rewrite En, frames_app, Hfr.
Qed.

(** A session that starts the range over and reaches its end has read exactly
    the transactions of the range. *)
Lemma replay_reads_same from T l t txns2 fs h h' rs e reached :
  log_ok T -> (l ++ [t]) `prefix_of` T -> e = tx_end t -> lsn from < lsn e ->
  txns_events from h (l ++ [t]) <> [] ->
  scans from e (u_max 64) (h, read_start from) fs (h', rs) -> delivers T fs txns2 -> honest T fs ->
  (committed rs = [] /\ in_txn rs = false /\ reached = lsn_max (observed rs) from \/ reached = range_end rs) ->
  lsn e <= lsn reached -> committed rs = txns_events from h (l ++ [t]).
Proof.
  intros Hlog Hp1 He Hfe Hne Hsc Hd Hh Hreached Hle. pose proof Hd as (ms & cut & Hms & Hrt & Hp2).
  assert (t ∈ T) as HtT by (destruct Hp1 as [k ->]; rewrite <-app_assoc; apply elem_of_app; right; by left).
  destruct (scans_view _ _ _ _ _ _ Hsc) as (ms' & Hms' & Hv). rewrite Hms in Hms'. injection Hms' as <-.
  destruct (stream_view from h ms txns2 cut Hrt) as (Hc & Hi & Hend). rewrite <-Hv in Hc, Hi, Hend. cbn in Hc, Hi, Hend.
  assert (exists u, u ∈ txns2 /\ lsn (tx_end t) <= lsn (tx_end u)) as (u & Hu & Hue).
  { destruct Hreached as [(_ & _ & ->)| ->].
    - eapply (observed_sent from e (u_max 64) h T txns2 fs (h', rs)); [done..|by rewrite <-He|].
      rewrite <-He. cbn. unfold lsn_max in Hle. destruct (_ <? _) eqn:E in Hle; lia.
    - rewrite Hend in Hle. destruct (last_end_cases from from txns2) as [E|(u & Hu & E)]; rewrite E in Hle; [lia|].
      exists u. split; [done|]. by rewrite <-He. }
  destruct (prefix_reaches T l t txns2 u (lo_sorted _ Hlog) Hp1 Hp2 Hu Hue) as [k Hk].
  rewrite Hc. destruct (decide ((k ≫= txn_messages) ++ cut = [])) as [Hnil|Hmore].
  { apply app_nil in Hnil as [Hnil _]. destruct k; [by rewrite Hk, app_nil_r|done]. }
  exfalso. rewrite (rt_messages _ _ _ Hrt), Hk, bind_app, <-app_assoc in Hms.
  destruct (messages_split _ _ _ Hms Hmore) as (fs1 & f & fs2 & -> & Hms1).
  destruct (scans_split _ _ _ _ _ _ _ _ Hsc) as (r & Hr & Hfull).
  destruct (scans_view _ _ _ _ _ _ Hr) as (ms1 & Hms1' & Hv1). rewrite Hms1 in Hms1'. injection Hms1' as <-.
  assert (Forall txn_ok (l ++ [t])) as Hok by (pose proof (rt_ok _ _ _ Hrt) as H; rewrite Hk in H; by apply Forall_app in H as []).
  destruct (txns_view from (l ++ [t]) (view (h, read_start from)) Hok eq_refl) as [o Eo].
  rewrite <-Hv1 in Eo. injection Eo as _ _ _ Hin _.
  destruct (scans_observed _ _ _ _ _ _ _ Hr Hms1) as [_ Hobs].
  specialize (Hobs (txn_commit t)). unfold batch_full in Hfull. rewrite Hin in Hfull. cbn in Hfull.
  apply orb_false_iff in Hfull as [Hfull _]. rewrite He in Hfull.
  assert (lsn (tx_end t) <= lsn (observed r.2)); [|lia]. eapply Hobs; [|done].
  rewrite bind_app. apply elem_of_app. right. cbn. rewrite app_nil_r. right. apply elem_of_app. right. by left.
Qed.

(** C10. A recorded range can be read again.  If a plan returned rows for the range
    [[from, e)] and the range is replayed on another session (after a failed
    write, or in a process started since), then the replay, when it reports no
    error, returns exactly the rows of the plan.  Both sessions carry the
    publisher's log [T] from the same point; the relations changed rows are
    about are announced in the range or known alike to both; and the server
    does not claim to have sent what it has not. *)
Theorem replay_reproduces fuel1 fuel2 from stop budget (s1 s1' s2 s2' : Src) evs e evs2 T txns1 txns2 known :
  read_forward options tables fuel1 from stop budget s1 = (Done (evs, e), s1') -> evs <> [] ->
  replay options tables fuel2 from e s2 = (Done evs2, s2') ->
  log_ok T -> lsn e < 2 ^ 63 ->
  delivers T (frames (new_calls s1 s1')) txns1 ->
  delivers T (frames (new_calls s2 s2')) txns2 -> honest T (frames (new_calls s2 s2')) ->
  agree known (shapes s1) (shapes s2) -> described known (txns1 ≫= tx_changes) ->
  evs2 = evs.
Proof.
  intros Hplan Hne Hrep Hlog He63 Hd1 Hd2 Hh Ha Hdesc.
  destruct Hd1 as (ms & cut & Hms & Hrt & Hp1).
  assert (StronglySorted by_end txns1) as Hs1
    by (destruct Hp1 as [k Hk]; pose proof (lo_sorted _ Hlog) as H; rewrite Hk in H; by apply StronglySorted_app_1_l in H).
  destruct (read_forward_transactions _ _ _ _ _ _ _ _ _ _ _ Hplan Hms Hrt Hs1) as (Hevs & _ & _ & _).
  destruct (read_forward_inv _ _ _ _ _ _ _ _ Hplan) as (h1 & rs1 & Hsc1 & _ & Hcm & Hend).
  destruct (scans_view _ _ _ _ _ _ Hsc1) as (ms' & Hms' & Hv). rewrite Hms in Hms'. injection Hms' as <-.
  destruct (stream_view from (shapes s1) ms txns1 cut Hrt) as (_ & _ & Hre). rewrite <-Hv in Hre. cbn in Hre.
  rewrite Hevs in Hne. destruct (last_end_last from (shapes s1) txns1 Hs1 Hne) as (l & t & Etx & Elast & Hft).
  assert (e = tx_end t) as Ee.
  { destruct Hend as [(Hnil & _)|(_ & -> & _)]; [by rewrite <-Hcm, Hevs in Hnil|]. by rewrite Hre. }
  assert (txns_events from (shapes s2) txns1 = txns_events from (shapes s1) txns1) as Esame
    by (symmetry; by eapply txns_events_agree).
  destruct (replay_inv _ _ _ _ _ _ Hrep) as (s3 & evs0 & reached & Hread & Hreach & -> & Hsh & Hfr).
  destruct (read_forward_inv _ _ _ _ _ _ _ _ Hread) as (h3 & rs3 & Hsc3 & _ & -> & Hend3).
  rewrite Hsh, <-Hfr in Hsc3.
  assert (committed rs3 = evs) as ->.
  { rewrite Hevs, <-Esame, Etx. eapply (replay_reads_same from T l t); [done|by rewrite <-Etx|done|by rewrite Ee| |done..| |done].
    - by rewrite <-Etx, Esame.
    - destruct Hend3 as [(? & ? & ? & _)|(_ & ? & _)]; auto. }
  apply forallb_filter_id, forallb_forall. intros ev Hev%list_elem_of_In. rewrite Hevs in Hev.
  destruct (txns_events_lsn _ _ _ _ Hev) as (u & c & Hu & Hc & ->).
  assert (u ∈ T) as HuT by (destruct Hp1 as [k ->]; apply elem_of_app; by left).
  pose proof (lo_changes _ Hlog _ _ HuT Hc) as Hlt.
  assert (lsn (tx_end u) <= lsn (tx_end t)) as Hut.
  { rewrite Etx in Hu. apply elem_of_app in Hu as [Hu|Hu%list_elem_of_singleton]; [|by subst u].
    rewrite Etx in Hs1. apply sorted_last in Hs1. rewrite Forall_forall in Hs1. specialize (Hs1 _ Hu). cbn in Hs1. lia. }
  rewrite Ee in He63 |- *. apply Z.ltb_lt. unfold as_i64. rewrite !wraps_small by (unfold i_ok, i_min, i_max; lia). lia.
Qed.

End Scan.

(** ** Termination *)

(** A server whose answers end: [rank] bounds the frames, or the snapshot
    slices, it still sends before it has no more. *)
Class FiniteWire (W : Type) `{!CdcWire W} := {
  rank : W -> nat;
  rank_next d w f w' : next_wire d w = (Ok (Some f), w') -> (rank w' < rank w)%nat;
  rank_fetch n w r rows w' : snapshot_fetch n w = (Ok (r :: rows), w') -> (rank w' < rank w)%nat;
  rank_confirm a b w : (rank (confirm a b w).2 <= rank w)%nat;
  rank_now w : (rank (instant_now w).2 <= rank w)%nat;
}.

Section Answers.
Context {W Array Batch : Type} `{!CdcWire W} `{!FiniteWire W} `{!CdcLib Array Batch}.
Variable options : PostgresCdcOptions.
Variable tables : list TableSchema.
Variable fuel : nat.
Variable bytes : Z -> str.
Notation Src := (PostgresCdcSource W).

(** [m] answers, and the server has no more to send than before. *)
Definition answering {A} (m : M Src A) : Prop := forall s, (m s).1 <> Crashed /\ (rank (wire (m s).2) <= rank (wire s))%nat.
(** [m] answers. *)
Definition answered {A} (m : M Src A) : Prop := forall s, (m s).1 <> Crashed.

Lemma answering_answered {A} (m : M Src A) : answering m -> answered m.
Proof. intros H s. apply H. Qed.
Lemma answering_bind {A B} (m : M Src A) (k : A -> M Src B) : answering m -> (forall a, answering (k a)) -> answering (mbind m k).
Proof.
  intros Hm Hk s. unfold mbind. destruct (Hm s) as [H1 H2]. destruct (m s) as [[a|e|] s1]; [|done|done].
  destruct (Hk a s1). cbn in *. split; [done|lia].
Qed.
Lemma answered_bind {A B} (m : M Src A) (k : A -> M Src B) : answered m -> (forall a, answered (k a)) -> answered (mbind m k).
Proof. intros Hm Hk s. unfold mbind. specialize (Hm s). destruct (m s) as [[a|e|] s1]; [apply Hk|done|done]. Qed.
Lemma answered_try {A} (m : M Src A) : answered m -> answered (try_ m).
Proof. intros Hm s. unfold try_. specialize (Hm s). by destruct (m s) as [[a|e|] s1]. Qed.
Lemma answering_ret {A} (a : A) : answering (ret a).
Proof. by intros s. Qed.
Lemma answering_get : answering get.
Proof. by intros s. Qed.
Lemma answering_throw {A} e : answering (throw e : M Src A).
Proof. by intros s. Qed.
Lemma answering_lift {A} (r : result Error A) : answering (lift_result r : M Src A).
Proof. intros s. by destruct r. Qed.
Lemma answering_modify (f : Src -> Src) : (forall s, wire (f s) = wire s) -> answering (modify f).
Proof. intros Hf s. cbn. by rewrite Hf. Qed.
Lemma answering_event e : answering (event e : M Src unit).
Proof. by apply answering_modify. Qed.
Lemma answering_now : answering (now : M Src Z).
Proof. intros s. unfold now. pose proof (rank_now (wire s)). by destruct (instant_now _). Qed.
Lemma answered_ask {A} (f : W -> result Error A * W) : answered (ask f).
Proof. intros s. unfold ask. by destruct (f _) as [[|] w]. Qed.
Lemma answering_confirm : answering (confirm_position : M Src bool).
Proof.
  unfold confirm_position. apply answering_bind; [apply answering_get|]. intros s. apply answering_bind.
  - intros s'. unfold ask. pose proof (rank_confirm (position s) (position s) (wire s')). by destruct (confirm _ _ _) as [[|] w].
  - intros sent. apply answering_bind; [apply answering_now|]. intros t.
    apply answering_bind; [by apply answering_modify|]. intros _. apply answering_ret.
Qed.

Create HintDb answer.
#[local] Hint Resolve answering_ret answering_get answering_throw answering_lift answering_event answering_now
  answering_confirm answered_ask answered_try answering_answered : answer.
#[local] Hint Extern 1 (answering (modify _)) => apply answering_modify; done : answer.

Ltac answer_step :=
  first [ progress intros
        | solve [auto with answer]
        | match goal with
          | |- answered (if ?b then _ else _) => destruct b
          | |- answering (if ?b then _ else _) => destruct b
          | |- answered (match ?x with _ => _ end) => destruct x
          | |- answering (match ?x with _ => _ end) => destruct x
          end
        | apply answering_bind | apply answered_bind ].
Ltac answer_solve := repeat answer_step.

Lemma answering_logged r : answering (confirm_logged r : M Src unit).
Proof. unfold confirm_logged. answer_solve. Qed.
#[local] Hint Resolve answering_logged : answer.
Lemma answering_remember r : answering (remember options tables r : M Src unit).
Proof. unfold remember. answer_solve. Qed.
#[local] Hint Resolve answering_remember : answer.
Lemma answering_apply from ws m rs : answering (apply_message options tables from ws m rs : M Src _).
Proof. unfold apply_message. answer_solve. Qed.
Lemma answering_report l : answering (report_dropped l : M Src unit).
Proof. induction l as [|[[c r] n] l IH]; cbn [report_dropped]; answer_solve. Qed.
#[local] Hint Resolve answering_report : answer.
Lemma answering_build evs : answering (build_batches options tables evs : M Src _).
Proof. unfold build_batches. answer_solve. Qed.

Lemma after_answering {A B} (m : M Src A) (k : A -> M Src B) s n :
  answering m -> (rank (wire s) <= n)%nat ->
  (forall a s1, (rank (wire s1) <= n)%nat -> (k a s1).1 <> Crashed) -> (mbind m k s).1 <> Crashed.
Proof.
  intros Hm Hn Hk. unfold mbind. destruct (Hm s) as [H1 H2]. destruct (m s) as [[a|e|] s1]; [|done|done].
  apply Hk. cbn in H2. lia.
Qed.

Lemma loop_answers n from stop budget rs (s : Src) :
  (rank (wire s) < n)%nat -> (read_loop options tables n from stop budget rs s).1 <> Crashed.
Proof.
  revert rs s. induction n as [|n IH]; intros rs s Hn; [lia|]. cbn [read_loop].
  destruct (batch_full _ _ _); [done|]. unfold mbind at 1, try_, ask.
  pose proof (rank_next (idle options) (wire s)) as Hr. destruct (next_wire _ _) as [[[f|]|e] w]; [|done|done].
  specialize (Hr _ _ eq_refl). destruct f as [ws we c data|we c reply].
  - destruct (count_bytes _ _ _) as [rs1 report].
    apply (after_answering _ _ _ (rank w)); [answer_solve|done|]. intros _ s1 H1.
    apply (after_answering _ _ _ (rank w)); [answer_solve|done|]. intros m s2 H2.
    apply (after_answering _ _ _ (rank w)); [apply answering_apply|done|]. intros rs2 s3 H3. apply IH. lia.
  - apply (after_answering _ _ _ (rank w)); [answer_solve|done|]. intros _ s1 H1. apply IH. lia.
Qed.

Lemma slices_answer n bs total (s : Src) :
  (rank (wire s) < n)%nat -> (fetch_slices options tables n bs total s).1 <> Crashed.
Proof.
  revert bs total s. induction n as [|n IH]; intros bs total s Hn; [lia|]. cbn [fetch_slices].
  unfold mbind at 1, ask. pose proof (rank_fetch (snapshot_batch_rows options) (wire s)) as Hr.
  destruct (snapshot_fetch _ _) as [[[|row rows]|e] w]; [done| |done]. specialize (Hr _ _ _ eq_refl).
  apply (after_answering _ _ _ (rank w)); [answer_solve|done|]. intros s0 s1 H1.
  apply (after_answering _ _ _ (rank w)); [apply answering_build|done|]. intros built s2 H2. apply IH. lia.
Qed.

#[local] Hint Resolve answering_apply answering_build : answer.

Hypothesis Hfuel : forall w : W, (rank w < fuel)%nat.

Lemma answered_loop from stop budget rs : answered (read_loop options tables fuel from stop budget rs : M Src _).
Proof. intros s. apply loop_answers, Hfuel. Qed.
Lemma answered_slices bs total : answered (fetch_slices options tables fuel bs total : M Src _).
Proof. intros s. apply slices_answer, Hfuel. Qed.
Lemma answered_open : answered (ensure_open options tables : M Src unit).
Proof. unfold ensure_open. answer_solve. Qed.
Lemma answered_finish : answered (finish_snapshot tables : M Src unit).
Proof. unfold finish_snapshot. answer_solve. Qed.
#[local] Hint Resolve answered_loop answered_slices answered_open answered_finish : answer.
Lemma answered_stream l : answered (ensure_stream tables l : M Src unit).
Proof. unfold ensure_stream. answer_solve. Qed.
#[local] Hint Resolve answered_stream : answer.
Lemma answered_forward from stop budget : answered (read_forward options tables fuel from stop budget : M Src _).
Proof. unfold read_forward. answer_solve. Qed.
Lemma answered_table t : answered (read_table options tables fuel t : M Src _).
Proof. unfold read_table. answer_solve. Qed.
#[local] Hint Resolve answered_forward answered_table : answer.
Lemma answered_heartbeat : answered (heartbeat options : M Src unit).
Proof. unfold heartbeat. answer_solve. Qed.
#[local] Hint Resolve answered_heartbeat : answer.

(** Planning, polling and confirming always answer when the server's own
    answers end: neither the loop over the log nor the one over the slices of a
    table runs on. *)
Theorem cdc_answers (s : Src) range :
  (plan_batch options tables fuel bytes s).1 <> Crashed /\
  (poll_range options tables fuel range s).1 <> Crashed /\
  (mark_durable tables s).1 <> Crashed.
Proof.
  split; [|split].
  - assert (answered (plan_batch options tables fuel bytes : M Src _)) as H; [|apply H].
    unfold plan_batch, guard_slot, plan_stream, skip_over. answer_solve.
  - assert (answered (poll_range options tables fuel range : M Src _)) as H; [|apply H].
    unfold poll_range, poll_opened, poll_snapshot, poll_wal, replay, restart_snapshot. answer_solve.
  - assert (answered (mark_durable tables : M Src _)) as H; [|apply H]. unfold mark_durable. answer_solve.
Qed.

End Answers.
