(* ===== verification/PgSnapshot.v ===== *)
(** * PgSnapshot: the snapshot and the stream meet exactly once

    A deployment of the change-data-capture source ([PgCdc.v]) over any number
    of processes: the source of the running process, the checkpointed position,
    the recorded range of the batch in flight, and what has been made durable.
    [stream_follows_snapshot]: whenever the source plans a stretch of the log,
    every table has been made durable as of one point of the log, and the log
    from that point to the start of the stretch has been made durable or seen
    to hold nothing; this in spite of crashes, failed reads and recreated
    slots. *)

From S2P Require Import Prelude Text Effects Source PgOutput PgCdc PgStream.

(** ** What the operations do to the counter and the position *)

Section Moves.
Context {W Array Batch : Type} `{!CdcWire W} `{!CdcLib Array Batch}.
Variable options : PostgresCdcOptions.
Variable tables : list TableSchema.
Variable fuel : nat.
Variable bytes : Z -> str.
Notation Src := (PostgresCdcSource (History W)).
Notation tables_n := (table_count tables).

Definition same_place (s s' : Src) : Prop := snapshot_done s' = snapshot_done s /\ position s' = position s.

Lemma steadily_place (s s' : Src) : steadily s s' -> same_place s s'.
Proof. intros [E _ _]. by injection E. Qed.

Lemma same_place_trans s s1 s2 : same_place s s1 -> same_place s1 s2 -> same_place s s2.
Proof. intros [? ?] [? ?]. split; congruence. Qed.

(** Opening the slot keeps the place, or begins the snapshot anew. *)
Lemma open_place (s : Src) o s1 : ensure_open options tables s = (o, s1) ->
  same_place s s1 \/ restored_complete tables s = false /\ snapshot_done s1 = 0.
Proof.
  intros E. pose proof (ensure_open_opens options tables s) as H. rewrite E in H.
  inversion H; subst; [by left; split|..];
    match goal with Hc : core s1 = _ |- _ => injection Hc as Hd Hp _ _ end; first [by left; split|by right; split].
Qed.

Lemma complete_iff (s : Src) : tables <> [] -> restored_complete tables s = (tables_n <=? snapshot_done s).
Proof. intros H. unfold restored_complete. by rewrite bool_decide_false. Qed.

Lemma count_pos : tables <> [] -> 0 < tables_n.
Proof. unfold table_count. destruct tables; [done|cbn; lia]. Qed.

Lemma stream_place m (s : Src) o s' : plan_stream options tables fuel m s = (o, s') ->
  snapshot_done s' = snapshot_done s /\
  (forall r, o = Done r -> r = default_range \/ exists e, r = wal_range (position s) e /\ position s' = position s).
Proof.
  unfold plan_stream, mbind, get. cbn beta iota zeta.
  pose proof (steady_read options tables fuel (position s) (server_flush m) (max_batch_bytes options) s) as Hr.
  destruct (read_forward _ _ _ _ _ _ s) as [[[[|ev evs] e]|er|] s1]; cbn [fst snd] in Hr |- *;
    destruct (steadily_place _ _ Hr) as [Hd Hp].
  - rewrite skip_over_eq. unfold keep_alive, mbind.
    pose proof (steady_heartbeat options (skipped e s1)) as Hb.
    assert (snapshot_done (skipped e s1) = snapshot_done s1) as Hs by (unfold skipped; by destruct (_ <? _)).
    destruct (heartbeat options _) as [[[]|er|] s2]; cbn [snd] in Hb; destruct (steadily_place _ _ Hb) as [Hd2 _];
      intros [= <- <-]; (split; [congruence|]); intros r Hr'; by simplify_eq; left.
  - intros [= <- <-]. split; [done|]. intros r [= <-]. right. by exists e.
  - by intros [= <- <-].
  - by intros [= <- <-].
Qed.

(** [plan_batch]: with the snapshot complete the counter stays, and a stretch of
    the log starts at the position; else a table is planned at the position. *)
Lemma plan_place (s : Src) o s' : tables <> [] -> plan_batch options tables fuel bytes s = (o, s') ->
  restored_complete tables s = true /\ snapshot_done s' = snapshot_done s /\
    (forall r, o = Done r -> r = default_range \/ exists e, r = wal_range (position s) e /\ position s' = position s) \/
  restored_complete tables s = false /\ (same_place s s' \/ snapshot_done s' = 0) /\
    (forall r, o = Done r -> r = snapshot_range s' /\ snapshot_done s' < tables_n).
Proof.
  intros Hne. unfold plan_batch, mbind at 1. rewrite complete_iff by done. pose proof (count_pos Hne) as Hn.
  destruct (ensure_open options tables s) as [o1 s1] eqn:E1. apply open_place in E1 as Ho. rewrite complete_iff in Ho by done.
  assert (forall s2, same_place s1 s2 -> (tables_n <=? snapshot_done s) = true /\ same_place s s2 \/
    (tables_n <=? snapshot_done s) = false /\ (same_place s s2 \/ snapshot_done s2 = 0) /\ snapshot_done s2 < tables_n) as Hpl.
  { intros s2 [Hd Hp]. unfold same_place. destruct (Z.leb_spec tables_n (snapshot_done s)), Ho as [[Hd1 Hp1]|[? Hd1]];
      rewrite Hd, ?Hd1, ?Hp, ?Hp1; try done; [by left|right; split; [done|]; split; [by left|lia]|right; split; [done|]; split; [by right|lia]]. }
  pose proof (Hpl s1 (conj eq_refl eq_refl)) as Hg1. destruct o1 as [[]|er|].
  2,3: intros [= <- <-]; destruct Hg1 as [[Hc [Hd _]]|(Hc & Hd & _)]; [left|right]; by auto.
  unfold mbind. pose proof (steady_guard options bytes s1) as Hg.
  destruct (guard_slot options bytes s1) as [[m|er|] s2]; cbn [snd] in Hg; apply steadily_place in Hg; apply Hpl in Hg.
  2,3: intros [= <- <-]; destruct Hg as [[Hc [Hd _]]|(Hc & Hd & _)]; [left|right]; by auto.
  unfold get. cbn beta iota. destruct Hg as [[Hc [Hd Hp]]|(Hc & Hd & Hlt)].
  - rewrite Hd. destruct (Z.ltb_spec (snapshot_done s) tables_n); [bool_to_prop; lia|]. intros Hs.
    apply stream_place in Hs as [Hd' Hr]. left. split; [done|]. split; [congruence|]. by rewrite <-Hp.
  - destruct (Z.ltb_spec (snapshot_done s2) tables_n); [|lia]. intros [= <- <-]. right. split; [done|]. split; [done|].
    intros r [= <-]. done.
Qed.

Local Ltac place :=
  cbn in *; split; [congruence|split; [by auto|]]; intros ? E; first [discriminate E|split; [done|by auto]].

(** [poll_snapshot]: a table counts only when it was planned at the position. *)
Lemma poll_snapshot_place i pl (s : Src) o s' : 0 <= i -> poll_snapshot options tables fuel i pl s = (o, s') ->
  position s' = position s /\
  (snapshot_done s' = snapshot_done s \/ snapshot_done s' = 0 \/
   pl = Some (as_i64 (position s)) /\ snapshot_done s' = i + 1) /\
  (forall bs, o = Done bs -> i < tables_n /\
    (snapshot_done s' = 0 \/ pl = Some (as_i64 (position s)) /\ snapshot_done s' = i + 1)).
Proof.
  intros Hi. unfold poll_snapshot. destruct (tables !! Z.to_nat i) as [t|] eqn:Et; [|intros [= <- <-]; by place].
  apply lookup_lt_Some in Et. assert (i < tables_n) as Hin by (unfold table_count; lia).
  unfold mbind at 1, get at 1. cbn beta iota zeta. destruct (bool_decide_reflect (pl = Some (as_i64 (position s)))) as [Hh|Hh].
  - unfold mbind at 1, ret at 1, mbind at 1, get at 1. cbn beta iota. destruct (negb _); [intros [= <- <-]; by place|].
    unfold mbind at 1, try_. pose proof (steady_table options tables fuel t s) as Hr. apply steadily_place in Hr as [Hd Hp].
    destruct (read_table _ _ _ t s) as [[[bs rows]|e|] s1]; cbn [snd] in Hd, Hp; intros [= <- <-]; place.
  - unfold mbind at 1, restart_snapshot, mbind at 1, modify at 1, mbind at 1, get at 1, event, modify.
    set (s0 := add_log _ _). unfold mbind at 1, get at 1. cbn beta iota. destruct (negb _); [intros [= <- <-]; by place|].
    unfold mbind at 1, try_. pose proof (steady_table options tables fuel t s0) as Hr. apply steadily_place in Hr as [Hd Hp].
    destruct (read_table _ _ _ t s0) as [[[bs rows]|e|] s1]; cbn [snd] in Hd, Hp; intros [= <- <-]; place.
Qed.

Lemma poll_wal_place r (s : Src) o s' : poll_wal options tables fuel r s = (o, s') ->
  snapshot_done s' = snapshot_done s /\
  match o with
  | Done _ => position s' = from_i64 (default 0 (br_end r !! LSN_KEY))
  | _ => position s' = position s
  end.
Proof.
  unfold poll_wal. unfold mbind at 1, get at 1. cbn beta iota zeta. unfold mbind at 1, modify at 1. cbn beta iota.
  set (m := match planned s with Some _ => _ | None => _ end). set (s0 := set_planned None s).
  assert (steady m) as Hm by (subst m; destruct (planned s) as [[r' evs]|]; [destruct (bool_decide _)|]; auto with steady).
  unfold mbind at 1. specialize (Hm s0). apply steadily_place in Hm as [Hd Hp].
  destruct (m s0) as [[evs|e|] s1]; cbn [snd] in Hd, Hp; [|intros [= <- <-]; by auto..].
  unfold mbind at 1. pose proof (steady_build options tables evs s1) as Hb. apply steadily_place in Hb as [Hd2 Hp2].
  destruct (build_batches _ _ evs s1) as [[bs|e|] s2]; cbn [snd] in Hd2, Hp2; intros [= <- <-]; cbn;
    (split; [by rewrite Hd2, Hd|first [done|by rewrite Hp2, Hp]]).
Qed.

End Moves.

(** ** Deployments *)

Section Deployment.
Context {W Array Batch : Type} `{!CdcWire W} `{!CdcLib Array Batch}.
Variable options : PostgresCdcOptions.
Variable tables : list TableSchema.
Variable fuel : nat.
Variable bytes : Z -> str.
Notation Src := (PostgresCdcSource (History W)).
Notation tables_n := (table_count tables).

(** The running source; the checkpoint; the recorded range and whether the
    source has read it since; and, for the statement, the durable reads of
    tables (which, as of where) and the stretches of the log that are durable or
    were skipped.  Positions are as checkpoints record them. *)
Record Deployment := {
  d_src : Src;
  d_checkpoint : option SourceOffsets;
  d_recorded : option BatchRange;
  d_polled : bool;
  d_tables : list (Z * Z);
  d_covered : list (Z * Z);
}.

Definition restart (w : History W) (ck : option SourceOffsets) : Src :=
  match ck with Some o => restore_offsets (with_wire w) o | None => with_wire w end.

Definition start (w : History W) : Deployment :=
  {| d_src := with_wire w; d_checkpoint := None; d_recorded := None; d_polled := false; d_tables := []; d_covered := [] |}.

(** A range that was read becomes durable: the table it read, or the stretch of
    the log it covers. *)
Definition durable_table (r : BatchRange) (s : Src) : list (Z * Z) :=
  match br_start r !! SNAPSHOT_KEY with Some i => [(Z.max i 0, as_i64 (position s))] | None => [] end.
Definition durable_stretch (r : BatchRange) : list (Z * Z) :=
  match br_start r !! SNAPSHOT_KEY with
  | Some _ => []
  | None => [(default 0 (br_start r !! LSN_KEY), default 0 (br_end r !! LSN_KEY))]
  end.

(** After a plan, whose range is recorded unless that fails. *)
Definition after_plan (d : Deployment) (o : outcome BatchRange) (s' : Src) (saved : bool) : Deployment :=
  {| d_src := s'; d_checkpoint := d_checkpoint d;
     d_recorded := match o with Done r => if saved && negb (range_is_empty r) then Some r else None | _ => None end;
     d_polled := false; d_tables := d_tables d;
     d_covered := if restored_complete tables (d_src d)
                  then (as_i64 (position (d_src d)), as_i64 (position s')) :: d_covered d else d_covered d |}.
Definition after_poll (d : Deployment) (r : BatchRange) (o : outcome (list Batch)) (s' : Src) : Deployment :=
  {| d_src := s'; d_checkpoint := d_checkpoint d; d_recorded := Some r;
     d_polled := match o with Done _ => true | _ => false end; d_tables := d_tables d; d_covered := d_covered d |}.
(** The sink and then the checkpoint hold the batch. *)
Definition after_commit (d : Deployment) (r : BatchRange) : Deployment :=
  {| d_src := d_src d; d_checkpoint := committed_offsets (d_src d); d_recorded := None; d_polled := false;
     d_tables := durable_table r (d_src d) ++ d_tables d; d_covered := durable_stretch r ++ d_covered d |}.
(** Only the source moves. *)
Definition with_src (d : Deployment) (s' : Src) : Deployment :=
  {| d_src := s'; d_checkpoint := d_checkpoint d; d_recorded := d_recorded d; d_polled := false;
     d_tables := d_tables d; d_covered := d_covered d |}.

Inductive dstep : Deployment -> Deployment -> Prop :=
  | step_plan d o s' saved :
      d_recorded d = None -> plan_batch options tables fuel bytes (d_src d) = (o, s') -> dstep d (after_plan d o s' saved)
  | step_poll d r o s' :
      d_recorded d = Some r -> poll_range options tables fuel r (d_src d) = (o, s') -> dstep d (after_poll d r o s')
  | step_commit d r : d_recorded d = Some r -> d_polled d = true -> dstep d (after_commit d r)
  | step_durable d o s' : d_recorded d = None -> mark_durable tables (d_src d) = (o, s') -> dstep d (with_src d s')
  | step_available d o s' : available_end options tables (d_src d) = (o, s') -> dstep d (with_src d s')
  (** Another process takes over. *)
  | step_crash d w : dstep d (with_src d (restart w (d_checkpoint d))).

(** Every table is durable as of [cp]. *)
Definition snapshot_at (d : Deployment) (cp : Z) : Prop := forall i, 0 <= i < tables_n -> (i, cp) ∈ d_tables d.
(** From [a] to [b] the log is covered. *)
Definition covered (d : Deployment) : Z -> Z -> Prop := rtc (fun a b => (a, b) ∈ d_covered d).

(** What is true of a counter and a position the source may work from. *)
Definition sound (d : Deployment) (k p : Z) : Prop :=
  0 <= k <= tables_n /\
  (k < tables_n -> forall i, 0 <= i < k -> (i, p) ∈ d_tables d) /\
  (tables_n <= k -> exists cp, snapshot_at d cp /\ covered d cp p).

Definition done_of (o : SourceOffsets) : Z := default 0 (so_entries o !! SNAPSHOT_KEY).
Definition lsn_of (o : SourceOffsets) : Z := default 0 (so_entries o !! LSN_KEY).

(** A range of the snapshot: table [i], planned at [cp]. *)
Record snapshot_part (r : BatchRange) (i cp : Z) : Prop := {
  sp_index : br_start r !! SNAPSHOT_KEY = Some i;
  sp_point : br_start r !! CONSISTENT_POINT_KEY = Some cp;
}.

Definition source_sound (d : Deployment) : Prop :=
  sound d (snapshot_done (d_src d)) (as_i64 (position (d_src d))).

(** The source has read the recorded range, which is not durable yet. *)
Inductive ahead (d : Deployment) (r : BatchRange) : Prop :=
  | ahead_snapshot i cp : snapshot_part r i cp -> snapshot_done (d_src d) = i + 1 -> as_i64 (position (d_src d)) = cp -> ahead d r
  | ahead_stream : br_start r !! SNAPSHOT_KEY = None -> tables_n = snapshot_done (d_src d) ->
      as_i64 (position (d_src d)) = default 0 (br_end r !! LSN_KEY) -> ahead d r.

(** The recorded range continues what is durable. *)
Inductive continues (d : Deployment) (r : BatchRange) : Prop :=
  | continues_snapshot i cp : snapshot_part r i cp -> 0 <= i < tables_n ->
      (forall j, 0 <= j < i -> (j, cp) ∈ d_tables d) -> continues d r
  | continues_stream from e : r = wal_range from e ->
      tables_n = snapshot_done (d_src d) ->
      (exists o, d_checkpoint d = Some o /\ tables_n = done_of o) ->
      (exists cp, snapshot_at d cp /\ covered d cp (as_i64 from)) -> continues d r.

Record good (d : Deployment) : Prop := {
  g_checkpoint : forall o, d_checkpoint d = Some o ->
    so_source o = SOURCE_NAME /\ sound d (done_of o) (lsn_of o) /\ exists l, lsn_of o = as_i64 l;
  g_idle : d_recorded d = None ->
    source_sound d /\ (tables_n <= snapshot_done (d_src d) -> exists o, d_checkpoint d = Some o /\ tables_n <= done_of o);
  g_batch : forall r, d_recorded d = Some r ->
    range_is_empty r = false /\ br_source r = SOURCE_NAME /\ continues d r /\ (source_sound d \/ ahead d r) /\
    (d_polled d = true -> (br_start r !! SNAPSHOT_KEY <> None /\ snapshot_done (d_src d) = 0) \/ ahead d r);
}.

Hypothesis Hne : tables <> [].
Hypothesis Hsmall : tables_n < 2 ^ 63.

Lemma tables_pos : 0 < tables_n.
Proof. by apply count_pos. Qed.

Lemma i64_roundtrip l : as_i64 (from_i64 (as_i64 l)) = as_i64 l.
Proof.
  unfold as_i64, from_i64. cbn [lsn]. unfold wraps, wrapu. rewrite Zplus_mod_idemp_l, Z.sub_add. by rewrite Z.mod_mod.
Qed.

Lemma counter_small k : 0 <= k <= tables_n -> wraps 64 k = k.
Proof. intros H. apply wraps_small; [|lia]. unfold i_ok, i_min, i_max. lia. Qed.

(** More durable facts keep everything sound. *)
Lemma sound_mono d d' k p :
  (forall x, x ∈ d_tables d -> x ∈ d_tables d') -> (forall x, x ∈ d_covered d -> x ∈ d_covered d') ->
  sound d k p -> sound d' k p.
Proof.
  intros Ht Hc (Hk & Hlt & Hge). split; [done|]. split; [by auto|].
  intros H. destruct (Hge H) as (cp & Hs & Hr). exists cp. split; [intros i Hi; auto|].
  unfold covered in *. by eapply rtc_subrel; [|exact Hr]; cbn; auto.
Qed.

Lemma sound_zero d p : sound d 0 p.
Proof. pose proof tables_pos. split; [lia|]. split; [intros; lia|lia]. Qed.

Lemma offsets_of (s : Src) o : 0 <= snapshot_done s <= tables_n -> committed_offsets s = Some o ->
  so_source o = SOURCE_NAME /\ done_of o = snapshot_done s /\ lsn_of o = as_i64 (position s).
Proof.
  intros Hk [= <-]. split; [done|]. unfold done_of, lsn_of. cbn [so_entries]. rewrite lookup_insert_eq.
  rewrite lookup_insert_ne by done. rewrite lookup_singleton_eq. cbn. by rewrite counter_small.
Qed.

(** A process takes over where the checkpoint is. *)
Lemma restart_place w ck : (forall o, ck = Some o -> so_source o = SOURCE_NAME /\ 0 <= done_of o /\ exists l, lsn_of o = as_i64 l) ->
  match ck with
  | Some o => snapshot_done (restart w ck) = done_of o /\ as_i64 (position (restart w ck)) = lsn_of o
  | None => snapshot_done (restart w ck) = 0
  end.
Proof.
  intros H. unfold restart, with_wire. destruct (instant_now w) as [t w']. destruct ck as [o|]; [|done].
  destruct (H o eq_refl) as (Hs & Hd & l & Hl). unfold restore_offsets. rewrite bool_decide_true by done.
  unfold done_of, lsn_of in *. cbn [negb set_position set_done snapshot_done position]. split; [lia|]. by rewrite Hl, i64_roundtrip.
Qed.

(** The same durable facts, and a source that kept its place or starts over. *)
Lemma idle_after (d d' : Deployment) :
  good d -> d_recorded d = None -> d_recorded d' = None -> d_checkpoint d' = d_checkpoint d ->
  d_tables d' = d_tables d -> d_covered d' = d_covered d ->
  same_place (d_src d) (d_src d') \/ snapshot_done (d_src d') = 0 -> good d'.
Proof.
  intros [Gc Gi _] Hr Hr' Eck Et Ec Hp. destruct (Gi Hr) as [Gs Gd]. pose proof tables_pos.
  assert (forall k p, sound d k p -> sound d' k p) as Hm by (intros k p; apply sound_mono; [by rewrite Et|by rewrite Ec]).
  split.
  - intros o Ho. rewrite Eck in Ho. destruct (Gc o Ho) as (? & ? & ?). auto.
  - intros _. unfold source_sound. rewrite Eck. destruct Hp as [[Ed Ep]|Ed].
    + rewrite Ed, Ep. split; [by apply Hm|done].
    + rewrite Ed. split; [apply sound_zero|lia].
  - intros r E. by rewrite Hr' in E.
Qed.

(** A plan keeps the checkpoint sound. *)
Lemma plan_sound d o s' saved k p : sound d k p -> sound (after_plan d o s' saved) k p.
Proof. apply sound_mono; [done|]. cbn. destruct (restored_complete _ _); [by right|done]. Qed.

(** The recorded range is the one planned. *)
Lemma plan_recorded d o s' saved r : d_recorded (after_plan d o s' saved) = Some r -> o = Done r /\ range_is_empty r = false.
Proof.
  cbn. destruct o as [r0|e|]; [|done|done]. destruct (saved && negb (range_is_empty r0)) eqn:Es; [|done].
  intros [= <-]. by bool_to_prop.
Qed.

Lemma good_plan_stream d o s' saved :
  good d -> d_recorded d = None -> restored_complete tables (d_src d) = true -> snapshot_done s' = snapshot_done (d_src d) ->
  (forall r, o = Done r -> r = default_range \/ exists e, r = wal_range (position (d_src d)) e /\ position s' = position (d_src d)) ->
  good (after_plan d o s' saved).
Proof.
  intros [Gc Gi _] Hr Hcomp Hd Hrange. destruct (Gi Hr) as [Gs Gd]. pose proof Hcomp as Hcomp'.
  rewrite complete_iff in Hcomp by done. bool_to_prop. destruct Gs as (Hk & _ & Hge). destruct (Hge Hcomp) as (cp & Hcp & Hcov).
  assert (forall a b, (a, b) ∈ d_covered d -> (a, b) ∈ d_covered (after_plan d o s' saved)) as Hsub
    by (cbn; rewrite Hcomp'; by right).
  assert (source_sound (after_plan d o s' saved)) as Gs'.
  { unfold source_sound. cbn [d_src after_plan]. rewrite Hd. split; [done|]. split; [intros; lia|]. intros _. exists cp.
    split; [exact Hcp|]. eapply rtc_r; [eapply rtc_subrel; [exact Hsub|exact Hcov]|]. cbn. rewrite Hcomp'. by left. }
  split.
  - intros o0 Ho. destruct (Gc o0 Ho) as (? & ? & ?). auto using plan_sound.
  - intros _. split; [done|]. cbn. by rewrite Hd.
  - intros r [-> Hemp]%plan_recorded. destruct (Hrange r eq_refl) as [->|(e & -> & Hpos)]; [done|].
    split; [done|]. split; [done|]. split; [|split; [by left|done]]. destruct (Gd Hcomp) as (ck & Hck & Hdk).
    apply (continues_stream _ _ (position (d_src d)) e); [done|cbn; lia| |].
    + exists ck. split; [done|]. destruct (Gc ck Hck) as (_ & (? & _) & _). lia.
    + exists cp. split; [exact Hcp|]. eapply rtc_subrel; [exact Hsub|exact Hcov].
Qed.

Lemma good_plan_table d o s' saved :
  good d -> d_recorded d = None -> restored_complete tables (d_src d) = false ->
  (same_place (d_src d) s' \/ snapshot_done s' = 0) ->
  (forall r, o = Done r -> r = snapshot_range s' /\ snapshot_done s' < tables_n) -> good (after_plan d o s' saved).
Proof.
  intros [Gc Gi _] Hr Hinc Hpl Hrange. destruct (Gi Hr) as [Gs _]. pose proof tables_pos.
  assert (source_sound (after_plan d o s' saved)) as Gs'.
  { unfold source_sound. cbn [d_src after_plan]. destruct Hpl as [[-> ->]| ->]; [by apply plan_sound|apply sound_zero]. }
  split.
  - intros o0 Ho. destruct (Gc o0 Ho) as (? & ? & ?). auto using plan_sound.
  - intros _. split; [done|]. cbn. rewrite complete_iff in Hinc by done. bool_to_prop. destruct Hpl as [[-> _]| ->]; lia.
  - intros r [-> Hemp]%plan_recorded. destruct (Hrange r eq_refl) as [-> Hlt].
    split; [done|]. split; [done|]. split; [|split; [by left|done]]. destruct Gs' as (Hk & Hlow & _).
    cbn [d_src after_plan] in Hk, Hlow.
    apply (continues_snapshot _ _ (snapshot_done s') (as_i64 (position s'))); [|lia|by apply Hlow].
    split; cbn [snapshot_range br_start].
    + rewrite lookup_insert_eq. by rewrite counter_small.
    + rewrite lookup_insert_ne by done. by rewrite lookup_singleton_eq.
Qed.

Lemma good_plan d o s' saved : good d -> d_recorded d = None ->
  plan_batch options tables fuel bytes (d_src d) = (o, s') -> good (after_plan d o s' saved).
Proof.
  intros G Hr Hp. destruct (plan_place _ _ _ _ _ _ _ Hne Hp) as [(? & ? & ?)|(? & ? & ?)];
    [by apply good_plan_stream|by apply good_plan_table].
Qed.

Lemma wal_range_snapshot from e : br_start (wal_range from e) !! SNAPSHOT_KEY = None.
Proof. cbn [wal_range br_start]. by rewrite lookup_singleton_ne. Qed.

(** What a poll of the recorded range leaves: the place it found, the start of a
    new snapshot, or the range read. *)
Lemma poll_leaves d r o s' : good d -> d_recorded d = Some r -> poll_range options tables fuel r (d_src d) = (o, s') ->
  let d' := after_poll d r o s' in
  (br_start r !! SNAPSHOT_KEY = None -> snapshot_done s' = snapshot_done (d_src d)) /\
  (same_place (d_src d) s' \/ br_start r !! SNAPSHOT_KEY <> None /\ snapshot_done s' = 0 \/ ahead d' r) /\
  (forall bs, o = Done bs -> br_start r !! SNAPSHOT_KEY <> None /\ snapshot_done s' = 0 \/ ahead d' r).
Proof.
  intros G Hr Hp. destruct (g_batch _ G _ Hr) as (Hemp & Hsrc & Hcont & _). unfold poll_range in Hp.
  rewrite Hemp, bool_decide_true in Hp by done. cbn [negb] in Hp. unfold mbind in Hp.
  destruct (ensure_open options tables (d_src d)) as [o1 s1] eqn:E1. apply open_place in E1. rewrite complete_iff in E1 by done.
  destruct Hcont as [i cp Hpart Hi Hj|from e -> Hdone _ _].
  - pose proof (sp_index _ _ _ Hpart) as Hidx. rewrite Hidx. split; [done|].
    assert (Some i <> None) as Hnn by done.
    assert (same_place (d_src d) s1 \/ snapshot_done s1 = 0) as E1' by (destruct E1 as [?|[_ ?]]; auto).
    destruct o1 as [[]|er|]; [|injection Hp as <- <-; split; [by destruct E1'; auto|done]..].
    unfold poll_opened in Hp. rewrite Hidx, (sp_point _ _ _ Hpart), Z.max_l in Hp by lia.
    apply poll_snapshot_place in Hp as (Hpos & Hd & Hdone); [|lia].
    assert (Some cp = Some (as_i64 (position s1)) /\ snapshot_done s' = i + 1 ->
      ahead (after_poll d r o s') r) as Hah.
    { intros [[= ->] Hd']. eapply ahead_snapshot; [done|done|cbn [d_src after_poll]; by rewrite Hpos]. }
    split.
    + destruct Hd as [Hd|[Hd|Hd]]; [|by auto|by auto]. destruct E1' as [[Hd1 Hp1]|Hd1]; [left; split; congruence|right; left; split; [done|congruence]].
    + intros bs Ebs. destruct (Hdone bs Ebs) as [_ [?|?]]; auto.
  - pose proof (wal_range_snapshot from e) as Hidx. rewrite Hidx. destruct E1 as [Hpl|[? _]]; [|bool_to_prop; lia].
    destruct o1 as [[]|er|]; [|injection Hp as <- <-; split; [by intros _; apply Hpl|split; [by left|done]]..].
    unfold poll_opened in Hp. rewrite Hidx in Hp. apply poll_wal_place in Hp as [Hd Hpos]. destruct Hpl as [Hd1 Hp1].
    split; [congruence|]. destruct o as [bs|er|]; [|split; [by left; split; congruence|done]..].
    assert (forall d', d_src d' = s' -> ahead d' (wal_range from e)) as Hah.
    { intros d' E'. apply ahead_stream; [done|rewrite E'; congruence|]. rewrite E', Hpos. cbn [wal_range br_end].
      rewrite lookup_singleton_eq. cbn [default from_option id]. apply i64_roundtrip. }
    split; [right; right|intros; right]; by apply Hah.
Qed.

Lemma good_poll d r o s' : good d -> d_recorded d = Some r -> poll_range options tables fuel r (d_src d) = (o, s') ->
  good (after_poll d r o s').
Proof.
  intros G Hr Hp. destruct (poll_leaves _ _ _ _ G Hr Hp) as (Hstay & Hleft & Hread). destruct G as [Gc Gi Gb].
  destruct (Gb _ Hr) as (Hemp & Hsrc & Hcont & Hplace & _).
  split; [exact Gc|done|]. intros r0 [= <-]. split; [done|]. split; [done|]. split; [|split].
  - destruct Hcont as [i cp Hpart Hi Hj|from e -> Hdone Hck Hcov]; [by eapply continues_snapshot|].
    eapply continues_stream; [done| |done|done]. cbn. rewrite Hstay by apply wal_range_snapshot. done.
  - destruct Hleft as [[Hd Hpos]|[[_ Hd]|?]]; [|left; unfold source_sound; cbn; rewrite Hd; apply sound_zero|by right].
    destruct Hplace as [Hs|Ha]; [left; unfold source_sound; cbn; by rewrite Hd, Hpos|right].
    destruct Ha as [i cp Hpart Hi Hcp|Hn Hdone He]; [by eapply ahead_snapshot; cbn; rewrite ?Hd, ?Hpos|].
    by apply ahead_stream; cbn; rewrite ?Hd, ?Hpos.
  - cbn. destruct o as [bs|e|]; [|done|done]. intros _. by apply (Hread bs).
Qed.

Lemma good_commit d r : good d -> d_recorded d = Some r -> d_polled d = true ->
  good (after_commit d r).
Proof.
  intros G Hr Hpol. destruct (g_batch _ G _ Hr) as (_ & _ & Hcont & _ & Hread). specialize (Hread Hpol). pose proof tables_pos.
  set (d' := after_commit d r).
  assert (source_sound d') as Gs.
  { unfold source_sound. cbn [d_src d' after_commit]. destruct Hread as [[_ Hd]|Ha]; [rewrite Hd; apply sound_zero|].
    destruct Hcont as [i cp Hpart Hi Hj|from e -> Hdone _ (cp & Hcp & Hcov)].
    - destruct Ha as [i' cp' Hpart' Hd Hpos|Hn _ _]; [|by rewrite (sp_index _ _ _ Hpart) in Hn].
      pose proof (sp_index _ _ _ Hpart) as Ei. rewrite (sp_index _ _ _ Hpart') in Ei. injection Ei as ->.
      pose proof (sp_point _ _ _ Hpart) as Ep. rewrite (sp_point _ _ _ Hpart') in Ep. injection Ep as ->.
      rewrite Hd, Hpos.
      assert (forall j, 0 <= j < i + 1 -> (j, cp) ∈ d_tables d') as Hall.
      { intros j Hji. cbn. unfold durable_table. rewrite (sp_index _ _ _ Hpart), Z.max_l, Hpos by lia.
        destruct (decide (j = i)) as [->|]; [by left|]. right. apply Hj. lia. }
      split; [lia|]. split; [auto|]. intros Hge. exists cp. split; [intros j ?; apply Hall; lia|apply rtc_refl].
    - destruct Ha as [? ? Hpart _ _|_ _ Hpos]; [by destruct Hpart as [Hpart _]; rewrite wal_range_snapshot in Hpart|].
      rewrite Hpos, <-Hdone. split; [lia|]. split; [lia|]. intros _. exists cp.
      assert (d_tables d' = d_tables d /\ d_covered d' = (as_i64 from, as_i64 e) :: d_covered d) as [Et Ec].
      { cbn. unfold durable_table, durable_stretch. rewrite wal_range_snapshot. cbn [wal_range br_start br_end].
        by rewrite !lookup_singleton_eq. }
      split; [intros i Hi; rewrite Et; by apply Hcp|]. unfold covered. rewrite Ec.
      cbn [wal_range br_end]. rewrite lookup_singleton_eq. cbn [default from_option id].
      eapply rtc_r; [|by left]. eapply rtc_subrel; [|exact Hcov]. by right. }
  split; [|intros _; split; [done|]|done].
  - intros o Ho. cbn [d_checkpoint d' after_commit] in Ho. destruct (offsets_of _ _ (proj1 Gs) Ho) as (? & -> & ->). eauto.
  - intros Hge. change (d_checkpoint d') with (committed_offsets (d_src d)).
    destruct (committed_offsets (d_src d)) as [o|] eqn:Eo; [|done]. exists o. split; [done|].
    destruct (offsets_of _ _ (proj1 Gs) Eo) as (_ & -> & _). done.
Qed.

Lemma good_available d o s' : good d -> available_end options tables (d_src d) = (o, s') ->
  good (with_src d s').
Proof.
  intros G Ha. assert (same_place (d_src d) s' \/ restored_complete tables (d_src d) = false /\ snapshot_done s' = 0) as Hpl.
  { unfold available_end, mbind, ask in Ha. destruct (ensure_open options tables (d_src d)) as [o1 s1] eqn:E1.
    apply open_place in E1. destruct o1 as [[]|er|]; [|by injection Ha as <- <-..].
    destruct (slot_metrics _) as [[m|e] w]; injection Ha as <- <-; exact E1. }
  rewrite complete_iff in Hpl by done. destruct (d_recorded d) as [r|] eqn:Er.
  2: { eapply (idle_after d); [done|done|exact Er|done|done|done|]. destruct Hpl as [?|[_ ?]]; auto. }
  destruct G as [Gc Gi Gb]. destruct (Gb r Er) as (Hemp & Hsrc & Hcont & Hplace & _).
  split; [exact Gc|cbn; by rewrite Er|]. intros r0 Er0. cbn in Er0. rewrite Er in Er0. injection Er0 as <-.
  split; [done|]. split; [done|]. split; [|split; [|done]].
  - destruct Hcont as [i cp Hpart Hi Hj|from e -> Hdone Hck Hcov]; [by eapply continues_snapshot|].
    eapply continues_stream; [done| |done|done]. cbn. destruct Hpl as [[-> _]|[? _]]; [done|bool_to_prop; lia].
  - destruct Hpl as [[Hd Hpos]|[_ Hd]]; [|left; unfold source_sound; cbn; rewrite Hd; apply sound_zero].
    destruct Hplace as [Hs|Hah]; [left; unfold source_sound; cbn; by rewrite Hd, Hpos|right].
    destruct Hah as [i cp Hpart Hi Hcp|Hn Hdone He]; [by eapply ahead_snapshot; cbn; rewrite ?Hd, ?Hpos|].
    by apply ahead_stream; cbn; rewrite ?Hd, ?Hpos.
Qed.

Lemma good_crash d w : good d ->
  good (with_src d (restart w (d_checkpoint d))).
Proof.
  intros [Gc Gi Gb]. pose proof tables_pos.
  assert (forall o, d_checkpoint d = Some o -> so_source o = SOURCE_NAME /\ 0 <= done_of o /\ exists l, lsn_of o = as_i64 l) as Hck
    by (intros o Ho; destruct (Gc o Ho) as (? & (? & _) & ?); split; [done|]; split; [lia|done]).
  pose proof (restart_place w (d_checkpoint d) Hck) as Hre. set (d' := with_src _ _).
  assert (source_sound d') as Gs.
  { unfold source_sound. cbn [d_src d' with_src]. destruct (d_checkpoint d) as [o|] eqn:Eo; [|rewrite Hre; apply sound_zero].
    destruct Hre as [-> ->]. by destruct (Gc o eq_refl) as (_ & ? & _). }
  split; [exact Gc| |].
  - intros Hr. split; [done|]. intros Hge. cbn in *. destruct (d_checkpoint d) as [o|]; [|lia]. exists o. split; [done|lia].
  - intros r Hr. destruct (Gb r Hr) as (Hemp & Hsrc & Hcont & _). split; [done|]. split; [done|]. split; [|split; [by left|done]].
    destruct Hcont as [i cp Hpart Hi Hj|from e -> Hdone (o & Eo & Hn) Hcov]; [by eapply continues_snapshot|].
    apply (continues_stream _ _ from e); [reflexivity| |exists o; split; [exact Eo|exact Hn]|exact Hcov]. cbn [d_src d' with_src]. rewrite Eo in Hre |- *. destruct Hre as [-> _]. exact Hn.
Qed.

Lemma good_start w : good (start w).
Proof.
  pose proof tables_pos. split; [done| |done]. intros _. unfold source_sound. cbn -[with_wire].
  assert (snapshot_done (with_wire w) = 0) as -> by (unfold with_wire; by destruct (instant_now w)).
  split; [apply sound_zero|lia].
Qed.

Lemma good_step d d' : dstep d d' -> good d -> good d'.
Proof.
  intros [d0 o s' saved Hr Hp|d0 r o s' Hr Hp|d0 r Hr Hpol|d0 o s' Hr Hd|d0 o s' Ha|d0 w] G.
  - by eapply good_plan.
  - by eapply good_poll.
  - by eapply good_commit.
  - eapply (idle_after d0); [done|exact Hr|exact Hr|done|done|done|]. left. apply steadily_place.
    assert (steady (mark_durable tables : M Src unit)) as H by (unfold mark_durable; steady_solve).
    specialize (H (d_src d0)). by rewrite Hd in H.
  - by eapply good_available.
  - by apply good_crash.
Qed.

(** C3. The snapshot and the stream meet exactly once.  In every history of a
    deployment — plans, polls, failures of either, durable batches, and crashes
    at any moment, with whatever the server answers — when the source plans a
    stretch of the log, all its tables have been made durable as of one point of
    the log, and the log between that point and the start of the stretch has
    been made durable or was seen to hold nothing for the source. *)
Theorem stream_follows_snapshot w d r s' :
  rtc dstep (start w) d -> d_recorded d = None ->
  plan_batch options tables fuel bytes (d_src d) = (Done r, s') -> range_is_empty r = false ->
  br_start r !! SNAPSHOT_KEY = None ->
  exists cp from, br_start r !! LSN_KEY = Some from /\ snapshot_at d cp /\ covered d cp from.
Proof.
  intros Hreach Hr Hp Hemp Hns.
  assert (good d) as G by (eapply (rtc_ind_r good); [apply good_start|intros; by eapply good_step|exact Hreach]).
  destruct (g_idle _ G Hr) as [(_ & _ & Hge) _].
  destruct (plan_place _ _ _ _ _ _ _ Hne Hp) as [(Hc & _ & Hrange)|(_ & _ & Hrange)].
  - rewrite complete_iff in Hc by done. bool_to_prop. destruct (Hge Hc) as (cp & Hcp & Hcov).
    destruct (Hrange r eq_refl) as [->|(e & -> & _)]; [done|]. exists cp, (as_i64 (position (d_src d))).
    split; [cbn [wal_range br_start]; by rewrite lookup_singleton_eq|]. split; [exact Hcp|exact Hcov].
  - destruct (Hrange r eq_refl) as [-> _]. cbn [snapshot_range br_start] in Hns.
    rewrite lookup_insert_eq in Hns. discriminate Hns.
Qed.

End Deployment.
