(* ===== verification/PgCdcRuns.v ===== *)
(** * PgCdcRuns: runs of the change-data-capture source

    A small server that behaves as Postgres documents: a session starts after
    the later of the position asked for and the one confirmed, and what was
    confirmed is not sent again.  The witnesses of the theorems of [PgStream.v]
    and [PgSnapshot.v], and three runs that show where the source falls short:
    a position confirmed before its batch is durable, transactions skipped
    after a message that does not decode, and a snapshot that cannot be read
    again. *)

From S2P Require Import Prelude Text Effects Source PgOutput PgCdc PgStream PgSnapshot.

Module CdcRuns.

(** ** A server *)

(** How a session goes: calm, or asking for a reply and then dropping. *)
Inductive weather := Calm | PingThenDrop.

Record Server := {
  sv_log : list (Z * list WireMessage);
  sv_confirmed : Z;
  sv_queue : list (result Error WireMessage);
  sv_sessions : list weather;
  sv_table : list cdc_row;
  sv_cursor : list (result Error (list cdc_row));
  sv_cursors : list weather;
}.

Definition at_ (z : Z) : Lsn := {| lsn := z |}.
Definition dropped : Error := Io (lit "connection reset by peer").
Definition head_of (sv : Server) : Z := foldr Z.max 100 (sv_log sv).*1.

Definition session (start : Z) (sv : Server) : Server :=
  let from := Z.max start (sv_confirmed sv) in
  let calm := (Ok <$> (filter (fun t => from < t.1) (sv_log sv) ≫= snd)) ++ [Ok (Keepalive (at_ (head_of sv)) 0 false)] in
  {| sv_log := sv_log sv; sv_confirmed := sv_confirmed sv;
     sv_queue := match sv_sessions sv with
                 | PingThenDrop :: _ => [Ok (Keepalive (at_ from) 0 true); Err dropped]
                 | _ => calm
                 end;
     sv_sessions := tail (sv_sessions sv); sv_table := sv_table sv; sv_cursor := sv_cursor sv; sv_cursors := sv_cursors sv |}.
Definition with_queue (q : list (result Error WireMessage)) (sv : Server) : Server :=
  {| sv_log := sv_log sv; sv_confirmed := sv_confirmed sv; sv_queue := q; sv_sessions := sv_sessions sv;
     sv_table := sv_table sv; sv_cursor := sv_cursor sv; sv_cursors := sv_cursors sv |}.
Definition with_cursor (q : list (result Error (list cdc_row))) (sv : Server) : Server :=
  {| sv_log := sv_log sv; sv_confirmed := sv_confirmed sv; sv_queue := sv_queue sv; sv_sessions := sv_sessions sv;
     sv_table := sv_table sv; sv_cursor := q; sv_cursors := tail (sv_cursors sv) |}.
Definition with_confirmed (z : Z) (sv : Server) : Server :=
  {| sv_log := sv_log sv; sv_confirmed := Z.max (sv_confirmed sv) z; sv_queue := sv_queue sv; sv_sessions := sv_sessions sv;
     sv_table := sv_table sv; sv_cursor := sv_cursor sv; sv_cursors := sv_cursors sv |}.

#[export] Instance server_wire : CdcWire Server := {
  open_slot create sv := (Ok {| consistent_point := at_ 100; existed := true; so_snapshot_open := create |}, sv);
  snapshot_open _ sv :=
    (Ok tt, with_cursor (match sv_cursors sv with PingThenDrop :: _ => [Err dropped] | _ => [Ok (sv_table sv)] end) sv);
  snapshot_fetch _ sv :=
    match sv_cursor sv with [] => (Ok [], sv) | r :: q => (r, {| sv_log := sv_log sv; sv_confirmed := sv_confirmed sv;
      sv_queue := sv_queue sv; sv_sessions := sv_sessions sv; sv_table := sv_table sv; sv_cursor := q; sv_cursors := sv_cursors sv |}) end;
  snapshot_close sv := (Ok tt, sv);
  end_snapshot sv := (Ok tt, sv);
  start_stream l sv := (Ok tt, session (lsn l) sv);
  next_wire _ sv :=
    match sv_queue sv with
    | [] => (Ok None, sv)
    | Ok f :: q => (Ok (Some f), with_queue q sv)
    | Err e :: q => (Err e, with_queue q sv)
    end;
  confirm _ flushed sv := (Ok true, with_confirmed (lsn flushed) sv);
  slot_metrics sv := (Ok {| retained_bytes := 0; server_flush := at_ (head_of sv); confirmed_flush := Some (at_ (sv_confirmed sv)) |}, sv);
  instant_now sv := (0, sv);
}.

(** Columns as the text of their cells. *)
#[export] Instance text_lib : CdcLib (list (option str)) (list (list (option str))) := {
  build_array _ _ vs := Ok (vs, None);
  string_array vs := Some <$> vs;
  int64_array vs := (fun v => Some (show_i v)) <$> vs;
  timestamp_array vs := (fun v : option Z => show_i <$> v) <$> vs;
  try_new _ cols := Ok cols;
  hex_encode b := b ≫= show_hex;
}.

(** ** A table and its log *)

Definition users : TableSchema :=
  {| ts_schema := lit "public"; ts_table := lit "users";
     ts_columns := [{| col_name := lit "id"; type_oid := 23; type_modifier := -1; data_type := Int32; nullable := false; warning := None |}];
     ts_keys := [lit "id"]; ts_replica_identity := 100 |}.
Definition users_rel : Relation :=
  {| rel_oid := 7; rel_namespace := lit "public"; rel_name := lit "users"; rel_replica_identity := 100;
     rel_columns := [{| rc_key := true; rc_name := lit "id"; rc_type_oid := 23; rc_type_modifier := -1 |}] |}.

Definition demo_options : PostgresCdcOptions :=
  {| connect := {| pc_host := lit "db"; pc_port := 5432; pc_database := lit "app"; pc_user := lit "oxidant";
                   pc_password := None; pc_tls := VerifyFull; pc_tls_ca := None |};
     publication := lit "pub"; slot := lit "oxidant"; opt_tables := [lit "public.users"]; exclude_columns := []; opt_keys := [];
     publish_ops := [OpInsert; OpUpdate; OpDelete; OpTruncate]; max_slot_bytes := DEFAULT_MAX_SLOT_BYTES;
     max_batch_bytes := DEFAULT_MAX_BATCH_BYTES; snapshot_batch_rows := 2; idle := DEFAULT_IDLE_MS; status_interval := DEFAULT_STATUS_MS;
     transaction_warn_bytes := TRANSACTION_WARN_BYTES; slot_wait := DEFAULT_SLOT_WAIT_MS; log_dir := None; opt_name := SOURCE_NAME |}.

Definition frame (z : Z) (m : LogicalMessage) : WireMessage := XLogData (at_ z) (at_ z) 0 (encode_logical m).
Definition text (s : string) : TupleData := TextValue (lit s).
(** The insertion of one user, from [z - 90] to [z]. *)
Definition insert_txn (z : Z) (id : string) : Txn :=
  {| tx_at := at_ (z - 90); tx_final := at_ (z - 10); tx_xid := 1;
     tx_changes := [(at_ (z - 90), RelationMsg users_rel); (at_ (z - 80), Insert 7 [text id])];
     tx_commit_at := at_ (z - 10); tx_flags := 0; tx_commit := at_ (z - 10); tx_end := at_ z; tx_time := 0 |}.
Definition txn_frames (t : Txn) : list WireMessage := (fun c => frame (lsn c.1) c.2) <$> txn_messages t.
(** A logical decoding message, which protocol version 1 does not have. *)
Definition bad_frame (z : Z) : WireMessage := XLogData (at_ z) (at_ z) 0 [77].

Definition server (log : list (Z * list WireMessage)) (sessions cursors : list weather) : Server :=
  {| sv_log := log; sv_confirmed := 100; sv_queue := []; sv_sessions := sessions; sv_table := [[Some (lit "1")]];
     sv_cursor := []; sv_cursors := cursors |}.

Definition fuel : nat := 20.
Definition bytes_text (n : Z) : str := fmt [show_u n; lit " B"].

Notation plan := (plan_batch demo_options [users] fuel bytes_text).
Notation poll := (poll_range demo_options [users] fuel).

(** A process that resumes after the snapshot, at 100. *)
Definition resumed {W} `{!CdcWire W} (w : W) : PostgresCdcSource W :=
  restore_offsets (with_wire w)
    {| so_source := SOURCE_NAME; so_entries := <[SNAPSHOT_KEY := 1]> {[ LSN_KEY := 100 ]} |}.

(** The column [id] of the batches of a poll. *)
Definition ids {S} (r : outcome (list (list (list (option str)))) * S) : outcome (list (option str)) :=
  match r.1 with
  | Done bs => Done (bs ≫= (fun b => default [] (b !! 0%nat)))
  | Failed e => Failed e
  | Crashed => Crashed
  end.

(** ** A position confirmed before its batch is durable *)

Definition ping_server : Server := server [(200, txn_frames (insert_txn 200 "41"))] [Calm; PingThenDrop; Calm] [].
Definition ping0 := resumed ping_server.
Definition ping1 := (plan ping0).2.
Definition stretch : BatchRange := wal_range (at_ 100) (at_ 200).
Definition ping2 := (poll stretch ping1).2.
Definition ping3 := (poll stretch ping2).2.

(** A poll moves the position to the end of the batch before the batch is
    durable.  Here the sink refuses the batch, the recorded range is polled
    again on the same source, the server asks for a reply and the connection
    drops: the reply confirmed the end of the batch, so the server does not send
    it again, and the next poll returns no rows and no error. *)
Theorem undurable_position_confirmed :
  (plan ping0).1 = Done stretch /\
  ids (poll stretch ping1) = Done [Some (lit "41")] /\
  (poll stretch ping2).1 = Failed dropped /\ sv_confirmed (wire ping3) = 200 /\
  ids (poll stretch ping3) = Done [].
Proof. vm_compute. repeat split. Qed.

(** ** Transactions skipped after a message that does not decode *)

Definition bad_server : Server :=
  server [(200, txn_frames (insert_txn 200 "41"));
          (300, take 2 (txn_frames (insert_txn 300 "42")) ++ bad_frame 215 :: drop 2 (txn_frames (insert_txn 300 "42")))] [] [].
Definition bad0 := resumed bad_server.
Definition bad1 := (plan bad0).2.
Definition bad2 := (plan bad1).2.

(** A message that does not decode fails the plan with a retryable error, and
    leaves [stream_at] where the read began although the socket is past it.  The
    next plan reads on from there: the transaction before the message is
    skipped, while the range it returns covers it. *)
Theorem decode_error_skips_transactions :
  (plan bad0).1 = Failed (Io (lit "pgoutput message type `M` is not part of protocol version 1")) /\
  stream_at bad1 = Some (at_ 100) /\
  (plan bad1).1 = Done (wal_range (at_ 100) (at_ 300)) /\
  ids (poll (wal_range (at_ 100) (at_ 300)) bad2) = Done [Some (lit "42")].
Proof. vm_compute. repeat split. Qed.

(** ** A snapshot that cannot be read again *)

Definition stuck_server : Server := server [] [] [Calm; PingThenDrop; Calm; Calm].
Definition stuck0 := with_wire stuck_server.
Definition stuck1 := (plan stuck0).2.
Definition table_range : BatchRange := snapshot_range stuck1.
Definition stuck2 := (poll table_range stuck1).2.
Definition stuck3 := (poll table_range stuck2).2.
Definition stuck4 := (poll table_range stuck3).2.

(** The last table is read, the sink refuses the batch, and the connection drops
    while the table is read again.  The source then takes its snapshot for
    complete, finds the slot and does not recreate it, so that every later poll
    of the recorded range fails, until another process takes over. *)
Theorem snapshot_replay_stuck :
  (plan stuck0).1 = Done table_range /\
  ids (poll table_range stuck1) = Done [Some (lit "1")] /\
  (poll table_range stuck2).1 = Failed dropped /\
  (poll table_range stuck3).1 = Failed (snapshot_closed users) /\
  (poll table_range stuck4).1 = Failed (snapshot_closed users) /\
  ids (poll table_range (with_wire stuck_server)) = Done [Some (lit "1")].
Proof. vm_compute. repeat split. Qed.

(** ** Witnesses *)

Definition hist (sv : Server) : History Server := {| hw := sv; calls := [] |}.
Definition calm_server : Server := server [(200, txn_frames (insert_txn 200 "41"))] [] [].
Definition calm0 := resumed (hist calm_server).
Definition calm1 := (ensure_open demo_options [users] calm0).2.

Lemma calm_opens : ensure_open demo_options [users] calm0 = (Done tt, calm1).
Proof. vm_compute. reflexivity. Qed.

Lemma confirm_carries_position_witness :
  confirming (fun p => p = position calm1 \/ p = position (plan calm0).2) calm0 (plan calm0).2 /\
  confirming (fun p => p = position calm1) calm0 (poll stretch calm0).2 /\
  confirming (fun p => exists o, committed_offsets calm0 = Some o /\ so_entries o !! LSN_KEY = Some (as_i64 p)) calm0
    (mark_durable [users] calm0).2 /\
  committed_offsets (mark_durable [users] calm0).2 = committed_offsets calm0.
Proof. exact (confirm_carries_position demo_options [users] fuel bytes_text calm0 calm1 stretch calm_opens). Defined.

Definition one_txn : Txn := insert_txn 200 "41".
Notation forward := (read_forward demo_options [users] fuel (at_ 100) (at_ 200) DEFAULT_MAX_BATCH_BYTES).
Definition calm2 := (forward calm0).2.
Definition one_event : ChangeEvent :=
  {| ev_op := OpInsert; ev_lsn := 120; ts_micros := Some PG_EPOCH_UNIX_MICROS; values := [Some (lit "41")] |}.

Lemma calm_reads : forward calm0 = (Done ([one_event], at_ 200), calm2).
Proof. vm_compute. reflexivity. Qed.
Lemma calm_frames : messages (frames (new_calls calm0 calm2)) = Ok (txn_messages one_txn).
Proof. vm_compute. reflexivity. Qed.
Lemma one_txn_read : reads_txns (txn_messages one_txn) [one_txn] [].
Proof. split; [|by rewrite app_nil_r; vm_compute|by left]. by repeat constructor. Qed.

Lemma read_forward_transactions_witness :
  [one_event] = txns_events demo_options [users] (at_ 100) (shapes calm0) [one_txn] /\
  (([] : list (Lsn * LogicalMessage)) <> [] -> stream_at calm2 = None) /\
  (at_ 200 = at_ 100 \/ (exists t, t ∈ [one_txn] /\ at_ 200 = tx_end t) \/ [one_event] = [] /\ ([] : list (Lsn * LogicalMessage)) = []) /\
  (forall t, t ∈ [one_txn] -> lsn (at_ 100) < lsn (tx_end t) -> lsn (tx_end t) <= lsn (at_ 200)).
Proof.
  refine (read_forward_transactions demo_options [users] fuel (at_ 100) (at_ 200) DEFAULT_MAX_BATCH_BYTES calm0 [one_event] (at_ 200)
    calm2 (txn_messages one_txn) [one_txn] [] calm_reads calm_frames one_txn_read _).
  by repeat constructor.
Defined.

(** The range read again by another process. *)
Definition again0 := resumed (hist calm_server).
Notation again := (replay demo_options [users] fuel (at_ 100) (at_ 200)).
Definition again1 := (again again0).2.
Lemma again_reads : again again0 = (Done [one_event], again1).
Proof. vm_compute. reflexivity. Qed.
Lemma again_frames : frames (new_calls again0 again1) = txn_frames one_txn.
Proof. vm_compute. reflexivity. Qed.
Lemma one_txn_frames : messages (txn_frames one_txn) = Ok (txn_messages one_txn).
Proof. vm_compute. reflexivity. Qed.

Lemma one_txn_log : log_ok [one_txn].
Proof.
  split; [by repeat constructor|]. intros t c ->%list_elem_of_singleton Hc.
  repeat (apply elem_of_cons in Hc as [->|Hc]; [cbn; lia|]). by apply elem_of_nil in Hc.
Qed.
Lemma one_txn_honest : honest [one_txn] (txn_frames one_txn).
Proof.
  intros i f ms Hi Hms t ->%list_elem_of_singleton Hle.
  pose proof (lookup_lt_Some _ _ _ Hi) as Hlt. change (length (txn_frames one_txn)) with 4%nat in Hlt.
  do 4 (destruct i as [|i]; [injection Hi as <-; cbn in Hle; lia|]). lia.
Qed.

(** The rows of the plan, and those of the replay. *)
Definition planned_rows : list ChangeEvent :=
  match (read_forward demo_options [users] fuel (at_ 100) (at_ 200) DEFAULT_MAX_BATCH_BYTES calm0).1 with
  | Done (evs, _) => evs | _ => [] end.
Definition replayed_rows : list ChangeEvent := match (again again0).1 with Done evs => evs | _ => [] end.
Lemma planned_one : planned_rows = [one_event].
Proof. vm_compute. reflexivity. Qed.
Lemma replayed_one : replayed_rows = [one_event].
Proof. vm_compute. reflexivity. Qed.

Lemma replay_reproduces_witness : planned_rows <> [] /\ replayed_rows = planned_rows.
Proof.
  rewrite planned_one, replayed_one. split; [discriminate|].
  refine (replay_reproduces demo_options [users] fuel fuel (at_ 100) (at_ 200) DEFAULT_MAX_BATCH_BYTES calm0 calm2 again0 again1
    [one_event] (at_ 200) [one_event] [one_txn] [one_txn] [one_txn] ∅ calm_reads _ again_reads one_txn_log _ _ _ _ _ _).
  - discriminate.
  - cbn. lia.
  - exists (txn_messages one_txn), []. split; [exact calm_frames|]. split; [exact one_txn_read|reflexivity].
  - exists (txn_messages one_txn), []. rewrite again_frames. split; [exact one_txn_frames|]. split; [exact one_txn_read|reflexivity].
  - rewrite again_frames. exact one_txn_honest.
  - intros o Ho. by apply not_elem_of_empty in Ho.
  - cbn. split; [by intros o ?%elem_of_nil|]. split; [|done]. intros o ->%list_elem_of_singleton.
    apply elem_of_union. left. by apply elem_of_singleton.
Defined.

(** A server with at most one thing to say. *)
#[local] Instance whisper_wire : CdcWire bool := {
  open_slot create b := (Ok {| consistent_point := at_ 100; existed := true; so_snapshot_open := create |}, b);
  snapshot_open _ _ := (Ok tt, true);
  snapshot_fetch _ b := (Ok (if b : bool then [[Some (lit "1")]] else []), false);
  snapshot_close b := (Ok tt, b);
  end_snapshot b := (Ok tt, b);
  start_stream _ _ := (Ok tt, true);
  next_wire _ b := (Ok (if b : bool then Some (Keepalive (at_ 150) 0 true) else None), false);
  confirm _ _ b := (Ok true, b);
  slot_metrics b := (Ok {| retained_bytes := 0; server_flush := at_ 200; confirmed_flush := None |}, b);
  instant_now b := (0, b);
}.
#[local, program] Instance whisper_finite : FiniteWire bool := { rank b := if b then 1%nat else 0%nat }.
Next Obligation. intros d [] f w'; cbn; intros [= <- <-]. lia. Qed.
Next Obligation. intros n [] r rows w'; cbn; intros [= <- <- <-]. lia. Qed.
Next Obligation. done. Qed.
Next Obligation. done. Qed.

Lemma cdc_answers_witness :
  (plan_batch demo_options [users] 2 bytes_text (resumed true)).1 <> Crashed /\
  (poll_range demo_options [users] 2 stretch (resumed true)).1 <> Crashed /\
  (mark_durable [users] (resumed true)).1 <> Crashed.
Proof.
  refine (cdc_answers demo_options [users] 2 bytes_text _ (resumed true) stretch). intros []; cbn; lia.
Defined.

(** *** A deployment: the table is read and made durable, then the log *)

Notation planh := (plan_batch demo_options [users] fuel bytes_text).
Notation pollh := (poll_range demo_options [users] fuel).
Definition dep0 : Deployment := start (hist calm_server).
Definition src1 := (planh (d_src dep0)).2.
Definition table0 : BatchRange := snapshot_range src1.
Definition dep1 := after_plan [users] dep0 (Done table0) src1 true.
Definition src2 := (pollh table0 src1).2.
Definition rows0 := (pollh table0 src1).1.
Definition dep2 := after_poll dep1 table0 rows0 src2.
Definition dep3 := after_commit dep2 table0.
Definition src4 := (planh src2).2.

Lemma dep_plan : planh (d_src dep0) = (Done table0, src1).
Proof. vm_compute. reflexivity. Qed.
Lemma dep_poll : pollh table0 (d_src dep1) = (rows0, src2).
Proof. vm_compute. reflexivity. Qed.
Lemma dep_stream : planh src2 = (Done stretch, src4).
Proof. vm_compute. reflexivity. Qed.
Lemma dep1_recorded : d_recorded dep1 = Some table0.
Proof. vm_compute. reflexivity. Qed.
Lemma dep2_polled : d_polled dep2 = true.
Proof. vm_compute. reflexivity. Qed.

Lemma dep_reached : rtc (dstep demo_options [users] fuel bytes_text) dep0 dep3.
Proof.
  eapply rtc_l; [apply (step_plan _ _ _ _ dep0 (Done table0) src1 true); [done|exact dep_plan]|].
  eapply rtc_l; [apply (step_poll _ _ _ _ dep1 table0 rows0 src2); [exact dep1_recorded|exact dep_poll]|].
  eapply rtc_l; [apply (step_commit _ _ _ _ dep2 table0); [done|exact dep2_polled]|]. apply rtc_refl.
Qed.

Lemma stream_follows_snapshot_witness :
  exists cp from, br_start stretch !! LSN_KEY = Some from /\ snapshot_at [users] dep3 cp /\ covered dep3 cp from.
Proof.
  refine (stream_follows_snapshot demo_options [users] fuel bytes_text _ _ (hist calm_server) dep3 stretch src4
    dep_reached _ dep_stream _ _).
  - discriminate.
  - vm_compute. reflexivity.
  - reflexivity.
  - vm_compute. reflexivity.
  - vm_compute. reflexivity.
Defined.

End CdcRuns.
