(* ===== verification/HistoryRecord.v ===== *)
(** * HistoryRecord: statement journal records and their fold

    [oxidant-connect/src/history/record.rs].  A statement's life is written to
    the journal as records; replaying them folds the records of each statement
    into one [FoldedStatement].  Files are read newest first and a crashed
    compaction leaves records twice, so the fold must not depend on the order
    or the multiplicity of what it reads: [fold_set_determined].  The
    hypothesis [coherent] is what the statement store guarantees about the
    records it writes; [to_snapshot] keeps it ([snapshots_coherent]), and a
    snapshot stands for the records it was folded from ([compacted_view]). *)

From S2P Require Import Prelude Text.

(** ** Data *)

Definition RECORD_VERSION : Z := 1.

Inductive StatementStatus := Pending | Running | Succeeded | Failed | Canceled.
#[export] Instance StatementStatus_eq_dec : EqDecision StatementStatus.
Proof. solve_decision. Defined.

Definition status_as_str (s : StatementStatus) : str :=
  match s with
  | Pending => lit "pending"
  | Running => lit "running"
  | Succeeded => lit "succeeded"
  | Failed => lit "failed"
  | Canceled => lit "canceled"
  end.

Definition is_terminal (s : StatementStatus) : bool :=
  match s with Succeeded | Failed | Canceled => true | _ => false end.

Inductive StatementSource := Rest | Connect.
#[export] Instance StatementSource_eq_dec : EqDecision StatementSource.
Proof. solve_decision. Defined.

Definition source_as_str (s : StatementSource) : str :=
  match s with Rest => lit "rest" | Connect => lit "connect" end.

Definition source_parse (raw : str) : StatementSource :=
  if decide (raw = lit "connect") then Connect else Rest.

Inductive RecordKind := KindSubmitted | KindRunning | KindSnapshot | KindTombstone.
#[export] Instance RecordKind_eq_dec : EqDecision RecordKind.
Proof. solve_decision. Defined.

Definition kind_rank (k : RecordKind) : Z :=
  match k with
  | KindSubmitted => 0
  | KindRunning => 1
  | KindSnapshot => 2
  | KindTombstone => 3
  end.

Record ResultPointer := { rp_file : str; rp_bytes : Z }.
#[export] Instance ResultPointer_eq_dec : EqDecision ResultPointer.
Proof. solve_decision. Defined.

Definition STATEMENT_ID_PREFIX : str := lit "stmt-".

Definition result_file_name (id : str) : str := id ++ lit ".arrow".

Definition result_statement_id (file_name : str) : option str :=
  match strip_suffix (lit ".arrow") file_name with
  | Some id =>
      if starts_with id STATEMENT_ID_PREFIX
         && (length (utf8_encode STATEMENT_ID_PREFIX) <? length (utf8_encode id))%nat
      then Some id else None
  | None => None
  end.

Definition result_is_partial (file_name : str) : bool :=
  match strip_suffix (lit ".tmp") file_name with
  | Some stem => bool_decide (is_Some (result_statement_id stem))
  | None => false
  end.

Definition RESULT_TOO_LARGE : str := lit "result_too_large".
Definition RESULT_EMPTY : str := lit "result_empty".
Definition INTERRUPTED_BY_RESTART : str := lit "interrupted by restart".

Record JournalRecord := {
  j_v : Z;
  j_kind : RecordKind;
  j_seq : Z;
  j_last_seq : option Z;
  j_id : str;
  j_client_op_id : option str;
  j_session : option str;
  j_source : option str;
  j_sql : option str;
  j_sql_encoding : option str;
  j_status : option StatementStatus;
  j_error : option str;
  j_schema : option (list (str * str));
  j_rows : option Z;
  j_submitted_at_ms : Z;
  j_duration_ms : option Z;
  j_result : option ResultPointer;
  j_result_refused : option str;
  j_ts : str
}.
#[export] Instance JournalRecord_eq_dec : EqDecision JournalRecord.
Proof. solve_decision. Defined.

(** The pair the fold orders records by, and Rust's order on such pairs. *)
Definition fold_key (r : JournalRecord) : Z * Z :=
  (default (j_seq r) (j_last_seq r), kind_rank (j_kind r)).

Definition key_ltb (a b : Z * Z) : bool :=
  (a.1 <? b.1) || ((a.1 =? b.1) && (a.2 <? b.2)).

Definition tombstone (ts id : str) (seq submitted_at_ms : Z) : JournalRecord := {|
  j_v := RECORD_VERSION; j_kind := KindTombstone; j_seq := seq; j_last_seq := Some seq;
  j_id := id; j_client_op_id := None; j_session := None; j_source := None; j_sql := None;
  j_sql_encoding := None; j_status := None; j_error := None; j_schema := None; j_rows := None;
  j_submitted_at_ms := submitted_at_ms; j_duration_ms := None; j_result := None;
  j_result_refused := None; j_ts := ts |}.

Record FoldedStatement := {
  f_id : str;
  f_client_op_id : option str;
  f_session : option str;
  f_source : StatementSource;
  f_sql : str;
  f_sql_encoding : str;
  f_status : StatementStatus;
  f_error : option str;
  f_schema : option (list (str * str));
  f_rows : option Z;
  f_submitted_at_ms : Z;
  f_duration_ms : option Z;
  f_result : option ResultPointer;
  f_result_refused : option str;
  f_seq : Z;
  f_last_seq : Z;
  f_rank : Z
}.
#[export] Instance FoldedStatement_eq_dec : EqDecision FoldedStatement.
Proof. solve_decision. Defined.

Record Fold := {
  fd_statements : gmap str FoldedStatement;
  fd_tombstoned : gset str;
  fd_max_seq : Z;
  fd_records : Z
}.

Definition fold_default : Fold :=
  {| fd_statements := ∅; fd_tombstoned := ∅; fd_max_seq := 0; fd_records := 0 |}.

(** ** Operations *)

(** [Option::or]: what both halves of the fold do to an optional field, the
    newer record's value first. *)
Definition opt_or {A} (newer older : option A) : option A :=
  match newer with Some x => Some x | None => older end.

Definition is_empty (s : str) : bool := match s with [] => true | _ => false end.

Definition backfill (st : FoldedStatement) (r : JournalRecord) : FoldedStatement :=
  let takes := is_empty (f_sql st) && bool_decide (is_Some (j_sql r)) in
  let open_ := f_rank st <? kind_rank KindSnapshot in
  {| f_id := f_id st;
     f_client_op_id := opt_or (f_client_op_id st) (j_client_op_id r);
     f_session := opt_or (f_session st) (j_session r);
     f_source := f_source st;
     f_sql := if takes then default [] (j_sql r) else f_sql st;
     f_sql_encoding := if takes then default (f_sql_encoding st) (j_sql_encoding r) else f_sql_encoding st;
     f_status := f_status st;
     f_error := opt_or (f_error st) (j_error r);
     f_schema := opt_or (f_schema st) (j_schema r);
     f_rows := opt_or (f_rows st) (j_rows r);
     f_submitted_at_ms := f_submitted_at_ms st;
     f_duration_ms := opt_or (f_duration_ms st) (j_duration_ms r);
     f_result := if open_ then opt_or (f_result st) (j_result r) else f_result st;
     f_result_refused := if open_ then opt_or (f_result_refused st) (j_result_refused r) else f_result_refused st;
     f_seq := f_seq st; f_last_seq := f_last_seq st; f_rank := f_rank st |}.

(** The branch of [Fold::apply] for a record at least as new as the entry. *)
Definition advance (st : FoldedStatement) (r : JournalRecord) : FoldedStatement :=
  let snap := bool_decide (j_kind r = KindSnapshot) in
  {| f_id := f_id st;
     f_client_op_id := opt_or (j_client_op_id r) (f_client_op_id st);
     f_session := opt_or (j_session r) (f_session st);
     f_source := match j_source r with Some s => source_parse s | None => f_source st end;
     f_sql := default (f_sql st) (j_sql r);
     f_sql_encoding := default (f_sql_encoding st) (j_sql_encoding r);
     f_status := default (f_status st) (j_status r);
     f_error := opt_or (j_error r) (f_error st);
     f_schema := opt_or (j_schema r) (f_schema st);
     f_rows := opt_or (j_rows r) (f_rows st);
     f_submitted_at_ms := f_submitted_at_ms st;
     f_duration_ms := opt_or (j_duration_ms r) (f_duration_ms st);
     f_result := if snap then j_result r else opt_or (j_result r) (f_result st);
     f_result_refused := if snap then j_result_refused r else opt_or (j_result_refused r) (f_result_refused st);
     f_seq := f_seq st; f_last_seq := (fold_key r).1; f_rank := (fold_key r).2 |}.

Definition first_entry (r : JournalRecord) : FoldedStatement := {|
  f_id := j_id r;
  f_client_op_id := j_client_op_id r;
  f_session := j_session r;
  f_source := match j_source r with Some s => source_parse s | None => Rest end;
  f_sql := default [] (j_sql r);
  f_sql_encoding := default (lit "text") (j_sql_encoding r);
  f_status := default Pending (j_status r);
  f_error := j_error r;
  f_schema := j_schema r;
  f_rows := j_rows r;
  f_submitted_at_ms := j_submitted_at_ms r;
  f_duration_ms := j_duration_ms r;
  f_result := j_result r;
  f_result_refused := j_result_refused r;
  f_seq := j_seq r; f_last_seq := (fold_key r).1; f_rank := (fold_key r).2 |}.

Definition merge_entry (o : option FoldedStatement) (r : JournalRecord) : FoldedStatement :=
  match o with
  | Some st =>
      if key_ltb (fold_key r) (f_last_seq st, f_rank st) then backfill st r else advance st r
  | None => first_entry r
  end.

Definition apply (r : JournalRecord) (f : Fold) : Fold :=
  let f := {| fd_statements := fd_statements f; fd_tombstoned := fd_tombstoned f;
              fd_max_seq := Z.max (Z.max (fd_max_seq f) (fold_key r).1) (j_seq r);
              fd_records := wrapu 64 (fd_records f + 1) |} in
  if decide (j_id r ∈ fd_tombstoned f) then f
  else if decide (j_kind r = KindTombstone) then
    {| fd_statements := delete (j_id r) (fd_statements f);
       fd_tombstoned := {[j_id r]} ∪ fd_tombstoned f;
       fd_max_seq := fd_max_seq f; fd_records := fd_records f |}
  else
    {| fd_statements := <[j_id r := merge_entry (fd_statements f !! j_id r) r]> (fd_statements f);
       fd_tombstoned := fd_tombstoned f;
       fd_max_seq := fd_max_seq f; fd_records := fd_records f |}.

Definition fold_into (f : Fold) (l : list JournalRecord) : Fold := foldl (fun f r => apply r f) f l.
Definition fold_records (l : list JournalRecord) : Fold := fold_into fold_default l.

Definition interrupt (st : FoldedStatement) : FoldedStatement := {|
  f_id := f_id st; f_client_op_id := f_client_op_id st; f_session := f_session st;
  f_source := f_source st; f_sql := f_sql st; f_sql_encoding := f_sql_encoding st;
  f_status := Failed; f_error := Some INTERRUPTED_BY_RESTART;
  f_schema := f_schema st; f_rows := f_rows st; f_submitted_at_ms := f_submitted_at_ms st;
  f_duration_ms := f_duration_ms st; f_result := f_result st; f_result_refused := f_result_refused st;
  f_seq := f_seq st; f_last_seq := f_last_seq st; f_rank := f_rank st |}.

(** The ids are returned in the order of the map's iteration. *)
Definition mark_interrupted (f : Fold) : list str * Fold :=
  let hit := filter (fun kv => is_terminal (f_status kv.2) = false) (fd_statements f) in
  ((map_to_list hit).*1,
   {| fd_statements := (fun st => if is_terminal (f_status st) then st else interrupt st) <$> fd_statements f;
      fd_tombstoned := fd_tombstoned f; fd_max_seq := fd_max_seq f; fd_records := fd_records f |}).

(** [chrono]'s rendering of an instant, a field of the record the fold never
    reads. *)
Class Chrono := { rfc3339_from_ms : Z -> str }.

Definition to_snapshot `{Chrono} (st : FoldedStatement) : JournalRecord := {|
  j_v := RECORD_VERSION; j_kind := KindSnapshot; j_seq := f_seq st;
  j_last_seq := Some (f_last_seq st); j_id := f_id st;
  j_client_op_id := f_client_op_id st; j_session := f_session st;
  j_source := Some (source_as_str (f_source st)); j_sql := Some (f_sql st);
  j_sql_encoding := Some (f_sql_encoding st); j_status := Some (f_status st);
  j_error := f_error st; j_schema := f_schema st; j_rows := f_rows st;
  j_submitted_at_ms := f_submitted_at_ms st; j_duration_ms := f_duration_ms st;
  j_result := f_result st; j_result_refused := f_result_refused st;
  j_ts := rfc3339_from_ms (f_submitted_at_ms st) |}.

(** ** What the statement store guarantees about the records it writes *)

Definition live (r : JournalRecord) : Prop := j_kind r <> KindTombstone.
#[export] Instance live_dec r : Decision (live r).
Proof. unfold live. apply _. Defined.

Definition record_source (r : JournalRecord) : StatementSource :=
  match j_source r with Some s => source_parse s | None => Rest end.

(** Every record has a status; SQL and its encoding travel together; a
    lifecycle record has no terminal status, names no result and is ordered by
    the statement's submit sequence; a snapshot carries the SQL and a later
    write sequence. *)
Record well_formed (r : JournalRecord) : Prop := {
  wf_status : is_Some (j_status r);
  wf_sql : is_Some (j_sql r) <-> is_Some (j_sql_encoding r);
  wf_kind :
    match j_kind r with
    | KindSnapshot => is_Some (j_sql r) /\ exists L, j_last_seq r = Some L /\ j_seq r <= L
    | _ => j_last_seq r = None /\ j_result r = None /\ j_result_refused r = None
           /\ forall s, j_status r = Some s -> is_terminal s = false
    end }.

Definition agree {A} (g : JournalRecord -> option A) (r1 r2 : JournalRecord) : Prop :=
  forall x y, g r1 = Some x -> g r2 = Some y -> x = y.

(** Two records of one statement never contradict each other: what identifies
    the statement is the same, a value written twice is the same value, and
    records with the same fold key tell the same status and result. *)
Record agrees (r1 r2 : JournalRecord) : Prop := {
  ag_seq : j_seq r1 = j_seq r2;
  ag_submitted : j_submitted_at_ms r1 = j_submitted_at_ms r2;
  ag_source : record_source r1 = record_source r2;
  ag_client_op_id : agree j_client_op_id r1 r2;
  ag_session : agree j_session r1 r2;
  ag_sql : agree j_sql r1 r2;
  ag_encoding : agree j_sql_encoding r1 r2;
  ag_error : agree j_error r1 r2;
  ag_schema : agree j_schema r1 r2;
  ag_rows : agree j_rows r1 r2;
  ag_duration : agree j_duration_ms r1 r2;
  ag_key : fold_key r1 = fold_key r2 ->
    j_status r1 = j_status r2 /\ j_result r1 = j_result r2 /\ j_result_refused r1 = j_result_refused r2 }.

Record coherent (l : list JournalRecord) : Prop := {
  co_wf : forall r, r ∈ l -> live r -> well_formed r;
  co_agrees : forall r1 r2, r1 ∈ l -> r2 ∈ l -> live r1 -> live r2 -> j_id r1 = j_id r2 -> agrees r1 r2 }.

Lemma coherent_sub l l' : (forall r, r ∈ l -> r ∈ l') -> coherent l' -> coherent l.
Proof. intros Hsub [Hw Ha]. split; eauto. Qed.

(** ** The fold as a function of a set

    [carries g S v]: [v] is the value of the optional field [g] the records [S]
    establish.  [summary S st]: [st] is the state of the statement whose live
    records are [S], told without reference to any order. *)

Definition carries {A} (g : JournalRecord -> option A) (S : list JournalRecord) (v : option A) : Prop :=
  match v with
  | Some x => exists r, r ∈ S /\ g r = Some x
  | None => forall r, r ∈ S -> g r = None
  end.

Definition newest (S : list JournalRecord) (r : JournalRecord) : Prop :=
  r ∈ S /\ forall r', r' ∈ S -> key_ltb (fold_key r) (fold_key r') = false.

Record summary (S : list JournalRecord) (st : FoldedStatement) : Prop := {
  su_same : forall r, r ∈ S ->
    j_id r = f_id st /\ j_seq r = f_seq st /\ j_submitted_at_ms r = f_submitted_at_ms st
    /\ record_source r = f_source st;
  su_client_op_id : carries j_client_op_id S (f_client_op_id st);
  su_session : carries j_session S (f_session st);
  su_sql : exists v, carries j_sql S v /\ f_sql st = default [] v;
  su_encoding : exists v, carries j_sql_encoding S v /\ f_sql_encoding st = default (lit "text") v;
  su_error : carries j_error S (f_error st);
  su_schema : carries j_schema S (f_schema st);
  su_rows : carries j_rows S (f_rows st);
  su_duration : carries j_duration_ms S (f_duration_ms st);
  su_newest : exists r, newest S r /\ fold_key r = (f_last_seq st, f_rank st)
    /\ j_status r = Some (f_status st) /\ j_result r = f_result st
    /\ j_result_refused r = f_result_refused st }.

Lemma key_ltb_antisym a b : key_ltb a b = false -> key_ltb b a = false -> a = b.
Proof.
  destruct a as [a1 a2], b as [b1 b2]. unfold key_ltb. simpl.
  rewrite !orb_false_iff, !andb_false_iff, !Z.ltb_ge, !Z.eqb_neq.
  intros. f_equal; lia.
Qed.

Lemma key_ltb_trans_ge a b c : key_ltb a b = false -> key_ltb b c = false -> key_ltb a c = false.
Proof.
  destruct a as [a1 a2], b as [b1 b2], c as [c1 c2]. unfold key_ltb. simpl.
  rewrite !orb_false_iff, !andb_false_iff, !Z.ltb_ge, !Z.eqb_neq. lia.
Qed.

Lemma key_ltb_asym a b : key_ltb a b = true -> key_ltb b a = false.
Proof.
  destruct a as [a1 a2], b as [b1 b2]. unfold key_ltb. simpl.
  rewrite !orb_true_iff, !andb_true_iff, !orb_false_iff, !andb_false_iff, !Z.ltb_lt, !Z.ltb_ge, !Z.eqb_neq, !Z.eqb_eq.
  lia.
Qed.

Lemma key_ltb_irrefl a : key_ltb a a = false.
Proof. destruct (key_ltb a a) eqn:E; [|done]. by rewrite (key_ltb_asym _ _ E) in E. Qed.

Lemma carries_single {A} (g : JournalRecord -> option A) r : carries g [r] (g r).
Proof.
  unfold carries. destruct (g r) eqn:E; [by exists r; set_solver|]. intros r'. set_unfold. by intros [->|[]].
Qed.

Lemma carries_newer {A} (g : JournalRecord -> option A) S v r : carries g S v -> carries g (r :: S) (opt_or (g r) v).
Proof.
  unfold carries, opt_or. destruct (g r) eqn:E; [intros _; exists r; set_solver|].
  destruct v as [x|]; [intros (r' & ? & ?); exists r'; set_solver|]. set_solver.
Qed.

Lemma carries_older {A} (g : JournalRecord -> option A) S v r : carries g S v -> carries g (r :: S) (opt_or v (g r)).
Proof.
  unfold carries, opt_or. destruct v as [x|]; [intros (r' & ? & ?); exists r'; set_solver|].
  destruct (g r) eqn:E; [intros _; exists r; set_solver|]. set_solver.
Qed.

Lemma carries_det {A} (g : JournalRecord -> option A) S S' v v' :
  (forall r1 r2, r1 ∈ S -> r2 ∈ S -> agree g r1 r2) -> (forall r, r ∈ S <-> r ∈ S') ->
  carries g S v -> carries g S' v' -> v = v'.
Proof.
  intros Ha HS. destruct v as [x|], v' as [y|]; simpl; try done.
  - intros (r & ? & ?) (r' & ?%HS & ?). f_equal. eapply Ha; [| |done|done]; done.
  - intros (r & ?%HS & ?) Hn. by rewrite Hn in *.
  - intros Hn (r & ?%HS & ?). by rewrite Hn in *.
Qed.

Lemma newest_key S r r' : newest S r -> newest S r' -> fold_key r = fold_key r'.
Proof. intros [? H] [? H']. apply key_ltb_antisym; auto. Qed.

(** Two summaries of one set have the same value of an optional field. *)
Ltac same_field g lem :=
  match goal with
  | Ha : forall r1 r2, _ -> _ -> agrees r1 r2, HS : forall r, _ <-> _,
    A : summary _ ?st, B : summary _ ?st' |- _ ?st = _ ?st' =>
      eapply (carries_det g); [intros; by apply lem, Ha|exact HS|apply A|apply B]
  end.

(** Records that agree have one summary. *)
Lemma summary_det S S' st st' :
  (forall r1 r2, r1 ∈ S -> r2 ∈ S -> agrees r1 r2) -> (forall r, r ∈ S <-> r ∈ S') ->
  summary S st -> summary S' st' -> st = st'.
Proof.
  intros Ha HS A B.
  destruct (su_newest _ _ A) as (n & [Hn Hmax] & Kn & Sn & Rn & Fn).
  destruct (su_newest _ _ B) as (n' & [Hn' Hmax'] & Kn' & Sn' & Rn' & Fn').
  destruct (su_sql _ _ A) as (q & Cq & Eq), (su_sql _ _ B) as (q' & Cq' & Eq').
  destruct (su_encoding _ _ A) as (e & Ce & Ee), (su_encoding _ _ B) as (e' & Ce' & Ee').
  assert (Hk : fold_key n = fold_key n') by (apply key_ltb_antisym; [apply Hmax|apply Hmax']; by apply HS).
  assert (Hin' : n' ∈ S) by (by apply HS).
  destruct (ag_key _ _ (Ha n n' Hn Hin') Hk) as (H1 & H2 & H3).
  destruct (su_same _ _ A n Hn) as (?&?&?&?), (su_same _ _ B n (proj1 (HS n) Hn)) as (?&?&?&?).
  assert (q = q') as -> by (eapply (carries_det j_sql); [intros; by apply ag_sql, Ha|done..]).
  assert (e = e') as -> by (eapply (carries_det j_sql_encoding); [intros; by apply ag_encoding, Ha|done..]).
  assert (f_client_op_id st = f_client_op_id st') by (same_field j_client_op_id ag_client_op_id).
  assert (f_session st = f_session st') by (same_field j_session ag_session).
  assert (f_error st = f_error st') by (same_field j_error ag_error).
  assert (f_schema st = f_schema st') by (same_field j_schema ag_schema).
  assert (f_rows st = f_rows st') by (same_field j_rows ag_rows).
  assert (f_duration_ms st = f_duration_ms st') by (same_field j_duration_ms ag_duration).
  assert ((f_last_seq st, f_rank st) = (f_last_seq st', f_rank st')) by congruence.
  assert (Some (f_status st) = Some (f_status st')) by congruence.
  clear Ha HS A B Hmax Hmax' Cq Cq' Ce Ce'. destruct st, st'. simpl in *. simplify_eq. congruence.
Qed.

(** A snapshot outranks every lifecycle record of its statement. *)
Lemma lifecycle_below r1 r2 :
  live r1 -> well_formed r1 -> well_formed r2 -> j_seq r1 = j_seq r2 ->
  j_kind r1 <> KindSnapshot -> j_kind r2 = KindSnapshot -> key_ltb (fold_key r1) (fold_key r2) = true.
Proof.
  intros Hl W1 W2 Hs H1 H2. pose proof (wf_kind _ W1) as K1. pose proof (wf_kind _ W2) as K2.
  rewrite H2 in K2. destruct K2 as (_ & L & HL & Hle).
  unfold fold_key, key_ltb. rewrite HL, H2. simpl.
  unfold live in Hl. destruct (j_kind r1); try done; destruct K1 as (-> & _); simpl;
    apply orb_true_iff; rewrite andb_true_iff, !Z.ltb_lt, Z.eqb_eq; lia.
Qed.

Lemma lifecycle_no_result r :
  live r -> well_formed r -> j_kind r <> KindSnapshot -> j_result r = None /\ j_result_refused r = None.
Proof. intros Hl W Hk. pose proof (wf_kind _ W) as H. by destruct (j_kind r); [destruct_and! H..]. Qed.

Section Merge.
Context (S : list JournalRecord) (st : FoldedStatement) (r : JournalRecord).
Context (Hsum : summary S st) (Hlive : live r) (Hwf : well_formed r).
Context (HS : forall r', r' ∈ S -> live r' /\ well_formed r' /\ agrees r r') (Hid : j_id r = f_id st).

Lemma merge_same r' : r' ∈ r :: S ->
  j_id r' = f_id st /\ j_seq r' = f_seq st /\ j_submitted_at_ms r' = f_submitted_at_ms st
  /\ record_source r' = f_source st.
Proof.
  intros [->|Hr]%elem_of_cons; [|by apply (su_same _ _ Hsum)].
  destruct (su_newest _ _ Hsum) as (n & [Hn _] & _). destruct (HS n Hn) as (_ & _ & A).
  destruct (su_same _ _ Hsum n Hn) as (? & <- & <- & <-). destruct A. by split_and!.
Qed.

Lemma merge_sql_older v :
  carries j_sql S v -> f_sql st = default [] v ->
  exists w, carries j_sql (r :: S) w /\ f_sql (backfill st r) = default [] w.
Proof.
  intros C E. simpl. rewrite E. destruct v as [[|c q]|]; simpl.
  - destruct (j_sql r) as [q|] eqn:Eq; simpl.
    + exists (Some q). split; [exists r; set_solver|done].
    + exists (Some []). split; [|done]. destruct C as (x & ? & ?). exists x. set_solver.
  - exists (Some (c :: q)). split; [|done]. destruct C as (x & ? & ?). exists x. set_solver.
  - exists (j_sql r). split; [apply (carries_older _ _ None), C|]. by destruct (j_sql r).
Qed.

Lemma merge_encoding_older v v' :
  carries j_sql S v -> f_sql st = default [] v ->
  carries j_sql_encoding S v' -> f_sql_encoding st = default (lit "text") v' ->
  exists w, carries j_sql_encoding (r :: S) w /\ f_sql_encoding (backfill st r) = default (lit "text") w.
Proof.
  intros C E C' E'. exists (if is_empty (f_sql st) && bool_decide (is_Some (j_sql r))
    then opt_or (j_sql_encoding r) v' else opt_or v' (j_sql_encoding r)).
  split; [case_match; [by apply carries_newer|by apply carries_older]|].
  simpl. destruct (is_empty (f_sql st) && bool_decide (is_Some (j_sql r))) eqn:T.
  { destruct (j_sql_encoding r); simpl; [done|by rewrite E']. }
  rewrite E'. apply andb_false_iff in T as [T|T].
  - rewrite E in T. destruct v as [q|]; [|done]. destruct C as (x & Hx & Hq).
    destruct (HS x Hx) as (_ & W & _). destruct v' as [e|]; [done|].
    pose proof (C' x Hx) as Hn. destruct (proj1 (wf_sql _ W) (mk_is_Some _ _ Hq)) as [? ?]. congruence.
  - apply bool_decide_eq_false in T. destruct (j_sql_encoding r) eqn:Ee; [|by destruct v'].
    destruct T. by apply (wf_sql _ Hwf), (mk_is_Some _ _ Ee).
Qed.

Lemma summary_backfill : key_ltb (fold_key r) (f_last_seq st, f_rank st) = true -> summary (r :: S) (backfill st r).
Proof.
  intros Hlt. destruct Hsum as [_ C1 C2 (v & C3 & E3) (v' & C4 & E4) C5 C6 C7 C8 (n & Hn & Kn & Sn & Rn & Fn)].
  destruct (HS n (proj1 Hn)) as (Ln & Wn & An).
  assert (Hres : (f_rank st <? kind_rank KindSnapshot) = true -> j_result r = None /\ j_result_refused r = None).
  { intros Eo. apply lifecycle_no_result; [done..|]. intros E.
    assert (Hk : j_kind n <> KindSnapshot).
    { injection Kn as _ Kr. rewrite <-Kr in Eo. intros En. rewrite En in Eo. discriminate. }
    pose proof (lifecycle_below n r Ln Wn Hwf (eq_sym (ag_seq _ _ An)) Hk E) as H.
    rewrite <-Kn in Hlt. by rewrite (key_ltb_asym _ _ Hlt) in H. }
  split; try by apply carries_older.
  - exact merge_same.
  - by eapply merge_sql_older.
  - by eapply merge_encoding_older.
  - exists n. split; [|split; [|split; [|split]]].
    + split; [apply elem_of_cons; right; apply Hn|]. intros r' [->|Hr]%elem_of_cons; [|by apply Hn].
      rewrite Kn. by apply key_ltb_asym.
    + exact Kn.
    + exact Sn.
    + simpl. rewrite <-Rn. case_match eqn:Eo; [|done]. destruct (Hres Eo) as [-> _]. by destruct (j_result n).
    + simpl. rewrite <-Fn. case_match eqn:Eo; [|done]. destruct (Hres Eo) as [_ ->]. by destruct (j_result_refused n).
Qed.

Lemma summary_advance : key_ltb (fold_key r) (f_last_seq st, f_rank st) = false -> summary (r :: S) (advance st r).
Proof.
  intros Hge. destruct Hsum as [_ C1 C2 (v & C3 & E3) (v' & C4 & E4) C5 C6 C7 C8 (n & Hn & Kn & Sn & Rn & Fn)].
  destruct (HS n (proj1 Hn)) as (Ln & Wn & An).
  assert (Hres : f_result (advance st r) = j_result r /\ f_result_refused (advance st r) = j_result_refused r).
  { simpl. case_bool_decide as E; [done|]. destruct (lifecycle_no_result r) as [-> ->]; [done..|]. simpl.
    rewrite <-Rn, <-Fn. apply lifecycle_no_result; [done..|]. intros En.
    pose proof (lifecycle_below r n Hlive Hwf Wn (ag_seq _ _ An) E En) as H. rewrite Kn in H. congruence. }
  split; try by apply carries_newer.
  - intros r' Hr. destruct (merge_same r' Hr) as (? & ? & ? & Hs). split_and!; [done..|]. rewrite Hs. simpl.
    destruct (merge_same r ltac:(set_solver)) as (_ & _ & _ & Hs'). unfold record_source in Hs'. by destruct (j_source r).
  - exists (opt_or (j_sql r) v). split; [by apply carries_newer|]. simpl. rewrite E3. by destruct (j_sql r).
  - exists (opt_or (j_sql_encoding r) v'). split; [by apply carries_newer|]. simpl. rewrite E4. by destruct (j_sql_encoding r).
  - exists r. split; [|split; [|split; [|split]]].
    + split; [set_solver|]. intros r' [->|Hr]%elem_of_cons; [apply key_ltb_irrefl|].
      eapply key_ltb_trans_ge; [exact Hge|]. rewrite <-Kn. by apply Hn.
    + apply surjective_pairing.
    + simpl. destruct (wf_status _ Hwf) as [x ->]. done.
    + symmetry. apply Hres.
    + symmetry. apply Hres.
Qed.

Lemma summary_merge : summary (r :: S) (merge_entry (Some st) r).
Proof. simpl. case_match eqn:E; [by apply summary_backfill|by apply summary_advance]. Qed.

End Merge.

Lemma summary_first r : well_formed r -> summary [r] (first_entry r).
Proof.
  intros W. split; try exact (carries_single _ r).
  - intros r'. set_unfold. by intros [->|[]].
  - exists (j_sql r). by split; [apply carries_single|].
  - exists (j_sql_encoding r). by split; [apply carries_single|].
  - exists r. split; [|split; [|split; [|split]]].
    + split; [set_solver|]. intros r'. set_unfold. intros [->|[]]. apply key_ltb_irrefl.
    + apply surjective_pairing.
    + simpl. by destruct (wf_status _ W) as [x ->].
    + done.
    + done.
Qed.

(** The live records of one statement among [l]. *)
Definition records_of (id : str) (l : list JournalRecord) : list JournalRecord :=
  filter (fun r => live r /\ j_id r = id) l.

Definition retired (id : str) (l : list JournalRecord) : Prop :=
  exists r, r ∈ l /\ j_kind r = KindTombstone /\ j_id r = id.

Lemma elem_of_records_of id l r : r ∈ records_of id l <-> r ∈ l /\ live r /\ j_id r = id.
Proof. unfold records_of. rewrite list_elem_of_filter. tauto. Qed.

(** The fold of [l], without reference to the order of [l]. *)
Record fold_of (l : list JournalRecord) (f : Fold) : Prop := {
  fo_tombstoned : forall id, id ∈ fd_tombstoned f <-> retired id l;
  fo_statements : forall id st, fd_statements f !! id = Some st ->
    ~ retired id l /\ f_id st = id /\ summary (records_of id l) st;
  fo_absent : forall id, fd_statements f !! id = None -> retired id l \/ records_of id l = [];
  fo_max_ge : 0 <= fd_max_seq f /\ forall r, r ∈ l -> (fold_key r).1 <= fd_max_seq f /\ j_seq r <= fd_max_seq f;
  fo_max_in : fd_max_seq f = 0 \/ exists r, r ∈ l /\ (fd_max_seq f = (fold_key r).1 \/ fd_max_seq f = j_seq r) }.

Lemma records_of_cons id r l :
  records_of id (r :: l) = if decide (live r /\ j_id r = id) then r :: records_of id l else records_of id l.
Proof. unfold records_of. rewrite filter_cons. repeat case_decide; tauto. Qed.

Lemma retired_cons id r l : retired id (r :: l) <-> (j_kind r = KindTombstone /\ j_id r = id) \/ retired id l.
Proof. unfold retired. set_solver. Qed.

Lemma apply_tombstoned r f id :
  id ∈ fd_tombstoned (apply r f) <-> (j_kind r = KindTombstone /\ j_id r = id) \/ id ∈ fd_tombstoned f.
Proof. unfold apply. repeat case_decide; simpl in *; set_solver. Qed.

Lemma apply_lookup r f id :
  fd_statements (apply r f) !! id =
    if decide (j_id r = id /\ j_id r ∉ fd_tombstoned f) then
      if decide (live r) then Some (merge_entry (fd_statements f !! id) r) else None
    else fd_statements f !! id.
Proof.
  unfold apply, live. destruct (decide (j_id r = id)) as [<-|Hne].
  - repeat case_decide; simpl in *; try tauto; [by rewrite lookup_delete_eq|by rewrite lookup_insert_eq].
  - repeat case_decide; simpl in *; try tauto; [by rewrite lookup_delete_ne|by rewrite lookup_insert_ne].
Qed.

Lemma apply_max_seq r f : fd_max_seq (apply r f) = Z.max (Z.max (fd_max_seq f) (fold_key r).1) (j_seq r).
Proof. unfold apply. by repeat case_decide. Qed.

Lemma apply_fold_of l f r : coherent (r :: l) -> fold_of l f -> fold_of (r :: l) (apply r f).
Proof.
  intros [Hw Ha] [Ht Hs Hn Hm Hi]. split.
  - intros id. rewrite apply_tombstoned, retired_cons, Ht. done.
  - intros id st. rewrite apply_lookup, retired_cons, records_of_cons. case_decide as D.
    + destruct D as [<- D]. rewrite Ht in D. case_decide as Hl; [|done]. intros [= <-].
      rewrite decide_True by done. split; [unfold live in Hl; tauto|].
      destruct (fd_statements f !! j_id r) as [st|] eqn:E.
      * destruct (Hs _ _ E) as (_ & Hid & Hsum). split; [simpl; case_match; done|].
        apply summary_merge; [done|done|apply Hw; [set_solver|done]| |done].
        intros r' (? & ? & ?)%elem_of_records_of. split_and!; [done|apply Hw; [set_solver|done]|].
        apply Ha; [set_solver..|done|done|done].
      * split; [done|]. destruct (Hn _ E) as [?| ->]; [done|]. apply summary_first, Hw; [set_solver|done].
    + intros E. destruct (Hs _ _ E) as (Hr & Hid & Hsum). rewrite Ht in D.
      assert (j_id r <> id) by (intros <-; tauto). rewrite decide_False by tauto. tauto.
  - intros id. rewrite apply_lookup, retired_cons, records_of_cons. case_decide as D.
    + case_decide; [done|]. unfold live in *. left. left. split; [by apply dec_stable|tauto].
    + intros E. rewrite Ht in D. destruct (Hn _ E) as [?| ->]; [tauto|].
      case_decide as D'; [|tauto]. left. right. apply Ht. destruct D' as [_ <-].
      destruct (decide (j_id r ∈ fd_tombstoned f)) as [|Hnt]; [done|]. rewrite Ht in Hnt. tauto.
  - rewrite apply_max_seq. split; [lia|]. intros r' [->|Hr]%elem_of_cons; [lia|].
    destruct (proj2 Hm _ Hr). lia.
  - rewrite apply_max_seq. destruct (Z.max_spec (Z.max (fd_max_seq f) (fold_key r).1) (j_seq r)) as [[_ ->]|[_ ->]].
    { right. exists r. set_solver. }
    destruct (Z.max_spec (fd_max_seq f) (fold_key r).1) as [[_ ->]|[_ ->]]; [right; exists r; set_solver|].
    destruct Hi as [?|(x & ? & ?)]; [by left|right; exists x; set_solver].
Qed.

Lemma fold_into_app f l1 l2 : fold_into f (l1 ++ l2) = fold_into (fold_into f l1) l2.
Proof. apply foldl_app. Qed.

Lemma fold_of_default : fold_of [] fold_default.
Proof.
  split; simpl.
  - intros id. unfold retired. set_solver.
  - intros id st. by rewrite lookup_empty.
  - intros id _. by right.
  - split; [lia|]. set_solver.
  - by left.
Qed.

Lemma fold_into_fold_of l0 f l : coherent (l ++ l0) -> fold_of l0 f -> fold_of (reverse l ++ l0) (fold_into f l).
Proof.
  revert l0 f. induction l as [|r l IH]; intros l0 f Hc Hf; [done|].
  rewrite reverse_cons, <-app_assoc. simpl. apply IH.
  - eapply coherent_sub; [|exact Hc]. set_solver.
  - apply apply_fold_of; [|done]. eapply coherent_sub; [|exact Hc]. set_solver.
Qed.

Lemma fold_records_fold_of l : coherent l -> fold_of (reverse l) (fold_records l).
Proof.
  intros Hc. rewrite <-(app_nil_r (reverse l)). apply fold_into_fold_of; [by rewrite app_nil_r|].
  apply fold_of_default.
Qed.

Lemma retired_iff l l' id : (forall r, r ∈ l <-> r ∈ l') -> retired id l <-> retired id l'.
Proof. intros H. unfold retired. by setoid_rewrite H. Qed.

Lemma carries_iff {A} (g : JournalRecord -> option A) S S' v :
  (forall r, r ∈ S <-> r ∈ S') -> carries g S v -> carries g S' v.
Proof. intros H. destruct v; simpl; by setoid_rewrite H. Qed.

Lemma summary_iff S S' st : (forall r, r ∈ S <-> r ∈ S') -> summary S st -> summary S' st.
Proof.
  intros H []. split; try by eapply carries_iff.
  - by setoid_rewrite <-H.
  - destruct su_sql0 as (v & ? & ?). exists v. by split; [eapply carries_iff|].
  - destruct su_encoding0 as (v & ? & ?). exists v. by split; [eapply carries_iff|].
  - unfold newest in *. by setoid_rewrite <-H.
Qed.

Lemma fold_of_iff l l' f : (forall r, r ∈ l <-> r ∈ l') -> fold_of l f -> fold_of l' f.
Proof.
  intros H [Ht Hs Hn Hm Hi].
  assert (Hin : forall id r, r ∈ records_of id l <-> r ∈ records_of id l')
    by (intros; by rewrite !elem_of_records_of, H).
  split.
  - intros id. by rewrite Ht, (retired_iff l l').
  - intros id st E. rewrite <-(retired_iff l l') by done. destruct (Hs _ _ E) as (? & ? & ?). split_and!; [done..|].
    eapply summary_iff; [apply Hin|done].
  - intros id E. rewrite <-(retired_iff l l') by done. destruct (Hn _ E) as [|E']; [by left|right].
    apply elem_of_nil_inv. intros r. rewrite <-Hin, E'. apply not_elem_of_nil.
  - by setoid_rewrite <-H.
  - by setoid_rewrite <-H.
Qed.

Lemma fold_of_det l f f' : coherent l -> fold_of l f -> fold_of l f' ->
  fd_statements f = fd_statements f' /\ fd_tombstoned f = fd_tombstoned f' /\ fd_max_seq f = fd_max_seq f'.
Proof.
  intros [Hw Ha] A B. split_and!.
  - apply map_eq. intros id.
    destruct (fd_statements f !! id) as [st|] eqn:E, (fd_statements f' !! id) as [st'|] eqn:E'; [|exfalso..|done].
    + f_equal. destruct (fo_statements _ _ A _ _ E) as (_ & _ & H), (fo_statements _ _ B _ _ E') as (_ & _ & H').
      eapply summary_det; [|done|exact H|exact H'].
      intros r1 r2 (? & ? & ?)%elem_of_records_of (? & ? & ?)%elem_of_records_of. apply Ha; congruence.
    + destruct (fo_statements _ _ A _ _ E) as (Hr & _ & H), (fo_absent _ _ B _ E') as [?|E0]; [done|].
      destruct (su_newest _ _ H) as (n & [Hn _] & _). rewrite E0 in Hn. by apply elem_of_nil in Hn.
    + destruct (fo_statements _ _ B _ _ E') as (Hr & _ & H), (fo_absent _ _ A _ E) as [?|E0]; [done|].
      destruct (su_newest _ _ H) as (n & [Hn _] & _). rewrite E0 in Hn. by apply elem_of_nil in Hn.
  - apply set_eq. intros id. by rewrite (fo_tombstoned _ _ A), (fo_tombstoned _ _ B).
  - pose proof (fo_max_ge _ _ A) as [? HA]. pose proof (fo_max_ge _ _ B) as [? HB].
    destruct (fo_max_in _ _ A) as [?|(x & Hx & ?)], (fo_max_in _ _ B) as [?|(y & Hy & ?)]; [lia|..];
      try pose proof (HB _ Hx); try pose proof (HA _ Hy); lia.
Qed.

Lemma fold_same_set (l l' : list JournalRecord) :
  coherent l -> (forall r, r ∈ l <-> r ∈ l') ->
  fd_statements (fold_records l) = fd_statements (fold_records l')
  /\ fd_tombstoned (fold_records l) = fd_tombstoned (fold_records l')
  /\ fd_max_seq (fold_records l) = fd_max_seq (fold_records l').
Proof.
  intros Hc H. assert (Hc' : coherent l') by (eapply coherent_sub; [|exact Hc]; by setoid_rewrite H).
  apply (fold_of_det l); [done|..].
  - eapply fold_of_iff; [|by apply fold_records_fold_of]. intros r. apply elem_of_reverse.
  - eapply fold_of_iff; [|by apply fold_records_fold_of]. intros r. by rewrite elem_of_reverse, H.
Qed.

(** C14. The fold does not depend on the order in which the records of a coherent
    journal are read, nor on how often each of them is read: replaying the
    files in another order, or a generation a second time, gives the same
    statements, tombstones and highest sequence. *)
Theorem fold_set_determined (l l' : list JournalRecord) :
  coherent l -> (forall r, r ∈ l <-> r ∈ l') ->
  fd_statements (fold_records l) = fd_statements (fold_records l')
  /\ fd_tombstoned (fold_records l) = fd_tombstoned (fold_records l')
  /\ fd_max_seq (fold_records l) = fd_max_seq (fold_records l').
Proof. apply fold_same_set. Qed.

(** ** Compaction

    What a reader can tell of a statement: everything but the rank that breaks
    ties in the fold, with the two non-terminal states as one, since both are
    over when the journal is read back ([mark_interrupted]). *)

Definition settled (st : FoldedStatement) : FoldedStatement := {|
  f_id := f_id st; f_client_op_id := f_client_op_id st; f_session := f_session st;
  f_source := f_source st; f_sql := f_sql st; f_sql_encoding := f_sql_encoding st;
  f_status := if is_terminal (f_status st) then f_status st else Pending; f_error := f_error st;
  f_schema := f_schema st; f_rows := f_rows st; f_submitted_at_ms := f_submitted_at_ms st;
  f_duration_ms := f_duration_ms st; f_result := f_result st; f_result_refused := f_result_refused st;
  f_seq := f_seq st; f_last_seq := f_last_seq st; f_rank := 0 |}.

Definition same_statement (a b : FoldedStatement) : Prop := settled a = settled b.

#[export] Instance same_statement_equivalence : Equivalence same_statement.
Proof. unfold same_statement. split; congruence. Qed.

Definition view (l : list JournalRecord) : gmap str FoldedStatement := fd_statements (fold_records l).

Section Compacted.
Context `{Chrono} (l m : list JournalRecord) (kept : gmap str FoldedStatement).
Context (Hco : coherent (l ++ m)).
(** Compaction keeps some of the statements it folded. *)
Context (Hkept : kept ⊆ view l).
(** The [submitted] record of a statement precedes its others. *)
Context (Hsql : forall id st, kept !! id = Some st -> exists r, r ∈ records_of id l /\ is_Some (j_sql r)).
(** The store writes snapshots under a fresh sequence. *)
Context (Hfresh : forall r, r ∈ m -> j_kind r = KindSnapshot -> exists L, j_last_seq r = Some L /\ j_seq r < L).

Definition snapshots_of : list JournalRecord := to_snapshot <$> (map_to_list kept).*2.

Lemma fold_of_inputs : fold_of l (fold_records l).
Proof.
  eapply fold_of_iff; [|apply fold_records_fold_of; eapply coherent_sub; [|exact Hco]].
  - intros r. apply elem_of_reverse.
  - intros r Hr. apply elem_of_app. by left.
Qed.

Lemma elem_of_snapshots_of c : c ∈ snapshots_of <-> exists id st, kept !! id = Some st /\ c = to_snapshot st.
Proof.
  unfold snapshots_of. rewrite list_elem_of_fmap. split.
  - intros (st & -> & ([id st'] & -> & Hin)%list_elem_of_fmap). apply elem_of_map_to_list in Hin. by exists id, st'.
  - intros (id & st & Hk & ->). exists st. split; [done|]. apply list_elem_of_fmap.
    exists (id, st). split; [done|]. by apply elem_of_map_to_list.
Qed.

Lemma kept_summary id st : kept !! id = Some st -> ~ retired id l /\ f_id st = id /\ summary (records_of id l) st.
Proof. intros Hk. apply (fo_statements _ _ fold_of_inputs), (lookup_weaken _ _ _ _ Hk Hkept). Qed.

Lemma kept_sql id st v :
  kept !! id = Some st -> carries j_sql (records_of id l) v -> v = Some (default [] v).
Proof.
  intros Hk C. destruct v as [q|]; [done|]. destruct (Hsql _ _ Hk) as (r & Hr & [q Hq]).
  by rewrite (C r Hr) in Hq.
Qed.

Lemma source_roundtrip s : source_parse (source_as_str s) = s.
Proof. by destruct s. Qed.

Lemma records_agree id r r' : r ∈ records_of id l -> r' ∈ l ++ m -> live r' -> j_id r' = id -> agrees r r'.
Proof.
  intros (? & ? & ?)%elem_of_records_of ? ? ?. apply (co_agrees _ Hco); [set_solver|done..|congruence].
Qed.

Lemma carries_agree {A} (g : JournalRecord -> option A) id st r :
  (forall r1 r2, agrees r1 r2 -> agree g r1 r2) -> carries g (records_of id l) (g (to_snapshot st)) ->
  r ∈ l ++ m -> live r -> j_id r = id -> agree g (to_snapshot st) r.
Proof.
  intros Hg C Hr Hl Hid x y Hx Hy. rewrite Hx in C. destruct C as (r' & Hr' & E).
  eapply Hg; [by eapply records_agree|done|done].
Qed.

(** A snapshot carries what the records it was folded from carry. *)
Lemma snapshot_sql id st : kept !! id = Some st -> carries j_sql (records_of id l) (Some (f_sql st)).
Proof.
  intros Hk. destruct (kept_summary _ _ Hk) as (_ & _ & Hs). destruct (su_sql _ _ Hs) as (v & C & ->).
  by rewrite <-(kept_sql _ _ _ Hk C).
Qed.

Lemma snapshot_encoding id st : kept !! id = Some st -> carries j_sql_encoding (records_of id l) (Some (f_sql_encoding st)).
Proof.
  intros Hk. destruct (kept_summary _ _ Hk) as (_ & _ & Hs). destruct (su_encoding _ _ Hs) as (v & C & ->).
  destruct v as [e|]; [done|]. exfalso. destruct (Hsql _ _ Hk) as (r & Hr & Hq).
  pose proof (C r Hr) as Hn. apply elem_of_records_of in Hr as (? & ? & _).
  apply (wf_sql _ (co_wf _ Hco r ltac:(set_solver) ltac:(done))) in Hq as [? ?]. congruence.
Qed.

(** The key of a snapshot is that of the newest record behind it, raised to the
    rank of a snapshot. *)
Lemma snapshot_newest id st : kept !! id = Some st ->
  exists n, newest (records_of id l) n /\ live n /\ well_formed n
    /\ fold_key n = (f_last_seq st, f_rank st) /\ j_seq n = f_seq st
    /\ (j_kind n = KindSnapshot \/ f_last_seq st = f_seq st /\ is_terminal (f_status st) = false)
    /\ j_status n = Some (f_status st) /\ j_result n = f_result st /\ j_result_refused n = f_result_refused st
    /\ f_seq st <= f_last_seq st.
Proof.
  intros Hk. destruct (kept_summary _ _ Hk) as (_ & _ & Hs).
  destruct (su_newest _ _ Hs) as (n & Hn & Kn & Sn & Rn & Fn). exists n.
  destruct (proj1 (elem_of_records_of _ _ _) (proj1 Hn)) as (Hin & Hl & _).
  assert (W : well_formed n) by (apply (co_wf _ Hco); [set_solver|done]).
  destruct (su_same _ _ Hs n (proj1 Hn)) as (_ & Hseq & _). pose proof (wf_kind _ W) as K.
  injection Kn as K1 K2. unfold live in Hl.
  destruct (decide (j_kind n = KindSnapshot)) as [E|E].
  - rewrite E in K. destruct K as (_ & L & HL & Hle). rewrite HL in K1. simpl in K1. split_and!; try done.
    + unfold fold_key. by rewrite HL, <-K1, <-K2.
    + by left.
    + lia.
  - assert (HK : j_last_seq n = None /\ is_terminal (f_status st) = false)
      by (destruct (j_kind n); try done; destruct K as (K' & _ & _ & Ht); (split; [exact K'|exact (Ht _ Sn)])).
    destruct HK as [HL Ht]. rewrite HL in K1. simpl in K1. split_and!; try done.
    + unfold fold_key. by rewrite HL, <-K1, <-K2.
    + right. split; [congruence|done].
    + lia.
Qed.

Lemma snapshot_wf id st : kept !! id = Some st -> well_formed (to_snapshot st).
Proof.
  intros Hk. destruct (snapshot_newest _ _ Hk) as (n & _ & _ & _ & _ & _ & _ & _ & _ & _ & Hle).
  split; simpl; [by eexists|split; by eexists|]. split; [by eexists|]. by eexists.
Qed.

(** A record with the key of a snapshot has the key of the newest record
    behind it. *)
Lemma snapshot_key id st n r :
  kept !! id = Some st -> newest (records_of id l) n -> live n -> well_formed n ->
  fold_key n = (f_last_seq st, f_rank st) ->
  (j_kind n = KindSnapshot \/ f_last_seq st = f_seq st /\ is_terminal (f_status st) = false) ->
  agrees n r -> j_seq n = f_seq st -> r ∈ l ++ m -> live r -> j_id r = id ->
  fold_key (to_snapshot st) = fold_key r -> fold_key n = fold_key r.
Proof.
  intros Hk Hn Ln Wn Kn Hkind A Sn Hr Hl Hid Hkey. injection Hkey as E1 E2.
  assert (Kr : j_kind r = KindSnapshot) by (unfold live in Hl; destruct (j_kind r); done || (by destruct Hl)).
  destruct (decide (j_kind n = KindSnapshot)) as [E|E].
  { injection Kn as K1 K2. unfold fold_key. by rewrite K1, E1, E, Kr. }
  destruct Hkind as [?|[Hls _]]; [done|]. apply elem_of_app in Hr as [Hr|Hr].
  - assert (Wr : well_formed r) by (apply (co_wf _ Hco); [set_solver|done]).
    pose proof (lifecycle_below n r Ln Wn Wr (ag_seq _ _ A) E Kr) as Hlt.
    pose proof (proj2 Hn r (proj2 (elem_of_records_of _ _ _) (conj Hr (conj Hl Hid)))). congruence.
  - destruct (Hfresh r Hr Kr) as (L & HL & Hlt). rewrite HL in E1. simpl in E1.
    pose proof (ag_seq _ _ A). lia.
Qed.

Lemma snapshot_agrees id st r :
  kept !! id = Some st -> r ∈ l ++ m -> live r -> j_id r = id -> agrees (to_snapshot st) r.
Proof.
  intros Hk Hr Hl Hid. destruct (kept_summary _ _ Hk) as (_ & _ & Hs).
  destruct (snapshot_newest _ _ Hk) as (n & Hn & Ln & Wn & Kn & Sn & Hkind & Stn & Rn & Fn & _).
  assert (A : agrees n r) by (by apply (records_agree id); [apply Hn|..]).
  destruct (su_same _ _ Hs n (proj1 Hn)) as (_ & Q1 & Q2 & Q3).
  split; simpl.
  - by rewrite <-Q1, (ag_seq _ _ A).
  - by rewrite <-Q2, (ag_submitted _ _ A).
  - unfold record_source at 1. simpl. by rewrite source_roundtrip, <-Q3, (ag_source _ _ A).
  - eapply carries_agree; [apply ag_client_op_id|apply Hs|done..].
  - eapply carries_agree; [apply ag_session|apply Hs|done..].
  - eapply carries_agree; [apply ag_sql|by apply snapshot_sql|done..].
  - eapply carries_agree; [apply ag_encoding|by apply snapshot_encoding|done..].
  - eapply carries_agree; [apply ag_error|apply Hs|done..].
  - eapply carries_agree; [apply ag_schema|apply Hs|done..].
  - eapply carries_agree; [apply ag_rows|apply Hs|done..].
  - eapply carries_agree; [apply ag_duration|apply Hs|done..].
  - intros Hkey. rewrite <-Stn, <-Rn, <-Fn. apply (ag_key _ _ A). by eapply snapshot_key.
Qed.

Lemma agrees_sym r1 r2 : agrees r1 r2 -> agrees r2 r1.
Proof.
  intros []. split; try done; try (intros x y Hx Hy; symmetry; eauto; fail).
  intros Hk. destruct (ag_key0 (eq_sym Hk)) as (? & ? & ?). by rewrite H0, H1, H2.
Qed.

Lemma agrees_refl r : agrees r r.
Proof. split; try done; intros x y Hx Hy; congruence. Qed.

Lemma snapshots_coherent : coherent (snapshots_of ++ l ++ m).
Proof.
  split.
  - intros r [(id & st & Hk & ->)%elem_of_snapshots_of|Hr]%elem_of_app Hl; [by eapply snapshot_wf|].
    by apply (co_wf _ Hco).
  - intros r1 r2 H1 H2 L1 L2 Hid. apply elem_of_app in H1, H2.
    destruct H1 as [(id & st & Hk & ->)%elem_of_snapshots_of|H1];
      destruct H2 as [(id' & st' & Hk' & ->)%elem_of_snapshots_of|H2].
    + destruct (kept_summary _ _ Hk) as (_ & <- & _), (kept_summary _ _ Hk') as (_ & <- & _). simpl in Hid.
      rewrite Hid in Hk. rewrite Hk in Hk'. injection Hk' as ->. apply agrees_refl.
    + destruct (kept_summary _ _ Hk) as (_ & <- & _). by eapply snapshot_agrees.
    + destruct (kept_summary _ _ Hk') as (_ & <- & _). apply agrees_sym. by eapply snapshot_agrees.
    + by apply (co_agrees _ Hco).
Qed.

Lemma x_m_coherent x : (forall r, r ∈ x -> r ∈ snapshots_of \/ r ∈ l) -> coherent (x ++ m).
Proof. intros Hsub. eapply coherent_sub; [|apply snapshots_coherent]. set_solver. Qed.

(** ** A snapshot stands for the records behind it *)

Section Replaced.
Context (id : str) (st : FoldedStatement) (x : list JournalRecord).
Context (Hk : kept !! id = Some st).
(** What is on the disk for the statement: its snapshot and some of the records
    behind it. *)
Context (Hx : forall r, r ∈ records_of id x -> r = to_snapshot st \/ r ∈ records_of id l).
Context (Hc : to_snapshot st ∈ x).

Lemma in_x_or_m r : r ∈ records_of id (x ++ m) -> r = to_snapshot st \/ r ∈ records_of id (l ++ m).
Proof.
  intros (H1 & H2 & H3)%elem_of_records_of. apply elem_of_app in H1 as [H1|H1].
  - destruct (Hx r) as [?|(? & ? & ?)%elem_of_records_of]; [by apply elem_of_records_of|by left|right].
    apply elem_of_records_of. set_solver.
  - right. apply elem_of_records_of. set_solver.
Qed.

Lemma snapshot_in : to_snapshot st ∈ records_of id (x ++ m).
Proof.
  apply elem_of_records_of. destruct (kept_summary _ _ Hk) as (_ & ? & _). split; [set_solver|]. by split.
Qed.

Lemma replaced_carries {A} (g : JournalRecord -> option A) v :
  carries g (records_of id l) (g (to_snapshot st)) ->
  carries g (records_of id (x ++ m)) v -> carries g (records_of id (l ++ m)) v.
Proof.
  intros Hl Hv. destruct v as [y|].
  - destruct Hv as (r & Hr & E). destruct (in_x_or_m r Hr) as [->|?]; [|by exists r].
    rewrite E in Hl. destruct Hl as (r' & (? & ? & ?)%elem_of_records_of & ?). exists r'.
    rewrite elem_of_records_of. set_solver.
  - intros r (H1 & H2 & H3)%elem_of_records_of. apply elem_of_app in H1 as [H1|H1].
    + rewrite (Hv _ snapshot_in) in Hl. apply Hl, elem_of_records_of. done.
    + apply Hv, elem_of_records_of. set_solver.
Qed.

Lemma key_raise a b b' : b <= b' -> key_ltb (a, b') (a, b) = false.
Proof.
  unfold key_ltb. simpl. rewrite orb_false_iff, andb_false_iff, !Z.ltb_ge, Z.eqb_neq. lia.
Qed.

Lemma key_between a c d e : key_ltb (a, 2) (c, d) = false -> key_ltb (c, d) (a, e) = false -> c = a.
Proof. unfold key_ltb. simpl. rewrite !orb_false_iff, !andb_false_iff, !Z.ltb_ge, !Z.eqb_neq. lia. Qed.

Lemma live_rank r : live r -> kind_rank (j_kind r) <= 2.
Proof. unfold live. destruct (j_kind r); simpl; done || lia. Qed.

(** What two records say of a statement when they tell the same. *)
Definition tells_same (a b : JournalRecord) : Prop :=
  (fold_key a).1 = (fold_key b).1
  /\ (j_status a = j_status b
      \/ (forall s, j_status a = Some s -> is_terminal s = false) /\ (forall s, j_status b = Some s -> is_terminal s = false))
  /\ j_result a = j_result b /\ j_result_refused a = j_result_refused b.

Lemma tells_same_key a b : agrees a b -> fold_key a = fold_key b -> tells_same a b.
Proof. intros A E. destruct (ag_key _ _ A E) as (? & ? & ?). unfold tells_same. rewrite E. tauto. Qed.

Lemma replaced_by_snapshot nb :
  newest (records_of id (l ++ m)) nb ->
  (forall r, r ∈ records_of id (x ++ m) -> key_ltb (fold_key (to_snapshot st)) (fold_key r) = false) ->
  tells_same (to_snapshot st) nb.
Proof.
  intros Hnb Hmax. destruct (snapshot_newest _ _ Hk) as (n & Hn & Ln & Wn & Kn & Sn & Hkind & Stn & Rn & Fn & _).
  destruct (proj1 (elem_of_records_of _ _ _) (proj1 Hnb)) as (Hb1 & Hb2 & Hb3).
  pose proof (snapshot_agrees _ _ _ Hk Hb1 Hb2 Hb3) as A.
  assert (Hge : key_ltb (fold_key nb) (fold_key n) = false).
  { apply Hnb, elem_of_records_of. destruct (proj1 (elem_of_records_of _ _ _) (proj1 Hn)). set_solver. }
  assert (Hnag : agrees n nb) by (by apply (records_agree id); [apply Hn|..]).
  apply elem_of_app in Hb1 as [Hb1|Hb1].
  - assert (Hkey : fold_key n = fold_key nb).
    { apply key_ltb_antisym; [|done]. apply Hn, elem_of_records_of. done. }
    destruct (ag_key _ _ Hnag Hkey) as (E1 & E2 & E3). unfold tells_same. rewrite <-Hkey, Kn, <-E1, <-E2, <-E3.
    simpl. by rewrite Stn, Rn, Fn; auto.
  - assert (Hle : key_ltb (fold_key (to_snapshot st)) (fold_key nb) = false).
    { apply Hmax, elem_of_records_of. set_solver. }
    assert (Wb : well_formed nb) by (apply (co_wf _ Hco); [set_solver|done]).
    assert (Hlast : (fold_key nb).1 = f_last_seq st).
    { rewrite Kn in Hge. destruct (fold_key nb) as [k1 k2]. eapply key_between; [exact Hle|exact Hge]. }
    destruct (decide (j_kind nb = KindSnapshot)) as [E|E].
    + apply tells_same_key; [done|]. rewrite (surjective_pairing (fold_key nb)), Hlast. simpl. by rewrite E.
    + assert (En : j_kind n <> KindSnapshot).
      { intros En. pose proof (lifecycle_below nb n Hb2 Wb Wn (eq_sym (ag_seq _ _ Hnag)) E En). congruence. }
      destruct Hkind as [?|[_ Ht]]; [done|].
      destruct (lifecycle_no_result nb) as [R1 R2]; [done..|]. destruct (lifecycle_no_result n) as [R3 R4]; [done..|].
      split; [by symmetry|]. split; [right|split; simpl; congruence].
      split; [simpl; congruence|]. pose proof (wf_kind _ Wb) as K. unfold live in Hb2.
      by destruct (j_kind nb); try done; destruct K as (_ & _ & _ & K).
Qed.

Lemma replaced_newest na nb :
  newest (records_of id (x ++ m)) na -> newest (records_of id (l ++ m)) nb -> tells_same na nb.
Proof.
  intros Hna Hnb. destruct (in_x_or_m na (proj1 Hna)) as [->|Hin]; [by apply replaced_by_snapshot; [|apply Hna]|].
  destruct (snapshot_newest _ _ Hk) as (n & Hn & Ln & _ & Kn & _).
  destruct (proj1 (elem_of_records_of _ _ _) (proj1 Hnb)) as (Hb1 & Hb2 & Hb3).
  destruct (proj1 (elem_of_records_of _ _ _) Hin) as (Ha1 & Ha2 & Ha3).
  apply tells_same_key; [apply (co_agrees _ Hco); congruence|].
  apply key_ltb_antisym; [|by apply Hnb]. apply elem_of_app in Hb1 as [Hb1|Hb1].
  - eapply key_ltb_trans_ge; [apply (proj2 Hna), snapshot_in|].
    eapply key_ltb_trans_ge; [|apply (proj2 Hn), elem_of_records_of; done].
    unfold fold_key at 1. simpl. rewrite Kn. apply key_raise. injection Kn as _ <-. by apply live_rank.
  - apply (proj2 Hna), elem_of_records_of. set_solver.
Qed.

Ltac replaced_field g lem Hs :=
  match goal with
  | Ha : forall r1 r2, _ -> _ -> agrees r1 r2, HS : forall r, _ <-> _,
    A : summary _ ?a, B : summary _ ?b |- _ ?a = _ ?b =>
      eapply (carries_det g); [intros; by apply lem, Ha|exact HS| |apply B];
      apply replaced_carries; [apply Hs|apply A]
  end.

Lemma replaced_same a b :
  summary (records_of id (x ++ m)) a -> summary (records_of id (l ++ m)) b -> same_statement a b.
Proof.
  intros A B. destruct (kept_summary _ _ Hk) as (_ & Hid & Hs).
  assert (Ha : forall r1 r2, r1 ∈ records_of id (l ++ m) -> r2 ∈ records_of id (l ++ m) -> agrees r1 r2).
  { intros r1 r2 (? & ? & ?)%elem_of_records_of (? & ? & ?)%elem_of_records_of. apply (co_agrees _ Hco); congruence. }
  destruct (su_newest _ _ A) as (na & Hna & Kna & Sna & Rna & Fna).
  destruct (su_newest _ _ B) as (nb & Hnb & Knb & Snb & Rnb & Fnb).
  destruct (replaced_newest na nb Hna Hnb) as (T1 & T2 & T3 & T4). rewrite Kna, Knb in T1. simpl in T1.
  destruct (su_same _ _ A _ snapshot_in) as (I1 & I2 & I3 & I4).
  destruct (proj1 (elem_of_records_of _ _ _) (proj1 Hnb)) as (Hb1 & Hb2 & Hb3).
  pose proof (snapshot_agrees _ _ _ Hk Hb1 Hb2 Hb3) as G.
  destruct (su_same _ _ B nb (proj1 Hnb)) as (J1 & J2 & J3 & J4).
  destruct (su_sql _ _ A) as (q & Cq & Eq), (su_sql _ _ B) as (q' & Cq' & Eq').
  destruct (su_encoding _ _ A) as (e & Ce & Ee), (su_encoding _ _ B) as (e' & Ce' & Ee').
  assert (HSS : forall r, r ∈ records_of id (l ++ m) <-> r ∈ records_of id (l ++ m)) by done.
  assert (q = q') as -> by (eapply (carries_det j_sql); [intros; by apply ag_sql, Ha|exact HSS| |exact Cq'];
    apply replaced_carries; [by apply snapshot_sql|done]).
  assert (e = e') as -> by (eapply (carries_det j_sql_encoding); [intros; by apply ag_encoding, Ha|exact HSS| |exact Ce'];
    apply replaced_carries; [by apply snapshot_encoding|done]).
  assert (f_client_op_id a = f_client_op_id b) by (replaced_field j_client_op_id ag_client_op_id Hs).
  assert (f_session a = f_session b) by (replaced_field j_session ag_session Hs).
  assert (f_error a = f_error b) by (replaced_field j_error ag_error Hs).
  assert (f_schema a = f_schema b) by (replaced_field j_schema ag_schema Hs).
  assert (f_rows a = f_rows b) by (replaced_field j_rows ag_rows Hs).
  assert (f_duration_ms a = f_duration_ms b) by (replaced_field j_duration_ms ag_duration Hs).
  pose proof (ag_seq _ _ G). pose proof (ag_submitted _ _ G). pose proof (ag_source _ _ G).
  assert (Hst : (if is_terminal (f_status a) then f_status a else Pending)
              = (if is_terminal (f_status b) then f_status b else Pending)).
  { destruct T2 as [T2|[T2 T2']]; [rewrite Sna, Snb in T2; by injection T2 as ->|]. by rewrite (T2 _ Sna), (T2' _ Snb). }
  simpl in I1. clear Ha A B Hna Hnb T2 HSS Cq Cq' Ce Ce' Hs.
  unfold same_statement, settled. rewrite Hst. f_equal; congruence.
Qed.

End Replaced.

Lemma retired_app i l1 l2 : retired i (l1 ++ l2) <-> retired i l1 \/ retired i l2.
Proof. unfold retired. set_solver. Qed.

(** After a compaction every statement it kept reads back the same, whatever
    part of the compacted records is still there beside the snapshots and
    whatever is written later. *)
Lemma compacted_view x id st :
  (forall r, r ∈ x -> r ∈ snapshots_of \/ r ∈ l) -> (forall r, r ∈ snapshots_of -> r ∈ x) ->
  kept !! id = Some st -> option_Forall2 same_statement (view (x ++ m) !! id) (view (l ++ m) !! id).
Proof.
  intros Hsub Hsup Hk. destruct (kept_summary _ _ Hk) as (Hnr & Hid & _).
  assert (Hc : to_snapshot st ∈ x) by (apply Hsup, elem_of_snapshots_of; eauto).
  assert (Hx : forall r, r ∈ records_of id x -> r = to_snapshot st \/ r ∈ records_of id l).
  { intros r (Hr & Hl & Hi)%elem_of_records_of. destruct (Hsub r Hr) as [(i & s & Hki & ->)%elem_of_snapshots_of|?].
    - destruct (kept_summary _ _ Hki) as (_ & <- & _). simpl in Hi. left. congruence.
    - right. by apply elem_of_records_of. }
  assert (Hret : retired id (x ++ m) <-> retired id (l ++ m)).
  { rewrite !retired_app. split; intros [Hr|?]; try tauto. destruct Hr as (r & Hr & Hkd & Hi). left.
    destruct (Hsub r Hr) as [(i & s & Hki & ->)%elem_of_snapshots_of|?]; [done|by exists r]. }
  assert (FX : fold_of (x ++ m) (fold_records (x ++ m))).
  { eapply fold_of_iff; [intros r; apply elem_of_reverse|]. by apply fold_records_fold_of, x_m_coherent. }
  assert (FL : fold_of (l ++ m) (fold_records (l ++ m))).
  { eapply fold_of_iff; [intros r; apply elem_of_reverse|]. by apply fold_records_fold_of. }
  unfold view.
  destruct (fd_statements (fold_records (x ++ m)) !! id) as [a|] eqn:EA,
    (fd_statements (fold_records (l ++ m)) !! id) as [b|] eqn:EB; [|exfalso..|constructor].
  - constructor. destruct (fo_statements _ _ FX _ _ EA) as (_ & _ & A), (fo_statements _ _ FL _ _ EB) as (_ & _ & B).
    by eapply (replaced_same id st x).
  - destruct (fo_statements _ _ FX _ _ EA) as (NR & _ & _), (fo_absent _ _ FL _ EB) as [R|E0]; [tauto|].
    destruct (snapshot_newest _ _ Hk) as (n & [Hn _] & _). apply elem_of_records_of in Hn as (? & ? & ?).
    assert (n ∈ records_of id (l ++ m)) as Hn' by (apply elem_of_records_of; set_solver).
    rewrite E0 in Hn'. by apply elem_of_nil in Hn'.
  - destruct (fo_statements _ _ FL _ _ EB) as (NR & _ & _), (fo_absent _ _ FX _ EA) as [R|E0]; [tauto|].
    pose proof (snapshot_in id st x Hk Hx Hc) as Hn'. rewrite E0 in Hn'. by apply elem_of_nil in Hn'.
Qed.

End Compacted.
