(* ===== verification/Journal.v ===== *)
(** * Journal: the statement journal on disk

    [oxidant-connect/src/history/journal.rs], [fs_util.rs] and the boot of
    [mod.rs]: segments, compacted generations, the writer, the five-step
    compaction swap and its recovery, replay and quarantine.

    The file system is two directories of named byte strings.  [cur] is what
    the running process sees; [poss] says which contents the disk may turn out
    to hold when the power fails now: a name operation counts only once its
    directory was synced, written bytes only once their file was, and of the
    bytes appended since any prefix may be there.  No operation of the journal
    renames over a name in use, so a directory is synced as its set of names.
    A script of events decides what each file operation does: work, be refused,
    write only a prefix, or be where the process dies. *)

From S2P Require Import Prelude Text Effects HistoryRecord.

Inductive dir := Statements | Compacted.
#[export] Instance dir_eq_dec : EqDecision dir.
Proof. solve_decision. Defined.
#[export] Instance dir_countable : Countable dir.
Proof.
  apply (inj_countable' (fun d => match d with Statements => true | Compacted => false end)
    (fun b => if b then Statements else Compacted)). by intros [].
Defined.

Abbreviation path := (dir * list Z)%type.
Abbreviation disk := (gmap path (list Z)).

Record Fs := { cur : disk; poss : disk -> Prop }.

Inductive FsCall := ReadDir | OpenRead | OpenAppend | CreateFile | WriteFile | SyncFile | SyncDir | RenameFile | UnlinkFile.
Inductive FsFault := Fine | Refused | Short (k : nat) | Killed.

(** ** File operations *)

Definition create_eff (p : path) (s : Fs) : Fs := {|
  cur := <[p := []]> (cur s);
  poss := fun d' => poss s d' \/ exists d, poss s d /\ d' = <[p := []]> d |}.

(** [OpenOptions::append(true).create(true)]. *)
Definition open_append_eff (p : path) (s : Fs) : Fs :=
  match cur s !! p with Some _ => s | None => create_eff p s end.

Definition write_eff (p : path) (bs : list Z) (s : Fs) : Fs := {|
  cur := alter (fun c => c ++ bs) p (cur s);
  poss := fun d' => poss s d'
    \/ exists d k, poss s d /\ d !! p = cur s !! p /\ d' = alter (fun c => c ++ take k bs) p d |}.

Definition sync_eff (p : path) (s : Fs) : Fs := {|
  cur := cur s;
  poss := fun d => poss s d /\ (d !! p = None \/ d !! p = cur s !! p) |}.

Definition move (p q : path) (d : disk) : disk :=
  match d !! p with Some c => <[q := c]> (delete p d) | None => d end.

Definition rename_eff (p q : path) (s : Fs) : Fs := {|
  cur := move p q (cur s);
  poss := fun d' => poss s d' \/ exists d, poss s d /\ d' = move p q d |}.

Definition unlink_eff (p : path) (s : Fs) : Fs := {|
  cur := delete p (cur s);
  poss := fun d' => poss s d' \/ exists d, poss s d /\ d' = delete p d |}.

Definition sync_dir_eff (dd : dir) (s : Fs) : Fs := {|
  cur := cur s;
  poss := fun d => poss s d /\ forall name, is_Some (d !! (dd, name)) <-> is_Some (cur s !! (dd, name)) |}.

(** ** Configuration and codec *)

Record HistoryConfig := { max_records : Z; retention_days : Z; segment_max_bytes : Z }.

(** [serde_json] for journal records. *)
Class JournalCodec := {
  to_string : JournalRecord -> option str;
  from_str : str -> option JournalRecord }.

(** What the journal relies on of [serde_json::to_string] and [from_str]: a
    record reads back from its text; the text is an object, so it opens and
    closes with a brace and no proper prefix of it reads as a record; inside
    strings every control character is escaped, so a text has no line break.
    Spaces and any other character of a statement may stand in it. *)
Class JournalCodecLaws `{JournalCodec} := {
  from_to_string r s : to_string r = Some s -> from_str s = Some r;
  from_truncated r s k t : to_string r = Some s -> (k < length (utf8_encode s))%nat ->
    from_utf8 (take k (utf8_encode s)) = Ok t -> from_str t = None;
  to_string_object r s : to_string r = Some s ->
    exists body, s = 123 :: body ++ [125] /\ Forall (fun c => is_scalar c /\ 32 <= c) body }.

(** ** The world of the writer thread *)

Record Writer := {
  wr_open : bool;          (* file: Option<File> *)
  wr_segment : Z;
  wr_len : Z;
  wr_dirty : bool }.

Record World := {
  w_fs : Fs;
  w_script : list (FsCall -> FsFault);
  w_writer : Writer;
  w_degraded : bool;
  w_write_failures : Z;
  w_acked : list JournalRecord }.

Definition set_fs (s : Fs) (w : World) : World := {| w_fs := s; w_script := w_script w; w_writer := w_writer w;
  w_degraded := w_degraded w; w_write_failures := w_write_failures w; w_acked := w_acked w |}.
Definition set_script sc (w : World) : World := {| w_fs := w_fs w; w_script := sc; w_writer := w_writer w;
  w_degraded := w_degraded w; w_write_failures := w_write_failures w; w_acked := w_acked w |}.
Definition set_writer x (w : World) : World := {| w_fs := w_fs w; w_script := w_script w; w_writer := x;
  w_degraded := w_degraded w; w_write_failures := w_write_failures w; w_acked := w_acked w |}.
Definition set_degraded b (w : World) : World := {| w_fs := w_fs w; w_script := w_script w; w_writer := w_writer w;
  w_degraded := b; w_write_failures := w_write_failures w; w_acked := w_acked w |}.
Definition count_failure (w : World) : World := {| w_fs := w_fs w; w_script := w_script w; w_writer := w_writer w;
  w_degraded := true; w_write_failures := wrapu 64 (w_write_failures w + 1); w_acked := w_acked w |}.
Definition set_acked (r : JournalRecord) (w : World) : World := {| w_fs := w_fs w; w_script := w_script w;
  w_writer := w_writer w; w_degraded := w_degraded w; w_write_failures := w_write_failures w; w_acked := w_acked w ++ [r] |}.

Definition io_error : Error := Io [].

(** One file operation: [eff] is what it does, [short k] what is left when only
    [k] bytes were written. *)
Definition fs_call (c : FsCall) (eff : Fs -> Fs) (short : nat -> Fs -> Fs) : M World unit := fun w =>
  match w_script w with
  | [] => (Done tt, set_fs (eff (w_fs w)) w)
  | ev :: rest =>
      let w := set_script rest w in
      match ev c with
      | Fine => (Done tt, set_fs (eff (w_fs w)) w)
      | Refused => (Effects.Failed io_error, w)
      | Short k => (Effects.Failed io_error, set_fs (short k (w_fs w)) w)
      | Killed => (Crashed, w)
      end
  end.

Definition plain (c : FsCall) (eff : Fs -> Fs) : M World unit := fs_call c eff (fun _ s => s).
Definition fs_create p := plain CreateFile (create_eff p).
Definition fs_open_append p := plain OpenAppend (open_append_eff p).
Definition fs_write p bs := fs_call WriteFile (write_eff p bs) (fun k => write_eff p (take k bs)).
Definition fs_sync p := plain SyncFile (sync_eff p).
(** Renaming or removing what is not there is an error. *)
Definition if_present (p : path) (m : M World unit) (c : FsCall) : M World unit :=
  do! w <- get;
  match cur (w_fs w) !! p with
  | Some _ => m
  | None => run! plain c (fun s => s); throw io_error
  end.
Definition fs_rename p q := if_present p (plain RenameFile (rename_eff p q)) RenameFile.
Definition fs_unlink p := if_present p (plain UnlinkFile (unlink_eff p)) UnlinkFile.
Definition fs_read_dir : M World disk := run! plain ReadDir (fun s => s); do! w <- get; ret (cur (w_fs w)).
(** [File::open] and reading it to the end. *)
Definition fs_read (p : path) : M World (list Z) :=
  run! plain OpenRead (fun s => s);
  do! w <- get;
  match cur (w_fs w) !! p with Some c => ret c | None => throw io_error end.

(** [fs_util::fsync_dir]: an error is swallowed. *)
Definition fsync_dir (dd : dir) : M World unit := run! try_ (plain SyncDir (sync_dir_eff dd)); ret tt.
Definition rename_durable (p q : path) (dd : dir) : M World unit := run! fs_rename p q; fsync_dir dd.
(** [let _ = remove_file(..)]. *)
Definition unlink_ignored (p : path) : M World unit := run! try_ (fs_unlink p); ret tt.

(** ** Names *)

Definition seg_name (n : Z) : str := fmt [lit "seg-"; show_pad 6 n; lit ".jsonl"].
Definition gen_name (n : Z) : str := fmt [lit "gen-"; show_pad 6 n; lit ".jsonl"].
Definition done_name (n : Z) : str := fmt [lit "gen-"; show_pad 6 n; lit ".done"].

Definition parse_index (name prefix : str) : option Z :=
  match strip_prefix prefix name with
  | Some rest =>
      match strip_suffix (lit ".jsonl") rest with
      | Some digits => parse_u 10 (u_max 64) digits
      | None => None
      end
  | None => None
  end.

(** [path.join(input)] under the statements directory, whose subdirectory holds
    the generations. *)
Definition resolve (input : str) : path :=
  match strip_prefix (lit "compacted/") input with
  | Some name => (Compacted, name)
  | None => (Statements, input)
  end.

(** [sort_by_key] on a leading number. *)
Definition index_le {A} (a b : Z * A) : Prop := a.1 <= b.1.
#[export] Instance index_le_dec {A} (a b : Z * A) : Decision (index_le a b).
Proof. unfold index_le. apply _. Defined.

Definition indexed_files (dd : dir) (prefix : str) (d : disk) : list (Z * str) :=
  merge_sort index_le
    (omap (fun '((dd', name), _) =>
       if decide (dd' = dd) then (fun i => (i, name)) <$> parse_index name prefix else None) (map_to_list d)).

Definition segments (d : disk) : list (Z * str) := indexed_files Statements (lit "seg-") d.
Definition generations (d : disk) : list (Z * str) := indexed_files Compacted (lit "gen-") d.

(** [read_dir] refused reads as an empty directory. *)
Definition list_segments : M World (list (Z * str)) :=
  do! r <- try_ fs_read_dir; ret (match r with Ok d => segments d | Err _ => [] end).
Definition list_generations : M World (list (Z * str)) :=
  do! r <- try_ fs_read_dir; ret (match r with Ok d => generations d | Err _ => [] end).

(** ** Reading *)

(** [BufRead::lines] and [str::lines]. *)
Definition buf_lines (bs : list Z) : list (list Z) :=
  let parts := split_char 10 bs in
  (strip_cr <$> removelast parts) ++ (match List.last parts [] with [] => [] | t => [t] end).

Section Journal.
Context `{Chrono, JournalCodec} (cfg : HistoryConfig).

(** [true]: the file is corrupt from here on. *)
Fixpoint read_lines (ls : list (list Z)) (f : Fold) : bool * Fold :=
  match ls with
  | [] => (false, f)
  | bs :: ls =>
      match from_utf8 bs with
      | Err _ => (true, f)
      | Ok line =>
          if is_empty (trim line) then read_lines ls f
          else match from_str line with
               | Some r => read_lines ls (apply r f)
               | None => (true, f)
               end
      end
  end.

Fixpoint quarantine_from (fuel : nat) (n : Z) (d : disk) (p : path) (base : str) : path :=
  match fuel with
  | O => (p.1, base)
  | S fuel =>
      let candidate := (p.1, fmt [base; lit "."; show_u n]) in
      match d !! candidate with None => candidate | Some _ => quarantine_from fuel (n + 1) d p base end
  end.

Definition quarantine_path (d : disk) (p : path) : path :=
  let base := p.2 ++ lit ".corrupt" in
  match d !! (p.1, base) with
  | None => (p.1, base)
  | Some _ => quarantine_from 998 2 d p base
  end.

Definition read_into (p : path) (f : Fold) : M World Fold :=
  do! r <- try_ (fs_read p);
  match r with
  | Err _ => ret f
  | Ok c =>
      let '(corrupt, f') := read_lines (buf_lines c) f in
      if corrupt then
        do! w <- get;
        run! try_ (fs_rename p (quarantine_path (cur (w_fs w)) p));
        run! fsync_dir p.1;
        ret f'
      else ret f'
  end.

Fixpoint replay_files (files : list path) (f : Fold) : M World Fold :=
  match files with
  | [] => ret f
  | p :: files =>
      if max_records cfg <=? Z.of_nat (size (fd_statements f)) then ret f
      else do! f <- read_into p f; replay_files files f
  end.

Definition replay : M World Fold :=
  do! segs <- list_segments;
  do! gens <- list_generations;
  replay_files (((fun x => (Statements, x.2)) <$> reverse segs) ++ ((fun x => (Compacted, x.2)) <$> reverse gens)) fold_default.

(** ** Recovery of the swap *)

Fixpoint unlink_all (ps : list path) : M World unit :=
  match ps with [] => ret tt | p :: ps => run! unlink_ignored p; unlink_all ps end.

(** The inputs a marker names. *)
Definition marker_inputs (body : list Z) : option (list path) :=
  match from_utf8 body with
  | Ok s => Some (resolve <$> filter (fun l => is_empty (trim l) = false) (buf_lines s))
  | Err _ => None
  end.

Definition recover_marker (name : str) : M World unit :=
  do! r <- try_ (fs_read (Compacted, name));
  run! match r with
       | Ok body => match marker_inputs body with Some ps => unlink_all ps | None => ret tt end
       | Err _ => ret tt
       end;
  run! fsync_dir Statements;
  run! fsync_dir Compacted;
  run! unlink_ignored (Compacted, name);
  fsync_dir Compacted.

Fixpoint recover_markers (names : list str) : M World unit :=
  match names with [] => ret tt | n :: ns => run! recover_marker n; recover_markers ns end.

Definition compacted_names (d : disk) : list str :=
  omap (fun '((dd, name), _) => if decide (dd = Compacted) then Some name else None) (map_to_list d).

Definition recover_swap : M World unit :=
  do! r <- try_ fs_read_dir;
  match r with
  | Err _ => ret tt
  | Ok d =>
      let names := compacted_names d in
      run! unlink_all ((fun n => (Compacted, n)) <$> filter (fun n => ends_with n (lit ".tmp") = true) names);
      recover_markers (filter (fun n => ends_with n (lit ".tmp") = false /\ ends_with n (lit ".done") = true) names)
  end.

(** ** Retention and compaction *)

Definition with_statements (m : gmap str FoldedStatement) (f : Fold) : Fold :=
  {| fd_statements := m; fd_tombstoned := fd_tombstoned f; fd_max_seq := fd_max_seq f; fd_records := fd_records f |}.

Definition within_age (now : Z) (m : gmap str FoldedStatement) : gmap str FoldedStatement :=
  if 0 <? retention_days cfg then
    let span := sat_i 64 (retention_days cfg * 86400000) in
    let cutoff := sat_i 64 (now - span) in
    filter (fun kv => is_terminal (f_status kv.2) = false \/ cutoff <= f_submitted_at_ms kv.2) m
  else m.

Definition within_cap (m : gmap str FoldedStatement) : gmap str FoldedStatement :=
  let excess := Z.of_nat (size m) - max_records cfg in
  if 0 <? excess then
    let terminal := (fun kv => (f_seq kv.2, kv.1)) <$> filter (fun kv => is_terminal (f_status kv.2) = true) (map_to_list m) in
    let oldest := merge_sort index_le terminal in
    foldl (fun m x => delete x.2 m) m (take (Z.to_nat excess) oldest)
  else m.

Definition enforce_retention (now : Z) (f : Fold) : Fold :=
  with_statements (within_cap (within_age now (fd_statements f))) f.

(** The ratio is computed in [f64]; below 2^52 records it is under one half
    exactly when more than half of the records survive. *)
Definition worth_compacting (f : Fold) : bool :=
  (0 <? fd_records f) && (2 * Z.of_nat (size (fd_statements f)) <=? fd_records f).

Fixpoint read_all (files : list path) (f : Fold) : M World Fold :=
  match files with
  | [] => ret f
  | p :: files => do! f <- read_into p f; read_all files f
  end.

(** The statements by submit sequence, as the [BTreeMap] orders them. *)
Definition ordered (m : gmap str FoldedStatement) : list FoldedStatement :=
  let by_seq : gmap Z FoldedStatement := foldl (fun acc kv => <[f_seq kv.2 := kv.2]> acc) ∅ (map_to_list m) in
  (merge_sort index_le (map_to_list by_seq)).*2.

Definition record_line (r : JournalRecord) : option (list Z) :=
  (fun s => utf8_encode s ++ [10]) <$> to_string r.

Fixpoint write_snapshots (tmp : path) (sts : list FoldedStatement) : M World unit :=
  match sts with
  | [] => ret tt
  | st :: sts =>
      match record_line (to_snapshot st) with
      | None => throw io_error
      | Some line => run! fs_write tmp line; write_snapshots tmp sts
      end
  end.

Definition last_index (l : list (Z * str)) : option Z := (fun x => x.1) <$> last l.

(** Steps 1 to 5 of the swap. *)
Definition swap (next_gen : Z) (inputs : list str) (sts : list FoldedStatement) : M World unit :=
  let target := (Compacted, gen_name next_gen) in
  let tmp := (Compacted, gen_name next_gen ++ lit ".tmp") in
  let marker := (Compacted, done_name next_gen) in
  run! fs_create tmp;
  run! write_snapshots tmp sts;
  run! fs_sync tmp;
  run! rename_durable tmp target Compacted;
  run! fs_create marker;
  run! fs_write marker (utf8_encode (join [10] inputs));
  run! fs_write marker [10];
  run! fs_sync marker;
  run! fsync_dir Compacted;
  run! unlink_all (resolve <$> inputs);
  run! fsync_dir Statements;
  run! fsync_dir Compacted;
  run! unlink_ignored marker;
  fsync_dir Compacted.

Definition compact_sealed (now open_segment : Z) (force : bool) : M World bool :=
  do! segs <- list_segments;
  let sealed := filter (fun x => x.1 < open_segment) segs in
  do! gens <- list_generations;
  match sealed with
  | [] => ret false
  | _ =>
      do! f <- read_all (((fun x => (Compacted, x.2)) <$> gens) ++ ((fun x => (Statements, x.2)) <$> sealed)) fold_default;
      let inputs := ((fun x => lit "compacted/" ++ x.2) <$> gens) ++ sealed.*2 in
      let f := enforce_retention now f in
      if negb force && negb (worth_compacting f) then ret false
      else
        let next_gen := match last_index gens with Some i => wrapu 64 (i + 1) | None => 0 end in
        run! swap next_gen inputs (ordered (fd_statements f));
        ret true
  end.

(** ** The writer *)

Definition get_writer : M World Writer := do! w <- get; ret (w_writer w).
Definition update_writer (g : Writer -> Writer) : M World unit := modify (fun w => set_writer (g (w_writer w)) w).

Definition seg_path (w : Writer) : path := (Statements, seg_name (wr_segment w)).

Definition fail : M World unit :=
  run! modify count_failure;
  update_writer (fun x => {| wr_open := false; wr_segment := wr_segment x; wr_len := wr_len x; wr_dirty := false |}).

Definition compact (now : Z) (force : bool) : M World unit :=
  do! x <- get_writer;
  run! try_ (compact_sealed now (wr_segment x) force);
  ret tt.

(** Open the segment if it is not; [false]: the open was refused. *)
Definition ensure_segment : M World bool :=
  do! x <- get_writer;
  if wr_open x then ret true
  else
    do! r <- try_ (fs_open_append (seg_path x));
    match r with
    | Ok _ =>
        do! w <- get;
        let len := match cur (w_fs w) !! seg_path x with Some c => Z.of_nat (length c) | None => 0 end in
        run! update_writer (fun x => {| wr_open := true; wr_segment := wr_segment x; wr_len := len; wr_dirty := wr_dirty x |});
        run! fsync_dir Statements;
        ret true
    | Err _ => run! fail; ret false
    end.

Definition writer_append (rec : JournalRecord) : M World bool :=
  match record_line rec with
  | None => run! modify count_failure; ret false
  | Some line =>
      do! opened <- ensure_segment;
      if opened then
        do! x <- get_writer;
        do! r <- try_ (fs_write (seg_path x) line);
        match r with
        | Ok _ =>
            run! update_writer (fun x => {| wr_open := wr_open x; wr_segment := wr_segment x;
                   wr_len := wrapu 64 (wr_len x + Z.of_nat (length line)); wr_dirty := true |});
            run! modify (set_degraded false);
            ret true
        | Err _ => run! fail; ret false
        end
      else ret false
  end.

Definition writer_sync : M World bool :=
  do! x <- get_writer;
  if negb (wr_dirty x) then ret true
  else if negb (wr_open x) then ret false
  else
    do! r <- try_ (fs_sync (seg_path x));
    match r with
    | Ok _ =>
        run! update_writer (fun x => {| wr_open := wr_open x; wr_segment := wr_segment x; wr_len := wr_len x; wr_dirty := false |});
        run! modify (set_degraded false);
        ret true
    | Err _ => run! fail; ret false
    end.

Definition seal : M World unit :=
  run! writer_sync;
  do! x <- get_writer;
  if wr_open x then
    run! update_writer (fun x => {| wr_open := false; wr_segment := wr_segment x; wr_len := wr_len x; wr_dirty := wr_dirty x |});
    run! fsync_dir Statements;
    update_writer (fun x => {| wr_open := wr_open x; wr_segment := wrapu 64 (wr_segment x + 1); wr_len := 0; wr_dirty := wr_dirty x |})
  else ret tt.

Definition roll_if_full (now : Z) : M World unit :=
  do! x <- get_writer;
  if segment_max_bytes cfg <=? wr_len x then run! seal; compact now false else ret tt.

(** [ack]: a client waits for the record. *)
Definition handle_append (now : Z) (rec : JournalRecord) (ack : bool) : M World unit :=
  do! written <- writer_append rec;
  run! (if ack then
          do! durable <- (if written then writer_sync else ret false);
          if durable then modify (set_acked rec) else ret tt
        else ret tt);
  roll_if_full now.

(** ** The writer thread *)

Inductive Msg :=
  | Append (rec : JournalRecord) (ack : bool)
  | SyncNow
  | CompactNow
  | Timeout (flush_due : bool).

(** One turn of the loop of [Writer::run]; [Stop] and a closed channel are
    [SyncNow] as the last turn. *)
Definition dispatch (now : Z) (msg : Msg) : M World unit :=
  match msg with
  | Append rec ack => handle_append now rec ack
  | SyncNow => run! writer_sync; ret tt
  | CompactNow => run! seal; compact now true
  | Timeout flush_due =>
      do! x <- get_writer;
      if wr_dirty x && flush_due then run! writer_sync; ret tt else ret tt
  end.

Fixpoint dispatch_all (msgs : list (Z * Msg)) : M World unit :=
  match msgs with
  | [] => ret tt
  | (now, msg) :: msgs => run! dispatch now msg; dispatch_all msgs
  end.

Definition writer_run (boot : Z) (msgs : list (Z * Msg)) : M World unit :=
  run! compact boot false;
  dispatch_all msgs.

(** ** Opening *)

Definition journal_open : M World (Z * Fold) :=
  run! recover_swap;
  do! f <- replay;
  do! segs <- list_segments;
  let next_segment := match last_index segs with Some i => wrapu 64 (i + 1) | None => 0 end in
  run! update_writer (fun _ => {| wr_open := false; wr_segment := next_segment; wr_len := 0; wr_dirty := false |});
  ret (wrapu 64 (fd_max_seq f + 1), f).

End Journal.
