(* ===== verification/JournalDisk.v ===== *)
(** * JournalDisk: what a journal directory holds

    Names, lines and records: which files belong to the journal, which records
    a file yields, which files a swap marker names, and what opening a
    directory therefore folds.  Shared by the proofs about compaction
    ([JournalSwap]) and about acknowledged records ([JournalAck]). *)

From S2P Require Import Prelude Text Effects HistoryRecord Journal.

#[local] Arguments lit : simpl never.

(** ** Journal files *)

Definition journal_index (p : path) : option Z :=
  match p.1 with
  | Statements => parse_index p.2 (lit "seg-")
  | Compacted => parse_index p.2 (lit "gen-")
  end.
Definition is_journal (p : path) : Prop := is_Some (journal_index p).

Lemma parse_index_shape name prefix i : parse_index name prefix = Some i ->
  exists digits, name = prefix ++ digits ++ lit ".jsonl" /\ parse_u 10 (u_max 64) digits = Some i.
Proof.
  unfold parse_index. intros H. destruct (strip_prefix prefix name) as [rest|] eqn:E; [|done].
  destruct (strip_suffix (lit ".jsonl") rest) as [digits|] eqn:E'; [|done].
  apply strip_prefix_sound in E as ->. apply strip_suffix_sound in E' as ->. by exists digits.
Qed.

Lemma parse_index_name prefix n : u_ok 64 n -> parse_index (fmt [prefix; show_pad 6 n; lit ".jsonl"]) prefix = Some n.
Proof.
  intros Hn. unfold parse_index, fmt. cbn [concat]. rewrite strip_prefix_app, app_nil_r, strip_suffix_app.
  apply parse_u_show_pad. apply Hn.
Qed.

Definition jsonl (name : str) : Prop := exists a, name = a ++ lit ".jsonl".

Lemma journal_jsonl p : is_journal p -> jsonl p.2.
Proof.
  destruct p as [[] name]; intros [i (digits & -> & _)%parse_index_shape];
    eexists; by rewrite app_assoc.
Qed.

Lemma suffix_last (s u : str) x y : s ++ [x] = u ++ [y] -> x = y.
Proof. intros H. by apply app_inj_2 in H as [_ [= ->]]. Qed.

Lemma not_jsonl s t x : x <> 108 -> ~ jsonl (s ++ t ++ [x]).
Proof.
  intros Hx (a & E). change (lit ".jsonl") with (lit ".json" ++ [108]) in E. rewrite !app_assoc in E.
  by apply suffix_last in E.
Qed.

Lemma tmp_not_journal n : ~ is_journal (Compacted, gen_name n ++ lit ".tmp").
Proof. intros H%journal_jsonl. by apply (not_jsonl (gen_name n) (lit ".tm") 112) in H. Qed.

Lemma done_not_journal n : ~ is_journal (Compacted, done_name n).
Proof.
  intros H%journal_jsonl. apply (not_jsonl (lit "gen-" ++ show_pad 6 n) (lit ".don") 101); [done|].
  unfold done_name, fmt in H. simpl in H. unfold jsonl in *. rewrite <-!app_assoc. exact H.
Qed.

Lemma ends_with_shape s t : ends_with s t = true -> exists a, s = a ++ t.
Proof. intros [a Ha]%bool_decide_eq_true_1. apply strip_suffix_sound in Ha as ->. by exists a. Qed.

Lemma done_suffix_not_journal name : ends_with name (lit ".done") = true -> ~ is_journal (Compacted, name).
Proof.
  intros (a & ->)%ends_with_shape Hj%journal_jsonl. by apply (not_jsonl a (lit ".don") 101) in Hj.
Qed.

Lemma tmp_suffix_not_journal name : ends_with name (lit ".tmp") = true -> ~ is_journal (Compacted, name).
Proof.
  intros (a & ->)%ends_with_shape Hj%journal_jsonl. by apply (not_jsonl a (lit ".tm") 112) in Hj.
Qed.

Lemma gen_journal n : u_ok 64 n -> journal_index (Compacted, gen_name n) = Some n.
Proof. apply parse_index_name. Qed.

Lemma seg_journal n : u_ok 64 n -> journal_index (Statements, seg_name n) = Some n.
Proof. apply parse_index_name. Qed.

(** Digits, and so journal names, hold no dot but the one of the extension and
    no newline. *)
Lemma digits_plain max digits n k : parse_u 10 max digits = Some n -> k <> 43 -> ~ 48 <= k <= 57 -> k ∉ digits.
Proof.
  intros H%parse_u_chars Hk Hk' Hin. rewrite Forall_forall in H. destruct (H _ Hin); lia.
Qed.

Lemma dot_once a t u : 46 ∉ a -> t ++ u = a ++ lit ".jsonl" -> jsonl t -> u = [].
Proof.
  intros Ha E (b & ->). rewrite <-app_assoc in E.
  change (lit ".jsonl") with (46 :: lit "jsonl") in E. rewrite <-app_comm_cons in E.
  assert (Hb : 46 ∉ b).
  { pose proof (f_equal (fun s => length (filter (fun c => c = 46) s)) E) as Hlen. cbv beta in Hlen.
    rewrite !filter_app, !filter_cons_True, !length_app in Hlen by done. simpl in Hlen.
    assert (Ha0 : filter (fun c => c = 46) a = []) by (apply elem_of_nil_inv; intros c [-> ?]%list_elem_of_filter; done).
    rewrite Ha0 in Hlen. intros Hin. assert (46 ∈ filter (fun c => c = 46) b) as Hf by (by apply list_elem_of_filter).
    apply list_elem_of_split in Hf as (x & y & E'). rewrite E', length_app in Hlen. simpl in Hlen. lia. }
  pose proof (f_equal (split_once 46) E) as S. rewrite !split_once_app in S by done.
  injection S as _ S. apply (f_equal length) in S. destruct u; [done|]. simpl in S. lia.
Qed.

(** ** Records of a file *)

Section Records.
Context `{Chrono, JournalCodecLaws}.

Fixpoint parse_lines (ls : list (list Z)) : bool * list JournalRecord :=
  match ls with
  | [] => (false, [])
  | bs :: ls =>
      match from_utf8 bs with
      | Err _ => (true, [])
      | Ok line =>
          if is_empty (trim line) then parse_lines ls
          else match from_str line with
               | Some r => let '(b, rs) := parse_lines ls in (b, r :: rs)
               | None => (true, [])
               end
      end
  end.

Definition file_records (c : list Z) : bool * list JournalRecord := parse_lines (buf_lines c).

(** The records on the lines that end in a newline. *)
Definition complete (c : list Z) : list JournalRecord := (parse_lines (strip_cr <$> removelast (split_char 10 c))).2.

Lemma read_lines_parse ls f : read_lines ls f = ((parse_lines ls).1, fold_into f (parse_lines ls).2).
Proof.
  revert f. induction ls as [|bs ls IH]; intros f; [done|]. simpl. destruct (from_utf8 bs); [|done].
  destruct (is_empty _); [apply IH|]. destruct (from_str a); [|done]. rewrite IH. by destruct (parse_lines ls).
Qed.

Lemma parse_lines_app l1 l2 :
  parse_lines (l1 ++ l2) = if (parse_lines l1).1 then parse_lines l1
    else ((parse_lines l2).1, (parse_lines l1).2 ++ (parse_lines l2).2).
Proof.
  induction l1 as [|bs l1 IH]; [simpl; by destruct (parse_lines l2)|]. simpl. destruct (from_utf8 bs); [|done].
  destruct (is_empty _); [apply IH|]. destruct (from_str a); [|done]. rewrite IH.
  by destruct (parse_lines l1) as [[] rs].
Qed.

Lemma parse_lines_prefix l1 l2 : (parse_lines l1).2 `prefix_of` (parse_lines (l1 ++ l2)).2.
Proof. rewrite parse_lines_app. destruct (parse_lines l1).1; [done|]. by apply prefix_app_r. Qed.

Lemma complete_file_records c : complete c `prefix_of` (file_records c).2.
Proof. apply parse_lines_prefix. Qed.

Lemma split_char_app_lines a b : exists q qs, split_char 10 (a ++ b) = removelast (split_char 10 a) ++ q :: qs.
Proof.
  induction a as [|x a IH]; simpl.
  - pose proof (split_char_nonempty 10 b). destruct (split_char 10 b) as [|q qs]; [done|]. by exists q, qs.
  - destruct IH as (q & qs & E2). pose proof (split_char_nonempty 10 a) as Hne.
    destruct (x =? 10).
    + exists q, qs. rewrite E2. by destruct (split_char 10 a).
    + destruct (split_char 10 a) as [|y ys] eqn:E; [done|]. rewrite E2. destruct ys as [|z zs].
      * by exists (x :: q), qs.
      * by exists q, qs.
Qed.

(** Appending never takes back a complete line. *)
Lemma complete_app a b : complete a `prefix_of` complete (a ++ b).
Proof.
  destruct (split_char_app_lines a b) as (q & qs & E). unfold complete. rewrite E.
  rewrite removelast_app by done. rewrite fmap_app. apply parse_lines_prefix.
Qed.

(** ** Files of whole lines *)

Inductive encodes : list JournalRecord -> list Z -> Prop :=
  | encodes_nil : encodes [] []
  | encodes_snoc rs c r line : encodes rs c -> record_line r = Some line -> encodes (rs ++ [r]) (c ++ line).

(** The characters of a record's text, and its braces. *)
Lemma to_string_chars r s : to_string r = Some s -> s <> [] /\ Forall (fun c => is_scalar c /\ 32 <= c) s /\ trim s = s.
Proof.
  intros (body & -> & Hb)%to_string_object. split; [done|]. split.
  - constructor; [unfold is_scalar; lia|]. apply Forall_app. split; [done|]. repeat constructor; unfold is_scalar; lia.
  - by rewrite app_comm_cons, trim_ends_id.
Qed.

Lemma utf8_encode_high s : Forall (fun c => is_scalar c /\ 32 <= c) s -> Forall (fun b => 32 <= b) (utf8_encode s).
Proof.
  induction 1 as [|c s (Hs & Hc) _ IH]; [constructor|].
  change (utf8_encode (c :: s)) with (utf8_char c ++ utf8_encode s). apply Forall_app. split; [|done].
  assert (0 <= c < 1114112) by (unfold is_scalar in Hs; lia).
  unfold utf8_char. repeat case_match; bool_to_prop; repeat constructor; try lia;
    pose proof (Z.div_pos c 64); pose proof (Z.div_pos c 4096); pose proof (Z.div_pos c 262144);
    pose proof (Z.mod_pos_bound c 64); pose proof (Z.mod_pos_bound (c / 64) 64); pose proof (Z.mod_pos_bound (c / 4096) 64); lia.
Qed.

Lemma strip_cr_high bs : Forall (fun b => 32 <= b) bs -> strip_cr bs = bs.
Proof.
  intros Hh. unfold strip_cr. destruct (reverse bs) as [|x t] eqn:E; [done|].
  assert (Hx : 32 <= x).
  { rewrite Forall_forall in Hh. apply Hh, elem_of_reverse. rewrite E. left. }
  destruct x as [|p|p]; try done. do 4 (destruct p; try done).
Qed.

Lemma high_no_newline bs : Forall (fun b => 32 <= b) bs -> 10 ∉ bs.
Proof. intros Hh Hin. rewrite Forall_forall in Hh. specialize (Hh _ Hin). lia. Qed.

(** One line appended to whole lines is one record more. *)
Lemma whole_line c r line :
  (c = [] \/ exists c', c = c' ++ [10]) -> record_line r = Some line ->
  split_char 10 (c ++ line) = removelast (split_char 10 c) ++ [removelast line; []]
  /\ parse_lines [strip_cr (removelast line)] = (false, [r]).
Proof.
  intros Hc Hl. unfold record_line in Hl. destruct (to_string r) as [s|] eqn:E; [|done]. injection Hl as <-.
  destruct (to_string_chars _ _ E) as (Hne & Hs & Htrim). pose proof (utf8_encode_high _ Hs) as Hh.
  pose proof (high_no_newline _ Hh) as Hnl. rewrite removelast_app, app_nil_r by done. split.
  - destruct Hc as [->|(c' & ->)].
    + simpl app. by rewrite split_char_app, (split_char_no_sep 10 (utf8_encode s)).
    + rewrite <-!app_assoc. simpl app. rewrite !split_char_app, (split_char_no_sep 10 (utf8_encode s)) by done.
      change (split_char 10 []) with [@nil Z]. rewrite removelast_app by done. simpl. by rewrite app_nil_r.
  - simpl. rewrite strip_cr_high by done. rewrite from_utf8_encode by (eapply Forall_impl; [exact Hs|naive_solver]).
    rewrite Htrim.
    destruct s as [|x s]; [done|]. simpl is_empty. cbv iota. by rewrite (from_to_string _ _ E).
Qed.

Lemma encodes_end rs c : encodes rs c -> c = [] \/ exists c', c = c' ++ [10].
Proof.
  induction 1 as [|rs c r line He IH Hl]; [by left|right]. unfold record_line in Hl.
  destruct (to_string r) as [s|]; [|done]. injection Hl as <-. exists (c ++ utf8_encode s). by rewrite app_assoc.
Qed.

Lemma encodes_lines rs c : encodes rs c -> parse_lines (strip_cr <$> removelast (split_char 10 c)) = (false, rs)
  /\ List.last (split_char 10 c) [] = [].
Proof.
  induction 1 as [|rs c r line He [IH _] Hl]; [done|].
  destruct (whole_line c r line (encodes_end _ _ He) Hl) as [E1 E2]. rewrite E1. split.
  - rewrite removelast_app by done. simpl removelast. rewrite fmap_app, parse_lines_app, IH. simpl fmap.
    by rewrite E2.
  - change [removelast line; []] with ([removelast line] ++ [@nil Z]). by rewrite app_assoc, List.last_last.
Qed.

Lemma encodes_complete rs c : encodes rs c -> complete c = rs.
Proof. intros [E _]%encodes_lines. unfold complete. by rewrite E. Qed.

Lemma encodes_records rs c : encodes rs c -> file_records c = (false, rs).
Proof. intros [E E']%encodes_lines. unfold file_records, buf_lines. by rewrite E', app_nil_r. Qed.

(** ** Markers *)

(** The journal files the markers of a disk name. *)
Definition marks (d : disk) (p : path) : Prop :=
  exists name body ps, ends_with name (lit ".done") = true /\ d !! (Compacted, name) = Some body
    /\ marker_inputs body = Some ps /\ p ∈ ps /\ is_journal p.

(** What a marker may hold before it is synced. *)
Definition marker_part (inputs : list str) (body : list Z) : Prop :=
  exists k, body = take k (utf8_encode (join [10] inputs)) \/ body = take k (utf8_encode (join [10] inputs)) ++ [10].

(** The names a compaction lists: journal files, relative to the statements
    directory. *)
Definition input_name (s : str) : Prop :=
  (exists i, parse_index s (lit "seg-") = Some i)
  \/ (exists n i, s = lit "compacted/" ++ n /\ parse_index n (lit "gen-") = Some i).

Lemma input_name_chars s : input_name s -> exists a, s = a ++ lit ".jsonl" /\ 46 ∉ a /\ Forall (fun c => 32 < c < 128) s.
Proof.
  assert (Hd : forall p digits i, parse_u 10 (u_max 64) digits = Some i -> 46 ∉ p -> Forall (fun c => 32 < c < 128) p ->
    46 ∉ p ++ digits /\ Forall (fun c => 32 < c < 128) (p ++ digits ++ lit ".jsonl")).
  { intros p digits i Hp Hn Hf. split.
    - rewrite elem_of_app. intros [?|Hin]; [done|]. revert Hin. eapply digits_plain; [exact Hp|lia|lia].
    - rewrite !Forall_app. split_and!; [done| |repeat constructor; lia].
      eapply Forall_impl; [exact (parse_u_chars _ _ _ Hp)|]. simpl. lia. }
  assert (Hlit : forall p, bool_decide (46 ∉ p /\ Forall (fun c => 32 < c < 128) p) = true -> 46 ∉ p /\ Forall (fun c => 32 < c < 128) p)
    by (intros p; apply bool_decide_eq_true_1).
  intros [(i & (digits & -> & Hp)%parse_index_shape)|(n & i & -> & (digits & -> & Hp)%parse_index_shape)].
  - destruct (Hlit (lit "seg-") eq_refl). exists (lit "seg-" ++ digits). rewrite <-app_assoc. split; [done|]. by eapply Hd.
  - destruct (Hlit (lit "compacted/gen-") eq_refl). exists (lit "compacted/gen-" ++ digits).
    change (lit "compacted/gen-") with (lit "compacted/" ++ lit "gen-"). rewrite <-!app_assoc.
    change (lit "compacted/" ++ lit "gen-" ++ digits) with ((lit "compacted/gen-") ++ digits).
    change (lit "compacted/" ++ lit "gen-" ++ digits ++ lit ".jsonl") with (lit "compacted/gen-" ++ digits ++ lit ".jsonl").
    split; [done|]. by eapply Hd.
Qed.

Lemma resolve_jsonl l : is_journal (resolve l) -> jsonl l.
Proof.
  unfold resolve. destruct (strip_prefix (lit "compacted/") l) as [n|] eqn:E; intros Hj%journal_jsonl; [|done].
  apply strip_prefix_sound in E as ->. destruct Hj as (a & Ha). simpl in Ha. exists (lit "compacted/" ++ a).
  by rewrite Ha, app_assoc.
Qed.

Lemma join_ascii inputs : Forall input_name inputs -> Forall (fun c => 0 <= c < 128) (join [10] inputs).
Proof.
  induction inputs as [|s l IH]; [constructor|]. intros [Hs Hl]%Forall_cons.
  destruct (input_name_chars _ Hs) as (_ & _ & _ & Hc).
  assert (Forall (fun c => 0 <= c < 128) s) by (eapply Forall_impl; [exact Hc|]; simpl; lia).
  destruct l as [|s' l]; [done|]. change (join [10] (s :: s' :: l)) with (s ++ 10 :: join [10] (s' :: l)).
  apply Forall_app. split; [done|]. constructor; [lia|by apply IH].
Qed.

Lemma input_pieces k inputs l : Forall input_name inputs ->
  l ∈ split_char 10 (take k (join [10] inputs)) -> l = [] \/ exists q, q ∈ inputs /\ l `prefix_of` q.
Proof.
  intros Hin Hl. destruct (split_char_take 10 k (join [10] inputs)) as (ps & p & q & qs & E1 & E2 & Hp).
  destruct inputs as [|s0 inputs].
  { left. change (join [10] []) with (@nil Z) in Hl. rewrite take_nil in Hl. by apply list_elem_of_singleton in Hl. }
  rewrite split_char_names in E1; [|done|].
  2: { eapply Forall_impl; [exact Hin|]. intros s (_ & _ & _ & Hc)%input_name_chars Hs.
       rewrite Forall_forall in Hc. specialize (Hc _ Hs). lia. }
  right. rewrite E2 in Hl. apply elem_of_app in Hl as [Hl|Hl].
  - exists l. rewrite E1. split; [set_solver|done].
  - apply list_elem_of_singleton in Hl as ->. exists q. rewrite E1. split; [set_solver|done].
Qed.

Lemma buf_lines_pieces bs l : l ∈ buf_lines bs -> exists p, p ∈ split_char 10 bs /\ (l = p \/ l = strip_cr p).
Proof.
  unfold buf_lines. pose proof (split_char_nonempty 10 bs) as Hne.
  pose proof (app_removelast_last [] Hne) as E. intros [Hl|Hl]%elem_of_app.
  - apply list_elem_of_fmap in Hl as (p & -> & Hp). exists p. split; [|by right]. rewrite E. set_solver.
  - exists l. split; [|by left]. rewrite E. destruct (List.last (split_char 10 bs) []) as [|x t]; [by apply elem_of_nil in Hl|].
    set_solver.
Qed.

(** However much of a marker reached the disk, the journal files it names are
    inputs of the compaction. *)
Lemma marker_part_names inputs body ps p :
  Forall input_name inputs -> marker_part inputs body -> marker_inputs body = Some ps -> p ∈ ps -> is_journal p ->
  p ∈ resolve <$> inputs.
Proof.
  intros Hin (k & Hk) Hps Hp Hj. pose proof (join_ascii _ Hin) as Ha.
  rewrite utf8_encode_ascii in Hk by (eapply Forall_impl; [exact Ha|]; simpl; lia).
  assert (Hb : Forall (fun c => 0 <= c < 128) body).
  { destruct Hk as [-> | ->]; [by apply Forall_take|]. apply Forall_app. split; [by apply Forall_take|repeat constructor; lia]. }
  unfold marker_inputs in Hps.
  rewrite <-(utf8_encode_ascii body) in Hps at 1 by (eapply Forall_impl; [exact Hb|]; simpl; lia).
  rewrite from_utf8_encode in Hps by (eapply Forall_impl; [exact Hb|]; unfold is_scalar; simpl; lia).
  injection Hps as <-. apply list_elem_of_fmap in Hp as (l & -> & [Hne Hl]%list_elem_of_filter).
  destruct (buf_lines_pieces _ _ Hl) as (x & Hx & Hlx).
  assert (Hx' : x = [] \/ exists q, q ∈ inputs /\ x `prefix_of` q).
  { destruct Hk as [-> | ->]; [by eapply input_pieces|]. rewrite split_char_app in Hx.
    apply elem_of_app in Hx as [Hx|Hx%list_elem_of_singleton]; [by eapply input_pieces|by left]. }
  destruct Hx' as [->|(q & Hq & Hpre)]; [destruct Hlx; by subst|].
  rewrite Forall_forall in Hin. destruct (input_name_chars q (Hin _ Hq)) as (a & Ea & Hdot & Hc).
  assert (l = x) as ->.
  { destruct Hlx as [|Hlx]; [done|]. rewrite Hlx. apply strip_cr_high. destruct Hpre as [u ->].
    apply Forall_app in Hc as [Hc _]. eapply Forall_impl; [exact Hc|]; simpl; lia. }
  destruct Hpre as [u ->]. rewrite (dot_once a x u Hdot Ea (resolve_jsonl _ Hj)), app_nil_r in Hq.
  apply list_elem_of_fmap. by exists x.
Qed.

End Records.

(** ** One statement through the fold

    [rec_ok]: a record that may be on the disk while we follow one statement,
    which finished under sequence [fo_last]: no record of it is a tombstone,
    those written at [fo_last] or later have a terminal status, and its submit
    sequence is its own.  [ids] bounds the statements there are. *)

Record Followed := { fo_id : str; fo_seq : Z; fo_ms : Z; fo_last : Z }.

Section Following.
Context (o : Followed) (ids : gset str).

Definition rec_ok (r : JournalRecord) : Prop :=
  j_id r ∈ ids /\ (j_seq r = fo_seq o -> j_id r = fo_id o)
  /\ (j_id r = fo_id o -> live r /\ j_seq r = fo_seq o /\ j_submitted_at_ms r = fo_ms o
        /\ exists s, j_status r = Some s /\ (fo_last o <= (fold_key r).1 -> is_terminal s = true)).

Record fold_ok (f : Fold) : Prop := {
  fk_ids : forall id st, fd_statements f !! id = Some st ->
    id ∈ ids /\ f_id st = id /\ (f_seq st = fo_seq o -> id = fo_id o);
  fk_live : fo_id o ∉ fd_tombstoned f;
  fk_status : forall st, fd_statements f !! fo_id o = Some st ->
    f_seq st = fo_seq o /\ f_submitted_at_ms st = fo_ms o
    /\ (fo_last o <= f_last_seq st -> is_terminal (f_status st) = true) }.

Definition fold_has (f : Fold) : Prop := exists st, fd_statements f !! fo_id o = Some st /\ fo_last o <= f_last_seq st.

(** [r] tells that the statement finished. *)
Definition tells (r : JournalRecord) : Prop := j_id r = fo_id o /\ fo_last o <= (fold_key r).1.

Lemma fold_ok_default : fold_ok fold_default.
Proof. split; simpl; [intros ??; by rewrite lookup_empty|set_solver|intros ?; by rewrite lookup_empty]. Qed.

Lemma merge_entry_id e r :
  (forall st, e = Some st -> f_id st = j_id r) -> f_id (merge_entry e r) = j_id r.
Proof. intros Hid. destruct e as [st|]; [|done]. simpl. case_match; exact (Hid _ eq_refl). Qed.

Lemma merge_entry_seq e r :
  f_seq (merge_entry e r) = match e with Some st => f_seq st | None => j_seq r end
  /\ f_submitted_at_ms (merge_entry e r) = match e with Some st => f_submitted_at_ms st | None => j_submitted_at_ms r end.
Proof. destruct e as [st|]; [|done]. simpl. by case_match. Qed.

Lemma merge_entry_last e r :
  (fold_key r).1 <= f_last_seq (merge_entry e r) /\ (forall st, e = Some st -> f_last_seq st <= f_last_seq (merge_entry e r)).
Proof.
  destruct e as [st|]; [|simpl; split; [lia|done]]. unfold merge_entry. destruct (key_ltb _ _) eqn:E.
  - unfold key_ltb in E. simpl in E. apply orb_true_iff in E. simpl. split.
    + destruct E as [E|E]; bool_to_prop; simpl in *; lia.
    + intros ? [= ->]. lia.
  - unfold key_ltb in E. bool_to_prop. simpl in *. split; [lia|]. intros ? [= ->]. lia.
Qed.

Lemma apply_ok r f : rec_ok r -> fold_ok f -> fold_ok (apply r f).
Proof.
  intros (Hid & Hseq & Hr) [Hids Hlive Hst]. split.
  - intros id st. rewrite apply_lookup. case_decide as D; [|by apply Hids]. destruct D as [<- _].
    case_decide; [|done]. intros [= <-]. split; [done|]. split.
    + apply merge_entry_id. intros st Est. by apply Hids.
    + destruct (merge_entry_seq (fd_statements f !! j_id r) r) as [-> _].
      destruct (fd_statements f !! j_id r) as [st|] eqn:E; [by apply Hids|done].
  - rewrite apply_tombstoned. intros [[Hk Hi]|?]; [|done]. by destruct (proj1 (Hr Hi)).
  - intros st. rewrite apply_lookup. case_decide as D; [|by apply Hst]. destruct D as [Hi _].
    case_decide; [|done]. intros [= <-]. destruct (Hr Hi) as (_ & Hq & Hm & s & Hs & Ht).
    destruct (merge_entry_seq (fd_statements f !! fo_id o) r) as [-> ->].
    destruct (fd_statements f !! fo_id o) as [st|] eqn:E; simpl; [|by rewrite Hs].
    destruct (Hst _ eq_refl) as (? & ? & Hterm). split_and!; [done..|].
    case_match; simpl; [done|]. rewrite Hs. exact Ht.
Qed.

Lemma apply_has r f : fold_ok f -> fold_has f -> rec_ok r -> fold_has (apply r f).
Proof.
  intros Hf (st & E & HL) (_ & _ & Hr). unfold fold_has. rewrite apply_lookup. case_decide as D; [|by exists st].
  destruct D as [Hi _]. rewrite decide_True by (by apply Hr). eexists. split; [done|]. rewrite E.
  destruct (merge_entry_last (Some st) r) as [_ Hm]. specialize (Hm _ eq_refl). lia.
Qed.

Lemma apply_gets r f : fold_ok f -> rec_ok r -> tells r -> fold_has (apply r f).
Proof.
  intros Hf (_ & _ & Hr) [Hi HL]. unfold fold_has. rewrite apply_lookup, decide_True.
  2: { split; [done|]. rewrite Hi. apply Hf. }
  rewrite decide_True by (by apply Hr). eexists. split; [done|].
  destruct (merge_entry_last (fd_statements f !! fo_id o) r). lia.
Qed.

Lemma fold_into_ok f l : fold_ok f -> Forall rec_ok l -> fold_ok (fold_into f l).
Proof.
  intros Hf Hl. revert f Hf. induction Hl as [|r l Hr Hl IH]; intros f Hf; [done|]. simpl. by apply IH, apply_ok.
Qed.

Lemma fold_into_keeps f l : fold_ok f -> fold_has f -> Forall rec_ok l -> fold_has (fold_into f l).
Proof.
  intros Hf Hh Hl. revert f Hf Hh. induction Hl as [|r l Hr Hl IH]; intros f Hf Hh; [done|]. simpl.
  apply IH; [by apply apply_ok|by apply apply_has].
Qed.

Lemma fold_into_gets f l r : fold_ok f -> Forall rec_ok l -> r ∈ l -> tells r -> fold_has (fold_into f l).
Proof.
  intros Hf Hl Hin Ht. apply list_elem_of_split in Hin as (l1 & l2 & ->).
  apply Forall_app in Hl as [H1 [Hr H2]%Forall_cons]. rewrite fold_into_app. simpl.
  apply fold_into_keeps; [apply apply_ok; [done|]|apply apply_gets; [|done..]|done]; by apply fold_into_ok.
Qed.

Lemma fold_ok_size f : fold_ok f -> (size (fd_statements f) <= size ids)%nat.
Proof.
  intros Hf. rewrite <-size_dom. apply subseteq_size. intros id [st E]%elem_of_dom. by destruct (fk_ids _ Hf _ _ E).
Qed.

End Following.

(** ** Reading a directory without faults *)

Definition quiet (w : World) : Prop := w_script w = [].

Lemma plain_quiet c eff w : quiet w -> plain c eff w = (Done tt, set_fs (eff (w_fs w)) w).
Proof. unfold quiet, plain, fs_call. by intros ->. Qed.

Lemma elem_of_indexed_files dd prefix d i name :
  (i, name) ∈ indexed_files dd prefix d <-> is_Some (d !! (dd, name)) /\ parse_index name prefix = Some i.
Proof.
  unfold indexed_files. rewrite merge_sort_Permutation, list_elem_of_omap. split.
  - intros ([[dd' n] c] & Hin%elem_of_map_to_list & E). case_decide; [|done]. subst.
    destruct (parse_index n prefix) as [j|] eqn:Ej; [|done]. simpl in E. injection E as -> ->. by split; [eexists|].
  - intros [[c Hc] Hi]. exists ((dd, name), c). rewrite elem_of_map_to_list, decide_True by done. by rewrite Hi.
Qed.

Lemma indexed_files_nodup dd prefix d : NoDup (indexed_files dd prefix d).*2.
Proof.
  unfold indexed_files. rewrite merge_sort_Permutation. pose proof (NoDup_fst_map_to_list d) as Hnd.
  induction (map_to_list d) as [|[[dd' n] c] l IH]; simpl; [constructor|].
  apply NoDup_cons in Hnd as [Hn Hnd]. case_decide as D; [|by apply IH]. subst dd'.
  destruct (parse_index n prefix) as [j|] eqn:Ej; simpl; [|by apply IH]. apply NoDup_cons. split; [|by apply IH].
  intros ([i n'] & Hs & Hin)%list_elem_of_fmap. simpl in Hs. subst n'. apply list_elem_of_omap in Hin as ([[dd' n'] c'] & Hin & E).
  case_decide; [|done]. subst. destruct (parse_index n' prefix); [|done]. simpl in E. injection E as _ ->.
  apply Hn. apply list_elem_of_fmap. by exists ((dd, n), c').
Qed.

(** The journal files of a directory, in the order replay reads them. *)
Definition replay_paths (d : disk) : list path :=
  ((fun x => (Statements, x.2)) <$> reverse (segments d)) ++ ((fun x => (Compacted, x.2)) <$> reverse (generations d)).

Lemma elem_of_replay_paths d p : p ∈ replay_paths d <-> is_journal p /\ is_Some (d !! p).
Proof.
  unfold replay_paths, is_journal, journal_index. rewrite elem_of_app, !list_elem_of_fmap.
  setoid_rewrite elem_of_reverse. destruct p as [[] n]; simpl; split.
  - intros [([i n'] & [= ->] & Hin%elem_of_indexed_files)|(x & [=] & _)]. destruct Hin as [? ?]. by split; [eexists|].
  - intros [[i Hi] Hs]. left. exists (i, n). split; [done|]. by apply elem_of_indexed_files.
  - intros [(x & [=] & _)|([i n'] & [= ->] & Hin%elem_of_indexed_files)]. destruct Hin as [? ?]. by split; [eexists|].
  - intros [[i Hi] Hs]. right. exists (i, n). split; [done|]. by apply elem_of_indexed_files.
Qed.

Lemma replay_paths_nodup d : NoDup (replay_paths d).
Proof.
  assert (Hdd : forall (dd : dir) (l : list (Z * str)), NoDup l.*2 -> NoDup ((fun x : Z * str => (dd, x.2) : path) <$> reverse l)).
  { intros dd l Hl. apply (NoDup_fmap_1 snd). rewrite <-list_fmap_compose. change (NoDup (reverse l).*2).
    by rewrite reverse_Permutation. }
  apply NoDup_app. split_and!; [apply Hdd, indexed_files_nodup| |apply Hdd, indexed_files_nodup].
  intros p (x & -> & _)%list_elem_of_fmap (y & [=] & _)%list_elem_of_fmap.
Qed.

Lemma digits_not_jsonl s n : 0 <= n -> ~ jsonl (s ++ show_u n).
Proof.
  intros Hn (a & E). pose proof (show_u_nonempty n) as Hne. pose proof (app_removelast_last 0 Hne) as El.
  rewrite El, app_assoc in E. change (lit ".jsonl") with (lit ".json" ++ [108]) in E. rewrite !app_assoc in E.
  apply suffix_last in E. apply (show_u_no_char n 108); [done|lia|]. rewrite El, E. set_solver.
Qed.

Lemma quarantine_from_name fuel n d p base : 0 <= n ->
  (quarantine_from fuel n d p base).2 = base
  \/ exists m, 0 <= m /\ (quarantine_from fuel n d p base).2 = base ++ lit "." ++ show_u m.
Proof.
  revert n. induction fuel as [|fuel IH]; intros n Hn; simpl; [by left|]. case_match.
  - apply IH. lia.
  - right. exists n. split; [done|]. unfold fmt. simpl. by rewrite app_nil_r.
Qed.

Lemma quarantine_not_journal d p : ~ is_journal (quarantine_path d p).
Proof.
  intros Hj%journal_jsonl. unfold quarantine_path in Hj.
  assert (Hb : ~ jsonl (p.2 ++ lit ".corrupt")) by (apply (not_jsonl p.2 (lit ".corrup") 116); done).
  destruct (d !! _); [|done].
  destruct (quarantine_from_name 998 2 d p (p.2 ++ lit ".corrupt") ltac:(lia)) as [E|(m & Hm & E)];
    rewrite E in Hj; [done|]. rewrite app_assoc in Hj. by apply digits_not_jsonl in Hj.
Qed.

Section Opening.
Context `{Chrono, JournalCodecLaws} (cfg : HistoryConfig).

Definition content (d : disk) (p : path) : list Z := default [] (d !! p).

(** Reading a file folds its records; it disturbs no journal file but itself. *)
Lemma read_into_quiet p f w c :
  quiet w -> cur (w_fs w) !! p = Some c ->
  exists w', read_into p f w = (Done (fold_into f (file_records c).2), w') /\ quiet w'
    /\ forall q, is_journal q -> q <> p -> cur (w_fs w') !! q = cur (w_fs w) !! q.
Proof.
  intros Hq Hc. unfold read_into, fs_read, mbind, try_. rewrite plain_quiet by done. simpl. rewrite Hc. simpl.
  rewrite read_lines_parse. fold (file_records c).
  destruct (file_records c) as [[] rs] eqn:E; simpl; [|by exists (set_fs (w_fs w) w)].
  unfold mbind, try_, fs_rename, if_present, mbind, get. simpl. rewrite Hc. rewrite plain_quiet by done.
  unfold fsync_dir, mbind, try_. rewrite plain_quiet by done. simpl.
  eexists. split; [done|]. split; [done|]. intros q Hj Hne. simpl. unfold move. rewrite Hc.
  rewrite lookup_insert_ne, lookup_delete_ne; [done|congruence|].
  intros <-. by apply (quarantine_not_journal (cur (w_fs w)) p).
Qed.

Definition journal_records (d : disk) (files : list path) : list JournalRecord :=
  files ≫= (fun p => (file_records (content d p)).2).

Lemma elem_of_journal_records d files r :
  r ∈ journal_records d files <-> exists p, p ∈ files /\ r ∈ (file_records (content d p)).2.
Proof. unfold journal_records. rewrite list_elem_of_bind. naive_solver. Qed.

Lemma replay_files_quiet o ids files f w d :
  quiet w -> NoDup files -> Forall is_journal files ->
  (forall p, p ∈ files -> exists c, cur (w_fs w) !! p = Some c /\ d !! p = Some c) ->
  fold_ok o ids f -> Forall (rec_ok o ids) (journal_records d files) ->
  Z.of_nat (size ids) < max_records cfg ->
  exists w', replay_files cfg files f w = (Done (fold_into f (journal_records d files)), w') /\ quiet w'.
Proof.
  intros Hq Hnd Hj Hc Hf Hr Hmax. revert f w Hq Hc Hf Hr.
  induction files as [|p files IH]; intros f w Hq Hc Hf Hr; [by exists w|].
  apply NoDup_cons in Hnd as [Hp Hnd]. apply Forall_cons in Hj as [Hjp Hj].
  simpl replay_files. pose proof (fold_ok_size _ _ _ Hf).
  replace (max_records cfg <=? Z.of_nat (size (fd_statements f))) with false by (symmetry; apply Z.leb_gt; lia).
  destruct (Hc p ltac:(left)) as (c & Hcp & Hdp).
  destruct (read_into_quiet p f w c Hq Hcp) as (w1 & E & Hq1 & Hsame). unfold mbind. rewrite E.
  change (journal_records d (p :: files)) with ((file_records (content d p)).2 ++ journal_records d files) in *.
  assert (Hcd : content d p = c) by (unfold content; by rewrite Hdp). rewrite Hcd in *.
  apply Forall_app in Hr as [Hr1 Hr2]. unfold fold_into at 2. rewrite foldl_app. apply (IH Hnd Hj).
  - done.
  - intros q Hqf. destruct (Hc q ltac:(by right)) as (c' & ? & ?). exists c'. split; [|done]. rewrite Hsame; [done| |].
    + by eapply Forall_forall in Hj.
    + by intros ->.
  - by apply fold_into_ok.
  - done.
Qed.

Lemma unlink_ignored_quiet p w : quiet w ->
  exists w', unlink_ignored p w = (Done tt, w') /\ quiet w'
    /\ forall q, cur (w_fs w') !! q = if decide (q = p) then None else cur (w_fs w) !! q.
Proof.
  intros Hq. unfold unlink_ignored, fs_unlink, if_present, try_, mbind, get. simpl.
  destruct (cur (w_fs w) !! p) as [c|] eqn:E; rewrite plain_quiet by done; simpl; eexists; (split; [done|]); (split; [done|]);
    intros q; simpl; case_decide; subst; try done; [by rewrite lookup_delete_eq|by rewrite lookup_delete_ne].
Qed.

Lemma unlink_all_quiet ps w : quiet w ->
  exists w', unlink_all ps w = (Done tt, w') /\ quiet w'
    /\ forall q, cur (w_fs w') !! q = if decide (q ∈ ps) then None else cur (w_fs w) !! q.
Proof.
  revert w. induction ps as [|p ps IH]; intros w Hq.
  { exists w. split_and!; [done..|]. intros q. rewrite decide_False by apply not_elem_of_nil. done. }
  simpl. unfold mbind. destruct (unlink_ignored_quiet p w Hq) as (w1 & -> & Hq1 & L1).
  destruct (IH w1 Hq1) as (w2 & -> & Hq2 & L2). exists w2. split_and!; [done..|].
  intros q. rewrite L2, L1. repeat case_decide; set_solver.
Qed.

Lemma fsync_dir_quiet dd w : quiet w ->
  exists w', fsync_dir dd w = (Done tt, w') /\ quiet w' /\ cur (w_fs w') = cur (w_fs w).
Proof.
  intros Hq. unfold fsync_dir, try_, mbind. rewrite plain_quiet by done. by eexists.
Qed.

(** Recovery takes away only what no longer counts. *)
Definition recovered_from (d : disk) (w : World) : Prop :=
  quiet w /\ (forall p c, cur (w_fs w) !! p = Some c -> d !! p = Some c)
  /\ (forall p, is_journal p -> ~ marks d p -> cur (w_fs w) !! p = d !! p).

Lemma recover_marker_quiet d name w : ends_with name (lit ".done") = true -> recovered_from d w ->
  exists w', recover_marker name w = (Done tt, w') /\ recovered_from d w'.
Proof.
  intros Hn (Hq & Hsub & Hkeep). unfold recover_marker, mbind, try_ at 1, fs_read, mbind.
  rewrite plain_quiet by done. simpl.
  assert (Hmid : exists w1, (match match cur (w_fs w) !! (Compacted, name) with Some c => ret c | None => throw io_error end
       (set_fs (w_fs w) w) with
     | (Done a, s') => (Done (Ok a), s') | (Effects.Failed e, s') => (Done (Err e), s') | (Crashed, s') => (Crashed, s') end)
     = (Done w1, set_fs (w_fs w) w) /\ (forall b, w1 = Ok b -> cur (w_fs w) !! (Compacted, name) = Some b)).
  { destruct (cur (w_fs w) !! (Compacted, name)); eexists; split; try done; by intros ? [= ->]. }
  destruct Hmid as (r & -> & Hr).
  assert (Hun : exists w2, (match r with Ok body => match marker_inputs body with Some ps => unlink_all ps | None => ret tt end
      | Err _ => ret tt end) (set_fs (w_fs w) w) = (Done tt, w2) /\ recovered_from d w2).
  { destruct r as [body|]; [|by exists (set_fs (w_fs w) w)].
    destruct (marker_inputs body) as [ps|] eqn:Em; [|by exists (set_fs (w_fs w) w)].
    destruct (unlink_all_quiet ps (set_fs (w_fs w) w) Hq) as (w2 & -> & Hq2 & L2). exists w2. split; [done|].
    split; [done|]. split.
    - intros p c. rewrite L2. case_decide; [done|]. apply Hsub.
    - intros p Hj Hm. rewrite L2. case_decide as Hin; [|by apply Hkeep].
      destruct Hm. exists name, body, ps. split_and!; try done. apply Hsub. by apply Hr. }
  destruct Hun as (w2 & -> & Hq2 & Hsub2 & Hkeep2).
  destruct (fsync_dir_quiet Statements w2 Hq2) as (w3 & -> & Hq3 & E3).
  destruct (fsync_dir_quiet Compacted w3 Hq3) as (w4 & -> & Hq4 & E4).
  destruct (unlink_ignored_quiet (Compacted, name) w4 Hq4) as (w5 & -> & Hq5 & E5).
  destruct (fsync_dir_quiet Compacted w5 Hq5) as (w6 & -> & Hq6 & E6). exists w6. split; [done|].
  split; [done|]. rewrite E6. split; intros p.
  - intros c. rewrite E5, E4, E3. case_decide; [done|]. apply Hsub2.
  - intros Hj Hm. rewrite E5, E4, E3. case_decide as Hp; [|by apply Hkeep2]. subst p.
    exfalso. by eapply done_suffix_not_journal.
Qed.

Lemma recover_markers_quiet d names w : Forall (fun n => ends_with n (lit ".done") = true) names -> recovered_from d w ->
  exists w', recover_markers names w = (Done tt, w') /\ recovered_from d w'.
Proof.
  intros Hn. revert w. induction Hn as [|n names Hn _ IH]; intros w Hw; [by exists w|]. simpl. unfold mbind.
  destruct (recover_marker_quiet d n w Hn Hw) as (w1 & -> & Hw1). by apply IH.
Qed.

Lemma recover_swap_quiet w : quiet w ->
  exists w', recover_swap w = (Done tt, w') /\ recovered_from (cur (w_fs w)) w'.
Proof.
  intros Hq. unfold recover_swap, mbind, try_, fs_read_dir, mbind. rewrite plain_quiet by done. simpl.
  set (names := compacted_names (cur (w_fs w))).
  destruct (unlink_all_quiet ((fun n => (Compacted, n)) <$> filter (fun n => ends_with n (lit ".tmp") = true) names)
    (set_fs (w_fs w) w) Hq) as (w1 & -> & Hq1 & L1).
  apply recover_markers_quiet.
  - apply Forall_forall. by intros n [[_ ?] _]%list_elem_of_filter.
  - split; [done|]. split.
    + intros p c. rewrite L1. by case_decide.
    + intros p Hj _. rewrite L1. case_decide as D; [|done]. exfalso.
      apply list_elem_of_fmap in D as (n & -> & [Hn _]%list_elem_of_filter). by eapply tmp_suffix_not_journal.
Qed.

Lemma list_segments_quiet w : quiet w -> list_segments w = (Done (segments (cur (w_fs w))), w).
Proof.
  intros Hq. unfold list_segments, mbind, try_, fs_read_dir, mbind. rewrite plain_quiet by done. by destruct w.
Qed.

Lemma list_generations_quiet w : quiet w -> list_generations w = (Done (generations (cur (w_fs w))), w).
Proof.
  intros Hq. unfold list_generations, mbind, try_, fs_read_dir, mbind. rewrite plain_quiet by done. by destruct w.
Qed.

Lemma journal_open_quiet o ids w :
  quiet w -> Forall (rec_ok o ids) (journal_records (cur (w_fs w)) (replay_paths (cur (w_fs w)))) ->
  Z.of_nat (size ids) < max_records cfg ->
  exists d' seq w', journal_open cfg w = (Done (seq, fold_records (journal_records d' (replay_paths d'))), w')
    /\ (forall p c, d' !! p = Some c -> cur (w_fs w) !! p = Some c)
    /\ (forall p, is_journal p -> ~ marks (cur (w_fs w)) p -> d' !! p = cur (w_fs w) !! p).
Proof.
  intros Hq Hr Hmax. set (d := cur (w_fs w)) in *. unfold journal_open, mbind.
  destruct (recover_swap_quiet w Hq) as (w1 & -> & Hq1 & Hsub & Hkeep). fold d in Hsub, Hkeep.
  set (d' := cur (w_fs w1)) in *. unfold replay, mbind.
  rewrite list_segments_quiet, list_generations_quiet by done. fold d'. fold (replay_paths d').
  destruct (replay_files_quiet o ids (replay_paths d') fold_default w1 d') as (w2 & E & Hq2).
  - done.
  - apply replay_paths_nodup.
  - apply Forall_forall. intros p Hp. by apply elem_of_replay_paths in Hp as [? _].
  - intros p [_ [c Hc]]%elem_of_replay_paths. by exists c.
  - apply fold_ok_default.
  - apply Forall_forall. intros r (p & [Hj [c Hc]]%elem_of_replay_paths & Hin)%elem_of_journal_records.
    rewrite Forall_forall in Hr. apply Hr. apply elem_of_journal_records. exists p.
    unfold content in *. rewrite (Hsub _ _ Hc). rewrite Hc in Hin. split; [|done].
    apply elem_of_replay_paths. split; [done|]. by rewrite (Hsub _ _ Hc).
  - done.
  - rewrite E. rewrite list_segments_quiet by done. simpl.
    eexists d', _, _. by split.
Qed.

(** Opening a directory that holds a finished statement in a file no marker
    names finds the statement, finished. *)
Lemma open_finds o ids w q r :
  quiet w -> Forall (rec_ok o ids) (journal_records (cur (w_fs w)) (replay_paths (cur (w_fs w)))) ->
  Z.of_nat (size ids) < max_records cfg ->
  is_journal q -> ~ marks (cur (w_fs w)) q -> is_Some (cur (w_fs w) !! q) ->
  r ∈ (file_records (content (cur (w_fs w)) q)).2 -> tells o r ->
  exists seq f w' st, journal_open cfg w = (Done (seq, f), w') /\ fd_statements f !! fo_id o = Some st
    /\ fo_last o <= f_last_seq st /\ is_terminal (f_status st) = true.
Proof.
  intros Hq Hr Hmax Hj Hm Hs Hin Ht.
  destruct (journal_open_quiet o ids w Hq Hr Hmax) as (d' & seq & w' & E & Hsub & Hkeep).
  assert (Hr' : Forall (rec_ok o ids) (journal_records d' (replay_paths d'))).
  { apply Forall_forall. intros x (p & [Hjp [c Hc]]%elem_of_replay_paths & Hx)%elem_of_journal_records.
    rewrite Forall_forall in Hr. apply Hr, elem_of_journal_records. exists p. unfold content in *.
    rewrite (Hsub _ _ Hc). rewrite Hc in Hx. split; [|done]. apply elem_of_replay_paths. by rewrite (Hsub _ _ Hc). }
  assert (Hhas : fold_has o (fold_records (journal_records d' (replay_paths d')))).
  { eapply fold_into_gets; [apply (fold_ok_default o ids)|exact Hr'| |exact Ht].
    apply elem_of_journal_records. exists q. unfold content in *. rewrite (Hkeep q Hj Hm). split; [|done].
    apply elem_of_replay_paths. by rewrite (Hkeep q Hj Hm). }
  destruct Hhas as (st & Est & HLst). eexists _, _, _, st. split; [exact E|]. split_and!; [done|done|].
  eapply (fk_status o ids); [|exact Est|done]. apply fold_into_ok; [apply fold_ok_default|done].
Qed.

End Opening.
