(* ===== verification/JournalSwap.v ===== *)
(** * JournalSwap: compaction survives a crash anywhere

    The five steps of [compact_sealed] publish one generation in place of its
    inputs.  [swap_triple] says what the disk may hold whatever operation is
    refused or is where the power fails: either every journal file is as it
    was, or the new generation is there in full and only inputs may be gone;
    the markers name only inputs.  [compaction_crash_safe] follows: opening
    such a disk gives every statement the compaction kept as before. *)

From S2P Require Import Prelude Text Effects HistoryRecord Journal JournalDisk.

#[local] Arguments lit : simpl never.

(** ** Faults

    Reading a directory or a file and syncing a directory work or the process
    dies; every other operation may fail in any way. *)
Definition works (f : FsFault) : Prop := f = Fine \/ f = Killed.
Definition sane (ev : FsCall -> FsFault) : Prop := works (ev ReadDir) /\ works (ev OpenRead) /\ works (ev SyncDir).

Definition rest_of (w : World) : Writer * bool * Z * list JournalRecord :=
  (w_writer w, w_degraded w, w_write_failures w, w_acked w).

Definition at_ (ok_ev : (FsCall -> FsFault) -> Prop) rest (I : Fs -> Prop) (w : World) : Prop :=
  Forall ok_ev (w_script w) /\ rest_of w = rest /\ poss (w_fs w) (cur (w_fs w)) /\ I (w_fs w).

(** Every operation leaves what the process sees among what the disk may hold:
    a killed process is one of the crashes. *)
Class KeepsCur (eff : Fs -> Fs) : Prop := keeps_cur s : poss s (cur s) -> poss (eff s) (cur (eff s)).
#[export] Instance keeps_id : KeepsCur (fun s => s).
Proof. by intros s. Qed.
#[export] Instance keeps_create p : KeepsCur (create_eff p).
Proof. intros s Hs. right. by exists (cur s). Qed.
#[export] Instance keeps_open_append p : KeepsCur (open_append_eff p).
Proof. intros s Hs. unfold open_append_eff. case_match; [done|by apply keeps_create]. Qed.
#[export] Instance keeps_write p bs : KeepsCur (write_eff p bs).
Proof. intros s Hs. right. exists (cur s), (length bs). by rewrite firstn_all. Qed.
#[export] Instance keeps_sync p : KeepsCur (sync_eff p).
Proof. intros s Hs. split; [done|by right]. Qed.
#[export] Instance keeps_rename p q : KeepsCur (rename_eff p q).
Proof. intros s Hs. right. by exists (cur s). Qed.
#[export] Instance keeps_unlink p : KeepsCur (unlink_eff p).
Proof. intros s Hs. right. by exists (cur s). Qed.
#[export] Instance keeps_sync_dir dd : KeepsCur (sync_dir_eff dd).
Proof. intros s Hs. by split. Qed.

Section Calls.
Context (ok_ev : (FsCall -> FsFault) -> Prop) (Hok : forall ev, ok_ev ev -> sane ev).
#[local] Abbreviation at_ := (at_ ok_ev).

Lemma at_weaken rest (I Q : Fs -> Prop) w : (forall s, I s -> Q s) -> at_ rest I w -> at_ rest Q w.
Proof. intros HIQ (? & ? & ? & ?). split_and!; auto. Qed.

Lemma fs_call_triple c eff short `{!KeepsCur eff} `{!forall k, KeepsCur (short k)} rest (I Q E : Fs -> Prop) :
  (forall s, I s -> Q (eff s)) -> (forall s, I s -> E s) -> (forall k s, I s -> E (short k s)) ->
  triple (at_ rest I) (fs_call c eff short) (fun _ => at_ rest Q) (fun _ => at_ rest E) (at_ rest E).
Proof.
  intros HQ HE HS w (Hsc & Hr & Hc & HI). unfold fs_call. destruct (w_script w) as [|ev sc] eqn:Es.
  { split_and!; [simpl; by rewrite Es|done|exact (KeepsCur0 _ Hc)|by apply HQ]. }
  apply Forall_cons in Hsc as [_ Hsc].
  destruct (ev c); (split_and!; [done|done|simpl; first [exact Hc|exact (KeepsCur0 _ Hc)|apply keeps_cur; exact Hc]|simpl; auto]).
Qed.

Lemma plain_triple c eff `{!KeepsCur eff} rest (I Q E : Fs -> Prop) :
  (forall s, I s -> Q (eff s)) -> (forall s, I s -> E s) ->
  triple (at_ rest I) (plain c eff) (fun _ => at_ rest Q) (fun _ => at_ rest E) (at_ rest E).
Proof. intros. apply fs_call_triple; try done. intros k. apply keeps_id. Qed.

(** An operation that [sane] events do not refuse. *)
Lemma sure_triple c eff `{!KeepsCur eff} rest (I Q E : Fs -> Prop) F :
  (forall ev, sane ev -> works (ev c)) -> (forall s, I s -> Q (eff s)) -> (forall s, I s -> E s) ->
  triple (at_ rest I) (plain c eff) (fun _ => at_ rest Q) F (at_ rest E).
Proof.
  intros Hc HQ HE w (Hsc & Hr & Hk & HI). unfold plain, fs_call. destruct (w_script w) as [|ev sc] eqn:Es.
  { split_and!; [simpl; by rewrite Es|done|exact (KeepsCur0 _ Hk)|by apply HQ]. }
  apply Forall_cons in Hsc as [Hev Hsc].
  destruct (Hc ev (Hok _ Hev)) as [-> | ->]; (split_and!; [done|done|simpl; first [exact Hk|exact (KeepsCur0 _ Hk)]|simpl; auto]).
Qed.

Lemma fsync_dir_triple dd rest (I Q E : Fs -> Prop) F :
  (forall s, I s -> Q (sync_dir_eff dd s)) -> (forall s, I s -> E s) ->
  triple (at_ rest I) (fsync_dir dd) (fun _ => at_ rest Q) F (at_ rest E).
Proof.
  intros HQ HE. eapply triple_bind; [|intros a; apply triple_ret; intros s Hs; exact Hs].
  apply (triple_try _ _ (fun _ => at_ rest Q)). apply (sure_triple SyncDir (sync_dir_eff dd) rest I Q E); [|done|done]. by intros ev (_ & _ & ?).
Qed.

Lemma fs_unlink_ignored_triple p rest (I E : Fs -> Prop) F :
  (forall s, I s -> I (unlink_eff p s)) -> (forall s, I s -> E s) ->
  triple (at_ rest I) (unlink_ignored p) (fun _ => at_ rest I) F (at_ rest E).
Proof.
  intros HI HE. unfold unlink_ignored. eapply triple_bind; [|intros a; apply triple_ret; intros s Hs; exact Hs].
  apply (triple_try _ _ (fun _ => at_ rest I)). unfold fs_unlink, if_present.
  eapply (triple_bind _ _ _ (fun _ => at_ rest I)); [apply triple_get; auto|]. intros w. case_match.
  - eapply triple_conseq; [apply (plain_triple UnlinkFile _ rest I I I); auto|auto..].
    intros s. apply at_weaken, HE.
  - eapply triple_bind; [|intros a; apply triple_throw; intros s Hs; exact Hs].
    eapply triple_conseq; [apply (plain_triple UnlinkFile _ rest I I I); auto|auto..].
    intros s. apply at_weaken, HE.
Qed.

Lemma unlink_all_triple ps rest (I E : Fs -> Prop) F :
  (forall p s, p ∈ ps -> I s -> I (unlink_eff p s)) -> (forall s, I s -> E s) ->
  triple (at_ rest I) (unlink_all ps) (fun _ => at_ rest I) F (at_ rest E).
Proof.
  induction ps as [|p ps IH]; intros HI HE; simpl; [apply triple_ret; auto|].
  eapply triple_bind; [apply (fs_unlink_ignored_triple p rest I E); [intros; apply HI; [left|done]|done]|].
  intros ?. apply IH; [intros; apply HI; [by right|done]|done].
Qed.

End Calls.

(** ** The swap *)

Section Swap.
Context `{Chrono, JournalCodecLaws}.
Context (ok_ev : (FsCall -> FsFault) -> Prop) (Hok : forall ev, ok_ev ev -> sane ev).
Context (next_gen : Z) (inputs : list str) (sts : list FoldedStatement).
(** What the disk may hold, and what the process sees, before the swap. *)
Context (B : disk -> Prop) (c0 : disk).

#[local] Abbreviation target := (Compacted, gen_name next_gen).
#[local] Abbreviation tmp := (Compacted, gen_name next_gen ++ lit ".tmp").
#[local] Abbreviation marker := (Compacted, done_name next_gen).
#[local] Abbreviation input_paths := (resolve <$> inputs).

Context (Hinputs : Forall input_name inputs).
(** The names of the new files are free. *)
Context (Hc0 : B c0) (Hfresh : forall d, B d -> d !! target = None /\ d !! marker = None).
Context (Hother : target ∉ input_paths).

(** The published generation. *)
Definition published (d : disk) : Prop := exists c, d !! target = Some c /\ encodes (to_snapshot <$> sts) c.

Definition untouched (d0 d : disk) : Prop :=
  (forall p, is_journal p -> d !! p = d0 !! p) /\ (forall p, marks d p -> marks d0 p)
  /\ forall k, d !! (Compacted, done_name k) = d0 !! (Compacted, done_name k).

Definition replaced (d0 d : disk) : Prop :=
  published d
  /\ (forall p, is_journal p -> p <> target -> d !! p = d0 !! p \/ (p ∈ input_paths /\ d !! p = None))
  /\ (forall p, marks d p -> marks d0 p \/ p ∈ input_paths)
  /\ forall k, done_name k <> done_name next_gen ->
       d !! (Compacted, done_name k) = d0 !! (Compacted, done_name k) \/ d !! (Compacted, done_name k) = None.

Definition every (R : disk -> disk -> Prop) (s : Fs) : Prop :=
  R c0 (cur s) /\ forall d, poss s d -> exists d0, B d0 /\ R d0 d.
Definition mixed (s : Fs) : Prop :=
  forall d, poss s d -> exists d0, B d0 /\ (untouched d0 d \/ replaced d0 d).

Lemma name_last_ne (a b : str) (x y : Z) : x <> y -> (Compacted, a ++ [x]) <> (Compacted, b ++ [y]).
Proof. intros Hxy [= E]. by apply suffix_last in E. Qed.

Lemma gen_last : exists a, gen_name next_gen = a ++ [108].
Proof. exists (lit "gen-" ++ show_pad 6 next_gen ++ lit ".json"). unfold gen_name, fmt. simpl. by rewrite <-!app_assoc. Qed.
Lemma done_last k : exists a, done_name k = a ++ [101].
Proof. exists (lit "gen-" ++ show_pad 6 k ++ lit ".don"). unfold done_name, fmt. simpl. by rewrite <-!app_assoc. Qed.
Lemma tmp_last : exists a, gen_name next_gen ++ lit ".tmp" = a ++ [112].
Proof. exists (gen_name next_gen ++ lit ".tm"). by rewrite <-!app_assoc. Qed.

#[local] Opaque gen_name done_name.

Lemma target_tmp : target <> tmp.
Proof. destruct tmp_last as [a ->], gen_last as [b ->]. by apply name_last_ne. Qed.
Lemma done_target k : (Compacted, done_name k) <> target.
Proof. destruct gen_last as [a ->], (done_last k) as [b ->]. by apply name_last_ne. Qed.
Lemma done_tmp k : (Compacted, done_name k) <> tmp.
Proof. destruct tmp_last as [a ->], (done_last k) as [b ->]. by apply name_last_ne. Qed.
Lemma marker_target : marker <> target.
Proof. apply done_target. Qed.
Lemma marker_tmp : marker <> tmp.
Proof. apply done_tmp. Qed.

Lemma not_done (name : str) (x : Z) : x <> 101 -> (exists a, name = a ++ [x]) -> ends_with name (lit ".done") <> true.
Proof.
  intros Hx [a ->] (b & E)%ends_with_shape. change (lit ".done") with (lit ".don" ++ [101]) in E.
  rewrite app_assoc in E. by apply suffix_last in E.
Qed.

(** ** Up to the rename *)

(** The temporary file is all that changed. *)
Definition off_tmp (d0 d : disk) : Prop := forall p, p <> tmp -> d !! p = d0 !! p.

Lemma off_tmp_untouched d0 d : off_tmp d0 d -> untouched d0 d.
Proof.
  intros Ho. split; [|split; [|intros k; apply Ho, done_tmp]].
  - intros p Hj. apply Ho. intros ->. by apply tmp_not_journal in Hj.
  - intros p (name & body & ps & Hn & Hb & Hrest). exists name, body, ps. split_and!; [done| |by apply Hrest..].
    rewrite <-Hb. symmetry. apply Ho. intros [= ->]. revert Hn. apply (not_done _ 112); [done|apply tmp_last].
Qed.

Definition writing (rs : list JournalRecord) (s : Fs) : Prop :=
  (exists c, encodes rs c /\ cur s !! tmp = Some c) /\ every off_tmp s.

Lemma every_untouched s : every off_tmp s -> every untouched s.
Proof.
  intros [Hc Hp]. split; [by apply off_tmp_untouched|]. intros d Hd. destruct (Hp d Hd) as (d0 & ? & ?).
  exists d0. split; [done|]. by apply off_tmp_untouched.
Qed.

Lemma untouched_mixed s : every untouched s -> mixed s.
Proof. intros [_ Hp] d Hd. destruct (Hp d Hd) as (d0 & ? & ?). exists d0. auto. Qed.

Lemma off_tmp_insert d0 d c : off_tmp d0 d -> off_tmp d0 (<[tmp := c]> d).
Proof. intros Ho p Hp. rewrite lookup_insert_ne by done. by apply Ho. Qed.

Lemma off_tmp_alter d0 d g : off_tmp d0 d -> off_tmp d0 (alter g tmp d).
Proof. intros Ho p Hp. rewrite lookup_alter_ne by done. by apply Ho. Qed.

Lemma create_tmp s : every off_tmp s -> writing [] (create_eff tmp s).
Proof.
  intros [Hc Hp]. split; [exists []; split; [constructor|simpl; by rewrite lookup_insert_eq]|].
  split; [by apply off_tmp_insert|]. intros d [Hd|(d1 & Hd & ->)]; destruct (Hp _ Hd) as (d0 & ? & ?); exists d0; split; auto.
  by apply off_tmp_insert.
Qed.

Lemma write_tmp_off bs s : every off_tmp s -> every off_tmp (write_eff tmp bs s).
Proof.
  intros [Hc Hp]. split; [by apply off_tmp_alter|]. intros d [Hd|(d1 & k & Hd & _ & ->)]; [by apply Hp|].
  destruct (Hp _ Hd) as (d0 & ? & ?). exists d0. split; [done|]. by apply off_tmp_alter.
Qed.

Lemma write_tmp rs r line s : record_line r = Some line -> writing rs s -> writing (rs ++ [r]) (write_eff tmp line s).
Proof.
  intros Hl [(c & He & Hc) Ho]. split; [|by apply write_tmp_off]. exists (c ++ line). split; [by econstructor|].
  simpl. by rewrite lookup_alter_eq, Hc.
Qed.

Lemma write_snapshots_triple rest : forall rs todo,
  triple (at_ ok_ev rest (writing rs)) (write_snapshots tmp todo)
    (fun _ => at_ ok_ev rest (writing (rs ++ (to_snapshot <$> todo))))
    (fun _ => at_ ok_ev rest (every untouched)) (at_ ok_ev rest mixed).
Proof.
  intros rs todo. revert rs. induction todo as [|st todo IH]; intros rs; simpl.
  { apply triple_ret. intros w. by rewrite app_nil_r. }
  destruct (record_line (to_snapshot st)) as [line|] eqn:Hline.
  2: { apply triple_throw. intros w. apply at_weaken. intros s' [_ ?]. by apply every_untouched. }
  eapply triple_bind.
  - eapply triple_conseq; [apply (fs_call_triple ok_ev WriteFile _ _ rest (writing rs) (writing (rs ++ [to_snapshot st])) (every off_tmp))|..].
    + intros s. by apply write_tmp.
    + intros s [_ ?]. done.
    + intros k s [_ ?]. by apply write_tmp_off.
    + auto.
    + intros a s Hs. exact Hs.
    + intros e s. apply at_weaken, every_untouched.
    + intros s. apply at_weaken. intros s' Hs'. by apply untouched_mixed, every_untouched.
  - intros a. eapply triple_conseq; [apply (IH (rs ++ [to_snapshot st]))|auto| |auto|auto].
    intros b w. by rewrite <-app_assoc.
Qed.

(** ** Publishing *)

(** The temporary file is in full wherever its name is known. *)
Definition staged (c : list Z) (s : Fs) : Prop :=
  cur s !! tmp = Some c /\ off_tmp c0 (cur s)
  /\ forall d, poss s d -> (d !! tmp = None \/ d !! tmp = Some c) /\ exists d0, B d0 /\ off_tmp d0 d.

Lemma staged_off c s : staged c s -> every off_tmp s.
Proof. intros (_ & Hc & Hp). split; [done|]. intros d Hd. by apply Hp. Qed.

Lemma sync_tmp rs s : writing rs s -> exists c, encodes rs c /\ staged c (sync_eff tmp s).
Proof.
  intros [(c & He & Hc) [Ho Hp]]. exists c. split; [done|]. split; [done|]. split; [done|].
  intros d [Hd Hdt]. split; [simpl in Hdt; rewrite Hc in Hdt; done|]. by apply Hp.
Qed.

(** The generation is in place, and off it and the marker nothing changed but
    that inputs may be gone. *)
Definition in_place (gone : list path) (c : list Z) (d0 d : disk) : Prop :=
  d !! target = Some c
  /\ (forall p, p <> tmp -> p <> target -> p <> marker -> d !! p = d0 !! p \/ (p ∈ gone /\ d !! p = None)).

(** Just renamed: the disk may still show the temporary file. *)
Definition renamed (c : list Z) (s : Fs) : Prop :=
  in_place [] c c0 (cur s) /\ cur s !! marker = c0 !! marker
  /\ forall d, poss s d -> exists d0, B d0 /\ (off_tmp d0 d \/ in_place [] c d0 d /\ d !! marker = d0 !! marker).

Lemma move_in_place c d0 d : d !! tmp = Some c -> off_tmp d0 d ->
  in_place [] c d0 (move tmp target d) /\ move tmp target d !! marker = d0 !! marker.
Proof.
  intros Ht Ho. unfold move. rewrite Ht. split; [split; [by rewrite lookup_insert_eq|]|].
  - intros p H1' H2' H3'. left. rewrite lookup_insert_ne, lookup_delete_ne by done. by apply Ho.
  - rewrite lookup_insert_ne by apply not_eq_sym, marker_target.
    rewrite lookup_delete_ne by apply not_eq_sym, marker_tmp. apply Ho, marker_tmp.
Qed.

Lemma rename_tmp c s : staged c s -> renamed c (rename_eff tmp target s).
Proof.
  intros (Ht & Hc & Hp). destruct (move_in_place c c0 (cur s) Ht Hc). split; [done|]. split; [done|].
  intros d [Hd|(d1 & Hd & ->)]; destruct (Hp _ Hd) as (Htmp & d0 & Hb & Ho); exists d0; (split; [done|]).
  - by left.
  - destruct Htmp as [E|E]; [left; unfold move; by rewrite E|right]. by apply move_in_place.
Qed.

(** Once the directory is synced the generation is there for good; [part] is
    what the marker may hold. *)
Definition good (gone : list path) (c : list Z) (part : list Z -> Prop) (d0 d : disk) : Prop :=
  in_place gone c d0 d /\ (d !! marker = None \/ exists body, d !! marker = Some body /\ part body).

Lemma sync_renamed c s : renamed c s -> every (good [] c (fun _ => False)) (sync_dir_eff Compacted s).
Proof.
  intros (Hc & Hm & Hp). split; [split; [done|left; simpl; rewrite Hm; apply (Hfresh _ Hc0)]|].
  intros d [Hd Hnames]. destruct (Hp d Hd) as (d0 & Hb & [Ho|[Hi Hm']]).
  - exfalso. destruct (Hnames (gen_name next_gen)) as [_ Hn]. simpl in Hn.
    destruct Hc as [Hct _]. rewrite Hct in Hn. destruct Hn as [x Hx]; [by eexists|].
    rewrite (Ho target target_tmp), (proj1 (Hfresh _ Hb)) in Hx. done.
  - exists d0. split; [done|]. split; [done|]. left. by rewrite Hm', (proj2 (Hfresh _ Hb)).
Qed.

(** How the operations act on what holds of every disk. *)
Lemma every_unlink (R : disk -> disk -> Prop) p s :
  (forall d0 d, R d0 d -> R d0 (delete p d)) -> every R s -> every R (unlink_eff p s).
Proof.
  intros HR [Hc Hp]. split; [by apply HR|]. intros d [Hd|(d1 & Hd & ->)]; destruct (Hp _ Hd) as (d0 & ? & ?); exists d0; auto.
Qed.

Lemma every_create (R R' : disk -> disk -> Prop) p s :
  (forall d0 d, R d0 d -> R' d0 d) -> (forall d0 d, R d0 d -> R' d0 (<[p := []]> d)) -> every R s -> every R' (create_eff p s).
Proof.
  intros HR HR' [Hc Hp]. split; [by apply HR'|].
  intros d [Hd|(d1 & Hd & ->)]; destruct (Hp _ Hd) as (d0 & ? & ?); exists d0; auto.
Qed.

Lemma every_write (R R' : disk -> disk -> Prop) p bs s :
  (forall d0 d k, R d0 d -> R' d0 (alter (fun c => c ++ take k bs) p d)) -> every R s -> every R' (write_eff p bs s).
Proof.
  intros HR [Hc Hp].
  assert (HR0 : forall d0 d, R d0 d -> R' d0 d).
  { intros d0 d Hd. replace d with (alter (fun c => c ++ take 0 bs) p d); [by apply HR|].
    apply map_eq. intros q. destruct (decide (q = p)) as [->|]; [|by rewrite lookup_alter_ne].
    rewrite lookup_alter_eq. destruct (d !! p); simpl; [by rewrite app_nil_r|done]. }
  split.
  - pose proof (HR c0 (cur s) (length bs) Hc) as HR'. by rewrite firstn_all in HR'.
  - intros d [Hd|(d1 & k & Hd & _ & ->)]; destruct (Hp _ Hd) as (d0 & ? & ?); exists d0; auto.
Qed.

Lemma every_sync (R : disk -> disk -> Prop) p s : every R s -> every R (sync_eff p s).
Proof. intros [Hc Hp]. split; [done|]. intros d [Hd _]. auto. Qed.

Lemma every_sync_dir (R : disk -> disk -> Prop) dd s : every R s -> every R (sync_dir_eff dd s).
Proof. intros [Hc Hp]. split; [done|]. intros d [Hd _]. auto. Qed.

Lemma every_weaken (R R' : disk -> disk -> Prop) s : (forall d0 d, R d0 d -> R' d0 d) -> every R s -> every R' s.
Proof. intros HR [Hc Hp]. split; [by apply HR|]. intros d Hd. destruct (Hp d Hd) as (d0 & ? & ?). exists d0. auto. Qed.

(** ** The marker *)

#[local] Abbreviation names := (utf8_encode (join [10] inputs)).

Lemma good_marker gone c part part' d0 d o :
  good gone c part d0 d -> (forall body, o = Some body -> part' body) ->
  forall d', (forall p, p <> marker -> d' !! p = d !! p) -> d' !! marker = o -> good gone c part' d0 d'.
Proof.
  intros [[Ht Hi] _] Ho d' Hd' Hm. split.
  - split; [rewrite Hd' by apply not_eq_sym, marker_target; done|]. intros p H1' H2' H3'. rewrite Hd' by done. by apply Hi.
  - destruct o as [body|]; [right; exists body; auto|by left].
Qed.

Lemma create_marker c s : every (good [] c (fun _ => False)) s -> every (good [] c (fun b => b = [])) (create_eff marker s).
Proof.
  apply every_create; intros d0 d Hg.
  - eapply good_marker; [exact Hg| |done|done]. intros body Hb. destruct Hg as [_ [E|(b & E & [])]]. congruence.
  - eapply (good_marker _ _ _ _ _ _ (Some [])); [exact Hg|by intros ? [= <-]| |by rewrite lookup_insert_eq].
    intros p Hp. by rewrite lookup_insert_ne.
Qed.

Lemma write_marker c bs part part' s :
  (forall body k, part body -> part' (body ++ take k bs)) ->
  every (good [] c part) s -> every (good [] c part') (write_eff marker bs s).
Proof.
  intros Hpart. apply every_write. intros d0 d k Hg. pose proof Hg as [_ Hm].
  eapply (good_marker _ _ _ _ _ _ (alter (fun c => c ++ take k bs) marker d !! marker)); [exact Hg| | |done].
  - intros body. rewrite lookup_alter_eq. destruct Hm as [->|(b & -> & Hb)]; [done|]. intros [= <-]. by apply Hpart.
  - intros p Hp. by rewrite lookup_alter_ne.
Qed.

Lemma good_replaced c part d0 d : B d0 ->
  encodes (to_snapshot <$> sts) c -> (forall b, part b -> marker_part inputs b) ->
  good input_paths c part d0 d -> replaced d0 d.
Proof.
  intros Hb He Hpart [[Ht Hi] Hm]. split; [by exists c|]. split; [|split; cycle 1].
  - intros p Hj Hp. apply Hi; [|done|]; intros ->; [by apply tmp_not_journal in Hj|by apply done_not_journal in Hj].
  - intros k Hk. destruct (Hi (Compacted, done_name k)) as [?|[_ ?]]; [apply done_tmp|apply done_target|congruence|auto..].
  - intros p (name & body & ps & Hn & Hbody & Hps & Hin & Hj). destruct (decide (name = done_name next_gen)) as [->|Hne].
    + right. destruct Hm as [E|(b & E & Hpb)]; [congruence|]. rewrite Hbody in E. injection E as <-.
      by eapply marker_part_names; [done|apply Hpart|..].
    + left. exists name, body, ps. split_and!; try done.
      destruct (Hi (Compacted, name)) as [E|[_ E]]; [..|congruence|congruence].
      * intros [= ->]. revert Hn. apply (not_done _ 112); [done|apply tmp_last].
      * intros [= ->]. revert Hn. apply (not_done _ 108); [done|apply gen_last].
      * congruence.
Qed.

Lemma good_unlink c part d0 d p : p <> target -> p ∈ input_paths \/ p = marker ->
  good input_paths c part d0 d -> good input_paths c part d0 (delete p d).
Proof.
  intros Hpt Hp [[Ht Hi] Hm]. split; [split|].
  - by rewrite lookup_delete_ne.
  - intros q H1' H2' H3'. destruct (decide (q = p)) as [->|Hne]; [|rewrite lookup_delete_ne by done; by apply Hi].
    right. rewrite lookup_delete_eq. by destruct Hp.
  - destruct (decide (p = marker)) as [->|Hne]; [left; by rewrite lookup_delete_eq|by rewrite lookup_delete_ne].
Qed.

Lemma good_more_gone c part d0 d : good [] c part d0 d -> good input_paths c part d0 d.
Proof. intros [[Ht Hi] Hm]. split; [split; [done|]|done]. intros p ???. destruct (Hi p) as [?|[[]%elem_of_nil _]]; auto. Qed.

(** ** The triple of the swap *)

Definition with_content (P : list Z -> Fs -> Prop) (s : Fs) : Prop := exists c, encodes (to_snapshot <$> sts) c /\ P c s.

Definition done_or_not (s : Fs) : Prop := every untouched s \/ every replaced s.

Lemma good_done part s : (forall b, part b -> marker_part inputs b) ->
  with_content (fun c => every (good input_paths c part)) s -> every replaced s.
Proof.
  intros Hpart (c & He & [Hc Hp]). split; [by eapply good_replaced|].
  intros d Hd. destruct (Hp d Hd) as (d0 & Hb & Hg). exists d0. split; [done|]. by eapply good_replaced.
Qed.

Lemma good_done' part s : (forall b, part b -> marker_part inputs b) ->
  with_content (fun c => every (good [] c part)) s -> every replaced s.
Proof.
  intros Hpart (c & He & Hg). apply (good_done part); [done|]. exists c. split; [done|].
  eapply every_weaken; [|exact Hg]. intros d0 d. apply good_more_gone.
Qed.

Lemma replaced_mixed s : every replaced s -> mixed s.
Proof. intros [_ Hp] d Hd. destruct (Hp d Hd) as (d0 & ? & ?). exists d0. auto. Qed.

Lemma done_or_not_mixed s : done_or_not s -> mixed s.
Proof. intros [Hd|Hd]; [by apply untouched_mixed|by apply replaced_mixed]. Qed.

Lemma renamed_mixed c s : encodes (to_snapshot <$> sts) c -> renamed c s -> mixed s.
Proof.
  intros He (_ & _ & Hp) d Hd. destruct (Hp d Hd) as (d0 & Hb & [Ho|[Hi Hm]]); exists d0; (split; [done|]).
  - left. by apply off_tmp_untouched.
  - right. apply (good_replaced c (fun _ => False)); [done|done|done|]. apply good_more_gone. split; [done|].
    left. by rewrite Hm, (proj2 (Hfresh _ Hb)).
Qed.

Lemma part_empty b : b = [] -> marker_part inputs b.
Proof. intros ->. exists 0%nat. by left. Qed.
Lemma part_names b : (exists k, b = take k names) -> marker_part inputs b.
Proof. intros [k ->]. exists k. by left. Qed.

(** A step of the swap: a refused or fatal operation leaves the disk swapped or
    not. *)
Lemma call_step c eff short `{!KeepsCur eff} `{!forall k, KeepsCur (short k)} rest (I Q : Fs -> Prop) :
  (forall s, I s -> Q (eff s)) -> (forall s, I s -> done_or_not s) -> (forall k s, I s -> done_or_not (short k s)) ->
  triple (at_ ok_ev rest I) (fs_call c eff short) (fun _ => at_ ok_ev rest Q)
    (fun _ => at_ ok_ev rest done_or_not) (at_ ok_ev rest mixed).
Proof.
  intros HQ HE HS. eapply triple_conseq; [apply (fs_call_triple ok_ev c eff short rest I Q done_or_not); done|auto..|].
  intros w. apply at_weaken, done_or_not_mixed.
Qed.

Lemma plain_step c eff `{!KeepsCur eff} rest (I Q : Fs -> Prop) :
  (forall s, I s -> Q (eff s)) -> (forall s, I s -> done_or_not s) ->
  triple (at_ ok_ev rest I) (plain c eff) (fun _ => at_ ok_ev rest Q)
    (fun _ => at_ ok_ev rest done_or_not) (at_ ok_ev rest mixed).
Proof. intros HQ HE. apply call_step; auto. intros k. apply keeps_id. Qed.

Lemma off_tmp_undone s : every off_tmp s -> done_or_not s.
Proof. intros Hs. left. by apply every_untouched. Qed.

Lemma rename_step rest :
  triple (at_ ok_ev rest (with_content staged)) (fs_rename tmp target) (fun _ => at_ ok_ev rest (with_content renamed))
    (fun _ => at_ ok_ev rest done_or_not) (at_ ok_ev rest mixed).
Proof.
  assert (HU : forall s, with_content staged s -> done_or_not s).
  { intros s (c & _ & Hs). by eapply off_tmp_undone, staged_off. }
  unfold fs_rename, if_present. eapply (triple_bind _ _ _ (fun _ => at_ ok_ev rest (with_content staged)));
    [apply triple_get; auto|]. intros w0. case_match.
  - apply (plain_step RenameFile (rename_eff tmp target) rest (with_content staged) (with_content renamed)); [|done]. intros s (c & ? & Hs). exists c. split; [done|]. by apply rename_tmp.
  - eapply triple_bind; [apply (plain_step RenameFile _ rest (with_content staged) (with_content staged)); auto|].
    intros a. apply triple_throw. intros w. apply at_weaken, HU.
Qed.

Lemma staged_triple rest (k : M World unit) Q :
  triple (at_ ok_ev rest (with_content (fun c => every (good [] c (fun _ => False))))) k Q
    (fun _ => at_ ok_ev rest done_or_not) (at_ ok_ev rest mixed) ->
  triple (at_ ok_ev rest (fun s => cur s = c0 /\ forall d, poss s d -> B d))
    (run! fs_create tmp; run! write_snapshots tmp sts; run! fs_sync tmp; run! rename_durable tmp target Compacted; k)
    Q (fun _ => at_ ok_ev rest done_or_not) (at_ ok_ev rest mixed).
Proof.
  intros Hk.
  assert (Hstart : forall s, cur s = c0 /\ (forall d, poss s d -> B d) -> every off_tmp s).
  { intros s [Hc Hp]. split; [rewrite Hc; by intros p _|]. intros d Hd. exists d. split; [by apply Hp|by intros p _]. }
  eapply triple_bind; [apply (plain_step CreateFile _ rest _ (writing []))|].
  { intros s Hs. by apply create_tmp, Hstart. }
  { intros s Hs. by apply off_tmp_undone, Hstart. }
  intros ?. eapply triple_bind.
  { eapply triple_conseq; [apply (write_snapshots_triple rest [] sts)|auto|intros ? ? Hw; exact Hw| |auto].
    intros e w. apply at_weaken. by left. }
  intros ?. eapply triple_bind; [apply (plain_step SyncFile _ rest _ (with_content staged))|].
  { intros s Hs. destruct (sync_tmp _ _ Hs) as (c & ? & ?). by exists c. }
  { intros s [_ Hs]. by apply off_tmp_undone. }
  intros ?. eapply triple_bind; [|intros ?; exact Hk].
  unfold rename_durable. eapply triple_bind; [apply rename_step|].
  intros ?. apply (fsync_dir_triple ok_ev Hok).
  - intros s (c & ? & Hs). exists c. split; [done|]. by apply sync_renamed.
  - intros s (c & ? & Hs). by eapply renamed_mixed.
Qed.

Lemma marked_triple rest (k : M World unit) Q :
  triple (at_ ok_ev rest (with_content (fun c => every (good [] c (marker_part inputs))))) k Q
    (fun _ => at_ ok_ev rest done_or_not) (at_ ok_ev rest mixed) ->
  triple (at_ ok_ev rest (with_content (fun c => every (good [] c (fun _ => False)))))
    (run! fs_create marker; run! fs_write marker names; run! fs_write marker [10]; run! fs_sync marker; run! fsync_dir Compacted; k)
    Q (fun _ => at_ ok_ev rest done_or_not) (at_ ok_ev rest mixed).
Proof.
  intros Hk.
  assert (HD : forall part s, (forall b, part b -> marker_part inputs b) ->
    with_content (fun c => every (good [] c part)) s -> done_or_not s) by (intros part s ??; right; by eapply good_done').
  eapply triple_bind; [apply (plain_step CreateFile _ rest _ (with_content (fun c => every (good [] c (fun b => b = [])))))|].
  { intros s (c & ? & ?). exists c. split; [done|]. by apply create_marker. }
  { intros s. by apply HD. }
  intros ?. eapply triple_bind; [apply (call_step WriteFile _ _ rest _ (with_content (fun c => every (good [] c (fun b => exists k, b = take k names)))))|].
  { intros s (c & ? & Hs). exists c. split; [done|]. eapply write_marker; [|exact Hs]. intros body j ->. by exists j. }
  { intros s. apply HD, part_empty. }
  { intros i s (c & ? & Hs). eapply (HD (fun b => exists k, b = take k names)); [apply part_names|]. exists c. split; [done|].
    eapply write_marker; [|exact Hs]. intros body j ->. exists (j `min` i)%nat. by rewrite take_take. }
  intros ?. eapply triple_bind; [apply (call_step WriteFile _ _ rest _ (with_content (fun c => every (good [] c (marker_part inputs)))))|].
  { intros s (c & ? & Hs). exists c. split; [done|]. eapply write_marker; [|exact Hs]. intros body j [i ->]. exists i.
    destruct j as [|[|j]]; simpl; [left; by rewrite app_nil_r|by right|by right]. }
  { intros s. apply HD, part_names. }
  { intros i s (c & ? & Hs). eapply (HD (marker_part inputs)); [done|]. exists c. split; [done|].
    eapply write_marker; [|exact Hs]. intros body j [n ->]. exists n.
    destruct i as [|i]; destruct j as [|j]; simpl; rewrite ?take_nil, ?app_nil_r; auto. }
  intros ?. eapply triple_bind; [apply (plain_step SyncFile _ rest _ (with_content (fun c => every (good [] c (marker_part inputs)))))|].
  { intros s (c & ? & Hs). exists c. split; [done|]. by apply every_sync. }
  { intros s. by apply HD. }
  intros ?. eapply triple_bind; [|intros ?; exact Hk]. apply (fsync_dir_triple ok_ev Hok).
  - intros s (c & ? & Hs). exists c. split; [done|]. by apply every_sync_dir.
  - intros s Hs. by eapply done_or_not_mixed, HD.
Qed.

Lemma unlinked_triple rest :
  triple (at_ ok_ev rest (with_content (fun c => every (good [] c (marker_part inputs)))))
    (run! unlink_all input_paths; run! fsync_dir Statements; run! fsync_dir Compacted; run! unlink_ignored marker; fsync_dir Compacted)
    (fun _ => at_ ok_ev rest (every replaced)) (fun _ => at_ ok_ev rest done_or_not) (at_ ok_ev rest mixed).
Proof.
  set (I := with_content (fun c => every (good input_paths c (marker_part inputs)))).
  assert (HM : forall s, I s -> mixed s) by (intros s Hs; apply replaced_mixed; by eapply good_done).
  assert (HU : forall p s, p <> target -> p ∈ input_paths \/ p = marker -> I s -> I (unlink_eff p s)).
  { intros p s Hpt Hp (c & ? & Hs). exists c. split; [done|]. apply every_unlink; [|done]. intros d0 d. by apply good_unlink. }
  assert (HS : forall dd s, I s -> I (sync_dir_eff dd s)).
  { intros dd s (c & ? & Hs). exists c. split; [done|]. by apply every_sync_dir. }
  eapply (triple_conseq _ _ (at_ ok_ev rest I)); [|..|intros ? ? Hx; exact Hx|intros ? Hx; exact Hx].
  2: { intros w. apply at_weaken. intros s (c & ? & Hs). exists c. split; [done|]. eapply every_weaken; [|exact Hs].
       intros d0 d. apply good_more_gone. }
  2: { intros a w Hw. exact Hw. }
  eapply triple_bind; [apply (unlink_all_triple ok_ev _ rest I mixed); [|done]|].
  { intros p s Hp. apply HU; [intros ->; by apply Hother|by left]. }
  intros ?. eapply triple_bind; [by apply (fsync_dir_triple ok_ev Hok Statements rest I I mixed); [apply HS|]|].
  intros ?. eapply triple_bind; [by apply (fsync_dir_triple ok_ev Hok Compacted rest I I mixed); [apply HS|]|].
  intros ?. eapply triple_bind; [apply (fs_unlink_ignored_triple ok_ev marker rest I mixed); [|done]|].
  { intros s. apply HU; [apply marker_target|by right]. }
  intros ?. apply (fsync_dir_triple ok_ev Hok); [|done].
  intros s Hs. by eapply good_done, HS.
Qed.

(** Whatever happens during a swap, every disk the power may leave behind is
    untouched or has the new generation in full. *)
Lemma swap_triple rest :
  triple (at_ ok_ev rest (fun s => cur s = c0 /\ forall d, poss s d -> B d)) (swap next_gen inputs sts)
    (fun _ => at_ ok_ev rest (every replaced)) (fun _ => at_ ok_ev rest done_or_not) (at_ ok_ev rest mixed).
Proof.
  unfold swap. apply staged_triple, marked_triple, unlinked_triple.
Qed.

End Swap.

(** ** Reading the inputs *)

Definition readable (d : disk) `{JournalCodec} : Prop :=
  forall p c, is_journal p -> d !! p = Some c -> (file_records c).1 = false.

Section Inputs.
Context `{Chrono, JournalCodecLaws}.
Context (ok_ev : (FsCall -> FsFault) -> Prop) (Hok : forall ev, ok_ev ev -> sane ev).
Context (c0 : disk) (I E : Fs -> Prop) (HE : forall s, I s -> E s) (Hcur : forall s, I s -> cur s = c0).

Lemma list_files_triple {A} (g : disk -> A) (dflt : A) rest F :
  triple (at_ ok_ev rest I) (do! r <- try_ fs_read_dir; ret (match r with Ok d => g d | Err _ => dflt end))
    (fun l w => at_ ok_ev rest I w /\ l = g c0) F (at_ ok_ev rest E).
Proof.
  eapply (triple_bind _ _ _ (fun r w => at_ ok_ev rest I w /\ r = Ok c0)).
  - apply (triple_try _ _ (fun r w => at_ ok_ev rest I w /\ r = Ok c0)). unfold fs_read_dir.
    eapply triple_bind; [apply (sure_triple ok_ev Hok ReadDir _ rest I I E); [by intros ev (? & _)|auto|auto]|].
    intros ?. eapply (triple_bind _ _ _ (fun w w' => at_ ok_ev rest I w' /\ cur (w_fs w) = c0)).
    + apply triple_get. intros w Hw. split; [done|]. destruct Hw as (_ & _ & _ & ?). by apply Hcur.
    + intros w. apply triple_ret. intros w' [? ->]. done.
  - intros r. apply triple_ret. by intros w [? ->].
Qed.

Lemma read_into_triple rest F p c f : c0 !! p = Some c -> (file_records c).1 = false ->
  triple (at_ ok_ev rest I) (read_into p f)
    (fun f' w => at_ ok_ev rest I w /\ f' = fold_into f (file_records c).2) F (at_ ok_ev rest E).
Proof.
  intros Hc Hr. unfold read_into. eapply (triple_bind _ _ _ (fun r w => at_ ok_ev rest I w /\ r = Ok c)).
  - apply (triple_try _ _ (fun r w => at_ ok_ev rest I w /\ r = Ok c)). unfold fs_read.
    eapply triple_bind; [apply (sure_triple ok_ev Hok OpenRead _ rest I I E); [by intros ev (_ & ? & _)|auto|auto]|].
    intros ?. eapply (triple_bind _ _ _ (fun w w' => at_ ok_ev rest I w' /\ cur (w_fs w) = c0)).
    + apply triple_get. intros w Hw. split; [done|]. destruct Hw as (_ & _ & _ & ?). by apply Hcur.
    + intros w w' [? Hw]. rewrite Hw, Hc. done.
  - intros r w [Hw ->]. rewrite read_lines_parse. fold (file_records c). rewrite Hr. done.
Qed.

Lemma read_all_triple rest F files f :
  (forall p, p ∈ files -> exists c, c0 !! p = Some c /\ (file_records c).1 = false) ->
  triple (at_ ok_ev rest I) (read_all files f)
    (fun f' w => at_ ok_ev rest I w /\ f' = fold_into f (journal_records c0 files)) F (at_ ok_ev rest E).
Proof.
  revert f. induction files as [|p files IH]; intros f Hf; simpl; [by apply triple_ret|].
  destruct (Hf p ltac:(left)) as (c & Hc & Hr).
  eapply triple_bind; [by apply read_into_triple|]. intros f' w [Hw ->].
  pose proof (IH (fold_into f (file_records c).2) (fun q Hq => Hf q (list_elem_of_further _ _ _ Hq)) w Hw) as Ht.
  change (journal_records c0 (p :: files)) with ((file_records (content c0 p)).2 ++ journal_records c0 files).
  unfold content at 1. rewrite Hc. simpl default. rewrite fold_into_app. exact Ht.
Qed.

End Inputs.

(** ** A compaction pass *)

Definition next_generation (d : disk) : Z :=
  match last_index (generations d) with Some i => wrapu 64 (i + 1) | None => 0 end.
Definition sealed_segments (open_segment : Z) (d : disk) : list (Z * str) := filter (fun x => x.1 < open_segment) (segments d).
Definition input_files (open_segment : Z) (d : disk) : list path :=
  ((fun x => (Compacted, x.2)) <$> generations d) ++ ((fun x => (Statements, x.2)) <$> sealed_segments open_segment d).
Definition input_names (open_segment : Z) (d : disk) : list str :=
  ((fun x => lit "compacted/" ++ x.2) <$> generations d) ++ (sealed_segments open_segment d).*2.

Lemma elem_of_input_files o d p : p ∈ input_files o d <->
  is_Some (d !! p) /\ exists i, journal_index p = Some i /\ (p.1 = Statements -> i < o).
Proof.
  unfold input_files, sealed_segments. rewrite elem_of_app, !list_elem_of_fmap. destruct p as [[] n]; simpl; split.
  - intros [(x & [=] & _)|([i n'] & [= ->] & [Hi Hin%elem_of_indexed_files]%list_elem_of_filter)]. simpl in *.
    destruct Hin as [? Hp]. split; [done|]. exists i. by split.
  - intros [Hs (i & Hi & Ho)]. right. exists (i, n). split; [done|]. apply list_elem_of_filter.
    split; [by apply Ho|]. by apply elem_of_indexed_files.
  - intros [([i n'] & [= ->] & Hin%elem_of_indexed_files)|(x & [=] & _)]. simpl. destruct Hin as [? Hp]. split; [done|].
    exists i. by split.
  - intros [Hs (i & Hi & Ho)]. left. exists (i, n). split; [done|]. by apply elem_of_indexed_files.
Qed.

Lemma resolve_seg n i : parse_index n (lit "seg-") = Some i -> resolve n = (Statements, n).
Proof. intros (digits & -> & _)%parse_index_shape. done. Qed.

Lemma resolve_input_names o d : resolve <$> input_names o d = input_files o d.
Proof.
  unfold input_names, input_files. rewrite fmap_app. f_equal.
  - rewrite <-list_fmap_compose. apply list_fmap_ext. intros i [j n] _.
    change (resolve (lit "compacted/" ++ n) = (Compacted, n)). unfold resolve. by rewrite strip_prefix_app.
  - rewrite <-list_fmap_compose. apply list_fmap_ext. intros i [j n] Hin%list_elem_of_lookup_2.
    apply list_elem_of_filter in Hin as [_ [_ Hp]%elem_of_indexed_files]. by eapply resolve_seg.
Qed.

Lemma input_names_ok o d : Forall input_name (input_names o d).
Proof.
  apply Forall_forall. intros s. unfold input_names. rewrite elem_of_app, !list_elem_of_fmap.
  intros [([i n] & -> & [_ Hp]%elem_of_indexed_files)|([i n] & -> & [_ [_ Hp]%elem_of_indexed_files]%list_elem_of_filter)].
  - right. by exists n, i.
  - left. by exists i.
Qed.

Section Compaction.
Context `{Chrono, JournalCodecLaws} (cfg : HistoryConfig).
Context (ok_ev : (FsCall -> FsFault) -> Prop) (Hok : forall ev, ok_ev ev -> sane ev).
Context (now open_segment : Z) (B : disk -> Prop) (c0 : disk).
Context (Hc0 : B c0) (Hread : readable c0).
Context (Hfresh : forall d, B d -> d !! (Compacted, gen_name (next_generation c0)) = None
                             /\ d !! (Compacted, done_name (next_generation c0)) = None).

(** What the pass reads and what it keeps. *)
Definition input_records : list JournalRecord := journal_records c0 (input_files open_segment c0).
Definition kept_statements : gmap str FoldedStatement :=
  fd_statements (enforce_retention cfg now (fold_records input_records)).

Definition started (s : Fs) : Prop := cur s = c0 /\ forall d, poss s d -> B d.
#[local] Abbreviation swapped := (done_or_not (next_generation c0) (input_names open_segment c0) (ordered kept_statements) B c0).
#[local] Abbreviation crashed := (mixed (next_generation c0) (input_names open_segment c0) (ordered kept_statements) B).

Lemma started_swapped s : started s -> swapped s.
Proof.
  intros [Hc Hp]. left. split; [rewrite Hc; by split|]. intros d Hd. exists d. split; [by apply Hp|by split].
Qed.

Lemma compact_sealed_triple rest force :
  triple (at_ ok_ev rest started) (compact_sealed cfg now open_segment force)
    (fun _ => at_ ok_ev rest swapped) (fun _ => at_ ok_ev rest swapped) (at_ ok_ev rest crashed).
Proof.
  assert (HS : forall w, at_ ok_ev rest started w -> at_ ok_ev rest swapped w) by (intros w; apply at_weaken, started_swapped).
  assert (HC : forall s, started s -> crashed s) by (intros s Hs; by eapply done_or_not_mixed, started_swapped).
  unfold compact_sealed.
  eapply triple_bind; [apply (list_files_triple ok_ev Hok c0 started crashed HC); by intros s [? _]|].
  intros segs. apply triple_pure. intros ->. cbv zeta.
  eapply triple_bind; [apply (list_files_triple ok_ev Hok c0 started crashed HC); by intros s [? _]|].
  intros gens. apply triple_pure. intros ->. fold (sealed_segments open_segment c0).
  destruct (sealed_segments open_segment c0) as [|x xs] eqn:Es; [by apply triple_ret|]. rewrite <-Es.
  fold (input_files open_segment c0). fold (input_names open_segment c0).
  eapply triple_bind; [apply (read_all_triple ok_ev Hok c0 started crashed HC); [by intros s [? _]|]|].
  { intros p [[c Hc] (i & Hi & _)]%elem_of_input_files. exists c. split; [done|]. apply (Hread p); [by eexists|done]. }
  intros f. apply triple_pure. intros ->. destruct (negb force && negb _); [by apply triple_ret|].
  fold (next_generation c0). fold (fold_records input_records).
  eapply triple_bind; [|intros ?; apply triple_ret; intros w; apply at_weaken; intros s Hs; right; exact Hs].
  apply (swap_triple ok_ev Hok); [apply input_names_ok|done|done|].
  rewrite resolve_input_names. intros [[c Hc] _]%elem_of_input_files. by rewrite (proj1 (Hfresh _ Hc0)) in Hc.
Qed.

End Compaction.

(** ** Opening what is left *)

Definition power_on (d : disk) : World := {|
  w_fs := {| cur := d; poss := fun d' => d' = d |}; w_script := [];
  w_writer := {| wr_open := false; wr_segment := 0; wr_len := 0; wr_dirty := false |};
  w_degraded := false; w_write_failures := 0; w_acked := [] |}.

(** The segments a pass leaves alone. *)
Definition open_files (o : Z) (d : disk) : list path :=
  (fun x => (Statements, x.2)) <$> filter (fun x => o <= x.1) (segments d).

Lemma elem_of_open_files o d p : p ∈ open_files o d <->
  p.1 = Statements /\ is_Some (d !! p) /\ exists i, journal_index p = Some i /\ o <= i.
Proof.
  unfold open_files. rewrite list_elem_of_fmap. split.
  - intros ([i n] & -> & [Hi [? ?]%elem_of_indexed_files]%list_elem_of_filter). split_and!; [done..|]. by exists i.
  - destruct p as [dd n]. simpl. intros (-> & Hs & i & Hp & Hi). exists (i, n). split; [done|].
    apply list_elem_of_filter. split; [done|]. by apply elem_of_indexed_files.
Qed.

Lemma journal_file_split o d p : is_journal p -> is_Some (d !! p) -> p ∈ input_files o d \/ p ∈ open_files o d.
Proof.
  intros [i Hi] Hs. destruct p as [[] n].
  - destruct (Z.lt_ge_cases i o); [left; apply elem_of_input_files|right; apply elem_of_open_files]; eauto 10.
  - left. apply elem_of_input_files. split; [done|]. exists i. by split.
Qed.

Lemma within_age_sub cfg now m : within_age cfg now m ⊆ m.
Proof. unfold within_age. case_match; [apply map_filter_subseteq|done]. Qed.

Lemma deletes_sub {A} (l : list (Z * str)) (m : gmap str A) : foldl (fun m x => delete x.2 m) m l ⊆ m.
Proof.
  revert m. induction l as [|x l IH]; intros m; [done|]. simpl. etrans; [apply IH|]. apply delete_subseteq.
Qed.

Lemma within_cap_sub cfg m : within_cap cfg m ⊆ m.
Proof. unfold within_cap. case_match; [apply deletes_sub|done]. Qed.

Lemma by_seq_one (l : list (str * FoldedStatement)) (acc : gmap Z FoldedStatement) st :
  (forall j b, (j, b) ∈ l -> f_seq b = f_seq st -> b = st) -> acc !! f_seq st = Some st \/ (exists i, (i, st) ∈ l) ->
  foldl (fun acc kv => <[f_seq kv.2 := kv.2]> acc) acc l !! f_seq st = Some st.
Proof.
  revert acc. induction l as [|[i a] l IH]; intros acc Hu Hin; simpl.
  { destruct Hin as [?|[i []%elem_of_nil]]; done. }
  apply IH; [intros j b Hb; by apply (Hu j); right|]. destruct (decide (f_seq a = f_seq st)) as [E|E].
  - left. rewrite (Hu i a ltac:(left) E). apply lookup_insert_eq.
  - rewrite lookup_insert_ne by done. destruct Hin as [?|[j [[= -> ->]|Hj]%elem_of_cons]]; [by left|done|right; by exists j].
Qed.

(** A statement with a submit sequence of its own is written. *)
Lemma elem_of_ordered_one m i st : m !! i = Some st -> (forall j b, m !! j = Some b -> f_seq b = f_seq st -> b = st) ->
  st ∈ ordered m.
Proof.
  intros Hi Hu. unfold ordered. cbv zeta. apply list_elem_of_fmap. exists (f_seq st, st). split; [done|].
  rewrite merge_sort_Permutation. apply elem_of_map_to_list, by_seq_one.
  - intros j b Hj%elem_of_map_to_list. by eapply Hu.
  - right. exists i. by apply elem_of_map_to_list.
Qed.

Lemma elem_of_ordered_sub m st : st ∈ ordered m -> exists i, m !! i = Some st.
Proof.
  unfold ordered. cbv zeta. rewrite list_elem_of_fmap. intros ([k a] & -> & Hk). rewrite merge_sort_Permutation in Hk.
  apply elem_of_map_to_list in Hk. simpl.
  assert (Hg : forall l (acc : gmap Z FoldedStatement), (forall k a, acc !! k = Some a -> exists i, m !! i = Some a) ->
    (forall kv, kv ∈ l -> m !! kv.1 = Some kv.2) ->
    forall k a, foldl (fun acc kv => <[f_seq kv.2 := kv.2]> acc) acc l !! k = Some a -> exists i, m !! i = Some a).
  { induction l as [|[i b] l IH]; intros acc Hacc Hl; [done|]. simpl. apply IH; [|intros kv ?; apply Hl; by right].
    intros k' a'. destruct (decide (k' = f_seq b)) as [->|]; [|rewrite lookup_insert_ne by done; apply Hacc].
    rewrite lookup_insert_eq. intros [= <-]. exists i. apply (Hl (i, b)). left. }
  eapply (Hg (map_to_list m) ∅); [intros ??; by rewrite lookup_empty| |exact Hk].
  intros [i b] ?. by apply elem_of_map_to_list.
Qed.

Lemma elem_of_ordered m st : (forall i j a b, m !! i = Some a -> m !! j = Some b -> f_seq a = f_seq b -> a = b) ->
  st ∈ ordered m <-> exists i, m !! i = Some st.
Proof.
  intros Hinj. split; [apply elem_of_ordered_sub|]. intros [i Hi]. eapply elem_of_ordered_one; [exact Hi|].
  intros j b Hb E. by eapply Hinj.
Qed.

#[export] Instance index_le_total {A} : Total (@index_le A).
Proof. intros x y. unfold index_le. lia. Qed.
#[export] Instance index_le_trans {A} : Transitive (@index_le A).
Proof. intros x y z. unfold index_le. lia. Qed.

Lemma last_is_greatest {A} (l : list (Z * A)) x y : StronglySorted index_le l -> x ∈ l -> last l = Some y -> x.1 <= y.1.
Proof.
  intros Hs Hx Hy. apply last_Some in Hy as [l' ->]. apply elem_of_app in Hx as [Hx|Hx%list_elem_of_singleton]; [|by subst].
  eapply (StronglySorted_app_1_elem_of index_le l' [y]); [done|done|left].
Qed.

Lemma index_below_next d i n : (i, n) ∈ generations d -> (forall j n', (j, n') ∈ generations d -> 0 <= j < u_max 64) -> i < next_generation d.
Proof.
  intros Hin Hb. unfold next_generation, last_index.
  destruct (last (generations d)) as [[j n']|] eqn:E; simpl.
  - assert (Hj : (j, n') ∈ generations d) by (apply last_Some in E as [l' ->]; set_solver).
    pose proof (Hb _ _ Hj). rewrite wrapu_small by (unfold u_ok in *; lia).
    assert (i <= j); [|lia]. apply (last_is_greatest (generations d) (i, n) (j, n')); [|done|done].
    apply (StronglySorted_merge_sort index_le).
  - apply last_None in E. rewrite E in Hin. by apply elem_of_nil in Hin.
Qed.

Lemma next_generation_ok d : (forall j n', (j, n') ∈ generations d -> 0 <= j < u_max 64) -> u_ok 64 (next_generation d).
Proof.
  intros _. unfold next_generation. case_match; [apply wrapu_range; lia|]. split; [lia|]. vm_compute. discriminate.
Qed.

Lemma next_generation_free d : (forall j n', (j, n') ∈ generations d -> 0 <= j < u_max 64) ->
  d !! (Compacted, gen_name (next_generation d)) = None.
Proof.
  intros Hb. destruct (d !! _) as [c|] eqn:E; [|done]. exfalso.
  pose proof (gen_journal (next_generation d) (next_generation_ok d Hb)) as Hj. unfold journal_index in Hj. simpl in Hj.
  assert (Hin : (next_generation d, gen_name (next_generation d)) ∈ generations d)
    by (apply elem_of_indexed_files; split; [by eexists|done]).
  pose proof (index_below_next _ _ _ Hin Hb). lia.
Qed.

Lemma done_name_ends n : ends_with (done_name n) (lit ".done") = true.
Proof.
  apply bool_decide_eq_true_2. unfold done_name, fmt. cbn [concat]. rewrite app_nil_r, app_assoc, strip_suffix_app. by eexists.
Qed.

(** A journal directory between passes, as the writer leaves it: everything is
    on the disk, every file reads, no marker is left, and its records are what
    the store wrote. *)
Record sound_journal `{Chrono, JournalCodec} (o : Z) (s : Fs) : Prop := {
  sj_durable : forall d, poss s d <-> d = cur s;
  sj_readable : readable (cur s);
  sj_markers : forall name, ends_with name (lit ".done") = true -> cur s !! (Compacted, name) = None;
  sj_indices : forall i n, (i, n) ∈ generations (cur s) -> 0 <= i < u_max 64;
  sj_coherent : coherent (input_records o (cur s) ++ journal_records (cur s) (open_files o (cur s)));
  sj_submitted : forall id r, r ∈ records_of id (input_records o (cur s)) ->
    exists r', r' ∈ records_of id (input_records o (cur s)) /\ is_Some (j_sql r');
  sj_sequences : forall r1 r2, r1 ∈ input_records o (cur s) -> r2 ∈ input_records o (cur s) ->
    live r1 -> live r2 -> j_seq r1 = j_seq r2 -> j_id r1 = j_id r2;
  sj_fresh : forall r, r ∈ journal_records (cur s) (open_files o (cur s)) -> j_kind r = KindSnapshot ->
    exists L, j_last_seq r = Some L /\ j_seq r < L }.

Section CrashSafe.
Context `{Chrono, JournalCodecLaws} (cfg : HistoryConfig) (now o : Z) (s0 : Fs) (Hsound : sound_journal o s0).
#[local] Abbreviation c0 := (cur s0).
#[local] Abbreviation l := (input_records o c0).
#[local] Abbreviation m := (journal_records c0 (open_files o c0)).
#[local] Abbreviation kept := (kept_statements cfg now o c0).
#[local] Abbreviation target := (Compacted, gen_name (next_generation c0)).

Lemma kept_sub : kept ⊆ view l.
Proof. unfold kept_statements, enforce_retention. simpl. etrans; [apply within_cap_sub|apply within_age_sub]. Qed.

Lemma l_coherent : coherent l.
Proof. eapply coherent_sub; [|apply Hsound]. set_solver. Qed.

Lemma kept_facts id st : kept !! id = Some st -> ~ retired id l /\ f_id st = id /\ summary (records_of id l) st.
Proof. intros Hk. eapply (kept_summary l m kept); [apply Hsound|apply kept_sub|done]. Qed.

Lemma kept_record id st : kept !! id = Some st -> exists r, r ∈ records_of id l /\ j_seq r = f_seq st.
Proof.
  intros Hk. destruct (kept_facts _ _ Hk) as (_ & _ & Hs). destruct (su_newest _ _ Hs) as (n & [Hn _] & _).
  exists n. split; [done|]. by destruct (su_same _ _ Hs n Hn) as (_ & ? & _).
Qed.

Lemma kept_has_sql id st : kept !! id = Some st -> exists r, r ∈ records_of id l /\ is_Some (j_sql r).
Proof. intros (r & Hr & _)%kept_record. by eapply sj_submitted. Qed.

Lemma kept_seq_inj i j a b : kept !! i = Some a -> kept !! j = Some b -> f_seq a = f_seq b -> a = b.
Proof.
  intros Ha Hb E. destruct (kept_record _ _ Ha) as (r1 & (? & ? & Hi)%elem_of_records_of & S1).
  destruct (kept_record _ _ Hb) as (r2 & (? & ? & Hj)%elem_of_records_of & S2).
  assert (j_id r1 = j_id r2) by (apply (sj_sequences _ _ Hsound r1 r2); try assumption; congruence). congruence.
Qed.

Lemma published_records c : encodes (to_snapshot <$> ordered kept) c ->
  forall r, r ∈ (file_records c).2 <-> r ∈ snapshots_of kept.
Proof.
  intros He r. rewrite (encodes_records _ _ He). simpl. rewrite list_elem_of_fmap.
  setoid_rewrite (fun st => elem_of_ordered kept st kept_seq_inj). rewrite elem_of_snapshots_of. naive_solver.
Qed.

(** A pass changes no record outside its inputs, and what it may leave of them
    stands for all of them. *)
Lemma untouched_view d d' :
  untouched c0 d -> (forall p c, d' !! p = Some c -> d !! p = Some c) ->
  (forall p, is_journal p -> ~ marks d p -> d' !! p = d !! p) ->
  view (journal_records d' (replay_paths d')) = view (l ++ m).
Proof.
  intros (Hsame & Hmarks & _) _ Hkeep.
  assert (Hnm : forall p, ~ marks d p).
  { intros p (name & body & ps & Hn & Hb & _)%Hmarks. by rewrite (sj_markers _ _ Hsound _ Hn) in Hb. }
  assert (Hd : forall p, is_journal p -> d' !! p = c0 !! p) by (intros p Hj; by rewrite Hkeep, Hsame).
  symmetry. apply fold_same_set; [apply Hsound|]. intros r.
  unfold input_records. rewrite elem_of_app, !elem_of_journal_records. split.
  - intros [(p & Hp & Hr)|(p & Hp & Hr)]; exists p.
    + apply elem_of_input_files in Hp as [Hs (i & Hi & _)]. assert (is_journal p) by (by exists i).
      unfold content in *. rewrite Hd by done. split; [|done]. apply elem_of_replay_paths. by rewrite Hd.
    + apply elem_of_open_files in Hp as (_ & Hs & i & Hi & _). assert (is_journal p) by (by exists i).
      unfold content in *. rewrite Hd by done. split; [|done]. apply elem_of_replay_paths. by rewrite Hd.
  - intros (p & [Hj Hs]%elem_of_replay_paths & Hr). unfold content in Hr. rewrite Hd in Hs, Hr by done.
    destruct (journal_file_split o c0 p Hj Hs); [left|right]; by exists p.
Qed.

Lemma replaced_view d d' id st :
  replaced (next_generation c0) (input_names o c0) (ordered kept) c0 d ->
  (forall p c, d' !! p = Some c -> d !! p = Some c) ->
  (forall p, is_journal p -> ~ marks d p -> d' !! p = d !! p) ->
  kept !! id = Some st ->
  option_Forall2 same_statement (view (journal_records d' (replay_paths d')) !! id) (view (l ++ m) !! id).
Proof.
  intros ((c & Hc & He) & Hother & Hmarks & _) Hsub Hkeep Hk. rewrite resolve_input_names in Hother, Hmarks.
  pose proof (next_generation_free _ (sj_indices _ _ Hsound)) as Hfree.
  assert (Hm : forall p, marks d p -> p ∈ input_files o c0).
  { intros p Hp. destruct (Hmarks p Hp) as [(name & body & ps & Hn & Hb & _)|?]; [|done].
    by rewrite (sj_markers _ _ Hsound _ Hn) in Hb. }
  assert (Ht : ~ target ∈ input_files o c0) by (intros [[x Hx] _]%elem_of_input_files; congruence).
  assert (Hjt : is_journal target) by (eexists; apply gen_journal, next_generation_ok, Hsound).
  assert (Hct : d' !! target = Some c) by (rewrite Hkeep; [done|done|intros ?; by apply Ht, Hm]).
  assert (Hopen : forall p, p ∈ open_files o c0 -> d' !! p = c0 !! p).
  { intros p Hp. pose proof Hp as (Hps & Hs & i & Hi & Hoi)%elem_of_open_files. assert (Hj : is_journal p) by (by exists i).
    assert (Hni : p ∉ input_files o c0).
    { intros (_ & j & Hj' & Hlt)%elem_of_input_files. rewrite Hi in Hj'. injection Hj' as <-. specialize (Hlt Hps). lia. }
    rewrite Hkeep; [|done|intros ?; by apply Hni, Hm]. destruct (Hother p Hj) as [?|[? _]]; [|done|done].
    intros ->. discriminate Hps. }
  set (x := journal_records d' (filter (fun p => p ∉ open_files o c0) (replay_paths d'))).
  assert (Hxsub : forall r, r ∈ x -> r ∈ snapshots_of kept \/ r ∈ l).
  { intros r (p & [Hn Hp]%list_elem_of_filter & Hr)%elem_of_journal_records. apply elem_of_replay_paths in Hp as [Hj [c' Hc']].
    unfold content in Hr. rewrite Hc' in Hr. simpl in Hr. destruct (decide (p = target)) as [->|Hne].
    - left. apply (published_records c); [done|]. congruence.
    - right. pose proof (Hsub _ _ Hc') as Hd. destruct (Hother p Hj Hne) as [E|[_ E]]; [|congruence].
      rewrite Hd in E. destruct (journal_file_split o c0 p Hj) as [Hi|?]; [by rewrite <-E|..|done].
      apply elem_of_journal_records. exists p. split; [done|]. unfold content. by rewrite <-E. }
  assert (Hview : view (x ++ m) = view (journal_records d' (replay_paths d'))).
  { apply fold_same_set; [by apply (x_m_coherent l m kept); [apply Hsound|apply kept_sub|apply kept_has_sql|apply Hsound|]|].
    intros r. unfold x. rewrite elem_of_app, !elem_of_journal_records. split.
    - intros [(p & [_ Hp]%list_elem_of_filter & Hr)|(p & Hp & Hr)]; exists p; [done|]. unfold content in *.
      rewrite Hopen by done. split; [|done]. apply elem_of_replay_paths. rewrite Hopen by done.
      apply elem_of_open_files in Hp as (_ & ? & i & Hi & _). split; [by exists i|done].
    - intros (p & Hp & Hr). destruct (decide (p ∈ open_files o c0)) as [Ho|Ho].
      + right. exists p. unfold content in *. by rewrite Hopen in Hr.
      + left. exists p. split; [by apply list_elem_of_filter|done]. }
  rewrite <-Hview. eapply (compacted_view l m kept); [apply Hsound|apply kept_sub|apply kept_has_sql|apply Hsound|exact Hxsub| |exact Hk].
  intros r Hr. apply elem_of_journal_records. exists target. unfold content. rewrite Hct. split; [|by apply (published_records c)].
  apply list_elem_of_filter. split; [by intros (? & _)%elem_of_open_files|]. apply elem_of_replay_paths. by rewrite Hct.
Qed.

#[local] Abbreviation ids := (list_to_set (j_id <$> l ++ m) : gset str).

Lemma old_file_ids p c r : is_journal p -> c0 !! p = Some c -> r ∈ (file_records c).2 -> j_id r ∈ ids.
Proof.
  intros Hj Hc Hr. apply elem_of_list_to_set, list_elem_of_fmap. exists r. split; [done|]. apply elem_of_app.
  destruct (journal_file_split o c0 p Hj) as [Hp|Hp]; [by eexists|left|right];
    apply elem_of_journal_records; exists p; (split; [done|]); unfold content; by rewrite Hc.
Qed.

Lemma left_ids d r :
  untouched c0 d \/ replaced (next_generation c0) (input_names o c0) (ordered kept) c0 d ->
  r ∈ journal_records d (replay_paths d) -> j_id r ∈ ids.
Proof.
  intros Hd (p & [Hj [c Hc]]%elem_of_replay_paths & Hr)%elem_of_journal_records. unfold content in Hr. rewrite Hc in Hr.
  simpl in Hr. destruct Hd as [[Hsame _]|((c' & Ht & He) & Hother & _)].
  - rewrite Hsame in Hc by done. by eapply old_file_ids.
  - destruct (decide (p = target)) as [->|Hne].
    + rewrite Ht in Hc. injection Hc as ->. apply (published_records _ He), elem_of_snapshots_of in Hr as (id & st & Hk & ->).
      destruct (kept_record _ _ Hk) as (r & (Hr & _ & Hid)%elem_of_records_of & _).
      destruct (kept_facts _ _ Hk) as (_ & Hi & _). simpl. rewrite Hi, <-Hid.
      apply elem_of_list_to_set, list_elem_of_fmap. exists r. set_solver.
    + destruct (Hother p Hj Hne) as [E|[_ E]]; [|congruence]. rewrite E in Hc. by eapply old_file_ids.
Qed.

Lemma pass_leaves force w w' out :
  w_fs w = s0 -> Forall sane (w_script w) -> compact_sealed cfg now o force w = (out, w') ->
  poss (w_fs w') (cur (w_fs w'))
  /\ mixed (next_generation c0) (input_names o c0) (ordered kept) (fun d => d = c0) (w_fs w').
Proof.
  intros Hw Hsane Hrun.
  pose proof (compact_sealed_triple cfg sane (fun _ Hs => Hs) now o (fun d => d = c0) c0 eq_refl (sj_readable _ _ Hsound)) as Ht.
  assert (Hp : at_ sane (rest_of w) (started (fun d => d = c0) c0) w).
  { split; [done|]. split; [done|]. rewrite Hw. split; [by apply Hsound|]. split; [done|]. intros x. apply Hsound. }
  specialize (Ht ltac:(intros ? ->; split; [apply next_generation_free, Hsound|apply (sj_markers _ _ Hsound), done_name_ends])
    (rest_of w) force w Hp).
  rewrite Hrun in Ht. destruct out; destruct Ht as (_ & _ & ? & Hs); (split; [done|]); [by eapply done_or_not_mixed..|done].
Qed.

Lemma left_on_disk force w w' out d :
  w_fs w = s0 -> Forall sane (w_script w) -> compact_sealed cfg now o force w = (out, w') -> poss (w_fs w') d ->
  untouched c0 d \/ replaced (next_generation c0) (input_names o c0) (ordered kept) c0 d.
Proof.
  intros Hw Hsane Hrun Hd. destruct (pass_leaves force w w' out Hw Hsane Hrun) as [_ Hmix].
  by destruct (Hmix d Hd) as (d0 & -> & Hcase).
Qed.

(** C7. A compaction pass over a sound journal ([sound_journal]: everything is
    on the disk, every file reads, no marker is left, the records are coherent
    and each statement's submission is among them) with fewer statements than
    [max_records] may be refused any create, write, file sync, rename or
    unlink, and the power may fail at any point of it (reading, listing and
    syncing a directory work).  Whatever the disk then holds, opening the
    journal recovers, and every statement the pass kept reads back exactly as
    it did before the pass: no field of it is lost or changed. *)
Theorem compaction_crash_safe force (w w' : World) out d :
  w_fs w = s0 -> Forall sane (w_script w) -> Z.of_nat (size ids) < max_records cfg ->
  compact_sealed cfg now o force w = (out, w') -> poss (w_fs w') d ->
  exists seq f w'', journal_open cfg (power_on d) = (Done (seq, f), w'')
    /\ forall id st, kept !! id = Some st -> option_Forall2 same_statement (fd_statements f !! id) (view (l ++ m) !! id).
Proof.
  intros Hw Hsane Hmax Hrun Hd.
  set (nobody := {| fo_id := fresh ids; fo_seq := fresh (list_to_set (j_seq <$> journal_records d (replay_paths d)) : gset Z);
    fo_ms := 0; fo_last := 0 |}).
  pose proof (left_on_disk force w w' out d Hw Hsane Hrun Hd) as Hcase.
  destruct (journal_open_quiet cfg nobody ids (power_on d)) as (d' & seq & w'' & E & Hsub & Hkeep); [done| |done|].
  { apply Forall_forall. intros r Hr. pose proof (left_ids d r Hcase Hr) as Hid. split; [done|]. split.
    - simpl. intros Hf. exfalso. apply (is_fresh (list_to_set (j_seq <$> journal_records d (replay_paths d)) : gset Z)).
      rewrite <-Hf. apply elem_of_list_to_set, list_elem_of_fmap. by exists r.
    - simpl. intros Hf. rewrite Hf in Hid. by apply is_fresh in Hid. }
  eexists _, _, _. split; [exact E|]. intros id st Hk. fold (view (journal_records d' (replay_paths d'))).
  destruct Hcase as [Hu|Hr].
  - rewrite (untouched_view d d' Hu Hsub Hkeep). apply option_Forall2_refl, _.
  - by eapply replaced_view.
Qed.

End CrashSafe.
