(* ===== verification/JournalAck.v ===== *)
(** * JournalAck: an acknowledged statement survives

    The writer acknowledges a terminal record after its fsync.  [ack_survives]
    follows one statement through a whole life of the writer: any sequence of
    appends, syncs, rolls and compactions, any operation of which may be
    refused, ended by a power failure anywhere.  If the terminal record was
    acknowledged, opening what is left of the directory finds the statement
    finished.  Two things are excluded, and [JournalRuns] shows each loses
    acknowledged statements: a write that fails half way, and a second boot
    after a torn tail. *)

From S2P Require Import Prelude Text Effects HistoryRecord Journal JournalDisk JournalSwap.

#[local] Arguments lit : simpl never.

(** A write works or does not happen. *)
Definition steady_disk (ev : FsCall -> FsFault) : Prop := sane ev /\ forall k, ev WriteFile <> Short k.

Section Prefixes.
Context `{Chrono, JournalCodecLaws}.

Lemma split_char_tail c b : (c = [] \/ exists c', c = c' ++ [10]) -> 10 ∉ b ->
  split_char 10 (c ++ b) = removelast (split_char 10 c) ++ [b].
Proof.
  intros Hc Hb. destruct Hc as [->|(c' & ->)]; [simpl; by apply split_char_no_sep|].
  rewrite <-!app_assoc. simpl app. rewrite !split_char_app, (split_char_no_sep 10 b) by done.
  change (split_char 10 []) with [@nil Z]. by rewrite removelast_app, app_nil_r by done.
Qed.

Lemma encodes_inj rs c c' : encodes rs c -> encodes rs c' -> c = c'.
Proof.
  intros He. revert c'. induction He as [|rs c r line He IH Hl]; intros c' He'.
  - inversion He' as [|rs' ? ? ? ? ? Hn]; [done|]. by apply app_nil in Hn as [_ ?].
  - inversion He' as [Hn|rs' c2 r2 line2 He2 Hl2 E]; [symmetry in Hn; by apply app_nil in Hn as [_ ?]|].
    apply app_inj_2 in E as [-> [= ->]]; [|done]. rewrite Hl in Hl2. injection Hl2 as ->. by rewrite (IH c2 He2).
Qed.

(** A file of whole lines cut short holds no record it did not hold. *)
Lemma prefix_records rs c c' r : encodes rs c -> c' `prefix_of` c -> r ∈ (file_records c').2 -> r ∈ rs.
Proof.
  intros He. revert c' r. induction He as [|rs c x line He IH Hl]; intros c' r [t Ht] Hr.
  { symmetry in Ht. apply app_nil in Ht as [-> _]. done. }
  destruct (decide (length c' <= length c)%nat) as [Hle|Hgt].
  { rewrite elem_of_app. left. apply (IH c' r); [|done]. exists (drop (length c') c).
    rewrite <-(take_drop (length c') c) at 1. f_equal. apply (f_equal (take (length c'))) in Ht.
    rewrite take_app_le, take_app_length in Ht by lia. done. }
  assert (Hc' : c' = c ++ take (length c' - length c) line).
  { apply (f_equal (take (length c'))) in Ht. rewrite take_app_ge, take_app_length in Ht by lia. done. }
  set (k := (length c' - length c)%nat) in *. rewrite Hc' in Hr. clear Ht Hc' Hgt.
  unfold record_line in Hl. destruct (to_string x) as [s|] eqn:Es; [|done]. injection Hl as <-.
  destruct (decide (k <= length (utf8_encode s))%nat) as [Hk|Hk].
  - rewrite take_app_le in Hr by done. destruct (to_string_chars _ _ Es) as (Hne & Hs & _).
    pose proof (utf8_encode_high _ Hs) as Hh. set (b := take k (utf8_encode s)) in *.
    assert (Hnl : 10 ∉ b) by (apply high_no_newline; by apply Forall_take).
    unfold file_records, buf_lines in Hr. rewrite (split_char_tail c b (encodes_end _ _ He) Hnl) in Hr.
    rewrite removelast_app, app_nil_r, List.last_last in Hr by done.
    destruct (encodes_lines _ _ He) as [E _]. rewrite parse_lines_app, E in Hr. simpl in Hr.
    apply elem_of_app in Hr as [Hr|Hr]; [set_solver|]. destruct b as [|y b'] eqn:Eb; [by apply elem_of_nil in Hr|].
    rewrite <-Eb in *. simpl in Hr. destruct (from_utf8 b) as [u|] eqn:Et; [|by apply elem_of_nil in Hr].
    destruct (is_empty (trim u)); [by apply elem_of_nil in Hr|].
    destruct (decide (k < length (utf8_encode s))%nat) as [Hlt|Hge].
    + rewrite (from_truncated x s k u Es Hlt Et) in Hr. by apply elem_of_nil in Hr.
    + unfold b in Et. rewrite take_ge in Et by lia.
      rewrite from_utf8_encode in Et by (eapply Forall_impl; [exact Hs|naive_solver]). injection Et as <-.
      rewrite (from_to_string _ _ Es) in Hr. simpl in Hr. set_solver.
  - rewrite take_ge in Hr by (rewrite length_app; simpl; lia).
    rewrite (encodes_records (rs ++ [x])) in Hr; [done|]. econstructor; [done|]. unfold record_line. by rewrite Es.
Qed.

End Prefixes.

(** ** What compaction keeps of the followed statement *)

Section Kept.
Context `{Chrono, JournalCodecLaws} (cfg : HistoryConfig) (o : Followed) (ids : gset str).
Context (Hmax : Z.of_nat (size ids) < max_records cfg).

(** Retention by age does not reach the statement yet. *)
Definition in_age (now : Z) : Prop :=
  retention_days cfg <= 0 \/ sat_i 64 (now - sat_i 64 (retention_days cfg * 86400000)) <= fo_ms o.

Definition retained (now : Z) (l : list JournalRecord) : gmap str FoldedStatement :=
  fd_statements (enforce_retention cfg now (fold_records l)).

Lemma retained_sub now l : retained now l ⊆ fd_statements (fold_records l).
Proof. unfold retained, enforce_retention. simpl. etrans; [apply within_cap_sub|apply within_age_sub]. Qed.

Lemma retained_ok now l id st : Forall (rec_ok o ids) l -> retained now l !! id = Some st ->
  id ∈ ids /\ f_id st = id /\ rec_ok o ids (to_snapshot st).
Proof.
  intros Hl Hst. pose proof (fold_into_ok o ids fold_default l (fold_ok_default o ids) Hl) as Hf.
  pose proof (lookup_weaken _ _ _ _ Hst (retained_sub now l)) as E.
  destruct (fk_ids _ _ _ Hf _ _ E) as (Hid & Hi & Hs). split; [done|]. split; [done|].
  unfold rec_ok. simpl. rewrite Hi. split; [done|]. split; [done|]. intros ->. split; [done|].
  destruct (fk_status _ _ _ Hf _ E) as (? & ? & Ht). split; [done|]. split; [done|]. by exists (f_status st).
Qed.

Lemma retained_has now l r : in_age now -> Forall (rec_ok o ids) l -> r ∈ l -> tells o r ->
  exists st, retained now l !! fo_id o = Some st /\ fo_last o <= f_last_seq st /\ f_seq st = fo_seq o.
Proof.
  intros Hage Hl Hr Ht. pose proof (fold_into_ok o ids fold_default l (fold_ok_default o ids) Hl) as Hf.
  destruct (fold_into_gets o ids fold_default l r (fold_ok_default o ids) Hl Hr Ht) as (st & E & Hlast).
  exists st. destruct (fk_status _ _ _ Hf _ E) as (Hs & Hm & _). split; [|done].
  assert (Ha : within_age cfg now (fd_statements (fold_records l)) !! fo_id o = Some st).
  { unfold within_age. destruct (0 <? retention_days cfg) eqn:D; [|done]. cbv zeta. apply map_lookup_filter_Some. split; [done|].
    right. simpl. rewrite Hm. destruct Hage as [Hd|Hd]; [apply Z.ltb_lt in D; lia|done]. }
  unfold retained, enforce_retention, within_cap. simpl.
  assert (Hsize : (size (within_age cfg now (fd_statements (fold_records l))) <= size ids)%nat).
  { etrans; [|exact (fold_ok_size _ _ _ Hf)]. rewrite <-!size_dom. apply subseteq_size, subseteq_dom, within_age_sub. }
  case_match; [|done]. bool_to_prop. lia.
Qed.

(** The snapshots a pass publishes. *)
Lemma snapshots_ok now l r : Forall (rec_ok o ids) l -> r ∈ to_snapshot <$> ordered (retained now l) -> rec_ok o ids r.
Proof. intros Hl (st & -> & [i Hi]%elem_of_ordered_sub)%list_elem_of_fmap. by eapply retained_ok. Qed.

Lemma snapshots_tell now l r : in_age now -> Forall (rec_ok o ids) l -> r ∈ l -> tells o r ->
  exists r', r' ∈ to_snapshot <$> ordered (retained now l) /\ tells o r'.
Proof.
  intros Ha Hl Hr Ht. destruct (retained_has now l r Ha Hl Hr Ht) as (st & E & Hlast & Hs).
  exists (to_snapshot st). destruct (retained_ok now l _ _ Hl E) as (_ & Hi & _). split; [|by split].
  apply list_elem_of_fmap. exists st. split; [done|]. eapply elem_of_ordered_one; [exact E|].
  intros j b Hb Hbs. destruct (retained_ok now l _ _ Hl Hb) as (_ & Hj & _ & Hown & _). simpl in Hown.
  assert (j = fo_id o) as -> by (rewrite <-Hj; apply Hown; congruence). congruence.
Qed.

End Kept.

(** ** The writer's invariant *)

Lemma seg_name_inj i j : u_ok 64 i -> u_ok 64 j -> seg_name i = seg_name j -> i = j.
Proof. intros Hi Hj E. pose proof (seg_journal i Hi) as Ei. rewrite E, (seg_journal j Hj) in Ei. congruence. Qed.

(** The number the next generation gets. *)
Lemma next_generation_is d N : (forall i n, (i, n) ∈ generations d -> 0 <= i < N) ->
  N = 0 \/ (exists n, (N - 1, n) ∈ generations d) -> N <= u_max 64 -> next_generation d = N.
Proof.
  intros Hlt Hlast HN. unfold next_generation, last_index. destruct (last (generations d)) as [[j n']|] eqn:E; simpl.
  - assert (Hj : (j, n') ∈ generations d) by (apply last_Some in E as [l' ->]; set_solver).
    pose proof (Hlt _ _ Hj). destruct Hlast as [->|[n Hn]]; [lia|].
    assert (N - 1 <= j).
    { apply (last_is_greatest (generations d) (N - 1, n) (j, n')); [apply (StronglySorted_merge_sort index_le)|done|done]. }
    rewrite wrapu_small by (unfold u_ok; lia). lia.
  - apply last_None in E. destruct Hlast as [->|[n Hn]]; [done|]. rewrite E in Hn. by apply elem_of_nil in Hn.
Qed.

Section Base.
Context `{Chrono, JournalCodecLaws} (o : Followed) (ids : gset str).

Definition disk_ok (d : disk) : Prop :=
  forall p c r, is_journal p -> d !! p = Some c -> r ∈ (file_records c).2 -> rec_ok o ids r.

(** The disk tells that the statement finished, in a file no marker names. *)
Definition holds (d : disk) : Prop :=
  exists q c r, is_journal q /\ ~ marks d q /\ d !! q = Some c /\ r ∈ complete c /\ tells o r.

Definition crash_ok (acked : Prop) (s : Fs) : Prop := forall d, poss s d -> disk_ok d /\ (acked -> holds d).

#[local] Abbreviation seg_file k := (Statements, seg_name k).

(** [seg] is the writer's segment and [N] the number the next generation gets;
    [op]: the segment is open. *)
Record base (seg N : Z) (op : bool) (acked : Prop) (s : Fs) : Prop := {
  b_crash : crash_ok acked s;
  b_read : readable (cur s);
  b_gens : forall i n, (i, n) ∈ generations (cur s) -> 0 <= i < N;
  b_next : N = 0 \/ exists n, (N - 1, n) ∈ generations (cur s);
  b_fresh : forall d k, poss s d -> u_ok 64 k -> N <= k ->
    d !! (Compacted, gen_name k) = None /\ d !! (Compacted, done_name k) = None;
  b_segs : forall d k, poss s d -> u_ok 64 k -> seg < k -> d !! seg_file k = None;
  b_absent : forall d, poss s d -> cur s !! seg_file seg = None -> d !! seg_file seg = None;
  b_tail : forall c, cur s !! seg_file seg = Some c -> exists rs, encodes rs c /\ Forall (rec_ok o ids) rs;
  b_prefix : forall d q c c', poss s d -> is_journal q -> d !! q = Some c -> cur s !! q = Some c' -> c `prefix_of` c';
  b_marks : forall d p, poss s d -> marks d p ->
    exists i, journal_index p = Some i /\ i < match p.1 with Statements => seg | Compacted => N end;
  b_named : op = true -> is_Some (cur s !! seg_file seg) /\ forall d, poss s d -> is_Some (d !! seg_file seg) }.

(** What holds of fewer disks still holds. *)
Lemma base_sub seg N op op' (acked acked' : Prop) s s' :
  cur s' = cur s -> (forall d, poss s' d -> poss s d) ->
  (acked' -> forall d, poss s' d -> holds d) ->
  (op' = true -> is_Some (cur s !! seg_file seg) /\ forall d, poss s' d -> is_Some (d !! seg_file seg)) ->
  base seg N op acked s -> base seg N op' acked' s'.
Proof.
  intros Hc Hp Ha Hn Hb. destruct Hb. split; rewrite ?Hc; eauto.
  - intros d Hd. split; [by apply b_crash0, Hp|]. intros a. by apply Ha.
Qed.

Lemma base_sync_dir seg N op acked dd s : base seg N op acked s -> base seg N op acked (sync_dir_eff dd s).
Proof.
  intros Hb. apply (base_sub seg N op op acked acked s); [done|by intros d [? _]|..|done].
  - intros a d [Hd _]. by apply (b_crash _ _ _ _ _ Hb).
  - intros E. destruct (b_named _ _ _ _ _ Hb E). split; [done|]. intros d [Hd _]. auto.
Qed.

(** The directory sync after the open. *)
Lemma base_name seg N op acked s : is_Some (cur s !! seg_file seg) ->
  base seg N op acked s -> base seg N true acked (sync_dir_eff Statements s).
Proof.
  intros Hs Hb. apply (base_sub seg N op true acked acked s); [done|by intros d [? _]|..|done].
  - intros a d [Hd _]. by apply (b_crash _ _ _ _ _ Hb).
  - intros _. split; [done|]. intros d [_ Hd]. by apply Hd.
Qed.

Lemma base_close seg N op acked s : base seg N op acked s -> base seg N false acked s.
Proof.
  intros Hb. apply (base_sub seg N op false acked acked s); [done|done| |done|done].
  intros a d Hd. by apply (b_crash _ _ _ _ _ Hb).
Qed.

(** Sealing moves on to a segment that is nowhere on the disk. *)
Lemma base_seal seg N op acked s : poss s (cur s) -> 0 <= seg < u_max 64 -> base seg N op acked s -> base (seg + 1) N false acked s.
Proof.
  intros Hcur Hseg [].
  assert (Hno : forall d, poss s d -> d !! seg_file (seg + 1) = None) by (intros d Hd; apply b_segs0; [done|unfold u_ok; lia|lia]).
  split; try done.
  - intros d k Hd Hk Hlt. apply b_segs0; [done|done|lia].
  - intros d Hd _. by apply Hno.
  - intros c. by rewrite (Hno _ Hcur).
  - intros d p Hd Hm. destruct (b_marks0 d p Hd Hm) as (i & ? & ?). exists i. split; [done|]. case_match; lia.
Qed.

Lemma marks_seg d d' p : (forall name, d' !! (Compacted, name) = d !! (Compacted, name)) -> marks d' p <-> marks d p.
Proof. intros E. unfold marks. by setoid_rewrite E. Qed.

Lemma generations_seg d k c i n : (i, n) ∈ generations (<[seg_file k := c]> d) <-> (i, n) ∈ generations d.
Proof. unfold generations. rewrite !elem_of_indexed_files. by rewrite lookup_insert_ne. Qed.

(** Disks that differ from possible ones in the open segment only, which grew. *)
Definition grown (seg : Z) (c : list Z) (s : Fs) (d' : disk) : Prop :=
  exists d c', poss s d /\ d' = <[seg_file seg := c']> d /\ c' `prefix_of` c
    /\ forall c0, d !! seg_file seg = Some c0 -> c0 `prefix_of` c'.

Lemma complete_mono c c' : c `prefix_of` c' -> forall r, r ∈ complete c -> r ∈ complete c'.
Proof. intros [t ->] r Hr. destruct (complete_app c t) as [u ->]. set_solver. Qed.

Lemma grown_holds seg c s d' : (forall d, poss s d -> holds d) -> grown seg c s d' -> holds d'.
Proof.
  intros Ha (d & c' & Hd & -> & _ & Hg). destruct (Ha d Hd) as (q & c0 & r & Hj & Hm & Hq & Hr & Ht).
  assert (Hm' : ~ marks (<[seg_file seg := c']> d) q) by (rewrite (marks_seg d); [done|intros; by rewrite lookup_insert_ne]).
  destruct (decide (q = seg_file seg)) as [->|Hne].
  - exists (seg_file seg), c', r. rewrite lookup_insert_eq. split_and!; try done. by apply (complete_mono c0); [apply Hg|].
  - exists q, c0, r. rewrite lookup_insert_ne by done. by split_and!.
Qed.

Lemma grown_ok seg c rs s d' : encodes rs c -> Forall (rec_ok o ids) rs -> (forall d, poss s d -> disk_ok d) ->
  grown seg c s d' -> disk_ok d'.
Proof.
  intros He Hrs Hok (d & c' & Hd & -> & Hpre & _) p x r Hj Hx Hr. destruct (decide (p = seg_file seg)) as [->|Hne].
  - rewrite lookup_insert_eq in Hx. injection Hx as <-. rewrite Forall_forall in Hrs. apply Hrs. by eapply prefix_records.
  - rewrite lookup_insert_ne in Hx by done. by eapply Hok.
Qed.

Lemma base_grow seg N op acked s s' c rs : u_ok 64 seg -> base seg N op acked s ->
  cur s' = <[seg_file seg := c]> (cur s) -> encodes rs c -> Forall (rec_ok o ids) rs ->
  (forall c1, cur s !! seg_file seg = Some c1 -> c1 `prefix_of` c) ->
  (forall d', poss s' d' -> poss s d' \/ grown seg c s d') -> base seg N op acked s'.
Proof.
  intros Hseg [] Hc He Hrs Hmore Hp.
  assert (Hne : forall k, u_ok 64 k -> seg < k -> seg_file seg <> seg_file k) by (intros k Hk Hlt E; apply (f_equal snd), seg_name_inj in E; [lia|done|done]).
  split; rewrite ?Hc.
  - intros d' Hd'. split.
    + destruct (Hp d' Hd'); [by apply b_crash0|]. eapply grown_ok; [done..|intros d Hd; by apply b_crash0|done].
    + intros a. destruct (Hp d' Hd'); [by apply b_crash0|]. eapply grown_holds; [|done]. intros d Hd. by apply b_crash0.
  - intros p x Hj Hx. destruct (decide (p = seg_file seg)) as [->|Hpne].
    + rewrite lookup_insert_eq in Hx. injection Hx as <-. by rewrite (encodes_records _ _ He).
    + rewrite lookup_insert_ne in Hx by done. by eapply b_read0.
  - intros i n. rewrite generations_seg. apply b_gens0.
  - destruct b_next0 as [?|[n Hn]]; [by left|right]. exists n. by rewrite generations_seg.
  - intros d' k Hd' Hk Hle. destruct (Hp d' Hd') as [?|(d & c' & Hd & -> & _)]; [by apply b_fresh0|].
    rewrite !lookup_insert_ne by done. by apply b_fresh0.
  - intros d' k Hd' Hk Hlt. destruct (Hp d' Hd') as [?|(d & c' & Hd & -> & _)]; [by apply b_segs0|].
    rewrite lookup_insert_ne by (by apply Hne). by apply b_segs0.
  - intros d' _. by rewrite lookup_insert_eq.
  - intros x. rewrite lookup_insert_eq. intros [= <-]. by exists rs.
  - intros d' q x x' Hd' Hj Hx Hx'. destruct (decide (q = seg_file seg)) as [->|Hqne].
    + rewrite lookup_insert_eq in Hx'. injection Hx' as <-. destruct (Hp d' Hd') as [?|(d & c' & Hd & -> & Hpre & _)].
      * destruct (cur s !! seg_file seg) as [c1|] eqn:E; [|by rewrite b_absent0 in Hx]. etrans; [by eapply b_prefix0|by apply Hmore].
      * rewrite lookup_insert_eq in Hx. by injection Hx as <-.
    + rewrite lookup_insert_ne in Hx' by done. destruct (Hp d' Hd') as [?|(d & c' & Hd & -> & _)]; [by eapply b_prefix0|].
      rewrite lookup_insert_ne in Hx by done. by eapply (b_prefix0 d).
  - intros d' p Hd' Hm. destruct (Hp d' Hd') as [?|(d & c' & Hd & -> & _)]; [by eapply b_marks0|].
    eapply (b_marks0 d); [done|]. rewrite <-(marks_seg d); [exact Hm|]. intros. by rewrite lookup_insert_ne.
  - intros E. destruct (b_named0 E) as [_ Hn]. split; [rewrite lookup_insert_eq; by eexists|].
    intros d' Hd'. destruct (Hp d' Hd') as [?|(d & c' & Hd & -> & _)]; [by apply Hn|]. rewrite lookup_insert_eq. by eexists.
Qed.

Lemma base_open seg N op acked s : u_ok 64 seg -> base seg N op acked s ->
  base seg N op acked (open_append_eff (seg_file seg) s) /\ is_Some (cur (open_append_eff (seg_file seg) s) !! seg_file seg).
Proof.
  intros Hseg Hb. unfold open_append_eff. destruct (cur s !! seg_file seg) as [c|] eqn:E; [by rewrite E|].
  split; [|simpl; rewrite lookup_insert_eq; by eexists].
  eapply (base_grow _ _ _ _ s _ [] []); [done|done|done|constructor|constructor|by rewrite E|].
  intros d' [?|(d & Hd & ->)]; [by left|right]. exists d, []. split; [done|]. split; [done|]. split; [done|].
  by rewrite (b_absent _ _ _ _ _ Hb d Hd E).
Qed.

Lemma base_write seg N acked s r line : u_ok 64 seg -> record_line r = Some line -> rec_ok o ids r -> base seg N true acked s ->
  base seg N true acked (write_eff (seg_file seg) line s)
  /\ exists rs c, cur (write_eff (seg_file seg) line s) !! seg_file seg = Some c /\ encodes rs c /\ r ∈ rs.
Proof.
  intros Hseg Hl Hr Hb. destruct (b_named _ _ _ _ _ Hb eq_refl) as [[c Hc] _].
  destruct (b_tail _ _ _ _ _ Hb c Hc) as (rs & He & Hrs).
  assert (He' : encodes (rs ++ [r]) (c ++ line)) by (by econstructor).
  assert (Ha : forall (d : disk) k, d !! seg_file seg = Some c ->
    alter (fun c => c ++ take k line) (seg_file seg) d = <[seg_file seg := c ++ take k line]> d).
  { intros d k Hd. apply map_eq. intros q. destruct (decide (q = seg_file seg)) as [->|].
    - by rewrite lookup_alter_eq, lookup_insert_eq, Hd.
    - by rewrite lookup_alter_ne, lookup_insert_ne. }
  split.
  - eapply (base_grow _ _ _ _ s _ (c ++ line) (rs ++ [r])); [done|done| |done|by apply Forall_app; auto| |].
    + simpl. pose proof (Ha (cur s) (length line) Hc) as E. by rewrite firstn_all in E.
    + rewrite Hc. intros c1 [= <-]. by apply prefix_app_r.
    + intros d' [?|(d & k & Hd & Hsame & ->)]; [by left|right]. rewrite Hc in Hsame. exists d, (c ++ take k line).
      split; [done|]. split; [by apply Ha|]. split; [apply prefix_app; by exists (drop k line); rewrite take_drop|].
      rewrite Hsame. intros c0 [= <-]. by apply prefix_app_r.
  - exists (rs ++ [r]), (c ++ line). simpl. rewrite lookup_alter_eq, Hc. split; [done|]. split; [done|set_solver].
Qed.

(** An fsync makes what the segment tells certain. *)
Lemma base_sync seg N (acked acked' : Prop) s : u_ok 64 seg ->
  (acked' -> acked \/ exists rs c r, cur s !! seg_file seg = Some c /\ encodes rs c /\ r ∈ rs /\ tells o r) ->
  base seg N true acked s -> base seg N true acked' (sync_eff (seg_file seg) s).
Proof.
  intros Hseg Ha Hb. destruct (b_named _ _ _ _ _ Hb eq_refl) as [Hs Hn].
  apply (base_sub seg N true true acked acked' s); [done|by intros d [? _]|..|done].
  - intros a d [Hd Hsame]. destruct (Ha a) as [a'|(rs & c & r & Hc & He & Hr & Ht)]; [by apply (b_crash _ _ _ _ _ Hb)|].
    exists (seg_file seg), c, r. split; [eexists; by apply seg_journal|]. split_and!; [| |by rewrite (encodes_complete _ _ He)|done].
    + intros Hm. destruct (b_marks _ _ _ _ _ Hb d _ Hd Hm) as (i & Hi & Hlt). rewrite (seg_journal seg Hseg) in Hi.
      injection Hi as <-. simpl in Hlt. lia.
    + destruct Hsame as [E|E]; [|by rewrite E]. destruct (Hn d Hd) as [x Hx]. congruence.
  - intros _. split; [done|]. intros d [Hd _]. auto.
Qed.

End Base.

(** ** A compaction pass *)

Section Pass.
Context `{Chrono, JournalCodecLaws} (cfg : HistoryConfig) (o : Followed) (ids : gset str).
Context (Hmax : Z.of_nat (size ids) < max_records cfg) (now : Z) (Hage : in_age cfg o now).
Context (seg N : Z) (op : bool) (acked : Prop) (s0 : Fs).
Context (Hb : base o ids seg N op acked s0) (Hcur : poss s0 (cur s0)) (Hseg : u_ok 64 seg) (HN : 0 <= N < u_max 64).

#[local] Abbreviation c0 := (cur s0).
#[local] Abbreviation target := (Compacted, gen_name N).
#[local] Abbreviation names := (input_names seg c0).
#[local] Abbreviation kept := (kept_statements cfg now seg c0).
#[local] Abbreviation replaced := (replaced N names (ordered kept)).

Lemma inputs_ok : Forall (rec_ok o ids) (input_records seg c0).
Proof.
  apply Forall_forall. intros r (p & (_ & i & Hi & _)%elem_of_input_files & Hr)%elem_of_journal_records. unfold content in Hr.
  destruct (c0 !! p) as [c|] eqn:E; [|by apply elem_of_nil in Hr].
  apply (b_crash _ _ _ _ _ _ _ Hb _ Hcur) with p c; [by exists i|done|done].
Qed.

Lemma untouched_holds d0 d : untouched d0 d -> holds o d0 -> holds o d.
Proof.
  intros (Hsame & Hmarks & _) (q & c & r & Hj & Hm & Hq & Hr & Ht). exists q, c, r. rewrite Hsame by done.
  split_and!; try done. intros ?. by apply Hm, Hmarks.
Qed.

Lemma untouched_ok d0 d : untouched d0 d -> disk_ok o ids d0 -> disk_ok o ids d.
Proof. intros (Hsame & _) Hok p c r Hj Hc. rewrite Hsame in Hc by done. by eapply Hok. Qed.

Lemma target_index : journal_index target = Some N.
Proof. apply gen_journal. unfold u_ok. lia. Qed.

Lemma replaced_ok d0 d : disk_ok o ids d0 -> replaced d0 d -> disk_ok o ids d.
Proof.
  intros Hok ((ct & Ht & He) & Hother & _) p c r Hj Hc Hr. destruct (decide (p = target)) as [->|Hne].
  - rewrite Ht in Hc. injection Hc as <-. rewrite (encodes_records _ _ He) in Hr. simpl in Hr.
    eapply (snapshots_ok cfg o ids now); [apply inputs_ok|exact Hr].
  - destruct (Hother p Hj Hne) as [E|[_ E]]; [|congruence]. rewrite E in Hc. by eapply Hok.
Qed.

Lemma replaced_unmarked d0 d p : poss s0 d0 -> replaced d0 d -> marks d p ->
  exists i, journal_index p = Some i /\ i < match p.1 with Statements => seg | Compacted => N end.
Proof.
  intros Hd0 (_ & _ & Hmarks & _) Hm. rewrite resolve_input_names in Hmarks.
  destruct (Hmarks p Hm) as [Hm0|(Hs & i & Hi & Hlt)%elem_of_input_files]; [by apply (b_marks _ _ _ _ _ _ _ Hb d0)|].
  exists i. split; [done|]. destruct p as [[] n]; [by apply Hlt|].
  apply (b_gens _ _ _ _ _ _ _ Hb i n). apply elem_of_indexed_files. by split.
Qed.

Lemma replaced_holds d0 d : poss s0 d0 -> replaced d0 d -> holds o d0 -> holds o d.
Proof.
  intros Hd0 Hrep (q & c & r & Hj & Hm & Hq & Hr & Ht). pose proof Hrep as ((ct & Hct & He) & Hother & Hmarks & _).
  rewrite resolve_input_names in Hother, Hmarks. destruct (decide (q ∈ input_files seg c0)) as [Hin|Hout].
  - pose proof Hin as ([c' Hc'] & _)%elem_of_input_files.
    assert (Hr0 : r ∈ input_records seg c0).
    { apply elem_of_journal_records. exists q. split; [done|]. unfold content. rewrite Hc'. simpl.
      destruct (complete_file_records c') as [u ->]. apply elem_of_app. left.
      eapply complete_mono; [by eapply (b_prefix _ _ _ _ _ _ _ Hb d0)|done]. }
    destruct (snapshots_tell cfg o ids Hmax now _ r Hage inputs_ok Hr0 Ht) as (r' & Hr' & Ht').
    exists target, ct, r'. split; [by eexists; apply target_index|].
    split; [|split; [done|split; [by rewrite (encodes_complete _ _ He)|done]]].
    intros Hm'. destruct (replaced_unmarked d0 d _ Hd0 Hrep Hm') as (i & Hi & Hlt). rewrite target_index in Hi.
    injection Hi as <-. simpl in Hlt. lia.
  - assert (Hne : q <> target).
    { intros ->. destruct (b_fresh _ _ _ _ _ _ _ Hb d0 N Hd0) as [E _]; [unfold u_ok; lia|lia|congruence]. }
    exists q, c, r. split; [done|]. split; [by intros [?|?]%Hmarks|]. split; [|done].
    destruct (Hother q Hj Hne) as [->|[? _]]; done.
Qed.

Lemma pass_crash s : mixed N names (ordered kept) (poss s0) s -> crash_ok o ids acked s.
Proof.
  intros Hmix d Hd. destruct (Hmix d Hd) as (d0 & Hd0 & Hcase). pose proof (b_crash _ _ _ _ _ _ _ Hb d0 Hd0) as [Hok Hh].
  split; [|intros a; specialize (Hh a)]; destruct Hcase; eauto using untouched_ok, untouched_holds, replaced_ok, replaced_holds.
Qed.

Lemma pass_untouched s : every (poss s0) c0 untouched s -> base o ids seg N op acked s.
Proof.
  intros Hev. pose proof (untouched_mixed N names (ordered kept) _ _ s Hev) as Hmix. destruct Hev as [(Hc & Hcm & Hcd) Hp]. split.
  - by apply pass_crash.
  - intros p c Hj Hpc. rewrite Hc in Hpc by done. by eapply (b_read _ _ _ _ _ _ _ Hb).
  - intros i n [Hs Hi]%elem_of_indexed_files. apply (b_gens _ _ _ _ _ _ _ Hb i n), elem_of_indexed_files.
    rewrite <-Hc by (by exists i). done.
  - destruct (b_next _ _ _ _ _ _ _ Hb) as [?|[n [Hs Hi]%elem_of_indexed_files]]; [by left|right]. exists n.
    apply elem_of_indexed_files. rewrite Hc by (by eexists). done.
  - intros d k Hd Hk Hle. destruct (Hp d Hd) as (d0 & Hd0 & Hu & _ & Hdone). rewrite Hdone, Hu by (eexists; by apply gen_journal).
    by apply (b_fresh _ _ _ _ _ _ _ Hb).
  - intros d k Hd Hk Hlt. destruct (Hp d Hd) as (d0 & Hd0 & Hu & _). rewrite Hu by (eexists; by apply seg_journal).
    by apply (b_segs _ _ _ _ _ _ _ Hb).
  - intros d Hd. destruct (Hp d Hd) as (d0 & Hd0 & Hu & _). rewrite Hu, Hc by (eexists; by apply seg_journal).
    by apply (b_absent _ _ _ _ _ _ _ Hb).
  - intros c. rewrite Hc by (eexists; by apply seg_journal). apply (b_tail _ _ _ _ _ _ _ Hb).
  - intros d q c c' Hd Hj. destruct (Hp d Hd) as (d0 & Hd0 & Hu & _). rewrite Hu, Hc by done. by apply (b_prefix _ _ _ _ _ _ _ Hb).
  - intros d p Hd Hm. destruct (Hp d Hd) as (d0 & Hd0 & _ & Hu & _). apply (b_marks _ _ _ _ _ _ _ Hb d0); auto.
  - intros E. destruct (b_named _ _ _ _ _ _ _ Hb E) as [Hs Hn]. rewrite Hc by (eexists; by apply seg_journal). split; [done|].
    intros d Hd. destruct (Hp d Hd) as (d0 & Hd0 & Hu & _). rewrite Hu by (eexists; by apply seg_journal). auto.
Qed.

(** The open segment and the segments to come are no inputs. *)
Lemma replaced_seg d0 d k : u_ok 64 k -> seg <= k -> replaced d0 d -> d !! (Statements, seg_name k) = d0 !! (Statements, seg_name k).
Proof.
  intros Hk Hle (_ & Hother & _). rewrite resolve_input_names in Hother.
  destruct (Hother (Statements, seg_name k)) as [?|[(_ & i & Hi & Hlt)%elem_of_input_files _]]; [eexists; by apply seg_journal|done|done|].
  rewrite (seg_journal k Hk) in Hi. injection Hi as <-. specialize (Hlt eq_refl). lia.
Qed.

Lemma replaced_gen d0 d k : u_ok 64 k -> N < k -> poss s0 d0 -> replaced d0 d ->
  d !! (Compacted, gen_name k) = None /\ d !! (Compacted, done_name k) = None.
Proof.
  intros Hk Hlt Hd0 (_ & Hother & _ & Hdone). destruct (b_fresh _ _ _ _ _ _ _ Hb d0 k Hd0 Hk) as [E1 E2]; [lia|]. split.
  - destruct (Hother (Compacted, gen_name k)) as [?|[_ ?]]; [eexists; by apply gen_journal| |congruence|done].
    intros E. pose proof (gen_journal k Hk) as Ek. rewrite E, target_index in Ek. injection Ek as ->. lia.
  - destruct (Hdone k) as [?|?]; [|congruence|done]. intros E.
    unfold done_name, fmt in E. cbn [concat] in E. apply app_inv_head, app_inv_tail, show_pad_inj in E; [lia|apply Hk|apply HN].
Qed.

Lemma pass_replaced s : every (poss s0) c0 replaced s -> base o ids seg (N + 1) op acked s.
Proof.
  intros Hev. assert (Hmix : mixed N names (ordered kept) (poss s0) s) by (by eapply replaced_mixed).
  destruct Hev as [Hc Hp]. pose proof Hc as ((ct & Hct & He) & Hother & _).
  split.
  - by apply pass_crash.
  - intros p c Hj Hpc. destruct (decide (p = target)) as [->|Hne].
    + rewrite Hct in Hpc. injection Hpc as <-. by rewrite (encodes_records _ _ He).
    + destruct (Hother p Hj Hne) as [E|[_ E]]; [|congruence]. rewrite E in Hpc. by eapply (b_read _ _ _ _ _ _ _ Hb).
  - intros i n [Hs Hi]%elem_of_indexed_files. destruct (decide ((Compacted, n) = target)) as [E|Hne].
    + pose proof target_index as Ei. rewrite <-E in Ei. unfold journal_index in Ei. simpl in Ei. rewrite Hi in Ei. injection Ei as ->. lia.
    + destruct (Hother (Compacted, n)) as [E|[_ E]]; [by exists i|done| |rewrite E in Hs; by destruct Hs].
      assert (0 <= i < N); [|lia]. apply (b_gens _ _ _ _ _ _ _ Hb i n), elem_of_indexed_files. by rewrite <-E.
  - right. exists (gen_name N). replace (N + 1 - 1) with N by lia. apply elem_of_indexed_files. split; [by eexists|apply target_index].
  - intros d k Hd Hk Hle. destruct (Hp d Hd) as (d0 & Hd0 & Hr). eapply replaced_gen; [done|lia|done|done].
  - intros d k Hd Hk Hlt. destruct (Hp d Hd) as (d0 & Hd0 & Hr). rewrite (replaced_seg d0 d) by (try done; lia).
    by apply (b_segs _ _ _ _ _ _ _ Hb).
  - intros d Hd. destruct (Hp d Hd) as (d0 & Hd0 & Hr). rewrite (replaced_seg d0 d), (replaced_seg c0 (cur s)) by (try done; lia).
    by apply (b_absent _ _ _ _ _ _ _ Hb).
  - intros c. rewrite (replaced_seg c0 (cur s)) by (try done; lia). apply (b_tail _ _ _ _ _ _ _ Hb).
  - intros d q c c' Hd Hj Hq Hq'. destruct (Hp d Hd) as (d0 & Hd0 & (ct' & Hct' & He') & Hother' & _).
    destruct (decide (q = target)) as [->|Hne].
    + rewrite Hct' in Hq. rewrite Hct in Hq'. injection Hq as <-. injection Hq' as <-. by rewrite (encodes_inj _ _ _ He He').
    + destruct (Hother q Hj Hne) as [E|[_ E]]; [|congruence]. destruct (Hother' q Hj Hne) as [E'|[_ E']]; [|congruence].
      eapply (b_prefix _ _ _ _ _ _ _ Hb d0); [done|done|congruence|congruence].
  - intros d p Hd Hm. destruct (Hp d Hd) as (d0 & Hd0 & Hr). destruct (replaced_unmarked d0 d p Hd0 Hr Hm) as (i & ? & ?).
    exists i. split; [done|]. case_match; lia.
  - intros E. destruct (b_named _ _ _ _ _ _ _ Hb E) as [Hs Hn]. rewrite (replaced_seg c0 (cur s)) by (try done; lia). split; [done|].
    intros d Hd. destruct (Hp d Hd) as (d0 & Hd0 & Hr). rewrite (replaced_seg d0 d) by (try done; lia). auto.
Qed.

End Pass.

(** ** The writer *)

Definition either (Q E : World -> Prop) (r : result Error unit) : World -> Prop := match r with Ok _ => Q | Err _ => E end.

Lemma triple_either m (P Q E : World -> Prop) F C :
  triple P m (fun _ => Q) (fun _ => E) C -> triple P (try_ m) (either Q E) F C.
Proof. intros Hm. by apply (triple_try m P (either Q E)). Qed.

Section Life.
Context `{Chrono, JournalCodecLaws} (cfg : HistoryConfig) (o : Followed) (ids : gset str).
Context (Hmax : Z.of_nat (size ids) < max_records cfg).

Lemma steady_sane ev : steady_disk ev -> sane ev.
Proof. by intros [? _]. Qed.

(** The acknowledged records tell that the statement finished. *)
Definition told (ak : list JournalRecord) : Prop := exists r, r ∈ ak /\ tells o r.

#[local] Abbreviation st x dg wf ak := (at_ steady_disk (x, dg, wf, ak)).
#[local] Abbreviation seg_file k := (Statements, seg_name k).

Definition safe (seg N : Z) (w : World) : Prop := exists x dg wf ak,
  st x dg wf ak (base o ids seg N (wr_open x) (told ak)) w /\ wr_segment x = seg.
Definition crashed (w : World) : Prop :=
  poss (w_fs w) (cur (w_fs w)) /\ crash_ok o ids (told (w_acked w)) (w_fs w).

Lemma safe_pre {A} seg N (m : M World A) Q F C :
  (forall x dg wf ak, wr_segment x = seg -> triple (st x dg wf ak (base o ids seg N (wr_open x) (told ak))) m Q F C) ->
  triple (safe seg N) m Q F C.
Proof. intros Hm w (x & dg & wf & ak & Hw & Hx). by apply (Hm x dg wf ak Hx). Qed.

Lemma safe_intro seg N x dg wf ak (I : Fs -> Prop) w : st x dg wf ak I w ->
  (forall s, I s -> base o ids seg N (wr_open x) (told ak) s) -> wr_segment x = seg -> safe seg N w.
Proof. intros Hw HI Hx. exists x, dg, wf, ak. split; [|done]. by eapply at_weaken. Qed.

Lemma crash_crashed x dg wf ak w : st x dg wf ak (crash_ok o ids (told ak)) w -> crashed w.
Proof. intros (_ & [= _ _ _ E] & ? & Hc). unfold crashed. by rewrite E. Qed.

Lemma base_crashed seg N op x dg wf ak w : st x dg wf ak (base o ids seg N op (told ak)) w -> crashed w.
Proof. intros Hw. eapply crash_crashed, at_weaken; [|exact Hw]. intros s. apply b_crash. Qed.

Lemma get_writer_triple x dg wf ak I F C :
  triple (st x dg wf ak I) get_writer (fun y w => st x dg wf ak I w /\ y = x) F C.
Proof. intros w Hw. split; [done|]. by destruct Hw as (_ & [= E _ _ _] & _). Qed.

Lemma update_writer_triple g x dg wf ak I F C :
  triple (st x dg wf ak I) (update_writer g) (fun _ => st (g x) dg wf ak I) F C.
Proof. apply triple_modify. intros w (? & [= <- <- <- <-] & ? & ?). by split_and!. Qed.

Lemma degraded_triple b x dg wf ak I F C :
  triple (st x dg wf ak I) (modify (set_degraded b)) (fun _ => st x b wf ak I) F C.
Proof. apply triple_modify. intros w (? & [= <- <- <- <-] & ? & ?). by split_and!. Qed.

Lemma fail_triple seg N op x dg wf ak F C : wr_segment x = seg ->
  triple (st x dg wf ak (base o ids seg N op (told ak))) fail (fun _ => safe seg N) F C.
Proof.
  intros Hx w (Hsc & [= <- <- <- <-] & Hc & Hb). unfold fail, mbind, modify, update_writer. simpl.
  eexists _, _, _, _. split; [split; [done|]; split; [reflexivity|]; split; [done|]; by eapply base_close|exact Hx].
Qed.

(** A call that leaves the invariant as it is when refused. *)
Lemma call_triple c eff short `{!KeepsCur eff} seg N op x dg wf ak (Q : Fs -> Prop) :
  (forall k s, short k s = s) \/ (forall ev k, steady_disk ev -> ev c <> Short k) ->
  (forall s, base o ids seg N op (told ak) s -> Q (eff s)) ->
  triple (st x dg wf ak (base o ids seg N op (told ak))) (fs_call c eff short)
    (fun _ => st x dg wf ak Q) (fun _ => st x dg wf ak (base o ids seg N op (told ak))) crashed.
Proof.
  intros Hs HQ w Hw. pose proof Hw as (Hsc & Hr & Hc & HI). unfold fs_call. destruct (w_script w) as [|ev sc] eqn:Es.
  { split; [simpl; by rewrite Es|]. split; [done|]. split; [exact (KeepsCur0 _ Hc)|by apply HQ]. }
  apply Forall_cons in Hsc as [Hev Hsc]. destruct (ev c) as [| |k|] eqn:Ec.
  - split; [done|]. split; [done|]. split; [exact (KeepsCur0 _ Hc)|by apply HQ].
  - by split_and!.
  - destruct Hs as [Hs|Hs]; [|by destruct (Hs ev k Hev)]. rewrite Hs. by split_and!.
  - eapply (base_crashed seg N op x dg wf ak). by split_and!.
Qed.

Lemma fsync_statements_triple seg N op op' x dg wf ak (Q : Fs -> Prop) F :
  (forall s, Q s -> base o ids seg N op' (told ak) s) ->
  (forall s, Q s -> base o ids seg N op (told ak) (sync_dir_eff Statements s)) ->
  triple (st x dg wf ak Q) (fsync_dir Statements) (fun _ => st x dg wf ak (base o ids seg N op (told ak))) F crashed.
Proof.
  intros HQ HS. eapply triple_conseq; [apply (fsync_dir_triple _ steady_sane Statements (x, dg, wf, ak) Q _ (base o ids seg N op' (told ak)) F HS HQ)|auto..|].
  intros w. apply base_crashed.
Qed.

Lemma ensure_segment_triple seg N F : u_ok 64 seg ->
  triple (safe seg N) ensure_segment (fun b w => safe seg N w /\ (b = true -> wr_open (w_writer w) = true)) F crashed.
Proof.
  intros Hseg. apply safe_pre. intros x dg wf ak Hx. unfold ensure_segment.
  eapply triple_bind; [apply get_writer_triple|]. intros y. apply triple_pure. intros ->.
  destruct (wr_open x) eqn:Eo.
  { apply triple_ret. intros w Hw. split; [exists x, dg, wf, ak; by rewrite Eo|]. by destruct Hw as (_ & [= -> _ _ _] & _). }
  unfold seg_path. rewrite Hx.
  set (Q := fun s => base o ids seg N false (told ak) s /\ is_Some (cur s !! seg_file seg)).
  eapply (triple_bind _ _ _ (either (st x dg wf ak Q) (st x dg wf ak (base o ids seg N false (told ak))))).
  { apply triple_either. apply (call_triple OpenAppend (open_append_eff (seg_file seg))); [apply _|by left|]. intros s. by apply base_open. }
  intros [[]|e].
  2: { eapply triple_bind; [by apply (fail_triple seg N)|]. intros ?. apply triple_ret. intros w Hw. by split. }
  eapply (triple_bind _ _ _ (fun _ => st x dg wf ak Q)); [apply triple_get; auto|]. intros w0. cbv zeta.
  set (len := match cur (w_fs w0) !! _ with Some c => _ | None => 0 end).
  eapply triple_bind; [apply update_writer_triple|]. intros ?.
  eapply triple_bind; [apply (fsync_statements_triple seg N true false); [by intros s [? _]|]|].
  { intros s [Hb Hs]. by eapply base_name. }
  intros ?. apply triple_ret. intros w Hw. split; [eapply safe_intro; [exact Hw|auto|exact Hx]|].
  by destruct Hw as (_ & [= -> _ _ _] & _).
Qed.

(** The open segment ends with the record. *)
Definition written (seg : Z) (rec : JournalRecord) (s : Fs) : Prop :=
  exists rs c, cur s !! seg_file seg = Some c /\ encodes rs c /\ rec ∈ rs.
Definition appended (seg : Z) (rec : JournalRecord) (w : World) : Prop :=
  wr_open (w_writer w) = true /\ wr_dirty (w_writer w) = true /\ written seg rec (w_fs w).

Lemma writer_append_triple seg N rec F : u_ok 64 seg -> rec_ok o ids rec ->
  triple (safe seg N) (writer_append rec) (fun b w => safe seg N w /\ (b = true -> appended seg rec w)) F crashed.
Proof.
  intros Hseg Hrec. unfold writer_append. destruct (record_line rec) as [line|] eqn:El.
  2: { apply safe_pre. intros x dg wf ak Hx. eapply triple_bind; [|intros ?; apply triple_ret; intros w Hw; split; [exact Hw|done]].
       apply triple_modify. intros w (? & [= <- <- <- <-] & ? & ?). eexists _, _, _, _. by split. }
  eapply triple_bind; [by apply ensure_segment_triple|]. intros [] w [(x & dg & wf & ak & Hw & Hx) Ho]; [|by split; [exists x, dg, wf, ak|]].
  specialize (Ho eq_refl). pose proof Hw as (_ & [= Ex _ _ _] & _). rewrite Ex in Ho. rewrite Ho in Hw. clear Ex. revert w Hw.
  set (P := base o ids seg N true (told ak)). change (triple (st x dg wf ak P)
    (do! y <- get_writer; do! r <- try_ (fs_write (seg_path y) line);
     match r with
     | Ok _ => run! update_writer (fun x => {| wr_open := wr_open x; wr_segment := wr_segment x;
                   wr_len := wrapu 64 (wr_len x + Z.of_nat (length line)); wr_dirty := true |});
               run! modify (set_degraded false); ret true
     | Err _ => run! fail; ret false end) (fun b w => safe seg N w /\ (b = true -> appended seg rec w)) F crashed).
  eapply triple_bind; [apply get_writer_triple|]. intros y. apply triple_pure. intros ->. unfold seg_path. rewrite Hx.
  eapply (triple_bind _ _ _ (either (st x dg wf ak (fun s => P s /\ written seg rec s)) (st x dg wf ak P))).
  { apply triple_either. apply (call_triple WriteFile (write_eff (seg_file seg) line)); [apply _|right; by intros ev k [_ ?]|].
    intros s Hs. by apply base_write. }
  intros [[]|e].
  2: { eapply triple_bind; [by apply (fail_triple seg N)|]. intros ?. apply triple_ret. intros w Hw. by split. }
  eapply triple_bind; [apply update_writer_triple|]. intros ?. eapply triple_bind; [apply degraded_triple|]. intros ?.
  apply triple_ret. intros w Hw. split.
  - eapply safe_intro; [exact Hw| |exact Hx]. simpl wr_open. rewrite Ho. by intros s [? _].
  - intros _. destruct Hw as (_ & [= Ex _ _ _] & _ & _ & Hw). split; [by rewrite Ex|]. by split; [rewrite Ex|].
Qed.

(** A sync that succeeds makes an appended record count as acknowledged. *)
Lemma writer_sync_triple seg N rec (T : Prop) F : u_ok 64 seg ->
  triple (fun w => safe seg N w /\ (T -> appended seg rec w)) writer_sync
    (fun b w => safe seg N w /\ (b = true -> T -> safe seg N (set_acked rec w))) F crashed.
Proof.
  intros Hseg w [(x & dg & wf & ak & Hw & Hx) Ht].
  pose proof Hw as (_ & [= Ex _ _ _] & _). unfold writer_sync, mbind at 1. unfold get_writer, mbind at 1, get, ret. rewrite Ex.
  destruct (wr_dirty x) eqn:Ed; simpl negb; cbv iota.
  2: { split; [by exists x, dg, wf, ak|]. intros _ (_ & Hd & _)%Ht. congruence. }
  destruct (wr_open x) eqn:Eo; simpl negb; cbv iota; [|by split; [exists x, dg, wf, ak; rewrite Eo|]].
  set (I := fun s => base o ids seg N true (told ak) s /\ (T -> written seg rec s)).
  assert (Hi : st x dg wf ak I w).
  { destruct Hw as (? & ? & ? & ?). repeat (split; [done|]). intros a. by apply Ht. }
  set (Q := fun s => base o ids seg N true (told ak) s /\ (T -> base o ids seg N true (told (ak ++ [rec])) s)).
  unfold seg_path. rewrite Hx. revert w Hi Hw Ht Ex. intros w Hi _ _ _. revert w Hi. change (triple (st x dg wf ak I)
    (do! r <- try_ (fs_sync (seg_file seg));
     match r with
     | Ok _ => run! update_writer (fun x => {| wr_open := wr_open x; wr_segment := wr_segment x; wr_len := wr_len x; wr_dirty := false |});
               run! modify (set_degraded false); ret true
     | Err _ => run! fail; ret false end) (fun b w => safe seg N w /\ (b = true -> T -> safe seg N (set_acked rec w))) F crashed).
  eapply (triple_bind _ _ _ (either (st x dg wf ak Q) (st x dg wf ak (base o ids seg N true (told ak))))).
  { apply triple_either. eapply triple_conseq; [apply (plain_triple steady_disk SyncFile (sync_eff (seg_file seg)) (x, dg, wf, ak) I Q I)|auto| | |].
    - intros s [Hb Hr]. split; [eapply base_sync; [done|intros ?; by left|done]|]. intros t. eapply base_sync; [done| |done].
      intros (r & [Hin|Hin]%elem_of_app & Htell); [left; by exists r|]. apply list_elem_of_singleton in Hin as ->.
      right. destruct (Hr t) as (rs & c & ? & ? & ?). by exists rs, c, rec.
    - auto.
    - auto.
    - intros e w. apply at_weaken. by intros s [? _].
    - intros w Hw. eapply (base_crashed seg N true), at_weaken; [|exact Hw]. by intros s [? _]. }
  intros [[]|e].
  2: { eapply triple_bind; [by apply (fail_triple seg N)|]. intros ?. apply triple_ret. intros w Hw. by split. }
  eapply triple_bind; [apply update_writer_triple|]. intros ?. eapply triple_bind; [apply degraded_triple|]. intros ?.
  apply triple_ret. intros w Hw. split.
  - eapply safe_intro; [exact Hw| |exact Hx]. simpl wr_open. rewrite Eo. by intros s [? _].
  - intros _ t. destruct Hw as (Hsc & Er & Hc & _ & Hq). injection Er as E1 E2 E3 E4.
    apply (safe_intro _ _ (w_writer w) false wf (ak ++ [rec]) (base o ids seg N true (told (ak ++ [rec])))).
    + split; [exact Hsc|]. split; [unfold rest_of; simpl; by rewrite E2, E3, E4|]. split; [done|by apply Hq].
    + rewrite E1. simpl wr_open. by rewrite Eo.
    + by rewrite E1.
Qed.

Lemma plain_sync_triple seg N F : u_ok 64 seg -> triple (safe seg N) writer_sync (fun _ => safe seg N) F crashed.
Proof.
  intros Hseg. eapply triple_conseq; [apply (writer_sync_triple seg N (tombstone [] [] 0 0) False F Hseg)|by split|by intros b w [? _]|auto..].
Qed.

Lemma seal_triple seg N F : 0 <= seg < u_max 64 ->
  triple (safe seg N) seal (fun _ w => safe seg N w \/ safe (seg + 1) N w) F crashed.
Proof.
  intros Hseg. unfold seal. eapply triple_bind; [apply (plain_sync_triple seg N); unfold u_ok; lia|]. intros ?.
  apply safe_pre. intros x dg wf ak Hx. eapply triple_bind; [apply get_writer_triple|]. intros y. apply triple_pure. intros ->.
  destruct (wr_open x) eqn:Eo.
  2: { apply triple_ret. intros w Hw. left. eapply safe_intro; [exact Hw|by rewrite Eo|exact Hx]. }
  eapply triple_bind; [apply update_writer_triple|]. intros ?.
  eapply triple_bind; [apply (fsync_statements_triple seg N true true); [auto|intros s; apply base_sync_dir]|]. intros ?.
  intros w Hw. right.
  pose proof (update_writer_triple (fun x => {| wr_open := wr_open x; wr_segment := wrapu 64 (wr_segment x + 1); wr_len := 0;
    wr_dirty := wr_dirty x |}) _ _ _ _ _ F crashed w Hw) as (Hsc & Hr & Hc & Hb).
  eapply (safe_intro (seg + 1) N _ _ _ _ (base o ids (seg + 1) N false (told ak))).
  - split; [done|]. split; [exact Hr|]. split; [done|]. by eapply base_seal.
  - auto.
  - simpl. rewrite Hx. apply wrapu_small; unfold u_ok; lia.
Qed.

Lemma compact_triple seg N now force F : in_age cfg o now -> u_ok 64 seg -> 0 <= N < u_max 64 ->
  triple (safe seg N) (compact cfg now force) (fun _ w => safe seg N w \/ safe seg (N + 1) w) F crashed.
Proof.
  intros Hage Hseg HN w (x & dg & wf & ak & Hw & Hx). pose proof Hw as (Hsc & Hr & Hc & Hb).
  pose proof Hr as [= Ex _ _ _]. unfold compact, mbind, get_writer, mbind, get, ret, try_. rewrite Ex, Hx.
  assert (Hnext : next_generation (cur (w_fs w)) = N).
  { apply next_generation_is; [apply (b_gens _ _ _ _ _ _ _ Hb)|apply (b_next _ _ _ _ _ _ _ Hb)|lia]. }
  pose proof (compact_sealed_triple cfg steady_disk steady_sane now seg (poss (w_fs w)) (cur (w_fs w)) Hc (b_read _ _ _ _ _ _ _ Hb)) as Ht.
  rewrite Hnext in Ht. specialize (Ht ltac:(intros d Hd; apply (b_fresh _ _ _ _ _ _ _ Hb); [done|unfold u_ok; lia|lia]) (x, dg, wf, ak) force w).
  assert (Hdone : forall w', st x dg wf ak (done_or_not N (input_names seg (cur (w_fs w)))
      (ordered (kept_statements cfg now seg (cur (w_fs w)))) (poss (w_fs w)) (cur (w_fs w))) w' -> safe seg N w' \/ safe seg (N + 1) w').
  { intros w' (H1' & H2' & H3' & [Hu|Hp]); [left|right]; exists x, dg, wf, ak; (split; [|done]); repeat (split; [done|]).
    - by eapply (pass_untouched cfg o ids Hmax now Hage seg N).
    - by eapply (pass_replaced cfg o ids Hmax now Hage seg N). }
  assert (Hpre : st x dg wf ak (started (poss (w_fs w)) (cur (w_fs w))) w) by (by repeat (split; [done|])).
  specialize (Ht Hpre). destruct (compact_sealed cfg now seg force w) as [[b|e|] w']; [by apply Hdone|by apply Hdone|].
  destruct Ht as (H1' & H2' & H3' & Hmix). eapply (crash_crashed x dg wf ak). repeat (split; [done|]).
  by eapply (pass_crash cfg o ids Hmax now Hage seg N).
Qed.

(** ** The loop *)

(** [k] more turns cannot exhaust the segment and generation numbers. *)
Definition inv (k : Z) (w : World) : Prop :=
  exists seg N, safe seg N w /\ 0 <= seg /\ seg + k <= u_max 64 /\ 0 <= N /\ N + k <= u_max 64.

Lemma seal_compact_triple seg N now force F :
  in_age cfg o now -> 0 <= seg < u_max 64 -> 0 <= N < u_max 64 ->
  triple (safe seg N) (run! seal; compact cfg now force)
    (fun _ w => exists seg' N', safe seg' N' w /\ seg <= seg' <= seg + 1 /\ N <= N' <= N + 1) F crashed.
Proof.
  intros Hage Hseg HN. eapply triple_bind; [by apply (seal_triple seg N)|]. intros _ w [Hw|Hw].
  - pose proof (compact_triple seg N now force F Hage ltac:(unfold u_ok; lia) HN w Hw) as Ht.
    destruct (compact cfg now force w) as [[b|e|] w']; [|done|done]. destruct Ht; eexists _, _; (split; [done|lia]).
  - pose proof (compact_triple (seg + 1) N now force F Hage ltac:(unfold u_ok; lia) HN w Hw) as Ht.
    destruct (compact cfg now force w) as [[b|e|] w']; [|done|done]. destruct Ht; eexists _, _; (split; [done|lia]).
Qed.

(** What a message must be like for the followed statement to be safe. *)
Definition msg_ok (m : Z * Msg) : Prop :=
  in_age cfg o m.1 /\ match m.2 with Append rec _ => rec_ok o ids rec | _ => True end.

Lemma handle_append_triple seg N now rec ack F :
  in_age cfg o now -> rec_ok o ids rec -> 0 <= seg < u_max 64 -> 0 <= N < u_max 64 ->
  triple (safe seg N) (handle_append cfg now rec ack)
    (fun _ w => exists seg' N', safe seg' N' w /\ seg <= seg' <= seg + 1 /\ N <= N' <= N + 1) F crashed.
Proof.
  intros Hage Hrec Hseg HN. assert (Hs : u_ok 64 seg) by (unfold u_ok; lia). unfold handle_append.
  eapply triple_bind; [by apply (writer_append_triple seg N rec)|]. intros b.
  eapply (triple_bind _ _ _ (fun _ => safe seg N)).
  - destruct ack; [|apply triple_ret; by intros w [? _]].
    eapply (triple_bind _ _ _ (fun d w => safe seg N w /\ (d = true -> safe seg N (set_acked rec w)))).
    + destruct b; [|apply triple_ret; by intros w [? _]].
      eapply triple_conseq; [apply (writer_sync_triple seg N rec True F Hs)| | |auto|auto].
      * intros w [? Ha]. split; [done|]. intros _. by apply Ha.
      * intros d w [? Ha]. split; [done|]. intros E. by apply Ha.
    + intros []; [apply triple_modify|apply triple_ret]; intros w [? Ha]; [by apply Ha|done].
  - intros ?. unfold roll_if_full. apply safe_pre. intros x dg wf ak Hx.
    eapply triple_bind; [apply get_writer_triple|]. intros y. apply triple_pure. intros ->.
    apply triple_if; intros _.
    + eapply triple_conseq; [apply (seal_compact_triple seg N now false F Hage Hseg HN)| |auto..].
      intros w Hw. by exists x, dg, wf, ak.
    + apply triple_ret. intros w Hw. exists seg, N. split; [by exists x, dg, wf, ak|lia].
Qed.

Lemma dispatch_triple k now msg F : 0 <= k -> msg_ok (now, msg) -> triple (inv (k + 1)) (dispatch cfg now msg) (fun _ => inv k) F crashed.
Proof.
  intros Hk [Hage Hmsg] w (seg & N & Hw & H1' & H2' & H3' & H4').
  assert (Hseg : 0 <= seg < u_max 64) by lia. assert (HN : 0 <= N < u_max 64) by lia. assert (Hs : u_ok 64 seg) by (unfold u_ok; lia).
  assert (Hstep : forall m : M World unit, triple (safe seg N) m
      (fun _ w => exists seg' N', safe seg' N' w /\ seg <= seg' <= seg + 1 /\ N <= N' <= N + 1) F crashed ->
    match m w with (Done _, w') => inv k w' | (Effects.Failed e, w') => F e w' | (Crashed, w') => crashed w' end).
  { intros m Hm. specialize (Hm w Hw). destruct (m w) as [[[]|e|] w']; [|done|done].
    destruct Hm as (seg' & N' & Hs' & ? & ?). exists seg', N'. split; [done|lia]. }
  assert (Hsame : forall m : M World unit, triple (safe seg N) m (fun _ => safe seg N) F crashed ->
    match m w with (Done _, w') => inv k w' | (Effects.Failed e, w') => F e w' | (Crashed, w') => crashed w' end).
  { intros m Hm. apply Hstep. eapply triple_conseq; [exact Hm|auto| |auto|auto]. intros ? w' ?. exists seg, N. split; [done|lia]. }
  destruct msg as [rec ack| | |due]; simpl dispatch.
  - apply Hstep. by apply handle_append_triple.
  - apply Hsame. eapply triple_bind; [by apply (plain_sync_triple seg N)|]. intros ?. by apply triple_ret.
  - apply Hstep. by apply seal_compact_triple.
  - apply Hsame. eapply (triple_bind _ _ _ (fun _ => safe seg N)); [apply safe_pre; intros x dg wf ak Hx|].
    + intros w' Hw'. pose proof (get_writer_triple x dg wf ak _ F crashed w' Hw') as [? _]. by exists x, dg, wf, ak.
    + intros x. apply triple_if; intros _; [|by apply triple_ret].
      eapply triple_bind; [by apply (plain_sync_triple seg N)|]. intros ?. by apply triple_ret.
Qed.

Lemma dispatch_all_triple msgs F : Forall msg_ok msgs ->
  triple (inv (Z.of_nat (length msgs))) (dispatch_all cfg msgs) (fun _ => crashed) F crashed.
Proof.
  induction 1 as [|[now msg] msgs Hm _ IH]; simpl dispatch_all.
  - apply triple_ret. intros w (seg & N & (x & dg & wf & ak & Hw & _) & _). by eapply base_crashed.
  - eapply triple_bind; [|intros ?; exact IH]. eapply triple_conseq; [apply (dispatch_triple (Z.of_nat (length msgs)) now msg F ltac:(lia) Hm)| |auto..].
    intros w. by replace (Z.of_nat (length ((now, msg) :: msgs))) with (Z.of_nat (length msgs) + 1) by (simpl; lia).
Qed.

Lemma boot_triple k boot force F : 0 <= k -> in_age cfg o boot ->
  triple (inv (k + 1)) (compact cfg boot force) (fun _ => inv k) F crashed.
Proof.
  intros Hk Hboot w (seg & N & Hw & H1' & H2' & H3' & H4').
  pose proof (compact_triple seg N boot force F Hboot ltac:(unfold u_ok; lia) ltac:(lia) w Hw) as Ht.
  destruct (compact cfg boot force w) as [[b|e|] w']; [|done|done]. destruct Ht; eexists _, _; (split; [done|lia]).
Qed.

Lemma writer_run_triple boot msgs F : in_age cfg o boot -> Forall msg_ok msgs ->
  triple (inv (Z.of_nat (length msgs) + 1)) (writer_run cfg boot msgs) (fun _ => crashed) F crashed.
Proof.
  intros Hboot Hm. unfold writer_run. eapply triple_bind; [apply boot_triple; [lia|done]|intros ?; by apply dispatch_all_triple].
Qed.

(** ** From boot to the next boot *)

(** The writer as the boot hands it over: nothing is pending, every file of the
    directory reads, no marker is left, and the writer's segment is new. *)
Record opened (w : World) : Prop := {
  op_closed : wr_open (w_writer w) = false;
  op_acked : w_acked w = [];
  op_durable : forall d, poss (w_fs w) d <-> d = cur (w_fs w);
  op_readable : readable (cur (w_fs w));
  op_markers : forall name, ends_with name (lit ".done") = true -> cur (w_fs w) !! (Compacted, name) = None;
  op_records : disk_ok o ids (cur (w_fs w));
  op_segments : forall i n, (i, n) ∈ segments (cur (w_fs w)) -> i < wr_segment (w_writer w);
  op_segment : u_ok 64 (wr_segment (w_writer w));
  op_generations : forall i n, (i, n) ∈ generations (cur (w_fs w)) -> 0 <= i < u_max 64 }.

Lemma next_generation_last d : (forall i n, (i, n) ∈ generations d -> 0 <= i < u_max 64) ->
  next_generation d = 0 \/ exists n, (next_generation d - 1, n) ∈ generations d.
Proof.
  intros Hb. unfold next_generation, last_index. destruct (last (generations d)) as [[j n']|] eqn:E; simpl; [right|by left].
  assert (Hj : (j, n') ∈ generations d) by (apply last_Some in E as [l' ->]; set_solver).
  pose proof (Hb _ _ Hj). rewrite wrapu_small by (unfold u_ok; lia). exists n'. by replace (j + 1 - 1) with j by lia.
Qed.

Lemma opened_safe w : opened w -> Forall steady_disk (w_script w) ->
  safe (wr_segment (w_writer w)) (next_generation (cur (w_fs w))) w.
Proof.
  intros [] Hsc. exists (w_writer w), (w_degraded w), (w_write_failures w), []. split; [|done].
  split; [done|]. split; [unfold rest_of; by rewrite op_acked0|]. split; [by apply op_durable0|].
  assert (Hm : forall p, ~ marks (cur (w_fs w)) p).
  { intros p (name & body & ps & Hn & Hb & _). by rewrite op_markers0 in Hb. }
  assert (Hg : forall i n, (i, n) ∈ generations (cur (w_fs w)) -> i < next_generation (cur (w_fs w))).
  { intros i n Hin. by eapply index_below_next. }
  assert (Hs : forall k, u_ok 64 k -> wr_segment (w_writer w) <= k -> cur (w_fs w) !! seg_file k = None).
  { intros k Hk Hle. destruct (cur (w_fs w) !! seg_file k) eqn:E; [|done]. exfalso.
    assert (k < wr_segment (w_writer w)); [|lia]. apply (op_segments0 k (seg_name k)), elem_of_indexed_files.
    split; [by eexists|]. apply (seg_journal k Hk). }
  rewrite op_closed0. split; try done; try (by intros d p ->%op_durable0 ?%Hm).
  - intros d ->%op_durable0. split; [done|]. by intros (r & []%elem_of_nil & _).
  - intros i n Hin. split; [by apply (op_generations0 i n)|by eapply Hg].
  - by apply next_generation_last.
  - intros d k ->%op_durable0 Hk Hle. split; [|apply op_markers0, done_name_ends].
    destruct (cur (w_fs w) !! (Compacted, gen_name k)) eqn:E; [|done]. exfalso.
    assert (k < next_generation (cur (w_fs w))); [|lia]. apply (Hg k (gen_name k)), elem_of_indexed_files.
    split; [by eexists|]. apply (gen_journal k Hk).
  - intros d k ->%op_durable0 Hk Hlt. apply Hs; [done|lia].
  - by intros d ->%op_durable0.
  - intros c. by rewrite Hs.
  - intros d q c c' ->%op_durable0 _ Hq Hq'. rewrite Hq in Hq'. by injection Hq' as ->.
Qed.

Lemma opened_inv k w : opened w -> Forall steady_disk (w_script w) ->
  wr_segment (w_writer w) + k < u_max 64 -> next_generation (cur (w_fs w)) + k < u_max 64 -> inv (k + 1) w.
Proof.
  intros Hw Hsc Hseg HN. eexists _, _. split; [by apply opened_safe|]. split; [by apply op_segment|]. split; [lia|]. split; [|lia].
  apply next_generation_ok, op_generations, Hw.
Qed.

Lemma inv_crashed k w : inv k w -> crashed w.
Proof. intros (seg & N & (x & dg & wf & ak & Hw & _) & _). by eapply base_crashed. Qed.

(** The boot after a crash. *)
Lemma crashed_found w d : crashed w -> told (w_acked w) -> poss (w_fs w) d ->
  exists seq f w'' st, journal_open cfg (power_on d) = (Done (seq, f), w'') /\ fd_statements f !! fo_id o = Some st
    /\ fo_last o <= f_last_seq st /\ is_terminal (f_status st) = true.
Proof.
  intros [_ Hcr] Ht Hd. destruct (Hcr d Hd) as [Hok Hh]. destruct (Hh Ht) as (q & c & r & Hj & Hm' & Hq & Hr & Htell).
  apply (open_finds cfg o ids (power_on d) q r); try done; simpl.
  - apply Forall_forall. intros x (p & [Hjp [c' Hc']]%elem_of_replay_paths & Hx)%elem_of_journal_records.
    unfold content in Hx. rewrite Hc' in Hx. by eapply Hok.
  - unfold content. rewrite Hq. simpl. destruct (complete_file_records c) as [u ->]. apply elem_of_app. by left.
Qed.

Lemma run_crashed boot msgs (w w' : World) out :
  opened w -> Forall steady_disk (w_script w) -> in_age cfg o boot -> Forall msg_ok msgs ->
  wr_segment (w_writer w) + Z.of_nat (length msgs) < u_max 64 ->
  next_generation (cur (w_fs w)) + Z.of_nat (length msgs) < u_max 64 ->
  writer_run cfg boot msgs w = (out, w') -> crashed w'.
Proof.
  intros Hw Hsc Hboot Hm Hseg HN Hrun.
  pose proof (opened_inv (Z.of_nat (length msgs)) w Hw Hsc Hseg HN) as Hinv.
  pose proof (writer_run_triple boot msgs (fun _ => crashed) Hboot Hm w Hinv) as Hc. rewrite Hrun in Hc. by destruct out.
Qed.

(** An acknowledged statement survives.  The writer starts on a directory
    the boot has read and handles any messages, while any file operation may be
    refused (a write then leaves nothing) and the power may fail anywhere,
    compactions included.  If a record that tells the statement finished was
    acknowledged, then whatever the disk holds, the next boot finds the
    statement with a terminal status, at that record or a later one. *)
Theorem ack_survives boot msgs (w w' : World) out d :
  opened w -> Forall steady_disk (w_script w) -> in_age cfg o boot -> Forall msg_ok msgs ->
  wr_segment (w_writer w) + Z.of_nat (length msgs) < u_max 64 ->
  next_generation (cur (w_fs w)) + Z.of_nat (length msgs) < u_max 64 ->
  writer_run cfg boot msgs w = (out, w') -> told (w_acked w') -> poss (w_fs w') d ->
  exists seq f w'' st, journal_open cfg (power_on d) = (Done (seq, f), w'') /\ fd_statements f !! fo_id o = Some st
    /\ fo_last o <= f_last_seq st /\ is_terminal (f_status st) = true.
Proof.
  intros Hw Hsc Hboot Hm Hseg HN Hrun. by apply (crashed_found w' d), (run_crashed boot msgs w w' out).
Qed.

End Life.
