(* ===== verification/JournalQueue.v ===== *)
(** * JournalQueue: producers, the bounded channel and the writer loop

    The handle of [oxidant-connect/src/history/journal.rs]: request handlers
    append records through a bounded channel with an overflow queue beside it;
    the writer thread receives, drains the overflow one record at a time, and
    dispatches.  [Step] interleaves them at the granularity of the channel and
    of the queue's lock: a producer that finds the channel full takes the lock
    of the overflow queue in a later step.  [nothing_lost] accounts for every record that was
    taken, [sync_flushes] is what a sync answers for, and
    [system_ack_survives] carries [JournalAck] to the whole system: whatever
    the interleaving, an acknowledged statement survives a power failure. *)

From S2P Require Import Prelude Text Effects HistoryRecord Journal JournalDisk JournalSwap JournalAck.

Definition CHANNEL_CAPACITY : Z := 4096.
Definition OVERFLOW_CAPACITY : Z := 65536.

(** A record on its way to the writer; [it_no] numbers what was taken. *)
Record Item := { it_no : nat; it_rec : JournalRecord; it_ack : bool }.

(** What the writer thread accepts; [seen] is how many records were taken when
    the message was sent. *)
Inductive QMsg :=
  | QAppend (it : Item)
  | QSync (seen : nat)
  | QCompact (seen : nat)
  | QStop (seen : nat).

(** What [recv_timeout] returns. *)
Inductive Received := Got (m : QMsg) | TimedOut (flush_due : bool) | Closed.

Inductive Phase :=
  | Booting
  | Receiving
  | Draining (r : Received)   (* between the receive and the dispatch *)
  | Gone.

Record Shared := {
  sh_chan : list QMsg;
  sh_overflow : list Item;
  sh_seq : Z;
  sh_dropped : Z;
  sh_alive : bool   (* the receiver exists *) }.

Definition set_chan c (q : Shared) : Shared :=
  {| sh_chan := c; sh_overflow := sh_overflow q; sh_seq := sh_seq q; sh_dropped := sh_dropped q; sh_alive := sh_alive q |}.
Definition set_overflow o (q : Shared) : Shared :=
  {| sh_chan := sh_chan q; sh_overflow := o; sh_seq := sh_seq q; sh_dropped := sh_dropped q; sh_alive := sh_alive q |}.
Definition count_dropped (q : Shared) : Shared :=
  {| sh_chan := sh_chan q; sh_overflow := sh_overflow q; sh_seq := sh_seq q; sh_dropped := wrapu 64 (sh_dropped q + 1);
     sh_alive := sh_alive q |}.
(** The receiver is dropped, with what the channel still holds. *)
Definition hang_up (q : Shared) : Shared :=
  {| sh_chan := []; sh_overflow := sh_overflow q; sh_seq := sh_seq q; sh_dropped := sh_dropped q; sh_alive := false |}.

(** ** Producers *)

Inductive SendResult := Sent | Full | Disconnected.

Definition try_send (m : QMsg) (q : Shared) : SendResult * Shared :=
  if negb (sh_alive q) then (Disconnected, q)
  else if CHANNEL_CAPACITY <=? Z.of_nat (length (sh_chan q)) then (Full, q)
  else (Sent, set_chan (sh_chan q ++ [m]) q).

Definition next_seq (q : Shared) : Z * Shared :=
  (sh_seq q, {| sh_chan := sh_chan q; sh_overflow := sh_overflow q; sh_seq := wrapu 64 (sh_seq q + 1);
                sh_dropped := sh_dropped q; sh_alive := sh_alive q |}).

(** What a producer is left with after [try_send]: the record is taken, it is
    lost, or it has to go to the overflow queue. *)
Inductive Offered := Taken | Lost | Overflows.

Definition degrade (w : World) : World := set_degraded true w.

Definition append (it : Item) (s : Shared * World) : Offered * (Shared * World) :=
  match try_send (QAppend it) s.1 with
  | (Sent, q) => (Taken, (q, s.2))
  | (Full, q) => (Lost, (count_dropped q, degrade s.2))
  | (Disconnected, q) => (Lost, (q, s.2))
  end.

Definition append_retained (it : Item) (s : Shared * World) : Offered * (Shared * World) :=
  match try_send (QAppend it) s.1 with
  | (Sent, q) => (Taken, (q, s.2))
  | (Full, q) => (Overflows, (q, s.2))
  | (Disconnected, q) => (Lost, (count_dropped q, degrade s.2))
  end.

(** Taken: the caller gets a receiver to wait on. *)
Definition append_durable (it : Item) (s : Shared * World) : Offered * (Shared * World) :=
  match try_send (QAppend it) s.1 with
  | (Sent, q) => (Taken, (q, s.2))
  | (Full, q) => (Overflows, (q, s.2))
  | (Disconnected, q) => (Lost, (q, degrade s.2))
  end.

(** [push_overflow], under the queue's lock. *)
Definition push_overflow (it : Item) (s : Shared * World) : bool * (Shared * World) :=
  if OVERFLOW_CAPACITY <=? Z.of_nat (length (sh_overflow s.1)) then (false, (count_dropped s.1, degrade s.2))
  else (true, (set_overflow (sh_overflow s.1 ++ [it]) s.1, s.2)).

Inductive Producer := BestEffort | Retained | Durable.
Definition produce (p : Producer) : Item -> Shared * World -> Offered * (Shared * World) :=
  match p with BestEffort => append | Retained => append_retained | Durable => append_durable end.
Definition wants_ack (p : Producer) : bool := match p with Durable => true | _ => false end.

(** ** The writer loop *)

Definition to_msg (r : Received) : Msg :=
  match r with
  | Got (QAppend it) => Append (it_rec it) (it_ack it)
  | Got (QSync _) => SyncNow
  | Got (QCompact _) => CompactNow
  | Got (QStop _) | Closed => SyncNow
  | TimedOut due => Timeout due
  end.
Definition last_turn (r : Received) : bool := match r with Got (QStop _) | Closed => true | _ => false end.
Definition items_of (r : Received) : list Item := match r with Got (QAppend it) => [it] | _ => [] end.
Definition answers (r : Received) : list nat :=
  match r with Got (QSync n) | Got (QCompact n) | Got (QStop n) => [n] | _ => [] end.

Record Sys := {
  sy_shared : Shared;
  sy_phase : Phase;
  sy_world : World;
  sy_taken : nat;           (* records taken so far *)
  sy_handled : list Item;   (* appended by the writer *)
  sy_answered : list nat;
  sy_turns : nat;           (* writer operations so far *)
  sy_pending : list (JournalRecord * bool);   (* between a full channel and the overflow queue *)
  sy_discarded : list Item  (* dropped with the receiver *) }.

Definition items (l : list QMsg) : list Item := l ≫= (fun m => items_of (Got m)).

Section System.
Context `{Chrono, JournalCodec} (cfg : HistoryConfig).
(** The records the statement store writes, and the times the run passes. *)
Context (submits : JournalRecord -> Prop) (clock : Z -> Prop).

Inductive Step : Sys -> Sys -> Prop :=
  | step_produce p rec res q w (s : Sys) :
      submits rec ->
      produce p {| it_no := sy_taken s; it_rec := rec; it_ack := wants_ack p |} (sy_shared s, sy_world s) = (res, (q, w)) ->
      Step s {| sy_shared := q; sy_phase := sy_phase s; sy_world := w;
                sy_taken := match res with Taken => S (sy_taken s) | _ => sy_taken s end;
                sy_handled := sy_handled s; sy_answered := sy_answered s; sy_turns := sy_turns s;
                sy_pending := match res with Overflows => sy_pending s ++ [(rec, wants_ack p)] | _ => sy_pending s end;
                sy_discarded := sy_discarded s |}
  | step_overflow rec ack l1 l2 ok q w (s : Sys) :
      sy_pending s = l1 ++ (rec, ack) :: l2 ->
      push_overflow {| it_no := sy_taken s; it_rec := rec; it_ack := ack |} (sy_shared s, sy_world s) = (ok, (q, w)) ->
      Step s {| sy_shared := q; sy_phase := sy_phase s; sy_world := w;
                sy_taken := if ok then S (sy_taken s) else sy_taken s;
                sy_handled := sy_handled s; sy_answered := sy_answered s; sy_turns := sy_turns s;
                sy_pending := l1 ++ l2; sy_discarded := sy_discarded s |}
  | step_next_seq (s : Sys) :
      Step s {| sy_shared := (next_seq (sy_shared s)).2; sy_phase := sy_phase s; sy_world := sy_world s;
                sy_taken := sy_taken s; sy_handled := sy_handled s; sy_answered := sy_answered s; sy_turns := sy_turns s; sy_pending := sy_pending s; sy_discarded := sy_discarded s |}
  (* [sync_blocking], [compact_blocking], [shutdown]: a send that waits for room *)
  | step_control m q (s : Sys) :
      m ∈ [QSync (sy_taken s); QCompact (sy_taken s); QStop (sy_taken s)] -> try_send m (sy_shared s) = (Sent, q) ->
      Step s {| sy_shared := q; sy_phase := sy_phase s; sy_world := sy_world s;
                sy_taken := sy_taken s; sy_handled := sy_handled s; sy_answered := sy_answered s; sy_turns := sy_turns s; sy_pending := sy_pending s; sy_discarded := sy_discarded s |}
  | step_boot now w (s : Sys) :
      sy_phase s = Booting -> clock now -> compact cfg now false (sy_world s) = (Done tt, w) ->
      Step s {| sy_shared := sy_shared s; sy_phase := Receiving; sy_world := w;
                sy_taken := sy_taken s; sy_handled := sy_handled s; sy_answered := sy_answered s; sy_turns := S (sy_turns s); sy_pending := sy_pending s; sy_discarded := sy_discarded s |}
  | step_receive m ms (s : Sys) :
      sy_phase s = Receiving -> sh_chan (sy_shared s) = m :: ms ->
      Step s {| sy_shared := set_chan ms (sy_shared s); sy_phase := Draining (Got m); sy_world := sy_world s;
                sy_taken := sy_taken s; sy_handled := sy_handled s; sy_answered := sy_answered s; sy_turns := sy_turns s; sy_pending := sy_pending s; sy_discarded := sy_discarded s |}
  | step_nothing r (s : Sys) :
      sy_phase s = Receiving -> sh_chan (sy_shared s) = [] -> (forall m, r <> Got m) ->
      Step s {| sy_shared := sy_shared s; sy_phase := Draining r; sy_world := sy_world s;
                sy_taken := sy_taken s; sy_handled := sy_handled s; sy_answered := sy_answered s; sy_turns := sy_turns s; sy_pending := sy_pending s; sy_discarded := sy_discarded s |}
  | step_drain r it its now w (s : Sys) :
      sy_phase s = Draining r -> clock now -> sh_overflow (sy_shared s) = it :: its ->
      handle_append cfg now (it_rec it) (it_ack it) (sy_world s) = (Done tt, w) ->
      Step s {| sy_shared := set_overflow its (sy_shared s); sy_phase := Draining r; sy_world := w;
                sy_taken := sy_taken s; sy_handled := sy_handled s ++ [it]; sy_answered := sy_answered s; sy_turns := S (sy_turns s); sy_pending := sy_pending s; sy_discarded := sy_discarded s |}
  | step_dispatch r now w (s : Sys) :
      sy_phase s = Draining r -> clock now -> sh_overflow (sy_shared s) = [] ->
      dispatch cfg now (to_msg r) (sy_world s) = (Done tt, w) ->
      Step s {| sy_shared := if last_turn r then hang_up (sy_shared s) else sy_shared s;
                sy_phase := if last_turn r then Gone else Receiving; sy_world := w;
                sy_taken := sy_taken s; sy_handled := sy_handled s ++ items_of r;
                sy_answered := sy_answered s ++ answers r; sy_turns := S (sy_turns s); sy_pending := sy_pending s;
                sy_discarded := if last_turn r then sy_discarded s ++ items (sh_chan (sy_shared s)) else sy_discarded s |}.

Inductive Reach : Sys -> Sys -> Prop :=
  | reach_here s : Reach s s
  | reach_step s s1 s2 : Reach s s1 -> Step s1 s2 -> Reach s s2.

End System.

(** The handle and the thread as [Journal::open] makes them. *)
Definition fresh_handle (seq : Z) (w : World) : Sys := {|
  sy_shared := {| sh_chan := []; sh_overflow := []; sh_seq := seq; sh_dropped := 0; sh_alive := true |};
  sy_phase := Booting; sy_world := w; sy_taken := 0; sy_handled := []; sy_answered := []; sy_turns := 0;
  sy_pending := []; sy_discarded := [] |}.

(** ** Accounting *)

Definition in_hand (p : Phase) : list Item := match p with Draining r => items_of r | _ => [] end.

(** Where the records are that were taken. *)
Definition whereabouts (s : Sys) : list Item :=
  sy_handled s ++ in_hand (sy_phase s) ++ sh_overflow (sy_shared s) ++ items (sh_chan (sy_shared s)) ++ sy_discarded s.

Lemma items_app l1 l2 : items (l1 ++ l2) = items l1 ++ items l2.
Proof. apply bind_app. Qed.

(** What a producer does to the queues. *)
Lemma produce_cases p it q w res q' w' : produce p it (q, w) = (res, (q', w')) ->
  (w' = w \/ w' = degrade w) /\ sh_alive q' = sh_alive q /\ sh_overflow q' = sh_overflow q
  /\ match res with
     | Taken => sh_alive q = true /\ sh_chan q' = sh_chan q ++ [QAppend it] /\ Z.of_nat (length (sh_chan q)) < CHANNEL_CAPACITY
     | _ => sh_chan q' = sh_chan q
     end.
Proof.
  destruct p; unfold produce, append, append_retained, append_durable, try_send; cbn [fst snd];
    destruct (sh_alive q) eqn:Ea; cbn [negb]; intros Heq; repeat case_match; simplify_eq; bool_to_prop; cbn; auto 10.
Qed.

Lemma overflow_cases it q w ok q' w' : push_overflow it (q, w) = (ok, (q', w')) ->
  (w' = w \/ w' = degrade w) /\ sh_alive q' = sh_alive q /\ sh_chan q' = sh_chan q
  /\ if ok then sh_overflow q' = sh_overflow q ++ [it] /\ Z.of_nat (length (sh_overflow q)) < OVERFLOW_CAPACITY
     else sh_overflow q' = sh_overflow q.
Proof.
  unfold push_overflow. cbn [fst snd]. intros Heq. case_match; simplify_eq; bool_to_prop; cbn; auto.
Qed.

Definition covers (l : list Item) (n : nat) : Prop := forall k, (k < n)%nat -> k ∈ it_no <$> l.

Lemma covers_sub l l' n : (forall it, it ∈ l -> it ∈ l') -> covers l n -> covers l' n.
Proof. intros Hl Hc k Hk. destruct (proj1 (list_elem_of_fmap _ _ _) (Hc k Hk)) as (it & -> & Hit). apply list_elem_of_fmap. eauto. Qed.

Record accounted (s : Sys) : Prop := {
  ac_items : it_no <$> whereabouts s ≡ₚ seq 0 (sy_taken s);
  ac_chan : Z.of_nat (length (sh_chan (sy_shared s))) <= CHANNEL_CAPACITY;
  ac_overflow : Z.of_nat (length (sh_overflow (sy_shared s))) <= OVERFLOW_CAPACITY;
  ac_queued : forall pre m post n, sh_chan (sy_shared s) = pre ++ m :: post -> n ∈ answers (Got m) ->
    covers (sy_handled s ++ in_hand (sy_phase s) ++ sh_overflow (sy_shared s) ++ items pre) n;
  ac_draining : forall r n, sy_phase s = Draining r -> n ∈ answers r -> covers (sy_handled s ++ sh_overflow (sy_shared s)) n;
  ac_answered : forall n, n ∈ sy_answered s -> covers (sy_handled s) n;
  ac_alive : sh_alive (sy_shared s) = true -> sy_discarded s = [];
  ac_running : sy_phase s <> Gone -> sh_alive (sy_shared s) = true }.

Lemma snoc_split {A} (l pre post : list A) x m : l ++ [x] = pre ++ m :: post ->
  (exists post', l = pre ++ m :: post') \/ (l = pre /\ x = m /\ post = []).
Proof.
  destruct post as [|y post _] using rev_ind; intros E.
  - right. apply app_inj_2 in E as [-> [= ->]]; done.
  - left. exists post. rewrite app_comm_cons, app_assoc in E. by apply app_inj_2 in E as [-> _].
Qed.

#[local] Ltac covered := eapply covers_sub; [|done]; intros ?; rewrite ?elem_of_app; simpl; tauto.

Lemma seq_taken (s : Sys) it l : accounted s -> it_no it = sy_taken s -> l ≡ₚ whereabouts s ++ [it] ->
  it_no <$> l ≡ₚ seq 0 (S (sy_taken s)).
Proof. intros Hacc Hno ->. rewrite seq_S, fmap_app, (ac_items _ Hacc). simpl. by rewrite Hno. Qed.

Lemma produce_accounted p rec res q w n0 pd (s : Sys) :
  produce p {| it_no := sy_taken s; it_rec := rec; it_ack := wants_ack p |} (sy_shared s, sy_world s) = (res, (q, w)) ->
  accounted s ->
  accounted {| sy_shared := q; sy_phase := sy_phase s; sy_world := w;
               sy_taken := match res with Taken => S (sy_taken s) | _ => sy_taken s end;
               sy_handled := sy_handled s; sy_answered := sy_answered s; sy_turns := n0; sy_pending := pd; sy_discarded := sy_discarded s |}.
Proof.
  intros (_ & Ea & Eo & Hq)%produce_cases Hacc. pose proof Hacc as [Hi Hc Ho Hs Hd Ha Hal Hrun].
  set (it := {| it_no := _; it_rec := _; it_ack := _ |}) in *. destruct res;
    [destruct Hq as (Halive & Ec & Hl)|rename Hq into Ec..]; split; cbn [sy_shared sy_phase sy_handled sy_taken sy_answered sy_discarded];
    unfold whereabouts in *; cbn [sy_shared sy_phase sy_handled sy_discarded]; rewrite ?Ea, ?Eo, ?Ec; try done.
  - apply (seq_taken s it); [done|done|]. unfold whereabouts. rewrite (Hal Halive), items_app. simpl. by rewrite !app_nil_r, !app_assoc.
  - rewrite length_app. simpl length. lia.
  - intros pre m post n E Hn. destruct (snoc_split _ _ _ _ _ E) as [[post' E']|(_ & <- & _)]; [by eapply Hs|by apply elem_of_nil in Hn].
Qed.

Lemma overflow_accounted rec ack ok q w n0 pd (s : Sys) :
  push_overflow {| it_no := sy_taken s; it_rec := rec; it_ack := ack |} (sy_shared s, sy_world s) = (ok, (q, w)) ->
  accounted s ->
  accounted {| sy_shared := q; sy_phase := sy_phase s; sy_world := w; sy_taken := if ok then S (sy_taken s) else sy_taken s;
               sy_handled := sy_handled s; sy_answered := sy_answered s; sy_turns := n0; sy_pending := pd; sy_discarded := sy_discarded s |}.
Proof.
  intros (_ & Ea & Ec & Hq)%overflow_cases Hacc. pose proof Hacc as [Hi Hc Ho Hs Hd Ha Hal Hrun].
  set (it := {| it_no := _; it_rec := _; it_ack := _ |}) in *. destruct ok;
    [destruct Hq as (Eo & Hl)|rename Hq into Eo]; split; cbn [sy_shared sy_phase sy_handled sy_taken sy_answered sy_discarded];
    unfold whereabouts in *; cbn [sy_shared sy_phase sy_handled sy_discarded]; rewrite ?Ea, ?Eo, ?Ec; try done.
  - apply (seq_taken s it); [done|done|]. unfold whereabouts. rewrite <-!app_assoc. do 3 f_equiv. by rewrite Permutation_app_comm, <-app_assoc.
  - rewrite length_app. simpl length. lia.
  - intros pre m post n E Hn. specialize (Hs _ _ _ _ E Hn). covered.
  - intros r n E Hn. specialize (Hd _ _ E Hn). covered.
Qed.

Section Accounting.
Context `{Chrono, JournalCodec} (cfg : HistoryConfig) (submits : JournalRecord -> Prop) (clock : Z -> Prop).

#[local] Ltac fields := cbn [sy_shared sy_phase sy_handled sy_taken sy_answered sy_discarded sh_chan sh_overflow sh_alive set_chan set_overflow in_hand].

Lemma control_accounted m q (s : Sys) w n0 :
  m ∈ [QSync (sy_taken s); QCompact (sy_taken s); QStop (sy_taken s)] -> try_send m (sy_shared s) = (Sent, q) -> accounted s ->
  accounted {| sy_shared := q; sy_phase := sy_phase s; sy_world := w; sy_taken := sy_taken s;
               sy_handled := sy_handled s; sy_answered := sy_answered s; sy_turns := n0; sy_pending := sy_pending s; sy_discarded := sy_discarded s |}.
Proof.
  intros Hm Hq [Hi Hc Ho Hs Hd Ha Hal Hrun]. unfold try_send in Hq. destruct (sh_alive (sy_shared s)) eqn:Hup; [|done]. cbn [negb] in Hq. destruct (_ <=? _) eqn:El; [done|].
  injection Hq as <-. apply Z.leb_gt in El.
  assert (Hm' : items [m] = [] /\ answers (Got m) = [sy_taken s]) by (set_unfold in Hm; destruct Hm as [->|[->|[->|[]]]]; done).
  destruct Hm' as [Hitems Hans]. split; fields; try done; rewrite ?length_app; simpl length; try lia.
  - unfold whereabouts. fields. by rewrite items_app, Hitems, app_nil_r.
  - intros pre m' post n E Hn. destruct (snoc_split _ _ _ _ _ E) as [[post' E']|(<- & <- & _)]; [by eapply Hs|].
    rewrite Hans in Hn. apply list_elem_of_singleton in Hn as ->. intros k Hk.
    assert (k ∈ it_no <$> whereabouts s) as Hk' by (rewrite Hi; apply elem_of_seq; lia).
    unfold whereabouts in Hk'. by rewrite (Hal eq_refl), app_nil_r in Hk'.
  - intros _. by apply Hal.
Qed.

Lemma receive_accounted m ms (s : Sys) w n0 : sy_phase s = Receiving -> sh_chan (sy_shared s) = m :: ms -> accounted s ->
  accounted {| sy_shared := set_chan ms (sy_shared s); sy_phase := Draining (Got m); sy_world := w; sy_taken := sy_taken s;
               sy_handled := sy_handled s; sy_answered := sy_answered s; sy_turns := n0; sy_pending := sy_pending s; sy_discarded := sy_discarded s |}.
Proof.
  intros Hp Hm [Hi Hc Ho Hs Hd Ha Hal Hrun]. unfold whereabouts in Hi. rewrite Hp, Hm in *. split; fields; try done.
  - rewrite <-Hi. unfold whereabouts. fields. apply fmap_Permutation. change (items (m :: ms)) with (items_of (Got m) ++ items ms).
    cbn [in_hand app]. f_equiv. rewrite !app_assoc. do 2 f_equiv. apply Permutation_app_comm.
  - simpl in Hc. lia.
  - intros pre m' post n E Hn. rewrite E in Hs. specialize (Hs (m :: pre) m' post n eq_refl Hn).
    eapply covers_sub; [|exact Hs]. intros it. change (items (m :: pre)) with (items_of (Got m) ++ items pre).
    cbn [in_hand]. rewrite !elem_of_app, ?elem_of_nil. tauto.
  - intros r n [= <-] Hn. specialize (Hs [] m ms n eq_refl Hn). eapply covers_sub; [|exact Hs]. intros it. cbn [in_hand].
    rewrite !elem_of_app. simpl. rewrite elem_of_nil. tauto.
  - intros _. by apply Hrun.
Qed.

Lemma drain_accounted r it its (s : Sys) w n0 : sy_phase s = Draining r -> sh_overflow (sy_shared s) = it :: its -> accounted s ->
  accounted {| sy_shared := set_overflow its (sy_shared s); sy_phase := Draining r; sy_world := w; sy_taken := sy_taken s;
               sy_handled := sy_handled s ++ [it]; sy_answered := sy_answered s; sy_turns := n0; sy_pending := sy_pending s; sy_discarded := sy_discarded s |}.
Proof.
  intros Hp Ho' [Hi Hc Ho Hs Hd Ha Hal Hrun]. unfold whereabouts in Hi. rewrite Hp, Ho' in *. split; fields; try done.
  - rewrite <-Hi. unfold whereabouts. fields. apply fmap_Permutation. rewrite <-app_assoc. f_equiv. simpl. by rewrite Permutation_middle.
  - simpl in Ho. lia.
  - intros pre m post n E Hn. specialize (Hs _ _ _ _ E Hn). eapply covers_sub; [|exact Hs]. intros x. cbn [in_hand].
    rewrite !elem_of_app, elem_of_cons, list_elem_of_singleton. tauto.
  - intros r' n [= <-] Hn. specialize (Hd r n eq_refl Hn). eapply covers_sub; [|exact Hd]. intros x.
    rewrite !elem_of_app, elem_of_cons, list_elem_of_singleton. tauto.
  - intros n Hn. eapply covers_sub; [|by apply Ha]. intros x. rewrite elem_of_app. tauto.
Qed.

Lemma dispatch_accounted r (s : Sys) w n0 : sy_phase s = Draining r -> sh_overflow (sy_shared s) = [] -> accounted s ->
  accounted {| sy_shared := if last_turn r then hang_up (sy_shared s) else sy_shared s;
               sy_phase := if last_turn r then Gone else Receiving; sy_world := w; sy_taken := sy_taken s;
               sy_handled := sy_handled s ++ items_of r; sy_answered := sy_answered s ++ answers r; sy_turns := n0; sy_pending := sy_pending s;
               sy_discarded := if last_turn r then sy_discarded s ++ items (sh_chan (sy_shared s)) else sy_discarded s |}.
Proof.
  intros Hp Ho' [Hi Hc Ho Hs Hd Ha Hal Hrun]. unfold whereabouts in Hi. rewrite Hp, Ho' in *.
  assert (Hans : forall n, n ∈ sy_answered s ++ answers r -> covers (sy_handled s ++ items_of r) n).
  { intros n [Hn|Hn]%elem_of_app; [eapply covers_sub; [|by apply Ha]|eapply covers_sub; [|by apply (Hd r)]];
      intros x; rewrite !elem_of_app, ?elem_of_nil; tauto. }
  destruct (last_turn r); split; fields; cbn [hang_up sh_chan sh_overflow sh_alive]; rewrite ?Ho'; try done.
  - rewrite <-Hi. unfold whereabouts. fields. cbn [hang_up sh_chan sh_overflow items mbind list_bind app]. rewrite Ho'. simpl.
    rewrite <-app_assoc. apply fmap_Permutation. do 2 f_equiv. apply Permutation_app_comm.
  - by intros [] ? ? ? [=].
  - cbn [in_hand] in *. rewrite <-Hi. unfold whereabouts. fields. rewrite Ho'. simpl. by rewrite <-app_assoc.
  - intros pre m post n E Hn. specialize (Hs _ _ _ _ E Hn). eapply covers_sub; [|exact Hs]. intros x. cbn [in_hand].
    rewrite !elem_of_app, elem_of_nil. tauto.
  - intros _. by apply Hrun.
Qed.

Lemma step_accounted s s' : Step cfg submits clock s s' -> accounted s -> accounted s'.
Proof.
  intros Hstep Hacc. destruct Hstep.
  - by eapply produce_accounted.
  - by eapply overflow_accounted.
  - destruct Hacc. by split.
  - by eapply control_accounted.
  - destruct Hacc as [Hi Hc Ho Hs Hd Ha Hal Hrun]. unfold whereabouts in Hi. rewrite H1 in *.
    split; try done. intros _. by apply Hrun.
  - by eapply receive_accounted.
  - destruct Hacc as [Hi Hc Ho Hs Hd Ha Hal Hrun]. unfold whereabouts in Hi. rewrite H1 in *.
    assert (Hr : items_of r = [] /\ answers r = []) by (destruct r as [m| |]; [by destruct (H3 m)|done|done]).
    destruct Hr as [Hr1 Hr2]. split; fields; try done.
    + unfold whereabouts. fields. rewrite Hr1. exact Hi.
    + intros pre m post n E Hn. rewrite Hr1. by eapply Hs.
    + intros r' n [= <-]. rewrite Hr2. by intros []%elem_of_nil.
    + intros _. by apply Hrun.
  - by eapply drain_accounted.
  - by apply dispatch_accounted.
Qed.

Lemma reach_accounted seq w s : Reach cfg submits clock (fresh_handle seq w) s -> accounted s.
Proof.
  intros Hr. remember (fresh_handle seq w) as s0 eqn:E. induction Hr as [s|s s1 s2 _ IH Hs]; subst.
  - split; simpl; try done; try lia. + by intros [] ? ? ? [=]. + by intros n []%elem_of_nil.
  - eapply step_accounted; [exact Hs|by apply IH].
Qed.

(** C17. No record is lost between a producer and the writer.  In every
    interleaving of request handlers and the writer thread, each record a
    producer was told is taken is in exactly one place: handled, in the
    writer's hand, in the overflow queue or in the channel; and the queues never
    exceed their capacities.  Only when the writer has stopped are there records
    in none of these: those the channel held when its receiver was dropped. *)
Theorem nothing_lost seq w s : Reach cfg submits clock (fresh_handle seq w) s ->
  (forall k, (k < sy_taken s)%nat <-> k ∈ it_no <$> whereabouts s) /\ NoDup (it_no <$> whereabouts s)
  /\ (sy_phase s <> Gone -> sy_discarded s = [])
  /\ Z.of_nat (length (sh_chan (sy_shared s))) <= CHANNEL_CAPACITY
  /\ Z.of_nat (length (sh_overflow (sy_shared s))) <= OVERFLOW_CAPACITY.
Proof.
  intros Hr. destruct (reach_accounted _ _ _ Hr) as [Hi Hc Ho _ _ _ Hal Hrun]. split; [|split; [|split; [|done]]].
  - intros k. rewrite Hi, elem_of_seq. lia.
  - rewrite Hi. apply NoDup_seq.
  - intros Hp. by apply Hal, Hrun.
Qed.

(** C32. A sync answers for everything taken before it was asked for.  When the
    writer answers a sync, compaction or stop request, every record taken
    before the request was sent has been handled, whether it went through the
    channel or, later records overtaking earlier ones, through the overflow
    queue. *)
Theorem sync_flushes seq w s n k : Reach cfg submits clock (fresh_handle seq w) s ->
  n ∈ sy_answered s -> (k < n)%nat -> exists it, it ∈ sy_handled s /\ it_no it = k.
Proof.
  intros Hr Hn Hk. destruct (proj1 (list_elem_of_fmap _ _ _) (ac_answered _ (reach_accounted _ _ _ Hr) n Hn k Hk)) as (it & -> & Hit).
  by exists it.
Qed.

End Accounting.

(** ** The whole system and the power *)

Section Survival.
Context `{Chrono, JournalCodecLaws} (cfg : HistoryConfig) (o : Followed) (ids : gset str).
Context (Hmax : Z.of_nat (size ids) < max_records cfg).

#[local] Abbreviation steps := (Reach cfg (rec_ok o ids) (in_age cfg o)).

(** The power fails, between two operations of the writer or during one. *)
Inductive Dies : Sys -> World -> Prop :=
  | dies_between s : Dies s (sy_world s)
  | dies_booting now w s :
      sy_phase s = Booting -> in_age cfg o now -> compact cfg now false (sy_world s) = (Crashed, w) -> Dies s w
  | dies_draining r it its now w s :
      sy_phase s = Draining r -> in_age cfg o now -> sh_overflow (sy_shared s) = it :: its ->
      handle_append cfg now (it_rec it) (it_ack it) (sy_world s) = (Crashed, w) -> Dies s w
  | dies_dispatching r now w s :
      sy_phase s = Draining r -> in_age cfg o now -> dispatch cfg now (to_msg r) (sy_world s) = (Crashed, w) -> Dies s w.

Lemma inv_degraded k w b : inv o ids k w -> inv o ids k (set_degraded b w).
Proof.
  intros (seg & N & (x & dg & wf & ak & (Hsc & [= <- <- <- <-] & Hc & Hb) & Hx) & Hk). exists seg, N. split; [|done].
  eexists _, b, _, _. split; [|exact Hx]. by repeat (split; [done|]).
Qed.

Lemma inv_weaken k k' w : k' <= k -> inv o ids k w -> inv o ids k' w.
Proof. intros Hk (seg & N & Hw & ?). exists seg, N. split; [done|lia]. Qed.

(** A writer operation that works keeps the invariant, with one turn less. *)
Lemma turn_inv {m : M World unit} k w w' : triple (inv o ids (k + 1)) m (fun _ => inv o ids k) (fun _ _ => False) (crashed o ids) ->
  m w = (Done tt, w') -> inv o ids (k + 1) w -> inv o ids k w'.
Proof. intros Hm E Hw. specialize (Hm w Hw). by rewrite E in Hm. Qed.

Lemma turn_crashed {m : M World unit} k w w' : triple (inv o ids (k + 1)) m (fun _ => inv o ids k) (fun _ _ => False) (crashed o ids) ->
  m w = (Crashed, w') -> inv o ids (k + 1) w -> crashed o ids w'.
Proof. intros Hm E Hw. specialize (Hm w Hw). by rewrite E in Hm. Qed.

Definition carried_ok (s : Sys) : Prop :=
  (forall it, it ∈ whereabouts s -> rec_ok o ids (it_rec it)) /\ (forall x, x ∈ sy_pending s -> rec_ok o ids x.1).

Lemma received_ok s r now : carried_ok s -> sy_phase s = Draining r -> in_age cfg o now -> msg_ok cfg o ids (now, to_msg r).
Proof.
  intros [Hs _] Hp Hnow. split; [done|]. destruct r as [[it|n|n|n]| |]; simpl; try done.
  apply Hs. unfold whereabouts. rewrite Hp. simpl. set_solver.
Qed.

Lemma overflow_ok s it its now : carried_ok s -> sh_overflow (sy_shared s) = it :: its -> in_age cfg o now ->
  msg_ok cfg o ids (now, Append (it_rec it) (it_ack it)).
Proof. intros [Hs _] Ho Hnow. split; [done|]. apply Hs. unfold whereabouts. rewrite Ho. set_solver. Qed.

Lemma step_carried s s' : Step cfg (rec_ok o ids) (in_age cfg o) s s' -> carried_ok s -> carried_ok s'.
Proof.
  intros Hstep [Hs Hpd]. destruct Hstep as [p rec res q w s Hrec Hp|rec ack l1 l2 ok q w s El Hp|s|m q s Hm Hq|now w s Hph _ _|m ms s Hph Hc|r s Hph Hc Hr
    |r it its now w s Hph _ Ho _|r now w s Hph _ Ho _]; (split; [intros i; specialize (Hs i)|]);
    unfold whereabouts in *; cbn [sy_shared sy_phase sy_handled sy_discarded sy_pending] in *; try exact Hpd.
  - apply produce_cases in Hp as (_ & _ & -> & Hq). destruct res; [destruct Hq as (_ & -> & _)|rewrite Hq; exact Hs..].
    rewrite items_app, !elem_of_app in *. simpl. rewrite list_elem_of_singleton. intros Hi.
    destruct (decide (it_rec i = rec)) as [->|Hne]; [done|]. apply Hs. naive_solver.
  - destruct res; try exact Hpd. intros x [Hx|Hx%list_elem_of_singleton]%elem_of_app; [by apply Hpd|by subst x].
  - apply overflow_cases in Hp as (_ & _ & -> & Hq). destruct ok; [destruct Hq as (-> & _)|rewrite Hq; exact Hs].
    rewrite !elem_of_app, list_elem_of_singleton in *. intros Hi.
    destruct (decide (it_rec i = rec)) as [->|Hne]; [apply (Hpd (rec, ack)); rewrite El; set_solver|]. apply Hs. naive_solver.
  - intros x Hx. apply Hpd. rewrite El. set_solver.
  - exact Hs.
  - unfold try_send in Hq. destruct (negb _); [done|]. destruct (_ <=? _); [done|]. injection Hq as <-. cbn [sh_chan sh_overflow set_chan].
    rewrite items_app. assert (items [m] = []) as -> by (set_unfold in Hm; destruct Hm as [->|[->|[->|[]]]]; done).
    by rewrite app_nil_r.
  - rewrite Hph in Hs. done.
  - rewrite Hph, Hc in Hs. cbn [sh_chan sh_overflow set_chan in_hand] in *. intros Hi. apply Hs.
    change (items (m :: ms)) with (items_of (Got m) ++ items ms). rewrite !elem_of_app in *. tauto.
  - rewrite Hph in Hs. cbn [in_hand] in *. intros Hi. apply Hs.
    assert (items_of r = []) as E by (destruct r as [m| |]; [by destruct (Hr m)|done|done]). rewrite E in Hi. exact Hi.
  - rewrite Hph, Ho in Hs. cbn [sh_chan sh_overflow set_overflow in_hand] in *. intros Hi. apply Hs.
    rewrite !elem_of_app, ?elem_of_cons, ?elem_of_nil in *. tauto.
  - rewrite Hph, Ho in Hs. intros Hi. apply Hs. destruct (last_turn r); cbn [sh_chan sh_overflow hang_up in_hand items mbind list_bind] in Hi |- *;
      rewrite ?Ho, !elem_of_app in *; tauto.
Qed.

Lemma step_inv K s s' : Step cfg (rec_ok o ids) (in_age cfg o) s s' -> carried_ok s -> (sy_turns s' <= K)%nat ->
  inv o ids (Z.of_nat (K - sy_turns s)) (sy_world s) -> inv o ids (Z.of_nat (K - sy_turns s')) (sy_world s').
Proof.
  intros Hstep Hs HK Hw.
  assert (Hk : sy_turns s' = S (sy_turns s) -> Z.of_nat (K - sy_turns s) = Z.of_nat (K - sy_turns s') + 1) by lia.
  destruct Hstep as [p rec res q w s Hrec Hp|rec ack l1 l2 ok q w s El Hp|s|m q s Hm Hq|now w s Hph Hnow E|m ms s Hph Hc|r s Hph Hc Hr|r it its now w s Hph Hnow Ho E
    |r now w s Hph Hnow Ho E]; cbn [sy_world sy_turns] in *; try done.
  - apply produce_cases in Hp as ([-> | ->] & _); [done|by apply inv_degraded].
  - apply overflow_cases in Hp as ([-> | ->] & _); [done|by apply inv_degraded].
  - rewrite Hk in Hw by done. eapply (turn_inv _ _ _ (boot_triple cfg o ids Hmax _ now false _ _ Hnow)); [exact E|exact Hw]. Unshelve. lia.
  - rewrite Hk in Hw by done. pose proof (overflow_ok _ _ _ _ Hs Ho Hnow) as Hm.
    eapply (turn_inv _ _ _ (dispatch_triple cfg o ids Hmax _ now _ _ _ Hm)); [exact E|exact Hw]. Unshelve. lia.
  - rewrite Hk in Hw by done. pose proof (received_ok _ _ _ Hs Hph Hnow) as Hm.
    eapply (turn_inv _ _ _ (dispatch_triple cfg o ids Hmax _ now _ _ _ Hm)); [exact E|exact Hw]. Unshelve. lia.
Qed.

Lemma step_turns s s' : Step cfg (rec_ok o ids) (in_age cfg o) s s' -> (sy_turns s <= sy_turns s')%nat.
Proof. destruct 1; simpl; lia. Qed.

Lemma reach_inv K s0 s : steps s0 s -> carried_ok s0 -> (sy_turns s <= K)%nat ->
  inv o ids (Z.of_nat (K - sy_turns s0)) (sy_world s0) -> carried_ok s /\ inv o ids (Z.of_nat (K - sy_turns s)) (sy_world s).
Proof.
  intros Hr Hc HK Hw. induction Hr as [s|s s1 s2 _ IH Hs]; [done|]. pose proof (step_turns _ _ Hs).
  destruct (IH Hc ltac:(lia) Hw) as [Hc1 Hw1]. split; [by eapply step_carried|by eapply step_inv].
Qed.

Lemma dies_crashed seq (w w' : World) s :
  opened o ids w -> Forall steady_disk (w_script w) -> steps (fresh_handle seq w) s -> Dies s w' ->
  wr_segment (w_writer w) + Z.of_nat (sy_turns s) < u_max 64 ->
  next_generation (cur (w_fs w)) + Z.of_nat (sy_turns s) < u_max 64 -> crashed o ids w'.
Proof.
  intros Hw Hsc Hr Hd Hseg HN.
  assert (Hinv : inv o ids (Z.of_nat (S (sy_turns s) - 0)) w).
  { replace (Z.of_nat (S (sy_turns s) - 0)) with (Z.of_nat (sy_turns s) + 1) by lia. by apply (opened_inv cfg). }
  destruct (reach_inv (S (sy_turns s)) _ _ Hr ltac:(by split; intros ? []%elem_of_nil) ltac:(lia) Hinv) as [Hc Hs].
  replace (Z.of_nat (S (sy_turns s) - sy_turns s)) with (0 + 1) in Hs by lia.
  destruct Hd as [s|now w' s Hph Hnow E|r it its now w' s Hph Hnow Ho E|r now w' s Hph Hnow E].
  - by eapply inv_crashed.
  - eapply (turn_crashed _ _ _ (boot_triple cfg o ids Hmax _ now false _ _ Hnow)); [exact E|exact Hs]. Unshelve. lia.
  - pose proof (overflow_ok _ _ _ _ Hc Ho Hnow) as Hm.
    eapply (turn_crashed _ _ _ (dispatch_triple cfg o ids Hmax _ now _ _ _ Hm)); [exact E|exact Hs]. Unshelve. lia.
  - pose proof (received_ok _ _ _ Hc Hph Hnow) as Hm.
    eapply (turn_crashed _ _ _ (dispatch_triple cfg o ids Hmax _ now _ _ _ Hm)); [exact E|exact Hs]. Unshelve. lia.
Qed.

(** C6. An acknowledged statement survives the whole system.  Request handlers
    and the writer thread run in any interleaving on a directory the boot has
    read.  Creating, writing, syncing, renaming and removing a file may be
    refused at any time (a refused write leaves nothing; reading, listing and
    syncing a directory work), and the power fails between two operations of
    the writer or during one.  If a record that tells the statement finished
    was acknowledged, then whatever the disk holds, the next boot finds the
    statement with a terminal status, at that record or a later one.  The
    statement is one that retention does not reach: it is not evicted, no pass
    runs when it is older than the retention period, and there are fewer
    statements than [max_records]; its records are the store's (one submit
    sequence, a terminal status from its last record on), and the segment and
    generation numbers stay below 2^64. *)
Theorem system_ack_survives seq (w w' : World) s d :
  opened o ids w -> Forall steady_disk (w_script w) ->
  steps (fresh_handle seq w) s -> Dies s w' ->
  wr_segment (w_writer w) + Z.of_nat (sy_turns s) < u_max 64 ->
  next_generation (cur (w_fs w)) + Z.of_nat (sy_turns s) < u_max 64 ->
  told o (w_acked w') -> poss (w_fs w') d ->
  exists seq' f w'' st, journal_open cfg (power_on d) = (Done (seq', f), w'') /\ fd_statements f !! fo_id o = Some st
    /\ fo_last o <= f_last_seq st /\ is_terminal (f_status st) = true.
Proof.
  intros Hw Hsc Hr Hd Hseg HN. by apply (crashed_found cfg o ids Hmax), (dies_crashed seq w w' s).
Qed.

End Survival.
