(* ===== verification/JournalCodecs.v ===== *)
(** * JournalCodecs: a record codec that keeps the journal's laws

    The journal relies on [serde_json] only through [JournalCodecLaws]: records
    read back, a line is one object with no control character, and a line cut
    short is no record.
    This file gives a total codec with these laws, so that the theorems about
    the journal can be applied and its runs evaluated: fields one after the
    other, in a small alphabet, between braces. *)

From S2P Require Import Prelude Text HistoryRecord Journal.

(** A value written so that it can be read off the front of a text. *)
Class Ser A := { ser : A -> str; de : str -> option (A * str) }.
Class SerLaws A `{Ser A} := {
  de_ser (a : A) t : de (ser a ++ t) = Some (a, t);
  ser_chars (a : A) : Forall (fun c => 35 < c < 125) (ser a) }.

Fixpoint ser_pos (p : positive) : str :=
  match p with xH => [44] | xO p => 48 :: ser_pos p | xI p => 49 :: ser_pos p end.
Fixpoint de_pos (s : str) : option (positive * str) :=
  match s with
  | c :: s =>
      if c =? 44 then Some (xH, s)
      else match de_pos s with
           | Some (p, t) => if c =? 48 then Some (xO p, t) else if c =? 49 then Some (xI p, t) else None
           | None => None
           end
  | [] => None
  end.

Lemma de_ser_pos p t : de_pos (ser_pos p ++ t) = Some (p, t).
Proof. induction p as [p IH|p IH|]; simpl; [by rewrite IH..|done]. Qed.
Lemma ser_pos_chars p : Forall (fun c => 35 < c < 125) (ser_pos p).
Proof. induction p; simpl; repeat constructor; (done || lia). Qed.

#[export] Instance ser_Z : Ser Z := {
  ser z := match z with Z0 => [46] | Zpos p => 43 :: ser_pos p | Zneg p => 45 :: ser_pos p end;
  de s := match s with
          | c :: s =>
              if c =? 46 then Some (0, s)
              else if c =? 43 then (fun x => (Zpos x.1, x.2)) <$> de_pos s
              else if c =? 45 then (fun x => (Zneg x.1, x.2)) <$> de_pos s
              else None
          | [] => None
          end }.
#[export] Instance ser_Z_laws : SerLaws Z.
Proof.
  split.
  - intros [|p|p] t; simpl; [done|..]; by rewrite de_ser_pos.
  - intros [|p|p]; simpl; repeat constructor; try lia; apply ser_pos_chars.
Qed.

#[export] Instance ser_prod {A B} `{Ser A, Ser B} : Ser (A * B) := {
  ser x := ser x.1 ++ ser x.2;
  de s := match de (A := A) s with
          | Some (a, s) => match de (A := B) s with Some (b, s) => Some ((a, b), s) | None => None end
          | None => None
          end }.
#[export] Instance ser_prod_laws {A B} `{SerLaws A, SerLaws B} : SerLaws (A * B).
Proof.
  split.
  - intros [a b] t. simpl. by rewrite <-app_assoc, !de_ser.
  - intros [a b]. simpl. apply Forall_app. split; apply ser_chars.
Qed.

#[export] Instance ser_option {A} `{Ser A} : Ser (option A) := {
  ser x := match x with Some a => 61 :: ser a | None => [95] end;
  de s := match s with
          | c :: s => if c =? 95 then Some (None, s)
                      else if c =? 61 then match de (A := A) s with Some (a, s) => Some (Some a, s) | None => None end
                      else None
          | [] => None
          end }.
#[export] Instance ser_option_laws {A} `{SerLaws A} : SerLaws (option A).
Proof.
  split.
  - intros [a|] t; simpl; [by rewrite de_ser|done].
  - intros [a|]; simpl; repeat constructor; try lia. apply ser_chars.
Qed.

Fixpoint ser_items {A} `{Ser A} (l : list A) : str :=
  match l with [] => [59] | a :: l => 58 :: ser a ++ ser_items l end.
(** Every item takes at least the character in front of it. *)
Fixpoint de_items {A} `{Ser A} (fuel : nat) (s : str) : option (list A * str) :=
  match fuel, s with
  | S fuel, c :: s =>
      if c =? 59 then Some ([], s)
      else if c =? 58 then
        match de (A := A) s with
        | Some (a, s) => match de_items fuel s with Some (l, s) => Some (a :: l, s) | None => None end
        | None => None
        end
      else None
  | _, _ => None
  end.

Lemma de_ser_items {A} `{SerLaws A} (l : list A) t fuel : (length l < fuel)%nat -> de_items fuel (ser_items l ++ t) = Some (l, t).
Proof.
  revert fuel. induction l as [|a l IH]; intros [|fuel] Hf; simpl in *; [lia|done|lia|].
  by rewrite <-app_assoc, de_ser, IH by lia.
Qed.

Lemma ser_items_length {A} `{Ser A} (l : list A) : (length l < length (ser_items l))%nat.
Proof. induction l as [|a l IH]; simpl; [lia|]. rewrite length_app. lia. Qed.

#[export] Instance ser_list {A} `{Ser A} : Ser (list A) := { ser := ser_items; de s := de_items (length s) s }.
#[export] Instance ser_list_laws {A} `{SerLaws A} : SerLaws (list A).
Proof.
  split.
  - intros l t. apply de_ser_items. change (length l < length (ser_items l ++ t))%nat. rewrite length_app. pose proof (ser_items_length l). lia.
  - intros l. change (Forall (fun c => 35 < c < 125) (ser_items l)).
    induction l as [|a l IH]; simpl; repeat constructor; try lia. apply Forall_app. split; [apply ser_chars|exact IH].
Qed.

(** A type seen through a representation. *)
Definition ser_via {A B} `{Ser B} (f : A -> B) (g : B -> option A) : Ser A := {|
  ser a := ser (f a);
  de s := match de (A := B) s with Some (b, s) => (fun a => (a, s)) <$> g b | None => None end |}.
Lemma ser_via_laws {A B} `{SerLaws B} (f : A -> B) (g : B -> option A) : (forall a, g (f a) = Some a) -> @SerLaws A (ser_via f g).
Proof.
  intros Hg. split.
  - intros a t. simpl. by rewrite (de_ser (f a)), Hg.
  - intros a. apply (ser_chars (f a)).
Qed.

#[export] Instance ser_kind : Ser RecordKind :=
  ser_via kind_rank (fun z => nth_error [KindSubmitted; KindRunning; KindSnapshot; KindTombstone] (Z.to_nat z)).
#[export] Instance ser_kind_laws : SerLaws RecordKind.
Proof. apply ser_via_laws. by intros []. Qed.

#[export] Instance ser_status : Ser StatementStatus :=
  ser_via (fun s => match s with Pending => 0 | Running => 1 | Succeeded => 2 | Failed => 3 | Canceled => 4 end)
    (fun z => nth_error [Pending; Running; Succeeded; Failed; Canceled] (Z.to_nat z)).
#[export] Instance ser_status_laws : SerLaws StatementStatus.
Proof. apply ser_via_laws. by intros []. Qed.

#[export] Instance ser_pointer : Ser ResultPointer :=
  ser_via (fun p => (rp_file p, rp_bytes p)) (fun x => Some {| rp_file := x.1; rp_bytes := x.2 |}).
#[export] Instance ser_pointer_laws : SerLaws ResultPointer.
Proof. apply ser_via_laws. by intros []. Qed.

Definition fields (r : JournalRecord) :=
  (j_v r, j_kind r, j_seq r, j_last_seq r, j_id r, j_client_op_id r, j_session r, j_source r, j_sql r, j_sql_encoding r,
   (j_status r, j_error r, j_schema r, j_rows r, j_submitted_at_ms r, j_duration_ms r, j_result r, j_result_refused r, j_ts r)).

#[export] Instance ser_record : Ser JournalRecord :=
  ser_via fields (fun '(v, k, q, l, i, c, se, so, sq, en, (st, er, sc, ro, su, du, re, rr, ts)) => Some {|
    j_v := v; j_kind := k; j_seq := q; j_last_seq := l; j_id := i; j_client_op_id := c; j_session := se; j_source := so;
    j_sql := sq; j_sql_encoding := en; j_status := st; j_error := er; j_schema := sc; j_rows := ro; j_submitted_at_ms := su;
    j_duration_ms := du; j_result := re; j_result_refused := rr; j_ts := ts |}).
#[export] Instance ser_record_laws : SerLaws JournalRecord.
Proof. apply ser_via_laws. by intros []. Qed.

#[local] Arguments ser : simpl never.
#[local] Arguments de : simpl never.

(** The closing brace is on no other place of a line. *)
#[export] Instance brace_codec : JournalCodec := {
  to_string r := Some (123 :: ser r ++ [125]);
  from_str s :=
    match s with
    | 123 :: s => if List.last s 0 =? 125 then match de (removelast s) with Some (r, []) => Some r | _ => None end else None
    | _ => None
    end }.

Lemma record_chars r : Forall (fun c => 35 < c < 126) (123 :: ser r ++ [125]).
Proof.
  constructor; [lia|]. apply Forall_app. split; [|repeat constructor; lia].
  eapply Forall_impl; [apply ser_chars|]. simpl. lia.
Qed.

#[export] Instance brace_laws : JournalCodecLaws.
Proof.
  split.
  - intros r s [= <-]. simpl. rewrite List.last_last, removelast_last. simpl.
    pose proof (de_ser r []) as E. rewrite app_nil_r in E. by rewrite E.
  - intros r s k t [= <-] Hk Ht. pose proof (record_chars r) as Hc.
    rewrite utf8_encode_ascii in Hk, Ht by (eapply Forall_impl; [exact Hc|]; simpl; lia).
    assert (Hp : Forall (fun c => 35 < c < 126) (take k (123 :: ser r ++ [125]))) by (by apply Forall_take).
    rewrite <-(utf8_encode_ascii (take k _)) in Ht by (eapply Forall_impl; [exact Hp|]; simpl; lia).
    rewrite from_utf8_encode in Ht by (eapply Forall_impl; [exact Hp|]; unfold is_scalar; simpl; lia). injection Ht as <-.
    destruct k as [|k]; [done|]. simpl. simpl in Hk. rewrite length_app in Hk. simpl in Hk.
    rewrite take_app_le by lia. destruct (take k (ser r)) as [|c s] eqn:E using rev_ind; [done|].
    rewrite List.last_last. assert (35 < c < 125); [|replace (c =? 125) with false by (symmetry; apply Z.eqb_neq; lia); done].
    pose proof (Forall_take _ k _ (ser_chars r)) as Hf. rewrite E in Hf. apply Forall_app in Hf as [_ Hf]. by inversion Hf.
  - intros r s [= <-]. exists (ser r). split; [done|]. eapply Forall_impl; [apply ser_chars|].
    unfold is_scalar. simpl. lia.
Qed.

#[export] Instance fixed_chrono : Chrono := { rfc3339_from_ms ms := show_u (Z.max 0 ms) }.
