(* ===== verification/JournalRuns.v ===== *)
(** * JournalRuns: the journal's theorems at work, and where it loses statements

    Concrete runs of the journal under [brace_codec]: the witnesses of the
    theorems of [HistoryRecord], [JournalSwap] and [JournalAck], and three runs
    outside their hypotheses, each of which loses a statement that was
    acknowledged. *)

From S2P Require Import Prelude Text Effects HistoryRecord Journal JournalDisk JournalSwap JournalAck JournalQueue JournalCodecs.

Definition cfg0 : HistoryConfig := {| max_records := 100; retention_days := 0; segment_max_bytes := 1000000 |}.

Definition submitted (id : str) (seq : Z) : JournalRecord := {|
  j_v := RECORD_VERSION; j_kind := KindSubmitted; j_seq := seq; j_last_seq := None; j_id := id;
  j_client_op_id := None; j_session := Some (lit "s"); j_source := Some (lit "rest"); j_sql := Some (lit "select");
  j_sql_encoding := Some (lit "text"); j_status := Some Pending; j_error := None; j_schema := None; j_rows := None;
  j_submitted_at_ms := 1000; j_duration_ms := None; j_result := None; j_result_refused := None; j_ts := lit "t" |}.

Definition finished (id : str) (seq last : Z) : JournalRecord := {|
  j_v := RECORD_VERSION; j_kind := KindSnapshot; j_seq := seq; j_last_seq := Some last; j_id := id;
  j_client_op_id := None; j_session := Some (lit "s"); j_source := Some (lit "rest"); j_sql := Some (lit "select");
  j_sql_encoding := Some (lit "text"); j_status := Some Succeeded; j_error := None; j_schema := None; j_rows := Some 3;
  j_submitted_at_ms := 1000; j_duration_ms := Some 5; j_result := None; j_result_refused := None; j_ts := lit "t" |}.

Definition stmt1 : str := lit "stmt-1".
Definition stmt2 : str := lit "stmt-2".
Definition sub1 := submitted stmt1 1.
Definition fin1 := finished stmt1 1 2.
Definition sub2 := submitted stmt2 3.
Definition fin2 := finished stmt2 3 4.

(** The first boot, on an empty directory. *)
Definition first_boot : World := (journal_open cfg0 (power_on ∅)).2.
Definition run (msgs : list Msg) (w : World) : outcome unit * World := writer_run cfg0 0 ((fun m => (0, m)) <$> msgs) w.
(** What a boot on a disk finds of a statement. *)
Definition found (d : disk) (id : str) : option StatementStatus :=
  match journal_open cfg0 (power_on d) with
  | (Done (_, f), _) => f_status <$> fd_statements f !! id
  | _ => None
  end.
Definition after_boot (d : disk) : disk := cur (w_fs (journal_open cfg0 (power_on d)).2).

(** ** The theorems at work *)

Lemma records_coherent : coherent [sub1; fin1; sub2; fin2].
Proof.
  assert (Hd : forall r, r ∈ [sub1; fin1; sub2; fin2] -> well_formed r).
  { intros r Hr. repeat (apply elem_of_cons in Hr as [->|Hr]); [..|by apply elem_of_nil in Hr]; split; simpl; eauto; try done.
    - split_and!; try done. by intros s [= <-].
    - split; [eauto|]. exists 2. by split.
    - split_and!; try done. by intros s [= <-].
    - split; [eauto|]. exists 4. by split. }
  split; [auto|]. intros r1 r2 H1 H2 _ _ Hid.
  repeat (apply elem_of_cons in H1 as [->|H1]); [..|by apply elem_of_nil in H1];
    (repeat (apply elem_of_cons in H2 as [->|H2]); [..|by apply elem_of_nil in H2]); try discriminate Hid;
    split; simpl; try done; unfold agree; simpl; congruence.
Qed.

Lemma fold_set_determined_witness :
  fd_statements (fold_records [sub1; fin1; sub2]) = fd_statements (fold_records [sub2; fin1; sub1; fin1])
  /\ fd_tombstoned (fold_records [sub1; fin1; sub2]) = fd_tombstoned (fold_records [sub2; fin1; sub1; fin1])
  /\ fd_max_seq (fold_records [sub1; fin1; sub2]) = fd_max_seq (fold_records [sub2; fin1; sub1; fin1]).
Proof.
  apply fold_set_determined.
  - eapply coherent_sub; [|exact records_coherent]. set_solver.
  - set_solver.
Defined.

(** The statement the runs follow. *)
Definition followed : Followed := {| fo_id := stmt1; fo_seq := 1; fo_ms := 1000; fo_last := 2 |}.
Definition ids0 : gset str := {[stmt1; stmt2]}.

Lemma record_ok r : r ∈ [sub1; fin1; sub2; fin2] -> rec_ok followed ids0 r.
Proof.
  intros Hr. repeat (apply elem_of_cons in Hr as [->|Hr]); [..|by apply elem_of_nil in Hr];
    (split; [unfold ids0; simpl; set_solver|]); (split; [by intros [=]|]); intros Hid; try discriminate Hid;
    (split; [done|]); (split; [done|]); (split; [done|]); eexists; (split; [reflexivity|]); simpl; try done; lia.
Qed.

Lemma first_boot_opened ev : opened followed ids0 (set_script ev first_boot).
Proof.
  assert (E : cur (w_fs first_boot) = ∅) by (vm_compute; reflexivity).
  split; simpl; rewrite ?E.
  - vm_compute; reflexivity.
  - vm_compute; reflexivity.
  - intros d. vm_compute. done.
  - intros p c _. by rewrite lookup_empty.
  - intros name _. by rewrite lookup_empty.
  - intros p c r _. by rewrite lookup_empty.
  - intros i n. change (segments ∅) with (@nil (Z * str)). by intros []%elem_of_nil.
  - vm_compute. split; discriminate.
  - intros i n. change (generations ∅) with (@nil (Z * str)). by intros []%elem_of_nil.
Qed.

Lemma always_in_age now : in_age cfg0 followed now.
Proof. left. simpl. lia. Qed.

(** A life that acknowledges the record, compacts, and dies when the swap marker
    is created. *)
Definition fine : FsCall -> FsFault := fun _ => Fine.
Definition after (n : nat) (ev : FsCall -> FsFault) : list (FsCall -> FsFault) := replicate n fine ++ [ev].
Definition dies : FsCall -> FsFault := fun _ => Killed.
Definition life : list Msg := [Append sub1 false; Append fin1 true; CompactNow].
Definition deadly : World := set_script (after 16 dies) first_boot.

Definition known (m : Msg) : Prop := match m with Append r _ => r ∈ [sub1; fin1; sub2; fin2] | _ => True end.
#[local] Instance known_dec m : Decision (known m).
Proof. destruct m; simpl; apply _. Defined.

Lemma life_ok msgs : Forall known msgs ->
  Forall (msg_ok cfg0 followed ids0) ((fun m => (0, m)) <$> msgs).
Proof.
  induction 1 as [|m msgs Hm _ IH]; simpl; constructor; [|done]. split; [apply always_in_age|].
  destruct m; try done. by apply record_ok.
Qed.

Lemma steady_after n ev : steady_disk ev -> Forall steady_disk (after n ev).
Proof.
  intros Hev. apply Forall_app. split; [apply Forall_replicate; split; [by repeat split; left|done]|by apply Forall_singleton].
Qed.

Lemma dies_steady : steady_disk dies.
Proof. split; [|done]. by repeat split; right. Qed.

Lemma few_ids : Z.of_nat (size ids0) < max_records cfg0.
Proof. vm_compute. reflexivity. Qed.

Lemma life_crashed msgs ev : Forall known msgs ->
  Forall steady_disk ev -> Z.of_nat (length msgs) < 1000 ->
  crashed followed ids0 (run msgs (set_script ev first_boot)).2.
Proof.
  intros Hm Hev Hl.
  eapply (run_crashed cfg0 followed ids0 few_ids 0 _ (set_script ev first_boot)); [apply first_boot_opened|done|apply always_in_age|by apply life_ok|..|apply surjective_pairing].
  - rewrite length_fmap. change (wr_segment _) with 0. change (u_max 64) with 18446744073709551615. lia.
  - rewrite length_fmap. change (next_generation _) with 0. change (u_max 64) with 18446744073709551615. lia.
Qed.

Lemma ack_survives_witness :
  fin1 ∈ w_acked (run life deadly).2
  /\ exists seq f w'' st, journal_open cfg0 (power_on (cur (w_fs (run life deadly).2))) = (Done (seq, f), w'')
       /\ fd_statements f !! stmt1 = Some st /\ 2 <= f_last_seq st /\ is_terminal (f_status st) = true.
Proof.
  assert (Hev : Forall steady_disk (after 16 dies)) by (apply steady_after, dies_steady).
  assert (Hm : Forall known life) by (apply (bool_decide_unpack _); vm_compute; exact I).
  assert (Hack : fin1 ∈ w_acked (run life deadly).2) by (vm_compute; left). split; [exact Hack|].
  apply (ack_survives cfg0 followed ids0 few_ids 0 ((fun m => (0, m)) <$> life) deadly (run life deadly).2 (run life deadly).1).
  - apply first_boot_opened.
  - exact Hev.
  - apply always_in_age.
  - apply life_ok, Hm.
  - vm_compute. reflexivity.
  - vm_compute. reflexivity.
  - apply surjective_pairing.
  - exists fin1. split; [exact Hack|]. split; [reflexivity|]. vm_compute. discriminate.
  - exact (proj1 (life_crashed life (after 16 dies) Hm Hev eq_refl)).
Defined.

(** A sealed segment, compacted while the power fails before the generation is
    known to be in place. *)
Definition seg0 : path := (Statements, seg_name 0).
Definition line_of (r : JournalRecord) : list Z := default [] (record_line r).
Definition sealed_disk : disk := {[ seg0 := line_of sub1 ++ line_of fin1 ]}.
Definition sealed_fs : Fs := {| cur := sealed_disk; poss := fun d => d = sealed_disk |}.
Definition sealed_world (ev : list (FsCall -> FsFault)) : World := set_script ev (set_fs sealed_fs first_boot).

Lemma sealed_file p c : sealed_disk !! p = Some c -> p = seg0 /\ c = line_of sub1 ++ line_of fin1.
Proof. unfold sealed_disk. by intros [<- <-]%lookup_singleton_Some. Qed.

Lemma sealed_sound : sound_journal 1 sealed_fs.
Proof.
  assert (El : input_records 1 sealed_disk = [sub1; fin1]) by (vm_compute; reflexivity).
  assert (Em : journal_records sealed_disk (open_files 1 sealed_disk) = []) by (vm_compute; reflexivity).
  split; simpl; rewrite ?El, ?Em; clear El Em.
  - done.
  - intros p c _ [_ ->]%sealed_file. vm_compute. reflexivity.
  - intros name _. unfold sealed_disk. by apply lookup_singleton_ne.
  - intros i n. change (generations sealed_disk) with (@nil (Z * str)). by intros []%elem_of_nil.
  - eapply coherent_sub; [|exact records_coherent]. intros r Hr. rewrite app_nil_r in Hr. by apply (elem_of_app [sub1; fin1]); left.
  - intros id r Hr. exists r. split; [done|]. apply elem_of_records_of in Hr as (Hr & _).
    repeat (apply elem_of_cons in Hr as [->|Hr]); [..|by apply elem_of_nil in Hr]; eexists; reflexivity.
  - intros r1 r2 H1 H2 _ _ _. repeat (apply elem_of_cons in H1 as [->|H1]); [..|by apply elem_of_nil in H1];
      (repeat (apply elem_of_cons in H2 as [->|H2]); [..|by apply elem_of_nil in H2]); reflexivity.
  - by intros r []%elem_of_nil.
Qed.

Definition pass (ev : list (FsCall -> FsFault)) : outcome bool * World := compact_sealed cfg0 0 1 true (sealed_world ev).

Lemma compaction_crash_safe_witness :
  (pass (after 7 dies)).1 = Crashed
  /\ exists seq f w'', journal_open cfg0 (power_on (cur (w_fs (pass (after 7 dies)).2))) = (Done (seq, f), w'')
    /\ forall id st, kept_statements cfg0 0 1 sealed_disk !! id = Some st ->
         option_Forall2 same_statement (fd_statements f !! id)
           (view (input_records 1 sealed_disk ++ journal_records sealed_disk (open_files 1 sealed_disk)) !! id).
Proof.
  split; [vm_compute; reflexivity|].
  assert (Hev : Forall sane (after 7 dies)) by (eapply Forall_impl; [apply (steady_after 7 dies), dies_steady|apply steady_sane]).
  apply (compaction_crash_safe cfg0 0 1 sealed_fs sealed_sound true (sealed_world (after 7 dies)) (pass (after 7 dies)).2
    (pass (after 7 dies)).1).
  - reflexivity.
  - exact Hev.
  - vm_compute. reflexivity.
  - apply surjective_pairing.
  - exact (proj1 (pass_leaves cfg0 0 1 sealed_fs sealed_sound true (sealed_world (after 7 dies)) _ _ eq_refl Hev (surjective_pairing _))).
Defined.

(** ** Runs of the whole system *)

Inductive Act := Offer (p : Producer) (rec : JournalRecord) | Ask (m : nat -> QMsg) | Turn.

(** What the writer does next; an idle one waits. *)
Definition turn (s : Sys) : option Sys :=
  match sy_phase s with
  | Booting =>
      match compact cfg0 0 false (sy_world s) with
      | (Done _, w) => Some {| sy_shared := sy_shared s; sy_phase := Receiving; sy_world := w; sy_taken := sy_taken s;
                               sy_handled := sy_handled s; sy_answered := sy_answered s; sy_turns := S (sy_turns s);
                               sy_pending := sy_pending s; sy_discarded := sy_discarded s |}
      | _ => None
      end
  | Receiving =>
      match sh_chan (sy_shared s) with
      | m :: ms => Some {| sy_shared := set_chan ms (sy_shared s); sy_phase := Draining (Got m); sy_world := sy_world s;
                           sy_taken := sy_taken s; sy_handled := sy_handled s; sy_answered := sy_answered s; sy_turns := sy_turns s;
              sy_pending := sy_pending s; sy_discarded := sy_discarded s |}
      | [] => None
      end
  | Draining r =>
      match sh_overflow (sy_shared s) with
      | it :: its =>
          match handle_append cfg0 0 (it_rec it) (it_ack it) (sy_world s) with
          | (Done _, w) => Some {| sy_shared := set_overflow its (sy_shared s); sy_phase := Draining r; sy_world := w;
                                   sy_taken := sy_taken s; sy_handled := sy_handled s ++ [it]; sy_answered := sy_answered s;
                                   sy_turns := S (sy_turns s);
                               sy_pending := sy_pending s; sy_discarded := sy_discarded s |}
          | _ => None
          end
      | [] =>
          match dispatch cfg0 0 (to_msg r) (sy_world s) with
          | (Done _, w) => Some {| sy_shared := if last_turn r then hang_up (sy_shared s) else sy_shared s;
                                   sy_phase := if last_turn r then Gone else Receiving; sy_world := w; sy_taken := sy_taken s;
                                   sy_handled := sy_handled s ++ items_of r; sy_answered := sy_answered s ++ answers r;
                                   sy_turns := S (sy_turns s); sy_pending := sy_pending s;
                                   sy_discarded := if last_turn r then sy_discarded s ++ items (sh_chan (sy_shared s)) else sy_discarded s |}
          | _ => None
          end
      end
  | Gone => None
  end.

Definition act (a : Act) (s : Sys) : option Sys :=
  match a with
  | Offer p rec =>
      let '(res, (q, w)) := produce p {| it_no := sy_taken s; it_rec := rec; it_ack := wants_ack p |} (sy_shared s, sy_world s) in
      Some {| sy_shared := q; sy_phase := sy_phase s; sy_world := w;
              sy_taken := match res with Taken => S (sy_taken s) | _ => sy_taken s end;
              sy_handled := sy_handled s; sy_answered := sy_answered s; sy_turns := sy_turns s;
              sy_pending := match res with Overflows => sy_pending s ++ [(rec, wants_ack p)] | _ => sy_pending s end;
              sy_discarded := sy_discarded s |}
  | Ask m =>
      match try_send (m (sy_taken s)) (sy_shared s) with
      | (Sent, q) => Some {| sy_shared := q; sy_phase := sy_phase s; sy_world := sy_world s; sy_taken := sy_taken s;
                             sy_handled := sy_handled s; sy_answered := sy_answered s; sy_turns := sy_turns s;
              sy_pending := sy_pending s; sy_discarded := sy_discarded s |}
      | _ => None
      end
  | Turn => turn s
  end.

Fixpoint play (acts : list Act) (s : Sys) : option Sys :=
  match acts with [] => Some s | a :: acts => match act a s with Some s => play acts s | None => None end end.

Definition act_ok (a : Act) : Prop :=
  match a with Offer _ rec => rec ∈ [sub1; fin1; sub2; fin2] | Ask m => m = QSync \/ m = QCompact \/ m = QStop | Turn => True end.

Lemma act_step a s s' : act_ok a -> act a s = Some s' -> Step cfg0 (rec_ok followed ids0) (in_age cfg0 followed) s s'.
Proof.
  intros Ha. destruct a as [p rec|m|]; simpl.
  - destruct (produce _ _ _) as [ok [q w]] eqn:E. intros [= <-]. eapply step_produce; [by apply record_ok|exact E].
  - destruct (try_send _ _) as [[] q] eqn:E; try done. intros [= <-]. eapply step_control; [|exact E].
    destruct Ha as [->|[->| ->]]; set_solver.
  - unfold turn. destruct (sy_phase s) as [| |r|] eqn:Ep; [| | |done].
    + destruct (compact _ _ _ _) as [[[]|e|] w] eqn:E; try done. intros [= <-].
      eapply step_boot; [exact Ep|apply always_in_age|exact E].
    + destruct (sh_chan _) as [|m ms] eqn:Ec; [done|]. intros [= <-]. by eapply step_receive.
    + destruct (sh_overflow _) as [|it its] eqn:Eo.
      * destruct (dispatch _ _ _ _) as [[[]|e|] w] eqn:E; try done. intros [= <-].
        eapply step_dispatch; [exact Ep|apply always_in_age|exact Eo|exact E].
      * destruct (handle_append _ _ _ _ _) as [[[]|e|] w] eqn:E; try done. intros [= <-].
        eapply step_drain; [exact Ep|apply always_in_age|exact Eo|exact E].
Qed.

Lemma play_reach acts s0 s s' : Forall act_ok acts -> Reach cfg0 (rec_ok followed ids0) (in_age cfg0 followed) s0 s ->
  play acts s = Some s' -> Reach cfg0 (rec_ok followed ids0) (in_age cfg0 followed) s0 s'.
Proof.
  intros Ha. revert s. induction Ha as [|a acts Ha _ IH]; intros s Hr; simpl; [by intros [= <-]|].
  destruct (act a s) as [s1|] eqn:E; [|done]. apply IH. eapply reach_step; [exact Hr|by eapply act_step].
Qed.

(** Two records, one of them awaited, and a sync behind them. *)
Definition acts : list Act :=
  [Offer Retained sub1; Turn; Offer Durable fin1; Ask QSync; Turn; Turn; Turn; Turn; Turn; Turn].
Definition start : Sys := fresh_handle 1 (set_script [] first_boot).
Definition finish : Sys := default start (play acts start).

Lemma acts_reach : Reach cfg0 (rec_ok followed ids0) (in_age cfg0 followed) start finish.
Proof.
  eapply (play_reach acts); [|apply reach_here|].
  - repeat constructor; try done; try (by left); apply (bool_decide_unpack _); vm_compute; exact I.
  - unfold finish. destruct (play acts start) as [s|] eqn:E; [done|]. exfalso.
    assert (match play acts start with Some _ => true | None => false end = true) as E' by (vm_compute; reflexivity).
    by rewrite E in E'.
Qed.

Lemma nothing_lost_witness :
  sy_taken finish = 2%nat
  /\ (forall k, (k < sy_taken finish)%nat <-> k ∈ it_no <$> whereabouts finish) /\ NoDup (it_no <$> whereabouts finish)
  /\ (sy_phase finish <> Gone -> sy_discarded finish = [])
  /\ Z.of_nat (length (sh_chan (sy_shared finish))) <= CHANNEL_CAPACITY
  /\ Z.of_nat (length (sh_overflow (sy_shared finish))) <= OVERFLOW_CAPACITY.
Proof.
  split; [vm_compute; reflexivity|]. exact (nothing_lost cfg0 _ _ 1 (set_script [] first_boot) finish acts_reach).
Defined.

Lemma sync_flushes_witness : exists it, it ∈ sy_handled finish /\ it_no it = 1%nat.
Proof.
  apply (sync_flushes cfg0 _ _ 1 (set_script [] first_boot) finish 2 1 acts_reach).
  - vm_compute. left.
  - lia.
Defined.

Lemma system_ack_survives_witness :
  fin1 ∈ w_acked (sy_world finish)
  /\ exists seq f w'' st, journal_open cfg0 (power_on (cur (w_fs (sy_world finish)))) = (Done (seq, f), w'')
       /\ fd_statements f !! stmt1 = Some st /\ 2 <= f_last_seq st /\ is_terminal (f_status st) = true.
Proof.
  assert (Hack : fin1 ∈ w_acked (sy_world finish)) by (vm_compute; left). split; [exact Hack|].
  assert (Hseg : wr_segment (w_writer (set_script [] first_boot)) + Z.of_nat (sy_turns finish) < u_max 64) by (vm_compute; reflexivity).
  assert (HN : next_generation (cur (w_fs (set_script [] first_boot))) + Z.of_nat (sy_turns finish) < u_max 64) by (vm_compute; reflexivity).
  apply (system_ack_survives cfg0 followed ids0 few_ids 1 (set_script [] first_boot) (sy_world finish) finish).
  - apply first_boot_opened.
  - constructor.
  - exact acts_reach.
  - apply dies_between.
  - exact Hseg.
  - exact HN.
  - exists fin1. split; [exact Hack|]. split; [reflexivity|]. vm_compute. discriminate.
  - exact (proj1 (dies_crashed cfg0 followed ids0 few_ids 1 _ _ finish (first_boot_opened []) (Forall_nil_2 _) acts_reach
      (dies_between cfg0 followed finish) Hseg HN)).
Defined.

(** ** What an acknowledgement does not survive *)

Lemma append_quiet now rec line w :
  quiet w -> wr_open (w_writer w) = true -> record_line rec = Some line ->
  wrapu 64 (wr_len (w_writer w) + Z.of_nat (length line)) < segment_max_bytes cfg0 ->
  w_fs (handle_append cfg0 now rec false w).2 = write_eff (seg_path (w_writer w)) line (w_fs w).
Proof.
  intros Hq Ho Hl Hlen. unfold handle_append, writer_append, ensure_segment, get_writer, mbind, get, ret. rewrite Hl. cbv iota beta. rewrite Ho.
  unfold try_, fs_write, fs_call. rewrite Hq. unfold update_writer, modify, roll_if_full, get_writer, mbind, get, ret.
  cbn [w_writer set_degraded set_writer set_fs wr_len].
  replace (segment_max_bytes cfg0 <=? _) with false by (symmetry; apply Z.leb_gt; exact Hlen). done.
Qed.

Definition acked_run : World := (run [Append sub1 false; Append fin1 true] (set_script [] first_boot)).2.
Definition torn_run : World := (dispatch cfg0 0 (Append sub2 false) acked_run).2.
(** The power fails while the last, unacknowledged line is on its way. *)
Definition torn_disk : disk := {[ seg0 := line_of sub1 ++ line_of fin1 ++ take 10 (line_of sub2) ]}.

Lemma torn_possible : poss (w_fs torn_run) torn_disk.
Proof.
  assert (Hp : poss (w_fs acked_run) (cur (w_fs acked_run))).
  { apply (proj1 (life_crashed [Append sub1 false; Append fin1 true] [] ltac:(apply (bool_decide_unpack _); vm_compute; exact I) ltac:(constructor) eq_refl)). }
  unfold torn_run. simpl dispatch. erewrite append_quiet; [|vm_compute; reflexivity..].
  right. exists (cur (w_fs acked_run)), 10%nat. split; [exact Hp|]. split; [reflexivity|]. vm_compute. reflexivity.
Qed.

(** A torn tail costs the whole segment at the second boot.  A terminal
    record was acknowledged, and the power fails while a later record of
    another statement is being appended.  The next boot still finds the
    acknowledged statement, but it renames the segment away, and the boot after
    that, on the very disk the first one left, does not know the statement. *)
Theorem torn_tail_forgets :
  fin1 ∈ w_acked torn_run /\ poss (w_fs torn_run) torn_disk
  /\ found torn_disk stmt1 = Some Succeeded /\ found (after_boot torn_disk) stmt1 = None.
Proof.
  split; [vm_compute; left|]. split; [apply torn_possible|]. split; vm_compute; reflexivity.
Qed.

(** The disk is full for one write. *)
Definition full_run : World :=
  (run [Append sub1 false; Append sub2 false; Append fin1 true; SyncNow]
     (set_script (after 5 (fun _ => Short 10)) first_boot)).2.

(** A write that fails half way spoils the next acknowledged record.  The
    failed append drops the handle but not the partial line; the next append
    reopens the same segment and continues on that line.  Its record is synced
    and acknowledged, and no boot can read it: the finished statement comes
    back as pending. *)
Theorem partial_write_spoils_ack :
  w_write_failures full_run = 1 /\ w_degraded full_run = false /\ fin1 ∈ w_acked full_run
  /\ found (cur (w_fs full_run)) stmt1 = Some Pending.
Proof.
  split; [vm_compute; reflexivity|]. split; [vm_compute; reflexivity|]. split; [vm_compute; left|vm_compute; reflexivity].
Qed.

(** The compaction cannot open one of its inputs. *)
Definition unread_run : World :=
  (run [Append sub1 false; Append fin1 true; CompactNow] (set_script (after 10 (fun _ => Refused)) first_boot)).2.

(** Compaction deletes an input it could not open.  The refused open reads as
    an empty file, the generation is published without its records, and the
    file is unlinked as an input of the pass: the acknowledged statement is
    gone although no operation on its file failed but one open for reading. *)
Theorem unread_input_deleted :
  fin1 ∈ w_acked unread_run /\ w_script unread_run = [] /\ cur (w_fs unread_run) !! seg0 = None
  /\ found (cur (w_fs unread_run)) stmt1 = None.
Proof.
  split; [vm_compute; left|]. split; [vm_compute; reflexivity|]. split; vm_compute; reflexivity.
Qed.
