(* ===== verification/StatementStore.v ===== *)
(** * StatementStore: the tiers of the REST and Connect servers' statements

    [StoreInner] of [oxidant-connect/src/rest.rs]: the state behind the store's
    mutex.  Statements live in a hot tier (with rows and cancel channel) and,
    once demoted, in a history tier with its two eviction indexes.  Here are
    the operations that run under the mutex without touching the journal:
    demotion, the hot caps, the memory budget, retention ([sweep_locked]) and
    the reads.  Record batches are the class [Batches]; [SqlMode::encode] is
    the parameter [encode]. *)

From S2P Require Import Prelude Text Effects HistoryRecord Journal.

(** What the store reads of Arrow batches. *)
Class Batches := {
  batch : Type;
  num_rows : batch -> Z;
  memory_size : batch -> Z;
  batch_fields : batch -> list (str * str) }.

Definition sum_u (l : list Z) : Z := foldl (fun a b => wrapu 64 (a + b)) 0 l.

Section Data.
Context `{Batches}.

Definition schema_fields (bs : list batch) : option (list (str * str)) := batch_fields <$> head bs.
Definition retained_bytes (bs : list batch) : Z := sum_u (memory_size <$> bs).

(** ** Data

    The fields of [Statement], by when they change. *)

Record Identity := {
  m_sql : str;
  m_submitted_at_ms : Z;
  m_seq : Z;
  m_source : StatementSource;
  m_session : option str;
  m_client_op_id : option str }.

Record Life := {
  l_status : StatementStatus;
  l_error : option str;
  l_schema : option (list (str * str));
  l_row_count : option Z;
  l_duration_ms : option Z }.

Record Rows := {
  r_batches : list batch;
  r_in_memory : bool;
  r_bytes : Z;
  r_file : option ResultPointer;
  r_refused : option str;
  r_spilling : bool;
  r_release_on_spill : bool }.

Record Statement := {
  s_meta : Identity;
  s_life : Life;
  s_rows : Rows;
  s_canceled : bool;       (* the cancel watch was signalled *)
  s_durable_ack : bool     (* a receiver is parked *) }.

Definition s_seq (st : Statement) : Z := m_seq (s_meta st).
Definition s_status (st : Statement) : StatementStatus := l_status (s_life st).

Definition set_life (l : Life) (st : Statement) : Statement :=
  {| s_meta := s_meta st; s_life := l; s_rows := s_rows st; s_canceled := s_canceled st; s_durable_ack := s_durable_ack st |}.
Definition set_rows (r : Rows) (st : Statement) : Statement :=
  {| s_meta := s_meta st; s_life := s_life st; s_rows := r; s_canceled := s_canceled st; s_durable_ack := s_durable_ack st |}.
Definition set_ack (b : bool) (st : Statement) : Statement :=
  {| s_meta := s_meta st; s_life := s_life st; s_rows := s_rows st; s_canceled := s_canceled st; s_durable_ack := b |}.
Definition set_canceled (st : Statement) : Statement :=
  {| s_meta := s_meta st; s_life := s_life st; s_rows := s_rows st; s_canceled := true; s_durable_ack := s_durable_ack st |}.

Definition with_status (s : StatementStatus) (l : Life) : Life :=
  {| l_status := s; l_error := l_error l; l_schema := l_schema l; l_row_count := l_row_count l; l_duration_ms := l_duration_ms l |}.
Definition spill_flags (spilling release : bool) (r : Rows) : Rows :=
  {| r_batches := r_batches r; r_in_memory := r_in_memory r; r_bytes := r_bytes r; r_file := r_file r; r_refused := r_refused r;
     r_spilling := spilling; r_release_on_spill := release |}.
Definition set_file (f : option ResultPointer) (refused : option str) (r : Rows) : Rows :=
  {| r_batches := r_batches r; r_in_memory := r_in_memory r; r_bytes := r_bytes r; r_file := f; r_refused := refused;
     r_spilling := r_spilling r; r_release_on_spill := r_release_on_spill r |}.

Definition no_rows : Rows :=
  {| r_batches := []; r_in_memory := true; r_bytes := 0; r_file := None; r_refused := None; r_spilling := false; r_release_on_spill := false |}.

Inductive ExecOutcome :=
  | OutSucceeded (bs : list batch)
  | OutSummary (rows : option Z) (schema : option (list (str * str)))
  | OutFailed (error : str)
  | OutCanceled.

Inductive CancelOutcome := CanceledNow | NotFound | AlreadyTerminal.

Record Limits := {
  history_on : bool;
  lim_max_records : Z;
  hot_ttl_ms : Z;
  max_per_session : Z;
  lim_retention_days : Z;
  result_budget : Z }.

Record StoreInner := {
  statements : gmap str Statement;
  history : gmap str FoldedStatement;
  by_seq : gset (Z * str);
  by_session : gmap str (gset (Z * str));
  alias : gmap (str * str) str;
  next_seq_no : Z;
  limits : Limits;
  last_sweep_ms : Z;
  result_bytes : Z }.

Definition set_statements x (si : StoreInner) : StoreInner := {| statements := x; history := history si; by_seq := by_seq si;
  by_session := by_session si; alias := alias si; next_seq_no := next_seq_no si; limits := limits si; last_sweep_ms := last_sweep_ms si;
  result_bytes := result_bytes si |}.
Definition set_history h s b (si : StoreInner) : StoreInner := {| statements := statements si; history := h; by_seq := s;
  by_session := b; alias := alias si; next_seq_no := next_seq_no si; limits := limits si; last_sweep_ms := last_sweep_ms si;
  result_bytes := result_bytes si |}.
Definition set_alias x (si : StoreInner) : StoreInner := {| statements := statements si; history := history si; by_seq := by_seq si;
  by_session := by_session si; alias := x; next_seq_no := next_seq_no si; limits := limits si; last_sweep_ms := last_sweep_ms si;
  result_bytes := result_bytes si |}.
Definition set_next_seq x (si : StoreInner) : StoreInner := {| statements := statements si; history := history si; by_seq := by_seq si;
  by_session := by_session si; alias := alias si; next_seq_no := x; limits := limits si; last_sweep_ms := last_sweep_ms si;
  result_bytes := result_bytes si |}.
Definition set_last_sweep x (si : StoreInner) : StoreInner := {| statements := statements si; history := history si; by_seq := by_seq si;
  by_session := by_session si; alias := alias si; next_seq_no := next_seq_no si; limits := limits si; last_sweep_ms := x;
  result_bytes := result_bytes si |}.
Definition set_result_bytes x (si : StoreInner) : StoreInner := {| statements := statements si; history := history si; by_seq := by_seq si;
  by_session := by_session si; alias := alias si; next_seq_no := next_seq_no si; limits := limits si; last_sweep_ms := last_sweep_ms si;
  result_bytes := x |}.

Definition set_statement id st (si : StoreInner) : StoreInner := set_statements (<[id := st]> (statements si)) si.

End Data.

Section Inner.
Context `{Batches} (encode : str -> str) (mode : str).

Definition to_folded (id : str) (last_seq : Z) (st : Statement) : FoldedStatement := {|
  f_id := id; f_client_op_id := m_client_op_id (s_meta st); f_session := m_session (s_meta st); f_source := m_source (s_meta st);
  f_sql := encode (m_sql (s_meta st)); f_sql_encoding := mode; f_status := s_status st; f_error := l_error (s_life st);
  f_schema := l_schema (s_life st); f_rows := l_row_count (s_life st); f_submitted_at_ms := m_submitted_at_ms (s_meta st);
  f_duration_ms := l_duration_ms (s_life st); f_result := r_file (s_rows st); f_result_refused := r_refused (s_rows st);
  f_seq := s_seq st; f_last_seq := last_seq; f_rank := kind_rank KindSnapshot |}.

(** ** The history tier and its indexes *)

Definition history_insert (id : str) (st : FoldedStatement) (si : StoreInner) : StoreInner :=
  let key := (f_seq st, id) in
  let sessions := match f_session st with
                  | Some s => <[s := {[key]} ∪ default ∅ (by_session si !! s)]> (by_session si)
                  | None => by_session si
                  end in
  set_history (<[id := st]> (history si)) ({[key]} ∪ by_seq si) sessions si.

Definition history_remove (id : str) (si : StoreInner) : option (FoldedStatement * StoreInner) :=
  match history si !! id with
  | None => None
  | Some st =>
      let key := (f_seq st, id) in
      let sessions := match f_session st with
                      | Some s =>
                          match by_session si !! s with
                          | Some ids =>
                              let ids := ids ∖ {[key]} in
                              if decide (ids = ∅) then delete s (by_session si) else <[s := ids]> (by_session si)
                          | None => by_session si
                          end
                      | None => by_session si
                      end in
      Some (st, set_history (delete id (history si)) (by_seq si ∖ {[key]}) sessions si)
  end.

(** The order of a [BTreeSet] of sequences and identifiers. *)
Definition key_le (a b : Z * str) : Prop := a.1 < b.1 \/ (a.1 = b.1 /\ str_le a.2 b.2).
#[export] Instance key_le_dec a b : Decision (key_le a b).
Proof. unfold key_le. apply _. Defined.
Definition in_order (s : gset (Z * str)) : list (Z * str) := merge_sort key_le (elements s).

Definition is_finished (si : StoreInner) (id : str) : bool :=
  match history si !! id with Some st => is_terminal (f_status st) | None => false end.

(** ** The hot tier *)

Definition release_rows (id : str) (si : StoreInner) : Z * StoreInner :=
  match statements si !! id with
  | None => (0, si)
  | Some st =>
      let freed := r_bytes (s_rows st) in
      let rows := {| r_batches := []; r_in_memory := false; r_bytes := 0; r_file := r_file (s_rows st);
                     r_refused := r_refused (s_rows st); r_spilling := false; r_release_on_spill := false |} in
      (freed, set_result_bytes (sat_subu (result_bytes si) freed) (set_statement id (set_rows rows st) si))
  end.

Definition evictable (on : bool) (st : Statement) : bool := negb on || is_terminal (s_status st).

Definition demote (id : str) (si : StoreInner) : StoreInner :=
  match statements si !! id with
  | None => si
  | Some st =>
      let si := set_result_bytes (sat_subu (result_bytes si) (r_bytes (s_rows st))) (set_statements (delete id (statements si)) si) in
      if history_on (limits si) then history_insert id (to_folded id (s_seq st) st) si
      else match m_session (s_meta st), m_client_op_id (s_meta st) with
           | Some s, Some op => set_alias (delete (s, op) (alias si)) si
           | _, _ => si
           end
  end.

Definition evict_expired (now : Z) (si : StoreInner) : StoreInner :=
  let expired := filter (fun x => hot_ttl_ms (limits si) <= sat_i 64 (now - m_submitted_at_ms (s_meta x.2))
                                  /\ evictable (history_on (limits si)) x.2 = true) (map_to_list (statements si)) in
  foldl (fun si id => demote id si) si expired.*1.

(** [min_by_key] on the submit sequence. *)
Definition oldest_hot (p : Statement -> bool) (si : StoreInner) : option str :=
  snd <$> head (merge_sort index_le ((fun x => (s_seq x.2, x.1)) <$> filter (fun x => p x.2 = true) (map_to_list (statements si)))).

Fixpoint hot_cap_loop (fuel : nat) (si : StoreInner) : StoreInner :=
  match fuel with
  | O => si
  | S fuel =>
      if lim_max_records (limits si) <? Z.of_nat (size (statements si)) then
        match oldest_hot (evictable (history_on (limits si))) si with
        | Some id => hot_cap_loop fuel (demote id si)
        | None => si
        end
      else si
  end.
(** Every turn demotes one statement. *)
Definition enforce_hot_cap (si : StoreInner) : StoreInner := hot_cap_loop (S (size (statements si))) si.

(** ** The memory budget *)

Definition candidate (st : Statement) : bool :=
  is_terminal (s_status st) && r_in_memory (s_rows st) && negb (r_spilling (s_rows st))
  && bool_decide (r_refused (s_rows st) = None) && (0 <? r_bytes (s_rows st)).

Fixpoint pick_victims (budget projected : Z) (ids : list str) (si : StoreInner) : list str * StoreInner :=
  match ids with
  | [] => ([], si)
  | id :: ids =>
      if projected <=? budget then ([], si)
      else match statements si !! id with
           | None => pick_victims budget projected ids si
           | Some st =>
               let si := set_statement id (set_rows (spill_flags true true (s_rows st)) st) si in
               let '(rest, si) := pick_victims budget (sat_subu projected (r_bytes (s_rows st))) ids si in
               (id :: rest, si)
           end
  end.

Definition budget_victims (si : StoreInner) : list str * StoreInner :=
  let budget := result_budget (limits si) in
  if (budget =? u_max 64) || (result_bytes si <=? budget) then ([], si)
  else
    let candidates := (fun x => (s_seq x.2, x.1)) <$> filter (fun x => candidate x.2 = true) (map_to_list (statements si)) in
    pick_victims budget (result_bytes si) (merge_sort index_le candidates).*2 si.

(** ** Retention *)

Definition SWEEP_INTERVAL_MS : Z := 60000.

Fixpoint evict_all (ids : list str) (si : StoreInner) : list (str * Z) * StoreInner :=
  match ids with
  | [] => ([], si)
  | id :: ids =>
      match history_remove id si with
      | Some (st, si) => let '(rest, si) := evict_all ids si in ((id, f_submitted_at_ms st) :: rest, si)
      | None => evict_all ids si
      end
  end.

(** The age sweep: the statements older than the retention, when it is due. *)
Definition stale_ids (now : Z) (si : StoreInner) : list str :=
  if 0 <? lim_retention_days (limits si) then
    let span := sat_i 64 (lim_retention_days (limits si) * 86400000) in
    let cutoff := sat_i 64 (now - span) in
    (filter (fun x => is_terminal (f_status x.2) = true /\ f_submitted_at_ms x.2 < cutoff) (map_to_list (history si))).*1
  else [].

(** The oldest finished statements of a session beyond its share. *)
Definition session_excess (share : Z) (si : StoreInner) (ids : gset (Z * str)) : list str :=
  if Z.of_nat (size ids) <? share then []
  else take (Z.to_nat (Z.of_nat (size ids) - share)) (filter (fun id => is_finished si id = true) (in_order ids).*2).
Definition session_victims (si : StoreInner) : list str :=
  let share := max_per_session (limits si) in
  if share <? u_max 64 then map_to_list (by_session si) ≫= (fun x => session_excess share si x.2) else [].

Definition oldest_archived (si : StoreInner) : option str :=
  head (filter (fun id => is_finished si id = true) (in_order (by_seq si)).*2).

Fixpoint history_cap_loop (fuel : nat) (si : StoreInner) : list (str * Z) * StoreInner :=
  match fuel with
  | O => ([], si)
  | S fuel =>
      if lim_max_records (limits si) <? Z.of_nat (size (history si)) then
        match oldest_archived si with
        | Some id =>
            match history_remove id si with
            | Some (st, si) => let '(rest, si) := history_cap_loop fuel si in ((id, f_submitted_at_ms st) :: rest, si)
            | None => history_cap_loop fuel si
            end
        | None => ([], si)
        end
      else ([], si)
  end.

Definition retain_alias (gone : list str) (si : StoreInner) : StoreInner :=
  set_alias (filter (fun kv => kv.2 ∉ gone) (alias si)) si.

(** The part of [sweep_history] that holds the mutex: age, then the share of
    each session, then the global cap. *)
Definition sweep_locked (now : Z) (si : StoreInner) : list (str * Z) * StoreInner :=
  let due := SWEEP_INTERVAL_MS <=? sat_i 64 (now - last_sweep_ms si) in
  let si := if due then set_last_sweep now si else si in
  let '(aged, si) := evict_all (if due then stale_ids now si else []) si in
  let '(shared, si) := evict_all (session_victims si) si in
  let '(capped, si) := history_cap_loop (S (size (history si))) si in
  let evicted := aged ++ shared ++ capped in
  (evicted, match evicted with [] => si | _ => retain_alias evicted.*1 si end).

(** The locked part of [prune_oldest_statement]. *)
Definition prune_locked (si : StoreInner) : option (str * Z * StoreInner) :=
  let oldest := match oldest_archived si with
                | Some id => Some id
                | None => oldest_hot (fun st => is_terminal (s_status st)) si
                end in
  match oldest with
  | None => None
  | Some id =>
      match history_remove id si with
      | Some (st, si) => Some (id, f_submitted_at_ms st, retain_alias [id] si)
      | None =>
          match statements si !! id with
          | Some st =>
              let si := set_result_bytes (sat_subu (result_bytes si) (r_bytes (s_rows st))) (set_statements (delete id (statements si)) si) in
              Some (id, m_submitted_at_ms (s_meta st), retain_alias [id] si)
          | None => None
          end
      end
  end.

(** ** Reads *)

Definition is_live (id : str) (si : StoreInner) : bool :=
  bool_decide (is_Some (statements si !! id)) || bool_decide (is_Some (history si !! id)).

Definition live_ids (si : StoreInner) : gset str := dom (statements si) ∪ dom (history si).

Inductive Tier := Hot | History.

Record StatementSnapshot := {
  ss_id : str;
  ss_sql : str;
  ss_status : StatementStatus;
  ss_error : option str;
  ss_schema : option (list (str * str));
  ss_row_count : option Z;
  ss_submitted_at_ms : Z;
  ss_duration_ms : option Z;
  ss_source : StatementSource;
  ss_client_op_id : option str;
  ss_tier : Tier;
  ss_result_refused : option str }.

Definition hot_snapshot (id : str) (st : Statement) : StatementSnapshot := {|
  ss_id := id; ss_sql := m_sql (s_meta st); ss_status := s_status st; ss_error := l_error (s_life st);
  ss_schema := l_schema (s_life st); ss_row_count := l_row_count (s_life st);
  ss_submitted_at_ms := m_submitted_at_ms (s_meta st); ss_duration_ms := l_duration_ms (s_life st);
  ss_source := m_source (s_meta st); ss_client_op_id := m_client_op_id (s_meta st); ss_tier := Hot;
  ss_result_refused := r_refused (s_rows st) |}.

Definition from_history (st : FoldedStatement) : StatementSnapshot := {|
  ss_id := f_id st; ss_sql := f_sql st; ss_status := f_status st; ss_error := f_error st;
  ss_schema := f_schema st; ss_row_count := f_rows st; ss_submitted_at_ms := f_submitted_at_ms st;
  ss_duration_ms := f_duration_ms st; ss_source := f_source st; ss_client_op_id := f_client_op_id st;
  ss_tier := History; ss_result_refused := f_result_refused st |}.

Definition snapshot (id : str) (si : StoreInner) : option StatementSnapshot :=
  match statements si !! id with
  | Some st => Some (hot_snapshot id st)
  | None => from_history <$> history si !! id
  end.

Inductive ResultSource :=
  | Memory (bs : list batch)
  | Disk (file : option str)
  | Empty
  | Gone.

Definition stored_source (file : option ResultPointer) (refused : option str) : ResultSource :=
  match file with
  | Some p => Disk (Some (rp_file p))
  | None => if bool_decide (refused = Some RESULT_EMPTY) then Empty else Gone
  end.

Definition result (id : str) (si : StoreInner) : option (StatementSnapshot * ResultSource) :=
  match statements si !! id with
  | Some st =>
      Some (hot_snapshot id st,
            if r_in_memory (s_rows st) then Memory (r_batches (s_rows st)) else stored_source (r_file (s_rows st)) (r_refused (s_rows st)))
  | None => (fun st => (from_history st, stored_source (f_result st) (f_result_refused st))) <$> history si !! id
  end.

Definition LIST_CAP : nat := 100.

(** Newest first; the sort is stable over the maps' iteration. *)
Definition newer (a b : Z * StatementSnapshot) : Prop := b.1 <= a.1.
#[export] Instance newer_dec a b : Decision (newer a b).
Proof. unfold newer. apply _. Defined.

Definition list_statements (si : StoreInner) : list StatementSnapshot :=
  let hot := (fun x => (s_seq x.2, hot_snapshot x.1 x.2)) <$> map_to_list (statements si) in
  let archived := (fun x => (f_seq x.2, from_history x.2))
                    <$> filter (fun x => statements si !! x.1 = None) (map_to_list (history si)) in
  (take LIST_CAP (merge_sort newer (hot ++ archived))).*2.

Definition resolve_alias (session client_op_id : str) (si : StoreInner) : option str := alias si !! (session, client_op_id).

(** ** Names *)

Definition validate_alias (raw : str) : option str :=
  if is_empty raw || (128 <? Z.of_nat (length (utf8_encode raw))) then None
  else if forallb (fun c => is_ascii_alphanumeric c || (c =? 46) || (c =? 95) || (c =? 58) || (c =? 45)) raw then Some raw
  else None.

Definition alias_of (client_op_id : option str) : option str :=
  match client_op_id with Some raw => if is_empty raw then None else validate_alias raw | None => None end.

End Inner.
