(* ===== verification/StoreThreads.v ===== *)
(** * StoreThreads: the statement store, the spill thread and retention

    [StatementStore] of [oxidant-connect/src/rest.rs], the spill thread of
    [history/results.rs] and [HistoryRuntime::boot] of [history/mod.rs].  Every
    change of state is handed to the journal, rows leave memory through the
    spill thread, and retention removes statements and result files.

    The code holds the store's mutex for short sections and does the rest of an
    operation (journal appends, spills, unlinks) outside it.  An operation is
    therefore its locked section and a thread of [Work] it leaves; the spill
    thread takes one job at a time.  [Step] runs a new operation or the next
    piece of work of any thread, so every interleaving of the locked sections,
    sequence draws, appends and file operations is a run.  Clocks, fresh
    identifiers, the outcome of an encode or of a file's removal and the
    journal's answer are arguments of the step. *)

From S2P Require Import Prelude Text Effects HistoryRecord Journal JournalQueue StatementStore.

Inductive ResultPersist := Always | OnPressure | Never.
Definition spills_eagerly (p : ResultPersist) : bool := match p with Always => true | _ => false end.
Definition spills_at_all (p : ResultPersist) : bool := match p with Never => false | _ => true end.

Definition SPILL_QUEUE : Z := 256.

Section Store.
Context `{Batches, Chrono} (encode : str -> str) (mode : str) (persist : ResultPersist).

Record SpillJob := { job_id : str; job_batches : list batch; job_folded : FoldedStatement }.

Inductive SpillOutcome := Spilled (p : ResultPointer) | TooLarge | SpillFailed | Abandoned.

(** What is left of an operation when the mutex is released. *)
Inductive Work :=
  | WAppend (p : Producer) (r : JournalRecord)            (* hand a record to the journal *)
  | WTerminal (id : str) (r : JournalRecord)              (* the append of [hand_over_terminal] *)
  | WAck (id : str) (taken : bool)                        (* its locked half: park the ack *)
  | WSpills (jobs : list SpillJob)                        (* [queue_spills] *)
  | WAbandon (ids : list str)                             (* [abandon_spills] *)
  | WSweep                                                (* [sweep_history] *)
  | WUnlink (id : str)                                    (* remove a result file *)
  | WTombstone (id : str) (submitted_at_ms : Z)           (* draw the tombstone's sequence *)
  | WClear (id : str)                                     (* the locked half of [drop_result_file] *)
  | WReconcile (live : gset str)                          (* [reconcile], the live set taken *)
  | WHandle (job : SpillJob)                              (* a job off the spill queue *)
  | WWrite (job : SpillJob)                               (* the encode *)
  | WWritten (job : SpillJob) (p : ResultPointer)         (* the file has landed *)
  | WPublish (f : FoldedStatement) (out : SpillOutcome)   (* draw the snapshot's sequence *)
  | WReport (id : str) (out : SpillOutcome).              (* the sink *)

Record Store := {
  sto_inner : StoreInner;
  sto_history : bool;                   (* a journal is attached *)
  sto_seq : Z;                          (* the journal's sequence *)
  sto_journal : list JournalRecord;     (* handed to the journal, in order *)
  sto_files : gmap str Z;               (* result files and their sizes *)
  sto_queue : list SpillJob;
  sto_spill : list Work;                (* the spill thread *)
  sto_paused : bool;
  sto_dropped : Z;                      (* spills refused by a full queue *)
  sto_threads : list (list Work);
  sto_ids : gset str;                   (* the identifiers handed out *)
  sto_gone : bool }.                    (* the spill thread has stopped: its channel is disconnected *)

Definition set_inner si (s : Store) : Store := {|
  sto_inner := si; sto_history := sto_history s; sto_seq := sto_seq s; sto_journal := sto_journal s; sto_files := sto_files s;
  sto_queue := sto_queue s; sto_spill := sto_spill s; sto_paused := sto_paused s; sto_dropped := sto_dropped s;
  sto_threads := sto_threads s; sto_ids := sto_ids s; sto_gone := sto_gone s |}.
Definition set_seq n (s : Store) : Store := {|
  sto_inner := sto_inner s; sto_history := sto_history s; sto_seq := n; sto_journal := sto_journal s; sto_files := sto_files s;
  sto_queue := sto_queue s; sto_spill := sto_spill s; sto_paused := sto_paused s; sto_dropped := sto_dropped s;
  sto_threads := sto_threads s; sto_ids := sto_ids s; sto_gone := sto_gone s |}.
Definition emit (r : JournalRecord) (s : Store) : Store := {|
  sto_inner := sto_inner s; sto_history := sto_history s; sto_seq := sto_seq s; sto_journal := sto_journal s ++ [r];
  sto_files := sto_files s; sto_queue := sto_queue s; sto_spill := sto_spill s; sto_paused := sto_paused s;
  sto_dropped := sto_dropped s; sto_threads := sto_threads s; sto_ids := sto_ids s; sto_gone := sto_gone s |}.
Definition set_files f (s : Store) : Store := {|
  sto_inner := sto_inner s; sto_history := sto_history s; sto_seq := sto_seq s; sto_journal := sto_journal s; sto_files := f;
  sto_queue := sto_queue s; sto_spill := sto_spill s; sto_paused := sto_paused s; sto_dropped := sto_dropped s;
  sto_threads := sto_threads s; sto_ids := sto_ids s; sto_gone := sto_gone s |}.
Definition set_queue q (s : Store) : Store := {|
  sto_inner := sto_inner s; sto_history := sto_history s; sto_seq := sto_seq s; sto_journal := sto_journal s;
  sto_files := sto_files s; sto_queue := q; sto_spill := sto_spill s; sto_paused := sto_paused s; sto_dropped := sto_dropped s;
  sto_threads := sto_threads s; sto_ids := sto_ids s; sto_gone := sto_gone s |}.
Definition set_spill l (s : Store) : Store := {|
  sto_inner := sto_inner s; sto_history := sto_history s; sto_seq := sto_seq s; sto_journal := sto_journal s;
  sto_files := sto_files s; sto_queue := sto_queue s; sto_spill := l; sto_paused := sto_paused s; sto_dropped := sto_dropped s;
  sto_threads := sto_threads s; sto_ids := sto_ids s; sto_gone := sto_gone s |}.
Definition set_paused b (s : Store) : Store := {|
  sto_inner := sto_inner s; sto_history := sto_history s; sto_seq := sto_seq s; sto_journal := sto_journal s;
  sto_files := sto_files s; sto_queue := sto_queue s; sto_spill := sto_spill s; sto_paused := b; sto_dropped := sto_dropped s;
  sto_threads := sto_threads s; sto_ids := sto_ids s; sto_gone := sto_gone s |}.
Definition count_spill_dropped (s : Store) : Store := {|
  sto_inner := sto_inner s; sto_history := sto_history s; sto_seq := sto_seq s; sto_journal := sto_journal s;
  sto_files := sto_files s; sto_queue := sto_queue s; sto_spill := sto_spill s; sto_paused := sto_paused s;
  sto_dropped := wrapu 64 (sto_dropped s + 1); sto_threads := sto_threads s; sto_ids := sto_ids s; sto_gone := sto_gone s |}.
Definition set_threads l (s : Store) : Store := {|
  sto_inner := sto_inner s; sto_history := sto_history s; sto_seq := sto_seq s; sto_journal := sto_journal s;
  sto_files := sto_files s; sto_queue := sto_queue s; sto_spill := sto_spill s; sto_paused := sto_paused s;
  sto_dropped := sto_dropped s; sto_threads := l; sto_ids := sto_ids s; sto_gone := sto_gone s |}.
Definition set_ids x (s : Store) : Store := {|
  sto_inner := sto_inner s; sto_history := sto_history s; sto_seq := sto_seq s; sto_journal := sto_journal s;
  sto_files := sto_files s; sto_queue := sto_queue s; sto_spill := sto_spill s; sto_paused := sto_paused s;
  sto_dropped := sto_dropped s; sto_threads := sto_threads s; sto_ids := x; sto_gone := sto_gone s |}.

(** The spill thread returns: what its channel still holds is dropped with the
    receiver. *)
Definition stop_spills (s : Store) : Store := {|
  sto_inner := sto_inner s; sto_history := sto_history s; sto_seq := sto_seq s; sto_journal := sto_journal s;
  sto_files := sto_files s; sto_queue := []; sto_spill := sto_spill s; sto_paused := sto_paused s;
  sto_dropped := sto_dropped s; sto_threads := sto_threads s; sto_ids := sto_ids s; sto_gone := true |}.

(** The work an operation leaves runs on the caller's thread. *)
Definition spawn (l : list Work) (s : Store) : Store := set_threads (sto_threads s ++ [l]) s.

(** [Journal::next_seq]. *)
Definition journal_seq (s : Store) : Z * Store := (sto_seq s, set_seq (wrapu 64 (sto_seq s + 1)) s).

(** [StatementStore::next_seq]. *)
Definition store_seq (s : Store) : Z * Store :=
  if sto_history s then journal_seq s
  else (next_seq_no (sto_inner s), set_inner (set_next_seq (wrapu 64 (next_seq_no (sto_inner s) + 1)) (sto_inner s)) s).

(** ** Submitting and running *)

Definition submitted_record (id : str) (meta : Identity) : JournalRecord := {|
  j_v := RECORD_VERSION; j_kind := KindSubmitted; j_seq := m_seq meta; j_last_seq := None; j_id := id;
  j_client_op_id := m_client_op_id meta; j_session := m_session meta; j_source := Some (source_as_str (m_source meta));
  j_sql := Some (encode (m_sql meta)); j_sql_encoding := Some mode; j_status := Some Pending; j_error := None; j_schema := None;
  j_rows := None; j_submitted_at_ms := m_submitted_at_ms meta; j_duration_ms := None; j_result := None; j_result_refused := None;
  j_ts := rfc3339_from_ms (m_submitted_at_ms meta) |}.

Definition insert_from (id sql : str) (source : StatementSource) (session client_op_id : option str) (now clock : Z) (s : Store) : Store :=
  let op := alias_of client_op_id in
  let s := set_ids ({[id]} ∪ sto_ids s) s in
  let s := set_inner (evict_expired encode mode clock (sto_inner s)) s in
  let '(seq, s) := store_seq s in
  let meta := {| m_sql := sql; m_submitted_at_ms := now; m_seq := seq; m_source := source; m_session := session; m_client_op_id := op |} in
  let st := {| s_meta := meta;
               s_life := {| l_status := Pending; l_error := None; l_schema := None; l_row_count := None; l_duration_ms := None |};
               s_rows := no_rows; s_canceled := false; s_durable_ack := false |} in
  let si := set_statement id st (sto_inner s) in
  let si := if history_on (limits si) then
              match session, op with Some x, Some y => set_alias (<[(x, y) := id]> (alias si)) si | _, _ => si end
            else si in
  let s := set_inner (enforce_hot_cap encode mode si) s in
  if sto_history s then spawn [WAppend Retained (submitted_record id meta); WSweep] s else s.

Definition running_record (ts id : str) (meta : Identity) : JournalRecord := {|
  j_v := RECORD_VERSION; j_kind := KindRunning; j_seq := m_seq meta; j_last_seq := None; j_id := id;
  j_client_op_id := m_client_op_id meta; j_session := m_session meta; j_source := Some (source_as_str (m_source meta));
  j_sql := None; j_sql_encoding := None; j_status := Some Running; j_error := None; j_schema := None;
  j_rows := None; j_submitted_at_ms := m_submitted_at_ms meta; j_duration_ms := None; j_result := None; j_result_refused := None;
  j_ts := ts |}.

Definition mark_running (ts id : str) (s : Store) : Store :=
  match statements (sto_inner s) !! id with
  | None => s
  | Some st =>
      match s_status st with
      | Pending =>
          let s := set_inner (set_statement id (set_life (with_status Running (s_life st)) st) (sto_inner s)) s in
          if sto_history s then spawn [WAppend BestEffort (running_record ts id (s_meta st))] s else s
      | _ => s
      end
  end.

(** ** Finishing *)

Definition terminal_record (id : str) (st : Statement) (s : Store) : option JournalRecord * Store :=
  if sto_history s then
    let '(last_seq, s) := journal_seq s in (Some (to_snapshot (to_folded encode mode id last_seq st)), s)
  else (None, s).

Definition outcome_life (elapsed : Z) (out : ExecOutcome) (l : Life) : Life :=
  match out with
  | OutSucceeded bs => {| l_status := Succeeded; l_error := l_error l; l_schema := schema_fields bs;
                          l_row_count := Some (sum_u (num_rows <$> bs)); l_duration_ms := Some elapsed |}
  | OutSummary rows schema => {| l_status := Succeeded; l_error := l_error l; l_schema := schema; l_row_count := rows;
                                 l_duration_ms := Some elapsed |}
  | OutFailed e => {| l_status := Failed; l_error := Some e; l_schema := l_schema l; l_row_count := l_row_count l;
                      l_duration_ms := Some elapsed |}
  | OutCanceled => {| l_status := Canceled; l_error := l_error l; l_schema := l_schema l; l_row_count := l_row_count l;
                      l_duration_ms := Some elapsed |}
  end.

Definition outcome_rows (out : ExecOutcome) (r : Rows) : Rows :=
  match out with
  | OutSucceeded bs => {| r_batches := bs; r_in_memory := r_in_memory r; r_bytes := retained_bytes bs; r_file := r_file r;
                          r_refused := match bs with [] => Some RESULT_EMPTY | _ => r_refused r end;
                          r_spilling := r_spilling r; r_release_on_spill := r_release_on_spill r |}
  | OutSummary _ _ => {| r_batches := r_batches r; r_in_memory := false; r_bytes := r_bytes r; r_file := r_file r;
                         r_refused := r_refused r; r_spilling := r_spilling r; r_release_on_spill := r_release_on_spill r |}
  | _ => r
  end.

(** The statements whose rows must leave memory, and the jobs for those that
    are not on disk yet. *)
Fixpoint plan_jobs (wanted : list str) (si : StoreInner) : list SpillJob * StoreInner :=
  match wanted with
  | [] => ([], si)
  | id :: wanted =>
      match statements si !! id with
      | None => plan_jobs wanted si
      | Some st =>
          if bool_decide (is_Some (r_file (s_rows st))) then plan_jobs wanted (release_rows id si).2
          else if negb (bool_decide (s_status st = Succeeded)) || negb (r_in_memory (s_rows st))
                  || bool_decide (is_Some (r_refused (s_rows st))) || match r_batches (s_rows st) with [] => true | _ => false end then
            plan_jobs wanted (set_statement id (set_rows (spill_flags false false (s_rows st)) st) si)
          else
            let st := set_rows (spill_flags true (r_release_on_spill (s_rows st)) (s_rows st)) st in
            let '(jobs, si) := plan_jobs wanted (set_statement id st si) in
            ({| job_id := id; job_batches := r_batches (s_rows st); job_folded := to_folded encode mode id (s_seq st) st |} :: jobs, si)
      end
  end.

Definition plan_spills (finished : str) (s : Store) : list SpillJob * Store :=
  if negb (sto_history s) || negb (spills_at_all persist) then ([], s)
  else
    let '(victims, si) := budget_victims (sto_inner s) in
    let wanted := if spills_eagerly persist then finished :: filter (fun id => id <> finished) victims else victims in
    let '(jobs, si) := plan_jobs wanted si in
    (jobs, set_inner si s).

Definition finish (id : str) (out : ExecOutcome) (elapsed : Z) (s : Store) : Store :=
  match statements (sto_inner s) !! id with
  | None => s
  | Some st =>
      if is_terminal (s_status st) then s
      else
        let st := set_rows (outcome_rows out (s_rows st)) (set_life (outcome_life elapsed out (s_life st)) st) in
        let '(record, s) := terminal_record id st s in
        let si := set_statement id st (sto_inner s) in
        let s := set_inner (set_result_bytes (wrapu 64 (result_bytes si + r_bytes (s_rows st))) si) s in
        let '(jobs, s) := plan_spills id s in
        spawn ((match record with Some r => [WTerminal id r] | None => [] end) ++ [WSpills jobs]) s
  end.

Definition cancel (id : str) (elapsed : Z) (s : Store) : CancelOutcome * Store :=
  match statements (sto_inner s) !! id with
  | None => (if decide (is_Some (history (sto_inner s) !! id)) then AlreadyTerminal else NotFound, s)
  | Some st =>
      if is_terminal (s_status st) then (AlreadyTerminal, s)
      else
        let life := {| l_status := Canceled; l_error := l_error (s_life st); l_schema := l_schema (s_life st);
                       l_row_count := l_row_count (s_life st); l_duration_ms := Some elapsed |} in
        let st := set_canceled (set_life life st) in
        let '(record, s) := terminal_record id st s in
        let s := set_inner (set_statement id st (sto_inner s)) s in
        (CanceledNow, spawn (match record with Some r => [WTerminal id r] | None => [] end) s)
  end.

(** [durable_ack.take()] of [await_durable]. *)
Definition take_ack (id : str) (s : Store) : option bool * Store :=
  match statements (sto_inner s) !! id with
  | Some st => (Some (s_durable_ack st), set_inner (set_statement id (set_ack false st) (sto_inner s)) s)
  | None => (None, s)
  end.

(** What [await_durable] answers: durable at once, whatever the journal's
    degraded flag says, or what becomes of the ack. *)
Inductive AckAnswer := AnswerDurable | AnswerJournal | AnswerAck.
Definition await_durable (id : str) (s : Store) : AckAnswer * Store :=
  if sto_history s then
    let '(ack, s) := take_ack id s in
    (match ack with Some true => AnswerAck | Some false => AnswerJournal | None => AnswerDurable end, s)
  else (AnswerDurable, s).

(** ** The spill queue *)

(** [SpillHandle::spill] for each job: a full queue refuses it, and one whose
    receiver is gone takes it and loses it. *)
Fixpoint queue_jobs (jobs : list SpillJob) (s : Store) : list str * Store :=
  match jobs with
  | [] => ([], s)
  | job :: jobs =>
      if negb (spills_at_all persist) || sto_paused s then
        let '(refused, s) := queue_jobs jobs s in (job_id job :: refused, s)
      else if sto_gone s then queue_jobs jobs s
      else if SPILL_QUEUE <=? Z.of_nat (length (sto_queue s)) then
        let '(refused, s) := queue_jobs jobs (count_spill_dropped s) in (job_id job :: refused, s)
      else queue_jobs jobs (set_queue (sto_queue s ++ [job]) s)
  end.
Definition queue_spills (jobs : list SpillJob) (s : Store) : list Work * Store :=
  let '(refused, s) := queue_jobs jobs s in
  (match refused with [] => [] | _ => [WAbandon refused] end, s).

Definition abandon_spills (ids : list str) (si : StoreInner) : StoreInner :=
  foldl (fun si id =>
    match statements si !! id with
    | Some st => set_statement id (set_rows (spill_flags false false (s_rows st)) st) si
    | None => si
    end) si ids.

(** ** Result files *)

(** [removed]: the operating system removed the file. *)
Definition unlink (removed : bool) (id : str) (s : Store) : option Z * Store :=
  match sto_files s !! id with
  | Some n => if removed then (Some n, set_files (delete id (sto_files s)) s) else (None, s)
  | None => (None, s)
  end.

Definition with_result (p : option ResultPointer) (refused : option str) (f : FoldedStatement) : FoldedStatement := {|
  f_id := f_id f; f_client_op_id := f_client_op_id f; f_session := f_session f; f_source := f_source f; f_sql := f_sql f;
  f_sql_encoding := f_sql_encoding f; f_status := f_status f; f_error := f_error f; f_schema := f_schema f; f_rows := f_rows f;
  f_submitted_at_ms := f_submitted_at_ms f; f_duration_ms := f_duration_ms f; f_result := p; f_result_refused := refused;
  f_seq := f_seq f; f_last_seq := f_last_seq f; f_rank := f_rank f |}.
Definition with_key (last_seq rank : Z) (f : FoldedStatement) : FoldedStatement := {|
  f_id := f_id f; f_client_op_id := f_client_op_id f; f_session := f_session f; f_source := f_source f; f_sql := f_sql f;
  f_sql_encoding := f_sql_encoding f; f_status := f_status f; f_error := f_error f; f_schema := f_schema f; f_rows := f_rows f;
  f_submitted_at_ms := f_submitted_at_ms f; f_duration_ms := f_duration_ms f; f_result := f_result f; f_result_refused := f_result_refused f;
  f_seq := f_seq f; f_last_seq := last_seq; f_rank := rank |}.

(** The locked half of [drop_result_file]: forget the pointer. *)
Definition clear_pointer (id : str) (s : Store) : option FoldedStatement * Store :=
  let si := sto_inner s in
  match statements si !! id with
  | Some st =>
      let st := set_rows (set_file None (r_refused (s_rows st)) (s_rows st)) st in
      let '(last_seq, s) := journal_seq (set_inner (set_statement id st si) s) in
      (Some (to_folded encode mode id last_seq st), s)
  | None =>
      match history si !! id with
      | Some f =>
          let '(last_seq, s) := journal_seq s in
          let f := with_key last_seq (kind_rank KindSnapshot) (with_result None (f_result_refused f) f) in
          (Some f, set_inner (set_history (<[id := f]> (history si)) (by_seq si) (by_session si) si) s)
      | None => (None, s)
      end
  end.

(** ** The spill thread *)

(** What an encode came to: a file of so many bytes, a refusal for its size, or
    an error. *)
Inductive Encoded := Landed (bytes : Z) | Refused | Broken.

Definition write (e : Encoded) (job : SpillJob) (s : Store) : option (option ResultPointer) * Store :=
  match job_batches job, e with
  | [], _ => (Some None, s)
  | _, Landed n =>
      (Some (Some {| rp_file := result_file_name (job_id job); rp_bytes := n |}), set_files (<[job_id job := n]> (sto_files s)) s)
  | _, Refused => (Some None, s)
  | _, Broken => (None, s)
  end.

(** The store's end of the spill thread. *)
Definition sink (id : str) (out : SpillOutcome) (si : StoreInner) : StoreInner :=
  match statements si !! id with
  | None =>
      match history si !! id, out with
      | Some f, Spilled p => set_history (<[id := with_result (Some p) (f_result_refused f) f]> (history si)) (by_seq si) (by_session si) si
      | Some f, TooLarge => set_history (<[id := with_result (f_result f) (Some RESULT_TOO_LARGE) f]> (history si)) (by_seq si) (by_session si) si
      | _, _ => si
      end
  | Some st =>
      let r := s_rows st in
      match out with
      | Spilled p =>
          let si := set_statement id (set_rows (set_file (Some p) None (spill_flags false (r_release_on_spill r) r)) st) si in
          if r_release_on_spill r then (release_rows id si).2 else si
      | TooLarge => set_statement id (set_rows (set_file (r_file r) (Some RESULT_TOO_LARGE) (spill_flags false false r)) st) si
      | SpillFailed | Abandoned => set_statement id (set_rows (spill_flags false false r) st) si
      end
  end.

(** ** Threads *)

Record Choice := {
  c_now : Z;             (* the clock *)
  c_ts : str;            (* the clock, rendered *)
  c_taken : bool;        (* the journal parked an ack *)
  c_removed : bool;      (* a file is removed when it is asked for *)
  c_encoded : Encoded }.

(** One piece of work: what it leaves to do on the same thread. *)
Definition do_work (c : Choice) (w : Work) (s : Store) : list Work * Store :=
  match w with
  | WAppend _ r => ([], emit r s)
  | WTerminal id r => ([WAck id (c_taken c)], emit r s)
  | WAck id taken =>
      ([], match statements (sto_inner s) !! id with
           | Some st => set_inner (set_statement id (set_ack taken st) (sto_inner s)) s
           | None => s
           end)
  | WSpills jobs => queue_spills jobs s
  | WAbandon ids => ([], set_inner (abandon_spills ids (sto_inner s)) s)
  | WSweep =>
      let '(evicted, si) := sweep_locked (c_now c) (sto_inner s) in
      (evicted ≫= (fun x => [WUnlink x.1; WTombstone x.1 x.2]), set_inner si s)
  | WUnlink id => ([], (unlink (c_removed c) id s).2)
  | WTombstone id t => let '(seq, s) := journal_seq s in ([WAppend Retained (tombstone (c_ts c) id seq t)], s)
  | WClear id =>
      let '(f, s) := clear_pointer id s in
      (match f with Some f => [WAppend Retained (to_snapshot f)] | None => [] end, s)
  | WReconcile live => (WUnlink <$> filter (fun id => id ∉ live) (map_to_list (sto_files s)).*1, s)
  | WHandle job => ([if is_live (job_id job) (sto_inner s) then WWrite job else WReport (job_id job) Abandoned], s)
  | WWrite job =>
      let '(landed, s) := write (c_encoded c) job s in
      ([match landed with
        | Some (Some p) => WWritten job p
        | Some None => WPublish (with_result None (Some RESULT_TOO_LARGE) (job_folded job)) TooLarge
        | None => WReport (job_id job) SpillFailed
        end], s)
  | WWritten job p =>
      (if is_live (job_id job) (sto_inner s) then [WPublish (with_result (Some p) None (job_folded job)) (Spilled p)]
       else [WUnlink (job_id job); WReport (job_id job) Abandoned], s)
  | WPublish f out =>
      let '(last_seq, s) := journal_seq s in
      ([WAppend Retained (to_snapshot (with_key last_seq (f_rank f) f)); WReport (f_id f) out], s)
  | WReport id out => ([], set_inner (sink id out (sto_inner s)) s)
  end.

(** [prune_oldest_statement] up to the release of the mutex. *)
Definition prune_oldest_statement (s : Store) : Store :=
  match prune_locked (sto_inner s) with
  | Some (id, t, si) => spawn [WUnlink id; WTombstone id t] (set_inner si s)
  | None => s
  end.

(** [drop_result_file] up to its mutex. *)
Definition drop_result_file (removed : bool) (id : str) (s : Store) : Store :=
  let '(freed, s) := unlink removed id s in
  match freed with Some _ => spawn [WClear id] s | None => s end.

(** ** Boot *)

(** [HistoryRuntime::boot]: the correction of the statements a restart
    interrupted. *)
Fixpoint correct_interrupted (ids : list str) (m : gmap str FoldedStatement) (s : Store) : gmap str FoldedStatement * Store :=
  match ids with
  | [] => (m, s)
  | id :: ids =>
      match m !! id with
      | Some f =>
          let '(last_seq, s) := journal_seq s in
          let f := with_key last_seq (kind_rank KindSnapshot) f in
          correct_interrupted ids (<[id := f]> m) (emit (to_snapshot f) s)
      | None => correct_interrupted ids m s
      end
  end.

Definition no_statements (lim : Limits) (next : Z) : StoreInner := {|
  statements := ∅; history := ∅; by_seq := ∅; by_session := ∅; alias := ∅; next_seq_no := next; limits := lim;
  last_sweep_ms := 0; result_bytes := 0 |}.

Definition replay_statement (si : StoreInner) (x : str * FoldedStatement) : StoreInner :=
  let si := match f_session x.2, f_client_op_id x.2 with
            | Some session, Some op => set_alias (<[(session, op) := x.1]> (alias si)) si
            | _, _ => si
            end in
  history_insert x.1 x.2 si.

(** [with_history] on what [Journal::open] returned and the files found;
    [issued] are the identifiers of earlier lives, and [stuck] those whose
    result file cannot be removed. *)
Definition with_history (lim : Limits) (files : gmap str Z) (stuck issued : gset str) (opened : Z * Fold) : Store :=
  let '(interrupted, f) := mark_interrupted opened.2 in
  let s := {| sto_inner := no_statements lim (wrapu 64 (fd_max_seq f + 1)); sto_history := true; sto_seq := opened.1; sto_journal := [];
              sto_files := files; sto_queue := []; sto_spill := []; sto_paused := false; sto_dropped := 0; sto_threads := []; sto_ids := issued;
              sto_gone := false |} in
  let '(m, s) := correct_interrupted interrupted (fd_statements f) s in
  let s := set_files (filter (fun x => x.1 ∈ dom m ∪ stuck) (sto_files s)) s in
  spawn [WSweep] (set_inner (foldl replay_statement (sto_inner s) (map_to_list m)) s).

(** The volatile store of [OXIDANT_HISTORY=off]. *)
Definition MAX_STATEMENTS : Z := 1000.
Definition STATEMENT_TTL_MS : Z := 3600000.
Definition default_limits : Limits := {|
  history_on := false; lim_max_records := MAX_STATEMENTS; hot_ttl_ms := STATEMENT_TTL_MS; max_per_session := u_max 64;
  lim_retention_days := 0; result_budget := u_max 64 |}.
Definition volatile : Store := {|
  sto_inner := no_statements default_limits 0; sto_history := false; sto_seq := 0; sto_journal := []; sto_files := ∅;
  sto_queue := []; sto_spill := []; sto_paused := false; sto_dropped := 0; sto_threads := []; sto_ids := ∅; sto_gone := false |}.

(** ** Steps

    A new identifier is a version 4 UUID: one never handed out.  The sequences
    do not run out, and the rows held in memory are counted in 64 bits. *)

Definition room (s : Store) : Prop := sto_seq s + 1 < 2 ^ 64 /\ next_seq_no (sto_inner s) + 1 < 2 ^ 64.

Definition counts (s : Store) (out : ExecOutcome) : Prop :=
  match out with OutSucceeded bs => result_bytes (sto_inner s) + retained_bytes bs < 2 ^ 64 | _ => True end.

Inductive Step : Store -> Store -> Prop :=
  | step_insert id sql source session op now clock s :
      id ∉ sto_ids s -> room s -> Step s (insert_from id sql source session op now clock s)
  | step_running ts id s : Step s (mark_running ts id s)
  | step_finish id out elapsed s : counts s out -> room s -> Step s (finish id out elapsed s)
  | step_cancel id elapsed s : room s -> Step s (cancel id elapsed s).2
  | step_await id s : Step s (await_durable id s).2
  | step_prune s : sto_history s = true -> Step s (prune_oldest_statement s)
  | step_drop removed id s : sto_history s = true -> Step s (drop_result_file removed id s)
  | step_reconcile s : sto_history s = true -> Step s (spawn [WReconcile (live_ids (sto_inner s))] s)
  | step_pause b s : Step s (set_paused b s)
  | step_thread c w rest l1 l2 s :
      sto_threads s = l1 ++ (w :: rest) :: l2 -> room s ->
      Step s (let '(ws, s) := do_work c w s in set_threads (l1 ++ (ws ++ rest) :: l2) s)
  | step_spill c w rest s :
      sto_spill s = w :: rest -> room s ->
      Step s (let '(ws, s) := do_work c w s in set_spill (ws ++ rest) s)
  | step_receive job q s :
      sto_spill s = [] -> sto_queue s = job :: q ->
      Step s (set_spill [WHandle job] (set_queue q s))
  | step_stop s : sto_spill s = [] -> Step s (stop_spills s).

End Store.
