(* ===== verification/StoreWf.v ===== *)
(** * StoreWf: the statement store is well formed

    The invariant of [StoreInner] ([wf]): the tiers are disjoint, the two
    indexes list exactly the history tier, aliases name statements that exist,
    the byte counter is the sum over the hot tier, and the history tier holds
    finished statements only.  Every operation keeps it, from boot on and in
    every interleaving ([store_well_formed]); retention enforces its caps
    ([sweep_enforces_caps]); and no operation takes back an outcome or loses a
    statement that has none ([outcomes_are_final]). *)

From S2P Require Import Prelude Text Effects HistoryRecord Journal JournalQueue StatementStore StoreThreads.

Section Wf.
Context `{Batches, Chrono} (encode : str -> str) (mode : str) (persist : ResultPersist).

(** ** The invariant *)

Definition held (m : gmap str Statement) : Z := map_fold (fun _ st a => r_bytes (s_rows st) + a) 0 m.

(** What a hot statement is charged for: its batches, which only a finished
    statement still in memory has. *)
Record rows_ok (st : Statement) : Prop := {
  ro_bytes : r_bytes (s_rows st) = retained_bytes (r_batches (s_rows st));
  ro_open : is_terminal (s_status st) = false ->
    r_batches (s_rows st) = [] /\ r_in_memory (s_rows st) = true /\ r_release_on_spill (s_rows st) = false;
  ro_gone : r_in_memory (s_rows st) = false -> r_batches (s_rows st) = [] }.

Record archived (h : gmap str FoldedStatement) (by_seq : gset (Z * str)) (by_session : gmap str (gset (Z * str))) : Prop := {
  ar_entry id f : h !! id = Some f -> f_id f = id /\ is_terminal (f_status f) = true;
  ar_seq n id : (n, id) ∈ by_seq <-> exists f, h !! id = Some f /\ f_seq f = n;
  ar_session s n id : (n, id) ∈ default ∅ (by_session !! s) <-> exists f, h !! id = Some f /\ f_seq f = n /\ f_session f = Some s;
  ar_busy s ids : by_session !! s = Some ids -> ids <> ∅ }.

(** Everything but the aliases. *)
Record core (si : StoreInner) : Prop := {
  co_disjoint id st : statements si !! id = Some st -> history si !! id = None;
  co_rows id st : statements si !! id = Some st -> rows_ok st;
  co_bytes : result_bytes si = held (statements si);
  co_room : result_bytes si < 2 ^ 64;
  co_archived : archived (history si) (by_seq si) (by_session si);
  co_volatile : history_on (limits si) = false -> history si = ∅ /\ alias si = ∅ }.

Definition live_in (si : StoreInner) (id : str) : Prop := is_Some (statements si !! id) \/ is_Some (history si !! id).

Record wf (si : StoreInner) : Prop := {
  wf_core : core si;
  wf_alias k id : alias si !! k = Some id -> live_in si id }.

(** ** Sums *)

Lemma sum_u_range l : 0 <= sum_u l < 2 ^ 64.
Proof.
  unfold sum_u. induction l as [|x l IH] using rev_ind; [simpl; lia|].
  rewrite foldl_app. simpl. unfold wrapu. apply Z.mod_pos_bound. lia.
Qed.
Lemma retained_range bs : 0 <= retained_bytes bs < 2 ^ 64.
Proof. apply sum_u_range. Qed.

Lemma held_insert m id st : m !! id = None -> held (<[id := st]> m) = r_bytes (s_rows st) + held m.
Proof. intros. unfold held. rewrite map_fold_insert_L; [done| |done]. intros. lia. Qed.
Lemma held_delete m id st : m !! id = Some st -> held m = r_bytes (s_rows st) + held (delete id m).
Proof. intros. unfold held. rewrite (map_fold_delete_L _ _ id st); [done| |done]. intros. lia. Qed.
Lemma held_update m id st st' :
  m !! id = Some st -> held (<[id := st']> m) = held m - r_bytes (s_rows st) + r_bytes (s_rows st').
Proof.
  intros Hm. rewrite <- insert_delete_eq, held_insert by apply lookup_delete_eq.
  rewrite (held_delete m id st) by done. lia.
Qed.

Lemma rows_ok_range st : rows_ok st -> 0 <= r_bytes (s_rows st) < 2 ^ 64.
Proof. intros [-> _ _]. apply retained_range. Qed.

Lemma held_nonneg m : (forall id st, m !! id = Some st -> rows_ok st) -> 0 <= held m.
Proof.
  unfold held. apply (map_fold_weak_ind (fun r m => (forall id st, m !! id = Some st -> rows_ok st) -> 0 <= r)); [lia|].
  intros i x m' r Hi IH Hok. enough (0 <= r).
  { pose proof (rows_ok_range x (Hok i x (lookup_insert_eq _ _ _))). lia. }
  apply IH. intros j y Hj. apply (Hok j). rewrite lookup_insert_ne; [done|]. intros ->. congruence.
Qed.
Lemma held_bound m id st : (forall id st, m !! id = Some st -> rows_ok st) -> m !! id = Some st -> 0 <= r_bytes (s_rows st) <= held m.
Proof.
  intros Hok Hm. split; [by apply rows_ok_range, (Hok id)|].
  rewrite (held_delete m id st Hm). enough (0 <= held (delete id m)) by lia.
  apply held_nonneg. intros j y [_ Hj]%lookup_delete_Some. eauto.
Qed.

(** ** The history tier *)

Section Archive.
Context h bs bss (A : archived h bs bss) (id : str) (f : FoldedStatement).

Lemma archived_insert :
  h !! id = None -> f_id f = id -> is_terminal (f_status f) = true ->
  archived (<[id := f]> h) ({[(f_seq f, id)]} ∪ bs)
    (match f_session f with Some s => <[s := {[(f_seq f, id)]} ∪ default ∅ (bss !! s)]> bss | None => bss end).
Proof.
  intros Hn Hid Ht. destruct A as [Ae As Ass Ab]. split.
  - intros i g [[<- <-]|[? ?]]%lookup_insert_Some; eauto.
  - intros n i. rewrite elem_of_union, elem_of_singleton, As. split.
    + intros [[= -> ->]|(g & ? & ?)]; [exists f; by rewrite lookup_insert_eq|]. exists g. by rewrite lookup_insert_ne by congruence.
    + intros (g & [[<- <-]|[? ?]]%lookup_insert_Some & <-); [by left|right; eauto].
  - intros s n i.
    assert (Hmem : (n, i) ∈ default ∅ (match f_session f with Some s => <[s := {[(f_seq f, id)]} ∪ default ∅ (bss !! s)]> bss | None => bss end !! s)
      <-> (f_session f = Some s /\ (n, i) = (f_seq f, id)) \/ (n, i) ∈ default ∅ (bss !! s)).
    { destruct (f_session f) as [s'|]; [|naive_solver]. destruct (decide (s' = s)) as [->|Hne].
      - rewrite lookup_insert_eq. simpl. set_solver.
      - rewrite lookup_insert_ne by done. naive_solver. }
    rewrite Hmem, Ass. split.
    + intros [[? [= -> ->]]|(g & ? & ?)]; [exists f; by rewrite lookup_insert_eq|]. exists g. by rewrite lookup_insert_ne by congruence.
    + intros (g & [[<- <-]|[? ?]]%lookup_insert_Some & <- & ?); [by left|right; eauto].
  - intros s ids. destruct (f_session f); [|eauto]. intros [[<- <-]|[? ?]]%lookup_insert_Some; [set_solver|eauto].
Qed.

Lemma archived_remove :
  h !! id = Some f ->
  archived (delete id h) (bs ∖ {[(f_seq f, id)]})
    (match f_session f with
     | Some s => match bss !! s with
                 | Some ids => if decide (ids ∖ {[(f_seq f, id)]} = ∅) then delete s bss else <[s := ids ∖ {[(f_seq f, id)]}]> bss
                 | None => bss
                 end
     | None => bss
     end).
Proof.
  intros Hf. destruct A as [Ae As Ass Ab]. split.
  - intros i g [_ ?]%lookup_delete_Some. eauto.
  - intros n i. rewrite elem_of_difference, elem_of_singleton, As. split.
    + intros [(g & ? & <-) Hne]. exists g. split; [|done]. rewrite lookup_delete_ne; [done|]. intros <-. simplify_eq.
    + intros (g & [? ?]%lookup_delete_Some & <-). split; [eauto|congruence].
  - intros s n i. set (bss' := match f_session f with Some _ => _ | None => _ end).
    assert (Hmem : (n, i) ∈ default ∅ (bss' !! s) <-> (n, i) ∈ default ∅ (bss !! s) /\ i <> id).
    { assert (Hid : (n, i) ∈ default ∅ (bss !! s) -> i = id -> f_session f = Some s /\ n = f_seq f).
      { rewrite Ass. intros (g & ? & <- & ?) ->. simplify_eq. done. }
      unfold bss'. destruct (f_session f) as [s'|]; [|naive_solver].
      destruct (bss !! s') as [ids|] eqn:E; [|split; [intros Hi; split; [done|]; intros ->; destruct (Hid Hi) as [[= ->] _]; [done|]; rewrite E in Hi; set_solver|tauto]].
      destruct (decide (s' = s)) as [->|Hne].
      - rewrite E in *. simpl in *. case_decide as Hd; [rewrite lookup_delete_eq|rewrite lookup_insert_eq]; simpl; set_solver.
      - case_decide; [rewrite lookup_delete_ne by done|rewrite lookup_insert_ne by done]; naive_solver. }
    rewrite Hmem, Ass. split.
    + intros [(g & ? & <- & ?) Hne]. exists g. split; [|done]. by rewrite lookup_delete_ne by done.
    + intros (g & [? ?]%lookup_delete_Some & <- & ?). split; [eauto|congruence].
  - intros s ids. repeat case_match; try by eauto.
    + intros [? ?]%lookup_delete_Some. eauto.
    + intros [[<- <-]|[? ?]]%lookup_insert_Some; [done|eauto].
Qed.

Lemma archived_alter g :
  h !! id = Some g -> f_id f = id -> is_terminal (f_status f) = true -> f_seq f = f_seq g -> f_session f = f_session g ->
  archived (<[id := f]> h) bs bss.
Proof.
  intros Hg Hid Ht Hs Hss. destruct A as [Ae As Ass Ab]. split; [|intros n i|intros s n i|done].
  - intros i g' [[<- <-]|[? ?]]%lookup_insert_Some; eauto.
  - rewrite As. destruct (decide (id = i)) as [<-|]; [rewrite lookup_insert_eq, Hg|by rewrite lookup_insert_ne]. naive_solver congruence.
  - rewrite Ass. destruct (decide (id = i)) as [<-|]; [rewrite lookup_insert_eq, Hg|by rewrite lookup_insert_ne]. naive_solver congruence.
Qed.
End Archive.

(** ** What a step may do to a statement

    [view]: a statement as either tier knows it.  An outcome, once there, stays
    until the statement is evicted; a statement without one is not evicted. *)

Definition view (si : StoreInner) (id : str) : option FoldedStatement :=
  match statements si !! id with
  | Some st => Some (to_folded encode mode id (s_seq st) st)
  | None => history si !! id
  end.

(** A statement less its result pointer and the key of its last record. *)
Definition outcome (f : FoldedStatement) : FoldedStatement := with_key 0 0 (with_result None None f).

Record advances (a b : FoldedStatement) : Prop := {
  av_id : f_id b = f_id a;
  av_seq : f_seq b = f_seq a;
  av_sql : f_sql b = f_sql a;
  av_session : f_session b = f_session a;
  av_client_op_id : f_client_op_id b = f_client_op_id a;
  av_source : f_source b = f_source a;
  av_submitted : f_submitted_at_ms b = f_submitted_at_ms a;
  av_final : is_terminal (f_status a) = true -> outcome b = outcome a }.

Definition evolves (si si' : StoreInner) : Prop :=
  forall id a, view si id = Some a ->
  match view si' id with
  | Some b => advances a b
  | None => is_terminal (f_status a) = true
  end.

(** Nothing but pointers changes. *)
Definition keeps (si si' : StoreInner) : Prop := forall id, outcome <$> view si' id = outcome <$> view si id.
#[local] Instance keeps_preorder : PreOrder keeps.
Proof. split; [done|]. intros x y z Hxy Hyz id. by rewrite Hyz. Qed.

Lemma outcome_eq_advances a b : outcome b = outcome a -> advances a b.
Proof. intros E. by split; [injection E; congruence..|]. Qed.
Lemma outcome_status a b : outcome a = outcome b -> f_status a = f_status b.
Proof. intros E. injection E. congruence. Qed.
Lemma advances_trans a b c : advances a b -> outcome c = outcome b -> advances a c.
Proof.
  intros [] E. pose proof (outcome_eq_advances _ _ E) as []. split; try congruence. intros Ha. rewrite E. auto.
Qed.

Lemma keeps_some si si' id a : keeps si si' -> view si id = Some a -> exists b, view si' id = Some b /\ outcome b = outcome a.
Proof. intros K Ha. specialize (K id). rewrite Ha in K. destruct (view si' id) as [b|]; [|done]. exists b. split; [done|]. by apply (inj Some) in K. Qed.
Lemma evolves_keeps si si' si'' : evolves si si' -> keeps si' si'' -> evolves si si''.
Proof.
  intros E K id a Ha. specialize (E id a Ha). destruct (view si' id) as [b|] eqn:Hb.
  - destruct (keeps_some _ _ _ _ K Hb) as (c & -> & ?). by eapply advances_trans.
  - specialize (K id). rewrite Hb in K. by destruct (view si'' id).
Qed.
Lemma keeps_evolves si si' : keeps si si' -> evolves si si'.
Proof. intros K id a Ha. destruct (keeps_some _ _ _ _ K Ha) as (b & -> & ?). by apply outcome_eq_advances. Qed.

(** Where hot statements come from. *)
Definition from_hot (si si' : StoreInner) : Prop :=
  forall id st', statements si' !! id = Some st' ->
  exists st, statements si !! id = Some st /\ s_meta st' = s_meta st /\ s_life st' = s_life st.

(** An operation on the hot tier: it keeps the invariant, and with history on
    the statements. *)
Definition ok (si si' : StoreInner) : Prop :=
  wf si -> wf si' /\ limits si' = limits si /\ (forall id, live_in si' id -> live_in si id)
  /\ (history_on (limits si) = true -> keeps si si') /\ from_hot si si'.
Lemma ok_refl si : ok si si.
Proof. intros W. split; [done|]. split; [done|]. split; [done|]. split; [done|]. intros id st ?. eauto. Qed.
#[local] Instance ok_preorder : PreOrder ok.
Proof.
  split; [exact ok_refl|].
  intros x y z Hxy Hyz Wx. destruct (Hxy Wx) as (Wy & Ly & Sy & Ky & Fy). destruct (Hyz Wy) as (Wz & Lz & Sz & Kz & Fz).
  rewrite Ly in *. split; [done|]. split; [done|]. split; [auto|]. split; [intros Hh; etrans; auto|].
  intros id st'' Hs. destruct (Fz id st'' Hs) as (st' & Hs' & E1 & E2). destruct (Fy id st' Hs') as (st & ? & ? & ?).
  exists st. split; [done|]. split; congruence.
Qed.

Definition same_tail (si si' : StoreInner) : Prop :=
  history si' = history si /\ by_seq si' = by_seq si /\ by_session si' = by_session si /\ alias si' = alias si /\ limits si' = limits si.

Lemma live_update si si' id st st' j :
  statements si !! id = Some st -> statements si' = <[id := st']> (statements si) -> history si' = history si ->
  live_in si j -> live_in si' j.
Proof.
  intros Hs E Hh. unfold live_in. rewrite E, Hh. intros [?|?]; [left|by right].
  destruct (decide (id = j)) as [<-|]; [by rewrite lookup_insert_eq|by rewrite lookup_insert_ne].
Qed.

Lemma live_updated si si' id st st' :
  statements si !! id = Some st -> statements si' = <[id := st']> (statements si) -> history si' = history si ->
  forall j, live_in si' j -> live_in si j.
Proof.
  intros Hs E Hh j. unfold live_in. rewrite E, Hh. intros [?|?]; [left|by right].
  destruct (decide (id = j)) as [<-|]; [by rewrite Hs|by rewrite lookup_insert_ne in *].
Qed.

(** Replacing a hot statement. *)
Lemma update_wf si si' id st st' :
  wf si -> statements si !! id = Some st -> rows_ok st' -> statements si' = <[id := st']> (statements si) -> same_tail si si' ->
  result_bytes si' = result_bytes si - r_bytes (s_rows st) + r_bytes (s_rows st') -> result_bytes si' < 2 ^ 64 -> wf si'.
Proof.
  intros [[Cd Cr Cb Cm Ca Cv] Al] Hs Ok Es (Eh & Eb & Ess & Ea & El) Er Hr.
  split; [split|].
  - intros i x. rewrite Es, Eh. intros [[<- <-]|[? ?]]%lookup_insert_Some; eauto.
  - intros i x. rewrite Es. intros [[<- <-]|[? ?]]%lookup_insert_Some; eauto.
  - rewrite Es, (held_update _ _ st) by done. lia.
  - done.
  - by rewrite Eh, Eb, Ess.
  - by rewrite Eh, El, Ea.
  - intros k i. rewrite Ea. intros ?. eapply live_update; eauto.
Qed.

Lemma update_keeps si si' id st st' :
  statements si !! id = Some st -> statements si' = <[id := st']> (statements si) -> same_tail si si' ->
  s_meta st' = s_meta st -> s_life st' = s_life st -> keeps si si'.
Proof.
  intros Hs Es (Eh & _) Em El i. unfold view. rewrite Es, Eh. destruct (decide (id = i)) as [<-|].
  - rewrite lookup_insert_eq, Hs. unfold to_folded, s_seq, s_status, outcome. simpl. by rewrite Em, El.
  - by rewrite lookup_insert_ne.
Qed.

Lemma update_ok si si' id st st' :
  statements si !! id = Some st -> statements si' = <[id := st']> (statements si) -> same_tail si si' ->
  (rows_ok st -> rows_ok st') -> s_meta st' = s_meta st -> s_life st' = s_life st ->
  (wf si -> result_bytes si' = result_bytes si - r_bytes (s_rows st) + r_bytes (s_rows st') /\ r_bytes (s_rows st') <= r_bytes (s_rows st)) ->
  ok si si'.
Proof.
  intros Hs Es T Hok Em El Hr W. destruct (Hr W) as [Hr1 Hr2].
  split; [|split; [apply T|split; [by eapply live_updated, T|split; [intros _; by eapply update_keeps|]]]]; cycle 1.
  { intros i x. rewrite Es. intros [[<- <-]|[_ ?]]%lookup_insert_Some; eauto. }
  eapply update_wf; [done..| | | | |]; try done.
  - apply Hok, (co_rows _ (wf_core _ W) id), Hs.
  - pose proof (co_room _ (wf_core _ W)). lia.
Qed.

(** Changes of flags and pointers leave the rows. *)
Lemma flags_ok si id st r :
  statements si !! id = Some st -> r_batches r = r_batches (s_rows st) -> r_in_memory r = r_in_memory (s_rows st) ->
  r_bytes r = r_bytes (s_rows st) ->
  (r_release_on_spill r = true -> r_release_on_spill (s_rows st) = true \/ is_terminal (s_status st) = true) ->
  ok si (set_statement id (set_rows r st) si).
Proof.
  intros Hs Eb Em Ey Er. eapply update_ok; try done.
  - intros [Rb Ro Rg]. split; simpl; rewrite ?Eb, ?Em, ?Ey; auto.
    change (s_status (set_rows r st)) with (s_status st). intros Ht. destruct (Ro Ht) as (? & ? & Hrel). split; [done|]. split; [done|].
    destruct (r_release_on_spill r); [|done]. destruct (Er eq_refl); congruence.
  - intros _. simpl. rewrite Ey. lia.
Qed.

Lemma sat_subu_le a b : b <= a -> sat_subu a b = a - b.
Proof. unfold sat_subu. lia. Qed.

Lemma release_rows_ok id si :
  (forall st, statements si !! id = Some st -> is_terminal (s_status st) = true) -> ok si (release_rows id si).2.
Proof.
  intros Hterm. unfold release_rows. destruct (statements si !! id) as [st|] eqn:Hs; [|done]. simpl.
  specialize (Hterm st eq_refl). eapply (update_ok _ _ id st); try done.
  { intros _. split; simpl; try done. unfold s_status in *. simpl. intros. congruence. }
  intros [C _]. pose proof (held_bound _ id st (co_rows _ C) Hs). rewrite <- (co_bytes _ C) in *.
  simpl. rewrite sat_subu_le by lia. lia.
Qed.

(** Taking a statement out of the hot tier. *)
Lemma remove_hot_core si id st :
  core si -> statements si !! id = Some st ->
  core (set_result_bytes (sat_subu (result_bytes si) (r_bytes (s_rows st))) (set_statements (delete id (statements si)) si)).
Proof.
  intros [Cd Cr Cb Cm Ca Cv] Hs. pose proof (held_bound _ id st Cr Hs) as Hb. rewrite <- Cb in Hb.
  split; simpl; try done.
  - intros i x [_ ?]%lookup_delete_Some. eauto.
  - intros i x [_ ?]%lookup_delete_Some. eauto.
  - rewrite sat_subu_le by lia. rewrite Cb, (held_delete _ id st) by done. lia.
  - rewrite sat_subu_le by lia. lia.
Qed.

Lemma insert_archive_core si id f :
  core si -> statements si !! id = None -> history si !! id = None -> history_on (limits si) = true ->
  f_id f = id -> is_terminal (f_status f) = true -> core (history_insert id f si).
Proof.
  intros [Cd Cr Cb Cm Ca Cv] Hs Hh Hon Hid Ht. split; simpl; try done.
  - intros i x Hx. rewrite lookup_insert_ne; [eauto|]. intros <-. congruence.
  - by apply archived_insert.
  - congruence.
Qed.

Lemma demote_ok id si : (forall st, statements si !! id = Some st -> evictable (history_on (limits si)) st = true) -> ok si (demote encode mode id si).
Proof.
  intros Hev [C Al]. unfold demote. destruct (statements si !! id) as [st|] eqn:Hs; [|by apply ok_refl].
  pose proof (remove_hot_core si id st C Hs) as C'. specialize (Hev st eq_refl). unfold evictable in Hev.
  simpl in *. destruct (history_on (limits si)) eqn:Hon; simpl in Hev.
  - split; [|split; [done|split; [|split]]].
    + split.
      * apply insert_archive_core; simpl; try done; [apply lookup_delete_eq|by apply (co_disjoint _ C id st)].
      * intros k i Hk. destruct (Al k i Hk) as [Hi|Hi]; unfold live_in; simpl; destruct (decide (id = i)) as [<-|].
        -- right. by rewrite lookup_insert_eq.
        -- left. by rewrite lookup_delete_ne.
        -- right. by rewrite lookup_insert_eq.
        -- right. by rewrite lookup_insert_ne.
    + intros i. unfold live_in. simpl. intros [[? [_ ?]%lookup_delete_Some]|[? [[<- _]|[_ ?]]%lookup_insert_Some]]; [left|left|right]; by eexists.
    + intros _ i. unfold view. simpl. destruct (decide (id = i)) as [<-|].
      * by rewrite lookup_delete_eq, lookup_insert_eq, Hs.
      * by rewrite lookup_delete_ne, lookup_insert_ne.
    + intros i x. simpl. intros [_ ?]%lookup_delete_Some. eauto.
  - destruct (co_volatile _ C Hon) as [Eh Ea].
    assert (W : wf (set_result_bytes (sat_subu (result_bytes si) (r_bytes (s_rows st))) (set_statements (delete id (statements si)) si))).
    { split; [done|]. simpl. rewrite Ea. by intros k i ?%lookup_empty_Some. }
    assert (Hl : forall i, live_in (set_result_bytes (sat_subu (result_bytes si) (r_bytes (s_rows st))) (set_statements (delete id (statements si)) si)) i -> live_in si i).
    { intros i. unfold live_in. simpl. intros [[? [_ ?]%lookup_delete_Some]|?]; [left; by eexists|by right]. }
    assert (Hfr : from_hot si (set_result_bytes (sat_subu (result_bytes si) (r_bytes (s_rows st))) (set_statements (delete id (statements si)) si))).
    { intros i x. simpl. intros [_ ?]%lookup_delete_Some. eauto. }
    repeat case_match; try done. split; [|done]. destruct W as [[] Wa]. split; [split|]; simpl in *; try done.
    + intros _. by rewrite Ea, delete_empty.
    + rewrite Ea, delete_empty. by intros k i ?%lookup_empty_Some.
Qed.

Lemma demote_limits id si : limits (demote encode mode id si) = limits si.
Proof. unfold demote. repeat case_match; done. Qed.
Lemma demote_lookup id si j st : statements (demote encode mode id si) !! j = Some st -> statements si !! j = Some st.
Proof.
  unfold demote. destruct (statements si !! id) eqn:E; [|done].
  repeat case_match; simpl; by intros [_ ?]%lookup_delete_Some.
Qed.

Lemma demote_all_ok ids si :
  (forall id st, id ∈ ids -> statements si !! id = Some st -> evictable (history_on (limits si)) st = true) ->
  ok si (foldl (fun si id => demote encode mode id si) si ids).
Proof.
  revert si. induction ids as [|id ids IH]; intros si Hev; [done|]. simpl. etrans; [apply demote_ok|apply IH].
  - intros st. apply Hev. set_solver.
  - intros j st Hj Hst. rewrite demote_limits. apply (Hev j); [set_solver|]. by eapply demote_lookup.
Qed.

Lemma evict_expired_ok now si : ok si (evict_expired encode mode now si).
Proof.
  apply demote_all_ok. intros id st ((j & st') & -> & (Hf & Hin)%list_elem_of_filter)%list_elem_of_fmap Hs.
  apply elem_of_map_to_list in Hin. simpl in *. naive_solver.
Qed.

Lemma oldest_hot_spec p si id : oldest_hot p si = Some id -> exists st, statements si !! id = Some st /\ p st = true.
Proof.
  unfold oldest_hot. intros ([n i] & Hh & ->)%fmap_Some. simpl.
  apply head_Some_elem_of in Hh. rewrite merge_sort_Permutation in Hh.
  apply list_elem_of_fmap in Hh as ((j & st) & [= -> ->] & (Hp & Hin)%list_elem_of_filter).
  apply elem_of_map_to_list in Hin. eauto.
Qed.

Lemma hot_cap_loop_ok fuel si : ok si (hot_cap_loop encode mode fuel si).
Proof.
  revert si. induction fuel as [|fuel IH]; intros si; [done|]. simpl. case_match; [|done].
  destruct (oldest_hot _ si) as [id|] eqn:E; [|done]. apply oldest_hot_spec in E as (st & Hs & Hp).
  etrans; [apply demote_ok|apply IH]. intros st' ?. congruence.
Qed.

(** The loop ends within the cap or with nothing left that may leave. *)
Lemma demote_size id si st : statements si !! id = Some st -> S (size (statements (demote encode mode id si))) = size (statements si).
Proof.
  intros Hs. unfold demote. rewrite Hs.
  assert (E : S (size (delete id (statements si))) = size (statements si)).
  { rewrite map_size_delete_Some by by eexists. assert (size (statements si) <> 0)%nat; [|lia]. intros E%map_size_empty_inv. by rewrite E in Hs. }
  repeat case_match; exact E.
Qed.
Lemma hot_cap_enough si :
  let si' := enforce_hot_cap encode mode si in
  Z.of_nat (size (statements si')) <= lim_max_records (limits si') \/ oldest_hot (evictable (history_on (limits si'))) si' = None.
Proof.
  unfold enforce_hot_cap. assert (Hf : (size (statements si) < S (size (statements si)))%nat) by lia.
  generalize dependent (S (size (statements si))). intros fuel. revert si. induction fuel as [|fuel IH]; intros si Hf; simpl; [lia|].
  case_match eqn:Hc; [|apply Z.ltb_ge in Hc; by left].
  destruct (oldest_hot _ si) as [id|] eqn:E; [|by right]. apply oldest_hot_spec in E as (st & Hs & _). apply IH.
  pose proof (demote_size id si st Hs). lia.
Qed.

(** The listed statements that are hot are finished: what the spills of the
    memory budget are chosen from. *)
Definition all_final (ids : list str) (si : StoreInner) : Prop :=
  forall id st, id ∈ ids -> statements si !! id = Some st -> is_terminal (s_status st) = true.

Lemma all_final_set ids si id st st' :
  all_final ids si -> statements si !! id = Some st -> s_life st' = s_life st -> all_final ids (set_statement id st' si).
Proof.
  intros Hf Hs El j x Hj. simpl. intros [[<- <-]|[? ?]]%lookup_insert_Some; [|eauto].
  unfold s_status. rewrite El. by apply (Hf id).
Qed.
Lemma all_final_tail id ids si : all_final (id :: ids) si -> all_final ids si.
Proof. intros Hf j x ?. apply Hf. set_solver. Qed.

Lemma pick_victims_ok budget projected ids si : all_final ids si ->
  ok si (pick_victims budget projected ids si).2
  /\ (forall l, all_final l si -> all_final l (pick_victims budget projected ids si).2)
  /\ forall id, id ∈ (pick_victims budget projected ids si).1 -> id ∈ ids.
Proof.
  revert projected si. induction ids as [|id ids IH]; intros projected si Hf; [done|]. simpl.
  case_match; [split; [done|]; split; [done|set_solver]|].
  destruct (statements si !! id) as [st|] eqn:Hs.
  - set (st' := set_rows _ st). assert (Hf' : all_final ids (set_statement id st' si)) by (eapply all_final_set; [by eapply all_final_tail|done..]).
    specialize (IH (sat_subu projected (r_bytes (s_rows st))) _ Hf'). destruct (pick_victims _ _ ids _) as [rest si']. simpl in *.
    destruct IH as (IH1 & IH2 & IH3). split; [|split].
    + etrans; [|exact IH1]. eapply (flags_ok _ id st (spill_flags true true _)); try done. intros _. right. apply (Hf id); [set_solver|done].
    + intros l Hl. apply IH2. by eapply all_final_set.
    + set_solver.
  - destruct (IH projected si) as (? & ? & ?); [by eapply all_final_tail|]. split; [done|]. split; [done|set_solver].
Qed.

Lemma candidates_final si : all_final (merge_sort index_le ((fun x => (s_seq x.2, x.1)) <$> filter (fun x => candidate x.2 = true) (map_to_list (statements si)))).*2 si.
Proof.
  intros id st ([n i] & -> & Hin)%list_elem_of_fmap Hs. rewrite merge_sort_Permutation in Hin.
  apply list_elem_of_fmap in Hin as ((j & st') & [= -> ->] & (Hc & Hin)%list_elem_of_filter). apply elem_of_map_to_list in Hin.
  simpl in *. simplify_eq. unfold candidate in Hc. by repeat apply andb_true_iff in Hc as [Hc _].
Qed.

Lemma budget_victims_ok si :
  ok si (budget_victims si).2 /\ (forall l, all_final l si -> all_final l (budget_victims si).2)
  /\ all_final (budget_victims si).1 si.
Proof.
  unfold budget_victims. case_match; [split; [done|]; split; [done|by intros ? ? ?%elem_of_nil]|].
  destruct (pick_victims_ok (result_budget (limits si)) (result_bytes si) _ si (candidates_final si)) as (? & ? & Hin).
  split; [done|]. split; [done|]. intros id st Hi. eapply candidates_final. eauto.
Qed.

Lemma release_rows_final ids id si : all_final ids si -> all_final ids (release_rows id si).2.
Proof. intros Hf. unfold release_rows. destruct (statements si !! id) as [st|] eqn:Hs; [|done]. simpl. by eapply all_final_set. Qed.

Lemma plan_jobs_ok ids si : all_final ids si -> ok si (plan_jobs encode mode ids si).2.
Proof.
  revert si. induction ids as [|id ids IH]; intros si Hf; [done|]. simpl. pose proof (all_final_tail _ _ _ Hf) as Hf'.
  destruct (statements si !! id) as [st|] eqn:Hs; [|by apply IH].
  assert (Ht : is_terminal (s_status st) = true) by (apply (Hf id); [set_solver|done]).
  case_match; [etrans; [apply release_rows_ok; intros x Hx; rewrite Hs in Hx; injection Hx as <-; exact Ht|by apply IH, release_rows_final]|].
  case_match.
  { etrans; [by eapply (flags_ok _ id st (spill_flags false false _)); auto|]. apply IH. by eapply all_final_set. }
  set (st' := set_rows _ st). assert (Hf2 : all_final ids (set_statement id st' si)) by by eapply all_final_set.
  specialize (IH _ Hf2). destruct (plan_jobs _ _ ids _) as [jobs si']. simpl in *. etrans; [|exact IH].
  eapply (flags_ok _ id st (spill_flags true _ _)); auto.
Qed.

Lemma abandon_spills_ok ids si : ok si (abandon_spills ids si).
Proof.
  revert si. induction ids as [|id ids IH]; intros si; [done|]. unfold abandon_spills. simpl.
  etrans; [|apply IH]. destruct (statements si !! id) eqn:E; [by eapply (flags_ok _ id _ (spill_flags false false _))|done].
Qed.

(** Changing pointers of the history tier. *)
Lemma alter_archive_ok si id f f' :
  statements si !! id = None -> history si !! id = Some f -> outcome f' = outcome f ->
  ok si (set_history (<[id := f']> (history si)) (by_seq si) (by_session si) si).
Proof.
  intros Hs Hf E [[Cd Cr Cb Cm Ca Cv] Al]. pose proof (outcome_eq_advances _ _ E) as Ad. split; [split; [split|]|split; [done|split; [|split]]].
  - simpl. intros i x Hx. rewrite lookup_insert_ne; [eauto|]. intros <-. simpl in *. congruence.
  - done.
  - done.
  - done.
  - destruct (ar_entry _ _ _ Ca id f Hf) as [Hid Ht]. eapply archived_alter; [done..| | | |].
    + rewrite (av_id _ _ Ad). done.
    + rewrite (outcome_status _ _ E). done.
    + apply (av_seq _ _ Ad).
    + apply (av_session _ _ Ad).
  - intros Hoff. simpl in *. destruct (Cv Hoff) as [Eh _]. by rewrite Eh in Hf.
  - simpl. intros k i Hk. destruct (Al k i Hk) as [?|?]; [by left|right]. simpl.
    destruct (decide (id = i)) as [<-|]; [by rewrite lookup_insert_eq|by rewrite lookup_insert_ne].
  - intros i. unfold live_in. simpl. intros [?|[? [[<- _]|[_ ?]]%lookup_insert_Some]]; [by left|right; by eexists..].
  - intros _ i. unfold view. simpl. destruct (statements si !! i) eqn:Ei; [done|].
    destruct (decide (id = i)) as [<-|]; [|by rewrite lookup_insert_ne].
    rewrite lookup_insert_eq, Hf. simpl. by rewrite E.
  - simpl. intros i x. simpl. eauto.
Qed.

Lemma sink_ok id out si : ok si (sink id out si).
Proof.
  unfold sink. destruct (statements si !! id) as [st|] eqn:Hs.
  - destruct out as [p| | |]; [|by eapply (flags_ok _ id st); auto..].
    set (st' := set_rows (set_file (Some p) None _) st).
    assert (Hok : ok si (set_statement id st' si)) by (eapply flags_ok; auto).
    case_match eqn:Hrel; [|done]. etrans; [exact Hok|]. intros W. apply release_rows_ok; [|done]. intros x.
    simpl. rewrite lookup_insert_eq. intros [= <-]. destruct (is_terminal _) eqn:Ht; [done|].
    destruct (ro_open _ (co_rows _ (wf_core _ W) id st' (lookup_insert_eq _ _ _)) Ht) as (_ & _ & Hno). simpl in Hno. congruence.
  - destruct (history si !! id) as [f|] eqn:Hf; [|done].
    destruct out; try done; by eapply alter_archive_ok.
Qed.

(** Statements under way and new ones. *)
Lemma evolves_update si si' id st st' :
  statements si !! id = Some st -> statements si' = <[id := st']> (statements si) -> same_tail si si' ->
  s_meta st' = s_meta st -> is_terminal (s_status st) = false -> evolves si si'.
Proof.
  intros Hs Es (Eh & _) Em Ht i a Ha. unfold view in *. rewrite Es, Eh in *. destruct (decide (id = i)) as [<-|].
  - rewrite lookup_insert_eq. rewrite Hs in Ha. injection Ha as <-.
    split; simpl; unfold s_seq; rewrite ?Em; try done. unfold s_status in *. congruence.
  - rewrite lookup_insert_ne by done. rewrite Ha. by apply outcome_eq_advances.
Qed.

(** ** Retention *)

Record evicts (ev : list (str * Z)) (si si' : StoreInner) : Prop := {
  ev_core : core si';
  ev_statements : statements si' = statements si;
  ev_alias : alias si' = alias si;
  ev_limits : limits si' = limits si;
  ev_gone id : id ∈ ev.*1 -> history si' !! id = None;
  ev_kept id : id ∉ ev.*1 -> history si' !! id = history si !! id;
  ev_was id t : (id, t) ∈ ev -> exists f, history si !! id = Some f /\ f_submitted_at_ms f = t }.

Lemma evicts_nil si : core si -> evicts [] si si.
Proof. intros. split; try done; intros; by apply not_elem_of_nil in H2 || set_solver. Qed.

Lemma evicts_app ev1 ev2 si si1 si2 : evicts ev1 si si1 -> evicts ev2 si1 si2 -> evicts (ev1 ++ ev2) si si2.
Proof.
  intros [] []. split; [done|congruence..| | |].
  - intros id. rewrite fmap_app. destruct (decide (id ∈ ev2.*1)); [auto|]. intros [?|?]%elem_of_app; [|done].
    rewrite ev_kept1 by done. auto.
  - intros id. rewrite fmap_app. intros ?. rewrite ev_kept1, ev_kept0 by set_solver. done.
  - intros id t [?|Hin]%elem_of_app; [auto|]. destruct (ev_was1 id t Hin) as (f & Hf & ?).
    destruct (decide (id ∈ ev1.*1)) as [Hg|Hg]; [by rewrite (ev_gone0 id Hg) in Hf|]. rewrite ev_kept0 in Hf by done. eauto.
Qed.

Lemma history_remove_spec id si f si' :
  core si -> history_remove id si = Some (f, si') ->
  history si !! id = Some f /\ evicts [(id, f_submitted_at_ms f)] si si' /\ history si' = delete id (history si).
Proof.
  intros [Cd Cr Cb Cm Ca Cv]. unfold history_remove. destruct (history si !! id) as [g|] eqn:Hf; [|done]. intros [= <- <-].
  split; [done|]. split; [|done]. split; try done.
  - split; simpl; try done.
    + intros i x Hx. rewrite lookup_delete_None. eauto.
    + by apply archived_remove.
    + intros Hoff. destruct (Cv Hoff) as [Eh Ea]. by rewrite Eh, delete_empty.
  - intros i. simpl. rewrite list_elem_of_singleton. intros ->. apply lookup_delete_eq.
  - intros i. simpl. rewrite list_elem_of_singleton. intros ?. by rewrite lookup_delete_ne.
  - intros i t. rewrite list_elem_of_singleton. intros [= -> ->]. eauto.
Qed.

Lemma history_remove_none id si : history_remove id si = None -> history si !! id = None.
Proof. unfold history_remove. by destruct (history si !! id). Qed.

Lemma evict_all_spec ids si ev si' : core si -> evict_all ids si = (ev, si') ->
  evicts ev si si' /\ (forall id, id ∈ ids -> history si' !! id = None).
Proof.
  revert si ev. induction ids as [|id ids IH]; intros si ev C; simpl.
  { intros [= <- <-]. split; [by apply evicts_nil|]. intros ? []%not_elem_of_nil. }
  destruct (history_remove id si) as [[f si1]|] eqn:E.
  - destruct (evict_all ids si1) as [rest si2] eqn:E2. intros [= <- <-].
    destruct (history_remove_spec _ _ _ _ C E) as (Hf & Ev & _). destruct (IH si1 _ (ev_core _ _ _ Ev) E2) as [Ev2 Hg].
    split; [by eapply (evicts_app [_])|]. intros i [->|?]%elem_of_cons; [|auto].
    destruct (decide (id ∈ rest.*1)); [by apply Ev2|]. rewrite (ev_kept _ _ _ Ev2) by done. apply Ev. simpl. set_solver.
  - intros E2. destruct (IH si _ C E2) as [Ev2 Hg]. split; [done|]. intros i [->|?]%elem_of_cons; [|auto].
    apply history_remove_none in E.
    destruct (decide (id ∈ ev.*1)); [by apply Ev2|]. by rewrite (ev_kept _ _ _ Ev2).
Qed.

Lemma oldest_archived_spec si id : oldest_archived si = Some id -> is_finished si id = true.
Proof. unfold oldest_archived. intros ?%head_Some_elem_of. by apply list_elem_of_filter in H1 as [? _]. Qed.

Lemma in_order_elem s k : k ∈ in_order s <-> k ∈ s.
Proof. unfold in_order. by rewrite merge_sort_Permutation, elem_of_elements. Qed.

Lemma is_finished_archived si id : core si -> is_finished si id = true <-> is_Some (history si !! id).
Proof.
  intros C. unfold is_finished. destruct (history si !! id) as [f|] eqn:E; [|split; [done|by intros []]].
  rewrite (proj2 (ar_entry _ _ _ (co_archived _ C) _ _ E)). done.
Qed.

(** Whatever is in the tier can be evicted. *)
Lemma oldest_archived_exists si : core si -> history si <> ∅ -> is_Some (oldest_archived si).
Proof.
  intros C Hne. apply map_choose in Hne as (id & f & Hf). unfold oldest_archived.
  destruct (filter _ _) as [|x l] eqn:E; [|by eexists]. exfalso.
  assert (Hin : id ∈ filter (fun i => is_finished si i = true) (in_order (by_seq si)).*2); [|rewrite E in Hin; by apply elem_of_nil in Hin].
  apply list_elem_of_filter. split; [by apply is_finished_archived|].
  apply list_elem_of_fmap. exists (f_seq f, id). split; [done|]. apply in_order_elem, (ar_seq _ _ _ (co_archived _ C)). eauto.
Qed.

Lemma cap_loop_spec fuel si ev si' : core si -> history_cap_loop fuel si = (ev, si') ->
  evicts ev si si' /\ (0 <= lim_max_records (limits si) -> (size (history si) < fuel)%nat -> Z.of_nat (size (history si')) <= lim_max_records (limits si)).
Proof.
  revert si ev. induction fuel as [|fuel IH]; intros si ev C; simpl.
  { intros [= <- <-]. split; [by apply evicts_nil|lia]. }
  case_match eqn:Hc; [|intros [= <- <-]; apply Z.ltb_ge in Hc; split; [by apply evicts_nil|lia]].
  apply Z.ltb_lt in Hc. destruct (oldest_archived si) as [id|] eqn:Eo.
  - pose proof (oldest_archived_spec _ _ Eo) as [f Hf]%(is_finished_archived _ _ C).
    destruct (history_remove id si) as [[g si1]|] eqn:E; [|unfold history_remove in E; by rewrite Hf in E].
    destruct (history_cap_loop fuel si1) as [rest si2] eqn:E2. intros [= <- <-].
    destruct (history_remove_spec _ _ _ _ C E) as (Hg & Ev & Eh). destruct (IH si1 _ (ev_core _ _ _ Ev) E2) as [Ev2 Hs].
    split; [by eapply (evicts_app [_])|]. rewrite (ev_limits _ _ _ Ev), Eh, map_size_delete_Some in Hs by done.
    intros. apply Hs; lia.
  - intros [= <- <-]. split; [by apply evicts_nil|]. intros H0' _. destruct (decide (history si = ∅)) as [->|Hne].
    + rewrite map_size_empty. lia.
    + destruct (oldest_archived_exists si C Hne) as [x Hx]. congruence.
Qed.

Lemma evicts_session ev si si' s ids' : core si -> evicts ev si si' -> by_session si' !! s = Some ids' ->
  exists ids, by_session si !! s = Some ids /\ ids' ⊆ ids /\ forall n id, (n, id) ∈ ids' -> is_Some (history si' !! id).
Proof.
  intros C Ev Hs. pose proof (co_archived _ C) as A. pose proof (co_archived _ (ev_core _ _ _ Ev)) as A'.
  assert (Hin : forall n id, (n, id) ∈ ids' -> is_Some (history si' !! id) /\ (n, id) ∈ default ∅ (by_session si !! s)).
  { intros n id Hk. destruct (proj1 (ar_session _ _ _ A' s n id)) as (f & Hf & ? & ?); [by rewrite Hs|]. split; [by eexists|].
    apply (ar_session _ _ _ A). exists f. split; [|done]. rewrite <- (ev_kept _ _ _ Ev); [done|].
    intros Hg. by rewrite (ev_gone _ _ _ Ev _ Hg) in Hf. }
  destruct (set_choose_L ids' (ar_busy _ _ _ A' s ids' Hs)) as [[n0 i0] Hk]. destruct (Hin n0 i0 Hk) as [_ Hd].
  destruct (by_session si !! s) as [ids|]; [|simpl in Hd; set_solver]. exists ids. split; [done|]. simpl in *. split.
  - intros [n id] ?. by apply Hin.
  - intros n id ?. by apply (Hin n id).
Qed.

Lemma in_order_NoDup s : NoDup (in_order s).
Proof. unfold in_order. rewrite merge_sort_Permutation. apply NoDup_elements. Qed.
Lemma in_order_length s : length (in_order s) = size s.
Proof. unfold in_order. by rewrite merge_sort_Permutation. Qed.

Lemma filter_forall {A} (P : A -> Prop) `{forall x, Decision (P x)} (l : list A) : (forall x, x ∈ l -> P x) -> filter P l = l.
Proof.
  induction l as [|x l IH]; intros Hl; [done|]. rewrite filter_cons_True by (apply Hl; set_solver). rewrite IH; [done|].
  intros; apply Hl; set_solver.
Qed.

Lemma session_excess_spec share si s ids :
  core si -> by_session si !! s = Some ids -> share <= Z.of_nat (size ids) ->
  session_excess share si ids = take (Z.to_nat (Z.of_nat (size ids) - share)) (in_order ids).*2.
Proof.
  intros C Hs Hle. unfold session_excess. rewrite (proj2 (Z.ltb_ge _ _)) by lia. f_equal. apply filter_forall.
  intros id ([n i] & -> & Hk%in_order_elem)%list_elem_of_fmap. simpl. apply is_finished_archived; [done|].
  destruct (proj1 (ar_session _ _ _ (co_archived _ C) s n i)) as (f & ? & _); [by rewrite Hs|by eexists].
Qed.

Lemma take_rest_size (ids kept : gset (Z * str)) (k : nat) :
  kept ⊆ ids -> (forall x, x ∈ take k (in_order ids) -> x ∉ kept) -> (k <= size ids)%nat -> (size kept <= size ids - k)%nat.
Proof.
  intros Hsub Hno Hk.
  assert (Hs : kept ⊆ list_to_set (drop k (in_order ids))).
  { intros x Hx. apply elem_of_list_to_set. assert (Hin : x ∈ in_order ids) by (apply in_order_elem; set_solver).
    rewrite <- (take_drop k (in_order ids)) in Hin. apply elem_of_app in Hin as [Hin|?]; [|done]. by destruct (Hno x Hin). }
  apply subseteq_size in Hs. etrans; [exact Hs|]. rewrite size_list_to_set.
  - by rewrite length_drop, in_order_length.
  - eapply sublist_NoDup; [apply in_order_NoDup|apply sublist_drop].
Qed.

Lemma shares_enforced si ev si' : core si -> 0 <= max_per_session (limits si) < u_max 64 ->
  evict_all (session_victims si) si = (ev, si') ->
  forall s ids, by_session si' !! s = Some ids -> Z.of_nat (size ids) <= max_per_session (limits si).
Proof.
  intros C Hsh E s ids' Hs'. destruct (evict_all_spec _ _ _ _ C E) as [Ev Hg].
  destruct (evicts_session _ _ _ _ _ C Ev Hs') as (ids & Hs & Hsub & Hin).
  set (share := max_per_session (limits si)) in *.
  destruct (decide (Z.of_nat (size ids) < share)) as [Hlt|Hge]; [apply subseteq_size in Hsub; lia|].
  enough (size ids' <= size ids - Z.to_nat (Z.of_nat (size ids) - share))%nat by lia.
  apply take_rest_size; [done| |lia]. intros [n id] Hx Hk. destruct (Hin n id Hk) as [f Hf].
  rewrite Hg in Hf; [done|]. unfold session_victims. fold share. rewrite (proj2 (Z.ltb_lt _ _)) by lia.
  apply list_elem_of_bind. exists (s, ids). split; [|by apply elem_of_map_to_list]. simpl.
  rewrite (session_excess_spec share si s ids) by (done || lia). rewrite <- fmap_take. apply list_elem_of_fmap. by exists (n, id).
Qed.

Lemma evicts_evolves ev si si' : core si -> evicts ev si si' -> evolves si si'.
Proof.
  intros C Ev id a. unfold view. rewrite (ev_statements _ _ _ Ev). destruct (statements si !! id).
  - intros [= <-]. by apply outcome_eq_advances.
  - intros Ha. destruct (decide (id ∈ ev.*1)) as [Hg|Hg].
    + rewrite (ev_gone _ _ _ Ev id Hg). by apply (ar_entry _ _ _ (co_archived _ C) id).
    + rewrite (ev_kept _ _ _ Ev id Hg), Ha. by apply outcome_eq_advances.
Qed.

Lemma retain_alias_wf gone si si' :
  core si' -> (forall id, id ∉ gone -> live_in si id -> live_in si' id) -> alias si' = alias si -> wf si -> wf (retain_alias gone si').
Proof.
  intros [] Hl Ea [_ Al]. split; [split; try done|].
  - intros Hoff. destruct (co_volatile0 Hoff) as [? E]. split; [done|]. simpl. by rewrite E, map_filter_empty.
  - intros k id [Hk Hg]%map_lookup_filter_Some. rewrite Ea in Hk. specialize (Hl id Hg (Al k id Hk)). done.
Qed.

Lemma evicts_live ev si si' id : evicts ev si si' -> id ∉ ev.*1 -> live_in si id -> live_in si' id.
Proof. intros Ev Hg. unfold live_in. by rewrite (ev_statements _ _ _ Ev), (ev_kept _ _ _ Ev id Hg). Qed.

Definition capped (si : StoreInner) : Prop :=
  (0 <= lim_max_records (limits si) -> Z.of_nat (size (history si)) <= lim_max_records (limits si))
  /\ (0 <= max_per_session (limits si) < u_max 64 -> forall s ids, by_session si !! s = Some ids -> Z.of_nat (size ids) <= max_per_session (limits si)).

Lemma sweep_evicts now si ev si' : core si -> sweep_locked now si = (ev, si') ->
  exists si0, evicts ev si si0 /\ capped si0 /\ si' = match ev with [] => si0 | _ => retain_alias ev.*1 si0 end.
Proof.
  intros C. unfold sweep_locked. set (due := _ <=? _). set (si1 := if due then set_last_sweep now si else si).
  assert (C1 : core si1) by (destruct C; unfold si1; destruct due; by split).
  destruct (evict_all _ si1) as [aged si2] eqn:E2. destruct (evict_all_spec _ _ _ _ C1 E2) as [Ev2 _].
  destruct (evict_all _ si2) as [shared si3] eqn:E3. destruct (evict_all_spec _ _ _ _ (ev_core _ _ _ Ev2) E3) as [Ev3 _].
  destruct (history_cap_loop _ si3) as [over si4] eqn:E4. destruct (cap_loop_spec _ _ _ _ (ev_core _ _ _ Ev3) E4) as [Ev4 Hcap].
  intros [= <- <-]. exists si4. split; [|split; [|done]].
  - assert (Ev : evicts (aged ++ shared ++ over) si1 si4) by (eapply evicts_app; [done|]; by eapply evicts_app).
    destruct Ev. unfold si1 in *. by destruct due.
  - split.
    + rewrite (ev_limits _ _ _ Ev4). intros ?. apply Hcap; [done|lia].
    + rewrite (ev_limits _ _ _ Ev4), (ev_limits _ _ _ Ev3). intros Hsh s ids Hs.
      destruct (evicts_session _ _ _ _ _ (ev_core _ _ _ Ev3) Ev4 Hs) as (ids3 & Hs3 & Hsub & _). apply subseteq_size in Hsub.
      pose proof (shares_enforced _ _ _ (ev_core _ _ _ Ev2) Hsh E3 s ids3 Hs3). lia.
Qed.

Lemma sweep_spec now si ev si' : wf si -> sweep_locked now si = (ev, si') ->
  wf si' /\ capped si' /\ limits si' = limits si /\ evolves si si' /\ statements si' = statements si
  /\ (forall id, id ∈ ev.*1 -> is_Some (history si !! id) /\ history si' !! id = None)
  /\ (forall id, id ∉ ev.*1 -> history si' !! id = history si !! id).
Proof.
  intros W E. destruct (sweep_evicts _ _ _ _ (wf_core _ W) E) as (si0 & Ev & Hcap & ->).
  assert (W' : wf (match ev with [] => si0 | _ => retain_alias ev.*1 si0 end)).
  { destruct ev as [|x ev]; [|eapply retain_alias_wf; [apply Ev| |apply Ev|done]; intros; by eapply evicts_live].
    split; [apply Ev|]. intros k id. rewrite (ev_alias _ _ _ Ev). intros Hk. eapply evicts_live; [done|set_solver|by apply (wf_alias _ W k)]. }
  pose proof (evicts_evolves _ _ _ (wf_core _ W) Ev) as Hev.
  assert (Hg : forall id, id ∈ ev.*1 -> is_Some (history si !! id) /\ history si0 !! id = None).
  { intros id Hi. split; [|by apply Ev]. apply list_elem_of_fmap in Hi as ([i t] & -> & Hi).
    destruct (ev_was _ _ _ Ev i t Hi) as (f & ? & _). by eexists. }
  destruct Ev as [_ Es _ El _ Ek _]. destruct ev; repeat (split; [done|]); done.
Qed.

Lemma prune_locked_spec si id t si' : wf si -> prune_locked si = Some (id, t, si') -> history_on (limits si) = true ->
  wf si' /\ limits si' = limits si /\ evolves si si' /\ (exists f, view si id = Some f /\ is_terminal (f_status f) = true)
  /\ view si' id = None /\ (forall j, j <> id -> view si' j = view si j).
Proof.
  intros W E Hon. unfold prune_locked in E.
  set (oldest := match oldest_archived si with Some i => Some i | None => _ end) in E.
  destruct oldest as [i|] eqn:Eo; [|done]. destruct (history_remove i si) as [[f si1]|] eqn:Er.
  - injection E as <- <- <-. destruct (history_remove_spec _ _ _ _ (wf_core _ W) Er) as (Hf & Ev & Eh).
    assert (Hs : statements si !! i = None).
    { destruct (statements si !! i) eqn:Hs; [|done]. apply (co_disjoint _ (wf_core _ W)) in Hs. congruence. }
    split; [eapply retain_alias_wf; [apply Ev| |apply Ev|done]; intros; eapply evicts_live; [done|set_solver|done]|].
    split; [apply Ev|]. split; [apply (evicts_evolves _ _ _ (wf_core _ W) Ev)|]. unfold view. simpl. rewrite (ev_statements _ _ _ Ev), Hs, Eh.
    split; [exists f; split; [done|by apply (ar_entry _ _ _ (co_archived _ (wf_core _ W)) i)]|]. rewrite lookup_delete_eq. split; [done|].
    intros j ?. by rewrite lookup_delete_ne.
  - apply history_remove_none in Er as Hh.
    destruct (statements si !! i) as [st|] eqn:Hs; [|done]. injection E as <- <- <-.
    assert (Ht : is_terminal (s_status st) = true).
    { unfold oldest in Eo. destruct (oldest_archived si) as [j|] eqn:Ea.
      - injection Eo as ->. apply oldest_archived_spec, is_finished_archived in Ea as [? Ha]; [congruence|apply W].
      - apply oldest_hot_spec in Eo as (st' & ? & ?). congruence. }
    pose proof (remove_hot_core _ _ _ (wf_core _ W) Hs) as C'.
    set (si1 := set_result_bytes _ _) in *.
    assert (Hv : forall j, j <> i -> view si1 j = view si j) by (intros j ?; unfold view; simpl; by rewrite lookup_delete_ne).
    assert (Hi : view si1 i = None) by (unfold view; simpl; rewrite lookup_delete_eq; exact Hh).
    assert (Hi0 : view si i = Some (to_folded encode mode i (s_seq st) st)) by (unfold view; by rewrite Hs).
    split; [apply (retain_alias_wf _ si); [exact C'| |done|done]|split; [done|split; [|split; [by eexists|split; [exact Hi|exact Hv]]]]].
    + intros j Hj. unfold live_in. simpl. rewrite lookup_delete_ne by set_solver. done.
    + intros j a Ha. destruct (decide (j = i)) as [->|Hne].
      * change (match view si1 i with Some b => advances a b | None => is_terminal (f_status a) = true end). rewrite Hi. by simplify_eq.
      * change (match view si1 j with Some b => advances a b | None => is_terminal (f_status a) = true end). rewrite Hv, Ha by done. by apply outcome_eq_advances.
Qed.

(** ** The store *)

Record store_wf (s : Store) : Prop := {
  sw_inner : wf (sto_inner s);
  sw_mode : sto_history s = history_on (limits (sto_inner s));
  sw_ids id : live_in (sto_inner s) id -> id ∈ sto_ids s }.

(** A step: the invariant holds again and no outcome is taken back. *)
Definition good (s s' : Store) : Prop :=
  store_wf s' /\ limits (sto_inner s') = limits (sto_inner s)
  /\ (history_on (limits (sto_inner s)) = true -> evolves (sto_inner s) (sto_inner s')).

Lemma evolves_refl si : evolves si si.
Proof. by apply keeps_evolves. Qed.

Lemma good_inner s s' :
  store_wf s -> ok (sto_inner s) (sto_inner s') -> sto_history s' = sto_history s -> sto_ids s' = sto_ids s -> good s s'.
Proof.
  intros [W M I] Hok Eh Ei. destruct (Hok W) as (W' & L & Sub & K & _). split; [|split; [done|intros Hon; by apply keeps_evolves, K]].
  split; [done|congruence|]. intros id Hl. rewrite Ei. auto.
Qed.
Lemma good_same s s' :
  store_wf s -> sto_inner s' = sto_inner s -> sto_history s' = sto_history s -> sto_ids s' = sto_ids s -> good s s'.
Proof. intros W E. apply good_inner; [done|]. by rewrite E. Qed.

Lemma queue_jobs_frame jobs s :
  let s' := (queue_jobs persist jobs s).2 in
  sto_inner s' = sto_inner s /\ sto_history s' = sto_history s /\ sto_ids s' = sto_ids s /\ sto_seq s' = sto_seq s
  /\ sto_journal s' = sto_journal s /\ sto_threads s' = sto_threads s /\ sto_spill s' = sto_spill s /\ sto_files s' = sto_files s
  /\ (forall job, job ∈ sto_queue s' -> job ∈ sto_queue s \/ job ∈ jobs).
Proof.
  revert s. induction jobs as [|job jobs IH]; intros s; simpl; [repeat split; auto|].
  case_match; [destruct (queue_jobs persist jobs s) as [r s'] eqn:E; specialize (IH s); rewrite E in IH; simpl in *; naive_solver set_solver|].
  case_match; [specialize (IH s); simpl in *; naive_solver set_solver|].
  case_match; [destruct (queue_jobs persist jobs (count_spill_dropped s)) as [r s'] eqn:E; specialize (IH (count_spill_dropped s)); rewrite E in IH; simpl in *; naive_solver set_solver|].
  specialize (IH (set_queue (sto_queue s ++ [job]) s)). simpl in *.
  destruct IH as (? & ? & ? & ? & ? & ? & ? & ? & Hq). repeat (split; [done|]).
  intros x [Hx|?]%Hq; [|set_solver]. set_solver.
Qed.

Lemma unlink_frame removed id s :
  let s' := (unlink removed id s).2 in
  sto_inner s' = sto_inner s /\ sto_history s' = sto_history s /\ sto_ids s' = sto_ids s /\ sto_seq s' = sto_seq s
  /\ sto_journal s' = sto_journal s /\ sto_threads s' = sto_threads s /\ sto_spill s' = sto_spill s /\ sto_queue s' = sto_queue s.
Proof. unfold unlink. repeat case_match; repeat split. Qed.

Lemma write_frame e job s :
  let s' := (write e job s).2 in
  sto_inner s' = sto_inner s /\ sto_history s' = sto_history s /\ sto_ids s' = sto_ids s /\ sto_seq s' = sto_seq s
  /\ sto_journal s' = sto_journal s /\ sto_threads s' = sto_threads s /\ sto_spill s' = sto_spill s /\ sto_queue s' = sto_queue s.
Proof. unfold write. repeat case_match; repeat split. Qed.

Lemma clear_pointer_good id s : store_wf s -> good s (clear_pointer encode mode id s).2.
Proof.
  intros W. unfold clear_pointer. destruct (statements (sto_inner s) !! id) as [st|] eqn:Hs; simpl.
  - apply good_inner; try done. eapply (flags_ok _ id st (set_file None (r_refused (s_rows st)) (s_rows st))); auto.
  - destruct (history (sto_inner s) !! id) as [f|] eqn:Hf; simpl; [|by apply good_same].
    apply good_inner; try done. by eapply alter_archive_ok.
Qed.

Lemma do_work_good c w s : store_wf s -> good s (do_work encode mode persist c w s).2.
Proof.
  intros W. destruct w; simpl; try by apply good_same.
  - destruct (statements (sto_inner s) !! id) as [st|] eqn:Hs; [|by apply good_same].
    apply good_inner; try done. eapply (update_ok _ _ id st (set_ack taken st)); try done; [by intros []; split|simpl; lia].
  - pose proof (queue_jobs_frame jobs s) as (E1 & E2 & E3 & _). unfold queue_spills.
    destruct (queue_jobs persist jobs s) as [r s']. by apply good_same.
  - apply good_inner; try done. apply abandon_spills_ok.
  - destruct (sweep_locked (c_now c) (sto_inner s)) as [ev si] eqn:E. simpl.
    destruct (sweep_spec _ _ _ _ (sw_inner _ W) E) as (W' & _ & L & Ev & Es & Hg & Hk). split; [|by split].
    split; [done|simpl; rewrite L; apply W|]. simpl. intros id. unfold live_in. rewrite Es. intros [?|?]; apply W; [by left|right].
    destruct (decide (id ∈ ev.*1)) as [Hi|Hi]; [by apply Hg|by rewrite Hk in *].
  - pose proof (unlink_frame (c_removed c) id s) as (E1 & E2 & E3 & _). by apply good_same.
  - pose proof (clear_pointer_good id s W). by destruct (clear_pointer encode mode id s).
  - pose proof (write_frame (c_encoded c) job s) as (E1 & E2 & E3 & _). destruct (write _ job s) as [l s']. by apply good_same.
  - apply good_inner; try done. apply sink_ok.
Qed.

Lemma plan_spills_frame id s :
  all_final [id] (sto_inner s) ->
  let s' := (plan_spills encode mode persist id s).2 in
  ok (sto_inner s) (sto_inner s') /\ sto_history s' = sto_history s /\ sto_ids s' = sto_ids s.
Proof.
  intros Hf. unfold plan_spills. case_match; [done|]. destruct (budget_victims_ok (sto_inner s)) as (B1 & B2 & B3).
  destruct (budget_victims (sto_inner s)) as [victims si]. simpl in *.
  set (wanted := if spills_eagerly persist then _ else _).
  assert (Hw : all_final wanted si).
  { apply B2. intros j st. unfold wanted. destruct (spills_eagerly persist); [|apply B3].
    intros [->|[_ ?]%list_elem_of_filter]%elem_of_cons; [apply Hf; set_solver|by apply B3]. }
  pose proof (plan_jobs_ok wanted si Hw). destruct (plan_jobs encode mode wanted si) as [jobs si']. simpl in *.
  split; [|done]. by etrans.
Qed.

Lemma open_bytes st : rows_ok st -> is_terminal (s_status st) = false -> r_bytes (s_rows st) = 0.
Proof. intros [Eb Eo _] Ht. destruct (Eo Ht) as [E _]. by rewrite Eb, E. Qed.

(** A statement under way advances, then the memory budget is looked at. *)
Lemma advance_good s s' si1 id st st' :
  store_wf s -> statements (sto_inner s) !! id = Some st -> is_terminal (s_status st) = false ->
  statements si1 = <[id := st']> (statements (sto_inner s)) -> same_tail (sto_inner s) si1 -> s_meta st' = s_meta st -> rows_ok st' ->
  result_bytes si1 = result_bytes (sto_inner s) + r_bytes (s_rows st') -> result_bytes si1 < 2 ^ 64 ->
  ok si1 (sto_inner s') -> sto_history s' = sto_history s -> sto_ids s' = sto_ids s -> good s s'.
Proof.
  intros [W M I] Hs Ht Es T Em R Er Hr Hok Eh Ei.
  assert (W1 : wf si1).
  { eapply update_wf; try done. rewrite (open_bytes st); [lia|by apply (co_rows _ (wf_core _ W) id)|done]. }
  destruct (Hok W1) as (W' & L & Sub & K & _). assert (L1 : limits si1 = limits (sto_inner s)) by apply T. rewrite L1 in *.
  split; [|split; [done|]].
  - split; [done|congruence|]. intros j Hj. rewrite Ei. apply I. eapply (live_updated _ si1); [done..|apply T|]. auto.
  - intros Hon. eapply evolves_keeps; [by eapply evolves_update|auto].
Qed.

Lemma mark_running_good ts id s : store_wf s -> good s (mark_running ts id s).
Proof.
  intros W. unfold mark_running. destruct (statements (sto_inner s) !! id) as [st|] eqn:Hs; [|by apply good_same].
  destruct (s_status st) eqn:Hst; try by apply good_same.
  pose proof (co_rows _ (wf_core _ (sw_inner _ W)) id st Hs) as R.
  assert (Ht : is_terminal (s_status st) = false) by by rewrite Hst.
  eapply (advance_good s _ (set_statement id (set_life (with_status Running (s_life st)) st) (sto_inner s)) id st);
    try done; try by case_match.
  - split; simpl; [apply R|intros _; by apply (ro_open _ R)|apply R].
  - simpl. rewrite (open_bytes st) by done. lia.
  - apply (co_room _ (wf_core _ (sw_inner _ W))).
Qed.

Lemma cancel_good id elapsed s : store_wf s -> good s (cancel encode mode id elapsed s).2.
Proof.
  intros W. unfold cancel. destruct (statements (sto_inner s) !! id) as [st|] eqn:Hs; [|by apply good_same].
  destruct (is_terminal (s_status st)) eqn:Ht; [by apply good_same|].
  pose proof (co_rows _ (wf_core _ (sw_inner _ W)) id st Hs) as R.
  set (st' := set_canceled _). unfold terminal_record, journal_seq.
  eapply (advance_good s _ (set_statement id st' (sto_inner s)) id st); try done; try by (destruct (sto_history s) eqn:?).
  - split; simpl; [apply R|done|apply R].
  - simpl. rewrite (open_bytes st) by done. lia.
  - apply (co_room _ (wf_core _ (sw_inner _ W))).
Qed.

Lemma outcome_rows_ok out elapsed st :
  rows_ok st -> is_terminal (s_status st) = false ->
  rows_ok (set_rows (outcome_rows out (s_rows st)) (set_life (outcome_life elapsed out (s_life st)) st)).
Proof.
  intros [Rb Ro Rg] Ht. destruct (Ro Ht) as (Eb & Em & _). destruct out; split; simpl; try done; try congruence.
Qed.
Lemma finish_good id out elapsed s : store_wf s -> counts s out -> good s (finish encode mode persist id out elapsed s).
Proof.
  intros W Hc. unfold finish. destruct (statements (sto_inner s) !! id) as [st|] eqn:Hs; [|by apply good_same].
  destruct (is_terminal (s_status st)) eqn:Ht; [by apply good_same|].
  pose proof (co_rows _ (wf_core _ (sw_inner _ W)) id st Hs) as R. pose proof (co_room _ (wf_core _ (sw_inner _ W))) as Hroom.
  pose proof (held_nonneg _ (co_rows _ (wf_core _ (sw_inner _ W)))) as H0'. rewrite <- (co_bytes _ (wf_core _ (sw_inner _ W))) in H0'.
  set (st' := set_rows _ (set_life _ st)). pose proof (outcome_rows_ok out elapsed st R Ht) as R'. fold st' in R'.
  assert (Hsum : 0 <= result_bytes (sto_inner s) + r_bytes (s_rows st') < 2 ^ 64).
  { pose proof (rows_ok_range _ R'). pose proof (open_bytes _ R Ht). destruct out; simpl in *; lia. }
  set (si1 := set_result_bytes (result_bytes (sto_inner s) + r_bytes (s_rows st')) (set_statement id st' (sto_inner s))).
  assert (Hfin : is_terminal (s_status st') = true) by by destruct out.
  set (s1 := (terminal_record encode mode id st' s).2).
  assert (E1 : sto_inner s1 = sto_inner s /\ sto_history s1 = sto_history s /\ sto_ids s1 = sto_ids s)
    by (unfold s1, terminal_record; by destruct (sto_history s) eqn:?).
  destruct E1 as (E1 & E2 & E3). unfold s1 in *. destruct (terminal_record encode mode id st' s) as [record s2]. simpl in *.
  rewrite E1, wrapu_small by (unfold u_ok, u_max; lia). fold si1.
  destruct (plan_spills_frame id (set_inner si1 s2)) as (P1 & P2 & P3).
  { intros j x ->%list_elem_of_singleton. simpl. rewrite lookup_insert_eq. by intros [= <-]. }
  destruct (plan_spills encode mode persist id (set_inner si1 s2)) as [jobs s3]. simpl in *.
  eapply (advance_good s _ si1 id st st'); try done; simpl; [lia|congruence..].
Qed.

(** A new statement in the hot tier. *)
Lemma add_hot si si' id st :
  wf si -> ~ live_in si id -> rows_ok st -> r_bytes (s_rows st) = 0 ->
  statements si' = <[id := st]> (statements si) -> result_bytes si' = result_bytes si -> limits si' = limits si ->
  history si' = history si -> by_seq si' = by_seq si -> by_session si' = by_session si ->
  (alias si' = alias si \/ (history_on (limits si) = true /\ exists k, alias si' = <[k := id]> (alias si))) ->
  wf si' /\ evolves si si' /\ forall j, live_in si' j -> live_in si j \/ j = id.
Proof.
  intros [[Cd Cr Cb Cm Ca Cv] Al] Hn R Hz Es Er El Eh Eb Ess Ea. unfold live_in in Hn.
  assert (Hno : statements si !! id = None) by (destruct (statements si !! id); [destruct Hn; by left; eexists|done]).
  assert (Hnh : history si !! id = None) by (destruct (history si !! id); [destruct Hn; by right; eexists|done]).
  assert (Hsub : forall j, live_in si' j <-> live_in si j \/ j = id).
  { intros j. unfold live_in. rewrite Es, Eh. destruct (decide (id = j)) as [<-|].
    - rewrite lookup_insert_eq. split; [by right|by left; eexists].
    - rewrite lookup_insert_ne by done. naive_solver. }
  split; [split; [split|]|split].
  - intros i x. rewrite Es, Eh. intros [[<- <-]|[? ?]]%lookup_insert_Some; [done|eauto].
  - intros i x. rewrite Es. intros [[<- <-]|[? ?]]%lookup_insert_Some; eauto.
  - rewrite Er, Es, held_insert, Hz by done. lia.
  - by rewrite Er.
  - by rewrite Eh, Eb, Ess.
  - rewrite Eh, El. intros Hoff. destruct Ea as [->|[? _]]; [auto|congruence].
  - intros k i Hk. apply Hsub. destruct Ea as [Ea|(_ & k' & Ea)]; rewrite Ea in Hk; [left; eauto|].
    apply lookup_insert_Some in Hk as [[_ <-]|[_ ?]]; [by right|left; eauto].
  - intros j a Ha. assert (view si' j = view si j) as ->; [|rewrite Ha; by apply outcome_eq_advances].
    unfold view. rewrite Es, Eh. rewrite lookup_insert_ne; [done|]. intros <-. unfold view in Ha. by rewrite Hno, Hnh in Ha.
  - intros j. apply Hsub.
Qed.

Lemma keeps_then_evolves si si' si'' : keeps si si' -> evolves si' si'' -> evolves si si''.
Proof.
  intros K E id a Ha. destruct (keeps_some _ _ _ _ K Ha) as (b & Hb & Eo). specialize (E id b Hb).
  destruct (view si'' id) as [c|].
  - destruct (outcome_eq_advances _ _ Eo), E. split; try congruence. intros Hf. rewrite av_final1; [done|]. by rewrite (outcome_status b a).
  - by rewrite <- (outcome_status b a).
Qed.

Lemma insert_from_good id sql source session op now clock s :
  store_wf s -> id ∉ sto_ids s -> good s (insert_from encode mode id sql source session op now clock s).
Proof.
  intros W Hid. unfold insert_from. cbv zeta. change (sto_inner (set_ids ({[id]} ∪ sto_ids s) s)) with (sto_inner s).
  set (si1 := evict_expired encode mode clock (sto_inner s)).
  destruct (evict_expired_ok clock (sto_inner s) (sw_inner _ W)) as (W1 & L1 & Sub1 & K1 & _). fold si1 in W1, L1, Sub1, K1.
  assert (Hnot : ~ live_in si1 id) by (intros ?%Sub1%(sw_ids _ W); done).
  set (s1 := set_inner si1 (set_ids ({[id]} ∪ sto_ids s) s)).
  assert (Hseq : exists seq si2 n, store_seq s1 = (seq, set_inner si2 (set_seq n s1)) /\ (si2 = si1 \/ exists k, si2 = set_next_seq k si1)).
  { unfold store_seq, journal_seq. destruct (sto_history s1) eqn:E.
    - exists (sto_seq s1), si1, (wrapu 64 (sto_seq s1 + 1)). split; [done|by left].
    - eexists _, _, (sto_seq s1). split; [reflexivity|by right; eexists]. }
  destruct Hseq as (seq & si2 & n & -> & Hsi2). simpl.
  set (st := {| s_meta := _ |}). set (si3 := if history_on (limits si2) then _ else _).
  destruct (add_hot si1 si3 id st) as (W3 & E3 & Sub3); try done.
  all: try (unfold si3; destruct Hsi2 as [->|[k ->]]; by repeat case_match).
  { unfold si3. destruct Hsi2 as [->|[k ->]]; simpl; destruct (history_on (limits si1)); try (by left);
      destruct session as [x|], (alias_of op) as [y|]; simpl; try (by left); right; split; [done|by eexists|done|by eexists]. }
  assert (L3 : limits si3 = limits si1) by (unfold si3; destruct Hsi2 as [->|[k ->]]; by repeat case_match).
  destruct (hot_cap_loop_ok (S (size (statements si3))) si3 W3) as (W4 & L4 & Sub4 & K4 & _).
  change (hot_cap_loop encode mode _ si3) with (enforce_hot_cap encode mode si3) in *. rewrite L3, L1 in *.
  assert (G : good s (set_inner (enforce_hot_cap encode mode si3) (set_inner si2 (set_seq n s1)))).
  { split; [split; [done|simpl; rewrite L4; apply W|]|split; [done|]].
    - intros j Hj. simpl in *. destruct (Sub3 j (Sub4 j Hj)) as [?%Sub1%(sw_ids _ W)| ->]; set_solver.
    - intros Hon. eapply evolves_keeps; [|by apply K4]. eapply keeps_then_evolves; [by apply K1|done]. }
  destruct (sto_history _); [|done]. destruct G as ([] & ? & ?). by split; [split|].
Qed.

Lemma prune_good s : store_wf s -> sto_history s = true -> good s (prune_oldest_statement s).
Proof.
  intros W Hh. unfold prune_oldest_statement. destruct (prune_locked (sto_inner s)) as [[[id t] si]|] eqn:E; [|by apply good_same].
  rewrite (sw_mode _ W) in Hh. destruct (prune_locked_spec _ _ _ _ (sw_inner _ W) E Hh) as (W' & L & Ev & (f & Hf & _) & Hn & Hv).
  split; [split; [done|simpl; rewrite L; apply W|]|by split].
  simpl. intros j Hj. apply W. assert (Hvw : view si j <> None).
  { unfold view. destruct Hj as [[x ->]|[x Hx]]; [done|]. rewrite Hx. by case_match. }
  destruct (decide (j = id)) as [->|Hne]; [done|]. rewrite Hv in Hvw by done. unfold view, live_in in *.
  destruct (statements (sto_inner s) !! j); [by left; eexists|]. right. by apply not_eq_None_Some.
Qed.

(** Every step of every thread keeps the invariant and the outcomes. *)
Lemma step_good s s' : store_wf s -> Step encode mode persist s s' -> good s s'.
Proof.
  intros W St. revert W. destruct St; intros W; try by apply good_same.
  - by apply insert_from_good.
  - by apply mark_running_good.
  - by apply finish_good.
  - by apply cancel_good.
  - unfold await_durable, take_ack. case_match; [|by apply good_same].
    destruct (statements (sto_inner s) !! id) as [st|] eqn:Hs; [|by apply good_same].
    apply good_inner; try done. eapply (update_ok _ _ id st (set_ack false st)); try done; [by intros []; split|simpl; lia].
  - by apply prune_good.
  - unfold drop_result_file, unlink. repeat case_match; simplify_eq; by apply good_same.
  - pose proof (do_work_good c w s W) as G. destruct (do_work _ _ _ c w s) as [ws s1]. destruct G as ([] & ? & ?). by split; [split|].
  - pose proof (do_work_good c w s W) as G. destruct (do_work _ _ _ c w s) as [ws s1]. destruct G as ([] & ? & ?). by split; [split|].
Qed.

(** ** Boot *)

Inductive Boot : Store -> Prop :=
  | boot_volatile : Boot volatile
  | boot_history lim files stuck issued l :
      history_on lim = true -> (forall r, r ∈ l -> j_id r ∈ issued) ->
      Boot (with_history lim files stuck issued (wrapu 64 (fd_max_seq (fold_records l) + 1), fold_records l)).

Definition reachable (s : Store) : Prop := exists s0, Boot s0 /\ rtc (Step encode mode persist) s0 s.

(** What replay hands to the store: finished statements under their own
    identifiers. *)
Definition replayed (issued : gset str) (m : gmap str FoldedStatement) : Prop :=
  forall id f, m !! id = Some f -> f_id f = id /\ is_terminal (f_status f) = true /\ id ∈ issued.

Lemma fold_into_ids l f id st :
  fd_statements (fold_into f l) !! id = Some st ->
  (forall i x, fd_statements f !! i = Some x -> f_id x = i) ->
  f_id st = id /\ (is_Some (fd_statements f !! id) \/ exists r, r ∈ l /\ j_id r = id).
Proof.
  revert f. induction l as [|r l IH]; intros f; simpl; [intros Hs Hf; split; [by apply Hf|by left; eexists]|].
  intros Hs Hf. change (fd_statements (fold_into (apply r f) l) !! id = Some st) in Hs. destruct (IH _ Hs) as (E & Hor).
  - intros i x. unfold apply. repeat case_decide; simpl; [apply Hf|by intros [_ ?]%lookup_delete_Some; apply Hf|].
    intros [[<- <-]|[? ?]]%lookup_insert_Some; [|by apply Hf]. unfold merge_entry.
    destruct (fd_statements f !! j_id r) as [y|] eqn:Ey; [|done]. specialize (Hf _ _ Ey). by case_match.
  - split; [done|]. destruct Hor as [[x Hx]|(r' & ? & ?)]; [|right; exists r'; set_solver].
    revert Hx. unfold apply. repeat case_decide; simpl; [by left; eexists|intros [_ ?]%lookup_delete_Some; left; by eexists|].
    intros [[<- _]|[_ ?]]%lookup_insert_Some; [right; exists r; set_solver|left; by eexists].
Qed.

Lemma interrupted_replayed issued l : (forall r, r ∈ l -> j_id r ∈ issued) ->
  replayed issued (fd_statements (mark_interrupted (fold_records l)).2).
Proof.
  intros Hl id f. simpl. rewrite lookup_fmap. intros (x & Hx & ->)%fmap_Some.
  assert (He : forall i, fd_statements fold_default !! i = None) by (intros; apply lookup_empty).
  destruct (fold_into_ids l fold_default id x Hx) as (E & [[y Hy]|(r & Hr & <-)]); [by intros i ?; rewrite He|by rewrite He in Hy|].
  destruct (is_terminal (f_status x)) eqn:Ht; by auto.
Qed.

Lemma correct_interrupted_spec issued ids m s :
  replayed issued m ->
  let '(m', s') := correct_interrupted ids m s in
  replayed issued m' /\ sto_inner s' = sto_inner s /\ sto_history s' = sto_history s /\ sto_ids s' = sto_ids s.
Proof.
  revert m s. induction ids as [|id ids IH]; intros m s Hm; simpl; [done|].
  destruct (m !! id) as [f|] eqn:Hf; [|by apply IH].
  set (m1 := <[id := _]> m). set (s1 := emit _ _). assert (Hm1 : replayed issued m1).
  { intros i x [[<- <-]|[? ?]]%lookup_insert_Some; [|by apply Hm]. by apply (Hm id f). }
  specialize (IH m1 s1 Hm1). by destruct (correct_interrupted ids m1 s1).
Qed.

Lemma replay_wf (issued : gset str) l si :
  NoDup l.*1 -> (forall x, x ∈ l -> f_id x.2 = x.1 /\ is_terminal (f_status x.2) = true /\ x.1 ∈ issued) ->
  wf si -> history_on (limits si) = true -> (forall id, id ∈ l.*1 -> ~ live_in si id) -> (forall id, live_in si id -> id ∈ issued) ->
  let si' := foldl replay_statement si l in
  wf si' /\ limits si' = limits si /\ forall id, live_in si' id -> id ∈ issued.
Proof.
  revert si. induction l as [|[id f] l IH]; intros si Hnd Hl W Hon Hfree Hiss; [done|]. simpl in *.
  apply NoDup_cons in Hnd as [Hni Hnd]. destruct (Hl (id, f)) as (Ef & Et & Ei); [set_solver|]. simpl in *.
  set (si0 := match f_session f, f_client_op_id f with
              | Some session, Some op => set_alias (<[(session, op) := id]> (alias si)) si
              | _, _ => si
              end).
  change (replay_statement si (id, f)) with (history_insert id f si0).
  assert (E0 : statements si0 = statements si /\ history si0 = history si /\ by_seq si0 = by_seq si /\ by_session si0 = by_session si
    /\ limits si0 = limits si /\ result_bytes si0 = result_bytes si /\ forall k i, alias si0 !! k = Some i -> i = id \/ alias si !! k = Some i).
  { unfold si0. repeat case_match; simpl; repeat (split; [done|]); auto. intros k i [[_ <-]|[_ ?]]%lookup_insert_Some; auto. }
  destruct E0 as (Es & Eh & Eb & Ess & El & Er & Ea).
  assert (Hn : statements si !! id = None /\ history si !! id = None).
  { specialize (Hfree id). unfold live_in in Hfree. split; apply eq_None_not_Some; intros ?; apply Hfree; [set_solver|by left|set_solver|by right]. }
  assert (C0 : core si0).
  { destruct (wf_core _ W) as [Cd Cr Cb Cm Ca Cv]. split; [by rewrite Es, Eh|by rewrite Es|by rewrite Es, Er|by rewrite Er|by rewrite Eh, Eb, Ess|].
    rewrite El. congruence. }
  assert (C1 : core (history_insert id f si0)) by (apply insert_archive_core; rewrite ?Es, ?Eh, ?El; tauto).
  assert (Hlive : forall j, live_in (history_insert id f si0) j <-> live_in si j \/ j = id).
  { intros j. unfold live_in. simpl. rewrite Es, Eh. destruct (decide (id = j)) as [<-|]; [rewrite lookup_insert_eq; naive_solver|].
    rewrite lookup_insert_ne by done. naive_solver. }
  assert (W1 : wf (history_insert id f si0)).
  { split; [done|]. intros k i Hk. apply Hlive. destruct (Ea k i Hk) as [->|Ha]; [by right|left; by apply (wf_alias _ W k)]. }
  destruct (IH (history_insert id f si0)) as (W2 & L2 & H2); try done.
  - intros x Hx. apply Hl. set_solver.
  - simpl. by rewrite El.
  - intros j Hj [?| ->]%Hlive; [|done]. apply (Hfree j); [set_solver|done].
  - intros j [?| ->]%Hlive; auto.
  - split; [done|]. split; [by rewrite L2|done].
Qed.

Lemma no_statements_wf lim n : wf (no_statements lim n).
Proof.
  split; [split|]; simpl; try done; try by intros ? ? ?%lookup_empty_Some.
  split; simpl; [by intros ? ? ?%lookup_empty_Some| | |by intros ? ? ?%lookup_empty_Some].
  - intros. split; [set_solver|]. by intros (? & ?%lookup_empty_Some & _).
  - intros. rewrite lookup_empty. split; [set_solver|]. by intros (? & ?%lookup_empty_Some & _).
Qed.

Lemma boot_wf s : Boot s -> store_wf s.
Proof.
  intros [|lim files stuck issued l Hon Hl].
  { split; [apply no_statements_wf|done|]. intros id. unfold live_in. simpl. rewrite !lookup_empty. by intros [[]|[]]. }
  unfold with_history. simpl. pose proof (interrupted_replayed issued l Hl) as Hm. simpl in Hm.
  match goal with |- context [correct_interrupted ?i ?m ?s] => pose proof (correct_interrupted_spec issued i m s Hm) as Hc; destruct (correct_interrupted i m s) as [m1 s1] end.
  destruct Hc as (Hm1 & E1 & E2 & E3). simpl in *.
  destruct (replay_wf issued (map_to_list m1) (sto_inner s1)) as (W & L & I).
  - apply NoDup_fst_map_to_list.
  - intros [i x] Hx%elem_of_map_to_list. by apply Hm1.
  - rewrite E1. apply no_statements_wf.
  - by rewrite E1.
  - intros i _. rewrite E1. unfold live_in. simpl. rewrite !lookup_empty. by intros [[]|[]].
  - intros i. rewrite E1. unfold live_in. simpl. rewrite !lookup_empty. by intros [[]|[]].
  - split; [done|by simpl; rewrite L, E1, E2|]. simpl. rewrite E3. exact I.
Qed.

Lemma reachable_wf s : reachable s -> store_wf s.
Proof.
  intros (s0 & B & R). apply boot_wf in B. induction R as [|x y z St R IH]; [done|]. apply IH. by apply (step_good x).
Qed.

(** ** The theorems *)

(** C12. In every interleaving of the threads, from a volatile boot or from any
    journal, the store is well formed: no statement is in both tiers, the
    indexes list exactly the history tier, aliases name statements that exist,
    the byte counter is the sum over the rows held, an open statement holds
    none, and the history tier holds finished statements only. *)
Theorem store_well_formed (s : Store) : reachable s -> store_wf s.
Proof. apply reachable_wf. Qed.


(** C13. With history on, no step of any thread takes back or changes the outcome
    of a finished statement, changes what identifies a statement, or drops one
    that is not finished. *)
Theorem outcomes_are_final (s s' : Store) :
  reachable s -> Step encode mode persist s s' -> sto_history s = true -> evolves (sto_inner s) (sto_inner s').
Proof.
  intros W%reachable_wf St Hh. destruct (step_good s s' W St) as (_ & _ & E). apply E. by rewrite <- (sw_mode _ W).
Qed.

End Wf.
