(* ===== verification/StoreRecords.v ===== *)
(** * StoreRecords: the journal tells what the store knows

    What the statement store hands to the journal, in every interleaving of its
    threads from the first boot on an empty directory with history on.  The
    invariant [inv] relates the store to a ghost history of the statements
    submitted, finished and evicted so far: every record handed over or about
    to be is one of the four the history allows, snapshots carry sequences of
    their own, and a record of each event is on its way.  Hence the records
    are coherent, which is what the journal's fold asks ([store_coherent]), and
    once the threads are idle replaying them rebuilds the store
    ([replay_rebuilds_store]). *)

From S2P Require Import Prelude Text Effects HistoryRecord Journal JournalQueue StatementStore StoreThreads StoreWf.

Section Records.
Context `{Batches, Chrono} (encode : str -> str) (mode : str) (persist : ResultPersist).

Local Notation view := (view encode mode).
Local Notation ok := (ok encode mode).
Local Notation Step := (Step encode mode persist).
Local Notation do_work := (do_work encode mode persist).
Local Notation to_folded := (to_folded encode mode).
Local Notation submitted_record := (submitted_record encode mode).

(** ** The ghost history *)

Record Ghost := {
  g_ids : gmap str Identity;      (* submitted *)
  g_final : gmap str Life;        (* finished *)
  g_dead : gset str }.            (* evicted *)

Definition ext (a b : Ghost) : Prop := g_ids a ⊆ g_ids b /\ g_final a ⊆ g_final b /\ g_dead a ⊆ g_dead b.

(** The outcome of a finished statement, as a snapshot tells it. *)
Definition final_of (id : str) (m : Identity) (l : Life) : FoldedStatement := {|
  f_id := id; f_client_op_id := m_client_op_id m; f_session := m_session m; f_source := m_source m;
  f_sql := encode (m_sql m); f_sql_encoding := mode; f_status := l_status l; f_error := l_error l; f_schema := l_schema l;
  f_rows := l_row_count l; f_submitted_at_ms := m_submitted_at_ms m; f_duration_ms := l_duration_ms l; f_result := None;
  f_result_refused := None; f_seq := m_seq m; f_last_seq := 0; f_rank := 0 |}.

Definition folded_ok (gh : Ghost) (f : FoldedStatement) : Prop :=
  exists m l, g_ids gh !! f_id f = Some m /\ g_final gh !! f_id f = Some l /\ outcome f = final_of (f_id f) m l.

(** The records the history allows; snapshots have drawn their sequence. *)
Definition record_ok (gh : Ghost) (n : Z) (r : JournalRecord) : Prop :=
  (exists m, g_ids gh !! j_id r = Some m /\ (r = submitted_record (j_id r) m \/ exists ts, r = running_record ts (j_id r) m))
  \/ (exists f, r = to_snapshot f /\ folded_ok gh f /\ f_seq f < f_last_seq f < n)
  \/ (j_kind r = KindTombstone /\ j_id r ∈ g_dead gh).

Definition job_ok (gh : Ghost) (job : SpillJob) : Prop := f_id (job_folded job) = job_id job /\ folded_ok gh (job_folded job).

Definition work_ok (gh : Ghost) (w : Work) : Prop :=
  match w with
  | WSpills jobs => forall job, job ∈ jobs -> job_ok gh job
  | WHandle job | WWrite job | WWritten job _ => job_ok gh job
  | WPublish f _ => folded_ok gh f
  | WTombstone id _ => id ∈ g_dead gh
  | WClear id => is_Some (g_final gh !! id)
  | _ => True
  end.

Definition records_in (w : Work) : list JournalRecord :=
  match w with WAppend _ r | WTerminal _ r => [r] | _ => [] end.

(** Handed over, or held by a thread. *)
Definition records (s : Store) (W : list Work) : list JournalRecord := sto_journal s ++ (W ≫= records_in).

Definition works (s : Store) : list Work := concat (sto_threads s) ++ sto_spill s ++ (WHandle <$> sto_queue s).

(** ** The invariant *)

Record tiers (gh : Ghost) (s : Store) : Prop := {
  ti_ids id m : g_ids gh !! id = Some m -> id ∈ sto_ids s /\ m_seq m < sto_seq s;
  ti_hot id st : statements (sto_inner s) !! id = Some st ->
    g_ids gh !! id = Some (s_meta st) /\ g_final gh !! id = (if is_terminal (s_status st) then Some (s_life st) else None);
  ti_view id f : view (sto_inner s) id = Some f -> is_terminal (f_status f) = true -> folded_ok gh f;
  ti_live id f : view (sto_inner s) id = Some f -> f_id f = id /\ is_Some (g_ids gh !! id);
  ti_dead id : id ∈ g_dead gh <-> is_Some (g_ids gh !! id) /\ view (sto_inner s) id = None;
  ti_files id : is_Some (sto_files s !! id) -> is_Some (g_final gh !! id);
  ti_final id : is_Some (g_final gh !! id) -> is_Some (g_ids gh !! id) }.

Record inv (gh : Ghost) (s : Store) (W : list Work) : Prop := {
  iv_wf : store_wf s;
  iv_on : sto_history s = true;
  iv_seq : 0 <= sto_seq s < 2 ^ 64;
  iv_tiers : tiers gh s;
  iv_work w : w ∈ W -> work_ok gh w;
  iv_records r : r ∈ records s W -> record_ok gh (sto_seq s) r;
  iv_keys r1 r2 : r1 ∈ records s W -> r2 ∈ records s W -> j_kind r1 = KindSnapshot -> j_kind r2 = KindSnapshot ->
    j_last_seq r1 = j_last_seq r2 -> r1 = r2;
  iv_submitted id m : g_ids gh !! id = Some m -> submitted_record id m ∈ records s W;
  iv_final id : is_Some (g_final gh !! id) -> exists r, r ∈ records s W /\ j_id r = id /\ j_kind r = KindSnapshot;
  iv_tomb id : id ∈ g_dead gh ->
    (exists r, r ∈ records s W /\ j_id r = id /\ j_kind r = KindTombstone) \/ exists t, WTombstone id t ∈ W }.

(** ** Growing histories *)

Lemma ext_refl gh : ext gh gh.
Proof. by split. Qed.
Lemma ext_ids a b id m : ext a b -> g_ids a !! id = Some m -> g_ids b !! id = Some m.
Proof. intros (Hs & _) ?. by eapply lookup_weaken. Qed.
Lemma ext_final a b id l : ext a b -> g_final a !! id = Some l -> g_final b !! id = Some l.
Proof. intros (_ & Hs & _) ?. by eapply lookup_weaken. Qed.
Lemma folded_ok_ext a b f : ext a b -> folded_ok a f -> folded_ok b f.
Proof. intros E (m & l & ? & ? & ?). exists m, l. eauto using ext_ids, ext_final. Qed.
Lemma record_ok_ext a b n n' r : ext a b -> n <= n' -> record_ok a n r -> record_ok b n' r.
Proof.
  intros E Hn [(m & ? & Hr)|[(f & ? & ? & ?)|[? ?]]].
  - left. exists m. eauto using ext_ids.
  - right. left. exists f. split; [done|]. split; [by eapply folded_ok_ext|lia].
  - right. right. destruct E as (_ & _ & ?). split; [done|]. set_solver.
Qed.
Lemma work_ok_ext a b w : ext a b -> work_ok a w -> work_ok b w.
Proof.
  intros E. destruct w; simpl; try done; unfold job_ok; intros.
  - naive_solver eauto using folded_ok_ext.
  - destruct E as (_ & _ & ?). set_solver.
  - destruct H1. eauto using ext_final.
  - naive_solver eauto using folded_ok_ext.
  - naive_solver eauto using folded_ok_ext.
  - naive_solver eauto using folded_ok_ext.
  - eauto using folded_ok_ext.
Qed.

Lemma outcome_idem f : outcome (outcome f) = outcome f.
Proof. done. Qed.
Lemma folded_ok_outcome gh f f' : outcome f' = outcome f -> folded_ok gh f -> folded_ok gh f'.
Proof.
  intros E (m & l & ? & ? & ?). assert (Ei : f_id f' = f_id f) by (by injection E). exists m, l. rewrite Ei, E. done.
Qed.
Lemma outcome_hot id n st : outcome (to_folded id n st) = final_of id (s_meta st) (s_life st).
Proof. done. Qed.

(** The last sequence of a snapshot on its way is below the next one. *)
Lemma snapshot_below gh n r k : record_ok gh n r -> j_kind r = KindSnapshot -> j_last_seq r = Some k -> k < n.
Proof.
  intros [(m & _ & [->|(ts & ->)])|[(f & -> & _ & ?)|[Hk _]]] Hs; try done; [|congruence]. simpl. intros [= <-]. lia.
Qed.

(** ** One step of the invariant *)

Lemma inv_advance gh gh' s s' W W' (new : option JournalRecord) :
  inv gh s W -> store_wf s' -> sto_history s' = true -> sto_seq s <= sto_seq s' < 2 ^ 64 -> ext gh gh' -> tiers gh' s' ->
  (forall r, r ∈ records s' W' <-> r ∈ records s W \/ new = Some r) ->
  (forall r, new = Some r -> record_ok gh' (sto_seq s') r /\ (j_kind r = KindSnapshot -> j_last_seq r = Some (sto_seq s))) ->
  (forall w, w ∈ W' -> w ∈ W \/ work_ok gh' w) ->
  (forall id t, WTombstone id t ∈ W -> WTombstone id t ∈ W' \/ exists r, new = Some r /\ j_id r = id /\ j_kind r = KindTombstone) ->
  (forall id m, g_ids gh' !! id = Some m -> g_ids gh !! id = Some m \/ new = Some (submitted_record id m)) ->
  (forall id, is_Some (g_final gh' !! id) -> is_Some (g_final gh !! id) \/ exists r, new = Some r /\ j_id r = id /\ j_kind r = KindSnapshot) ->
  (forall id, id ∈ g_dead gh' -> id ∈ g_dead gh \/ exists t, WTombstone id t ∈ W') ->
  inv gh' s' W'.
Proof.
  intros I Hwf Hon Hseq E T HR Hnew HW Htb Hg Hf Hd. destruct I as [_ _ I0 _ Iw Ir Ik Is If It]. split; try done.
  - lia.
  - intros w [?|?]%HW; [eapply work_ok_ext; eauto|done].
  - intros r [?|?]%HR; [eapply record_ok_ext; [done| |by apply Ir]; lia|by apply Hnew].
  - assert (Hlt : forall r1 r2, r1 ∈ records s W -> new = Some r2 -> j_kind r1 = KindSnapshot -> j_kind r2 = KindSnapshot ->
      j_last_seq r1 = j_last_seq r2 -> False).
    { intros r1 r2 Hr1 Hr2 K1 K2 El. destruct (Hnew r2 Hr2) as [_ Hl]. rewrite Hl in El by done.
      pose proof (snapshot_below _ _ _ _ (Ir r1 Hr1) K1 El). lia. }
    intros r1 r2 [?|?]%HR [?|?]%HR K1 K2 El; [by apply Ik|exfalso; by eapply Hlt|exfalso; by eapply Hlt|congruence].
  - intros id m [?|?]%Hg; apply HR; auto.
  - intros id [?|(r & ? & ?)]%Hf; [destruct (If id) as (r & ? & ?); [done|]|]; exists r; rewrite HR; auto.
  - intros id [[(r & ? & ?)|(t & Ht)]%It|?]%Hd; [left; exists r; rewrite HR; auto| |by right].
    destruct (Htb id t Ht) as [?|(r & ? & ?)]; [right; by exists t|left; exists r; rewrite HR; auto].
Qed.

(** ** Steps that tell nothing new *)

Lemma tiers_ok gh s s' :
  tiers gh s -> store_wf s -> sto_history s = true -> ok (sto_inner s) (sto_inner s') ->
  sto_seq s <= sto_seq s' -> sto_ids s ⊆ sto_ids s' ->
  (forall id, is_Some (sto_files s' !! id) -> is_Some (sto_files s !! id) \/ is_Some (g_final gh !! id)) -> tiers gh s'.
Proof.
  intros [Ti Th Tv Tl Td Tf Tg] Wf Hon Hok Hq Hi Hfi.
  destruct (Hok (sw_inner _ Wf)) as (_ & _ & _ & K & Fr). rewrite (sw_mode _ Wf) in Hon. specialize (K Hon).
  assert (Hv : forall id f', view (sto_inner s') id = Some f' -> exists f, view (sto_inner s) id = Some f /\ outcome f' = outcome f).
  { intros id f' Hf. specialize (K id). rewrite Hf in K. destruct (view (sto_inner s) id) as [f|]; [|done].
    exists f. split; [done|]. by apply (inj Some) in K. }
  split; try done.
  - intros id m Hm. destruct (Ti id m Hm). split; [set_solver|lia].
  - intros id st' Hst. destruct (Fr id st' Hst) as (st & Hs & Em & El). destruct (Th id st Hs). unfold s_status. by rewrite Em, El.
  - intros id f' Hf Ht. destruct (Hv id f' Hf) as (f & Hs & E). eapply folded_ok_outcome; [done|]. apply (Tv id f Hs).
    by rewrite <- (outcome_status _ _ E).
  - intros id f' Hf. destruct (Hv id f' Hf) as (f & Hs & E). destruct (Tl id f Hs) as [<- ?]. split; [by injection E|done].
  - intros id. rewrite Td. specialize (K id). destruct (view (sto_inner s') id), (view (sto_inner s) id); naive_solver.
  - intros id [?|?]%Hfi; auto.
Qed.

(** Only these pieces of work are evidence of an event. *)
Definition essential (w : Work) : Prop :=
  match w with WAppend _ _ | WTerminal _ _ | WTombstone _ _ => True | _ => False end.

Lemma records_essential W r : r ∈ W ≫= records_in <-> exists w, w ∈ W /\ essential w /\ r ∈ records_in w.
Proof.
  rewrite list_elem_of_bind. split.
  - intros (w & Hr & Hw). exists w. split; [done|]. split; [|done]. by destruct w; try (by apply elem_of_nil in Hr).
  - intros (w & ? & ? & ?). eauto.
Qed.

Lemma inv_same gh s s' W W' :
  inv gh s W -> ok (sto_inner s) (sto_inner s') -> sto_history s' = sto_history s -> sto_ids s' = sto_ids s ->
  sto_seq s' = sto_seq s -> (forall id, is_Some (sto_files s' !! id) -> is_Some (sto_files s !! id) \/ is_Some (g_final gh !! id)) ->
  (forall r, r ∈ records s' W' <-> r ∈ records s W) -> (forall w, w ∈ W' -> w ∈ W \/ work_ok gh w) ->
  (forall id t, WTombstone id t ∈ W -> WTombstone id t ∈ W') -> inv gh s' W'.
Proof.
  intros I Hok Eh Ei Eq Hf HR HW Ht. pose proof I as [Wf On Sq Ti _ _ _ _ _ _].
  destruct (good_inner encode mode s s' Wf Hok Eh Ei) as [Wf' _].
  eapply (inv_advance gh gh s s' W W' None); try done; try by auto.
  - congruence.
  - lia.
  - eapply tiers_ok; try done; [lia|by rewrite Ei].
  - intros r. rewrite HR. naive_solver.
Qed.

Lemma inv_works gh s W W' :
  inv gh s W -> (forall w, w ∈ W' -> w ∈ W \/ work_ok gh w /\ ~ essential w) -> (forall w, w ∈ W -> essential w -> w ∈ W') -> inv gh s W'.
Proof.
  intros I Hsub Hess. eapply (inv_same gh s s W W'); try done; try by auto.
  - apply ok_refl.
  - intros r. unfold records. rewrite !elem_of_app, !records_essential.
    split; (intros [?|(w & Hw & He & Hr)]; [by left|right; exists w]); [|split; [by apply Hess|done]].
    destruct (Hsub w Hw) as [?|[_ ?]]; done.
  - intros w Hw. destruct (Hsub w Hw) as [?|[? _]]; auto.
  - intros id t Hw. by apply Hess.
Qed.

(** The invariant reads no thread. *)
Lemma inv_fields gh s s' W :
  inv gh s W -> sto_inner s' = sto_inner s -> sto_history s' = sto_history s -> sto_ids s' = sto_ids s -> sto_seq s' = sto_seq s ->
  sto_files s' = sto_files s -> sto_journal s' = sto_journal s -> inv gh s' W.
Proof.
  intros I E1 E2 E3 E4 E5 E6. eapply (inv_same gh s s' W W); try done; try by auto.
  - rewrite E1. apply ok_refl.
  - rewrite E5. auto.
  - unfold records. by rewrite E6.
Qed.

(** ** Drawing a sequence for a snapshot *)

Lemma next_seq s : room s -> 0 <= sto_seq s -> wrapu 64 (sto_seq s + 1) = sto_seq s + 1.
Proof. intros [Hr _] ?. apply wrapu_small; unfold u_ok, u_max; lia. Qed.

Lemma folded_seq gh s f : tiers gh s -> folded_ok gh f -> f_seq f < sto_seq s.
Proof. intros T (m & l & Hm & _ & E). replace (f_seq f) with (m_seq m) by (injection E; congruence). by apply (ti_ids _ _ T (f_id f)). Qed.

Lemma snapshot_new gh s f : tiers gh s -> folded_ok gh f -> f_last_seq f = sto_seq s -> record_ok gh (sto_seq s + 1) (to_snapshot f).
Proof. intros T Hf El. right. left. exists f. split; [done|]. split; [done|]. pose proof (folded_seq gh s f T Hf). lia. Qed.

Lemma elem_of_works_app (P : Work -> Prop) ws W w : w ∈ ws ++ W -> (w ∈ ws -> P w) -> w ∈ W \/ P w.
Proof. intros [?|?]%elem_of_app; auto. Qed.

Lemma records_cons s w W : records s (w :: W) = sto_journal s ++ records_in w ++ (W ≫= records_in).
Proof. done. Qed.

(** The evidence a piece of work without records leaves. *)
Lemma records_ws s s' w ws W r :
  sto_journal s' = sto_journal s -> records_in w = [] ->
  r ∈ records s' (ws ++ W) <-> r ∈ records s (w :: W) \/ r ∈ ws ≫= records_in.
Proof. intros Ej Ew. rewrite records_cons, Ew. unfold records. rewrite Ej, bind_app. set_solver. Qed.

Definition plain (w : Work) : Prop := ~ essential w.

Section DoWork.
Context (gh : Ghost) (s : Store) (w : Work) (W : list Work) (I : inv gh s (w :: W)).

(** Work that tells nothing and leaves nothing to tell. *)
Lemma plain_work s' ws :
  plain w -> ok (sto_inner s) (sto_inner s') -> sto_history s' = sto_history s -> sto_ids s' = sto_ids s -> sto_seq s' = sto_seq s ->
  sto_journal s' = sto_journal s ->
  (forall id, is_Some (sto_files s' !! id) -> is_Some (sto_files s !! id) \/ is_Some (g_final gh !! id)) ->
  (forall x, x ∈ ws -> work_ok gh x /\ plain x) -> inv gh s' (ws ++ W).
Proof.
  intros Hp Hok Eh Ei Eq Ej Hf Hws. eapply (inv_same gh s s' (w :: W)); try done.
  - intros r. rewrite (records_ws s s' w ws W r Ej); [|by destruct w; try (by destruct Hp)]. split; [|by left]. intros [?|Hr]; [done|].
    apply records_essential in Hr as (x & Hx & He & _). by destruct (Hws x Hx).
  - intros x [Hx|?]%elem_of_app; [right; by apply Hws|left; set_solver].
  - intros id t [Ew|?]%elem_of_cons; [by destruct Hp; rewrite <- Ew|set_solver].
Qed.

(** Work that draws a sequence and leaves one record to append. *)
Lemma drawing_work s' rec ws :
  ~ (exists id t, w = WTombstone id t) -> records_in w = [] -> ok (sto_inner s) (sto_inner s') ->
  sto_history s' = sto_history s -> sto_ids s' = sto_ids s -> sto_seq s' = sto_seq s + 1 -> sto_seq s + 1 < 2 ^ 64 ->
  sto_journal s' = sto_journal s -> sto_files s' = sto_files s ->
  record_ok gh (sto_seq s + 1) rec -> j_last_seq rec = Some (sto_seq s) ->
  (forall x, x ∈ ws -> work_ok gh x /\ plain x) -> inv gh s' (WAppend Retained rec :: ws ++ W).
Proof.
  intros Hnt Hw Hok Eh Ei Eq Hlt Ej Ef Hr Hl Hws. pose proof I as [Wf On Sq Ti _ _ _ _ _ _].
  destruct (good_inner encode mode s s' Wf Hok Eh Ei) as [Wf' _].
  eapply (inv_advance gh gh s s' (w :: W) _ (Some rec)); try done.
  - congruence.
  - lia.
  - eapply tiers_ok; try done; [lia|by rewrite Ei|by rewrite Ef; auto].
  - intros r. change (WAppend Retained rec :: ws ++ W) with ((WAppend Retained rec :: ws) ++ W). rewrite (records_ws s s' w _ W r Ej Hw). simpl.
    rewrite elem_of_cons. split; [intros [?|[->|Hx]]; auto|intros [?|[= ->]]; auto].
    apply records_essential in Hx as (x & Hx & He & _). by destruct (Hws x Hx).
  - intros r [= <-]. rewrite Eq. auto.
  - intros x [->|[Hx|?]%elem_of_app]%elem_of_cons; [by right|right; by apply Hws|left; set_solver].
  - intros id t [Ew|?]%elem_of_cons; [by destruct Hnt; eauto|left; set_solver].
  - auto.
  - auto.
  - auto.
Qed.

End DoWork.

(** The jobs a piece of work may put on the spill queue. *)
Definition spill_jobs (w : Work) : list Work := match w with WSpills jobs => WHandle <$> jobs | _ => [] end.

Lemma do_work_frame c w s :
  let '(ws, s') := do_work c w s in
  sto_threads s' = sto_threads s /\ sto_spill s' = sto_spill s
  /\ forall job, job ∈ sto_queue s' -> job ∈ sto_queue s \/ WHandle job ∈ spill_jobs w.
Proof.
  assert (Hsame : forall s', sto_threads s' = sto_threads s -> sto_spill s' = sto_spill s -> sto_queue s' = sto_queue s ->
    forall l : list Work, sto_threads s' = sto_threads s /\ sto_spill s' = sto_spill s /\ forall job, job ∈ sto_queue s' -> job ∈ sto_queue s \/ WHandle job ∈ l).
  { intros s' ? ? Eq l. split; [done|]. split; [done|]. rewrite Eq. auto. }
  destruct w; simpl; try by apply Hsame.
  - case_match; by apply Hsame.
  - unfold queue_spills. pose proof (queue_jobs_frame encode mode persist jobs s) as Hq. destruct (queue_jobs persist jobs s) as [r s'].
    simpl in *. destruct Hq as (_ & _ & _ & _ & _ & ? & ? & _ & Hq). split; [done|]. split; [done|]. intros job [?|?]%Hq; [by left|right].
    by apply list_elem_of_fmap_2.
  - destruct (sweep_locked _ _). by apply Hsame.
  - unfold unlink. repeat case_match; by apply Hsame.
  - unfold clear_pointer. destruct (statements (sto_inner s) !! id); simpl; [by apply Hsame|]. destruct (history (sto_inner s) !! id); by apply Hsame.
  - unfold write. destruct (job_batches job), (c_encoded c); simpl; by apply Hsame.
Qed.

Lemma work_at gh s w W : inv gh s (w :: W) -> work_ok gh w.
Proof. intros I. apply (iv_work _ _ _ I). set_solver. Qed.

(** Handing a record over. *)
Lemma append_inv gh s w W r ws :
  inv gh s (w :: W) -> records_in w = [r] -> (forall x, x ∈ ws -> work_ok gh x /\ plain x) -> inv gh (emit r s) (ws ++ W).
Proof.
  intros I Hr Hws. eapply (inv_same gh s _ (w :: W)); try done; try by auto.
  - apply ok_refl.
  - intros r'. rewrite records_cons, Hr. unfold records. simpl. rewrite bind_app.
    split; [intros [[?|?]%elem_of_app|[Hx|?]%elem_of_app]%elem_of_app; [set_solver..| |set_solver]|set_solver].
    apply records_essential in Hx as (x & Hx & He & _). by destruct (Hws x Hx).
  - intros x [Hx|?]%elem_of_app; [right; by apply Hws|left; set_solver].
  - intros id t [<-|?]%elem_of_cons; [done|set_solver].
Qed.

Lemma tombstone_inv gh s W ts id t :
  inv gh s (WTombstone id t :: W) -> room s ->
  inv gh (set_seq (sto_seq s + 1) s) (WAppend Retained (tombstone ts id (sto_seq s) t) :: W).
Proof.
  intros I Hroom. pose proof I as [Wf On Sq Ti _ _ _ _ _ _]. set (rec := tombstone ts id (sto_seq s) t). destruct Hroom as [Hlt _].
  eapply (inv_advance gh gh s _ (WTombstone id t :: W) _ (Some rec)); try done.
  - destruct Wf. by split.
  - simpl. lia.
  - eapply tiers_ok; try done; [apply ok_refl|simpl; lia|auto].
  - intros r. unfold records. simpl. rewrite !elem_of_app, !elem_of_cons. naive_solver.
  - intros r [= <-]. split; [|done]. right. right. split; [done|]. apply (work_at _ _ _ _ I).
  - intros x [->|?]%elem_of_cons; [by right|left; set_solver].
  - intros id' t' [[= -> ->]|?]%elem_of_cons; [right; by exists rec|left; set_solver].
  - auto.
  - auto.
  - auto.
Qed.

Definition bury (ids : list str) (gh : Ghost) : Ghost :=
  {| g_ids := g_ids gh; g_final := g_final gh; g_dead := list_to_set ids ∪ g_dead gh |}.

(** Evicting finished statements and leaving their tombstones to write. *)
Lemma evict_inv gh s s' W ids ws :
  inv gh s W -> store_wf s' -> sto_history s' = true -> sto_seq s' = sto_seq s -> sto_ids s' = sto_ids s -> sto_files s' = sto_files s ->
  sto_journal s' = sto_journal s ->
  (forall id st, statements (sto_inner s') !! id = Some st -> statements (sto_inner s) !! id = Some st) ->
  (forall id, id ∈ ids -> is_Some (view (sto_inner s) id) /\ view (sto_inner s') id = None) ->
  (forall id, id ∉ ids -> view (sto_inner s') id = view (sto_inner s) id) ->
  (forall x, x ∈ ws -> work_ok (bury ids gh) x) -> (ws ≫= records_in = []) -> (forall id, id ∈ ids -> exists t, WTombstone id t ∈ ws) ->
  inv (bury ids gh) s' (ws ++ W).
Proof.
  intros I Wf' On' Eq Ei Ef Ej Hs Hin Hout Hok Hre Htb. pose proof I as [Wf On Sq Ti _ _ _ _ _ _].
  eapply (inv_advance gh (bury ids gh) s s' W _ None); try done.
  - rewrite Eq. lia.
  - split; [done|]. split; [done|]. simpl. set_solver.
  - destruct Ti as [Ti Th Tv Tl Td Tf Tg].
    assert (Hview : forall id f, view (sto_inner s') id = Some f -> view (sto_inner s) id = Some f).
    { intros id f Hf. destruct (decide (id ∈ ids)) as [Hi|Hi]; [by rewrite (proj2 (Hin id Hi)) in Hf|by rewrite Hout in Hf]. }
    split; simpl; [rewrite Ei, Eq; auto|intros; apply Th; auto|..].
    + intros id f Hf Ht. destruct (Tv id f (Hview id f Hf) Ht) as (m & l & ?). by exists m, l.
    + eauto.
    + intros id. rewrite elem_of_union, elem_of_list_to_set, Td. destruct (decide (id ∈ ids)) as [Hi|Hi].
      * destruct (Hin id Hi) as [[f Hf] ->]. destruct (Tl id f Hf). naive_solver.
      * rewrite Hout by done. naive_solver.
    + rewrite Ef. auto.
    + done.
  - intros r. unfold records. rewrite Ej, bind_app, Hre. simpl. naive_solver.
  - intros x [?|?]%elem_of_app; auto.
  - intros id t ?. left. set_solver.
  - auto.
  - auto.
  - intros id [Hi%elem_of_list_to_set|?]%elem_of_union; [right|by left]. destruct (Htb id Hi) as [t ?]. exists t. set_solver.
Qed.

Lemma sweep_inv c gh s W :
  inv gh s (WSweep :: W) -> let '(ws, s') := do_work c WSweep s in exists gh', inv gh' s' (ws ++ W).
Proof.
  intros I. pose proof (iv_wf _ _ _ I) as Wf. pose proof (do_work_good encode mode persist c WSweep s Wf) as (Wf' & _).
  simpl in *. destruct (sweep_locked (c_now c) (sto_inner s)) as [ev si] eqn:E. simpl in *.
  destruct (sweep_spec encode mode _ _ _ _ (sw_inner _ Wf) E) as (_ & _ & _ & _ & Es & Hg & Hk).
  assert (I' : inv gh s W) by (eapply inv_works; [done|set_solver|]; intros x [->|?]%elem_of_cons; done).
  exists (bury ev.*1 gh). eapply evict_inv; try done.
  - apply I.
  - simpl. rewrite Es. auto.
  - intros id Hi. destruct (Hg id Hi) as [[f Hf] Hn]. unfold StoreWf.view. simpl. rewrite Es.
    destruct (statements (sto_inner s) !! id) eqn:Hs; [|by rewrite Hf].
    by rewrite (co_disjoint _ (wf_core _ (sw_inner _ Wf)) _ _ Hs) in Hf.
  - intros id Hi. unfold StoreWf.view. simpl. by rewrite Es, Hk.
  - intros x ([i t] & [->|[->|[]%elem_of_nil]%elem_of_cons]%elem_of_cons & Hin)%list_elem_of_bind; simpl; [done|].
    apply elem_of_union_l, elem_of_list_to_set, list_elem_of_fmap. by exists (i, t).
  - clear. induction ev as [|x ev IH]; [done|]. simpl. exact IH.
  - intros id ([i t] & -> & Hin)%list_elem_of_fmap. exists t. apply list_elem_of_bind. exists (i, t). split; [set_solver|done].
Qed.

Lemma clear_inv c gh s W id :
  inv gh s (WClear id :: W) -> room s -> let '(ws, s') := do_work c (WClear id) s in inv gh s' (ws ++ W).
Proof.
  intros I Hroom. pose proof I as [Wf On Sq Ti _ _ _ _ _ _]. pose proof (work_at _ _ _ _ I) as [l Hl]. simpl in Hl.
  simpl. unfold clear_pointer, journal_seq. pose proof Hroom as [Hlt _].
  destruct (statements (sto_inner s) !! id) as [st|] eqn:Hs; simpl.
  - destruct (ti_hot _ _ Ti id st Hs) as [Hm Hf]. rewrite Hl in Hf. destruct (is_terminal (s_status st)) eqn:Ht; [|done]. injection Hf as ->.
    rewrite next_seq by (done || lia). eapply (drawing_work gh s (WClear id) W I _ _ []); try done; [by intros (? & ? & ?)| | |by intros ? ?%elem_of_nil].
    + eapply (flags_ok encode mode _ id st (set_file None (r_refused (s_rows st)) (s_rows st))); auto.
    + eapply snapshot_new; [done| |done]. exists (s_meta st), (s_life st). split; [done|]. split; done.
  - destruct (history (sto_inner s) !! id) as [f|] eqn:Hf; simpl.
    + assert (Hv : view (sto_inner s) id = Some f) by (unfold StoreWf.view; by rewrite Hs).
      rewrite next_seq by (done || lia). eapply (drawing_work gh s (WClear id) W I _ _ []); try done; [by intros (? & ? & ?)| | |by intros ? ?%elem_of_nil].
      * by eapply alter_archive_ok.
      * eapply snapshot_new; [done| |done]. eapply (folded_ok_outcome gh f); [done|]. eapply (ti_view _ _ Ti id); [done|].
        by apply (ar_entry _ _ _ (co_archived _ (wf_core _ (sw_inner _ Wf))) id).
    + eapply (plain_work gh s (WClear id) W I s []); try done; [by intros []|apply ok_refl|by auto|by intros ? ?%elem_of_nil].
Qed.

(** Work of the plain kind, without a change of files. *)
Lemma plain_leaves gh s w W s' ws :
  inv gh s (w :: W) -> plain w -> ok (sto_inner s) (sto_inner s') -> sto_history s' = sto_history s -> sto_ids s' = sto_ids s ->
  sto_seq s' = sto_seq s -> sto_journal s' = sto_journal s -> sto_files s' ⊆ sto_files s ->
  (forall x, x ∈ ws -> work_ok gh x /\ plain x) -> inv gh s' (ws ++ W).
Proof.
  intros I Hp Hok Eh Ei Eq Ej Ef Hws. eapply (plain_work gh s w W I); try done.
  intros id [n Hn]. left. exists n. by eapply lookup_weaken.
Qed.

Lemma elem_of_one (P : Work -> Prop) x : P x -> forall y, y ∈ [x] -> P y.
Proof. by intros ? y ->%list_elem_of_singleton. Qed.

Lemma write_inv c gh s job W :
  inv gh s (WWrite job :: W) -> let '(ws, s') := do_work c (WWrite job) s in inv gh s' (ws ++ W).
Proof.
  intros I. pose proof (work_at _ _ _ _ I) as Hw. simpl. unfold write.
  assert (Hrefused : forall p, work_ok gh (WPublish (with_result None (Some RESULT_TOO_LARGE) (job_folded job)) p)
    /\ plain (WPublish (with_result None (Some RESULT_TOO_LARGE) (job_folded job)) p)).
  { intros p. split; [|by intros []]. eapply folded_ok_outcome; [|by apply Hw]. done. }
  destruct (job_batches job) as [|b bs]; [|destruct (c_encoded c) as [n| |]]; simpl.
  - eapply (plain_leaves gh s _ W _ [_]); simpl; try done; [by intros []|apply ok_refl|]. by apply elem_of_one.
  - eapply (plain_work gh s _ W I _ [_]); simpl; try done; [by intros []|apply ok_refl| |by apply elem_of_one; split; [|intros []]].
    intros i [? [[<- _]|[_ ?]]%lookup_insert_Some]; [right|left; by eexists]. destruct Hw as [<- (m & l & _ & ? & _)]. by eexists.
  - eapply (plain_leaves gh s _ W _ [_]); simpl; try done; [by intros []|apply ok_refl|]. by apply elem_of_one.
  - eapply (plain_leaves gh s _ W _ [_]); simpl; try done; [by intros []|apply ok_refl|]. apply elem_of_one. by split; [|intros []].
Qed.

Lemma do_work_inv c gh s w W :
  inv gh s (w :: W) -> room s ->
  let '(ws, s') := do_work c w s in exists gh', inv gh' s' (ws ++ W ++ spill_jobs w).
Proof.
  intros I Hroom. pose proof (work_at _ _ _ _ I) as Hw. pose proof (iv_seq _ _ _ I) as Sq.
  destruct w as [p r|id r|id taken|jobs|ids| |id|id t|id|live|job|job|job p|f out|id out]; simpl spill_jobs; rewrite ?app_nil_r.
  - exists gh. eapply (append_inv gh s _ W r []); [done..|by intros ? ?%elem_of_nil].
  - exists gh. eapply (append_inv gh s _ W r); [done..|]. apply elem_of_one. by split; [|intros []].
  - exists gh. simpl. destruct (statements (sto_inner s) !! id) as [st|] eqn:Hs.
    + eapply (plain_leaves gh s _ W _ []); try done; [by intros []| |by intros ? ?%elem_of_nil].
      eapply (update_ok encode mode _ _ id st (set_ack taken st)); try done; [by intros []; split|simpl; lia].
    + eapply (plain_leaves gh s _ W s []); try done; [by intros []|apply ok_refl|by intros ? ?%elem_of_nil].
  - simpl. unfold queue_spills. pose proof (queue_jobs_frame encode mode persist jobs s) as Q.
    destruct (queue_jobs persist jobs s) as [refused s'] eqn:E. simpl in Q. destruct Q as (E1 & E2 & E3 & E4 & E5 & _ & _ & E6 & _).
    exists gh. apply (inv_fields gh s); [|done..]. eapply inv_works; [exact I| |].
    + intros x. rewrite !elem_of_app. intros [Hx|[?|Hx]]; [|left; set_solver|].
      * right. destruct refused; [by apply elem_of_nil in Hx|]. apply list_elem_of_singleton in Hx as ->. by split; [|intros []].
      * right. apply list_elem_of_fmap in Hx as (job & -> & Hj). split; [by apply Hw|by intros []].
    + intros x [->|?]%elem_of_cons ?; [done|set_solver].
  - exists gh. eapply (plain_leaves gh s _ W _ []); simpl; try done; [by intros []|apply abandon_spills_ok|by intros ? ?%elem_of_nil].
  - exact (sweep_inv c gh s W I).
  - exists gh. pose proof (unlink_frame (c_removed c) id s) as (E1 & E2 & E3 & E4 & E5 & _). simpl.
    eapply (plain_leaves gh s _ W _ []); try done; [by intros []|rewrite E1; apply ok_refl| |by intros ? ?%elem_of_nil].
    unfold unlink. repeat case_match; simpl; [apply delete_subseteq|done..].
  - exists gh. simpl. rewrite next_seq by (done || lia). by apply tombstone_inv.
  - pose proof (clear_inv c gh s W id I Hroom) as Hc. destruct (do_work c (WClear id) s). eauto.
  - exists gh. eapply (plain_leaves gh s _ W); simpl; try done; [by intros []|apply ok_refl|].
    intros x (i & -> & _)%list_elem_of_fmap. by split; [|intros []].
  - exists gh. eapply (plain_leaves gh s _ W); simpl; try done; [by intros []|apply ok_refl|]. apply elem_of_one. case_match; by split; [|intros []].
  - pose proof (write_inv c gh s job W I) as Hc. destruct (do_work c (WWrite job) s). eauto.
  - exists gh. eapply (plain_leaves gh s _ W); simpl; try done; [by intros []|apply ok_refl|]. case_match.
    + apply elem_of_one. split; [|by intros []]. eapply folded_ok_outcome; [|by apply Hw]. done.
    + intros x [->|[->|[]%elem_of_nil]%elem_of_cons]%elem_of_cons; by split; [|intros []].
  - exists gh. simpl. rewrite next_seq by (done || lia). destruct Hroom as [Hlt _].
    eapply (drawing_work gh s _ W I _ _ [_]); try done; [by intros (? & ? & ?)|apply ok_refl| |by apply elem_of_one; split; [|intros []]].
    eapply snapshot_new; [apply I| |done]. eapply folded_ok_outcome; [|exact Hw]. done.
  - exists gh. eapply (plain_leaves gh s _ W _ []); simpl; try done; [by intros []|apply sink_ok|by intros ? ?%elem_of_nil].
Qed.

(** ** Operations *)

Definition settle (id : str) (st : Statement) (gh : Ghost) : Ghost :=
  if is_terminal (s_status st) then {| g_ids := g_ids gh; g_final := <[id := s_life st]> (g_final gh); g_dead := g_dead gh |} else gh.

Lemma settle_ext id st gh : g_final gh !! id = None -> ext gh (settle id st gh).
Proof.
  intros Hn. unfold settle. case_match; [|apply ext_refl]. split; [done|]. split; [by apply insert_subseteq|done].
Qed.
Lemma settle_ids id st gh : g_ids (settle id st gh) = g_ids gh /\ g_dead (settle id st gh) = g_dead gh.
Proof. unfold settle. by case_match. Qed.

(** A statement under way advances. *)
Section Advance.
Context (gh : Ghost) (s : Store) (si1 : StoreInner) (id : str) (st st' : Statement).
Context (T : tiers gh s) (Hs : statements (sto_inner s) !! id = Some st) (Ht : is_terminal (s_status st) = false).
Context (Es : statements si1 = <[id := st']> (statements (sto_inner s))) (Eh : history si1 = history (sto_inner s)).
Context (Em : s_meta st' = s_meta st).

Lemma advance_open : g_final gh !! id = None.
Proof. destruct (ti_hot _ _ T id st Hs) as [_ E]. by rewrite Ht in E. Qed.

Lemma advance_view j : j <> id -> view si1 j = view (sto_inner s) j.
Proof. intros. unfold StoreWf.view. rewrite Es, Eh, lookup_insert_ne by congruence. done. Qed.

Lemma advance_view_here : view si1 id = Some (to_folded id (s_seq st') st').
Proof. unfold StoreWf.view. by rewrite Es, lookup_insert_eq. Qed.

Lemma advance_tiers : tiers (settle id st' gh) (set_inner si1 s).
Proof.
  pose proof (settle_ext id st' gh advance_open) as E. destruct (settle_ids id st' gh) as [Ei Ed]. destruct (ti_hot _ _ T id st Hs) as [Hm _].
  split; simpl; rewrite ?Ei, ?Ed.
  - apply (ti_ids _ _ T).
  - intros j x. rewrite Es. intros [[<- <-]|[Hne Hx]]%lookup_insert_Some.
    + split; [congruence|]. unfold settle. case_match; simpl; [apply lookup_insert_eq|apply advance_open].
    + destruct (ti_hot _ _ T j x Hx) as [? Hf]. split; [done|]. etrans; [|exact Hf]. unfold settle. destruct (is_terminal (s_status st')); [by apply lookup_insert_ne|done].
  - intros j f Hf Hft. destruct (decide (j = id)) as [->|Hne].
    + rewrite advance_view_here in Hf. injection Hf as <-. exists (s_meta st'), (s_life st'). simpl. rewrite Ei. split; [congruence|]. split; [|done].
      unfold settle. simpl in Hft. rewrite Hft. apply lookup_insert_eq.
    + rewrite advance_view in Hf by done. eapply folded_ok_ext; [done|]. by eapply (ti_view _ _ T j).
  - intros j f Hf. destruct (decide (j = id)) as [->|Hne].
    + rewrite advance_view_here in Hf. injection Hf as <-. split; [done|by eexists].
    + rewrite advance_view in Hf by done. by apply (ti_live _ _ T j).
  - intros j. rewrite (ti_dead _ _ T). destruct (decide (j = id)) as [->|Hne]; [|by rewrite advance_view].
    rewrite advance_view_here. unfold StoreWf.view. rewrite Hs. naive_solver.
  - intros j [l Hl]%(ti_files _ _ T). exists l. by eapply ext_final.
  - intros j [l Hl]. destruct (decide (j = id)) as [->|Hne]; [by eexists|]. apply (ti_final _ _ T). exists l.
    revert Hl. unfold settle. case_match; simpl; [by rewrite lookup_insert_ne|done].
Qed.
End Advance.

Lemma advance_inv gh s s' si1 id st st' W W' new :
  inv gh s W -> statements (sto_inner s) !! id = Some st -> is_terminal (s_status st) = false ->
  statements si1 = <[id := st']> (statements (sto_inner s)) -> same_tail (sto_inner s) si1 -> s_meta st' = s_meta st -> rows_ok st' ->
  result_bytes si1 = result_bytes (sto_inner s) + r_bytes (s_rows st') -> result_bytes si1 < 2 ^ 64 ->
  ok si1 (sto_inner s') -> sto_history s' = sto_history s -> sto_ids s' = sto_ids s -> sto_files s' = sto_files s ->
  sto_seq s <= sto_seq s' < 2 ^ 64 -> (forall r, r ∈ records s' W' <-> r ∈ records s W \/ new = Some r) ->
  (forall r, new = Some r -> record_ok (settle id st' gh) (sto_seq s') r /\ (j_kind r = KindSnapshot -> j_last_seq r = Some (sto_seq s))) ->
  (forall w, w ∈ W' -> w ∈ W \/ work_ok (settle id st' gh) w) -> (forall i t, WTombstone i t ∈ W -> WTombstone i t ∈ W') ->
  (is_terminal (s_status st') = true -> exists r, new = Some r /\ j_id r = id /\ j_kind r = KindSnapshot) ->
  inv (settle id st' gh) s' W'.
Proof.
  intros I Hs Ht Es Tl Em R Er Hr Hok Eh Ei Ef Hq HR Hnew HW Htb Hfin. pose proof I as [Wf On Sq Ti _ _ _ _ _ _].
  destruct (advance_good encode mode s s' si1 id st st' Wf Hs Ht Es Tl Em R Er Hr Hok Eh Ei) as [Wf' _].
  destruct (advance_good encode mode s (set_inner si1 s) si1 id st st' Wf Hs Ht Es Tl Em R Er Hr) as [Wf1 _]; [apply ok_refl|done..|].
  destruct Tl as (Ehi & _). pose proof (advance_open gh s id st Ti Hs Ht) as Hop. destruct (settle_ids id st' gh) as [Ea Ed].
  eapply (inv_advance gh _ s s' W W' new); try done.
  - congruence.
  - by apply settle_ext.
  - eapply (tiers_ok _ (set_inner si1 s)); try done; simpl; [by eapply advance_tiers|lia|by rewrite Ei|rewrite Ef; auto].
  - intros i t ?. left. auto.
  - intros i m. rewrite Ea. auto.
  - intros i Hi. destruct (decide (i = id)) as [->|Hne].
    + right. apply Hfin. revert Hi. unfold settle. case_match; [done|]. rewrite Hop. by intros [].
    + left. revert Hi. unfold settle. case_match; [|done]. simpl. by rewrite lookup_insert_ne.
  - intros i. rewrite Ed. auto.
Qed.

Lemma works_spawn l s w : w ∈ works (spawn l s) <-> w ∈ works s \/ w ∈ l.
Proof. unfold works, spawn. simpl. rewrite concat_app. simpl. set_solver. Qed.
Lemma inv_perm gh s W W' : inv gh s W -> (forall w, w ∈ W' <-> w ∈ W) -> inv gh s W'.
Proof. intros I HW. eapply inv_works; [done|..]; intros w; rewrite HW; auto. Qed.

Lemma records_spawn s s' l r : sto_journal s' = sto_journal s -> works s' = works s ->
  r ∈ records (spawn l s') (works (spawn l s')) <-> r ∈ records s (works s) \/ r ∈ l ≫= records_in.
Proof.
  intros Ej Ew. unfold records. simpl. rewrite Ej, !elem_of_app, !list_elem_of_bind. setoid_rewrite works_spawn. rewrite Ew. naive_solver.
Qed.

Lemma mark_running_inv gh ts id s :
  inv gh s (works s) -> exists gh', inv gh' (mark_running ts id s) (works (mark_running ts id s)).
Proof.
  intros I. pose proof I as [Wf On Sq Ti _ _ _ _ _ _]. unfold mark_running.
  destruct (statements (sto_inner s) !! id) as [st|] eqn:Hs; [|by exists gh].
  destruct (s_status st) eqn:Hst; try by exists gh. rewrite (eq_refl : sto_history (set_inner _ s) = sto_history s), On.
  assert (Ht : is_terminal (s_status st) = false) by by rewrite Hst.
  pose proof (co_rows _ (wf_core _ (sw_inner _ Wf)) id st Hs) as R.
  set (st' := set_life _ st). set (si1 := set_statement id st' (sto_inner s)). set (rec := running_record ts id (s_meta st)).
  exists (settle id st' gh). eapply (advance_inv gh s _ si1 id st st' (works s) _ (Some rec)); try done.
  - split; simpl; [apply R|intros _; by apply (ro_open _ R)|apply R].
  - simpl. rewrite (open_bytes st) by done. lia.
  - apply (co_room _ (wf_core _ (sw_inner _ Wf))).
  - apply ok_refl.
  - simpl. lia.
  - intros r. rewrite (records_spawn s) by done. simpl. rewrite list_elem_of_singleton. naive_solver.
  - intros r [= <-]. split; [|done]. left. exists (s_meta st). simpl. destruct (ti_hot _ _ Ti id st Hs). split; [done|]. right. by eexists.
  - intros w [?|Hw]%works_spawn; [by left|]. apply list_elem_of_singleton in Hw as ->. by right.
  - intros i t ?. apply works_spawn. by left.
Qed.

Lemma settle_final gh id st' n :
  is_terminal (s_status st') = true -> g_ids gh !! id = Some (s_meta st') -> m_seq (s_meta st') < n ->
  record_ok (settle id st' gh) (n + 1) (to_snapshot (to_folded id n st')).
Proof.
  intros Ht Hm Hlt. right. left. eexists. split; [done|]. split; [|simpl; unfold s_seq; lia].
  exists (s_meta st'), (s_life st'). unfold settle. rewrite Ht. simpl. split; [done|]. split; [apply lookup_insert_eq|done].
Qed.

Lemma cancel_inv gh id elapsed s :
  inv gh s (works s) -> room s -> let s' := (cancel encode mode id elapsed s).2 in exists gh', inv gh' s' (works s').
Proof.
  intros I Hroom. pose proof I as [Wf On Sq Ti _ _ _ _ _ _]. unfold cancel.
  destruct (statements (sto_inner s) !! id) as [st|] eqn:Hs; [|by exists gh].
  destruct (is_terminal (s_status st)) eqn:Ht; [by exists gh|]. unfold terminal_record, journal_seq. rewrite On. simpl.
  pose proof (co_rows _ (wf_core _ (sw_inner _ Wf)) id st Hs) as R. rewrite next_seq by (done || lia). destruct Hroom as [Hlt _].
  set (st' := set_canceled _). set (si1 := set_statement id st' (sto_inner s)). set (rec := to_snapshot _).
  destruct (ti_hot _ _ Ti id st Hs) as [Hm _]. destruct (ti_ids _ _ Ti id _ Hm) as [_ Hsq].
  exists (settle id st' gh). eapply (advance_inv gh s _ si1 id st st' (works s) _ (Some rec)); try done.
  - split; simpl; [apply R|done|apply R].
  - simpl. rewrite (open_bytes st) by done. lia.
  - apply (co_room _ (wf_core _ (sw_inner _ Wf))).
  - apply ok_refl.
  - simpl. lia.
  - intros r. rewrite (records_spawn s) by done. simpl. rewrite list_elem_of_singleton. naive_solver.
  - intros r [= <-]. split; [|done]. by apply settle_final.
  - intros w [?|Hw]%works_spawn; [by left|]. apply list_elem_of_singleton in Hw as ->. by right.
  - intros i t ?. apply works_spawn. by left.
  - intros _. by exists rec.
Qed.

(** The jobs planned are of finished statements. *)
Definition job_of (si : StoreInner) (job : SpillJob) : Prop :=
  exists st, statements si !! job_id job = Some st /\ is_terminal (s_status st) = true
    /\ f_id (job_folded job) = job_id job /\ outcome (job_folded job) = final_of (job_id job) (s_meta st) (s_life st).

Lemma job_of_from si si' job : from_hot si si' -> job_of si' job -> job_of si job.
Proof.
  intros F (st' & Hs & Ht & Hid & Ho). destruct (F _ _ Hs) as (st & ? & Em & El). exists st.
  unfold s_status in *. rewrite <- Em, <- El. done.
Qed.
Lemma from_hot_set si id st st' :
  statements si !! id = Some st -> s_meta st' = s_meta st -> s_life st' = s_life st -> from_hot si (set_statement id st' si).
Proof. intros Hs Em El j x. simpl. intros [[<- <-]|[_ ?]]%lookup_insert_Some; eauto. Qed.
Lemma from_hot_release si id : from_hot si (release_rows id si).2.
Proof.
  unfold release_rows. destruct (statements si !! id) as [st|] eqn:Hs; simpl; [|intros j x ?; eauto].
  intros j x. simpl. intros [[<- <-]|[_ ?]]%lookup_insert_Some; eauto.
Qed.

Lemma plan_jobs_jobs ids si job : job ∈ (plan_jobs encode mode ids si).1 -> job_of si job.
Proof.
  revert si. induction ids as [|id ids IH]; intros si; simpl; [by intros ?%elem_of_nil|].
  destruct (statements si !! id) as [st|] eqn:Hs; [|apply IH].
  case_match; [intros Hj; eapply job_of_from; [apply from_hot_release|by apply IH]|].
  case_match eqn:Hno; [intros Hj%IH; eapply job_of_from; [|exact Hj]; by eapply (from_hot_set si id st)|].
  set (st' := set_rows _ st). specialize (IH (set_statement id st' si)).
  destruct (plan_jobs encode mode ids _) as [jobs si']. simpl in *. intros [->|Hj]%elem_of_cons.
  - exists st. simpl. split; [done|]. split; [|done]. repeat apply orb_false_iff in Hno as [Hno _]. apply negb_false_iff, bool_decide_eq_true in Hno.
    by rewrite Hno.
  - apply IH in Hj. eapply job_of_from; [|exact Hj]. by eapply (from_hot_set si id st).
Qed.

Lemma plan_spills_shape id s : wf (sto_inner s) ->
  let '(jobs, s') := plan_spills encode mode persist id s in
  (exists si', s' = set_inner si' s) /\ forall job, job ∈ jobs -> job_of (sto_inner s) job.
Proof.
  intros W. unfold plan_spills.
  destruct (negb (sto_history s) || negb (spills_at_all persist)); [split; [exists (sto_inner s); by destruct s|by intros ? ?%elem_of_nil]|].
  destruct (budget_victims_ok encode mode (sto_inner s)) as (B1 & _ & _). destruct (B1 W) as (_ & _ & _ & _ & F).
  destruct (budget_victims (sto_inner s)) as [victims si]. set (wanted := if spills_eagerly persist then _ else _).
  pose proof (plan_jobs_jobs wanted si) as Hj. destruct (plan_jobs encode mode wanted si) as [jobs si']. simpl in *.
  split; [by eexists|]. intros job Hin. eapply job_of_from; [done|auto].
Qed.

Lemma finish_inv gh id out elapsed s :
  inv gh s (works s) -> room s -> counts s out ->
  let s' := finish encode mode persist id out elapsed s in exists gh', inv gh' s' (works s').
Proof.
  intros I Hroom Hc. pose proof I as [Wf On Sq Ti _ _ _ _ _ _]. unfold finish.
  destruct (statements (sto_inner s) !! id) as [st|] eqn:Hs; [|by exists gh].
  destruct (is_terminal (s_status st)) eqn:Ht; [by exists gh|]. unfold terminal_record, journal_seq. rewrite On. simpl sto_inner.
  pose proof (co_rows _ (wf_core _ (sw_inner _ Wf)) id st Hs) as R. pose proof (co_room _ (wf_core _ (sw_inner _ Wf))) as Hrm.
  pose proof (held_nonneg _ (co_rows _ (wf_core _ (sw_inner _ Wf)))) as Hp. rewrite <- (co_bytes _ (wf_core _ (sw_inner _ Wf))) in Hp.
  rewrite next_seq by (done || lia). destruct Hroom as [Hlt _].
  set (st' := set_rows _ (set_life _ st)). pose proof (outcome_rows_ok out elapsed st R Ht) as R'. fold st' in R'.
  assert (Hsum : 0 <= result_bytes (sto_inner s) + r_bytes (s_rows st') < 2 ^ 64).
  { pose proof (rows_ok_range _ R'). pose proof (open_bytes _ R Ht). destruct out; simpl in *; lia. }
  rewrite wrapu_small by (unfold u_ok, u_max; simpl in *; lia).
  set (si1 := set_result_bytes _ (set_statement id st' (sto_inner s))). set (rec := to_snapshot _). set (s1 := set_inner si1 _).
  assert (Hfin : is_terminal (s_status st') = true) by by destruct out.
  assert (Hfl : all_final [id] si1).
  { intros j x ->%list_elem_of_singleton. simpl. rewrite lookup_insert_eq. by intros [= <-]. }
  assert (W1 : wf si1).
  { eapply (update_wf (sto_inner s) si1 id st st'); try done; [apply Wf|simpl; rewrite (open_bytes st) by done; lia|apply Hsum]. }
  pose proof (plan_spills_frame encode mode persist id s1 Hfl) as (P1 & P2 & P3). pose proof (plan_spills_shape id s1 W1) as P4.
  destruct (plan_spills encode mode persist id s1) as [jobs s3]. simpl in P1, P2, P3. destruct P4 as [[si3 ->] Hjobs].
  destruct (ti_hot _ _ Ti id st Hs) as [Hm _]. destruct (ti_ids _ _ Ti id _ Hm) as [_ Hsq].
  assert (Tg : tiers (settle id st' gh) (set_inner si1 s)) by by eapply (advance_tiers gh s si1 id st st').
  exists (settle id st' gh). eapply (advance_inv gh s _ si1 id st st' (works s) _ (Some rec)); try done.
  - apply Hsum.
  - simpl. lia.
  - intros r. rewrite (records_spawn s) by done. simpl. rewrite list_elem_of_singleton. naive_solver.
  - intros r [= <-]. split; [|done]. by apply settle_final.
  - intros w [?|Hw]%works_spawn; [by left|]. right. apply elem_of_cons in Hw as [->|[->|[]%elem_of_nil]%elem_of_cons]; [done|].
    intros job (x & Hx & Hxt & Hid & Ho)%Hjobs. split; [done|]. destruct (ti_hot _ _ Tg _ x Hx) as [Hxm Hxf]. rewrite Hxt in Hxf.
    exists (s_meta x), (s_life x). rewrite Hid. done.
  - intros i t ?. apply works_spawn. by left.
  - intros _. by exists rec.
Qed.

Definition submit (id : str) (m : Identity) (gh : Ghost) : Ghost :=
  {| g_ids := <[id := m]> (g_ids gh); g_final := g_final gh; g_dead := g_dead gh |}.
Lemma submit_ext id m gh : g_ids gh !! id = None -> ext gh (submit id m gh).
Proof. intros. split; [by apply insert_subseteq|done]. Qed.

Lemma submit_tiers gh s si id st :
  tiers gh s -> g_ids gh !! id = None -> view (sto_inner s) id = None -> id ∈ sto_ids s -> m_seq (s_meta st) < sto_seq s ->
  is_terminal (s_status st) = false -> statements si = <[id := st]> (statements (sto_inner s)) -> history si = history (sto_inner s) ->
  tiers (submit id (s_meta st) gh) (set_inner si s).
Proof.
  intros T Hn Hv Hi Hq Ht Es Eh. pose proof (submit_ext id (s_meta st) gh Hn) as E.
  assert (Hfn : g_final gh !! id = None) by (apply eq_None_not_Some; intros [? ?]%(ti_final _ _ T); congruence).
  assert (Hview : forall j, j <> id -> view si j = view (sto_inner s) j).
  { intros j ?. unfold StoreWf.view. rewrite Es, Eh, lookup_insert_ne by congruence. done. }
  assert (Hhere : view si id = Some (to_folded id (s_seq st) st)) by (unfold StoreWf.view; by rewrite Es, lookup_insert_eq).
  split; simpl.
  - intros j m [[<- <-]|[_ ?]]%lookup_insert_Some; [done|by apply (ti_ids _ _ T)].
  - intros j x. rewrite Es. intros [[<- <-]|[Hne Hx]]%lookup_insert_Some; [by rewrite lookup_insert_eq, Ht|].
    rewrite lookup_insert_ne by done. by apply (ti_hot _ _ T).
  - intros j f Hf Hft. destruct (decide (j = id)) as [->|Hne]; [|rewrite Hview in Hf by done; eapply folded_ok_ext; [done|by eapply (ti_view _ _ T j)]].
    rewrite Hhere in Hf. injection Hf as <-. simpl in Hft. congruence.
  - intros j f Hf. destruct (decide (j = id)) as [->|Hne].
    + rewrite Hhere in Hf. injection Hf as <-. by rewrite lookup_insert_eq.
    + rewrite Hview in Hf by done. rewrite lookup_insert_ne by congruence. by apply (ti_live _ _ T j).
  - intros j. rewrite (ti_dead _ _ T). destruct (decide (j = id)) as [->|Hne]; [rewrite Hhere, Hn; naive_solver|].
    rewrite lookup_insert_ne by congruence. by rewrite Hview.
  - apply (ti_files _ _ T).
  - intros j Hj%(ti_final _ _ T). destruct (decide (j = id)) as [->|Hne]; [by rewrite lookup_insert_eq|by rewrite lookup_insert_ne by congruence].
Qed.

Lemma view_live si id : view si id = None <-> ~ live_in si id.
Proof.
  unfold StoreWf.view, live_in. destruct (statements si !! id); [split; [done|intros Hn; destruct Hn; by left; eexists]|].
  destruct (history si !! id); split; try done; [intros Hn; destruct Hn; by right; eexists|]. by intros _ [[]|[]].
Qed.

(** A submission with history on: what it evicts, adds and caps. *)
Record inserted (id : str) (si si1 si3 : StoreInner) (st : Statement) (n : Z) : Prop := {
  in_evict : ok si si1;
  in_seq : s_seq st = n;
  in_open : is_terminal (s_status st) = false;
  in_rows : s_rows st = no_rows;
  in_statements : statements si3 = <[id := st]> (statements si1);
  in_history : history si3 = history si1;
  in_tail : by_seq si3 = by_seq si1 /\ by_session si3 = by_session si1 /\ limits si3 = limits si1 /\ result_bytes si3 = result_bytes si1;
  in_alias : alias si3 = alias si1 \/ exists k, alias si3 = <[k := id]> (alias si1) }.

Lemma insert_shape id sql source session op now clock s :
  sto_history s = true -> exists si1 si3 st, inserted id (sto_inner s) si1 si3 st (sto_seq s)
    /\ insert_from encode mode id sql source session op now clock s
       = spawn [WAppend Retained (submitted_record id (s_meta st)); WSweep]
           (set_inner (enforce_hot_cap encode mode si3) (set_seq (wrapu 64 (sto_seq s + 1)) (set_inner si1 (set_ids ({[id]} ∪ sto_ids s) s)))).
Proof.
  intros On. unfold insert_from. cbv zeta. change (sto_inner (set_ids ({[id]} ∪ sto_ids s) s)) with (sto_inner s).
  set (si1 := evict_expired encode mode clock (sto_inner s)). unfold store_seq, journal_seq. simpl sto_history. rewrite On. simpl sto_inner.
  change (sto_seq (set_inner si1 (set_ids ({[id]} ∪ sto_ids s) s))) with (sto_seq s).
  set (st := {| s_meta := _ |}). set (si3 := if history_on _ then _ else _). simpl sto_history. rewrite On.
  exists si1, si3, st. split; [|done]. split; try done.
  - apply evict_expired_ok.
  - unfold si3. case_match; [destruct session, (alias_of op)|]; done.
  - unfold si3. case_match; [destruct session, (alias_of op)|]; done.
  - unfold si3. case_match; [destruct session, (alias_of op)|]; done.
  - unfold si3. case_match; [destruct session, (alias_of op)|]; simpl; auto. right. by eexists.
Qed.

Section Insert.
Context (gh : Ghost) (s : Store) (id : str) (si1 si3 : StoreInner) (st : Statement).
Context (I : inv gh s (works s)) (Hid : id ∉ sto_ids s) (Hroom : room s) (Sh : inserted id (sto_inner s) si1 si3 st (sto_seq s)).

Let s0 : Store := set_seq (sto_seq s + 1) (set_inner si1 (set_ids ({[id]} ∪ sto_ids s) s)).

Lemma insert_fresh : g_ids gh !! id = None.
Proof. apply eq_None_not_Some. intros [m Hm]. by destruct (ti_ids _ _ (iv_tiers _ _ _ I) id m Hm). Qed.

Lemma insert_wf : store_wf (set_inner si3 s0) /\ store_wf s0 /\ ~ live_in si1 id.
Proof.
  pose proof (iv_wf _ _ _ I) as Wf. destruct Sh as [Hok _ Ht Hr Es Eh (Eb & Ess & El & Er) Ea].
  destruct (Hok (sw_inner _ Wf)) as (W1 & L1 & Sub1 & _). pose proof (sw_mode _ Wf) as Hmode.
  assert (Hnl : ~ live_in si1 id) by (intros ?%Sub1%(sw_ids _ Wf); done).
  destruct (add_hot encode mode si1 si3 id st) as (W3 & _ & Sub3); try done.
  - split; rewrite Hr; done.
  - by rewrite Hr.
  - rewrite L1, <- Hmode, (iv_on _ _ _ I). destruct Ea; auto.
  - split; [|split; [|done]]; (split; [done|simpl; rewrite ?El, L1; apply Hmode|]).
    + intros j [?%Sub1%(sw_ids _ Wf)| ->]%Sub3; simpl; set_solver.
    + intros j ?%Sub1%(sw_ids _ Wf). simpl. set_solver.
Qed.

Lemma insert_tiers : tiers (submit id (s_meta st) gh) (set_inner (enforce_hot_cap encode mode si3) s0).
Proof.
  destruct insert_wf as (Wf3 & Wf0 & Hnl). pose proof I as [Wf On Sq Ti _ _ _ _ _ _]. destruct Sh as [Hok Hn Ht Hr Es Eh _ _].
  eapply (tiers_ok _ (set_inner si3 s0)); try done; [|apply hot_cap_loop_ok|auto].
  eapply submit_tiers; try done.
  - eapply (tiers_ok gh s); try done; simpl; [lia|set_solver|auto].
  - apply insert_fresh.
  - by apply view_live.
  - simpl. set_solver.
  - unfold s_seq in Hn. simpl. lia.
Qed.

Lemma insert_spawned rest :
  store_wf (set_inner (enforce_hot_cap encode mode si3) s0) -> (forall w, w ∈ rest -> work_ok (submit id (s_meta st) gh) w /\ plain w) ->
  let s' := spawn (WAppend Retained (submitted_record id (s_meta st)) :: rest) (set_inner (enforce_hot_cap encode mode si3) s0) in
  inv (submit id (s_meta st) gh) s' (works s').
Proof.
  intros Wf' Hrest s'. pose proof I as [Wf On Sq Ti _ _ _ _ _ _]. pose proof insert_tiers as T. destruct Hroom as [Hlt _].
  eapply (inv_advance gh _ s s' (works s) _ (Some (submitted_record id (s_meta st)))); try done.
  - destruct Wf'. by split.
  - simpl. lia.
  - apply submit_ext, insert_fresh.
  - by destruct T; split.
  - intros r. unfold s'. rewrite (records_spawn s) by done. simpl. rewrite elem_of_cons. split; [intros [?|[->|Hx]]; auto|intros [?|[= ->]]; auto].
    apply records_essential in Hx as (x & Hx & He & _). by destruct (Hrest x Hx).
  - intros r [= <-]. split; [|done]. left. exists (s_meta st). simpl. rewrite lookup_insert_eq. auto.
  - intros w [?|[->|Hx]%elem_of_cons]%works_spawn; [by left|by right|right; by apply Hrest].
  - intros i t ?. left. apply works_spawn. by left.
  - intros i m. simpl. intros [[<- <-]|[_ ?]]%lookup_insert_Some; auto.
  - auto.
  - auto.
Qed.
End Insert.

Lemma insert_inv gh id sql source session op now clock s :
  inv gh s (works s) -> id ∉ sto_ids s -> room s ->
  let s' := insert_from encode mode id sql source session op now clock s in exists gh', inv gh' s' (works s').
Proof.
  intros I Hid Hroom. destruct (insert_from_good encode mode id sql source session op now clock s (iv_wf _ _ _ I) Hid) as [Wf' _].
  destruct (insert_shape id sql source session op now clock s (iv_on _ _ _ I)) as (si1 & si3 & st & Sh & E). rewrite E in *.
  rewrite next_seq in * by (done || apply I). eexists. eapply insert_spawned; try done.
  - destruct Wf'. by split.
  - apply elem_of_one. by split; [|intros []].
Qed.

Lemma history_remove_statements id si f si' : history_remove id si = Some (f, si') -> statements si' = statements si.
Proof. unfold history_remove. destruct (history si !! id); [|done]. by intros [= <- <-]. Qed.

Lemma prune_statements si id t si' j x : prune_locked si = Some (id, t, si') -> statements si' !! j = Some x -> statements si !! j = Some x.
Proof.
  unfold prune_locked. set (oldest := match oldest_archived si with Some i => Some i | None => _ end). destruct oldest as [i|]; [|done].
  destruct (history_remove i si) as [[f si1]|] eqn:Er.
  - intros [= _ _ <-]. simpl. by rewrite (history_remove_statements _ _ _ _ Er).
  - destruct (statements si !! i) as [st|]; [|done]. intros [= _ _ <-]. simpl. by intros [_ ?]%lookup_delete_Some.
Qed.

Lemma prune_inv gh s : inv gh s (works s) -> exists gh', inv gh' (prune_oldest_statement s) (works (prune_oldest_statement s)).
Proof.
  intros I. pose proof I as [Wf On Sq Ti _ _ _ _ _ _]. pose proof (prune_good encode mode s Wf On) as [Wf' _]. revert Wf'.
  unfold prune_oldest_statement. destruct (prune_locked (sto_inner s)) as [[[id t] si]|] eqn:E; [|by exists gh]. intros Wf'.
  pose proof On as Hon. rewrite (sw_mode _ Wf) in Hon.
  destruct (prune_locked_spec encode mode _ _ _ _ (sw_inner _ Wf) E Hon) as (_ & _ & _ & (f & Hf & _) & Hn & Hv).
  exists (bury [id] gh). set (ws := [WUnlink id; WTombstone id t]). eapply inv_perm.
  - eapply (evict_inv gh s (spawn ws (set_inner si s)) (works s) [id] ws); try done.
    + intros j x. simpl. by eapply prune_statements.
    + intros j ->%list_elem_of_singleton. simpl. by rewrite Hf.
    + intros j Hj. simpl. apply Hv. set_solver.
    + intros x [->|[->|[]%elem_of_nil]%elem_of_cons]%elem_of_cons; simpl; [done|set_solver].
    + intros j ->%list_elem_of_singleton. exists t. set_solver.
  - intros w. rewrite works_spawn. set_solver.
Qed.

(** A thread started with plain work. *)
Lemma spawn_plain gh s s0 l :
  inv gh s (works s) -> works s0 = works s -> sto_inner s0 = sto_inner s -> sto_history s0 = sto_history s -> sto_ids s0 = sto_ids s ->
  sto_seq s0 = sto_seq s -> sto_journal s0 = sto_journal s -> sto_files s0 ⊆ sto_files s ->
  (forall w, w ∈ l -> work_ok gh w /\ plain w) -> inv gh (spawn l s0) (works (spawn l s0)).
Proof.
  intros I Ew E1 E2 E3 E4 E5 E6 Hl. eapply (inv_same gh s _ (works s)); try done.
  - simpl. rewrite E1. apply ok_refl.
  - intros id [n ?]. left. exists n. by eapply lookup_weaken.
  - intros r. rewrite (records_spawn s) by done. split; [intros [?|Hx]; [done|]|by left].
    apply records_essential in Hx as (x & Hx & He & _). by destruct (Hl x Hx).
  - intros w [?|?]%works_spawn; [left; by rewrite <- Ew|right; by apply Hl].
  - intros id t ?. apply works_spawn. left. by rewrite Ew.
Qed.

Lemma drop_inv gh removed id s :
  inv gh s (works s) -> inv gh (drop_result_file removed id s) (works (drop_result_file removed id s)).
Proof.
  intros I. unfold drop_result_file, unlink. destruct (sto_files s !! id) as [n|] eqn:Hf; [|done]. destruct removed; [|done].
  eapply (spawn_plain gh s); try done; [apply delete_subseteq|]. apply elem_of_one. split; [|by intros []].
  apply (ti_files _ _ (iv_tiers _ _ _ I)). by eexists.
Qed.

(** A thread runs its next piece of work. *)
Lemma run_inv gh c w W s ws s1 s' :
  inv gh s (works s) -> room s -> (forall x, x ∈ works s <-> x ∈ w :: W) -> do_work c w s = (ws, s1) ->
  sto_inner s' = sto_inner s1 -> sto_history s' = sto_history s1 -> sto_ids s' = sto_ids s1 -> sto_seq s' = sto_seq s1 ->
  sto_files s' = sto_files s1 -> sto_journal s' = sto_journal s1 ->
  (forall x, x ∈ works s' -> x ∈ ws \/ x ∈ W \/ x ∈ spill_jobs w) ->
  (forall x, x ∈ ws \/ x ∈ W -> essential x -> x ∈ works s') -> exists gh', inv gh' s' (works s').
Proof.
  intros I Hroom HW E E1 E2 E3 E4 E5 E6 Hsub Hess.
  pose proof (inv_perm _ _ _ (w :: W) I ltac:(intros; by rewrite HW)) as I'. pose proof (do_work_inv c gh s w W I' Hroom) as Hd.
  rewrite E in Hd. destruct Hd as [gh' I1]. exists gh'. apply (inv_fields gh' s1); try done. eapply inv_works; [done|..].
  - intros x Hx. left. rewrite !elem_of_app. destruct (Hsub x Hx) as [?|[?|?]]; auto.
  - intros x. rewrite !elem_of_app. intros [?|[?|Hj]] He; [by apply Hess; [left|]|by apply Hess; [right|]|].
    destruct w; simpl in Hj; try by apply elem_of_nil in Hj. by apply list_elem_of_fmap in Hj as (? & -> & _).
Qed.

Lemma store_step_inv gh s s' : inv gh s (works s) -> Step s s' -> exists gh', inv gh' s' (works s').
Proof.
  intros I St. revert I. destruct St as [id sql source session op now clock s Hid Hroom|ts id s|id out el s Hc Hroom|id el s Hroom|id s|s Hon|removed id s Hon|s Hon|b s
    |c w rest l1 l2 s Eth Hroom|c w rest s Esp Hroom|job q s Esp Eq|s Esp]; intros I.
  - by eapply insert_inv.
  - by eapply mark_running_inv.
  - by eapply finish_inv.
  - by eapply cancel_inv.
  - exists gh. unfold await_durable, take_ack. case_match; [|done].
    destruct (statements (sto_inner s) !! id) as [st|] eqn:Hs; [|done].
    eapply (inv_same gh s _ (works s)); try done; try by auto.
    eapply (update_ok encode mode _ _ id st (set_ack false st)); try done; [by intros []; split|simpl; lia].
  - by eapply prune_inv.
  - exists gh. by apply drop_inv.
  - exists gh. eapply (spawn_plain gh s); try done. apply elem_of_one. by split; [|intros []].
  - exists gh. by apply (inv_fields gh s).
  - pose proof (do_work_frame c w s) as Fr. destruct (do_work c w s) as [ws s1] eqn:E. destruct Fr as (F1 & F2 & F3).
    eapply (run_inv gh c w (concat (l1 ++ rest :: l2) ++ sto_spill s ++ (WHandle <$> sto_queue s)) s ws s1); try done.
    + intros x. unfold works. rewrite Eth, !concat_app. simpl. set_solver.
    + intros x. unfold works. simpl. rewrite F2, !concat_app. simpl. rewrite !elem_of_app, !list_elem_of_fmap. naive_solver.
    + intros x Hx He. unfold works. simpl. rewrite F2, !concat_app in *. simpl in *. rewrite !elem_of_app in *.
      assert (~ x ∈ WHandle <$> sto_queue s) by (by intros (? & -> & _)%list_elem_of_fmap). tauto.
  - pose proof (do_work_frame c w s) as Fr. destruct (do_work c w s) as [ws s1] eqn:E. destruct Fr as (F1 & F2 & F3).
    eapply (run_inv gh c w (concat (sto_threads s) ++ rest ++ (WHandle <$> sto_queue s)) s ws s1); try done.
    + intros x. unfold works. rewrite Esp. set_solver.
    + intros x. unfold works. simpl. rewrite F1. rewrite !elem_of_app, !list_elem_of_fmap. naive_solver.
    + intros x Hx He. unfold works. simpl. rewrite F1. rewrite !elem_of_app in *.
      assert (~ x ∈ WHandle <$> sto_queue s) by (by intros (? & -> & _)%list_elem_of_fmap). tauto.
  - exists gh. apply (inv_fields gh s); try done. eapply inv_perm; [exact I|]. intros x. unfold works. simpl. rewrite Esp, Eq. set_solver.
  - exists gh. apply (inv_fields gh s); try done. eapply inv_works; [exact I| |]; intros x; unfold works; simpl.
    + set_solver.
    + rewrite !elem_of_app. intros [?|[?|(? & -> & _)%list_elem_of_fmap]]; [set_solver..|done].
Qed.

(** ** The first boot *)

Definition first_boot (lim : Limits) (files : gmap str Z) (issued : gset str) : Store :=
  with_history lim files ∅ issued (wrapu 64 (fd_max_seq (fold_records []) + 1), fold_records []).

Definition no_ghost : Ghost := {| g_ids := ∅; g_final := ∅; g_dead := ∅ |}.

Lemma first_boot_inv lim files issued :
  history_on lim = true -> inv no_ghost (first_boot lim files issued) (works (first_boot lim files issued)).
Proof.
  intros Hon. assert (Wf : store_wf (first_boot lim files issued)).
  { apply (boot_wf encode mode). apply boot_history; [done|by intros ? ?%elem_of_nil]. }
  assert (Hf : forall id, sto_files (first_boot lim files issued) !! id = None).
  { intros id. change (sto_files (first_boot lim files issued)) with (filter (fun x => x.1 ∈ dom (∅ : gmap str FoldedStatement) ∪ ∅) files).
    rewrite map_lookup_filter_None. right. intros ? _. simpl. set_solver. }
  split; try done.
  - split; try done.
    + intros id. split; [by intros ?%elem_of_empty|by intros [[] _]].
    + intros id. rewrite Hf. by intros [].
    + by intros id [].
  - intros w. unfold works, first_boot, with_history. simpl. intros [->|[]%elem_of_nil]%elem_of_cons. done.
  - by intros r ?%elem_of_nil.
  - by intros r1 r2 ?%elem_of_nil.
  - by intros id [].
Qed.

Definition runs (lim : Limits) (files : gmap str Z) (issued : gset str) (s : Store) : Prop :=
  history_on lim = true /\ rtc Step (first_boot lim files issued) s.

Lemma runs_inv lim files issued s : runs lim files issued s -> exists gh, inv gh s (works s).
Proof.
  intros [Hon R]. assert (B : exists gh, inv gh (first_boot lim files issued) (works (first_boot lim files issued))) by (eexists; by apply first_boot_inv).
  induction R as [|x y z St R IH]; [done|]. apply IH. destruct B as [gh I]. by eapply store_step_inv.
Qed.

(** ** The records are coherent *)

Lemma outcome_inv f id m l : outcome f = final_of id m l ->
  f = with_key (f_last_seq f) (f_rank f) (with_result (f_result f) (f_result_refused f) (final_of id m l)).
Proof. destruct f. intros E. injection E. intros. by subst. Qed.

(** The shapes of the records of one statement. *)
Definition snapshot_of (id : str) (m : Identity) (l : Life) (n rank : Z) (p : option ResultPointer) (q : option str) : JournalRecord :=
  to_snapshot (with_key n rank (with_result p q (final_of id m l))).

Inductive shape (gh : Ghost) (n : Z) (id : str) (m : Identity) : JournalRecord -> Prop :=
  | shape_submitted : shape gh n id m (submitted_record id m)
  | shape_running ts : shape gh n id m (running_record ts id m)
  | shape_snapshot l k rank p q : g_final gh !! id = Some l -> m_seq m < k < n -> shape gh n id m (snapshot_of id m l k rank p q).

Lemma record_shape gh n r : record_ok gh n r -> live r -> exists m, g_ids gh !! j_id r = Some m /\ shape gh n (j_id r) m r.
Proof.
  intros [(m & Hm & [Er|[ts Er]])|[(f & -> & (m & l & Hm & Hl & E) & Hlt)|[Hk _]]] Hlive.
  - exists m. split; [done|]. rewrite Er. simpl. constructor.
  - exists m. split; [done|]. rewrite Er. simpl. constructor.
  - exists m. split; [done|]. simpl. rewrite (outcome_inv _ _ _ _ E) at 2. constructor; [done|].
    replace (m_seq m) with (f_seq f) by (injection E; congruence). done.
  - by destruct Hlive.
Qed.

Lemma shape_id gh n id m r : shape gh n id m r -> j_id r = id.
Proof. by intros []. Qed.

Lemma shape_wf gh n id m r : shape gh n id m r -> well_formed r.
Proof.
  intros []; split; simpl; try done; try by eexists.
  - split; [done|]. split; [done|]. split; [done|]. by intros ? [= <-].
  - split; [done|]. split; [done|]. split; [done|]. by intros ? [= <-].
  - split; [by eexists|]. exists k. split; [done|]. lia.
Qed.

Lemma shape_agrees gh n id m r1 r2 :
  shape gh n id m r1 -> shape gh n id m r2 ->
  (j_kind r1 = KindSnapshot -> j_kind r2 = KindSnapshot -> j_last_seq r1 = j_last_seq r2 -> r1 = r2) -> agrees r1 r2.
Proof.
  intros S1 S2 Hk. destruct S1 as [|ts1|l1 k1 rk1 p1 q1 Hl1 Hn1], S2 as [|ts2|l2 k2 rk2 p2 q2 Hl2 Hn2];
    try (rewrite Hl1 in Hl2; injection Hl2 as <-); split; simpl; unfold agree, record_source; simpl; rewrite ?source_roundtrip; try done; try congruence.
  intros [= ->]. specialize (Hk eq_refl eq_refl eq_refl). unfold snapshot_of, to_snapshot in Hk. simpl in Hk. injection Hk as -> ->. done.
Qed.

Lemma inv_coherent gh s W : inv gh s W -> coherent (records s W).
Proof.
  intros I. split.
  - intros r Hr Hlive. destruct (record_shape _ _ _ (iv_records _ _ _ I r Hr) Hlive) as (m & _ & Hs). by eapply shape_wf.
  - intros r1 r2 H1 H2 L1 L2 E. destruct (record_shape _ _ _ (iv_records _ _ _ I r1 H1) L1) as (m & Hm & S1).
    destruct (record_shape _ _ _ (iv_records _ _ _ I r2 H2) L2) as (m' & Hm' & S2). rewrite <- E in Hm', S2.
    rewrite Hm in Hm'. injection Hm' as <-. eapply shape_agrees; [done..|]. by apply (iv_keys _ _ _ I).
Qed.

(** ** Replaying rebuilds the store *)

Lemma carries_value {A} (g : JournalRecord -> option A) S v w :
  carries g S v -> (forall r, r ∈ S -> g r = None \/ g r = w) -> (exists r, r ∈ S /\ g r = w) -> v = w.
Proof.
  intros Hc Hall (r0 & Hr0 & Hw). destruct v as [x|].
  - destruct Hc as (r & Hr & Hx). destruct (Hall r Hr); congruence.
  - rewrite <- Hw. symmetry. by apply Hc.
Qed.

(** The records a replay reads: those handed over, less any of the running
    notices, in any order and number. *)
Definition kept_by (s : Store) (l : list JournalRecord) : Prop :=
  (forall r, r ∈ l -> r ∈ sto_journal s) /\ (forall r, r ∈ sto_journal s -> j_kind r <> KindRunning -> r ∈ l).

Section Replay.
Context (gh : Ghost) (s : Store) (l : list JournalRecord) (I : inv gh s []) (Hkept : kept_by s l).

Lemma idle_records r : r ∈ records s [] <-> r ∈ sto_journal s.
Proof. unfold records. simpl. by rewrite app_nil_r. Qed.

Lemma kept_coherent : coherent l.
Proof. eapply coherent_sub; [|apply (inv_coherent _ _ _ I)]. intros r Hr. apply idle_records. by apply Hkept. Qed.

Lemma kept_fold : fold_of l (fold_records l).
Proof. eapply fold_of_iff; [intros r; apply elem_of_reverse|]. apply fold_records_fold_of, kept_coherent. Qed.

Lemma kept_shape id r : r ∈ records_of id l -> exists m, g_ids gh !! id = Some m /\ shape gh (sto_seq s) id m r.
Proof.
  intros (Hr & Hlive & <-)%elem_of_records_of. apply record_shape; [|done]. apply (iv_records _ _ _ I), idle_records. by apply Hkept.
Qed.

Lemma kept_submitted id m : g_ids gh !! id = Some m -> submitted_record id m ∈ records_of id l.
Proof. intros Hm. apply elem_of_records_of. split; [|done]. apply Hkept; [|done]. by apply idle_records, (iv_submitted _ _ _ I). Qed.

Lemma kept_retired id : retired id l <-> id ∈ g_dead gh.
Proof.
  split.
  - intros (r & Hr & Hk & <-). destruct (iv_records _ _ _ I r) as [(m & _ & [Er|[ts Er]])|[(f & -> & _)|[_ ?]]]; [|by rewrite Er in Hk..|done|done].
    apply idle_records. by apply Hkept.
  - intros [(r & Hr & Hi & Hk)|(t & []%elem_of_nil)]%(iv_tomb _ _ _ I). exists r. split; [|done].
    apply Hkept; [by apply idle_records|by rewrite Hk].
Qed.

(** A finished statement has a snapshot among them, and it is the newest. *)
Lemma kept_final id m lf S : g_ids gh !! id = Some m -> g_final gh !! id = Some lf -> S = records_of id l ->
  (exists r, r ∈ S /\ exists k rank p q, r = snapshot_of id m lf k rank p q /\ m_seq m < k)
  /\ forall r, newest S r -> exists k rank p q, r = snapshot_of id m lf k rank p q.
Proof.
  intros Hm Hl ->.
  assert (Hsn : exists r, r ∈ records_of id l /\ exists k rank p q, r = snapshot_of id m lf k rank p q /\ m_seq m < k).
  { destruct (iv_final _ _ _ I id) as (r & Hr & Hi & Hk); [by eexists|]. exists r. assert (Hin : r ∈ records_of id l).
    { apply elem_of_records_of. unfold live. rewrite Hk. split; [|done]. apply Hkept; [by apply idle_records|by rewrite Hk]. }
    split; [done|]. destruct (kept_shape id r Hin) as (m' & Hm' & Hs). rewrite Hm in Hm'. injection Hm' as <-.
    destruct Hs as [| |lf' k rank p q Hl' Hlt]; [done..|]. rewrite Hl in Hl'. injection Hl' as <-. exists k, rank, p, q. split; [done|lia]. }
  split; [done|]. intros r [Hr Hnew]. destruct (kept_shape id r Hr) as (m' & Hm' & Hs). rewrite Hm in Hm'. injection Hm' as <-.
  destruct Hsn as (r0 & Hr0 & k & rank & p & q & -> & Hk). specialize (Hnew _ Hr0). unfold key_ltb in Hnew.
  destruct Hs as [| |lf' k' rank' p' q' Hl' _]; [..|rewrite Hl in Hl'; injection Hl' as <-; by repeat eexists];
    simpl in Hnew; rewrite (proj2 (Z.ltb_lt _ _) Hk) in Hnew; done.
Qed.

Lemma replay_fields id m f : g_ids gh !! id = Some m -> summary (records_of id l) f ->
  f_id f = id /\ f_seq f = m_seq m /\ f_sql f = encode (m_sql m) /\ f_sql_encoding f = mode /\ f_session f = m_session m
  /\ f_client_op_id f = m_client_op_id m /\ f_source f = m_source m /\ f_submitted_at_ms f = m_submitted_at_ms m.
Proof.
  intros Hm [Ss So Sse Ssq Sen _ _ _ _ _]. pose proof (kept_submitted id m Hm) as Hsub.
  assert (Hall : forall r, r ∈ records_of id l -> shape gh (sto_seq s) id m r).
  { intros r Hr. destruct (kept_shape id r Hr) as (m' & Hm' & ?). rewrite Hm in Hm'. by injection Hm' as <-. }
  destruct (Ss _ Hsub) as (Ei & Eq & Et & Er). simpl in *. unfold record_source in Er. simpl in Er. rewrite source_roundtrip in Er.
  destruct Ssq as (v & Hv & Esql). destruct Sen as (v' & Hv' & Eenc).
  rewrite (carries_value _ _ _ (Some (encode (m_sql m))) Hv) in Esql; [|by intros r []%Hall; auto|by eexists].
  rewrite (carries_value _ _ _ (Some mode) Hv') in Eenc; [|by intros r []%Hall; auto|by eexists].
  pose proof (carries_value _ _ _ (m_session m) Sse ltac:(by intros r []%Hall; auto) ltac:(by eexists)).
  pose proof (carries_value _ _ _ (m_client_op_id m) So ltac:(by intros r []%Hall; auto) ltac:(by eexists)).
  by repeat (split; [done|]).
Qed.

Lemma replay_final id m lf f : g_ids gh !! id = Some m -> g_final gh !! id = Some lf -> summary (records_of id l) f ->
  outcome f = final_of id m lf.
Proof.
  intros Hm Hl Sm. destruct (replay_fields id m f Hm Sm) as (E1 & E2 & E3 & E4 & E5 & E6 & E7 & E8).
  destruct (kept_final id m lf _ Hm Hl eq_refl) as [(r0 & Hr0 & k0 & rk0 & p0 & q0 & -> & _) Hnew].
  assert (Hall : forall r, r ∈ records_of id l -> shape gh (sto_seq s) id m r).
  { intros r Hr. destruct (kept_shape id r Hr) as (m' & Hm' & ?). rewrite Hm in Hm'. by injection Hm' as <-. }
  destruct Sm as [_ _ _ _ _ Se Ssc Sr Sd (n & Hn & _ & Est & _)].
  destruct (Hnew n Hn) as (k & rk & p & q & ->). simpl in Est. injection Est as Est.
  assert (Hval : forall (A : Type) (g : JournalRecord -> option A) (w v : option A), carries g (records_of id l) v ->
    g (snapshot_of id m lf k0 rk0 p0 q0) = w ->
    (forall r, shape gh (sto_seq s) id m r -> g r = None \/ g r = w) -> v = w).
  { intros A g w v Hc Hw Hsh. eapply carries_value; [exact Hc|intros r Hr; by apply Hsh, Hall|by eexists]. }
  pose proof (Hval _ _ (l_error lf) _ Se eq_refl ltac:(intros r []; simpl; [by left|by left|simplify_eq; by right])) as F1.
  pose proof (Hval _ _ (l_schema lf) _ Ssc eq_refl ltac:(intros r []; simpl; [by left|by left|simplify_eq; by right])) as F2.
  pose proof (Hval _ _ (l_row_count lf) _ Sr eq_refl ltac:(intros r []; simpl; [by left|by left|simplify_eq; by right])) as F3.
  pose proof (Hval _ _ (l_duration_ms lf) _ Sd eq_refl ltac:(intros r []; simpl; [by left|by left|simplify_eq; by right])) as F4.
  destruct f. unfold outcome, final_of, with_key, with_result. simpl in *. by subst.
Qed.

Lemma replay_open id m f : g_ids gh !! id = Some m -> g_final gh !! id = None -> summary (records_of id l) f -> is_terminal (f_status f) = false.
Proof.
  intros Hm Hl [_ _ _ _ _ _ _ _ _ (n & [Hn _] & _ & Est & _)]. destruct (kept_shape id n Hn) as (m' & _ & Hs).
  destruct Hs as [| |lf k rk p q Hl' _]; [by injection Est as <-..|congruence].
Qed.

End Replay.

(** ** The theorems *)

(** No thread holds work and the spill queue is empty. *)
Definition idle (s : Store) : Prop := works s = [].

(** What a boot makes of a statement the store knows: the same statement, with
    the same outcome if it has one. *)
Definition rebuilt (known replayed : option FoldedStatement) : Prop :=
  match known, replayed with
  | Some a, Some b => advances a b /\ is_terminal (f_status b) = is_terminal (f_status a)
  | None, None => True
  | _, _ => False
  end.

(** C15. Whatever the threads of the store do and in whatever order, the records
    it has handed to the journal are coherent: well formed, never
    contradicting each other, and with a fold key of its own for every
    snapshot.  This is the hypothesis of [fold_set_determined], and one of
    those of the journal's crash theorems.  The store was booted on an empty
    journal. *)
Theorem store_coherent (lim : Limits) (files : gmap str Z) (issued : gset str) (s : Store) :
  runs lim files issued s -> coherent (sto_journal s).
Proof.
  intros [gh I]%runs_inv. eapply coherent_sub; [|apply (inv_coherent _ _ _ I)]. intros r Hr. unfold records. set_solver.
Qed.

(** C11. Once the threads are idle, replaying what was handed to the journal, in
    any order and number and less any of the droppable running notices,
    rebuilds the store: the same statements, none that was evicted, each
    finished one with its outcome and each open one open.  The store was booted
    on an empty journal. *)
Theorem replay_rebuilds_store (lim : Limits) (files : gmap str Z) (issued : gset str) (s : Store) (l : list JournalRecord) :
  runs lim files issued s -> idle s -> kept_by s l ->
  forall id, rebuilt (view (sto_inner s) id) (fd_statements (fold_records l) !! id).
Proof.
  intros [gh I]%runs_inv Hidle Hk id. rewrite Hidle in I. pose proof (kept_fold gh s l I Hk) as F. pose proof (iv_tiers _ _ _ I) as T.
  unfold rebuilt. destruct (view (sto_inner s) id) as [v|] eqn:Hv, (fd_statements (fold_records l) !! id) as [f|] eqn:Hf; [| | |done].
  - destruct (fo_statements _ _ F id f Hf) as (_ & _ & Sm). destruct (ti_live _ _ T id v Hv) as [Hid [m Hm]].
    destruct (replay_fields gh s l I Hk id m f Hm Sm) as (E1 & E2 & E3 & E4 & E5 & E6 & E7 & E8).
    destruct (is_terminal (f_status v)) eqn:Ht.
    + destruct (ti_view _ _ T id v Hv Ht) as (m' & lf & Hm' & Hl & Eo). rewrite Hid in *. simplify_eq.
      pose proof (replay_final gh s l I Hk _ _ lf f Hm Hl Sm) as Ef. rewrite <- Eo in Ef.
      split; [by apply outcome_eq_advances|]. by rewrite (outcome_status _ _ Ef).
    + unfold StoreWf.view in Hv. destruct (statements (sto_inner s) !! id) as [st|] eqn:Hs.
      * injection Hv as <-. destruct (ti_hot _ _ T id st Hs) as [Hm' Hl]. simpl in Ht. rewrite Ht in Hl. simplify_eq.
        split; [|by eapply replay_open]. split; simpl; try done. simpl. congruence.
      * destruct (ar_entry _ _ _ (co_archived _ (wf_core _ (sw_inner _ (iv_wf _ _ _ I)))) id v Hv). congruence.
  - destruct (ti_live _ _ T id v Hv) as [Hid [m Hm]]. destruct (fo_absent _ _ F id Hf) as [Hr|Hr].
    + apply (kept_retired gh s l I Hk), (ti_dead _ _ T) in Hr as [_ ?]. congruence.
    + pose proof (kept_submitted gh s l I Hk id m Hm) as Hin. rewrite Hr in Hin. by apply elem_of_nil in Hin.
  - destruct (fo_statements _ _ F id f Hf) as (Hnr & _ & Sm). apply Hnr, (kept_retired gh s l I Hk), (ti_dead _ _ T). split; [|done].
    destruct (su_newest _ _ Sm) as (n & [Hn _] & _). destruct (kept_shape gh s l I Hk id n Hn) as (m & ? & _). by eexists.
Qed.

End Records.
