(* ===== verification/StoreRuns.v ===== *)
(** * StoreRuns: runs of the statement store

    A script of operations and thread steps ([Cmd]) executes to a run of
    [Step] ([exec_sound]).  On it: the witnesses of the theorems of StoreWf and
    StoreRecords, and the runs in which the code does not do what its comments
    say. *)

From S2P Require Import Prelude Text Effects HistoryRecord Journal JournalDisk JournalQueue JournalCodecs JournalRuns.
From S2P Require Import StatementStore StoreThreads StoreWf StoreRecords.

(** ** Scripts *)

Section Scripts.
Context `{Batches, Chrono} (encode : str -> str) (mode : str) (persist : ResultPersist).

Inductive Cmd :=
  | CInsert (id sql : str) (session op : option str) (now clock : Z)
  | CRunning (ts id : str)
  | CFinish (id : str) (out : ExecOutcome) (elapsed : Z)
  | CCancel (id : str) (elapsed : Z)
  | CPrune
  | CDrop (removed : bool) (id : str)
  | CReconcile
  | CThread (i : nat) (c : Choice)
  | CSpill (c : Choice)
  | CReceive
  | CStop.

Definition has_room (s : Store) : bool := (sto_seq s + 1 <? 2 ^ 64) && (next_seq_no (sto_inner s) + 1 <? 2 ^ 64).
Definition fits (s : Store) (out : ExecOutcome) : bool :=
  match out with OutSucceeded bs => result_bytes (sto_inner s) + retained_bytes bs <? 2 ^ 64 | _ => true end.

Definition exec_cmd (cmd : Cmd) (s : Store) : option Store :=
  if negb (has_room s) || negb (sto_history s) then None else
  match cmd with
  | CInsert id sql session op now clock =>
      if decide (id ∈ sto_ids s) then None else Some (insert_from encode mode id sql Rest session op now clock s)
  | CRunning ts id => Some (mark_running ts id s)
  | CFinish id out el => if fits s out then Some (finish encode mode persist id out el s) else None
  | CCancel id el => Some (cancel encode mode id el s).2
  | CPrune => Some (prune_oldest_statement s)
  | CDrop removed id => Some (drop_result_file removed id s)
  | CReconcile => Some (spawn [WReconcile (live_ids (sto_inner s))] s)
  | CThread i c =>
      match sto_threads s !! i with
      | Some (w :: rest) =>
          let '(ws, s1) := do_work encode mode persist c w s in Some (set_threads (<[i := ws ++ rest]> (sto_threads s)) s1)
      | _ => None
      end
  | CSpill c =>
      match sto_spill s with
      | w :: rest => let '(ws, s1) := do_work encode mode persist c w s in Some (set_spill (ws ++ rest) s1)
      | [] => None
      end
  | CReceive =>
      match sto_spill s, sto_queue s with
      | [], job :: q => Some (set_spill [WHandle job] (set_queue q s))
      | _, _ => None
      end
  | CStop => match sto_spill s with [] => Some (stop_spills s) | _ => None end
  end.

Fixpoint exec_script (cmds : list Cmd) (s : Store) : option Store :=
  match cmds with [] => Some s | cmd :: cmds => match exec_cmd cmd s with Some s => exec_script cmds s | None => None end end.

Lemma exec_cmd_sound cmd s s' : exec_cmd cmd s = Some s' -> Step encode mode persist s s'.
Proof.
  unfold exec_cmd. destruct (has_room s) eqn:Hr; [|done]. destruct (sto_history s) eqn:Hh; [|done]. simpl.
  assert (Hroom : room s) by (unfold has_room in Hr; apply andb_true_iff in Hr as [?%Z.ltb_lt ?%Z.ltb_lt]; done).
  destruct cmd as [id sql session op now clock|ts id|id out el|id el| |removed id| |i c|c| |].
  - case_decide; [done|]. intros [= <-]. by constructor.
  - intros [= <-]. constructor.
  - destruct (fits s out) eqn:Hf; [|done]. intros [= <-]. constructor; [|done]. unfold fits, counts in *. case_match; [by apply Z.ltb_lt|done..].
  - intros [= <-]. by constructor.
  - intros [= <-]. by constructor.
  - intros [= <-]. by constructor.
  - intros [= <-]. by constructor.
  - destruct (sto_threads s !! i) as [[|w rest]|] eqn:Hi; [done| |done].
    pose proof (take_drop_middle _ _ _ Hi) as E. symmetry in E.
    pose proof (step_thread encode mode persist c w rest _ _ s E Hroom) as St. destruct (do_work encode mode persist c w s) as [ws s1].
    intros [= <-]. rewrite insert_take_drop by (by apply lookup_lt_is_Some; eexists). exact St.
  - destruct (sto_spill s) as [|w rest] eqn:Hs; [done|].
    pose proof (step_spill encode mode persist c w rest s Hs Hroom) as St. destruct (do_work encode mode persist c w s) as [ws s1]. by intros [= <-].
  - destruct (sto_spill s) eqn:Hs; [|done]. destruct (sto_queue s) eqn:Hq; [done|]. intros [= <-]. by constructor.
  - destruct (sto_spill s) eqn:Hs; [|done]. intros [= <-]. by constructor.
Qed.

Lemma exec_sound cmds s s' : exec_script cmds s = Some s' -> rtc (Step encode mode persist) s s'.
Proof.
  revert s. induction cmds as [|cmd cmds IH]; intros s; simpl; [by intros [= ->]|].
  destruct (exec_cmd cmd s) as [s1|] eqn:E; [|done]. intros ?. eapply rtc_l; [by eapply exec_cmd_sound|auto].
Qed.

End Scripts.

(** ** A concrete store *)

Module StoreRuns.

#[local] Instance bytes_batches : Batches :=
  {| batch := Z; num_rows b := b; memory_size b := 100; batch_fields b := [(lit "x", lit "Int64")] |}.

Definition plain_sql (s : str) : str := s.
Definition text : str := lit "text".
Definition lim : Limits :=
  {| history_on := true; lim_max_records := 2; hot_ttl_ms := 1000; max_per_session := 2; lim_retention_days := 0; result_budget := 50 |}.
Definition ch : Choice := {| c_now := 5; c_ts := lit "t"; c_taken := true; c_removed := true; c_encoded := Landed 64 |}.
Definition too_large : Choice := {| c_now := 5; c_ts := lit "t"; c_taken := true; c_removed := true; c_encoded := Refused |}.
Definition boot0 : Store := first_boot lim ∅ ∅.
Definition q1 : str := lit "stmt-1".
Definition q2 : str := lit "stmt-2".
Definition q3 : str := lit "stmt-3".

Definition script (cmds : list Cmd) : Store := default boot0 (exec_script plain_sql text OnPressure cmds boot0).

(** Two statements run to the end and are idle. *)
Definition settled_script : list Cmd :=
  [CThread 0 ch;
   CInsert q1 (lit "select 1") (Some (lit "s")) (Some (lit "op-1")) 0 0; CThread 1 ch; CThread 1 ch;
   CRunning (lit "t") q1; CThread 2 ch;
   CInsert q2 (lit "select 2") (Some (lit "s")) None 0 0; CThread 3 ch; CThread 3 ch;
   CFinish q1 (OutSucceeded [3]) 7; CThread 4 ch; CThread 4 ch; CThread 4 ch; CReceive; CSpill ch; CSpill ch; CSpill ch; CSpill ch; CSpill ch; CSpill ch;
   CCancel q2 9; CThread 5 ch; CThread 5 ch].

Definition runs_through (cmds : list Cmd) : bool :=
  match exec_script plain_sql text OnPressure cmds boot0 with Some _ => true | None => false end.

Lemma script_steps cmds : runs_through cmds = true -> rtc (Step plain_sql text OnPressure) boot0 (script cmds).
Proof.
  unfold runs_through, script. destruct (exec_script plain_sql text OnPressure cmds boot0) as [s|] eqn:E; [|done]. intros _. by eapply exec_sound.
Qed.
Lemma script_runs cmds : runs_through cmds = true -> runs plain_sql text OnPressure lim ∅ ∅ (script cmds).
Proof. intros Hc. split; [done|]. by apply script_steps. Qed.
Lemma script_reachable cmds : runs_through cmds = true -> reachable plain_sql text OnPressure (script cmds).
Proof.
  intros Hc. exists boot0. split; [|by apply script_steps]. apply (boot_history lim ∅ ∅ ∅ []); [done|by intros ? ?%elem_of_nil].
Qed.

Lemma settled_ok : runs_through settled_script = true.
Proof. vm_compute. reflexivity. Qed.

(** ** Witnesses *)

Lemma store_well_formed_witness : store_wf (script settled_script).
Proof. apply (store_well_formed plain_sql text OnPressure), script_reachable, settled_ok. Defined.

Definition swept : list Work * Store := do_work plain_sql text OnPressure ch WSweep (script settled_script).

Lemma outcomes_are_final_witness :
  evolves plain_sql text (sto_inner (script settled_script)) (sto_inner (prune_oldest_statement (script settled_script))).
Proof.
  apply (outcomes_are_final plain_sql text OnPressure); [apply script_reachable, settled_ok| |vm_compute; reflexivity].
  apply step_prune. vm_compute. reflexivity.
Defined.

Lemma store_coherent_witness : coherent (sto_journal (script settled_script)).
Proof. apply (store_coherent plain_sql text OnPressure lim ∅ ∅), script_runs, settled_ok. Defined.

Lemma settled_idle : idle (script settled_script).
Proof. vm_compute. reflexivity. Qed.

Lemma replay_rebuilds_store_witness :
  rebuilt (view plain_sql text (sto_inner (script settled_script)) q1)
    (fd_statements (fold_records (reverse (sto_journal (script settled_script)))) !! q1).
Proof.
  apply (replay_rebuilds_store plain_sql text OnPressure lim ∅ ∅ (script settled_script)); [apply script_runs, settled_ok|exact settled_idle|].
  split; [intros r; by rewrite elem_of_reverse|intros r ? _; by apply elem_of_reverse].
Defined.

(** ** Runs that go wrong *)

Definition resurrect_script : list Cmd :=
  [CThread 0 ch; CInsert q1 (lit "select 1") None None 0 0; CThread 1 ch; CThread 1 ch;
   CFinish q1 (OutSucceeded [3]) 7; CThread 2 ch; CThread 2 ch; CThread 2 ch; CReceive; CSpill ch;
   CPrune; CThread 3 ch; CThread 3 ch; CThread 3 ch;
   CSpill too_large; CSpill ch; CSpill ch].

(** The journal's writer on the records of that run, in their order, with a
    compaction when it has taken all but the last. *)
Definition compacting_writer (l : list JournalRecord) : World :=
  (run (((fun r => Append r false) <$> take 3 l) ++ [CompactNow] ++ ((fun r => Append r false) <$> drop 3 l))
     (set_script [] JournalRuns.first_boot)).2.
Definition plain_writer (l : list JournalRecord) : World :=
  (run ((fun r => Append r false) <$> l) (set_script [] JournalRuns.first_boot)).2.

(** A statement evicted while its result is being encoded comes back.  When
    the encoding passes the size cap the spill thread journals a snapshot
    without asking again whether the statement is still there, so the
    snapshot follows the tombstone; if the journal's writer compacts in
    between, which drops the tombstone, the next boot shows the evicted
    statement again. *)
Theorem too_large_resurrects : exists s,
  runs plain_sql text OnPressure lim ∅ ∅ s /\ snapshot q1 (sto_inner s) = None
  /\ found (cur (w_fs (plain_writer (sto_journal s)))) q1 = None
  /\ found (cur (w_fs (compacting_writer (sto_journal s)))) q1 = Some Succeeded.
Proof.
  exists (script resurrect_script). split; [apply script_runs; vm_compute; reflexivity|].
  repeat (split; [vm_compute; reflexivity|]). vm_compute. reflexivity.
Qed.

Definition reconcile_script : list Cmd :=
  [CThread 0 ch; CReconcile; CInsert q1 (lit "select 1") None None 0 0; CThread 2 ch; CThread 2 ch;
   CFinish q1 (OutSucceeded [3]) 7; CThread 3 ch; CThread 3 ch; CThread 3 ch;
   CReceive; CSpill ch; CSpill ch; CSpill ch; CSpill ch; CSpill ch; CSpill ch; CThread 1 ch; CThread 1 ch].

(** The disk sweep can delete the result of a statement it does not know
    yet.  The set of live identifiers is taken before the directory is listed;
    a statement submitted, finished and spilled in between has its file
    removed as an orphan although its rows have left memory: the store keeps
    answering that the result is on disk, and it is nowhere. *)
Theorem reconcile_deletes_live_result : exists s snap file,
  runs plain_sql text OnPressure lim ∅ ∅ s /\ idle s
  /\ result q1 (sto_inner s) = Some (snap, Disk (Some file)) /\ ss_status snap = Succeeded /\ ss_row_count snap = Some 3
  /\ sto_files s !! q1 = None.
Proof.
  exists (script reconcile_script). do 2 eexists. split; [apply script_runs; vm_compute; reflexivity|].
  split; [vm_compute; reflexivity|]. split; [vm_compute; reflexivity|]. repeat split; vm_compute; reflexivity.
Qed.

Definition lost_job_script : list Cmd :=
  [CThread 0 ch; CStop; CInsert q1 (lit "select 1") None None 0 0; CThread 1 ch; CThread 1 ch;
   CFinish q1 (OutSucceeded [3]) 7; CThread 2 ch; CThread 2 ch; CThread 2 ch].

(** A job handed to a spill thread that has stopped is taken for queued: the
    store is idle, the rows are in memory over the budget, and the statement
    stays marked as being spilled. *)
Theorem stopped_spiller_keeps_rows : exists s st,
  runs plain_sql text OnPressure lim ∅ ∅ s /\ idle s /\ statements (sto_inner s) !! q1 = Some st
  /\ r_spilling (s_rows st) = true /\ r_in_memory (s_rows st) = true /\ result_budget lim < result_bytes (sto_inner s).
Proof.
  exists (script lost_job_script). eexists. split; [apply script_runs; vm_compute; reflexivity|].
  repeat (split; [vm_compute; reflexivity|]). vm_compute. reflexivity.
Qed.

Definition demoted_script : list Cmd :=
  [CThread 0 ch; CInsert q1 (lit "select 1") None None 0 0; CThread 1 ch; CThread 1 ch;
   CFinish q1 (OutSucceeded [3]) 2000; CInsert q2 (lit "select 2") None None 2000 2000].

(** A statement that ran longer than the hot TTL can be reported durable
    before its outcome is in the journal: it is demoted by the next submission
    as soon as it is finished, [await_durable] takes a statement that is no
    longer hot for one whose record was written, and the record is still on
    its way.  A boot from what the journal was handed answers failed, not
    succeeded. *)
Theorem demoted_before_durable : exists s snap f,
  runs plain_sql text OnPressure lim ∅ ∅ s /\ (await_durable q1 s).1 = AnswerDurable
  /\ snapshot q1 (sto_inner s) = Some snap /\ ss_status snap = Succeeded
  /\ fd_statements (mark_interrupted (fold_records (sto_journal s))).2 !! q1 = Some f /\ f_status f = Failed.
Proof.
  exists (script demoted_script). do 2 eexists. split; [apply script_runs; vm_compute; reflexivity|].
  repeat (split; [vm_compute; reflexivity|]). vm_compute. reflexivity.
Qed.

Definition dangling_script : list Cmd :=
  [CThread 0 ch; CInsert q1 (lit "select 1") None None 0 0; CThread 1 ch; CThread 1 ch;
   CFinish q1 (OutSucceeded [3]) 7; CThread 2 ch; CThread 2 ch; CThread 2 ch;
   CReceive; CSpill ch; CSpill ch; CDrop true q1; CThread 3 ch; CThread 3 ch; CSpill ch; CSpill ch; CSpill ch; CSpill ch].

(** A result file dropped between the moment it lands and the moment its
    pointer is journaled: the clearing is journaled first, so a boot reads a
    pointer to a file that is gone. *)
Theorem dropped_file_dangles : exists s f p,
  runs plain_sql text OnPressure lim ∅ ∅ s /\ idle s /\ sto_files s !! q1 = None
  /\ fd_statements (fold_records (sto_journal s)) !! q1 = Some f /\ f_result f = Some p.
Proof.
  exists (script dangling_script). do 2 eexists. split; [apply script_runs; vm_compute; reflexivity|].
  repeat (split; [vm_compute; reflexivity|]). vm_compute. reflexivity.
Qed.

End StoreRuns.
